(* ===== verification/_CoqProject ===== *)
-Q . S2P
Prelude.v
Logger.v
Lambdastore.v
Request.v
Instance.v
Connection.v
Responses.v
Serving.v
Validation.v
Sending.v
CoolTimer.v
Group.v
Meta.v
Placer.v
Clock.v
ClockRefine.v
Accounting.v
PlacerInv.v
PlacerSystem.v
Fixtures.v
PlacerTheorems.v
Scheduler.v
SchedulerTheorems.v
Proxy.v
ProxyTheorems.v
Erasure.v
ErasureTheorems.v
Client.v
ClientTheorems.v
Example.v
Storage.v
Lifetime.v
LifetimeTheorems.v
Migrator.v
StorageAdapter.v
AdapterTheorems.v
Session.v
LambdaHandler.v
HandlerTheorems.v
Migration.v
MigrationTheorems.v
ForwardConn.v
MigrationStart.v
Wire.v
WireTheorems.v
Interleave.v
Operations.v
EndToEnd.v
LambdaCollector.v
Invocation.v
Deploy.v
ProxyCollector.v
Lifecycle.v
GlobalIp.v
ProxyMain.v
