(* ===== verification/Prelude.v ===== *)
(** * A verification library for InfiniCache

    InfiniCache is an object cache in the memory of serverless functions.  A
    client splits an object into data and parity shards and sends them to a
    proxy; the proxy places each shard as a chunk on a lambda of a group,
    forwards requests over the connections the lambdas open, and evicts objects
    when instances are full; a lambda stores chunks, answers requests, decides
    when to return and migrates its chunks to another lambda when its life ends.

    ** Method

    Go code is translated by hand to functions in the monad [M] of this file: a
    computation returns, panics (with the reason), or does not return ([Spins]:
    a loop out of fuel, or a channel operation that blocks).  Pointers are keys
    of heaps ([LHeap], [SHeap], [PState], [Sessions]), so that aliasing is kept;
    records have the fields of the structs and are updated with [r <| f := v |>].
    Machine integers are [Z] with explicit wrap-around ([u64], [i64], [i32]).
    Wall-clock times, random permutations, the order in which goroutines end or
    a map is iterated, and the results of network calls are arguments of the
    operations that use them, and the theorems quantify over them.  Library code
    (redeo, Reed-Solomon, the AWS SDK) appears as such arguments, or as classes
    with laws: [ErasureCode] for the encoder, [Remote] for the peer of a
    migration connection.

    ** The parts, and where they are

    - proxy/lambdastore/deployment.go, meta.go, and the types of instance.go,
      connection.go, proxy/types: [Lambdastore] (heap, deployments, sizes);
      proxy/types/request.go, control.go, response.go: [Request].
    - proxy/lambdastore/instance.go: [Instance] (validation, triggering,
      request loop, migration, closing); connection.go: [Connection] (matching
      responses, handlers, serving).  [Responses], [Validation] and [Sending]
      hold their properties, over step relations that interleave the calls;
      [Serving] has the goroutines that peek at a connection for the serving
      loop, [CoolTimer] the warm-up timer and the loop that waits on it.
    - proxy/server/group.go: [Group]; meta.go: [Meta]; placer.go, metastore.go:
      [Placer].  [Clock] is the abstract second-chance queue and [ClockRefine]
      the simulation; [Accounting], [PlacerInv], [PlacerSystem] build the
      invariant of concurrent placements, [Fixtures] has concrete states,
      [PlacerTheorems] the results.
    - proxy/server/scheduler.go: [Scheduler], [SchedulerTheorems]; proxy.go and
      config.go: [Proxy], [ProxyTheorems], and [Lifecycle] for its start and
      release; proxy/proxy.go, the accept loop and the readiness of the proxy:
      [ProxyMain]; proxy/global: [GlobalIp]; proxy/collector: [ProxyCollector].
    - client/ec.go: [Erasure], [ErasureTheorems]; client/client.go and
      ecRedis.go: [Client], [ClientTheorems]; its dialling and the example:
      [Example].  common/logger and client/log.go: [Logger].
    - lambda/types, lambda/storage: [Storage]; lambda/lifetime/lifetime.go and
      timeout.go: [Lifetime], with the timeout's goroutine and its callers as
      the transition function [tstep], and [LifetimeTheorems]; session.go:
      [Session].
    - lambda/migrator/client.go and intercept_reader.go: [Migrator], where the
      calls that share the ready channel are also cut into their channel
      operations ([istep]); storage_adapter.go, with its pool of commands, and
      the interface types.Storage: [StorageAdapter] (classes [StorageOps],
      [StoreLaws]), [AdapterTheorems].
    - lambda/handler.go: [LambdaHandler], [HandlerTheorems]; the source of a
      migration as the peer of the adapter, and Client.Migrate: [Migration],
      [MigrationTheorems]; from the request of the source to the invocation of
      the destination, through proxy, scheduler and migrator: [MigrationStart];
      the end of an invocation, with the wait group of its session: [Invocation].
    - migrator/forward_connection.go, migrator.go, and the scheduler's
      StartMigrator: [ForwardConn]; lambda/collector: [LambdaCollector];
      deploy/deploy_function.go: [Deploy].
    - The three programs joined: [Wire] reads on one side what the other wrote
      (client to proxy, proxy to lambda, and back) and cuts the way of a
      request into parts, [WireTheorems] runs single requests, [Interleave]
      any number of requests at once, which [Operations] groups into SETs and
      GETs of objects; [EndToEnd] has the results for chunks and objects.

    ** What is shown

    - End to end: an object that was set through the proxy comes back from any
      [d] of its [d + p] lambdas, whatever the interleaving of its requests
      with those of other SETs and GETs, which neither deadlock nor panic; a
      chunk that was placed by the proxy comes back from the instance it was
      placed on.
    - Placement: the size counters account for the chunks placed in every
      interleaving of SETs and GETs; the two arrays of the clock implement a
      second-chance queue; eviction terminates when another object is complete;
      a SET is readable by GET and goes to the same instance; evicted objects
      are dropped from the instances that hold them; slices are dealt round
      robin, and the lambda ids of one slice get distinct instances.
    - Requests: each is answered at most once whatever connections and instances
      do; what is written is one frame; a request that fails for good, in
      whatever part of its sending, is answered with an error; the only open
      connection of an instance is its current one, and the one validated last;
      closing releases those who wait; a connection has one reader at a time;
      an instance never waits without a warm-up to come.
    - Deployments: the scheduler conserves them; switching exchanges them; the
      proxy process, from its listeners to its exit, returns all of them, and
      exits only after the data command of every instance was answered or could
      not be written.
    - Client: a GET returns the object as soon as enough shards arrive, and
      fails otherwise; a SET succeeds exactly when no shard failed; splitting
      and joining round-trip.
    - Lambdas: the deadline computed in floating point is exact; a timeout is
      signalled only after the lambda was found enabled, not busy and past its
      deadline; an invocation returns only when its session is done, and then
      can, unless it is initiating a migration; the get, set
      and del handlers refine a map of chunks for any store that satisfies the
      contract, which lambda/storage does, and the migration adapter for
      requests that do not overlap; the ready channel of a migration is closed
      once and holds one error; a migration reaches both its ends over its own
      migrator, and moves every chunk, with requests of the proxy in between,
      under the conditions that the defects below make necessary.
    - Forwarding keeps the bytes and their order in both directions at once;
      every measurement of a lambda is accounted for, those of the proxy are not
      mixed up; the deployment tool covers its range exactly, in whatever order
      the goroutines of a batch run; the address announced is the first private
      one by RFC 1918.
    - Defects: each is a theorem about the model or a lemma next to the
      properties (double eviction, a spinning eviction loop, overcommitment, a
      stream sent twice, a nil reader reported as success, the deadlock and the
      lost extension of resetLocked, a chunk stored under another key through a
      pooled command, the race on the ready channel, chunks lost or stale after
      a migration, a second signal that panics, a data command without an answer
      that keeps the proxy from exiting, a deployment that hangs on a refused
      update, an invocation that returns during its migration, one that cannot
      return while it initiates one, a peek left behind).

    ** Fuel and bounds

    The only fuel is that of the eviction loop ([evictLoop]): three sweeps are
    shown to be enough when another object is complete, and no amount is when
    none is.  Other loops recurse on the list they traverse or on the list of
    outcomes given to them.  Floating-point deadlines are exact below 2^53
    nanoseconds; key counts of a migration are below 2^63; a group has fewer
    than 2^31 instances; the range of the deployment tool lies within 2^52.

    ** Not modelled

    The calls of the loggers in the other components; the files and uploads that
    collectors write; the parsing of flags; what libraries do (the
    consistent-hash ring and the cuckoo filters of the client, nanolog, ansi,
    redeo, the AWS SDK); the times the client measures.  The end-to-end result
    for objects starts from a placement, given as the instance of each chunk;
    no object is set with other bytes in it, and an operation that follows
    another one waits for all its replies.  A handler of a lambda runs without
    interruption, except for the timeout and for migrations, whose
    interleavings are modelled; what it sends to the collector goes straight to
    the depository in [LambdaHandler], the channel and the waits are in
    [LambdaCollector].  Calls of the scheduler, which has no lock, do not
    overlap.  [Release] of a proxy runs when its goroutines are at rest. *)

From Stdlib Require Export ZArith Lia.
From stdpp Require Export base list gmap strings fin_maps numbers.

#[global] Open Scope Z_scope.
#[global] Set Default Goal Selector "!".

(** ** Outcomes of Go code

    A Go function either returns, panics, or does not return: [Spins] is the
    outcome of a loop whose fuel ran out, and of a blocked channel operation.  Operations that change state are
    written in the state-and-outcome monad [M], through stdpp's notations. *)

Inductive panic : Set :=
  | PIndex        (** index out of range *)
  | PNil          (** nil dereference *)
  | PMake         (** make with a negative length *)
  | PSlice        (** slice bounds out of range *)
  | PDivide       (** integer divide by zero *)
  | PClosed       (** close of (or send on) a closed channel *)
  | PType         (** failed type assertion *)
  | PError.       (** panic with an error value *)

#[global] Instance panic_eq_dec : EqDecision panic.
Proof. solve_decision. Defined.

Inductive res (A : Type) : Type :=
  | Done (a : A)
  | Panics (e : panic)
  | Spins.
Arguments Done {A} a.
Arguments Panics {A} e.
Arguments Spins {A}.

Definition M (S A : Type) : Type := S → res (A * S).

#[global] Instance M_ret S : MRet (M S) := λ A a s, Done (a, s).
#[global] Instance M_bind S : MBind (M S) := λ A B f c s,
  match c s with
  | Done (a, s') => f a s'
  | Panics e => Panics e
  | Spins => Spins
  end.

Definition mget {S} : M S S := λ s, Done (s, s).
Definition mput {S} (s : S) : M S unit := λ _, Done ((), s).
Definition modify {S} (f : S → S) : M S unit := λ s, Done ((), f s).
Definition gets {S A} (f : S → A) : M S A := λ s, Done (f s, s).
Definition throw {S A} (e : panic) : M S A := λ _, Panics e.

(** A channel operation that cannot proceed. *)
Definition blocked {S A} : M S A := λ _, Spins.

(** A pointer or index that must resolve, panicking otherwise. *)
Definition expect {S A} (e : panic) (o : option A) : M S A := λ s,
  match o with Some a => Done (a, s) | None => Panics e end.

(** Lifting a computation on a component to the state that contains it. *)
Definition zoom {S T A} (get : S → T) (put : T → S → S) (c : M T A) : M S A := λ s,
  match c (get s) with
  | Done (a, t) => Done (a, put t s)
  | Panics e => Panics e
  | Spins => Spins
  end.

(** A Go [for] over a slice, in order, for its effect. *)
Fixpoint mfor {S A} (l : list A) (body : A → M S unit) : M S unit :=
  match l with
  | [] => mret ()
  | a :: l' => body a ≫= λ _, mfor l' body
  end.

(** ** Record update: [r <| f := v |>], resolved through the record's eta *)

Class Eta (R : Type) : Type := eta_of : R → R.

Class Setter {R T : Type} (proj : R → T) : Type := update : (T → T) → R → R.
Arguments update {R T} proj {_} f r /.

Ltac resolve_setter :=
  lazymatch goal with
  | |- @Setter ?R ?T ?proj =>
      let s := constr:(fun (upd_fun : T → T) (upd_rec : R) => ltac:(
        let inst := constr:(_ : Eta R) in
        let inst := eval red in inst in
        let e := eval cbv beta in (inst upd_rec) in
        lazymatch eval pattern (proj upd_rec) in e with
        | ?g _ => let t := eval cbv beta in (g (upd_fun (proj upd_rec))) in exact t
        end)) in
      exact s
  end.
#[export] Hint Extern 0 (Setter _) => resolve_setter : typeclass_instances.

Notation "r <| f := v |>" := (update f (λ _, v) r)
  (at level 12, f at next level, left associativity, format "r  <|  f  :=  v  |>").
Notation "r <| f ::= g |>" := (update f g r)
  (at level 12, f at next level, left associativity, format "r  <|  f  ::=  g  |>").

(** ** Machine integers *)

Declare Scope go_scope.
Delimit Scope go_scope with go.

Definition u64 (z : Z) : Z := z mod 2 ^ 64.
Definition i64 (z : Z) : Z := (z + 2 ^ 63) mod 2 ^ 64 - 2 ^ 63.
Definition i32 (z : Z) : Z := (z + 2 ^ 31) mod 2 ^ 32 - 2 ^ 31.
Notation "a +u b" := (u64 (a + b)) (at level 50, left associativity) : go_scope.
Notation "a -u b" := (u64 (a - b)) (at level 50, left associativity) : go_scope.

Definition is_u64 (z : Z) : Prop := 0 ≤ z < 2 ^ 64.
Definition is_i64 (z : Z) : Prop := - 2 ^ 63 ≤ z < 2 ^ 63.

(** ** Slices indexed by a Go [int] *)

Definition zlookup {A} (l : list A) (i : Z) : option A :=
  if decide (0 ≤ i) then l !! Z.to_nat i else None.
Definition zinsert {A} (i : Z) (x : A) (l : list A) : list A :=
  if decide (0 ≤ i) then <[Z.to_nat i := x]> l else l.

(** Go's [copy(dst, src)]: overwrites the common prefix, keeps [dst]'s length. *)
Definition go_copy {A} (dst src : list A) : list A :=
  take (length dst) src ++ drop (length src) dst.

(** A Go array of two elements, indexed by [false] (0) and [true] (1). *)
Record two (A : Type) : Type := Two { at0 : A; at1 : A }.
Arguments Two {A} at0 at1.
Arguments at0 {A} t.
Arguments at1 {A} t.
Definition get2 {A} (i : bool) (t : two A) : A := if i then at1 t else at0 t.
Definition set2 {A} (i : bool) (x : A) (t : two A) : two A :=
  if i then Two (at0 t) x else Two x (at1 t).

(** Number of [true] entries of a [[]bool]. *)
Fixpoint count_true (l : list bool) : Z :=
  match l with
  | [] => 0
  | b :: l' => (if b then 1 else 0) + count_true l'
  end.

(** Sum of a quantity over the values of a finite map. *)
Definition msum {K V} `{Countable K} (f : V → Z) (m : gmap K V) : Z :=
  map_fold (λ _ v acc, f v + acc) 0 m.

(** ** Lemmas and automation *)

Create HintDb go.
Create Rewrite HintDb go.

Ltac deex :=
  repeat match goal with
  | H : ∃ _, _ |- _ => destruct H
  | H : _ ∧ _ |- _ => destruct H
  end.

(** Case analysis on the innermost [match] or [if] of the goal. *)
Ltac split_match :=
  match goal with
  | |- context [match ?x with _ => _ end] =>
      lazymatch x with
      | context [match _ with _ => _ end] => fail
      | _ => destruct x eqn:?
      end
  end.

Section monad_lemmas.
Context {S A B : Type}.
Implicit Types (c : M S A) (f : A → M S B) (s : S).

Lemma bind_done c f s a s' : c s = Done (a, s') → (c ≫= f) s = f a s'.
Proof. intros H. unfold mbind, M_bind. by rewrite H. Qed.

Lemma bind_inv c f s r :
  (c ≫= f) s = Done r → ∃ a s', c s = Done (a, s') ∧ f a s' = Done r.
Proof. unfold mbind, M_bind. destruct (c s) as [[a s']|?|] eqn:E; naive_solver. Qed.

Lemma bind_panics c f s e : c s = Panics e → (c ≫= f) s = Panics e.
Proof. intros H. unfold mbind, M_bind. by rewrite H. Qed.

Lemma expect_inv e (o : option A) s a s' :
  expect e o s = Done (a, s') → o = Some a ∧ s' = s.
Proof. destruct o; naive_solver. Qed.
End monad_lemmas.

(** A computation preserves a property of the state when it returns. *)
Definition preserves {S A} (I : S → Prop) (c : M S A) : Prop :=
  ∀ s a s', I s → c s = Done (a, s') → I s'.

Section preserves.
Context {S : Type} (I : S → Prop).

Lemma preserves_ret {A} (a : A) : preserves I (mret a).
Proof. by intros s b s' Hs [= <- <-]. Qed.
Lemma preserves_bind {A B} (c : M S A) (k : A → M S B) :
  preserves I c → (∀ a, preserves I (k a)) → preserves I (c ≫= k).
Proof. intros Hc Hk s b s' Hs (a&s1&H1&H2)%bind_inv. eapply Hk; [by eapply Hc|done]. Qed.
Lemma preserves_expect {A} e (o : option A) : preserves I (expect e o).
Proof. by intros s b s' Hs [_ ->]%expect_inv. Qed.
Lemma preserves_mget : preserves I mget.
Proof. by intros s b s' Hs [= <- <-]. Qed.
Lemma preserves_throw {A} e : preserves I (throw (A:=A) e).
Proof. done. Qed.
Lemma preserves_blocked {A} : preserves I (blocked (A:=A)).
Proof. done. Qed.
Lemma preserves_modify f : (∀ s, I s → I (f s)) → preserves I (modify f).
Proof. intros Hf s b s' Hs E. injection E as _ <-. by apply Hf. Qed.
(** A computation on a component whose state satisfies [J]. *)
Lemma preserves_zoom {T A} (get : S → T) (put : T → S → S) (J : T → Prop) (c : M T A) :
  (∀ s, I s → J (get s)) → (∀ s t, I s → J t → I (put t s)) → preserves J c →
  preserves I (zoom get put c).
Proof.
  intros H1 H2 Hc s a s' Hs. unfold zoom. destruct (c (get s)) as [[b t]|?|] eqn:E; [|done..].
  intros Er. injection Er as _ <-. apply H2; [done|]. eapply Hc; [by apply H1|done].
Qed.
End preserves.

#[export] Hint Resolve preserves_ret preserves_expect preserves_mget preserves_throw
  preserves_blocked : go.
(** Decomposes a computation into the primitives the hint database knows. *)
Ltac preserve :=
  repeat first
    [ solve [auto with go]
    | apply preserves_bind; [|intros]
    | progress cbv zeta
    | case_match ].

(** Runs the next monadic step of a hypothesis of the form [c s = Done r]. *)
Ltac mstep H :=
  lazymatch type of H with
  | (_ ≫= _) _ = Done _ =>
      let a := fresh "a" in let s := fresh "s" in let E := fresh "E" in
      apply bind_inv in H as (a & s & E & H)
  | expect _ _ _ = Done _ =>
      let E := fresh "E" in apply expect_inv in H as [E ->]
  end.

Section words.

Lemma u64_range z : is_u64 (u64 z).
Proof. apply Z.mod_pos_bound. lia. Qed.

Lemma u64_small z : is_u64 z → u64 z = z.
Proof. intros H. apply Z.mod_small. exact H. Qed.

Lemma u64_add_l a b : u64 (u64 a + b) = u64 (a + b).
Proof. unfold u64. by rewrite Zplus_mod_idemp_l. Qed.

Lemma u64_add_r a b : u64 (a + u64 b) = u64 (a + b).
Proof. unfold u64. by rewrite Zplus_mod_idemp_r. Qed.

Lemma u64_sub_r a b : u64 (a - u64 b) = u64 (a - b).
Proof. unfold u64. by rewrite Zminus_mod_idemp_r. Qed.

Lemma u64_sub_l a b : u64 (u64 a - b) = u64 (a - b).
Proof. unfold u64. by rewrite Zminus_mod_idemp_l. Qed.

Lemma i64_range z : is_i64 (i64 z).
Proof. unfold i64, is_i64. pose proof (Z.mod_pos_bound (z + 2 ^ 63) (2 ^ 64)). lia. Qed.

Lemma i64_small z : is_i64 z → i64 z = z.
Proof. unfold i64, is_i64. intros H. rewrite Z.mod_small by lia. lia. Qed.

Lemma u64_i64 z : u64 (i64 z) = u64 z.
Proof.
  unfold i64, u64. rewrite Zminus_mod_idemp_l. f_equal. lia.
Qed.
End words.

#[export] Hint Rewrite u64_add_l u64_add_r u64_sub_l u64_sub_r u64_i64 : go.
#[export] Hint Resolve u64_range i64_range : go.

Section slices.
Context {A : Type}.
Implicit Types (l dst src : list A) (i j : Z) (x : A).

Lemma zlookup_nat l (n : nat) : zlookup l (Z.of_nat n) = l !! n.
Proof. unfold zlookup. case_decide; [by rewrite Nat2Z.id | lia]. Qed.

Lemma zlookup_Some l i x :
  zlookup l i = Some x ↔ 0 ≤ i ∧ l !! Z.to_nat i = Some x.
Proof. unfold zlookup. case_decide; intuition (lia || congruence). Qed.

Lemma zlookup_lt l i x : zlookup l i = Some x → 0 ≤ i < Z.of_nat (length l).
Proof. intros E%zlookup_Some. destruct E as [? E%lookup_lt_Some]. lia. Qed.

Lemma zlookup_is_Some l i : is_Some (zlookup l i) ↔ 0 ≤ i < Z.of_nat (length l).
Proof.
  split.
  - intros [x H]. by eapply zlookup_lt.
  - intros [??]. unfold zlookup. rewrite decide_True by lia.
    apply lookup_lt_is_Some. lia.
Qed.

Lemma length_zinsert i x l : length (zinsert i x l) = length l.
Proof. unfold zinsert. case_decide; [apply length_insert | done]. Qed.

Lemma zlookup_zinsert_eq l i x :
  0 ≤ i < Z.of_nat (length l) → zlookup (zinsert i x l) i = Some x.
Proof.
  intros [??]. unfold zlookup, zinsert. rewrite !decide_True by lia.
  apply list_lookup_insert_eq. lia.
Qed.

Lemma zlookup_zinsert_ne l i j x : i ≠ j → zlookup (zinsert i x l) j = zlookup l j.
Proof.
  intros ?. unfold zlookup, zinsert. case_decide; [|done].
  case_decide; [|done]. apply list_lookup_insert_ne. lia.
Qed.

Lemma go_copy_same dst src : length dst = length src → go_copy dst src = src.
Proof.
  intros E. unfold go_copy. rewrite E, take_ge by lia.
  rewrite drop_ge by lia. apply app_nil_r.
Qed.

Lemma length_go_copy dst src : length (go_copy dst src) = length dst.
Proof. unfold go_copy. rewrite length_app, length_take, length_drop. lia. Qed.

Lemma get2_set2_eq (b : bool) (x : A) t : get2 b (set2 b x t) = x.
Proof. by destruct b. Qed.

Lemma get2_set2_ne (b c : bool) (x : A) t : b ≠ c → get2 b (set2 c x t) = get2 b t.
Proof. by destruct b, c. Qed.
End slices.

#[export] Hint Rewrite @length_zinsert @length_go_copy @get2_set2_eq : go.

Lemma filter_all {A} (P : A → Prop) `{∀ x, Decision (P x)} (l : list A) :
  (∀ y, y ∈ l → P y) → filter P l = l.
Proof.
  induction l as [|y l IH]; intros Hall; [done|].
  rewrite filter_cons_True by (apply Hall; left). f_equal. apply IH.
  intros z Hz. apply Hall. by right.
Qed.

Lemma count_true_bounds l : 0 ≤ count_true l ≤ Z.of_nat (length l).
Proof. induction l as [|[] l IH]; simpl; lia. Qed.

Lemma count_true_full l :
  count_true l = Z.of_nat (length l) ↔ (∀ i b, l !! i = Some b → b = true).
Proof.
  induction l as [|b l IH]; simpl; [by split|].
  pose proof (count_true_bounds l). split.
  - intros E [|i] b'; simpl; [destruct b; [congruence | lia]|].
    apply IH. destruct b; lia.
  - intros Hall. rewrite (Hall O b eq_refl).
    rewrite (proj2 IH); [lia|]. intros i. apply (Hall (S i)).
Qed.

Lemma count_true_insert l i :
  l !! i = Some false → count_true (<[i:=true]> l) = count_true l + 1.
Proof.
  revert i. induction l as [|b l IH]; intros [|i]; simpl; [done..| |].
  - intros [= ->]. lia.
  - intros H. rewrite IH by done. lia.
Qed.

Lemma count_true_replicate n : count_true (replicate n false) = 0.
Proof. induction n; simpl; lia. Qed.

Section msum.
Context {K V : Type} `{Countable K}.
Implicit Types (m : gmap K V) (f g : V → Z).

Lemma msum_empty f : msum f (∅ : gmap K V) = 0.
Proof. apply map_fold_empty. Qed.

Lemma msum_insert_new f m k v :
  m !! k = None → msum f (<[k:=v]> m) = f v + msum f m.
Proof. intros Hk. unfold msum. rewrite map_fold_insert_L; [done | intros; lia | done]. Qed.

Lemma msum_delete f m k v : m !! k = Some v → msum f m = f v + msum f (delete k m).
Proof.
  intros Hk. rewrite <- (insert_delete_id m k v) at 1 by done.
  apply msum_insert_new. apply lookup_delete_eq.
Qed.

(** Replacing one value changes the sum by the difference. *)
Lemma msum_insert f m k v v' :
  m !! k = Some v → msum f (<[k:=v']> m) = msum f m - f v + f v'.
Proof.
  intros Hk. rewrite <- insert_delete_eq, msum_insert_new, (msum_delete f m k v) by
    (done || apply lookup_delete_eq). lia.
Qed.
End msum.
