(* ===== verification/Logger.v ===== *)
(** * common/logger, client/log.go: loggers

    The interface [ILogger] with its two implementations.  A logger appends the
    messages that [log.Println] is given to an output.  [fmt.Sprintf] is any
    function of a format and arguments, [ansi.Color] is a library function of a
    text and the name of a colour. *)

From Stdlib Require Import Ascii.
From S2P Require Import Prelude.

#[local] Open Scope string_scope.

(** ** strings.Split and strings.Join, for a separator of one character *)

Fixpoint Split (sep : ascii) (s : string) : list string :=
  match s with
  | EmptyString => [""]
  | String a s =>
      if decide (a = sep) then "" :: Split sep s
      else match Split sep s with
           | [] => [String a ""]
           | w :: l => String a w :: l
           end
  end.
Fixpoint Join (sep : ascii) (l : list string) : string :=
  match l with
  | [] => ""
  | [w] => w
  | w :: l => w +:+ String sep (Join sep l)
  end.

(** The characters of a string. *)
Fixpoint free (sep : ascii) (s : string) : Prop :=
  match s with EmptyString => True | String a s => a ≠ sep ∧ free sep s end.

Lemma Split_cons sep s : ∃ w l, Split sep s = w :: l.
Proof. destruct s as [|a s]; cbn; [by eexists _, _|]. repeat case_match; by eexists _, _. Qed.
Lemma Join_Split sep s : Join sep (Split sep s) = s.
Proof.
  induction s as [|a s IH]; [done|]. cbn [Split]. destruct (Split_cons sep s) as (w&l&E). rewrite E in *.
  case_decide as Ha.
  - subst a. cbn in IH |- *. by rewrite IH.
  - destruct l; cbn in IH |- *; by rewrite <- IH.
Qed.
Lemma Split_free sep s : Forall (free sep) (Split sep s).
Proof.
  induction s as [|a s IH]; [by repeat constructor|]. cbn [Split]. destruct (Split_cons sep s) as (w&l&E).
  rewrite E in *. inversion_clear IH. case_decide; repeat constructor; done.
Qed.
Lemma Split_app sep w s : free sep w → Split sep (w +:+ String sep s) = w :: Split sep s.
Proof.
  induction w as [|a w IH]; intros Hw.
  - change ("" +:+ String sep s) with (String sep s). cbn [Split]. by rewrite decide_True.
  - destruct Hw as [Ha Hw]. change (String a w +:+ String sep s) with (String a (w +:+ String sep s)). cbn [Split].
    by rewrite decide_False, IH.
Qed.
Lemma Split_word sep w : free sep w → Split sep w = [w].
Proof. induction w as [|a w IH]; cbn; [done|]. intros [Ha Hw]. by rewrite decide_False, IH. Qed.
Lemma Split_Join sep l : l ≠ [] → Forall (free sep) l → Split sep (Join sep l) = l.
Proof.
  induction l as [|w l IH]; [done|]. intros _ Hl. inversion_clear Hl as [|?? Hw Hf].
  destruct l as [|w' l]; [by apply Split_word|].
  change (Join sep (w :: w' :: l)) with (w +:+ String sep (Join sep (w' :: l))).
  rewrite Split_app by done. by rewrite IH.
Qed.

(** ** logger.go *)

Definition LOG_LEVEL_ALL : Z := 0.
Definition LOG_LEVEL_INFO : Z := 1.
Definition LOG_LEVEL_WARN : Z := 2.
Definition LOG_LEVEL_NONE : Z := 3.

(** What was printed, in order. *)
Abbreviation Output := (list string).
Definition Println (s : string) : M Output unit := modify (λ o, o ++ [s])%list.

Section loggers.
(** The arguments of a message, and the formatting of the standard library. *)
Context {A : Type} (Sprintf : string → list A → string).

Class ILogger (L : Type) : Type := {
  Trace : L → string → list A → M Output unit;
  Debug : L → string → list A → M Output unit;
  Info : L → string → list A → M Output unit;
  Warn : L → string → list A → M Output unit;
  Error : L → string → list A → M Output unit;
  GetLevel : L → Z
}.

(** ** color_logger.go *)

Record ColorLogger : Type := MkColorLogger { Verbose : bool; Level : Z; Prefix : string; Color : bool }.

Context (ansiColor : string → string → string).

Definition newline : ascii := "010".
(** [ColorLogger.log] *)
Definition paint (color msg : string) : string :=
  Join newline ((λ line, ansiColor line color) <$> Split newline msg).
Definition log (lg : ColorLogger) (color format : string) (args : list A) : M Output unit :=
  let msg := Sprintf format args in
  let msg := if Color lg && bool_decide (color ≠ "") then paint color msg else msg in
  Println (Prefix lg +:+ msg).

Definition Color_Trace (lg : ColorLogger) (format : string) (args : list A) : M Output unit :=
  if negb (Verbose lg) then mret () else log lg "blue" format args.
Definition Color_Debug (lg : ColorLogger) (format : string) (args : list A) : M Output unit :=
  if decide (Level lg > LOG_LEVEL_ALL) then mret () else log lg "" format args.
Definition Color_Info (lg : ColorLogger) (format : string) (args : list A) : M Output unit :=
  if decide (Level lg > LOG_LEVEL_INFO) then mret () else log lg "green" format args.
Definition Color_Warn (lg : ColorLogger) (format : string) (args : list A) : M Output unit :=
  if decide (Level lg > LOG_LEVEL_WARN) then mret () else log lg "yellow" format args.
Definition Color_Error (lg : ColorLogger) (format : string) (args : list A) : M Output unit :=
  if decide (Level lg > LOG_LEVEL_NONE) then mret () else log lg "red" format args.
Definition Color_GetLevel (lg : ColorLogger) : Z := Level lg.

#[global] Instance ColorLogger_ILogger : ILogger ColorLogger := {|
  Trace := Color_Trace; Debug := Color_Debug; Info := Color_Info; Warn := Color_Warn; Error := Color_Error;
  GetLevel := Color_GetLevel
|}.

(** ** nil_logger.go *)

Inductive nilLogger : Type := NilLogger.
Definition nil_noop (_ : nilLogger) (_ : string) (_ : list A) : M Output unit := mret ().
Definition nil_GetLevel (_ : nilLogger) : Z := LOG_LEVEL_NONE.
#[global] Instance nilLogger_ILogger : ILogger nilLogger := {|
  Trace := nil_noop; Debug := nil_noop; Info := nil_noop; Warn := nil_noop; Error := nil_noop;
  GetLevel := nil_GetLevel
|}.

(** ** What clients of the interface rely on *)

(** A call prints at most one message, after what was printed. *)
Definition prints (c : M Output unit) (o : Output) : Prop := ∀ out, c out = Done ((), out ++ o)%list.

(** The levels are nested: what is printed at a level is printed, in its own
    colour, at every level above. *)
Class LevelLaws (L : Type) `{ILogger L} : Prop := {
  ll_one : ∀ (lg : L) (call : L → string → list A → M Output unit) f args,
    call ∈ [Trace; Debug; Info; Warn; Error] → prints (call lg f args) [] ∨ ∃ s, prints (call lg f args) [s];
  ll_debug : ∀ (lg : L) f args, prints (Info lg f args) [] → prints (Debug lg f args) [];
  ll_info : ∀ (lg : L) f args, prints (Warn lg f args) [] → prints (Info lg f args) [];
  ll_warn : ∀ (lg : L) f args, prints (Error lg f args) [] → prints (Warn lg f args) [];
  ll_level : ∀ (lg : L) f args, GetLevel lg > LOG_LEVEL_INFO → prints (Debug lg f args) [] ∧ prints (Info lg f args) []
}.

Lemma prints_nil : prints (mret ()) [].
Proof. intros out. by rewrite app_nil_r. Qed.
Lemma prints_log lg color f args :
  prints (log lg color f args) [Prefix lg +:+ if Color lg && bool_decide (color ≠ "")
                                              then paint color (Sprintf f args) else Sprintf f args].
Proof. done. Qed.
Lemma prints_unique c s : prints c [] → ¬ prints c [s].
Proof. intros H1 H2. specialize (H1 []). rewrite H2 in H1. by injection H1. Qed.

#[global] Instance nilLogger_laws : LevelLaws nilLogger.
Proof.
  split; try (intros; apply prints_nil); [|intros; split; apply prints_nil].
  intros [] call f args Hc. left. rewrite !elem_of_cons, elem_of_nil in Hc.
  destruct Hc as [->|[->|[->|[->|[->|[]]]]]]; apply prints_nil.
Qed.

#[global] Instance ColorLogger_laws : LevelLaws ColorLogger.
Proof.
  split.
  - intros lg call f args Hc. rewrite !elem_of_cons, elem_of_nil in Hc.
    destruct Hc as [->|[->|[->|[->|[->|[]]]]]]; cbn;
      unfold Color_Trace, Color_Debug, Color_Info, Color_Warn, Color_Error; case_match;
      (left; apply prints_nil) || (right; eexists; apply prints_log).
  - cbn. unfold Color_Debug, Color_Info, LOG_LEVEL_ALL, LOG_LEVEL_INFO. intros lg f args Hp.
    repeat case_decide; try lia; [apply prints_nil..|]. exfalso. by eapply prints_unique; [exact Hp|apply prints_log].
  - cbn. unfold Color_Warn, Color_Info, LOG_LEVEL_WARN, LOG_LEVEL_INFO. intros lg f args Hp.
    repeat case_decide; try lia; [apply prints_nil..|]. exfalso. by eapply prints_unique; [exact Hp|apply prints_log].
  - cbn. unfold Color_Warn, Color_Error, LOG_LEVEL_WARN, LOG_LEVEL_NONE. intros lg f args Hp.
    repeat case_decide; try lia; [apply prints_nil..|]. exfalso. by eapply prints_unique; [exact Hp|apply prints_log].
  - cbn. unfold Color_Debug, Color_Info, Color_GetLevel, LOG_LEVEL_ALL, LOG_LEVEL_INFO. intros lg f args Hl.
    rewrite !decide_True by lia. split; apply prints_nil.
Qed.

(** Where [ansi.Color] breaks no line, the lines printed are those of the
    message, each in its colour, and the prefix before the first. *)
Lemma log_paints lg color f args :
  (∀ line, free newline line → free newline (ansiColor line color)) →
  Color lg = true → color ≠ "" →
  ∃ s, prints (log lg color f args) [Prefix lg +:+ s] ∧
    Split newline s = (λ line, ansiColor line color) <$> Split newline (Sprintf f args).
Proof.
  intros Ha Hc Hne. eexists. split; [apply prints_log|]. rewrite Hc, bool_decide_eq_true_2 by done. cbn [andb].
  apply Split_Join.
  - by destruct (Split_cons newline (Sprintf f args)) as (w&l&->).
  - apply list.Forall_fmap. eapply list.Forall_impl; [apply Split_free|]. exact Ha.
Qed.
(** Without colour the message is printed as it is. *)
Lemma log_plain lg color f args :
  Color lg = false ∨ color = "" → prints (log lg color f args) [Prefix lg +:+ Sprintf f args].
Proof.
  intros Hc. pose proof (prints_log lg color f args) as Hp.
  destruct Hc as [Hc| ->]; [rewrite Hc in Hp|rewrite bool_decide_eq_false_2, andb_false_r in Hp by naive_solver]; done.
Qed.

(** At [LOG_LEVEL_NONE] errors are still printed. *)
Lemma none_prints_errors lg f args :
  Level lg = LOG_LEVEL_NONE → ∃ s, prints (Error lg f args) [s] ∧ prints (Warn lg f args) [].
Proof.
  intros Hl. cbn. unfold Color_Error, Color_Warn. rewrite Hl, decide_False by (unfold LOG_LEVEL_NONE; lia).
  rewrite decide_True by done. eexists. split; [apply prints_log|apply prints_nil].
Qed.
End loggers.

(** ** client/log.go *)

Section client_log.
(** Handles and arguments of nanolog. *)
Context {Handle Arg : Type}.

(** The values of the options that are told apart. *)
Inductive OptVal : Type := OStr (s : string) | OOther.

(** The logger that was set, nil before; the file nanolog writes to. *)
Record ClientLog : Type := MkClientLog {
  nlogger : option (Handle → list Arg → option string);
  nanoWriter : option string;
  logged : list (Handle * list Arg)
}.
#[global] Instance ClientLog_eta : Eta ClientLog := λ c, MkClientLog (nlogger c) (nanoWriter c) (logged c).

(** [create] and [setWriter] are the errors of [os.Create] and
    [nanolog.SetWriter], both of which end in a panic. *)
Definition CreateLog (opts : gmap string OptVal) (create setWriter : option string) : M ClientLog unit :=
  match opts !! "file" with
  | Some (OStr f) =>
      match create with
      | Some _ => throw PError
      | None =>
          match setWriter with
          | Some _ => throw PError
          | None => modify (λ c, c <| nanoWriter := Some (f +:+ "_bench.clog") |>)
          end
      end
  | _ => throw PType
  end.

(** The lines printed. *)
Definition FlushLog (flush : option string) : Output :=
  match flush with Some _ => ["log flush err"] | None => [] end.

Definition SetLogger (l : option (Handle → list Arg → option string)) : M ClientLog unit :=
  modify (λ c, c <| nlogger := l |>).

Definition nanoLog (handle : Handle) (args : list Arg) : M ClientLog unit :=
  _ ← expect PIndex (args !! 0%nat);
  c ← mget;
  _ ← expect PNil (nlogger c);
  modify (λ c, c <| logged ::= (λ l, l ++ [(handle, args)])%list |>).

(** Before a logger is set, or without arguments, [nanoLog] panics. *)
Lemma nanoLog_runs c handle args :
  (∃ c', nanoLog handle args c = Done ((), c')) ↔ args ≠ [] ∧ is_Some (nlogger c).
Proof.
  unfold nanoLog. destruct args as [|a args].
  - split; [by intros [c' Hc]|by intros [? _]].
  - cbn. erewrite bind_done by reflexivity. erewrite bind_done by reflexivity.
    destruct (nlogger c) as [l|] eqn:E; cbn.
    + split; [by intros _|]. intros _. by eexists.
    + split; [by intros [c' Hc]|]. by intros [_ []].
Qed.
End client_log.
