(* ===== verification/Lambdastore.v ===== *)
(** * proxy/lambdastore: deployments, instance meta and the instance heap

    The data of package [lambdastore] that the proxy shares by pointer:
    deployments, instances and connections live in a heap and are referred to
    by address, so that a [*Deployment] switched between two instances, or an
    instance reached from the group and from the scheduler, is one object.
    Loggers carry no behaviour and are left out. *)

From stdpp Require Import pretty.
From S2P Require Import Prelude.

(** ** Data *)

Abbreviation dptr := nat (only parsing).
Abbreviation iptr := nat (only parsing).
Abbreviation cptr := nat (only parsing).
Abbreviation rptr := nat (only parsing).

(** deployment.go: [Deployment]. *)
Record Deployment : Type := MkDeployment {
  dname : string;
  did : Z;
  dreplica : bool
}.

(** meta.go: [Meta].  The log, snapshot and chunk-list fields are declared in
    the source but no function of the repository reads or writes them. *)
Record LMeta : Type := MkLMeta {
  Capacity : Z;
  lsize : Z
}.

(** instance.go: the awake status of an instance. *)
Inductive awake_status : Set := INSTANCE_SLEEP | INSTANCE_AWAKE | INSTANCE_MAYBE.

(** types.Id *)
Record Id : Type := MkId { ConnId : Z; ReqId : string; ChunkId : string }.

(** types.Control, with the connection whose writer it was prepared for. *)
Record Control : Type := MkControl {
  ctlCmd : string;
  ctlAddr : string;
  ctlDeployment : string;
  ctlId : Z;
  ctlReq : option rptr;
  ctlW : option cptr
}.

(** What is queued on an instance's request channel: a pointer to a
    [types.Request], or a [types.Control]. *)
Inductive Command : Type :=
  | CRequest (r : rptr)
  | CControl (c : Control).

(** The calls the program makes on a connection's [resp.RequestWriter]. *)
Inductive WOp : Type :=
  | WMultiBulkSize (n : Z)
  | WBulkString (s : string)
  | WBulk (b : string)
  | WCmdString (args : list string)
  | WCopyBulk (len : Z)
  | WFlush.

(** instance.go: [Instance].  [chanValidated] is [true] when the current
    channel is open (a validation is in progress) and [false] once it is
    closed; [triggers] are the [triggerLambda] goroutines under way, with
    their warm-up flag.  The cool timer only decides when a warm-up happens. *)
Record Instance : Type := MkInstance {
  idep : dptr;
  imeta : LMeta;
  icn : option cptr;
  chanReq : list Command;
  awake : awake_status;
  chanValidated : bool;
  lastValidated : option cptr;
  iclosed : bool;
  triggers : list bool
}.

(** connection.go: [Connection].  [chanWait] is a channel of capacity one;
    [cw] is the sequence of calls made on the writer. *)
Record Connection : Type := MkConnection {
  cinstance : option iptr;
  chanWait : list rptr;
  cclosed : bool;
  sockClosed : bool;
  cw : list WOp
}.

(** types.Request.  [BodyStream] is the length of the stream, when there is
    one; [ChanResponse] tells whether the response channel is set; [reqW] is
    the connection whose writer the request was prepared for. *)
Record Request : Type := MkRequest {
  reqId : Id;
  reqCmd : string;
  reqKey : string;
  reqBody : option string;
  BodyStream : option Z;
  ChanResponse : bool;
  EnableCollector : bool;
  reqW : option cptr;
  responded : bool;
  streamingStarted : bool
}.

(** types.Response, and the values passed to [Request.SetResponse]. *)
Record Response : Type := MkResponse {
  rspId : Id;
  rspCmd : string;
  rspBody : option string;
  rspStream : bool
}.
Inductive Reply : Type :=
  | RResponse (r : Response)
  | RError (msg : string).

(** types.ClientReqCounter *)
Record ClientReqCounter : Type := MkCounter {
  ccCmd : string;
  DataShards : Z;
  ParityShards : Z;
  Counter : Z
}.

(** The heap of package lambdastore, with [global.ReqMap], the client response
    channels (as the sequence of [ProxyResponse]s sent to them) and the
    [global.DataCollected] wait group. *)
Record LHeap : Type := MkLHeap {
  deps : gmap dptr Deployment;
  insts : gmap iptr Instance;
  conns : gmap cptr Connection;
  reqs : gmap rptr Request;
  ReqMap : gmap string ClientReqCounter;
  responses : list (rptr * Reply);
  DataCollected : Z
}.

#[global] Instance Deployment_eta : Eta Deployment := λ d,
  MkDeployment (dname d) (did d) (dreplica d).
#[global] Instance LMeta_eta : Eta LMeta := λ m, MkLMeta (Capacity m) (lsize m).
#[global] Instance Instance_eta : Eta Instance := λ i,
  MkInstance (idep i) (imeta i) (icn i) (chanReq i) (awake i) (chanValidated i)
    (lastValidated i) (iclosed i) (triggers i).
#[global] Instance Connection_eta : Eta Connection := λ c,
  MkConnection (cinstance c) (chanWait c) (cclosed c) (sockClosed c) (cw c).
#[global] Instance Request_eta : Eta Request := λ r,
  MkRequest (reqId r) (reqCmd r) (reqKey r) (reqBody r) (BodyStream r) (ChanResponse r)
    (EnableCollector r) (reqW r) (responded r) (streamingStarted r).
#[global] Instance Control_eta : Eta Control := λ c,
  MkControl (ctlCmd c) (ctlAddr c) (ctlDeployment c) (ctlId c) (ctlReq c) (ctlW c).
#[global] Instance ClientReqCounter_eta : Eta ClientReqCounter := λ c,
  MkCounter (ccCmd c) (DataShards c) (ParityShards c) (Counter c).
#[global] Instance LHeap_eta : Eta LHeap := λ h,
  MkLHeap (deps h) (insts h) (conns h) (reqs h) (ReqMap h) (responses h)
    (DataCollected h).

#[global] Instance awake_status_eq_dec : EqDecision awake_status.
Proof. solve_decision. Defined.
#[global] Instance Id_eq_dec : EqDecision Id.
Proof. solve_decision. Defined.
#[global] Instance WOp_eq_dec : EqDecision WOp.
Proof. solve_decision. Defined.
#[global] Instance Response_eq_dec : EqDecision Response.
Proof. solve_decision. Defined.
#[global] Instance Reply_eq_dec : EqDecision Reply.
Proof. solve_decision. Defined.

(** Dereferencing; a dangling pointer of the model is a nil pointer of Go. *)
Definition getDep (d : dptr) : M LHeap Deployment := λ h, expect PNil (deps h !! d) h.
Definition getInst (i : iptr) : M LHeap Instance := λ h, expect PNil (insts h !! i) h.
Definition getConn (c : cptr) : M LHeap Connection := λ h, expect PNil (conns h !! c) h.
Definition getReq (r : rptr) : M LHeap Request := λ h, expect PNil (reqs h !! r) h.
Definition modDep (d : dptr) (f : Deployment → Deployment) : M LHeap unit :=
  modify (λ h, h <| deps ::= alter f d |>).
Definition modInst (i : iptr) (f : Instance → Instance) : M LHeap unit :=
  modify (λ h, h <| insts ::= alter f i |>).
Definition modConn (c : cptr) (f : Connection → Connection) : M LHeap unit :=
  modify (λ h, h <| conns ::= alter f c |>).
Definition modReq (r : rptr) (f : Request → Request) : M LHeap unit :=
  modify (λ h, h <| reqs ::= alter f r |>).

(** ** meta.go: the size of an instance, a uint64 updated atomically *)

Definition Size (m : LMeta) : Z := lsize m.

Definition IncreaseSize (inc : Z) (m : LMeta) : LMeta :=
  m <| lsize := u64 (lsize m + u64 inc) |>.

(** [^uint64(dec-1)] is the bitwise complement of the 64-bit word. *)
Definition complement64 (w : Z) : Z := Z.lxor w (Z.ones 64).
Definition DecreaseSize (dec : Z) (m : LMeta) : LMeta :=
  m <| lsize := u64 (lsize m + complement64 (u64 (i64 (dec - 1)))) |>.

(** ** deployment.go *)

Definition NewDeployment (name : string) (id : Z) (replica : bool) : Deployment :=
  MkDeployment (if replica then name else name +:+ pretty id) id replica.

(** [LambdaDeployment] values: [*Deployment] or [*Instance] (which embeds a
    [*Deployment]); the methods of both resolve to the deployment. *)
Inductive LambdaDeployment : Type :=
  | LDeployment (d : dptr)
  | LInstance (i : iptr).
#[global] Instance LambdaDeployment_eq_dec : EqDecision LambdaDeployment.
Proof. solve_decision. Defined.

Definition resolve (l : LambdaDeployment) : M LHeap dptr :=
  match l with
  | LDeployment d => mret d
  | LInstance i => ins ← getInst i; mret (idep ins)
  end.

Definition Name (l : LambdaDeployment) : M LHeap string :=
  d ← resolve l; dp ← getDep d; mret (dname dp).
Definition IdOf (l : LambdaDeployment) : M LHeap Z :=
  d ← resolve l; dp ← getDep d; mret (did dp).

(** [d.name = new.Name(); d.id = new.Id()] *)
Definition assign_name_id (d : dptr) (new : LambdaDeployment) : M LHeap unit :=
  n ← Name new;
  modDep d (λ x, x <| dname := n |>);;
  i ← IdOf new;
  modDep d (λ x, x <| did := i |>).

(** [Deployment.Reset]: the old values are saved in [old] when it is given. *)
Definition Reset (d : dptr) (new : LambdaDeployment) (old : option dptr) : M LHeap unit :=
  match old with
  | Some o => assign_name_id o (LDeployment d)
  | None => mret ()
  end;;
  assign_name_id d new.

(** ** instance.go: construction and [Switch] *)

Definition fresh_dep (h : LHeap) : dptr := fresh (dom (deps h)).
Definition fresh_inst (h : LHeap) : iptr := fresh (dom (insts h)).

Definition allocDep (d : Deployment) : M LHeap dptr := λ h,
  let p := fresh_dep h in Done (p, h <| deps ::= <[p := d]> |>).

(** The channel [chanValidated] is created closed. *)
Definition NewInstanceFromDeployment (dp : dptr) : M LHeap iptr := λ h,
  let p := fresh_inst h in
  let ins := MkInstance dp (MkLMeta 0 0) None [] INSTANCE_SLEEP false None false [] in
  Done (p, h <| insts ::= <[p := ins]> |>).

Definition NewInstance (name : string) (id : Z) (replica : bool) : M LHeap iptr :=
  d ← allocDep (NewDeployment name id replica); NewInstanceFromDeployment d.

(** [Instance.Switch]: [temp := &Deployment{}; ins.Reset(to, temp);
    to.Reset(temp, nil)]. *)
Definition Switch (i : iptr) (to : LambdaDeployment) : M LHeap iptr :=
  temp ← allocDep (MkDeployment "" 0 false);
  ins ← getInst i;
  Reset (idep ins) to (Some temp);;
  dto ← resolve to;
  Reset dto (LDeployment temp) None;;
  mret i.

(** ** Properties of the size word *)

Section size.

Lemma u64_bits_high w n : is_u64 w → 64 ≤ n → Z.testbit w n = false.
Proof.
  intros [H0 H1] Hn. destruct (decide (w = 0)) as [->|Hw]; [apply Z.bits_0|].
  apply Z.bits_above_log2; [lia|]. apply Z.log2_lt_pow2; [lia|].
  apply Z.lt_le_trans with (2 ^ 64); [lia | apply Z.pow_le_mono_r; lia].
Qed.

Lemma complement64_opp w : is_u64 w → complement64 w = 2 ^ 64 - 1 - w.
Proof.
  intros Hw. unfold complement64.
  replace (2 ^ 64 - 1) with (Z.ones 64) by done.
  rewrite Z.sub_nocarry_ldiff; apply Z.bits_inj'; intros n Hn;
    rewrite ?Z.lxor_spec, ?Z.ldiff_spec, ?Z.bits_0;
    (destruct (decide (n < 64));
      [rewrite Z.ones_spec_low by lia; by destruct (Z.testbit w n)
      |rewrite (u64_bits_high w), ?Z.ones_spec_high by (done || lia); done]).
Qed.

Lemma DecreaseSize_spec dec m : DecreaseSize dec m = m <| lsize := u64 (lsize m - dec) |>.
Proof.
  unfold DecreaseSize. simpl. f_equal.
  rewrite complement64_opp by apply u64_range.
  replace (lsize m + (2 ^ 64 - 1 - u64 (i64 (dec - 1))))
    with ((lsize m + (2 ^ 64 - 1)) - u64 (i64 (dec - 1))) by lia.
  rewrite u64_sub_r.
  rewrite <- (u64_sub_r _ (i64 _)), u64_i64, u64_sub_r.
  replace (lsize m + (2 ^ 64 - 1) - (dec - 1)) with (lsize m - dec + 1 * 2 ^ 64) by lia.
  unfold u64. apply Z.mod_add. lia.
Qed.

Lemma IncreaseSize_spec inc m : IncreaseSize inc m = m <| lsize := u64 (lsize m + inc) |>.
Proof. unfold IncreaseSize. simpl. by rewrite u64_add_r. Qed.
End size.

(** The two size updates are exact modulo 2^64 for every int64 amount, and
    undo each other. *)
Theorem size_roundtrip d m :
  is_i64 d → is_u64 (lsize m) →
  lsize (IncreaseSize d m) = (lsize m + d) mod 2 ^ 64 ∧
  lsize (DecreaseSize d m) = (lsize m - d) mod 2 ^ 64 ∧
  DecreaseSize d (IncreaseSize d m) = m ∧ IncreaseSize d (DecreaseSize d m) = m.
Proof.
  intros _ Hm. rewrite !IncreaseSize_spec, !DecreaseSize_spec. simpl.
  split_and!; [done|done|..]; destruct m as [c z]; simpl in *; f_equal.
  - rewrite u64_sub_l, Z.add_simpl_r. by apply u64_small.
  - rewrite u64_add_l, Z.sub_add. by apply u64_small.
Qed.

Lemma size_roundtrip_witness :
  DecreaseSize 7 (IncreaseSize 7 (MkLMeta 100 (2 ^ 64 - 3))) = MkLMeta 100 (2 ^ 64 - 3).
Proof.
  apply (size_roundtrip 7 (MkLMeta 100 (2 ^ 64 - 3))); unfold is_i64, is_u64; simpl; lia.
Defined.

(** ** Switching deployments *)

Section switch.
Lemma getDep_run d dp h : deps h !! d = Some dp → getDep d h = Done (dp, h).
Proof. intros E. unfold getDep. by rewrite E. Qed.

Lemma Name_run l d dp h : resolve l h = Done (d, h) → deps h !! d = Some dp →
  Name l h = Done (dname dp, h).
Proof.
  intros Hr Hd. unfold Name. erewrite bind_done by exact Hr.
  by erewrite bind_done by (by apply getDep_run).
Qed.

Lemma IdOf_run l d dp h : resolve l h = Done (d, h) → deps h !! d = Some dp →
  IdOf l h = Done (did dp, h).
Proof.
  intros Hr Hd. unfold IdOf. erewrite bind_done by exact Hr.
  by erewrite bind_done by (by apply getDep_run).
Qed.

(** Resolution only reads instances. *)
Lemma resolve_deps l d h f : resolve l h = Done (d, h) →
  resolve l (h <| deps ::= f |>) = Done (d, h <| deps ::= f |>).
Proof.
  destruct l as [d'|i]; simpl; [by intros [= ->]|]. unfold mbind, M_bind, getInst, expect. simpl.
  destruct (insts h !! i); [|done]. by intros [= <-].
Qed.

(** [d] takes the name and id of [src]. *)
Lemma assign_run d l src ds dd h :
  resolve l h = Done (src, h) → deps h !! src = Some ds → deps h !! d = Some dd →
  assign_name_id d l h =
    Done ((), h <| deps ::= insert d (MkDeployment (dname ds) (did ds) (dreplica dd)) |>).
Proof.
  intros Hr Hs Hd. unfold assign_name_id.
  erewrite bind_done by (by eapply Name_run).
  erewrite bind_done by reflexivity.
  set (h1 := h <| deps ::= alter (λ x, x <| dname := dname ds |>) d |>).
  assert (Hs1 : ∃ ds', deps h1 !! src = Some ds' ∧ did ds' = did ds).
  { unfold h1; simpl. destruct (decide (src = d)) as [->|].
    - rewrite lookup_alter_eq, Hs. eexists. by split.
    - rewrite lookup_alter_ne by done. eauto. }
  destruct Hs1 as (ds'&Hs1&Eid).
  erewrite bind_done by (eapply IdOf_run; [by apply resolve_deps|exact Hs1]).
  unfold modDep, modify, h1; simpl. f_equal. f_equal. f_equal. apply map_eq. intros k.
  destruct (decide (k = d)) as [->|].
  - by rewrite !lookup_alter_eq, lookup_insert_eq, Hd, Eid.
  - by rewrite !lookup_alter_ne, lookup_insert_ne.
Qed.

Definition withDep (d : dptr) (x : Deployment) (h : LHeap) : LHeap :=
  h <| deps ::= insert d x |>.

Lemma Reset_run d l src ds dd h :
  resolve l h = Done (src, h) → deps h !! src = Some ds → deps h !! d = Some dd →
  Reset d l None h = Done ((), withDep d (MkDeployment (dname ds) (did ds) (dreplica dd)) h).
Proof. apply assign_run. Qed.

Lemma Reset_save_run d l src ds dd o od h :
  resolve l h = Done (src, h) → deps h !! src = Some ds → deps h !! d = Some dd →
  deps h !! o = Some od → o ≠ d → o ≠ src →
  Reset d l (Some o) h =
    Done ((), withDep d (MkDeployment (dname ds) (did ds) (dreplica dd))
                (withDep o (MkDeployment (dname dd) (did dd) (dreplica od)) h)).
Proof.
  intros Hr Hs Hd Ho Hod Hos. unfold Reset.
  erewrite bind_done by (by apply (assign_run o (LDeployment d) d dd od)).
  apply (assign_run d l src ds dd).
  - by apply resolve_deps.
  - simpl. by rewrite lookup_insert_ne.
  - simpl. by rewrite lookup_insert_ne.
Qed.
End switch.

(** [Switch] as a function on heaps. *)
Definition switched_heap (d1 d2 : dptr) (dp1 dp2 : Deployment) (h : LHeap) : LHeap :=
  withDep d2 (MkDeployment (dname dp1) (did dp1) (dreplica dp2))
    (withDep d1 (MkDeployment (dname dp2) (did dp2) (dreplica dp1))
      (withDep (fresh_dep h) (MkDeployment (dname dp1) (did dp1) false)
        (withDep (fresh_dep h) (MkDeployment "" 0 false) h))).

Lemma Switch_run i to h ins d2 dp1 dp2 :
  insts h !! i = Some ins → resolve to h = Done (d2, h) → idep ins ≠ d2 →
  deps h !! idep ins = Some dp1 → deps h !! d2 = Some dp2 →
  Switch i to h = Done (i, switched_heap (idep ins) d2 dp1 dp2 h).
Proof.
  intros Hi Hto Hne H1 H2. unfold Switch. set (t := fresh_dep h).
  assert (Ht : deps h !! t = None) by (apply not_elem_of_dom; unfold t, fresh_dep; apply is_fresh).
  assert (Ht1 : t ≠ idep ins) by congruence. assert (Ht2 : t ≠ d2) by congruence.
  erewrite bind_done by reflexivity. fold t.
  set (h1 := h <| deps ::= insert t (MkDeployment "" 0 false) |>).
  erewrite bind_done by (unfold getInst, h1; simpl; by rewrite Hi).
  erewrite bind_done by (eapply (Reset_save_run (idep ins) to d2 dp2 dp1 t);
    [by apply resolve_deps| | | |done..]; unfold h1; simpl;
    [by rewrite lookup_insert_ne|by rewrite lookup_insert_ne|apply lookup_insert_eq]).
  erewrite bind_done by (by do 3 apply resolve_deps).
  erewrite bind_done by (eapply (Reset_run d2 _ t (MkDeployment (dname dp1) (did dp1) false) dp2);
    [reflexivity| |]; unfold withDep, h1; simpl;
    [by rewrite lookup_insert_ne, lookup_insert_eq|by rewrite !lookup_insert_ne]).
  reflexivity.
Qed.

Lemma switched_heap_deps d1 d2 dp1 dp2 h :
  d1 ≠ d2 → deps h !! d1 = Some dp1 → deps h !! d2 = Some dp2 →
  let h' := switched_heap d1 d2 dp1 dp2 h in
  deps h' !! d1 = Some (MkDeployment (dname dp2) (did dp2) (dreplica dp1)) ∧
  deps h' !! d2 = Some (MkDeployment (dname dp1) (did dp1) (dreplica dp2)) ∧
  (∀ k, k ≠ d1 → k ≠ d2 → k ≠ fresh_dep h → deps h' !! k = deps h !! k).
Proof.
  intros Hne H1 H2 h'. unfold h', switched_heap, withDep; simpl. split_and!.
  - by rewrite lookup_insert_ne, lookup_insert_eq.
  - by rewrite lookup_insert_eq.
  - intros k ???. by rewrite !lookup_insert_ne.
Qed.

(** [Switch] exchanges the name and id of an instance's deployment with
    those of another deployment: both end up with the other's, whatever
    deployments exist besides, and the instance is returned. *)
Theorem Switch_exchanges i to h ins d2 dp1 dp2 :
  insts h !! i = Some ins → resolve to h = Done (d2, h) → idep ins ≠ d2 →
  deps h !! idep ins = Some dp1 → deps h !! d2 = Some dp2 →
  ∃ h', Switch i to h = Done (i, h') ∧ insts h' = insts h ∧
    deps h' !! idep ins = Some (MkDeployment (dname dp2) (did dp2) (dreplica dp1)) ∧
    deps h' !! d2 = Some (MkDeployment (dname dp1) (did dp1) (dreplica dp2)) ∧
    (∀ k, k ≠ idep ins → k ≠ d2 → k ≠ fresh_dep h → deps h' !! k = deps h !! k).
Proof.
  intros Hi Hto Hne H1 H2. eexists. split; [by apply Switch_run|]. split; [done|].
  by apply switched_heap_deps.
Qed.

Section switch_witness.
#[local] Open Scope string_scope.
Definition twoDeployments : LHeap :=
  MkLHeap {[ 0%nat := MkDeployment "Node1" 1 false; 1%nat := MkDeployment "Node2" 2 false ]}
    {[ 0%nat := MkInstance 0 (MkLMeta 0 0) None [] INSTANCE_SLEEP false None false [] ]}
    ∅ ∅ ∅ [] 0.
Lemma Switch_exchanges_witness : ∃ h', Switch 0 (LDeployment 1) twoDeployments = Done (0%nat, h') ∧
  deps h' !! 0%nat = Some (MkDeployment "Node2" 2 false).
Proof.
  destruct (Switch_exchanges 0 (LDeployment 1) twoDeployments
    (MkInstance 0 (MkLMeta 0 0) None [] INSTANCE_SLEEP false None false []) 1%nat
    (MkDeployment "Node1" 1 false) (MkDeployment "Node2" 2 false)) as (h'&Hr&_&Hd&_);
    [reflexivity|reflexivity|simpl; lia|reflexivity|reflexivity|].
  exists h'. split; [exact Hr|exact Hd].
Defined.
End switch_witness.
