(* ===== verification/Request.v ===== *)
(** * proxy/types: requests, controls and responses

    How a request is written to a connection, flushed, matched with a response
    of the lambda, and answered at most once.  What the writer does with the
    calls is redeo's; the calls themselves and the errors it returns are not. *)

From Stdlib Require Import Ascii.
From stdpp Require Import pretty.
From S2P Require Import Prelude Lambdastore.

Abbreviation error := (option string) (only parsing).

(** ** Writing *)

Definition write (c : cptr) (ops : list WOp) : M LHeap unit :=
  modConn c (λ x, x <| cw ::= (λ l, l ++ ops) |>).

Definition Request_Retriable (x : Request) : bool :=
  match BodyStream x with None => true | Some _ => negb (streamingStarted x) end.
Definition Control_Retriable (_ : Control) : bool := true.

Definition setCmds (x : Request) : list WOp :=
  [WMultiBulkSize 6; WBulkString (reqCmd x); WBulkString (pretty (ConnId (reqId x)));
   WBulkString (ReqId (reqId x)); WBulkString (ChunkId (reqId x)); WBulkString (reqKey x)] ++
  match reqBody x with Some b => [WBulk b] | None => [] end.
Definition PrepareForSet (r : rptr) (c : cptr) : M LHeap unit :=
  x ← getReq r;
  write c (setCmds x);;
  modReq r (λ x, x <| reqW := Some c |>).

Definition getCmds (x : Request) : list WOp :=
  [WMultiBulkSize 5; WBulkString (reqCmd x); WBulkString (pretty (ConnId (reqId x)));
   WBulkString (ReqId (reqId x)); WBulkString ""; WBulkString (reqKey x)].
Definition PrepareForGet (r : rptr) (c : cptr) : M LHeap unit :=
  x ← getReq r;
  write c (getCmds x);;
  modReq r (λ x, x <| reqW := Some c |>).

Definition delCmds (x : Request) : list WOp :=
  [WMultiBulkSize 5; WBulkString (reqCmd x); WBulkString (pretty (ConnId (reqId x)));
   WBulkString (ReqId (reqId x)); WBulkString (ChunkId (reqId x)); WBulkString (reqKey x)].
Definition PrepareForDel (r : rptr) (c : cptr) : M LHeap unit :=
  x ← getReq r;
  write c (delCmds x);;
  modReq r (λ x, x <| reqW := Some c |>).

(** What the writer's calls return: the two flushes and the copy. *)
Record FlushIO : Type := MkFlushIO { ioFlush : error; ioCopy : error; ioFlush2 : error }.

Definition errNoWriter : string := "Writer for request not set.".

Definition Flush (io : FlushIO) (r : rptr) : M LHeap error :=
  x ← getReq r;
  match reqW x with
  | None => mret (Some errNoWriter)
  | Some c =>
      modReq r (λ x, x <| reqW := None |>);;
      write c [WFlush];;
      match ioFlush io with
      | Some e => mret (Some e)
      | None =>
          match BodyStream x with
          | None => mret None
          | Some len =>
              modReq r (λ x, x <| streamingStarted := true |>);;
              write c [WCopyBulk len];;
              match ioCopy io with
              | Some e => mret (Some e)
              | None => write c [WFlush];; mret (ioFlush2 io)
              end
          end
      end
  end.

(** control.go *)
Definition Control_PrepareForData (k : Control) (c : cptr) : M LHeap Control :=
  write c [WCmdString [ctlCmd k]];; mret (k <| ctlW := Some c |>).
Definition Control_PrepareForMigrate (k : Control) (c : cptr) : M LHeap Control :=
  write c [WCmdString [ctlCmd k; ctlAddr k; ctlDeployment k; pretty (ctlId k)]];;
  mret (k <| ctlW := Some c |>).
Definition Control_PrepareForDel (k : Control) (c : cptr) : M LHeap Control :=
  r ← expect PNil (ctlReq k);
  PrepareForDel r c;;
  mret (k <| ctlW := Some c |>).
Definition Control_Flush (ioerr : error) (k : Control) : M LHeap (error * Control) :=
  match ctlW k with
  | None => mret (Some errNoWriter, k)
  | Some c => write c [WFlush];; mret (ioerr, k <| ctlW := None |>)
  end.

(** ** Responses *)

Definition IsResponse (x : Request) (rsp : Response) : bool :=
  bool_decide (reqCmd x = rspCmd rsp) &&
  bool_decide (ReqId (reqId x) = ReqId (rspId rsp)) &&
  bool_decide (ChunkId (reqId x) = ChunkId (rspId rsp)).

(** [Request.SetResponse]: the compare-and-swap on [responded] lets one caller
    through, which sends to the client's channel if there is one. *)
Definition SetResponse (r : rptr) (rsp : Reply) : M LHeap bool :=
  x ← getReq r;
  if responded x then mret false else
  modReq r (λ x, x <| responded := true |>);;
  (if ChanResponse x then
     modify (λ h, h <| responses ::= (λ l, l ++ [(r, rsp)]) |>);;
     modReq r (λ x, x <| ChanResponse := false |>)
   else mret ());;
  mret true.

(** response.go, on a [resp.ResponseWriter]. *)
Inductive ROp : Type :=
  | RAppendBulkString (s : string)
  | RAppendBulk (b : string)
  | RAppendError (s : string)
  | RCopyBulk (len : Z)
  | RFlush.

(** [Response.PrepareFor] then [Flush]; the stream length is that of the
    body stream, when there is one. *)
Definition Response_PrepareFor (rsp : Response) : list ROp :=
  [RAppendBulkString (ReqId (rspId rsp));
   RAppendBulkString
     (match rspBody rsp, rspStream rsp with
      | None, false => "-1" | _, _ => ChunkId (rspId rsp) end)] ++
  match rspBody rsp with Some b => [RAppendBulk b] | None => [] end.
Definition Response_Flush (rsp : Response) (len : Z) (ioCopy ioFl : error) :
    list ROp * error :=
  if rspStream rsp then
    match ioCopy with
    | Some e => ([RCopyBulk len], Some e)
    | None => ([RCopyBulk len; RFlush], ioFl)
    end
  else ([RFlush], ioFl).

(** ** strings.ToLower on the ASCII commands of the protocol *)

Definition lower_ascii (a : ascii) : ascii :=
  let n := N_of_ascii a in
  if decide (65 ≤ n ∧ n ≤ 90)%N then ascii_of_N (n + 32) else a.
Fixpoint ToLower (s : string) : string :=
  match s with
  | EmptyString => EmptyString
  | String a s' => String (lower_ascii a) (ToLower s')
  end.
