(* ===== verification/Instance.v ===== *)
(** * proxy/lambdastore/instance.go: validation, requests and closing

    An instance drives one lambda: it wakes it up, learns over which connection
    it can be reached (validation), and sends it requests.  Several goroutines
    act on an instance; each operation below is what one of them does while it
    holds the instance's lock, or between two blocking points. *)

From Stdlib Require Import Ascii String.
From stdpp Require Import pretty.
From S2P Require Import Prelude Lambdastore Request.

(** ** Connections are closed by signal *)

(** [Connection.Close] *)
Definition Conn_Close (c : cptr) : M LHeap unit :=
  _ ← getConn c; modConn c (λ x, x <| cclosed := true |>).

(** ** Flags *)

Definition IsValidating (i : iptr) : M LHeap bool :=
  ins ← getInst i; mret (chanValidated ins).

Definition IsClosed (i : iptr) : M LHeap bool := ins ← getInst i; mret (iclosed ins).

Definition flagValidatedLocked (i : iptr) (conn : option cptr) : M LHeap (option cptr) :=
  ins ← getInst i;
  (if chanValidated ins then
     match conn with
     | Some c => modInst i (λ x, x <| lastValidated := Some c |>)
     | None => mret ()
     end;;
     modInst i (λ x, x <| chanValidated := false |>)
   else mret ());;
  ins' ← getInst i;
  mret (lastValidated ins').

(** [Instance.flagValidated]; [conn] is nil only when the instance passes its
    own connection. *)
Definition flagValidated (i : iptr) (conn : option cptr) : M LHeap (option cptr) :=
  ins ← getInst i;
  (if decide (icn ins ≠ conn) then
     c ← expect PNil conn;
     _ ← getConn c;
     modConn c (λ x, x <| cinstance := Some i |>);;
     modInst i (λ x, x <| icn := Some c |>);;
     match icn ins with
     | None => mret ()
     | Some old =>
         Conn_Close old;;
         o ← getConn old;
         if decide (cinstance o = Some i)
         then modInst i (λ x, x <| awake := INSTANCE_MAYBE |>) else mret ()
     end
   else if decide (awake ins ≠ INSTANCE_MAYBE)
   then modInst i (λ x, x <| awake := INSTANCE_AWAKE |>) else mret ());;
  flagValidatedLocked i conn.

(** [Instance.bye] *)
Definition Inst_bye (i : iptr) (c : cptr) : M LHeap unit :=
  ins ← getInst i;
  if decide (icn ins = Some c)
  then modInst i (λ x, x <| awake := INSTANCE_SLEEP |>) else mret ().

(** [Instance.Close] *)
Definition Inst_Close (i : iptr) : M LHeap unit :=
  ins ← getInst i;
  if iclosed ins then mret () else
  modInst i (λ x, x <| iclosed := true |>);;
  match icn ins with Some c => Conn_Close c | None => mret () end;;
  flagValidatedLocked i None;;
  mret ().

(** ** Triggering *)

Definition tryTriggerLambda (i : iptr) (warmUp : bool) : M LHeap bool :=
  ins ← getInst i;
  if decide (awake ins = INSTANCE_AWAKE) then mret false else
  modInst i (λ x, x <| triggers ::= cons warmUp |>);;
  mret true.

(** An invocation made by [triggerLambda] returned: it invokes the lambda again,
    no longer for warm-up, while a validation is in progress, and ends
    otherwise. *)
Definition triggerLambda_returned (i : iptr) (k : nat) : M LHeap unit :=
  ins ← getInst i;
  _ ← expect PIndex (triggers ins !! k);
  if chanValidated ins then modInst i (λ x, x <| triggers ::= insert k false |>)
  else
    modInst i (λ x, x <| triggers ::= delete k |>);;
    if decide (awake ins ≠ INSTANCE_MAYBE)
    then modInst i (λ x, x <| awake := INSTANCE_SLEEP |>) else mret ().

(** The payload of an invocation: common/types.InputEvent. *)
Record InputEvent : Type := MkInputEvent {
  evCmd : string; evId : Z; evProxy : string; evPrefix : string; evLog : Z
}.
Definition triggerLambdaLocked (serverIp : string) (basePort : Z) (prefix : string) (level : Z)
    (i : iptr) (warmUp : bool) : M LHeap (string * InputEvent) :=
  id ← IdOf (LInstance i);
  name ← Name (LInstance i);
  mret (name, MkInputEvent (if warmUp then "warmup" else "") id
                (serverIp +:+ ":" +:+ pretty (basePort + 1)) prefix level).

(** ** Validation *)

(** Where a goroutine in [validate] is: about to try, waiting after a ping
    with a timeout, waiting without, or returned. *)
Inductive vstate : Type :=
  | VLoop
  | VPinged
  | VWaiting
  | VReturned (c : option cptr).

Definition Ping (c : cptr) : M LHeap unit :=
  _ ← getConn c; write c [WCmdString ["ping"%string]; WFlush].

(** From the lock to its release. *)
Definition validate_start (i : iptr) : M LHeap vstate :=
  ins ← getInst i;
  if chanValidated ins then mret VWaiting else
  modInst i (λ x, x <| chanValidated := true |> <| lastValidated := None |>);;
  mret VLoop.

(** The head of the loop. *)
Definition validate_loop (i : iptr) (warmUp : bool) : M LHeap vstate :=
  ins ← getInst i;
  triggered ← (if decide (awake ins = INSTANCE_SLEEP) then tryTriggerLambda i warmUp
               else mret false);
  if (triggered : bool) then mret VWaiting
  else if warmUp then
    ins' ← getInst i; c ← flagValidated i (icn ins'); mret (VReturned c)
  else
    ins' ← getInst i; c ← expect PNil (icn ins'); Ping c;; mret VPinged.

(** [<-ins.chanValidated], then [lastValidated].  The channel is the one that is
    current when the receive succeeds: if another call of [validate] replaced it
    in between, which only the warm-up at the start can do while the request
    loop waits, the wait is for the newer one here. *)
Definition validated (i : iptr) : M LHeap (option cptr) :=
  ins ← getInst i;
  if chanValidated ins then blocked else mret (lastValidated ins).

Definition validate_step (i : iptr) (warmUp timeout : bool) (v : vstate) : M LHeap vstate :=
  match v with
  | VLoop => validate_loop i warmUp
  | VPinged =>
      if timeout then modInst i (λ x, x <| awake := INSTANCE_SLEEP |>);; mret VLoop
      else c ← validated i; mret (VReturned c)
  | VWaiting => c ← validated i; mret (VReturned c)
  | VReturned _ => blocked
  end.

(** ** Requests *)

(** [handleRequest]: the error is that of the flush of a request. *)
Definition handleRequest (io : FlushIO) (i : iptr) (c : cptr) (cmd : Command) : M LHeap error :=
  match cmd with
  | CRequest r =>
      x ← getReq r;
      _ ← getConn c;
      let cmd := ToLower (reqCmd x) in
      if decide (cmd = "set" ∨ cmd = "get" ∨ cmd = "del") then
        (if decide (cmd = "set") then PrepareForSet r c
         else if decide (cmd = "get") then PrepareForGet r c
         else PrepareForDel r c);;
        cn ← getConn c;
        match chanWait cn with
        | _ :: _ => blocked
        | [] =>
            modConn c (λ x, x <| chanWait := [r] |>);;
            err ← Flush io r;
            match err with
            | None => mret None
            | Some e => modConn c (λ x, x <| chanWait ::= tail |>);; mret (Some e)
            end
        end
      else
        SetResponse r (RError ("Unexpected request command: " +:+ cmd));; mret None
  | CControl k =>
      _ ← getConn c;
      let cmd := ToLower (ctlCmd k) in
      if decide (cmd = "data" ∨ cmd = "migrate" ∨ cmd = "del") then
        k' ← (if decide (cmd = "data") then Control_PrepareForData k c
              else if decide (cmd = "migrate") then Control_PrepareForMigrate k c
              else Control_PrepareForDel k c);
        '(err, _) ← Control_Flush (ioFlush io) k';
        match err with
        | None => mret None
        | Some _ =>
            (if decide (cmd = "data") then modify (λ h, h <| DataCollected ::= Z.pred |>)
             else mret ());;
            mret None
        end
      else mret None
  end.

Definition MAX_RETRY : nat := 3.

Definition Retriable (cmd : Command) : M LHeap bool :=
  match cmd with
  | CRequest r => x ← getReq r; mret (Request_Retriable x)
  | CControl k => mret (Control_Retriable k)
  end.

(** The loop over attempts.  Each one brings the connection [Validate] returned
    and the results of the writer; [None] when there was no connection. *)
Fixpoint attempts (n : nat) (i : iptr) (cmd : Command) (tries : list (option cptr * FlushIO))
    (err : error) : M LHeap (option error) :=
  match n, tries with
  | O, _ => mret (Some err)
  | S _, [] => blocked
  | S n', (conn, io) :: tries' =>
      match conn with
      | None => mret None
      | Some c =>
          e ← handleRequest io i c cmd;
          match e with
          | None => mret (Some None)
          | Some _ => attempts n' i cmd tries' e
          end
      end
  end.

(** One command taken from [chanReq] by [HandleRequests]; [false] when the
    goroutine ends. *)
Definition HandleRequest (i : iptr) (cmd : Command) (tries : list (option cptr * FlushIO)) :
    M LHeap bool :=
  b ← Retriable cmd;
  let retries := if (b : bool) then MAX_RETRY else 1%nat in
  res ← attempts retries i cmd tries None;
  match res with
  | None => mret false
  | Some err =>
      match err, cmd with
      | Some e, CRequest r => SetResponse r (RError e);; mret ()
      | _, _ => mret ()
      end;;
      mret true
  end.

(** [Migrate]: the destination and the migrator's address come from the
    migration scheduler. *)
Definition Migrate (serverIp : string) (i : iptr) (dest : LambdaDeployment + string)
    (start : string + string) : M LHeap error :=
  match dest with
  | inr e => mret (Some e)
  | inl dply =>
      match start with
      | inr e => mret (Some e)
      | inl addr =>
          first ← expect PIndex (String.get 0 addr);
          let addr := if decide (first = ":"%char) then serverIp +:+ addr else addr in
          name ← Name dply;
          id ← IdOf dply;
          ins ← getInst i;
          match chanReq ins with
          | _ :: _ => blocked
          | [] => modInst i (λ x, x <| chanReq :=
                    [CControl (MkControl "migrate" addr name id None None)] |>);; mret None
          end
      end
  end.
