(* ===== verification/Connection.v ===== *)
(** * proxy/lambdastore/connection.go: serving a lambda's connection

    One goroutine per connection reads what the lambda sends and matches it
    with the request that waits for it.  What the reader yields is the input of
    the handlers; the registry of instances is an interface that the scheduler
    of the server implements. *)

From Stdlib Require Import Ascii.
From stdpp Require Import pretty.
From S2P Require Import Prelude Lambdastore Request Instance.

(** ** The instance registry *)

Class InstanceRegistry (S : Type) : Type := {
  reg_ls : S → LHeap;
  reg_put : LHeap → S → S;
  Registry_Instance : Z → M S (option iptr)
}.

(** ** strconv.Atoi, the error being ignored by its callers *)

Definition digit (a : ascii) : option Z :=
  let n := Z.of_N (N_of_ascii a) in
  if decide (48 ≤ n ∧ n ≤ 57) then Some (n - 48) else None.
Fixpoint digits (acc : Z) (s : string) : option Z :=
  match s with
  | EmptyString => Some acc
  | String a s' => d ← digit a; digits (acc * 10 + d) s'
  end.
Definition clamp64 (z : Z) : Z := Z.max (- 2 ^ 63) (Z.min (2 ^ 63 - 1) z).
Definition Atoi (s : string) : Z :=
  let unsigned (sign : Z) (t : string) :=
    match t with
    | EmptyString => 0
    | _ => from_option (λ z, clamp64 (sign * z)) 0 (digits 0 t)
    end in
  match s with
  | String a t =>
      if decide (a = "-"%char) then unsigned (-1) t
      else if decide (a = "+"%char) then unsigned 1 t else unsigned 1 s
  | EmptyString => 0
  end.

(** It reads back what [strconv.Itoa] writes. *)
Lemma digit_char x : (x < 10)%N → digit (pretty_N_char x) = Some (Z.of_N x).
Proof.
  intros Hx.
  assert (Hc : x ∈ [0; 1; 2; 3; 4; 5; 6; 7; 8; 9]%N) by (rewrite !elem_of_cons; lia).
  repeat (apply elem_of_cons in Hc as [->|Hc]; [reflexivity|]). by apply not_elem_of_nil in Hc.
Qed.
Lemma digits_pretty_go x s : digits 0 (pretty_N_go x s) = digits (Z.of_N x) s.
Proof.
  revert s. induction (N.lt_wf_0 x) as [x _ IH]. intros s. destruct (decide (0 < x)%N) as [Hx|Hx].
  - rewrite pretty_N_go_step by done. rewrite IH by (by apply N.div_lt). cbn [digits].
    rewrite digit_char by (by apply N.mod_lt). cbn. f_equal. rewrite N2Z.inj_div, N2Z.inj_mod.
    pose proof (Z.div_mod (Z.of_N x) 10). lia.
  - assert (x = 0)%N as -> by lia. by rewrite pretty_N_go_0.
Qed.
Lemma digits_pretty (x : N) : digits 0 (pretty x) = Some (Z.of_N x).
Proof.
  unfold pretty, pretty_N. case_decide as E; [by subst|]. by rewrite digits_pretty_go.
Qed.
Lemma pretty_digit_first (x : N) : ∃ a t, pretty x = String a t ∧ a ≠ "-"%char ∧ a ≠ "+"%char.
Proof.
  pose proof (digits_pretty x) as E. destruct (pretty x) as [|a t] eqn:Ep.
  - exfalso. injection E as E. destruct x; [|lia]. discriminate Ep.
  - exists a, t. split; [done|]. by split; intros ->.
Qed.
Lemma Atoi_pretty z : is_i64 z → Atoi (pretty z) = z.
Proof.
  assert (HN : ∀ x : N, is_i64 (Z.of_N x) → Atoi (pretty x) = Z.of_N x).
  { intros x Hx. destruct (pretty_digit_first x) as (a&t&Ep&Ha&Hb). unfold Atoi. rewrite Ep.
    rewrite !decide_False by done. rewrite <- Ep, digits_pretty. cbn [from_option]. unfold clamp64.
    unfold is_i64 in Hx. lia. }
  intros Hz. destruct z as [|q|q]; [done|apply (HN (Npos q) Hz)|].
  change (pretty (Z.neg q)) with (String "-" (pretty (Npos q))). unfold Atoi.
  rewrite decide_True by done. destruct (pretty_digit_first (Npos q)) as (a&t&Ep&_). rewrite Ep, <- Ep.
  rewrite digits_pretty. cbn [from_option]. unfold clamp64, is_i64 in *. lia.
Qed.

(** ** Matching responses *)

Definition ErrConnectionClosed : string := "Connection closed".
Definition ErrMissingResponse : string := "Missing response".

(** The loop of [SetResponse] over the channel: requests that do not match are
    answered with an error. *)
Fixpoint matchResponse (c : cptr) (rsp : Response) (l : list rptr) :
    M LHeap (option rptr * bool) :=
  match l with
  | [] => mret (None, false)
  | r :: l' =>
      modConn c (λ x, x <| chanWait := l' |>);;
      x ← getReq r;
      if IsResponse x rsp then
        ok ← SetResponse r (RResponse rsp); mret (Some r, ok)
      else
        SetResponse r (RError ErrMissingResponse);;
        matchResponse c rsp l'
  end.
Definition Conn_SetResponse (c : cptr) (rsp : Response) : M LHeap (option rptr * bool) :=
  cn ← getConn c; matchResponse c rsp (chanWait cn).

Definition SetErrorResponse (c : cptr) (err : string) : M LHeap unit :=
  cn ← getConn c;
  match chanWait cn with
  | [] => mret ()
  | r :: l =>
      modConn c (λ x, x <| chanWait := l |>);;
      SetResponse r (RError err);; mret ()
  end.

Fixpoint clearWaiting (c : cptr) (l : list rptr) : M LHeap unit :=
  match l with
  | [] => mret ()
  | r :: l' =>
      modConn c (λ x, x <| chanWait := l' |>);;
      SetResponse r (RError ErrConnectionClosed);;
      clearWaiting c l'
  end.
Definition clearResponses (c : cptr) : M LHeap unit :=
  cn ← getConn c; clearWaiting c (chanWait cn).

(** ** Ending a connection *)

Definition Conn_bye (c : cptr) : M LHeap unit :=
  cn ← getConn c;
  match cinstance cn with Some i => Inst_bye i c | None => mret () end.

(** [Connection.close] *)
Definition Conn_close (c : cptr) : M LHeap unit :=
  Conn_Close c;;
  Conn_bye c;;
  modConn c (λ x, x <| sockClosed := true |>);;
  clearResponses c.

(** ** Handlers *)

Section handlers.
Context {S : Type} `{InstanceRegistry S}.

Definition onReg {A} (k : M LHeap A) : M S A := zoom reg_ls reg_put k.

(** A lambda announces itself: [id] is the instance it runs. *)
Definition pongHandler (c : cptr) (id : Z) : M S unit :=
  cn ← onReg (getConn c);
  match cinstance cn with
  | Some i => onReg (flagValidated i (Some c));; mret ()
  | None =>
      found ← Registry_Instance (u64 id);
      match found with
      | None => mret ()
      | Some i => onReg (flagValidated i (Some c));; mret ()
      end
  end.
End handlers.

(** A chunk arrives.  [body] tells whether [StreamBulk] gave a reader. *)
Definition getHandler (c : cptr) (connId reqId chunkId : string) (body : bool) : M LHeap unit :=
  h ← mget;
  match ReqMap h !! reqId with
  | None => mret ()
  | Some ctr =>
      let id := MkId (Atoi connId) reqId chunkId in
      let reqCounter := i32 (Counter ctr + 1) in
      modify (λ h, h <| ReqMap ::= alter (λ k, k <| Counter := reqCounter |>) reqId |>);;
      if decide (DataShards ctr < reqCounter) then
        Conn_SetResponse c (MkResponse id "get" None false);;
        if decide (reqCounter = i64 (DataShards ctr + ParityShards ctr))
        then modify (λ h, h <| ReqMap ::= delete reqId |>) else mret ()
      else if body then
        Conn_SetResponse c (MkResponse id "get" None true);; mret ()
      else throw PType
  end.

Definition setHandler (c : cptr) (connId reqId chunkId : string) : M LHeap unit :=
  cn ← getConn c;
  i ← expect PNil (cinstance cn);
  id ← IdOf (LInstance i);
  Conn_SetResponse c (MkResponse (MkId (Atoi connId) reqId chunkId) "set" (Some (pretty id)) false);;
  mret ().

Definition delHandler (c : cptr) (connId reqId chunkId : string) : M LHeap unit :=
  Conn_SetResponse c (MkResponse (MkId (Atoi connId) reqId chunkId) "del" None false);;
  mret ().

Definition receiveData : M LHeap unit := modify (λ h, h <| DataCollected ::= Z.pred |>).

(** ** Serving *)

(** What the reader yields in one round of [ServeLambda]: an error or EOF from
    the peek, an error response (or the error of reading it), a command with its fields, or a command that
    could not be read. *)
Inductive LambdaMsg : Type :=
  | LPeekError
  | LError (unknown : bool) (msg : string)
  | LUnreadable (eof : bool)
  | LPong (id : Z)
  | LGet (connId reqId chunkId : string) (body : bool)
  | LSet (connId reqId chunkId : string)
  | LDel (connId reqId chunkId : string)
  | LData
  | LInitMigrate
  | LBye
  | LUnsupported.

Section serve.
Context {S : Type} `{InstanceRegistry S}.

(** One round; [sel] is the branch of the first [select]: [true] when the closed
    signal is seen.  [false] is returned when the goroutine ends.  The
    migration that [initMigrate] starts runs in a goroutine of its own. *)
Definition ServeLambda_round (c : cptr) (sel : bool) (msg : LambdaMsg) : M S bool :=
  cn ← onReg (getConn c);
  if (sel : bool) && bool_decide (chanWait cn = []) then onReg (Conn_close c);; mret false
  else
    match msg with
    | LPeekError => onReg (Conn_close c);; mret false
    | LError unknown m =>
        onReg (SetErrorResponse c
          ((if unknown then "Response error (Unknown): " else "Response error: ") +:+ m));;
        mret true
    | LUnreadable true => onReg (Conn_close c);; mret true
    | LUnreadable false => mret true
    | LPong id => pongHandler c id;; mret true
    | LGet a b d body => onReg (getHandler c a b d body);; mret true
    | LSet a b d => onReg (setHandler c a b d);; mret true
    | LDel a b d => onReg (delHandler c a b d);; mret true
    | LData => onReg receiveData;; mret true
    | LInitMigrate => mret true
    | LBye => onReg (Conn_bye c);; mret true
    | LUnsupported => mret true
    end.
End serve.
