(* ===== verification/Responses.v ===== *)
(** * Requests are answered at most once

    However the goroutines of the proxy interleave (sending with retries,
    serving connections, closing connections and instances), a client's
    request is answered at most once on its channel.  The registry that the
    pong handler consults is only required to leave requests alone. *)

From S2P Require Import Prelude Lambdastore Request Instance Connection.

(** Number of replies sent for [r]. *)
Definition answered (h : LHeap) (r : rptr) : nat :=
  length (filter (λ p, p.1 = r) (responses h)).

(** A request marked as responded was answered at most once, others never. *)
Definition RInv (h : LHeap) : Prop :=
  ∀ r, match reqs h !! r with
       | Some x => if responded x then (answered h r ≤ 1)%nat else answered h r = 0%nat
       | None => answered h r = 0%nat
       end.

Lemma RInv_once h r : RInv h → (answered h r ≤ 1)%nat.
Proof. intros H. specialize (H r). repeat case_match; lia. Qed.

Section primitives.

Lemma RInv_same h h' : RInv h → reqs h' = reqs h → responses h' = responses h → RInv h'.
Proof. intros H E1 E2 r. specialize (H r). unfold answered in *. by rewrite E1, E2. Qed.

Lemma RInv_modReq r f : (∀ x, responded (f x) = responded x) → preserves RInv (modReq r f).
Proof.
  intros Hf. apply preserves_modify. intros h H k. specialize (H k).
  unfold answered in *. simpl. destruct (decide (k = r)) as [->|].
  - rewrite lookup_alter_eq. destruct (reqs h !! r) as [x|]; [|done]. simpl. by rewrite Hf.
  - by rewrite lookup_alter_ne.
Qed.

Lemma RInv_modify f :
  (∀ h, reqs (f h) = reqs h) → (∀ h, responses (f h) = responses h) → preserves RInv (modify f).
Proof. intros H1 H2. apply preserves_modify. intros h H. by eapply RInv_same. Qed.
Lemma RInv_modConn c f : preserves RInv (modConn c f).
Proof. by apply RInv_modify. Qed.
Lemma RInv_modInst i f : preserves RInv (modInst i f).
Proof. by apply RInv_modify. Qed.
Lemma RInv_getReq r : preserves RInv (getReq r).
Proof. intros h a h' H E. unfold getReq in E. by apply expect_inv in E as [_ ->]. Qed.
Lemma RInv_getConn c : preserves RInv (getConn c).
Proof. intros h a h' H E. unfold getConn in E. by apply expect_inv in E as [_ ->]. Qed.
Lemma RInv_getInst i : preserves RInv (getInst i).
Proof. intros h a h' H E. unfold getInst in E. by apply expect_inv in E as [_ ->]. Qed.
Lemma RInv_getDep d : preserves RInv (getDep d).
Proof. intros h a h' H E. unfold getDep in E. by apply expect_inv in E as [_ ->]. Qed.
End primitives.

#[local] Hint Resolve RInv_modReq RInv_modify RInv_modConn RInv_modInst RInv_getReq
  RInv_getConn RInv_getInst RInv_getDep : go.

(** The one operation that answers. *)
Lemma RInv_SetResponse r rsp : preserves RInv (SetResponse r rsp).
Proof.
  intros h a h' H Hr. unfold SetResponse in Hr. apply bind_inv in Hr as (x&h1&Hx&Hr).
  unfold getReq in Hx. apply expect_inv in Hx as [Hx ->].
  destruct (responded x) eqn:Er; [by injection Hr as _ <-|].
  erewrite bind_done in Hr by reflexivity.
  pose proof (H r) as H0. rewrite Hx, Er in H0.
  assert (Hnot : ∀ k, k ≠ r → answered (h <| responses ::= (λ l, l ++ [(r, rsp)]) |>) k = answered h k).
  { intros k Hk. unfold answered; simpl. rewrite list.filter_app, filter_cons_False by (simpl; congruence).
    by rewrite filter_nil, app_nil_r. }
  assert (Hyes : answered (h <| responses ::= (λ l, l ++ [(r, rsp)]) |>) r = 1%nat).
  { unfold answered in *; simpl. rewrite list.filter_app, filter_cons_True by done.
    rewrite length_app, H0. done. }
  destruct (ChanResponse x).
  - erewrite bind_done in Hr by (by erewrite bind_done by reflexivity).
    injection Hr as _ <-. intros k. simpl. destruct (decide (k = r)) as [->|Hk].
    + rewrite !lookup_alter_eq, Hx. simpl. unfold answered in *. simpl in *. lia.
    + rewrite !lookup_alter_ne by done. specialize (H k). specialize (Hnot k Hk).
      unfold answered in *. simpl in *. by rewrite Hnot.
  - erewrite bind_done in Hr by reflexivity. injection Hr as _ <-. intros k. simpl.
    destruct (decide (k = r)) as [->|Hk].
    + rewrite lookup_alter_eq, Hx. simpl. unfold answered in *. simpl. lia.
    + rewrite lookup_alter_ne by done. apply (H k).
Qed.
#[local] Hint Resolve RInv_SetResponse : go.

Section operations.
Lemma RInv_write c ops : preserves RInv (write c ops).
Proof. unfold write. preserve. Qed.
#[local] Hint Resolve RInv_write : go.
Lemma RInv_Flush io r : preserves RInv (Flush io r).
Proof. unfold Flush. preserve. Qed.
Lemma RInv_PrepareForSet r c : preserves RInv (PrepareForSet r c).
Proof. unfold PrepareForSet. preserve. Qed.
Lemma RInv_PrepareForGet r c : preserves RInv (PrepareForGet r c).
Proof. unfold PrepareForGet. preserve. Qed.
Lemma RInv_PrepareForDel r c : preserves RInv (PrepareForDel r c).
Proof. unfold PrepareForDel. preserve. Qed.
#[local] Hint Resolve RInv_Flush RInv_PrepareForSet RInv_PrepareForGet RInv_PrepareForDel : go.
Lemma RInv_Control_Flush e k : preserves RInv (Control_Flush e k).
Proof. unfold Control_Flush. preserve. Qed.
Lemma RInv_Control_Data k c : preserves RInv (Control_PrepareForData k c).
Proof. unfold Control_PrepareForData. preserve. Qed.
Lemma RInv_Control_Migrate k c : preserves RInv (Control_PrepareForMigrate k c).
Proof. unfold Control_PrepareForMigrate. preserve. Qed.
Lemma RInv_Control_Del k c : preserves RInv (Control_PrepareForDel k c).
Proof. unfold Control_PrepareForDel. preserve. Qed.
#[local] Hint Resolve RInv_Control_Flush RInv_Control_Data RInv_Control_Migrate
  RInv_Control_Del : go.

Lemma RInv_handleRequest io i c cmd : preserves RInv (handleRequest io i c cmd).
Proof. unfold handleRequest. preserve. Qed.
#[local] Hint Resolve RInv_handleRequest : go.
Lemma RInv_attempts n i cmd tries e : preserves RInv (attempts n i cmd tries e).
Proof.
  revert tries e. induction n as [|n IH]; intros [|[[c|] io] tries] e; simpl; preserve.
Qed.
#[local] Hint Resolve RInv_attempts : go.
Lemma RInv_HandleRequest i cmd tries : preserves RInv (HandleRequest i cmd tries).
Proof. unfold HandleRequest, Retriable. preserve. Qed.

Lemma RInv_matchResponse c rsp l : preserves RInv (matchResponse c rsp l).
Proof. induction l as [|r l IH]; simpl; preserve. Qed.
Lemma RInv_clearWaiting c l : preserves RInv (clearWaiting c l).
Proof. induction l as [|r l IH]; simpl; preserve. Qed.
#[local] Hint Resolve RInv_matchResponse RInv_clearWaiting : go.
Lemma RInv_Conn_SetResponse c rsp : preserves RInv (Conn_SetResponse c rsp).
Proof. unfold Conn_SetResponse. preserve. Qed.
#[local] Hint Resolve RInv_Conn_SetResponse : go.
Lemma RInv_SetErrorResponse c e : preserves RInv (SetErrorResponse c e).
Proof. unfold SetErrorResponse. preserve. Qed.
Lemma RInv_Conn_Close c : preserves RInv (Conn_Close c).
Proof. unfold Conn_Close. preserve. Qed.
Lemma RInv_Inst_bye i c : preserves RInv (Inst_bye i c).
Proof. unfold Inst_bye. preserve. Qed.
#[local] Hint Resolve RInv_Conn_Close RInv_Inst_bye : go.
Lemma RInv_Conn_bye c : preserves RInv (Conn_bye c).
Proof. unfold Conn_bye. preserve. Qed.
#[local] Hint Resolve RInv_Conn_bye : go.
Lemma RInv_Conn_close c : preserves RInv (Conn_close c).
Proof. unfold Conn_close, clearResponses. preserve. Qed.
Lemma RInv_flagValidatedLocked i c : preserves RInv (flagValidatedLocked i c).
Proof. unfold flagValidatedLocked. preserve. Qed.
#[local] Hint Resolve RInv_flagValidatedLocked : go.
Lemma RInv_flagValidated i c : preserves RInv (flagValidated i c).
Proof. unfold flagValidated. preserve. Qed.
Lemma RInv_Inst_Close i : preserves RInv (Inst_Close i).
Proof. unfold Inst_Close. preserve. Qed.
#[local] Hint Resolve RInv_flagValidated : go.
Lemma RInv_validate_step i w t v : preserves RInv (validate_step i w t v).
Proof.
  destruct v; simpl; unfold validate_loop, tryTriggerLambda, Ping, validated; preserve.
Qed.
Lemma RInv_validate_start i : preserves RInv (validate_start i).
Proof. unfold validate_start. preserve. Qed.
Lemma RInv_triggered i k : preserves RInv (triggerLambda_returned i k).
Proof. unfold triggerLambda_returned. preserve. Qed.
Lemma RInv_getHandler c a b d body : preserves RInv (getHandler c a b d body).
Proof. unfold getHandler. preserve. Qed.
Lemma RInv_setHandler c a b d : preserves RInv (setHandler c a b d).
Proof. unfold setHandler, IdOf, resolve. preserve. Qed.
Lemma RInv_delHandler c a b d : preserves RInv (delHandler c a b d).
Proof. unfold delHandler. preserve. Qed.
Lemma RInv_receiveData : preserves RInv receiveData.
Proof. unfold receiveData. preserve. Qed.
End operations.
#[export] Hint Resolve RInv_HandleRequest RInv_SetErrorResponse RInv_Conn_close RInv_Conn_bye
  RInv_flagValidated RInv_Inst_Close RInv_validate_step RInv_validate_start RInv_getHandler
  RInv_setHandler RInv_delHandler RInv_receiveData RInv_getConn : go.

(** ** Executions *)

(** What the handlers rely on: the registry leaves requests and their answers
    alone, and keeps the rest of its state apart from the heap. *)
Class RegistryLaws (S : Type) `{InstanceRegistry S} : Prop := {
  reg_ls_put l s : reg_ls (reg_put l s) = l;
  reg_keeps id s r s' : Registry_Instance id s = Done (r, s') →
    reqs (reg_ls s') = reqs (reg_ls s) ∧ responses (reg_ls s') = responses (reg_ls s)
}.

Section executions.
Context {S : Type} `{RegistryLaws S}.

Inductive lstep : S → S → Prop :=
  | ls_request_new s r x :
      reqs (reg_ls s) !! r = None → responded x = false →
      lstep s (reg_put (reg_ls s <| reqs ::= insert r x |>) s)
  | ls_connect s c :
      conns (reg_ls s) !! c = None →
      lstep s (reg_put (reg_ls s <| conns ::= insert c (MkConnection None [] false false []) |>) s)
  | ls_serve s c sel msg b s' :
      ServeLambda_round c sel msg s = Done (b, s') → lstep s s'
  | ls_request s i cmd tries b h' :
      HandleRequest i cmd tries (reg_ls s) = Done (b, h') → lstep s (reg_put h' s)
  | ls_validate_start s i v h' :
      validate_start i (reg_ls s) = Done (v, h') → lstep s (reg_put h' s)
  | ls_validate s i warmUp timeout v v' h' :
      validate_step i warmUp timeout v (reg_ls s) = Done (v', h') → lstep s (reg_put h' s)
  | ls_trigger s i k h' :
      triggerLambda_returned i k (reg_ls s) = Done ((), h') → lstep s (reg_put h' s)
  | ls_instance_new s d i h' :
      NewInstanceFromDeployment d (reg_ls s) = Done (i, h') → lstep s (reg_put h' s)
  | ls_close s i h' :
      Inst_Close i (reg_ls s) = Done ((), h') → lstep s (reg_put h' s).

Definition RInvS (s : S) : Prop := RInv (reg_ls s).

Lemma RInvS_onReg {A} (k : M LHeap A) : preserves RInv k → preserves RInvS (onReg k).
Proof.
  intros Hk. apply (preserves_zoom RInvS _ _ RInv); [done| |done].
  intros s t _ Ht. unfold RInvS. by rewrite reg_ls_put.
Qed.
#[local] Hint Resolve RInvS_onReg : go.

Lemma RInvS_registry id : preserves RInvS (Registry_Instance id).
Proof.
  intros s a s' Hs Hr. destruct (reg_keeps id s a s' Hr) as [E1 E2]. by eapply RInv_same.
Qed.
#[local] Hint Resolve RInvS_registry : go.

Lemma RInvS_round c sel msg : preserves RInvS (ServeLambda_round c sel msg).
Proof. unfold ServeLambda_round, pongHandler. preserve. Qed.

Lemma lstep_inv s s' : RInvS s → lstep s s' → RInvS s'.
Proof.
  intros Hs Hst. destruct Hst as [s r x Hr Hx|s c Hc|s c sel msg b s' Hr|s i cmd tries b h' Hr
    |s i v h' Hr|s i w t v v' h' Hr|s i k h' Hr|s d i h' Hr|s i h' Hr];
    unfold RInvS in *; rewrite ?reg_ls_put.
  - intros k. specialize (Hs k). unfold answered in *. simpl.
    destruct (decide (k = r)) as [->|]; [|by rewrite lookup_insert_ne].
    rewrite lookup_insert_eq, Hx. by rewrite Hr in Hs.
  - by eapply RInv_same.
  - by eapply RInvS_round.
  - by eapply RInv_HandleRequest.
  - by eapply RInv_validate_start.
  - by eapply RInv_validate_step.
  - eapply RInv_triggered; [exact Hs|exact Hr].
  - injection Hr as _ <-. by eapply RInv_same.
  - by eapply RInv_Inst_Close.
Qed.

Lemma lsteps_inv s s' : RInvS s → rtc lstep s s' → RInvS s'.
Proof. intros Hs Hr. induction Hr as [|s1 s2 s3 Hst _ IH]; [done|]. by apply IH, (lstep_inv s1). Qed.
End executions.

(** C5: in every execution, whatever is retried, mismatched or closed, a request
    receives at most one reply on the client's channel. *)
Theorem answered_at_most_once {S : Type} `{RegistryLaws S} (s s' : S) :
  responses (reg_ls s) = [] → rtc lstep s s' → ∀ r, (answered (reg_ls s') r ≤ 1)%nat.
Proof.
  intros Hempty Hr r. apply RInv_once. change (RInvS s'). eapply lsteps_inv; [|done].
  intros k. unfold answered. rewrite Hempty. simpl. repeat case_match; (done || lia).
Qed.

(** A registry that knows instances by address. *)
#[export] Instance heap_registry : InstanceRegistry LHeap := {
  reg_ls h := h;
  reg_put l _ := l;
  Registry_Instance id := λ h, Done ((λ _, Z.to_nat id) <$> insts h !! Z.to_nat id, h)
}.
#[export] Instance heap_registry_laws : RegistryLaws LHeap.
Proof. split; [done|]. intros id s r s' E. by injection E as _ <-. Qed.

Section concrete.
#[local] Open Scope string_scope.
(** A GET of chunk 0 waits on connection 0 of instance 0; data shards 1. *)
Definition getRequest : Request :=
  MkRequest (MkId 5 "req" "0") "get" "0@k" None None true false None false false.
Definition waitingHeap : LHeap :=
  MkLHeap {[ 0%nat := MkDeployment "Node0" 0 false ]}
    {[ 0%nat := MkInstance 0 (MkLMeta 0 0) (Some 0%nat) [] INSTANCE_AWAKE false (Some 0%nat) false [] ]}
    {[ 0%nat := MkConnection (Some 0%nat) [0%nat] false false [] ]}
    {[ 0%nat := getRequest ]}
    {[ "req" := MkCounter "get" 1 1 0 ]} [] 0.
End concrete.

Lemma answered_at_most_once_witness : ∃ s',
  rtc lstep waitingHeap s' ∧ responses s' ≠ [] ∧ (answered s' 0 ≤ 1)%nat.
Proof.
  destruct (ServeLambda_round 0 false (LGet "5" "req" "0" true) waitingHeap)
    as [[b s1]|?|] eqn:E1; [|vm_compute in E1; discriminate E1..].
  destruct (ServeLambda_round 0 false LPeekError s1) as [[b2 s2]|?|] eqn:E2;
    [|vm_compute in E1; injection E1 as <- <-; vm_compute in E2; discriminate E2..].
  assert (Hr : rtc lstep waitingHeap s2).
  { eapply rtc_l; [by eapply ls_serve|]. apply rtc_once. by eapply ls_serve. }
  exists s2. split; [exact Hr|]. split.
  - vm_compute in E1. injection E1 as <- <-. vm_compute in E2. by injection E2 as <- <-.
  - exact (answered_at_most_once waitingHeap s2 eq_refl Hr 0%nat).
Defined.

(** ** Chunks of a GET *)

(** the [n]-th chunk that arrives for a GET of [d] data and [p] parity shards
    is streamed to the client when [n <= d] and answered without a body
    otherwise; the counter of the request advances, and its entry is dropped
    with the [d + p]-th chunk, if there are parity shards. *)
Theorem getHandler_nth c r h x cn ctr connId reqId chunkId :
  ReqMap h !! reqId = Some ctr → conns h !! c = Some cn → chanWait cn = [r] →
  reqs h !! r = Some x → reqCmd x = "get" → ReqId (Lambdastore.reqId x) = reqId →
  ChunkId (Lambdastore.reqId x) = chunkId → responded x = false → ChanResponse x = true →
  0 ≤ Counter ctr < 2 ^ 31 - 1 → 0 ≤ DataShards ctr → 0 ≤ ParityShards ctr →
  DataShards ctr + ParityShards ctr < 2 ^ 31 →
  let n := Counter ctr + 1 in
  ∃ h', getHandler c connId reqId chunkId true h = Done ((), h') ∧
    responses h' = responses h ++
      [(r, RResponse (MkResponse (MkId (Atoi connId) reqId chunkId) "get" None
                        (bool_decide (n ≤ DataShards ctr))))] ∧
    ReqMap h' !! reqId =
      (if decide (DataShards ctr < n ∧ n = DataShards ctr + ParityShards ctr) then None
       else Some (ctr <| Counter := n |>)).
Proof.
  intros Hctr Hc Hw Hx Ecmd Ereq Echunk Hresp Hchan Hn Hd Hp Hdp n. unfold getHandler.
  erewrite bind_done by reflexivity. rewrite Hctr. cbv zeta.
  assert (En : i32 (Counter ctr + 1) = n).
  { unfold i32, n. rewrite Z.mod_small; lia. }
  assert (Esum : i64 (DataShards ctr + ParityShards ctr) = DataShards ctr + ParityShards ctr).
  { apply i64_small. unfold is_i64. lia. }
  rewrite En, Esum. erewrite bind_done by reflexivity.
  set (h1 := h <| ReqMap ::= alter (λ k, k <| Counter := n |>) reqId |>).
  assert (Hset : ∀ b, ∃ h2, Conn_SetResponse c (MkResponse (MkId (Atoi connId) reqId chunkId) "get" None b) h1
      = Done ((Some r, true), h2) ∧ ReqMap h2 = ReqMap h1 ∧
      responses h2 = responses h ++ [(r, RResponse (MkResponse (MkId (Atoi connId) reqId chunkId) "get" None b))]).
  { intros b. unfold Conn_SetResponse, h1.
    erewrite bind_done by (unfold getConn; simpl; by rewrite Hc). rewrite Hw. simpl.
    erewrite bind_done by reflexivity.
    erewrite bind_done by (unfold getReq; simpl; by rewrite Hx).
    unfold IsResponse. simpl. rewrite !bool_decide_eq_true_2 by done. simpl.
    erewrite bind_done.
    2:{ unfold SetResponse. erewrite bind_done by (unfold getReq; simpl; by rewrite Hx).
        rewrite Hresp. erewrite bind_done by reflexivity. rewrite Hchan.
        erewrite bind_done by (by erewrite bind_done by reflexivity). reflexivity. }
    eexists. split; [reflexivity|]. done. }
  assert (Hmap : ReqMap h1 !! reqId = Some (ctr <| Counter := n |>)).
  { unfold h1; simpl. by rewrite lookup_alter_eq, Hctr. }
  case_decide as Hgt.
  - rewrite bool_decide_eq_false_2 by lia. destruct (Hset false) as (h2&Hr&Em&Ers).
    erewrite bind_done by exact Hr. case_decide as Hlast.
    + eexists. split; [reflexivity|]. simpl. split; [done|].
      by rewrite lookup_delete_eq, decide_True.
    + exists h2. split; [done|]. split; [done|]. rewrite Em, decide_False; [done|tauto].
  - rewrite bool_decide_eq_true_2 by lia. destruct (Hset true) as (h2&Hr&Em&Ers).
    erewrite bind_done by exact Hr. exists h2. split; [done|]. split; [done|].
    rewrite Em, decide_False; [done|lia].
Qed.

Lemma getHandler_nth_witness : ∃ h',
  getHandler 0 "5" "req" "0" true waitingHeap = Done ((), h') ∧
  responses h' = [(0%nat, RResponse (MkResponse (MkId (Atoi "5") "req" "0") "get" None true))].
Proof.
  destruct (getHandler_nth 0 0 waitingHeap getRequest (MkConnection (Some 0%nat) [0%nat] false false [])
    (MkCounter "get" 1 1 0) "5" "req" "0") as (h'&Hr&Hs&_); simpl; try (reflexivity || lia).
  exists h'. split; [exact Hr|exact Hs].
Defined.
