(* ===== verification/Serving.v ===== *)
(** * proxy/lambdastore/connection.go: one reader at a time

    Each round of [ServeLambda] starts a goroutine that peeks at the
    connection and hands what it saw over the channel [respType]; the round
    waits for it, or for the signal that the connection is to be closed, and
    then reads the response itself.  The goroutines, and whatever the rest of
    the proxy does to the heap, are interleaved. *)

From S2P Require Import Prelude Lambdastore Request Instance Connection Responses.

(** [NewConnection]: no instance, nothing waiting, nothing written. *)
Definition NewConnection : Connection := MkConnection None [] false false [].

(** [peekResponse]: in [PeekType]; sending over [respType]. *)
Inductive peekAt : Type := PPeeking | PSending.
(** [ServeLambda]: at the head of its loop; at the select; waiting for
    [respType] after the signal to close; reading a response; returned. *)
Inductive serveAt : Type := SHead | SSelect | SDrain | SRead | SEnded.

Section serving.
Context {S : Type} `{InstanceRegistry S} (c : cptr).

Record Serving : Type := MkServing { svState : S; svAt : serveAt; svPeeks : list peekAt }.
#[global] Instance Serving_eta : Eta Serving := λ s, MkServing (svState s) (svAt s) (svPeeks s).

Definition waitingRequests (x : S) : option (list rptr) := chanWait <$> conns (reg_ls x) !! c.
Definition signalled (x : S) : bool := default false (cclosed <$> conns (reg_ls x) !! c).

(** The head of the loop: [go conn.peekResponse()]. *)
Definition startPeek (s : Serving) : option Serving :=
  match svAt s with SHead => Some (s <| svAt := SSelect |> <| svPeeks ::= (λ l, l ++ [PPeeking]) |>) | _ => None end.
(** [PeekType] returns. *)
Definition peekResponse (i : nat) (s : Serving) : option Serving :=
  match svPeeks s !! i with
  | Some PPeeking => Some (s <| svPeeks ::= insert i PSending |>)
  | _ => None
  end.
(** [<-conn.closed]: with nothing waiting, the connection is closed and the loop
    left; else the response is still read. *)
Definition seeClosed (s : Serving) : option Serving :=
  match svAt s with
  | SSelect =>
      if signalled (svState s) then
        match waitingRequests (svState s) with
        | Some [] =>
            match ServeLambda_round c true LPeekError (svState s) with
            | Done (_, x) => Some (s <| svState := x |> <| svAt := SEnded |>)
            | _ => None
            end
        | Some _ => Some (s <| svAt := SDrain |>)
        | None => None
        end
      else None
  | _ => None
  end.
(** [retPeek = <-conn.respType] *)
Definition takePeek (i : nat) (s : Serving) : option Serving :=
  match svAt s, svPeeks s !! i with
  | SSelect, Some PSending | SDrain, Some PSending => Some (s <| svAt := SRead |> <| svPeeks ::= delete i |>)
  | _, _ => None
  end.
(** The rest of the round on the message that is read. *)
Definition readResponse (msg : LambdaMsg) (s : Serving) : option Serving :=
  match svAt s with
  | SRead =>
      match ServeLambda_round c false msg (svState s) with
      | Done (b, x) => Some (s <| svState := x |> <| svAt := if (b : bool) then SHead else SEnded |>)
      | _ => None
      end
  | _ => None
  end.

Inductive svstep : Serving → Serving → Prop :=
  | sv_start s s' : startPeek s = Some s' → svstep s s'
  | sv_peek i s s' : peekResponse i s = Some s' → svstep s s'
  | sv_closed s s' : seeClosed s = Some s' → svstep s s'
  | sv_take i s s' : takePeek i s = Some s' → svstep s s'
  | sv_read msg s s' : readResponse msg s = Some s' → svstep s s'
  | sv_other x s : svstep s (s <| svState := x |>).

Definition serve (x : S) : Serving := MkServing x SHead [].

(** The goroutines that read from the connection. *)
Definition readers (s : Serving) : nat :=
  (length (filter (λ p, match p with PPeeking => true | PSending => false end = true) (svPeeks s)) +
   match svAt s with SRead => 1 | _ => 0 end)%nat.

Definition sv_ok (s : Serving) : Prop :=
  match svAt s with
  | SHead | SRead => svPeeks s = []
  | SSelect | SDrain => ∃ p, svPeeks s = [p]
  | SEnded => svPeeks s = [] ∨ ∃ p, svPeeks s = [p]
  end.

Lemma sv_ok_step s s' : svstep s s' → sv_ok s → sv_ok s'.
Proof.
  unfold sv_ok. intros Hst Hok. destruct Hst as [s s' E|i s s' E|s s' E|i s s' E|msg s s' E|x s]; [..|done].
  - unfold startPeek in E. destruct (svAt s); try done. injection E as <-. cbn. rewrite Hok. by eexists.
  - unfold peekResponse in E. destruct (svPeeks s !! i) as [[]|] eqn:Ei; try done. injection E as <-. cbn.
    assert (Hone : (∃ p, svPeeks s = [p]) → ∃ p, <[i := PSending]> (svPeeks s) = [p]).
    { intros [p Hp]. rewrite Hp in *. destruct i; [|done]. by eexists. }
    destruct (svAt s); [by rewrite Hok in Ei|auto|auto|by rewrite Hok in Ei|].
    destruct Hok as [Hok|Hok]; [by rewrite Hok in Ei|auto].
  - unfold seeClosed in E. destruct (svAt s); try done. destruct (signalled _); [|done].
    destruct (waitingRequests _) as [[|]|]; [|by injection E as <-|done].
    destruct (ServeLambda_round c true LPeekError (svState s)) as [[b x]|?|]; [|done..]. injection E as <-. cbn. auto.
  - unfold takePeek in E. destruct (svPeeks s !! i) as [p|] eqn:Ei; [|by destruct (svAt s)].
    assert (Hone : (∃ p, svPeeks s = [p]) → delete i (svPeeks s) = []).
    { intros [q Hq]. rewrite Hq in *. by destruct i. }
    destruct (svAt s), p; try done; injection E as <-; cbn; auto.
  - unfold readResponse in E. destruct (svAt s); try done.
    destruct (ServeLambda_round c false msg (svState s)) as [[[] x]|?|]; [..|done|done]; injection E as <-; cbn; auto.
Qed.

(** C15: one goroutine reads from a lambda's connection at a time.  However
    [ServeLambda], the goroutines that peek for it and the rest of the proxy
    interleave, the handlers read only when no peek is under way, no round
    starts before the peek of the last one was taken, and at most one peeking
    goroutine is left when [ServeLambda] has returned. *)
Theorem reader_exclusive x s : rtc svstep (serve x) s →
  (readers s ≤ 1)%nat ∧ (svAt s = SRead ∨ svAt s = SHead → svPeeks s = []) ∧ (length (svPeeks s) ≤ 1)%nat.
Proof.
  intros Hr. assert (sv_ok s) as Hok.
  { assert (∀ s0, sv_ok s0 → rtc svstep s0 s → sv_ok s) as Hgen; [|by apply (Hgen (serve x))].
    clear. intros s0 H0 Hr. induction Hr as [|s1 s2 s3 Hst _ IH]; [done|]. by eapply IH, sv_ok_step. }
  unfold sv_ok, readers in *. destruct (svAt s); cbn.
  - rewrite Hok. split_and!; cbn; auto.
  - destruct Hok as [[] ->]; split_and!; cbn; try lia; naive_solver.
  - destruct Hok as [[] ->]; split_and!; cbn; try lia; naive_solver.
  - rewrite Hok. split_and!; cbn; auto.
  - destruct Hok as [->|[[] ->]]; split_and!; cbn; try lia; naive_solver.
Qed.

(** A peek that is left when [ServeLambda] has returned is never taken. *)
Lemma left_behind s s' : svAt s = SEnded → svPeeks s = [PSending] → rtc svstep s s' →
  svAt s' = SEnded ∧ svPeeks s' = [PSending].
Proof.
  intros Ha Hp Hr. induction Hr as [|s1 s2 s3 Hst _ IH]; [done|]. apply IH.
  all: destruct Hst as [s s' E|i s s' E|s s' E|i s s' E|msg s s' E|x s]; [..|done].
  all: unfold startPeek, peekResponse, seeClosed, takePeek, readResponse in E; rewrite ?Ha, ?Hp in E; try done.
  all: destruct i; cbn in E; try done; by rewrite Ha in E.
Qed.
End serving.
Arguments Serving S : clear implicits.

(** ** Runs *)

(** A connection that is told to close while its lambda is silent. *)
Definition closingHeap : LHeap := MkLHeap ∅ ∅ {[ 0%nat := NewConnection <| cclosed := true |> ]} ∅ ∅ [] 0.

Lemma peek_left : ∃ s, rtc (svstep 0) (serve closingHeap) s ∧ svAt s = SEnded ∧ svPeeks s = [PSending].
Proof.
  eexists. split.
  - eapply rtc_l; [by apply sv_start|]. eapply rtc_l; [by apply sv_closed|].
    apply rtc_once. by apply (sv_peek _ 0).
  - by split.
Qed.

(** The first peek was taken, and the response is being read. *)
Lemma reader_exclusive_witness : ∃ s, rtc (svstep 0) (serve closingHeap) s ∧ readers s = 1%nat ∧ svPeeks s = [].
Proof.
  assert (∃ s, rtc (svstep 0) (serve closingHeap) s ∧ readers s = 1%nat ∧ svAt s = SRead) as (s&Hr&H1&Ha).
  { eexists. split.
    - eapply rtc_l; [apply sv_start; reflexivity|]. eapply rtc_l; [apply (sv_peek _ 0); reflexivity|].
      apply rtc_once. apply (sv_take _ 0). reflexivity.
    - split; reflexivity. }
  destruct (reader_exclusive 0 closingHeap s Hr) as (_&H2&_). exists s. split; [exact Hr|]. split; [exact H1|].
  apply H2. left. exact Ha.
Defined.
