(* ===== verification/Validation.v ===== *)
(** * Connections of an instance

    In every execution an instance that is believed awake has a connection, its
    current connection is bound to it, every other connection bound to it has
    been told to close, and a validation hands out only connections of the
    instance itself. *)

From S2P Require Import Prelude Lambdastore Request Instance Connection Responses.

Record IInv (h : LHeap) : Prop := {
  ii_awake i ins : insts h !! i = Some ins → awake ins ≠ INSTANCE_SLEEP → is_Some (icn ins);
  ii_cn i ins c : insts h !! i = Some ins → icn ins = Some c →
    ∃ cn, conns h !! c = Some cn ∧ cinstance cn = Some i;
  ii_old i ins c cn : insts h !! i = Some ins → conns h !! c = Some cn →
    cinstance cn = Some i → icn ins ≠ Some c → cclosed cn = true;
  ii_pending i ins : insts h !! i = Some ins → chanValidated ins = true →
    lastValidated ins = None;
  ii_last i ins c : insts h !! i = Some ins → lastValidated ins = Some c →
    ∃ cn, conns h !! c = Some cn ∧ cinstance cn = Some i;
  ii_bound c cn i : conns h !! c = Some cn → cinstance cn = Some i → is_Some (insts h !! i)
}.

(** ** Primitive updates *)

Section primitives.

Lemma IInv_same h h' : IInv h → insts h' = insts h → conns h' = conns h → IInv h'.
Proof. intros [a b c d e f] E1 E2. split; rewrite E1, ?E2; done. Qed.

Lemma IInv_modify f :
  (∀ h, insts (f h) = insts h) → (∀ h, conns (f h) = conns h) → preserves IInv (modify f).
Proof. intros H1 H2. apply preserves_modify. intros h H. by eapply IInv_same. Qed.
Lemma IInv_modReq r f : preserves IInv (modReq r f).
Proof. by apply IInv_modify. Qed.

(** Connections are unbound and reopened by no one. *)
Lemma IInv_modConn c f :
  (∀ x, cinstance (f x) = cinstance x) → (∀ x, cclosed x = true → cclosed (f x) = true) →
  preserves IInv (modConn c f).
Proof.
  intros H1 H2. apply preserves_modify. intros h [h1 h2 h3 h4 h5 h6].
  assert (Hfwd : ∀ k cn i, conns h !! k = Some cn → cinstance cn = Some i →
    ∃ cn', alter f c (conns h) !! k = Some cn' ∧ cinstance cn' = Some i).
  { intros k cn i Hk Hi. destruct (decide (k = c)) as [->|].
    - rewrite lookup_alter_eq, Hk. simpl. eexists. split; [done|]. by rewrite H1.
    - rewrite lookup_alter_ne by done. eauto. }
  assert (Hbwd : ∀ k cn', alter f c (conns h) !! k = Some cn' → ∃ cn, conns h !! k = Some cn ∧
    cinstance cn' = cinstance cn ∧ (cclosed cn = true → cclosed cn' = true)).
  { intros k cn' Hk. destruct (decide (k = c)) as [->|].
    - rewrite lookup_alter_eq in Hk. destruct (conns h !! c) as [cn|]; [|done].
      injection Hk as <-. exists cn. split; [done|]. split; [apply H1|apply H2].
    - rewrite lookup_alter_ne in Hk by done. eauto. }
  split; simpl.
  - apply h1.
  - intros i ins k Hi Hk. destruct (h2 i ins k Hi Hk) as (cn&?&?). eauto.
  - intros i ins k cn' Hi Hk Hb Hne. destruct (Hbwd k cn' Hk) as (cn&Hcn&E&Hc).
    apply Hc. apply (h3 i ins k cn); [done|done|by rewrite <- E|done].
  - apply h4.
  - intros i ins k Hi Hk. destruct (h5 i ins k Hi Hk) as (cn&?&?). eauto.
  - intros k cn' i Hk Hb. destruct (Hbwd k cn' Hk) as (cn&Hcn&E&_).
    apply (h6 k cn); [done|by rewrite <- E].
Qed.

(** Updates that keep the connection and wake nobody up. *)
Record quiet_update (f : Instance → Instance) : Prop := {
  qu_cn x : icn (f x) = icn x;
  qu_awake x : awake (f x) ≠ INSTANCE_SLEEP → awake x ≠ INSTANCE_SLEEP;
  qu_last x : lastValidated (f x) = lastValidated x ∧ (chanValidated (f x) = true → chanValidated x = true)
              ∨ lastValidated (f x) = None
}.

Lemma IInv_modInst i f : quiet_update f → preserves IInv (modInst i f).
Proof.
  intros [q1 q2 q3]. apply preserves_modify. intros h [h1 h2 h3 h4 h5 h6].
  assert (Hbwd : ∀ k x', alter f i (insts h) !! k = Some x' → ∃ x, insts h !! k = Some x ∧
    icn x' = icn x ∧ (awake x' ≠ INSTANCE_SLEEP → awake x ≠ INSTANCE_SLEEP) ∧
    (lastValidated x' = lastValidated x ∧ (chanValidated x' = true → chanValidated x = true)
     ∨ lastValidated x' = None)).
  { intros k x' Hk. destruct (decide (k = i)) as [->|].
    - rewrite lookup_alter_eq in Hk. destruct (insts h !! i) as [x|]; [|done].
      injection Hk as <-. exists x. split_and!; auto.
    - rewrite lookup_alter_ne in Hk by done. exists x'. split_and!; auto. }
  split; simpl.
  - intros k x' Hk Ha. destruct (Hbwd k x' Hk) as (x&Hx&->&Hw&_). by eapply h1; auto.
  - intros k x' c Hk. destruct (Hbwd k x' Hk) as (x&Hx&->&_). by apply (h2 k x).
  - intros k x' c cn Hk Hcn Hb. destruct (Hbwd k x' Hk) as (x&Hx&->&_). by apply (h3 k x).
  - intros k x' Hk Hv. destruct (Hbwd k x' Hk) as (x&Hx&_&_&[[-> Hc]|?]); [|done].
    by eapply h4; auto.
  - intros k x' c Hk Hl. destruct (Hbwd k x' Hk) as (x&Hx&_&_&[[E _]|E]); [|congruence].
    apply (h5 k x c); [done|congruence].
  - intros c cn k Hcn Hb. destruct (h6 c cn k Hcn Hb) as [x Hx].
    destruct (decide (k = i)) as [->|].
    + rewrite lookup_alter_eq, Hx. by eexists.
    + by rewrite lookup_alter_ne, Hx by done.
Qed.

Lemma IInv_getReq r : preserves IInv (getReq r).
Proof. intros h a h' H E. unfold getReq in E. by apply expect_inv in E as [_ ->]. Qed.
Lemma IInv_getConn c : preserves IInv (getConn c).
Proof. intros h a h' H E. unfold getConn in E. by apply expect_inv in E as [_ ->]. Qed.
Lemma IInv_getInst i : preserves IInv (getInst i).
Proof. intros h a h' H E. unfold getInst in E. by apply expect_inv in E as [_ ->]. Qed.
Lemma IInv_getDep d : preserves IInv (getDep d).
Proof. intros h a h' H E. unfold getDep in E. by apply expect_inv in E as [_ ->]. Qed.
End primitives.

#[local] Hint Resolve IInv_modReq IInv_modify IInv_modConn IInv_modInst IInv_getReq
  IInv_getConn IInv_getInst IInv_getDep : go.
#[local] Hint Extern 2 (quiet_update _) => (split; simpl; auto; congruence) : go.

(** ** Operations that do not bind connections *)

Section operations.
Lemma IInv_SetResponse r rsp : preserves IInv (SetResponse r rsp).
Proof. unfold SetResponse. preserve. Qed.
Lemma IInv_write c ops : preserves IInv (write c ops).
Proof. unfold write. preserve. Qed.
#[local] Hint Resolve IInv_SetResponse IInv_write : go.
Lemma IInv_Flush io r : preserves IInv (Flush io r).
Proof. unfold Flush. preserve. Qed.
#[local] Hint Resolve IInv_Flush : go.
Lemma IInv_PrepareForDel r c : preserves IInv (PrepareForDel r c).
Proof. unfold PrepareForDel. preserve. Qed.
#[local] Hint Resolve IInv_PrepareForDel : go.
Lemma IInv_handleRequest io i c cmd : preserves IInv (handleRequest io i c cmd).
Proof.
  unfold handleRequest, PrepareForSet, PrepareForGet, Control_PrepareForData,
    Control_PrepareForMigrate, Control_PrepareForDel, Control_Flush. preserve.
Qed.
#[local] Hint Resolve IInv_handleRequest : go.
Lemma IInv_attempts n i cmd tries e : preserves IInv (attempts n i cmd tries e).
Proof.
  revert tries e. induction n as [|n IH]; intros [|[[c|] io] tries] e; simpl; preserve.
Qed.
#[local] Hint Resolve IInv_attempts : go.
Lemma IInv_HandleRequest i cmd tries : preserves IInv (HandleRequest i cmd tries).
Proof. unfold HandleRequest, Retriable. preserve. Qed.

Lemma IInv_matchResponse c rsp l : preserves IInv (matchResponse c rsp l).
Proof. induction l as [|r l IH]; simpl; preserve. Qed.
Lemma IInv_clearWaiting c l : preserves IInv (clearWaiting c l).
Proof. induction l as [|r l IH]; simpl; preserve. Qed.
Lemma IInv_Conn_Close c : preserves IInv (Conn_Close c).
Proof. unfold Conn_Close. preserve. Qed.
#[local] Hint Resolve IInv_matchResponse IInv_clearWaiting IInv_Conn_Close : go.
Lemma IInv_Conn_SetResponse c rsp : preserves IInv (Conn_SetResponse c rsp).
Proof. unfold Conn_SetResponse. preserve. Qed.
#[local] Hint Resolve IInv_Conn_SetResponse : go.
Lemma IInv_SetErrorResponse c e : preserves IInv (SetErrorResponse c e).
Proof. unfold SetErrorResponse. preserve. Qed.
Lemma IInv_Conn_bye c : preserves IInv (Conn_bye c).
Proof. unfold Conn_bye, Inst_bye. preserve. Qed.
#[local] Hint Resolve IInv_Conn_bye : go.
Lemma IInv_Conn_close c : preserves IInv (Conn_close c).
Proof. unfold Conn_close, clearResponses. preserve. Qed.
Lemma IInv_triggered i k : preserves IInv (triggerLambda_returned i k).
Proof. unfold triggerLambda_returned. preserve. Qed.
Lemma IInv_validate_start i : preserves IInv (validate_start i).
Proof. unfold validate_start. preserve. Qed.
Lemma IInv_getHandler c a b d body : preserves IInv (getHandler c a b d body).
Proof. unfold getHandler. preserve. Qed.
Lemma IInv_setHandler c a b d : preserves IInv (setHandler c a b d).
Proof. unfold setHandler, IdOf, resolve. preserve. Qed.
Lemma IInv_delHandler c a b d : preserves IInv (delHandler c a b d).
Proof. unfold delHandler. preserve. Qed.
End operations.

(** ** Flagging a connection as validated *)

Section flag.
Context (h : LHeap) (i : iptr) (x : Instance).
Context (HI : IInv h) (Hx : insts h !! i = Some x).

Definition bound_to (c : cptr) : Prop := ∃ cn, conns h !! c = Some cn ∧ cinstance cn = Some i.

Definition putInst (x' : Instance) : LHeap := h <| insts ::= insert i x' |>.

Lemma IInv_putInst x' :
  icn x' = icn x → (awake x' ≠ INSTANCE_SLEEP → is_Some (icn x')) →
  (chanValidated x' = true → lastValidated x' = None) →
  (∀ c, lastValidated x' = Some c → bound_to c) → IInv (putInst x').
Proof.
  intros Ecn Haw Hp Hl. destruct HI as [h1 h2 h3 h4 h5 h6].
  assert (Hk : ∀ k y, <[i := x']> (insts h) !! k = Some y → k = i ∧ y = x' ∨
    k ≠ i ∧ insts h !! k = Some y).
  { intros k y Hy. apply lookup_insert_Some in Hy as [[-> ->]|[??]]; auto. }
  split; simpl.
  - intros k y [[-> ->]|[_ Hy]]%Hk; [done|by apply (h1 k)].
  - intros k y c [[-> ->]|[_ Hy]]%Hk; [rewrite Ecn; by apply h2|by apply h2].
  - intros k y c cn [[-> ->]|[_ Hy]]%Hk; [rewrite Ecn; by apply (h3 i x)|by apply (h3 k y)].
  - intros k y [[-> ->]|[_ Hy]]%Hk; [done|by apply (h4 k)].
  - intros k y c [[-> ->]|[_ Hy]]%Hk; [apply Hl|by apply h5].
  - intros c cn k Hcn Hb. destruct (h6 c cn k Hcn Hb) as [y Hy].
    destruct (decide (k = i)) as [->|]; [rewrite lookup_insert_eq|rewrite lookup_insert_ne by done];
      eauto.
Qed.

(** What [flagValidatedLocked] leaves. *)
Definition flagged (conn : option cptr) : Instance :=
  if chanValidated x then
    x <| lastValidated := match conn with Some c => Some c | None => lastValidated x end |>
      <| chanValidated := false |>
  else x.

Lemma flagValidatedLocked_run conn :
  flagValidatedLocked i conn h = Done (lastValidated (flagged conn), putInst (flagged conn)).
Proof.
  assert (Hput : ∀ f, alter f i (insts h) = <[i := f x]> (insts h)).
  { intros f. apply map_eq. intros k. destruct (decide (k = i)) as [->|].
    - by rewrite lookup_alter_eq, lookup_insert_eq, Hx.
    - by rewrite lookup_alter_ne, lookup_insert_ne. }
  unfold flagValidatedLocked, flagged, putInst.
  erewrite bind_done by (unfold getInst; by rewrite Hx).
  destruct (chanValidated x) eqn:Ev.
  - destruct conn as [c|].
    + erewrite bind_done by (erewrite bind_done by reflexivity; reflexivity).
      erewrite bind_done by (unfold getInst; simpl; by rewrite !lookup_alter_eq, Hx).
      unfold mret, M_ret; simpl. do 3 f_equal. rewrite !Hput. apply map_eq. intros k.
      destruct (decide (k = i)) as [->|].
      * by rewrite lookup_alter_eq, !lookup_insert_eq.
      * by rewrite lookup_alter_ne, !lookup_insert_ne.
    + erewrite bind_done by (erewrite bind_done by reflexivity; reflexivity).
      erewrite bind_done by (unfold getInst; simpl; by rewrite !lookup_alter_eq, Hx).
      unfold mret, M_ret; simpl. do 3 f_equal. rewrite Hput.
      destruct x as [? ? ? ? ? ? ? ? ?]; simpl in *. done.
  - erewrite bind_done by reflexivity.
    erewrite bind_done by (unfold getInst; by rewrite Hx).
    unfold mret, M_ret; simpl. rewrite insert_id by done. by destruct h.
Qed.

Lemma IInv_flagged conn : (∀ c, conn = Some c → bound_to c) → IInv (putInst (flagged conn)).
Proof.
  intros Hc. apply IInv_putInst; unfold flagged; destruct (chanValidated x) eqn:Ev; simpl; try done.
  - apply (ii_awake h HI i x Hx).
  - apply (ii_awake h HI i x Hx).
  - congruence.
  - intros c E. destruct conn as [c'|]; [by apply Hc; congruence|]. by apply (ii_last h HI i x c Hx).
  - intros c E. by apply (ii_last h HI i x c Hx).
Qed.
End flag.

(** A connection takes over: the previous one is closed. *)
Section rebind.
Context (h : LHeap) (i : iptr) (x : Instance) (c : cptr) (cn : Connection).
Context (HI : IInv h) (Hx : insts h !! i = Some x) (Hc : conns h !! c = Some cn).
Context (Hfree : cinstance cn = None ∨ cinstance cn = Some i) (Hne : icn x ≠ Some c).

Definition closeOld (m : gmap cptr Connection) : gmap cptr Connection :=
  match icn x with Some old => alter (λ y, y <| cclosed := true |>) old m | None => m end.
Definition rebound (x' : Instance) : LHeap :=
  h <| conns ::= (λ m, closeOld (alter (λ y, y <| cinstance := Some i |>) c m)) |>
    <| insts ::= insert i x' |>.

Lemma rebound_conn k y' :
  conns (rebound x) !! k = Some y' →
  k = c ∧ cinstance y' = Some i ∨
  k ≠ c ∧ ∃ y, conns h !! k = Some y ∧ cinstance y' = cinstance y ∧
    (cclosed y = true → cclosed y' = true) ∧ (icn x = Some k → cclosed y' = true).
Proof.
  unfold rebound, closeOld; simpl. intros Hk.
  destruct (decide (k = c)) as [->|Hkc].
  - left. split; [done|]. destruct (icn x) as [old|].
    + rewrite lookup_alter_ne, lookup_alter_eq, Hc in Hk by congruence. by injection Hk as <-.
    + rewrite lookup_alter_eq, Hc in Hk. by injection Hk as <-.
  - right. split; [done|]. destruct (icn x) as [old|].
    + destruct (decide (k = old)) as [->|].
      * rewrite lookup_alter_eq, lookup_alter_ne in Hk by done.
        destruct (conns h !! old) as [y|]; [|done]. injection Hk as <-. by exists y.
      * rewrite !lookup_alter_ne in Hk by done. exists y'. split_and!; [done..|]. congruence.
    + rewrite lookup_alter_ne in Hk by done. by exists y'.
Qed.

Lemma rebound_keeps k y j :
  conns h !! k = Some y → cinstance y = Some j →
  ∃ y', conns (rebound x) !! k = Some y' ∧ (cinstance y' = Some j).
Proof.
  unfold rebound, closeOld; simpl. intros Hk Hj.
  assert (Hj' : k = c → j = i) by (intros ->; simplify_eq; destruct Hfree; congruence).
  destruct (decide (k = c)) as [->|Hkc].
  - rewrite (Hj' eq_refl). destruct (icn x) as [old|].
    + rewrite lookup_alter_ne, lookup_alter_eq, Hc by congruence. eexists. split; [done|done].
    + rewrite lookup_alter_eq, Hc. eexists. split; [done|done].
  - destruct (icn x) as [old|].
    + destruct (decide (k = old)) as [->|].
      * rewrite lookup_alter_eq, lookup_alter_ne, Hk by done. eexists. split; [done|done].
      * rewrite !lookup_alter_ne by done. eauto.
    + rewrite lookup_alter_ne by done. eauto.
Qed.

Lemma rebound_open : ∃ y, conns (rebound x) !! c = Some y ∧ cinstance y = Some i ∧ cclosed y = cclosed cn.
Proof.
  unfold rebound, closeOld; simpl. destruct (icn x) as [old|].
  - rewrite lookup_alter_ne, lookup_alter_eq, Hc by congruence. eexists. split; done.
  - rewrite lookup_alter_eq, Hc. eexists. split; done.
Qed.
Lemma rebound_self : ∃ y, conns (rebound x) !! c = Some y ∧ cinstance y = Some i.
Proof. destruct rebound_open as (y&?&?&_). eauto. Qed.

Lemma IInv_rebound x' :
  icn x' = Some c → chanValidated x' = chanValidated x → lastValidated x' = lastValidated x →
  IInv (rebound x').
Proof.
  intros E1 E2 E3. destruct HI as [h1 h2 h3 h4 h5 h6].
  assert (Hk : ∀ k y, insts (rebound x') !! k = Some y → k = i ∧ y = x' ∨
    k ≠ i ∧ insts h !! k = Some y).
  { intros k y Hy. unfold rebound in Hy; simpl in Hy.
    apply lookup_insert_Some in Hy as [[-> ->]|[??]]; auto. }
  change (conns (rebound x')) with (conns (rebound x)) in *.
  split.
  - intros k y [[-> ->]|[_ Hy]]%Hk Ha; [rewrite E1; eauto|by apply (h1 k)].
  - intros k y d [[-> ->]|[_ Hy]]%Hk Hd.
    + rewrite E1 in Hd. injection Hd as <-. apply rebound_self.
    + destruct (h2 k y d Hy Hd) as (z&Hz&Hb). by eapply rebound_keeps.
  - intros k y d y' [[-> ->]|[Hki Hy]]%Hk Hd Hb Hnd.
    + destruct (rebound_conn d y' Hd) as [[-> _]|(Hdc&z&Hz&Eb&Hcl&Hold)]; [congruence|].
      destruct (decide (icn x = Some d)); [by apply Hold|].
      apply Hcl, (h3 i x d z); [done|done|by rewrite <- Eb|done].
    + destruct (rebound_conn d y' Hd) as [[-> Hb']|(Hdc&z&Hz&Eb&Hcl&_)]; [congruence|].
      apply Hcl, (h3 k y d z); [done|done|by rewrite <- Eb|done].
  - intros k y [[-> ->]|[_ Hy]]%Hk; [rewrite E2, E3; by apply (h4 i)|by apply (h4 k)].
  - intros k y d Hkk Hd. assert (Hz : ∃ z, conns h !! d = Some z ∧ cinstance z = Some k).
    { apply Hk in Hkk as [[-> ->]|[_ Hy]]; [apply (h5 i x d); [done|congruence]|by apply (h5 k y)]. }
    destruct Hz as (z&Hz&Hb). by eapply rebound_keeps.
  - intros d y' k Hd Hb. unfold rebound; simpl.
    destruct (decide (k = i)) as [->|Hki]; [rewrite lookup_insert_eq; eauto|].
    rewrite lookup_insert_ne by done.
    destruct (rebound_conn d y' Hd) as [[_ Hb']|(_&z&Hz&Eb&_)]; [congruence|].
    apply (h6 d z); [done|by rewrite <- Eb].
Qed.

Lemma flagValidated_rebinds : ∃ aw,
  (icn x = None → aw = awake x) ∧ (icn x ≠ None → aw = INSTANCE_MAYBE) ∧
  flagValidated i (Some c) h =
    flagValidatedLocked i (Some c) (rebound (x <| icn := Some c |> <| awake := aw |>)).
Proof.
  exists (if icn x is Some _ then INSTANCE_MAYBE else awake x). split_and!; [by intros ->|by destruct (icn x)|].
  unfold flagValidated. erewrite bind_done by (unfold getInst; by rewrite Hx).
  rewrite decide_True by done. unfold rebound, closeOld.
  assert (Hput : ∀ f, alter f i (insts h) = <[i := f x]> (insts h)).
  { intros f. apply map_eq. intros k. destruct (decide (k = i)) as [->|].
    - by rewrite lookup_alter_eq, lookup_insert_eq, Hx.
    - by rewrite lookup_alter_ne, lookup_insert_ne. }
  destruct (icn x) as [old|] eqn:Eo.
  - destruct (ii_cn h HI i x old Hx Eo) as (co&Hco&Hbo).
    assert (Hoc : old ≠ c) by congruence.
    erewrite bind_done; [reflexivity|].
    erewrite bind_done by reflexivity.
    erewrite bind_done by (unfold getConn; by rewrite Hc).
    do 2 (erewrite bind_done by reflexivity).
    erewrite bind_done by (unfold Conn_Close; erewrite bind_done by
      (unfold getConn; simpl; by rewrite lookup_alter_ne, Hco by done); reflexivity).
    erewrite bind_done by (unfold getConn; simpl;
      rewrite lookup_alter_eq, lookup_alter_ne, Hco by done; reflexivity).
    simpl. rewrite decide_True by done. unfold modInst, modify; simpl. do 3 f_equal.
    rewrite !Hput. apply map_eq. intros k. destruct (decide (k = i)) as [->|].
    + by rewrite lookup_alter_eq, !lookup_insert_eq.
    + by rewrite lookup_alter_ne, !lookup_insert_ne.
  - erewrite bind_done; [reflexivity|].
    erewrite bind_done by reflexivity.
    erewrite bind_done by (unfold getConn; by rewrite Hc).
    do 2 (erewrite bind_done by reflexivity). simpl. unfold mret, M_ret. do 3 f_equal.
    rewrite Hput. by destruct x.
Qed.
End rebind.

Lemma putInst_lookup h i x : insts (putInst h i x) !! i = Some x.
Proof. apply lookup_insert_eq. Qed.

Lemma flagged_cn x conn : icn (flagged x conn) = icn x.
Proof. unfold flagged. by destruct (chanValidated x). Qed.

(** [flagValidated] by a connection that is free or already the instance's: it
    becomes the current one, as open as it was. *)
Lemma flagValidated_run h i x c cn r h' :
  IInv h → insts h !! i = Some x → conns h !! c = Some cn →
  (cinstance cn = None ∨ cinstance cn = Some i) →
  flagValidated i (Some c) h = Done (r, h') →
  IInv h' ∧ ∃ x' cn', insts h' !! i = Some x' ∧ icn x' = Some c ∧
    conns h' !! c = Some cn' ∧ cinstance cn' = Some i ∧ cclosed cn' = cclosed cn.
Proof.
  intros HI Hx Hc Hfree Hr. destruct (decide (icn x = Some c)) as [E|Hne].
  - destruct (ii_cn h HI i x c Hx E) as (cn'&Hcn'&Hb).
    unfold flagValidated in Hr. erewrite bind_done in Hr by (unfold getInst; by rewrite Hx).
    rewrite decide_False in Hr by (by intros []).
    set (x' := if decide (awake x ≠ INSTANCE_MAYBE) then x <| awake := INSTANCE_AWAKE |> else x).
    assert (Hstep : (if decide (awake x ≠ INSTANCE_MAYBE)
      then modInst i (λ x, x <| awake := INSTANCE_AWAKE |>) else mret ()) h = Done ((), putInst h i x')).
    { unfold x', putInst. case_decide.
      - unfold modInst, modify. do 2 f_equal. simpl. f_equal. apply map_eq. intros k.
        destruct (decide (k = i)) as [->|].
        + by rewrite lookup_alter_eq, lookup_insert_eq, Hx.
        + by rewrite lookup_alter_ne, lookup_insert_ne.
      - simpl. rewrite insert_id by done. by destruct h. }
    erewrite bind_done in Hr by exact Hstep.
    assert (Ecn : icn x' = Some c) by (unfold x'; by case_decide).
    assert (HI' : IInv (putInst h i x')).
    { apply (IInv_putInst h i x HI Hx); unfold x'; case_decide; simpl; try done.
      - apply (ii_pending h HI i x Hx).
      - apply (ii_pending h HI i x Hx).
      - intros d Hd. by apply (ii_last h HI i x d Hx).
      - intros d Hd. by apply (ii_last h HI i x d Hx). }
    rewrite (flagValidatedLocked_run _ i x' HI' (putInst_lookup h i x')) in Hr.
    injection Hr as _ <-. split.
    + apply (IInv_flagged _ i x' HI' (putInst_lookup h i x')). intros d [= <-]. by exists cn'.
    + eexists _, cn'. split; [apply putInst_lookup|]. rewrite flagged_cn. split_and!; [done..|congruence].
  - destruct (flagValidated_rebinds h i x c cn HI Hx Hc Hne) as (aw&_&_&Hrun).
    rewrite Hrun in Hr.
    set (x' := x <| icn := Some c |> <| awake := aw |>) in *.
    assert (HI' : IInv (rebound h i x c x')) by (by eapply IInv_rebound).
    assert (Hx' : insts (rebound h i x c x') !! i = Some x') by apply lookup_insert_eq.
    rewrite (flagValidatedLocked_run _ i x' HI' Hx') in Hr. injection Hr as _ <-. split.
    + apply (IInv_flagged _ i x' HI' Hx'). intros d [= <-]. exact (rebound_self h i x c cn Hc Hne).
    + destruct (rebound_open h i x c cn Hc Hne) as (y&Hy&Hb&Ho).
      eexists _, y. split; [apply putInst_lookup|]. by rewrite flagged_cn.
Qed.
Lemma flagValidated_inv h i x c cn r h' :
  IInv h → insts h !! i = Some x → conns h !! c = Some cn →
  (cinstance cn = None ∨ cinstance cn = Some i) →
  flagValidated i (Some c) h = Done (r, h') → IInv h'.
Proof. intros HI Hx Hc Hb Hr. apply (flagValidated_run h i x c cn r h' HI Hx Hc Hb Hr). Qed.

(** ** Executions *)

Lemma IInv_Inst_Close i : preserves IInv (Inst_Close i).
Proof.
  intros h a h' HI Hr. unfold Inst_Close in Hr. apply bind_inv in Hr as (x&h1&Hx&Hr).
  unfold getInst in Hx. apply expect_inv in Hx as [Hx ->].
  destruct (iclosed x); [by injection Hr as _ <-|].
  apply bind_inv in Hr as ([]&h1&H1&Hr).
  assert (HI1 : IInv h1) by (by eapply (IInv_modInst i (λ x, x <| iclosed := true |>)); [split; auto|..]).
  apply bind_inv in Hr as ([]&h2&H2&Hr).
  assert (HI2 : IInv h2).
  { destruct (icn x); [by eapply IInv_Conn_Close|by injection H2 as <-]. }
  apply bind_inv in Hr as (r&h3&H3&Hr). injection Hr as _ <-.
  destruct (insts h2 !! i) as [x2|] eqn:Hx2.
  - rewrite (flagValidatedLocked_run h2 i x2 HI2 Hx2) in H3. injection H3 as _ <-.
    by apply IInv_flagged.
  - unfold flagValidatedLocked in H3. apply bind_inv in H3 as (y&h4&Hy&_).
    unfold getInst in Hy. apply expect_inv in Hy as [Hy _]. congruence.
Qed.

(** A goroutine in [validate]. *)
Lemma IInv_validate_step i warmUp timeout v : preserves IInv (validate_step i warmUp timeout v).
Proof.
  destruct v as [| | |c]; simpl; unfold validated; [|preserve..].
  intros h a h' HI Hr. unfold validate_loop in Hr. apply bind_inv in Hr as (x&h1&Hx&Hr).
  unfold getInst in Hx. apply expect_inv in Hx as [Hx ->].
  apply bind_inv in Hr as (trig&h1&Ht&Hr).
  assert (Htrig : IInv h1 ∧ (trig = false → h1 = h ∧ awake x ≠ INSTANCE_SLEEP)).
  { case_decide as Hs; [|injection Ht as <- <-; done].
    unfold tryTriggerLambda in Ht. erewrite bind_done in Ht by (unfold getInst; by rewrite Hx).
    rewrite decide_False in Ht by congruence.
    apply bind_inv in Ht as ([]&h2&H2&Ht). injection Ht as <- <-. split; [|done].
    eapply (IInv_modInst i); [|exact HI|exact H2]. split; auto. }
  destruct Htrig as [HI1 Hno]. destruct trig; [by injection Hr as _ <-|].
  destruct (Hno eq_refl) as [-> Hnosleep].
  destruct warmUp; apply bind_inv in Hr as (x'&h2&Hx'&Hr); unfold getInst in Hx';
    apply expect_inv in Hx' as [Hx' ->].
  - rewrite Hx in Hx'. injection Hx' as <-.
    apply bind_inv in Hr as (r&h3&Hf&Hr). injection Hr as _ <-.
    destruct (ii_awake h HI i x Hx Hnosleep) as [c Ec]. rewrite Ec in Hf.
    destruct (ii_cn h HI i x c Hx Ec) as (cn&Hcn&Hb).
    eapply (flagValidated_inv h i x c cn); [done|done|done|by right|exact Hf].
  - eapply (preserves_bind IInv (expect PNil (icn x'))); [auto with go| |exact HI|exact Hr].
    intros c. unfold Ping. pose proof IInv_write. preserve.
Qed.

Lemma IInv_NewInstance d : preserves IInv (NewInstanceFromDeployment d).
Proof.
  intros h i h' [h1 h2 h3 h4 h5 h6] Hr. injection Hr as <- <-.
  assert (Hf : insts h !! fresh_inst h = None).
  { apply not_elem_of_dom. unfold fresh_inst. apply is_fresh. }
  split; simpl.
  - intros i ins. rewrite lookup_insert_Some. intros [[<- <-]|[_ Hi]]; [done|eauto].
  - intros i ins k. rewrite lookup_insert_Some. intros [[<- <-]|[_ Hi]]; [done|eauto].
  - intros i ins k y. rewrite lookup_insert_Some. intros [[<- <-]|[_ Hi]] Hk Hb Hn; [|eauto].
    destruct (h6 k y _ Hk Hb) as [z Hz]. congruence.
  - intros i ins. rewrite lookup_insert_Some. intros [[<- <-]|[_ Hi]]; [done|eauto].
  - intros i ins k. rewrite lookup_insert_Some. intros [[<- <-]|[_ Hi]]; [done|eauto].
  - intros k y i Hk Hb. destruct (h6 k y i Hk Hb) as [z Hz].
    rewrite lookup_insert_ne; [eauto|congruence].
Qed.

(** What the handlers need of the registry here: it keeps the invariant and binds
    no connection. *)
Class RegistryBindings (S : Type) `{InstanceRegistry S} : Prop := {
  reg_inv id s r s' : Registry_Instance id s = Done (r, s') →
    IInv (reg_ls s) → IInv (reg_ls s');
  reg_bind id s r s' c cn : Registry_Instance id s = Done (r, s') →
    conns (reg_ls s) !! c = Some cn → cinstance cn = None →
    ∃ cn', conns (reg_ls s') !! c = Some cn' ∧ cinstance cn' = None
}.

Section executions.
Context {S : Type} `{RegistryLaws S} `{!RegistryBindings S}.

Definition IInvS (s : S) : Prop := IInv (reg_ls s).

Lemma IInvS_onReg {A} (k : M LHeap A) : preserves IInv k → preserves IInvS (onReg k).
Proof.
  intros Hk. apply (preserves_zoom IInvS _ _ IInv); [done| |done].
  intros s t _ Ht. unfold IInvS. by rewrite reg_ls_put.
Qed.

Lemma onReg_inv {A} (k : M LHeap A) s a s' :
  onReg k s = Done (a, s') → ∃ h', k (reg_ls s) = Done (a, h') ∧ s' = reg_put h' s.
Proof.
  unfold onReg, zoom. destruct (k (reg_ls s)) as [[b h]|?|]; [|done..].
  intros [= <- <-]. eauto.
Qed.

Lemma flag_inv i c s s' r cn :
  IInvS s → conns (reg_ls s) !! c = Some cn → (cinstance cn = None ∨ cinstance cn = Some i) →
  onReg (flagValidated i (Some c)) s = Done (r, s') → IInvS s'.
Proof.
  intros HI Hc Hb Hr. apply onReg_inv in Hr as (h'&Hr&->). unfold IInvS. rewrite reg_ls_put.
  destruct (insts (reg_ls s) !! i) as [x|] eqn:Hx; [by eapply flagValidated_inv|].
  unfold flagValidated in Hr. apply bind_inv in Hr as (y&h4&Hy&_).
  unfold getInst in Hy. apply expect_inv in Hy as [Hy _]. congruence.
Qed.

Lemma IInvS_pong c id : preserves IInvS (pongHandler c id).
Proof.
  intros s a s' HI Hr. unfold pongHandler in Hr. apply bind_inv in Hr as (cn&s1&Hcn&Hr).
  apply onReg_inv in Hcn as (h1&Hcn&E1). unfold getConn in Hcn.
  apply expect_inv in Hcn as [Hcn ->].
  assert (HI1 : IInvS s1) by (unfold IInvS; by rewrite E1, reg_ls_put).
  assert (Hcn1 : conns (reg_ls s1) !! c = Some cn) by (by rewrite E1, reg_ls_put).
  destruct (cinstance cn) as [i|] eqn:Eb.
  - apply bind_inv in Hr as (r&s2&Hf&Hr). injection Hr as _ <-.
    eapply (flag_inv i c s1); [done|done|by right|done].
  - apply bind_inv in Hr as (found&s2&Hreg&Hr).
    pose proof (reg_inv _ _ _ _ Hreg HI1) as HI2.
    destruct (reg_bind _ _ _ _ c cn Hreg Hcn1 Eb) as (cn'&Hcn'&Eb').
    destruct found as [i|]; [|by injection Hr as _ <-].
    apply bind_inv in Hr as (r&s3&Hf&Hr). injection Hr as _ <-.
    eapply (flag_inv i c s2); [done|done|by left|done].
Qed.

Lemma IInvS_round c sel msg : preserves IInvS (ServeLambda_round c sel msg).
Proof.
  pose proof IInvS_pong. pose proof @IInvS_onReg. pose proof IInv_Conn_close.
  pose proof IInv_SetErrorResponse. pose proof IInv_getHandler. pose proof IInv_setHandler.
  pose proof IInv_delHandler. pose proof IInv_Conn_bye.
  assert (preserves IInv receiveData) by (by apply IInv_modify).
  unfold ServeLambda_round. preserve.
Qed.

Lemma lstep_IInv s s' : IInvS s → lstep s s' → IInvS s'.
Proof.
  intros Hs Hst. destruct Hst as [s r x Hr Hx|s c Hc|s c sel msg b s' Hr|s i cmd tries b h' Hr
    |s i v h' Hr|s i w t v v' h' Hr|s i k h' Hr|s d i h' Hr|s i h' Hr];
    unfold IInvS in *; rewrite ?reg_ls_put.
  - by eapply IInv_same.
  - destruct Hs as [h1 h2 h3 h4 h5 h6].
    assert (Hold : ∀ k y, conns (reg_ls s) !! k = Some y → <[c := MkConnection None [] false false []]>
      (conns (reg_ls s)) !! k = Some y) by (intros k y Hk; rewrite lookup_insert_ne; congruence).
    split; simpl; [done| | |done| |].
    + intros i ins k Hi Hk. destruct (h2 i ins k Hi Hk) as (y&?&?). eauto.
    + intros i ins k y Hi. rewrite lookup_insert_Some. intros [[<- <-]|[_ Hk]]; [done|eauto].
    + intros i ins k Hi Hk. destruct (h5 i ins k Hi Hk) as (y&?&?). eauto.
    + intros k y i. rewrite lookup_insert_Some. intros [[<- <-]|[_ Hk]]; [done|eauto].
  - by eapply IInvS_round.
  - by eapply IInv_HandleRequest.
  - by eapply IInv_validate_start.
  - by eapply IInv_validate_step.
  - by eapply IInv_triggered.
  - by eapply IInv_NewInstance.
  - by eapply IInv_Inst_Close.
Qed.

Lemma lsteps_IInv s s' : IInvS s → rtc lstep s s' → IInvS s'.
Proof. intros Hs Hr. induction Hr as [|s1 s2 s3 Hst _ IH]; [done|]. by apply IH, (lstep_IInv s1). Qed.
End executions.

(** C7: an instance has at most one open connection, the one it uses.  In every
    execution from an empty heap, the current connection of an instance is bound
    to it, an instance believed awake has one, and every other connection bound
    to the instance has been told to close.  When a connection that is free, or
    the instance's already, is flagged as validated, it becomes the current one
    and is not closed by this, while all others bound to the instance are. *)
Theorem one_open_connection {S : Type} `{RegistryLaws S} `{!RegistryBindings S} (s s' : S) :
  insts (reg_ls s) = ∅ → conns (reg_ls s) = ∅ → rtc lstep s s' →
  let h := reg_ls s' in
  ∀ i ins, insts h !! i = Some ins →
    (awake ins ≠ INSTANCE_SLEEP → is_Some (icn ins)) ∧
    (∀ c, icn ins = Some c → ∃ cn, conns h !! c = Some cn ∧ cinstance cn = Some i) ∧
    (∀ c cn, conns h !! c = Some cn → cinstance cn = Some i → cclosed cn = false → icn ins = Some c) ∧
    ∀ c cn r h', conns h !! c = Some cn → (cinstance cn = None ∨ cinstance cn = Some i) →
      flagValidated i (Some c) h = Done (r, h') →
      ∃ ins' cn', insts h' !! i = Some ins' ∧ icn ins' = Some c ∧ conns h' !! c = Some cn' ∧
        cinstance cn' = Some i ∧ cclosed cn' = cclosed cn ∧
        ∀ c' y, c' ≠ c → conns h' !! c' = Some y → cinstance y = Some i → cclosed y = true.
Proof.
  intros Hi Hc Hr h i ins Hins.
  assert (HI : IInv h) by (eapply lsteps_IInv; [|exact Hr]; by split; rewrite ?Hi, ?Hc).
  split_and!.
  - by apply (ii_awake _ HI i ins).
  - intros c. by apply (ii_cn _ HI i ins).
  - intros c cn Hcn Hb Ho. destruct (decide (icn ins = Some c)); [done|].
    rewrite (ii_old _ HI i ins c cn) in Ho; done.
  - intros c cn r h' Hcn Hb Hf.
    destruct (flagValidated_run h i ins c cn r h' HI Hins Hcn Hb Hf) as (HI'&x'&cn'&Hx'&Ec&Hcn'&Hb'&Ho).
    exists x', cn'. split_and!; [done..|]. intros c' y Hne Hy Hby.
    apply (ii_old _ HI' i x' c' y); [done..|congruence].
Qed.

#[export] Instance heap_registry_bindings : RegistryBindings LHeap.
Proof.
  split; intros id s r s'; [intros E; by injection E as _ <-|].
  intros c cn E ? ?. injection E as _ <-. eauto.
Qed.

Definition emptyLHeap : LHeap := MkLHeap ∅ ∅ ∅ ∅ ∅ [] 0.

(** Instance 0 is answered over connection 0. *)
Definition onePong : M LHeap bool :=
  NewInstanceFromDeployment 0;;
  modify (λ h, h <| conns ::= insert 0%nat (MkConnection None [] false false []) |>);;
  modify (λ h, h <| conns ::= insert 1%nat (MkConnection None [] false false []) |>);;
  ServeLambda_round 0 false (LPong 0).

(** Connection 1 takes over: connection 0 is closed. *)
Lemma one_open_connection_witness : ∃ h h' r, rtc lstep emptyLHeap h ∧
  flagValidated 0 (Some 1%nat) h = Done (r, h') ∧
  icn <$> insts h !! 0%nat = Some (Some 0%nat) ∧ icn <$> insts h' !! 0%nat = Some (Some 1%nat) ∧
  cclosed <$> conns h' !! 0%nat = Some true ∧ cclosed <$> conns h' !! 1%nat = Some false.
Proof.
  destruct (onePong emptyLHeap) as [[b h]|?|] eqn:E; [|vm_compute in E; discriminate E..].
  assert (Hr : rtc lstep emptyLHeap h).
  { unfold onePong in E. apply bind_inv in E as (i&h1&H1&E).
    eapply rtc_l; [by eapply (ls_instance_new emptyLHeap)|].
    apply bind_inv in E as ([]&h2&H2&E). injection H2 as <-.
    assert (Hc1 : conns h1 = ∅) by (by injection H1 as _ <-).
    eapply rtc_l; [apply (ls_connect h1 0%nat); simpl; by rewrite Hc1|].
    apply bind_inv in E as ([]&h3&H3&E). injection H3 as <-.
    eapply rtc_l; [apply (ls_connect _ 1%nat); simpl; by rewrite Hc1|].
    apply rtc_once. by eapply ls_serve. }
  assert (Hh : (∃ ins, insts h !! 0%nat = Some ins ∧ icn ins = Some 0%nat) ∧
    conns h !! 1%nat = Some (MkConnection None [] false false []) ∧
    ∃ r h' y, flagValidated 0 (Some 1%nat) h = Done (r, h') ∧ conns h' !! 0%nat = Some y ∧ cinstance y = Some 0%nat).
  { vm_compute in E. injection E as _ <-. split; [eexists; split; vm_compute; reflexivity|].
    split; [vm_compute; reflexivity|]. eexists _, _, _. split; [vm_compute; reflexivity|]. split; vm_compute; reflexivity. }
  destruct Hh as ((ins&Hins&Hcn)&H1&r&h'&y&Hf&Hy&Hb).
  destruct (one_open_connection (S := LHeap) emptyLHeap h) with (i := 0%nat) (ins := ins) as (_&_&_&Hflag);
    [reflexivity|reflexivity|exact Hr|exact Hins|].
  destruct (Hflag 1%nat _ r h' H1 (or_introl eq_refl) Hf) as (ins'&cn'&Hins'&Hcn'&Hc1&_&Ho&Hold).
  exists h, h', r. split; [exact Hr|]. split; [exact Hf|]. rewrite Hins, Hins', Hy, Hc1. cbn. rewrite Hcn, Hcn', Ho.
  split; [reflexivity|]. split; [reflexivity|]. split; [|reflexivity].
  rewrite (Hold 0%nat y); [reflexivity|discriminate|exact Hy|exact Hb].
Defined.

(** ** The first pong *)

(** The first pong of a triggered instance completes the validation with its
    connection, but leaves the instance marked asleep (nothing marked it
    awake before): the next validation triggers the lambda a second time
    instead of pinging it. *)
Theorem first_pong_leaves_asleep h i x c cn :
  IInv h → insts h !! i = Some x → icn x = None → awake x = INSTANCE_SLEEP →
  chanValidated x = true → conns h !! c = Some cn → cinstance cn = None →
  ∃ h' x', flagValidated i (Some c) h = Done (Some c, h') ∧ insts h' !! i = Some x' ∧
    icn x' = Some c ∧ awake x' = INSTANCE_SLEEP ∧ chanValidated x' = false ∧
    ∃ h'' x'', (validate_start i ≫= λ _, validate_loop i false) h' = Done (VWaiting, h'') ∧
      insts h'' !! i = Some x'' ∧ triggers x'' = false :: triggers x.
Proof.
  intros HI Hx Ecn Eaw Ev Hc Hb.
  destruct (flagValidated_rebinds h i x c cn HI Hx Hc ltac:(congruence)) as (aw&Haw&_&Hrun).
  rewrite (Haw Ecn) in Hrun. clear aw Haw.
  set (x1 := x <| icn := Some c |> <| awake := awake x |>) in *.
  assert (HI' : IInv (rebound h i x c x1)).
  { eapply (IInv_rebound h i x c cn); auto. congruence. }
  assert (Hx1 : insts (rebound h i x c x1) !! i = Some x1) by apply lookup_insert_eq.
  rewrite (flagValidatedLocked_run _ i x1 HI' Hx1) in Hrun.
  assert (Efl : flagged x1 (Some c) = x1 <| lastValidated := Some c |> <| chanValidated := false |>).
  { unfold flagged, x1; simpl. by rewrite Ev. }
  rewrite Efl in Hrun. eexists _, _. split; [exact Hrun|]. split; [apply lookup_insert_eq|].
  simpl. rewrite Eaw. split_and!; [done..|].
  eexists _, _. split.
  - erewrite bind_done.
    2:{ unfold validate_start. erewrite bind_done by (unfold getInst; simpl; by rewrite lookup_insert_eq).
        simpl. by erewrite bind_done by reflexivity. }
    unfold validate_loop.
    erewrite bind_done by (unfold getInst; simpl; by rewrite lookup_alter_eq, lookup_insert_eq).
    simpl. erewrite bind_done.
    2:{ unfold tryTriggerLambda.
        erewrite bind_done by (unfold getInst; simpl; by rewrite lookup_alter_eq, lookup_insert_eq).
        simpl. by erewrite bind_done by reflexivity. }
    reflexivity.
  - split; [simpl; by rewrite !lookup_alter_eq, lookup_insert_eq|done].
Qed.

(** A triggered instance and a fresh connection. *)
Definition triggeredHeap : LHeap :=
  MkLHeap ∅ {[ 0%nat := MkInstance 0 (MkLMeta 0 0) None [] INSTANCE_SLEEP true None false [false] ]}
    {[ 0%nat := MkConnection None [] false false [] ]} ∅ ∅ [] 0.

Lemma triggeredHeap_inv : IInv triggeredHeap.
Proof.
  split; simpl; intros; repeat match goal with
    | H : {[ _ := _ ]} !! _ = Some _ |- _ => apply lookup_singleton_Some in H as [<- <-]
    end; naive_solver.
Qed.

Lemma first_pong_leaves_asleep_witness : ∃ h' x',
  flagValidated 0 (Some 0%nat) triggeredHeap = Done (Some 0%nat, h') ∧
  insts h' !! 0%nat = Some x' ∧ awake x' = INSTANCE_SLEEP.
Proof.
  destruct (first_pong_leaves_asleep triggeredHeap 0
    (MkInstance 0 (MkLMeta 0 0) None [] INSTANCE_SLEEP true None false [false]) 0
    (MkConnection None [] false false []) triggeredHeap_inv) as (h'&x'&H1&H2&_&H4&_);
    [reflexivity..|].
  exists h', x'. split; [exact H1|]. split; [exact H2|exact H4].
Defined.

(** ** Closing *)

(** C37: [Close] closes the instance's connection, and releases every goroutine
    that waits for a validation: it gets no connection, so that the request
    loop ends; closing again changes nothing. *)
Theorem Close_releases h i x :
  IInv h → insts h !! i = Some x → iclosed x = false →
  ∃ h' x', Inst_Close i h = Done ((), h') ∧ insts h' !! i = Some x' ∧
    iclosed x' = true ∧ chanValidated x' = false ∧
    (chanValidated x = true → validated i h' = Done (None, h')) ∧
    (∀ c cn, icn x = Some c → conns h' !! c = Some cn → cclosed cn = true) ∧
    Inst_Close i h' = Done ((), h').
Proof.
  intros HI Hx Eo. unfold Inst_Close at 1.
  erewrite bind_done by (unfold getInst; by rewrite Hx). rewrite Eo.
  erewrite bind_done by reflexivity.
  set (h1 := h <| insts ::= alter (λ x, x <| iclosed := true |>) i |>).
  set (x1 := x <| iclosed := true |>).
  assert (Hx1 : insts h1 !! i = Some x1) by (unfold h1; simpl; by rewrite lookup_alter_eq, Hx).
  assert (HI1 : IInv h1).
  { eapply (IInv_modInst i (λ x, x <| iclosed := true |>)); [split; auto|exact HI|reflexivity]. }
  assert (Hcl : ∃ h2, match icn x with Some c => Conn_Close c | None => mret () end h1 = Done ((), h2) ∧
    IInv h2 ∧ insts h2 = insts h1 ∧
    (∀ c cn, icn x = Some c → conns h2 !! c = Some cn → cclosed cn = true)).
  { destruct (icn x) as [c|] eqn:Ec; [|by exists h1].
    destruct (ii_cn h HI i x c Hx Ec) as (cn&Hcn&_).
    assert (Hr : Conn_Close c h1 = Done ((), h1 <| conns ::= alter (λ x, x <| cclosed := true |>) c |>)).
    { unfold Conn_Close. by erewrite bind_done by (unfold getConn; simpl; by rewrite Hcn). }
    eexists. split; [exact Hr|]. split_and!; [by eapply IInv_Conn_Close|done|].
    intros c' cn' [= <-]. simpl. rewrite lookup_alter_eq, Hcn. by intros [= <-]. }
  destruct Hcl as (h2&Hr2&HI2&Ei&Hclosed). erewrite bind_done by exact Hr2.
  assert (Hx2 : insts h2 !! i = Some x1) by (by rewrite Ei).
  rewrite (bind_done _ _ h2 _ _ (flagValidatedLocked_run h2 i x1 HI2 Hx2 None)).
  eexists _, (flagged x1 None). split; [reflexivity|].
  assert (Hend : insts (putInst h2 i (flagged x1 None)) !! i = Some (flagged x1 None))
    by apply lookup_insert_eq.
  assert (Hfl : iclosed (flagged x1 None) = true ∧ chanValidated (flagged x1 None) = false ∧
    lastValidated (flagged x1 None) = lastValidated x).
  { unfold flagged, x1; simpl. by destruct (chanValidated x) eqn:Ev. }
  destruct Hfl as (F1&F2&F3). split_and!; [done|done|done| |exact Hclosed|].
  - intros Ev. unfold validated. erewrite bind_done by (unfold getInst; by rewrite Hend).
    rewrite F2, F3. by rewrite (ii_pending h HI i x Hx Ev).
  - unfold Inst_Close. erewrite bind_done by (unfold getInst; by rewrite Hend). by rewrite F1.
Qed.

Lemma Close_releases_witness : ∃ h', Inst_Close 0 triggeredHeap = Done ((), h') ∧
  validated 0 h' = Done (None, h').
Proof.
  destruct (Close_releases triggeredHeap 0
    (MkInstance 0 (MkLMeta 0 0) None [] INSTANCE_SLEEP true None false [false]) triggeredHeap_inv)
    as (h'&x'&H1&_&_&_&H2&_); [reflexivity..|].
  exists h'. split; [exact H1|exact (H2 eq_refl)].
Defined.
