(* ===== verification/Sending.v ===== *)
(** * Sending requests to a lambda

    What [handleRequest] puts on the wire is a well-formed command, and what
    [HandleRequests] does when sending fails. *)

From S2P Require Import Prelude Lambdastore Request Instance.

(** ** Framing *)

Definition is_bulk (o : WOp) : bool :=
  match o with WBulkString _ | WBulk _ | WCopyBulk _ => true | _ => false end.
Definition is_flush (o : WOp) : bool := match o with WFlush => true | _ => false end.

(** One command: a header that announces exactly the bulks that follow, with
    flushes anywhere after it and one at the end. *)
Definition framed (ops : list WOp) : bool :=
  match ops with
  | WMultiBulkSize n :: rest =>
      let bulks := List.filter (λ o, negb (is_flush o)) rest in
      forallb is_bulk bulks && bool_decide (Z.of_nat (length bulks) = n) &&
      match list.last rest with Some WFlush => true | _ => false end
  | _ => false
  end.

(** A SET carries its value as a body or as a stream; others carry none. *)
Definition payload_ok (x : Request) : Prop :=
  if decide (ToLower (reqCmd x) = "set")
  then (is_Some (reqBody x) ∧ BodyStream x = None) ∨ (reqBody x = None ∧ is_Some (BodyStream x))
  else BodyStream x = None.

(** Extensional views of the updates. *)
Definition withReq (r : rptr) (x : Request) (h : LHeap) : LHeap := h <| reqs ::= insert r x |>.
Definition withConn (c : cptr) (cn : Connection) (h : LHeap) : LHeap := h <| conns ::= insert c cn |>.

Lemma modReq_run r f h x : reqs h !! r = Some x → modReq r f h = Done ((), withReq r (f x) h).
Proof.
  intros Hx. unfold modReq, modify, withReq. do 2 f_equal. simpl. f_equal. apply map_eq.
  intros k. destruct (decide (k = r)) as [->|].
  - by rewrite lookup_alter_eq, lookup_insert_eq, Hx.
  - by rewrite lookup_alter_ne, lookup_insert_ne.
Qed.

Lemma modConn_run c f h cn : conns h !! c = Some cn → modConn c f h = Done ((), withConn c (f cn) h).
Proof.
  intros Hx. unfold modConn, modify, withConn. do 2 f_equal. simpl. f_equal. apply map_eq.
  intros k. destruct (decide (k = c)) as [->|].
  - by rewrite lookup_alter_eq, lookup_insert_eq, Hx.
  - by rewrite lookup_alter_ne, lookup_insert_ne.
Qed.

(** The request [r] and the connection [c], as a computation leaves them. *)
Record at_conn (r : rptr) (c : cptr) (x : Request) (cn : Connection) (h : LHeap) : Prop := {
  ac_req : reqs h !! r = Some x;
  ac_conn : conns h !! c = Some cn
}.

Lemma write_at r c x cn h ops :
  at_conn r c x cn h → ∃ h', write c ops h = Done ((), h') ∧ responses h' = responses h ∧
    (∀ k, k ≠ c → conns h' !! k = conns h !! k) ∧
    at_conn r c x (cn <| cw ::= (λ l, l ++ ops) |>) h'.
Proof.
  intros [Hx Hc]. unfold write. rewrite (modConn_run c _ h cn Hc). eexists.
  split; [reflexivity|]. split_and!; [done|intros k Hk; simpl; by rewrite lookup_insert_ne|].
  split; [done|]. simpl. by rewrite lookup_insert_eq.
Qed.

Lemma modReq_at r c x cn h f :
  at_conn r c x cn h → ∃ h', modReq r f h = Done ((), h') ∧ responses h' = responses h ∧
    conns h' = conns h ∧ at_conn r c (f x) cn h'.
Proof.
  intros [Hx Hc]. rewrite (modReq_run r f h x Hx). eexists. split; [reflexivity|].
  split_and!; [done|done|]. split; [simpl; by rewrite lookup_insert_eq|done].
Qed.

Lemma modConn_at r c x cn h f :
  at_conn r c x cn h → ∃ h', modConn c f h = Done ((), h') ∧ responses h' = responses h ∧
    (∀ k, k ≠ c → conns h' !! k = conns h !! k) ∧ at_conn r c x (f cn) h'.
Proof.
  intros [Hx Hc]. rewrite (modConn_run c _ h cn Hc). eexists. split; [reflexivity|].
  split_and!; [done|intros k Hk; simpl; by rewrite lookup_insert_ne|].
  split; [done|]. simpl. by rewrite lookup_insert_eq.
Qed.

(** What is written for a request of either kind. *)
Definition cmds (x : Request) : list WOp :=
  if decide (ToLower (reqCmd x) = "set") then setCmds x
  else if decide (ToLower (reqCmd x) = "get") then getCmds x else delCmds x.

Lemma prepare_at r c x cn h :
  at_conn r c x cn h → ∃ h', (if decide (ToLower (reqCmd x) = "set") then PrepareForSet r c
       else if decide (ToLower (reqCmd x) = "get") then PrepareForGet r c
       else PrepareForDel r c) h = Done ((), h') ∧ responses h' = responses h ∧
    (∀ k, k ≠ c → conns h' !! k = conns h !! k) ∧
    at_conn r c (x <| reqW := Some c |>) (cn <| cw ::= (λ l, l ++ cmds x) |>) h'.
Proof.
  intros Hat. unfold cmds.
  assert (Hgen : ∀ ops, ∃ h', (write c ops ≫= λ _, modReq r (λ x, x <| reqW := Some c |>)) h = Done ((), h') ∧
    responses h' = responses h ∧ (∀ k, k ≠ c → conns h' !! k = conns h !! k) ∧
    at_conn r c (x <| reqW := Some c |>) (cn <| cw ::= (λ l, l ++ ops) |>) h').
  { intros ops. destruct (write_at r c x cn h ops Hat) as (h1&H1&R1&K1&A1).
    destruct (modReq_at r c _ _ h1 (λ x, x <| reqW := Some c |>) A1) as (h2&H2&R2&K2&A2).
    exists h2. erewrite bind_done by exact H1. split; [exact H2|]. split_and!; [congruence| |done].
    intros k Hk. rewrite K2. by apply K1. }
  destruct Hat as [Hx Hc].
  repeat case_decide; unfold PrepareForSet, PrepareForGet, PrepareForDel;
    erewrite bind_done by (unfold getReq; by rewrite Hx); apply Hgen.
Qed.

(** The operations of a successful flush. *)
Definition flushOps (x : Request) : list WOp :=
  match BodyStream x with None => [WFlush] | Some len => [WFlush; WCopyBulk len; WFlush] end.

(** The error of a flush: of the first flush, of the copy of the stream or of
    the flush after it. *)
Definition flushErr (bs : option Z) (io : FlushIO) : error :=
  match ioFlush io, bs with
  | Some e, _ => Some e
  | None, None => None
  | None, Some _ => match ioCopy io with Some e => Some e | None => ioFlush2 io end
  end.

(** What sending leaves of a request: its writer and [streamingStarted] may
    change. *)
Definition unsent (x x' : Request) : Prop :=
  reqCmd x' = reqCmd x ∧ BodyStream x' = BodyStream x ∧ ChanResponse x' = ChanResponse x ∧
  responded x' = responded x.

Lemma flush_at io r c x cn h :
  at_conn r c x cn h → reqW x = Some c → ∃ h' x' ops,
    Flush io r h = Done (flushErr (BodyStream x) io, h') ∧
    responses h' = responses h ∧ (∀ k, k ≠ c → conns h' !! k = conns h !! k) ∧
    at_conn r c x' (cn <| cw ::= (λ l, l ++ ops) |>) h' ∧ unsent x x' ∧
    (flushErr (BodyStream x) io = None → ops = flushOps x).
Proof.
  intros Hat Hw. unfold Flush, flushOps, flushErr. pose proof Hat as [Hx Hc].
  destruct (modReq_at r c _ _ h (λ x, x <| reqW := None |>) Hat) as (h1&H1&R1&K1&A1).
  destruct (write_at r c _ _ h1 [WFlush] A1) as (h2&H2&R2&K2&A2).
  assert (K12 : ∀ k, k ≠ c → conns h2 !! k = conns h !! k).
  { intros k Hk. rewrite K2 by done. by rewrite K1. }
  assert (Hrun : ∀ A (k : M LHeap A), (modReq r (λ x, x <| reqW := None |>) ≫= λ _, write c [WFlush] ≫= λ _, k) h = k h2).
  { intros A k. erewrite bind_done by exact H1. by erewrite bind_done by exact H2. }
  erewrite bind_done by (unfold getReq; by rewrite Hx). rewrite Hw, Hrun.
  destruct (ioFlush io) as [e|].
  { exists h2, (x <| reqW := None |>), [WFlush]. split_and!; [done|congruence|done|done|done|done]. }
  destruct (BodyStream x) as [len|] eqn:Ebs.
  2:{ exists h2, (x <| reqW := None |>), [WFlush]. split_and!; [done|congruence|done|done|done|done]. }
  destruct (modReq_at r c _ _ h2 (λ x, x <| streamingStarted := true |>) A2) as (h3&H3&R3&K3&A3).
  destruct (write_at r c _ _ h3 [WCopyBulk len] A3) as (h4&H4&R4&K4&A4).
  erewrite bind_done by exact H3. erewrite bind_done by exact H4.
  assert (K14 : ∀ k, k ≠ c → conns h4 !! k = conns h !! k).
  { intros k Hk. rewrite K4 by done. rewrite K3. by apply K12. }
  destruct (ioCopy io) as [e|].
  { exists h4, (x <| reqW := None |> <| streamingStarted := true |>), [WFlush; WCopyBulk len]. split_and!; [done|congruence|done| |done|done].
    simpl in A4. rewrite <- app_assoc in A4. exact A4. }
  destruct (write_at r c _ _ h4 [WFlush] A4) as (h5&H5&R5&K5&A5).
  erewrite bind_done by exact H5. exists h5, (x <| reqW := None |> <| streamingStarted := true |>), [WFlush; WCopyBulk len; WFlush].
  split_and!; [done|congruence| | |done|done].
  - intros k Hk. rewrite K5 by done. by apply K14.
  - simpl in A5. rewrite <- !app_assoc in A5. exact A5.
Qed.

Lemma framed_cmds x :
  payload_ok x → framed (cmds x ++ flushOps x) = true.
Proof.
  unfold payload_ok, cmds, flushOps, setCmds.
  case_decide; [intros [[[b ->] ->]|[-> [len ->]]]; done|]. intros ->. by case_decide.
Qed.

(** C35: a SET, GET or DEL request that [handleRequest] sends without error puts
    exactly one well-formed command on its connection: the header announces as
    many bulks as follow, also when the value is streamed, the writer is
    flushed at the end, and the request waits there for its response. *)
Theorem handleRequest_framed io i c r h x cn h' :
  reqs h !! r = Some x → conns h !! c = Some cn → payload_ok x →
  (ToLower (reqCmd x) = "set" ∨ ToLower (reqCmd x) = "get" ∨ ToLower (reqCmd x) = "del") →
  handleRequest io i c (CRequest r) h = Done (None, h') →
  ∃ cn' ops, conns h' !! c = Some cn' ∧ cw cn' = cw cn ++ ops ∧ framed ops = true ∧
    chanWait cn' = [r].
Proof.
  intros Hx Hc Hpay Hcmd Hr. assert (Hat : at_conn r c x cn h) by done.
  unfold handleRequest in Hr.
  erewrite bind_done in Hr by (unfold getReq; by rewrite Hx).
  erewrite bind_done in Hr by (unfold getConn; by rewrite Hc).
  cbv zeta in Hr. rewrite decide_True in Hr by done.
  destruct (prepare_at r c x cn h Hat) as (h1&H1&_&_&A1).
  erewrite bind_done in Hr by exact H1.
  erewrite bind_done in Hr by (unfold getConn; by rewrite (ac_conn _ _ _ _ _ A1)).
  simpl in Hr. destruct (chanWait cn) as [|w l] eqn:Ew; [|done].
  destruct (modConn_at r c _ _ h1 (λ x, x <| chanWait := [r] |>) A1) as (h2&H2&_&_&A2).
  erewrite bind_done in Hr by exact H2.
  destruct (flush_at io r c _ _ h2 A2 eq_refl) as (h3&x'&ops&H3&_&_&[_ Hc3]&_&Hok).
  erewrite bind_done in Hr by exact H3. destruct (flushErr _ io) as [e|].
  { apply bind_inv in Hr as (?&?&_&Hr). by injection Hr. }
  injection Hr as <-. rewrite (Hok eq_refl) in Hc3.
  eexists _, (cmds x ++ flushOps x). split; [exact Hc3|]. simpl.
  split_and!; [by rewrite app_assoc|by apply framed_cmds|done].
Qed.

Section concrete.
#[local] Open Scope string_scope.
(** A SET of chunk 3 with a stream of 10 bytes, and an idle connection. *)
Definition setRequest : Request :=
  MkRequest (MkId 5 "req" "3") "set" "3@k" None (Some 10) true false None false false.
Definition idleHeap : LHeap :=
  MkLHeap ∅ ∅ {[ 0%nat := MkConnection None [] false false [] ]} {[ 0%nat := setRequest ]} ∅ [] 0.
End concrete.

Definition ioOk : FlushIO := MkFlushIO None None None.

Lemma handleRequest_framed_witness : ∃ h' cn' ops,
  handleRequest ioOk 0 0 (CRequest 0) idleHeap = Done (None, h') ∧ conns h' !! 0%nat = Some cn' ∧
  cw cn' = ops ∧ framed ops = true.
Proof.
  destruct (handleRequest ioOk 0 0 (CRequest 0) idleHeap) as [[e h']|?|] eqn:E;
    [|vm_compute in E; discriminate E..].
  assert (e = None) as -> by (vm_compute in E; by injection E as <- _).
  destruct (handleRequest_framed ioOk 0 0 0 idleHeap setRequest (MkConnection None [] false false []) h')
    as (cn'&ops&H1&H2&H3&_); [reflexivity|reflexivity| |left; reflexivity|exact E|].
  - vm_compute. right. split; [reflexivity|by eexists].
  - exists h', cn', ops. split_and!; [reflexivity|exact H1|exact H2|exact H3].
Defined.

(** ** Retries *)

(** The request is still to be answered, and the connections are idle. *)
Definition sendable (r : rptr) (bs : option Z) (cs : list cptr) (R : list (rptr * Reply)) (h : LHeap) : Prop :=
  (∃ x, reqs h !! r = Some x ∧ responded x = false ∧ ChanResponse x = true ∧
     (ToLower (reqCmd x) = "set" ∨ ToLower (reqCmd x) = "get" ∨ ToLower (reqCmd x) = "del") ∧
     BodyStream x = bs) ∧
  (∀ c, c ∈ cs → ∃ cn, conns h !! c = Some cn ∧ chanWait cn = []) ∧ responses h = R.

Lemma attempt_fails io i c r e bs cs R h :
  c ∈ cs → flushErr bs io = Some e → sendable r bs cs R h →
  ∃ h', handleRequest io i c (CRequest r) h = Done (Some e, h') ∧ sendable r bs cs R h'.
Proof.
  intros Hin He ((x&Hx&Hresp&Hchan&Hcmd&Hbs)&Hidle&HR).
  destruct (Hidle c Hin) as (cn&Hc&Ew). assert (Hat : at_conn r c x cn h) by done.
  unfold handleRequest.
  erewrite bind_done by (unfold getReq; by rewrite Hx).
  erewrite bind_done by (unfold getConn; by rewrite Hc).
  cbv zeta. rewrite decide_True by done.
  destruct (prepare_at r c x cn h Hat) as (h1&H1&R1&K1&A1). erewrite bind_done by exact H1.
  erewrite bind_done by (unfold getConn; by rewrite (ac_conn _ _ _ _ _ A1)).
  simpl. rewrite Ew.
  destruct (modConn_at r c _ _ h1 (λ x, x <| chanWait := [r] |>) A1) as (h2&H2&R2&K2&A2).
  erewrite bind_done by exact H2.
  destruct (flush_at io r c _ _ h2 A2 eq_refl) as (h3&x'&ops&H3&R3&K3&A3&(U1&U2&U3&U4)&_).
  simpl in H3, U1, U2, U3, U4. rewrite Hbs, He in H3. erewrite bind_done by exact H3.
  destruct (modConn_at r c _ _ h3 (λ x, x <| chanWait ::= tail |>) A3) as (h4&H4&R4&K4&A4).
  erewrite bind_done by exact H4. eexists. split; [reflexivity|]. split_and!.
  - exists x'. split; [apply (ac_req _ _ _ _ _ A4)|]. rewrite U1, U2, U3, U4. by split_and!.
  - intros k Hk. destruct (decide (k = c)) as [->|Hkc].
    + eexists. split; [apply (ac_conn _ _ _ _ _ A4)|done].
    + rewrite K4, K3, K2, K1 by done. by apply Hidle.
  - congruence.
Qed.

Lemma attempts_fail n i r tries e0 bs cs R h :
  length tries = n → sendable r bs cs R h →
  Forall (λ t, ∃ c e, t.1 = Some c ∧ c ∈ cs ∧ flushErr bs t.2 = Some e) tries →
  ∃ e h', attempts n i (CRequest r) tries e0 h = Done (Some e, h') ∧ sendable r bs cs R h' ∧
    e = match list.last tries with Some t => flushErr bs t.2 | None => e0 end.
Proof.
  revert tries e0 h. induction n as [|n IH]; intros tries e0 h Hlen Hs Hall.
  { destruct tries; [|done]. exists e0, h. done. }
  destruct tries as [|[co io] tries]; [done|]. injection Hlen as Hlen.
  apply list.Forall_cons in Hall as [(c&e&Eco&Hin&He) Hall]. simpl in Eco, He. subst co.
  destruct (attempt_fails io i c r e bs cs R h Hin He Hs) as (h1&H1&Hs1).
  destruct (IH tries (Some e) h1 Hlen Hs1 Hall) as (e'&h2&H2&Hs2&El).
  exists e', h2. simpl. erewrite bind_done by exact H1. split_and!; [exact H2|done|].
  rewrite El. destruct tries as [|t tries]; [simpl; congruence|].
  rewrite last_cons_cons. by destruct (list.last (t :: tries)) eqn:E; [|by apply last_None in E].
Qed.

(** C36: a request that cannot be sent is not lost.  When every attempt that
    [HandleRequests] makes at it, three or, for a request whose stream was
    started before, one, gets an idle connection and fails there, whether at
    the first flush, while the stream is copied or at the flush after it, then
    the request is answered with the error of the last attempt, exactly once,
    none of the connections is left waiting for it, and the loop goes on. *)
Theorem give_up_answers i r x tries cs h :
  reqs h !! r = Some x → sendable r (BodyStream x) cs (responses h) h →
  length tries = (if Request_Retriable x then MAX_RETRY else 1%nat) →
  Forall (λ t, ∃ c e, t.1 = Some c ∧ c ∈ cs ∧ flushErr (BodyStream x) t.2 = Some e) tries →
  ∃ t msg h', HandleRequest i (CRequest r) tries h = Done (true, h') ∧
    list.last tries = Some t ∧ flushErr (BodyStream x) t.2 = Some msg ∧
    responses h' = responses h ++ [(r, RError msg)] ∧
    (∀ c, c ∈ cs → ∃ cn, conns h' !! c = Some cn ∧ chanWait cn = []).
Proof.
  intros Hx Hs Hlen Hall.
  destruct (attempts_fail _ i r tries None _ cs _ h Hlen Hs Hall) as (e&h1&H1&Hs1&El).
  destruct (list.last tries) as [t|] eqn:Et.
  2:{ apply last_None in Et. subst. by destruct (Request_Retriable x). }
  assert (Hmsg : ∃ msg, flushErr (BodyStream x) t.2 = Some msg).
  { apply last_Some_elem_of in Et. rewrite list.Forall_forall in Hall.
    destruct (Hall t Et) as (?&?&_&_&?). eauto. }
  destruct Hmsg as [msg Hmsg]. rewrite Hmsg in El. subst e.
  destruct Hs1 as ((x1&Hx1&Hr1&Hc1&_)&Hidle&HR1). unfold HandleRequest, Retriable.
  erewrite bind_done by (erewrite bind_done by (unfold getReq; by rewrite Hx); reflexivity).
  cbv zeta. erewrite bind_done by exact H1.
  eexists t, msg, _. split.
  - erewrite bind_done; [reflexivity|]. erewrite bind_done; [reflexivity|].
    unfold SetResponse. erewrite bind_done by (unfold getReq; by rewrite Hx1).
    rewrite Hr1. erewrite bind_done by reflexivity. rewrite Hc1.
    erewrite bind_done by (by erewrite bind_done by reflexivity). reflexivity.
  - split_and!; [done|done| |done]. simpl. by rewrite HR1.
Qed.

(** Three attempts at a streamed set: the first flush, the copy and the last
    flush fail in turn. *)
Definition brokenTries : list (option cptr * FlushIO) :=
  [(Some 0%nat, MkFlushIO (Some "reset"%string) None None);
   (Some 0%nat, MkFlushIO None (Some "broken pipe"%string) None);
   (Some 0%nat, MkFlushIO None None (Some "timeout"%string))].
Lemma give_up_answers_witness : ∃ t msg h',
  HandleRequest 0 (CRequest 0) brokenTries idleHeap = Done (true, h') ∧
  list.last brokenTries = Some t ∧ flushErr (Some 10) t.2 = Some msg ∧
  responses h' = [(0%nat, RError msg)] ∧
  (∀ c, c ∈ [0%nat] → ∃ cn, conns h' !! c = Some cn ∧ chanWait cn = []).
Proof.
  apply (give_up_answers 0 0 setRequest brokenTries [0%nat] idleHeap).
  - reflexivity.
  - split_and!.
    + exists setRequest. split_and!; try reflexivity. left. reflexivity.
    + intros c ->%list_elem_of_singleton. eexists. split; reflexivity.
    + reflexivity.
  - reflexivity.
  - repeat constructor; eexists 0%nat, _; (split_and!; [reflexivity|left|reflexivity]).
Defined.

(** Copies of a stream among the calls on a writer. *)
Definition streams (ops : list WOp) : nat :=
  length (List.filter (λ o, match o with WCopyBulk _ => true | _ => false end) ops).

(** A streamed request is retried after its stream was already started: the
    number of attempts is fixed before the first one, so when the copy breaks,
    the rest of the stream is sent again as a second value, although the
    request is no longer retriable. *)
Theorem stream_resent :
  ∃ h' cn' x', HandleRequest 0 (CRequest 0)
      [(Some 0%nat, MkFlushIO None (Some "broken pipe"%string) None); (Some 0%nat, ioOk)] idleHeap
      = Done (true, h') ∧
    conns h' !! 0%nat = Some cn' ∧ streams (cw cn') = 2%nat ∧
    reqs h' !! 0%nat = Some x' ∧ Request_Retriable x' = false ∧ responded x' = false.
Proof. vm_compute. eexists _, _, _. split_and!; reflexivity. Qed.
