(* ===== verification/CoolTimer.v ===== *)
(** * proxy/lambdastore/instance.go: keeping an instance warm

    [HandleRequests] serves requests and, when its timer fires, warms the lambda
    up.  The timer is set again by [warmUp], which is called after each request,
    after each response and at the end of a validation, by several goroutines.
    The critical section of [flagValidated] is one step: the timer, just set to
    [WarmTimout], does not fire inside it. *)

From S2P Require Import Prelude Lambdastore Request Instance Connection Sending.

(** ** The timer *)

(** [time.Timer]: whether it runs and whether its channel, of capacity one, holds
    a tick; [resetting] counts the calls of [warmUp] between [Stop] and [Reset]. *)
Record Cool : Type := MkCool { armed : bool; cooled : bool; resetting : nat }.
#[global] Instance Cool_eta : Eta Cool := λ t, MkCool (armed t) (cooled t) (resetting t).

(** [NewTimer] *)
Definition newCool : Cool := MkCool true false 0.
Definition fire (t : Cool) : Cool := t <| armed := false |> <| cooled := true |>.
(** [if !coolTimer.Stop() { select { case <-coolTimer.C: default: } }] *)
Definition stopCool (t : Cool) : Cool :=
  if armed t then t <| armed := false |> else t <| cooled := false |>.
Definition resetCool (t : Cool) : Cool := t <| armed := true |>.

(** [warmUp], in its two halves. *)
Definition warmUp_stop (t : Cool) : Cool := stopCool t <| resetting ::= S |>.
Definition warmUp_reset (t : Cool) : Cool := resetCool t <| resetting ::= Nat.pred |>.
Definition warmUp (t : Cool) : Cool := resetCool (stopCool t).

(** ** HandleRequests *)

(** Where the loop is: at its [select], setting the timer after a request, in
    [WarmUp], or returned. *)
Inductive Loop : Type :=
  | LSelect | LServed | LResetting | LWarm (v : vstate) | LEnded.

Record Warm : Type := MkWarm { wheap : LHeap; wcool : Cool; wloop : Loop }.
#[global] Instance Warm_eta : Eta Warm := λ w, MkWarm (wheap w) (wcool w) (wloop w).

(** What other goroutines do to the instance without ending a validation. *)
Definition leaves (i : iptr) (h h' : LHeap) : Prop :=
  ∀ x, insts h !! i = Some x →
    ∃ x', insts h' !! i = Some x' ∧ iclosed x' = iclosed x ∧ (chanValidated x = true → chanValidated x' = true).

(** A step of [WarmUp], that is of [validate(true)]; it sets the timer when it
    is the one that calls [flagValidated]. *)
Definition warmStep (i : iptr) (timeout : bool) (v : vstate) (w : Warm) : option Warm :=
  match validate_step i true timeout v (wheap w) with
  | Done (v', h') =>
      Some (w <| wheap := h' |> <| wloop := LWarm v' |>
              <| wcool ::= (λ t, match v, v' with VLoop, VReturned _ => warmUp t | _, _ => t end) |>)
  | _ => None
  end.

Inductive warmth (i : iptr) (w : Warm) : Warm → Prop :=
  | wm_fire : armed (wcool w) = true → warmth i w (w <| wcool ::= fire |>)
  (* [warmUp] of a connection's goroutine *)
  | wm_stop : warmth i w (w <| wcool ::= warmUp_stop |>)
  | wm_reset : (0 < resetting (wcool w))%nat → warmth i w (w <| wcool ::= warmUp_reset |>)
  | wm_other h' : leaves i (wheap w) h' → warmth i w (w <| wheap := h' |>)
  | wm_flag c r h' : flagValidated i c (wheap w) = Done (r, h') →
      warmth i w (w <| wheap := h' |> <| wcool ::= warmUp |>)
  | wm_close h' : Inst_Close i (wheap w) = Done ((), h') →
      warmth i w (w <| wheap := h' |> <| wcool ::= stopCool |>)
  (* the loop *)
  | wm_closed x : wloop w = LSelect → insts (wheap w) !! i = Some x → iclosed x = true →
      warmth i w (w <| wloop := LEnded |>)
  | wm_request cmd tries b h' : wloop w = LSelect → HandleRequest i cmd tries (wheap w) = Done (b, h') →
      warmth i w (w <| wheap := h' |> <| wloop := (if (b : bool) then LServed else LEnded) |>)
  | wm_served : wloop w = LServed → warmth i w (w <| wcool ::= stopCool |> <| wloop := LResetting |>)
  | wm_again : wloop w = LResetting → warmth i w (w <| wcool ::= resetCool |> <| wloop := LSelect |>)
  | wm_tick v h' : wloop w = LSelect → cooled (wcool w) = true → validate_start i (wheap w) = Done (v, h') →
      warmth i w (w <| wheap := h' |> <| wcool ::= (λ t, t <| cooled := false |>) |> <| wloop := LWarm v |>)
  | wm_warm v timeout w' : wloop w = LWarm v → warmStep i timeout v w = Some w' → warmth i w w'
  | wm_warmed c : wloop w = LWarm (VReturned c) → warmth i w (w <| wloop := LSelect |>).

(** The instance is made, and its loop started. *)
Definition warmStart (h : LHeap) : Warm := MkWarm h newCool LSelect.

(** ** What operations do to the instance *)

Section keeps.
Context (i : iptr) (P : Instance → Prop).

Definition has (h : LHeap) : Prop := ∃ x, insts h !! i = Some x ∧ P x.

Lemma has_modify f : (∀ h, insts (f h) = insts h) → preserves has (modify f).
Proof. intros Hf. apply preserves_modify. intros h. unfold has. by rewrite Hf. Qed.
Lemma has_modInst j f : (∀ x, P x → P (f x)) → preserves has (modInst j f).
Proof.
  intros Hf. apply preserves_modify. intros h (x&Hx&Hp). unfold has. cbn. destruct (decide (j = i)) as [->|Hne].
  - rewrite lookup_alter_eq, Hx. eexists. split; [done|by apply Hf].
  - rewrite lookup_alter_ne by done. by exists x.
Qed.
Lemma has_expect {A} e (f : LHeap → option A) :
  preserves has (λ h, expect e (f h) h).
Proof. intros h a h' Hh E. by apply expect_inv in E as [_ ->]. Qed.
Lemma has_getReq r : preserves has (getReq r).
Proof. apply (has_expect PNil (λ h, reqs h !! r)). Qed.
Lemma has_getConn c : preserves has (getConn c).
Proof. apply (has_expect PNil (λ h, conns h !! c)). Qed.
Lemma has_getInst j : preserves has (getInst j).
Proof. apply (has_expect PNil (λ h, insts h !! j)). Qed.
Lemma has_modReq r f : preserves has (modReq r f).
Proof. by apply has_modify. Qed.
Lemma has_modConn c f : preserves has (modConn c f).
Proof. by apply has_modify. Qed.
#[local] Hint Resolve has_modify has_getReq has_getConn has_getInst has_modReq has_modConn : go.

Lemma has_SetResponse r rsp : preserves has (SetResponse r rsp).
Proof. unfold SetResponse. preserve. Qed.
Lemma has_write c ops : preserves has (write c ops).
Proof. unfold write. preserve. Qed.
#[local] Hint Resolve has_SetResponse has_write : go.
Lemma has_Flush io r : preserves has (Flush io r).
Proof. unfold Flush. preserve. Qed.
#[local] Hint Resolve has_Flush : go.
Lemma has_handleRequest io j c cmd : preserves has (handleRequest io j c cmd).
Proof.
  unfold handleRequest, PrepareForSet, PrepareForGet, PrepareForDel, Control_PrepareForData,
    Control_PrepareForMigrate, Control_PrepareForDel, Control_Flush. preserve.
Qed.
#[local] Hint Resolve has_handleRequest : go.
Lemma has_attempts n j cmd tries e : preserves has (attempts n j cmd tries e).
Proof. revert tries e. induction n as [|n IH]; intros [|[[c|] io] tries] e; simpl; preserve. Qed.
#[local] Hint Resolve has_attempts : go.
Lemma has_HandleRequest j cmd tries : preserves has (HandleRequest j cmd tries).
Proof. unfold HandleRequest, Retriable. preserve. Qed.

(** Operations that leave [P] alone when their updates of an instance do. *)
Lemma has_flagValidated j c :
  (∀ x d, P x → P (x <| icn := d |>)) → (∀ x a, P x → P (x <| awake := a |>)) →
  (∀ x c', P x → P (x <| lastValidated := c' |>)) → (∀ x, P x → P (x <| chanValidated := false |>)) →
  preserves has (flagValidated j c).
Proof.
  intros H1 H2 H3 H4. unfold flagValidated, flagValidatedLocked, Conn_Close.
  preserve; apply has_modInst; auto.
Qed.
Lemma has_trigger j b : (∀ x f, P x → P (x <| triggers ::= f |>)) → preserves has (tryTriggerLambda j b).
Proof. intros H1. unfold tryTriggerLambda. preserve. apply has_modInst. auto. Qed.
End keeps.

(** ** The instance does not go cold *)

(** Something is about to make the loop warm the lambda up. *)
Definition hot (t : Cool) : Prop := armed t = true ∨ cooled t = true ∨ (0 < resetting t)%nat.

Definition keptWarm (w : Warm) (x : Instance) : Prop :=
  match wloop w with
  | LSelect | LWarm (VReturned _) => hot (wcool w)
  | LWarm VLoop | LWarm VWaiting => chanValidated x = true ∨ hot (wcool w)
  | LWarm VPinged => False
  | LServed | LResetting | LEnded => True
  end.
Definition CoolInv (i : iptr) (w : Warm) : Prop :=
  ∃ x, insts (wheap w) !! i = Some x ∧ (iclosed x = false → keptWarm w x).

Lemma hot_stop t : hot (warmUp_stop t).
Proof. right. right. cbn. unfold stopCool. destruct (armed t); cbn; lia. Qed.
Lemma hot_reset t : hot (resetCool t).
Proof. by left. Qed.

(** Steps of the timer alone. *)
Lemma CoolInv_timer i w f : CoolInv i w → (hot (wcool w) → hot (f (wcool w))) → CoolInv i (w <| wcool ::= f |>).
Proof.
  intros (x&Hx&Hk) Hf. exists x. split; [done|]. intros Hc. specialize (Hk Hc). unfold keptWarm in *. cbn.
  destruct (wloop w) as [| | |[]|]; naive_solver.
Qed.

Lemma validate_closed i b t v : ∀ c, preserves (has i (λ x, iclosed x = c)) (validate_step i b t v).
Proof.
  intros c. set (J := has i (λ x, iclosed x = c)).
  assert (Ht : ∀ j b, preserves J (tryTriggerLambda j b)) by (intros; by apply has_trigger).
  assert (Hf : ∀ j d, preserves J (flagValidated j d)) by (intros; by apply has_flagValidated).
  assert (Ha : ∀ j a, preserves J (modInst j (λ x, x <| awake := a |>))) by (intros; by apply has_modInst).
  assert (Hi : ∀ j, preserves J (getInst j)) by (intros; apply has_getInst).
  assert (Hp : ∀ d, preserves J (Ping d)).
  { intros d. unfold Ping. apply preserves_bind; [apply has_getConn|intros; apply has_write]. }
  destruct v; unfold validate_step, validate_loop, validated; preserve.
Qed.

Lemma validate_start_inv i h v h' x : validate_start i h = Done (v, h') → insts h !! i = Some x →
  (v = VLoop ∨ v = VWaiting) ∧ ∃ x', insts h' !! i = Some x' ∧ iclosed x' = iclosed x ∧ chanValidated x' = true.
Proof.
  intros Hr Hx. unfold validate_start in Hr. mstep Hr. unfold getInst in E. mstep E. assert (a = x) as -> by congruence.
  destruct (chanValidated x) eqn:Ev; injection Hr as <- <-; (split; [by auto|]).
  - by exists x.
  - cbn. rewrite lookup_alter_eq, Hx. by eexists.
Qed.

(** A step of the warm-up: it goes on waiting, or it returns when the timer was
    set since. *)
Lemma warm_step_inv i t v h v' h' x : validate_step i true t v h = Done (v', h') → insts h !! i = Some x → v ≠ VPinged →
  (v = VLoop ∧ v' = VWaiting ∧ (chanValidated x = true → has i (λ y, chanValidated y = true) h')) ∨
  (v = VLoop ∧ ∃ c, v' = VReturned c) ∨
  (v = VWaiting ∧ h' = h ∧ chanValidated x = false ∧ ∃ c, v' = VReturned c).
Proof.
  intros Hr Hx Hv. destruct v; cbn in Hr; [|done| |done].
  - unfold validate_loop in Hr. mstep Hr. unfold getInst in E. mstep E. assert (a = x) as -> by congruence. mstep Hr.
    destruct a as [|].
    + injection Hr as <- <-. left. split_and!; [done..|]. intros Hc.
      assert (Hh : has i (λ y, chanValidated y = true) h) by (by exists x).
      revert E. destruct (decide _); intros E; [|by injection E as _ <-].
      eapply has_trigger; [|exact Hh|exact E]. done.
    + right. left. split; [done|]. mstep Hr. mstep Hr. injection Hr as <- _. by eexists.
  - right. right. mstep Hr. unfold validated in E. mstep E. unfold getInst in E0. mstep E0.
    assert (a0 = x) as -> by congruence. destruct (chanValidated x) eqn:Ec; [done|]. injection E as <- <-.
    injection Hr as <- <-. split_and!; [done..|by eexists].
Qed.

Lemma CoolInv_warm i w v t w' : CoolInv i w → wloop w = LWarm v → warmStep i t v w = Some w' → CoolInv i w'.
Proof.
  intros (x&Hx&Hk) El Hst. unfold warmStep in Hst.
  destruct (validate_step i true t v (wheap w)) as [[v' h']| |] eqn:Er; [|done..]. injection Hst as <-.
  destruct (validate_closed i true t v (iclosed x) (wheap w) v' h') as (x'&Hx'&Ec); [by exists x|done|].
  exists x'. split; [done|]. rewrite Ec. intros Hc. specialize (Hk Hc). unfold keptWarm in *. cbn. rewrite El in Hk.
  assert (v ≠ VPinged) as Hv by (by intros ->).
  destruct (warm_step_inv i t v _ v' h' x Er Hx Hv) as [(->&->&Hw)|[(->&c&->)|(->&->&Hf&c&->)]].
  - destruct Hk as [Hk|Hk]; [|by right]. left. destruct (Hw Hk) as (y&Hy&?). congruence.
  - apply hot_reset.
  - destruct Hk as [Hk|Hk]; [congruence|done].
Qed.

Lemma Inst_Close_closed i h h' : Inst_Close i h = Done ((), h') → has i (λ x, iclosed x = true) h'.
Proof.
  intros Hr. unfold Inst_Close in Hr. mstep Hr. unfold getInst in E. mstep E. rename a into x.
  destruct (iclosed x) eqn:Ec; [injection Hr as <-; by exists x|]. mstep Hr. injection E as _ <-.
  match type of Hr with ?c ?h1 = _ => assert (preserves (has i (λ x, iclosed x = true)) c) as Hp end.
  { assert (Hi : ∀ j, preserves (has i (λ x, iclosed x = true)) (getInst j)) by (intros; apply has_getInst).
    assert (Hm : ∀ j f, (∀ x, iclosed (f x) = iclosed x) → preserves (has i (λ x, iclosed x = true)) (modInst j f)).
    { intros j f Hf. apply has_modInst. intros y. by rewrite Hf. }
    unfold flagValidatedLocked, Conn_Close. preserve; auto using has_getConn, has_modConn. }
  eapply Hp; [|exact Hr]. exists (x <| iclosed := true |>). split; [|done]. cbn. by rewrite lookup_alter_eq, E0.
Qed.

Lemma CoolInv_step i w w' : CoolInv i w → warmth i w w' → CoolInv i w'.
Proof.
  intros Hi Hst. pose proof Hi as (x&Hx&Hk).
  destruct Hst as [Ha| |Hr|h' Hl|c r h' Hf|h' Hc|y El Hy Hc|cmd tries b h' El Hr|El|El|v h' El Ht Hr|v t w' El Hw|c El].
  - apply CoolInv_timer; [done|]. right. by left.
  - apply CoolInv_timer; [done|]. intros _. apply hot_stop.
  - apply CoolInv_timer; [done|]. by left.
  - destruct (Hl x Hx) as (x'&Hx'&Ec&Hv). exists x'. split; [done|]. rewrite Ec. intros Ho. specialize (Hk Ho).
    unfold keptWarm in *. cbn. destruct (wloop w) as [| | |[]|]; naive_solver.
  - destruct (has_flagValidated i (λ y, iclosed y = iclosed x) i c) with (wheap w) r h' as (x'&Hx'&Ec); try done; [by exists x|].
    exists x'. split; [done|]. rewrite Ec. intros Ho. specialize (Hk Ho). pose proof (hot_reset (stopCool (wcool w))) as Hh.
    unfold keptWarm in *. cbn. destruct (wloop w) as [| | |[]|]; try done; by right.
  - destruct (Inst_Close_closed i _ _ Hc) as (x'&Hx'&Ec). exists x'. split; [done|]. by rewrite Ec.
  - by exists x.
  - destruct (has_HandleRequest i (λ _, True) i cmd tries (wheap w) b h') as (x'&Hx'&_); [by exists x|done|].
    exists x'. split; [done|]. intros _. by destruct b.
  - by exists x.
  - exists x. split; [done|]. intros _. apply hot_reset.
  - destruct (validate_start_inv i _ v h' x Hr Hx) as ([-> | ->]&x'&Hx'&_&Hv); exists x'; (split; [done|]); intros _; by left.
  - by eapply CoolInv_warm.
  - exists x. split; [done|]. intros Ho. specialize (Hk Ho). unfold keptWarm in *. by rewrite El in Hk.
Qed.

(** From the [select] of an open instance the loop can warm the lambda up. *)
Lemma can_warm i w x : insts (wheap w) !! i = Some x → wloop w = LSelect → hot (wcool w) →
  ∃ w' v, rtc (warmth i) w w' ∧ wloop w' = LWarm v.
Proof.
  intros Hx El Hh.
  assert (Htick : ∀ w, insts (wheap w) !! i = Some x → wloop w = LSelect → cooled (wcool w) = true →
    ∃ w' v, rtc (warmth i) w w' ∧ wloop w' = LWarm v).
  { clear. intros w Hx El Ht. assert (∃ v h', validate_start i (wheap w) = Done (v, h')) as (v&h'&Hr).
    { unfold validate_start. erewrite bind_done by (unfold getInst; by rewrite Hx).
      destruct (chanValidated x); by eexists _, _. }
    eexists _, v. split; [apply rtc_once; by eapply wm_tick|done]. }
  assert (Hfire : ∀ w, insts (wheap w) !! i = Some x → wloop w = LSelect → armed (wcool w) = true →
    ∃ w' v, rtc (warmth i) w w' ∧ wloop w' = LWarm v).
  { clear -Htick. intros w Hx El Ha. destruct (Htick (w <| wcool ::= fire |>)) as (w'&v&Hr&Ev); [done..|].
    exists w', v. split; [|done]. eapply rtc_l; [by apply wm_fire|done]. }
  destruct Hh as [Ha|[Ht|Hr]]; [by apply Hfire|by apply Htick|].
  destruct (Hfire (w <| wcool ::= warmUp_reset |>)) as (w'&v&Hr'&Ev); [done..|].
  exists w', v. split; [|done]. eapply rtc_l; [by apply wm_reset|done].
Qed.

(** C10: an instance is kept warm.  In every interleaving of the loop of
    [HandleRequests], with its requests and warm-ups, the timer, validations,
    responses that set the timer again and [Close], whenever an open instance's
    loop waits at its [select] the timer runs, or has fired, or is being set;
    and the loop can reach its next [WarmUp].  So a tick that a concurrent
    [warmUp] took away, or one that led to a warm-up another goroutine was
    already making, never leaves the lambda without a later one. *)
Theorem never_cold i d h0 h w :
  NewInstanceFromDeployment d h0 = Done (i, h) → rtc (warmth i) (warmStart h) w →
  ∃ x, insts (wheap w) !! i = Some x ∧
    (iclosed x = false → wloop w = LSelect →
     hot (wcool w) ∧ ∃ w' v, rtc (warmth i) w w' ∧ wloop w' = LWarm v).
Proof.
  intros Hn Hr. assert (Hi : CoolInv i (warmStart h)).
  { injection Hn as <- <-. eexists. split; [apply lookup_insert_eq|]. intros _. by left. }
  assert (CoolInv i w) as (x&Hx&Hk).
  { clear Hn. induction Hr as [|w1 w2 w3 Hst _ IH]; [done|]. by eapply IH, CoolInv_step. }
  exists x. split; [done|]. intros Ho El. specialize (Hk Ho). unfold keptWarm in Hk. rewrite El in Hk.
  split; [done|]. by eapply can_warm.
Qed.

(** A tick that led to a warm-up; the lambda pongs, and the timer runs again. *)
Definition coldHeap : LHeap := MkLHeap ∅ ∅ {[ 0%nat := MkConnection None [] false false [] ]} ∅ ∅ [] 0.
Lemma never_cold_witness : ∃ h w x,
  NewInstanceFromDeployment 0 coldHeap = Done (0%nat, h) ∧ rtc (warmth 0) (warmStart h) w ∧
  wloop w = LSelect ∧ cooled (wcool w) = false ∧ insts (wheap w) !! 0%nat = Some x ∧ iclosed x = false ∧
  hot (wcool w) ∧ ∃ w' v, rtc (warmth 0) w w' ∧ wloop w' = LWarm v.
Proof.
  destruct (NewInstanceFromDeployment 0 coldHeap) as [[i h]| |] eqn:E; [|discriminate E..].
  assert (i = 0%nat) as -> by (vm_compute in E; by injection E as <- _).
  assert (∃ w, rtc (warmth 0) (warmStart h) w ∧ wloop w = LSelect ∧ cooled (wcool w) = false ∧
    iclosed <$> insts (wheap w) !! 0%nat = Some false) as (w&Hr&El&Et&Eo).
  { injection E as <-. eexists. split.
    - eapply rtc_l; [apply wm_fire; reflexivity|].
      eapply rtc_l; [eapply wm_tick; reflexivity|].
      eapply rtc_l; [eapply (wm_warm _ _ VLoop false); reflexivity|].
      eapply rtc_l; [eapply (wm_flag _ _ (Some 0%nat)); reflexivity|].
      eapply rtc_l; [eapply (wm_warm _ _ VWaiting false); reflexivity|].
      eapply rtc_l; [eapply wm_warmed; reflexivity|]. apply rtc_refl.
    - split_and!; reflexivity. }
  destruct (never_cold 0 0 coldHeap h w E Hr) as (x&Hx&Hw).
  assert (iclosed x = false) as Hc by (rewrite Hx in Eo; by injection Eo).
  destruct (Hw Hc El) as [Hh Hp]. exists h, w, x. split_and!; [reflexivity|exact Hr|exact El|exact Et|exact Hx|exact Hc|exact Hh|exact Hp].
Defined.
