(* ===== verification/Group.v ===== *)
(** * proxy/server/group.go: groups of instances and slices

    A group is the fixed-size table of the lambda instances a proxy manages; a
    slice is the run of the group an object's chunks are laid on. *)

From S2P Require Import Prelude Lambdastore.

Abbreviation gptr := nat (only parsing).
Abbreviation grp := nat (only parsing).

(** ** Data *)

Record GroupInstance : Type := MkGroupInstance {
  gdep : LambdaDeployment;
  ggroup : grp;
  gidx : Z
}.

Record Group : Type := MkGroup {
  All : list (option gptr);
  gsize : Z;
  sliceBase : Z
}.

(** The heap of the server package: that of lambdastore, and its own groups. *)
Record SHeap : Type := MkSHeap {
  ls : LHeap;
  ginsts : gmap gptr GroupInstance;
  groups : gmap grp Group
}.

(** [once] tells whether [once.Do] has run. *)
Record Slice : Type := MkSlice {
  sonce : bool;
  initialized : bool;
  sgroup : option grp;
  ssize : Z;
  base : Z
}.
Definition zeroSlice : Slice := MkSlice false false None 0 0.

#[global] Instance GroupInstance_eta : Eta GroupInstance := λ g,
  MkGroupInstance (gdep g) (ggroup g) (gidx g).
#[global] Instance Group_eta : Eta Group := λ g, MkGroup (All g) (gsize g) (sliceBase g).
#[global] Instance SHeap_eta : Eta SHeap := λ h, MkSHeap (ls h) (ginsts h) (groups h).
#[global] Instance Slice_eta : Eta Slice := λ s,
  MkSlice (sonce s) (initialized s) (sgroup s) (ssize s) (base s).

Definition onLs {A} (c : M LHeap A) : M SHeap A := zoom ls (λ l h, h <| ls := l |>) c.

Definition getGroup (g : grp) : M SHeap Group := λ h, expect PNil (groups h !! g) h.
Definition getGI (p : gptr) : M SHeap GroupInstance := λ h, expect PNil (ginsts h !! p) h.
Definition modGroup (g : grp) (f : Group → Group) : M SHeap unit :=
  modify (λ h, h <| groups ::= alter f g |>).
Definition modGI (p : gptr) (f : GroupInstance → GroupInstance) : M SHeap unit :=
  modify (λ h, h <| ginsts ::= alter f p |>).

(** ** Operations *)

(** [make] panics on a negative length. *)
Definition NewGroup (num : Z) : M SHeap grp := λ h,
  if decide (num < 0) then Panics PMake else
  let g := fresh (dom (groups h)) in
  Done (g, h <| groups ::= <[g := MkGroup (replicate (Z.to_nat num) None) num 0]> |>).

Definition Len (g : Group) : Z := gsize g.

Definition InitMeta (g : grp) (sliceSize : Z) (s : Slice) : Slice :=
  s <| sgroup := Some g |> <| ssize := sliceSize |>.

Definition Reserve (g : grp) (idx : Z) (d : LambdaDeployment) : M SHeap gptr := λ h,
  let p := fresh (dom (ginsts h)) in
  Done (p, h <| ginsts ::= <[p := MkGroupInstance d g idx]> |>).

(** [Group.Set]: a bare deployment is first turned into an instance. *)
Definition SetGI (g : grp) (p : gptr) : M SHeap unit :=
  ins ← getGI p;
  match gdep ins with
  | LDeployment d =>
      i ← onLs (NewInstanceFromDeployment d);
      modGI p (λ x, x <| gdep := LInstance i |>)
  | LInstance _ => mret ()
  end;;
  gr ← getGroup g;
  if decide (0 ≤ gidx ins < Z.of_nat (length (All gr)))
  then modGroup g (λ x, x <| All ::= zinsert (gidx ins) (Some p) |>)
  else throw PIndex.

(** [x.LambdaDeployment.( *lambdastore.Instance)] *)
Definition asInstance (d : LambdaDeployment) : M SHeap iptr :=
  match d with LInstance i => mret i | LDeployment _ => throw PType end.

(** [Group.Validate].  The pointer found in the table is returned, also when it
    was nil and [Set] has just filled the slot. *)
Definition Validate (g : grp) (p : gptr) : M SHeap (option gptr) :=
  ins ← getGI p;
  gr ← getGroup g;
  gins ← expect PIndex (zlookup (All gr) (gidx ins));
  match gins with
  | None => SetGI g p
  | Some q =>
      if decide (q ≠ p) then
        gq ← getGI q;
        i ← asInstance (gdep gq);
        onLs (Switch i (gdep ins));;
        mret ()
      else mret ()
  end;;
  mret gins.

(** [Group.Instance] *)
Definition InstanceAt (g : grp) (idx : Z) : M SHeap iptr :=
  gr ← getGroup g;
  slot ← expect PIndex (zlookup (All gr) idx);
  p ← expect PNil slot;
  gi ← getGI p;
  asInstance (gdep gi).

(** [Group.nextSlice]: the base advances by the slice size, modulo 2^64. *)
Definition nextSlice (g : grp) (sliceSize : Z) : M SHeap Z :=
  gr ← getGroup g;
  let added := u64 (sliceBase gr + u64 sliceSize) in
  modGroup g (λ x, x <| sliceBase := added |>);;
  if decide (u64 (gsize gr) = 0) then throw PDivide else
  mret (i64 (u64 (added - u64 sliceSize) mod u64 (gsize gr))).

(** [Slice.get], run once. *)
Definition slice_get (s : Slice) : M SHeap Slice :=
  g ← expect PNil (sgroup s);
  b ← nextSlice g (ssize s);
  mret (s <| base := b |> <| initialized := true |> <| sonce := true |>).

(** [Slice.GetIndex], returning the updated slice; Go's [%] truncates. *)
Definition GetIndex (s : Slice) (idx : Z) : M SHeap (Z * Slice) :=
  s' ← (if sonce s then mret s else slice_get s);
  g ← expect PNil (sgroup s');
  gr ← getGroup g;
  if decide (gsize gr = 0) then throw PDivide else
  mret (Z.rem (i64 (base s' + idx)) (gsize gr), s').

(** ** Slices *)

(** A table of a size Go's [int] can add without overflow. *)
Definition group_ok (gr : Group) : Prop := 0 < gsize gr < 2 ^ 62.

Lemma rem_pos a b : 0 ≤ a → 0 < b → Z.rem a b = a mod b.
Proof. intros. rewrite Z.rem_mod_nonneg by lia. done. Qed.

Lemma nextSlice_run g ss h gr :
  groups h !! g = Some gr → group_ok gr → 0 ≤ ss < 2 ^ 63 → is_u64 (sliceBase gr) →
  nextSlice g ss h = Done (sliceBase gr mod gsize gr,
    h <| groups ::= alter (λ x, x <| sliceBase := u64 (sliceBase gr + ss) |>) g |>).
Proof.
  intros Hg Hok Hss Hb. unfold nextSlice, group_ok in *.
  erewrite bind_done by (unfold getGroup; by rewrite Hg). cbv zeta.
  assert (Eu : u64 ss = ss) by (apply u64_small; unfold is_u64; lia).
  assert (Eg : u64 (gsize gr) = gsize gr) by (apply u64_small; unfold is_u64; lia).
  erewrite bind_done by reflexivity. rewrite Eu, Eg, decide_False by lia.
  rewrite u64_sub_l, Z.add_simpl_r, (u64_small (sliceBase gr)) by done.
  pose proof (Z.mod_pos_bound (sliceBase gr) (gsize gr)).
  rewrite i64_small by (unfold is_i64; lia). done.
Qed.

(** A slice that has its base. *)
Definition slice_ready (g : grp) (gr : Group) (s : Slice) : Prop :=
  sonce s = true ∧ sgroup s = Some g ∧ 0 ≤ base s < gsize gr.

Lemma GetIndex_ready g gr s i h :
  groups h !! g = Some gr → group_ok gr → slice_ready g gr s → 0 ≤ i < gsize gr →
  GetIndex s i h = Done (((base s + i) mod gsize gr, s), h).
Proof.
  intros Hg Hok (E1&E2&Hb) Hi. unfold GetIndex, group_ok in *. rewrite E1.
  erewrite bind_done by reflexivity. rewrite E2. erewrite bind_done by reflexivity.
  erewrite bind_done by (unfold getGroup; by rewrite Hg).
  rewrite decide_False by lia. rewrite i64_small by (unfold is_i64; lia).
  by rewrite rem_pos by lia.
Qed.

(** The first use of a slice gives it its base. *)
Lemma GetIndex_first g gr s i h :
  groups h !! g = Some gr → group_ok gr → is_u64 (sliceBase gr) →
  sonce s = false → sgroup s = Some g → 0 ≤ ssize s < 2 ^ 63 → 0 ≤ i < gsize gr →
  ∃ s' h' gr', GetIndex s i h = Done (((base s' + i) mod gsize gr, s'), h') ∧
    groups h' !! g = Some gr' ∧ gsize gr' = gsize gr ∧ slice_ready g gr' s'.
Proof.
  intros Hg Hok Hb E1 E2 Hss Hi. unfold GetIndex. rewrite E1.
  pose proof (nextSlice_run g (ssize s) h gr Hg Hok Hss Hb) as Hn.
  unfold group_ok in *. pose proof (Z.mod_pos_bound (sliceBase gr) (gsize gr)).
  exists (MkSlice true true (Some g) (ssize s) (sliceBase gr mod gsize gr)).
  eexists _, _. split; [|split].
  - erewrite bind_done.
    2:{ unfold slice_get. rewrite E2. erewrite bind_done by reflexivity.
        by erewrite bind_done by exact Hn. }
    simpl. rewrite E2. erewrite bind_done by reflexivity.
    erewrite bind_done by (unfold getGroup; simpl; by rewrite lookup_alter_eq, Hg).
    simpl. rewrite decide_False by lia.
    rewrite i64_small by (unfold is_i64; lia). by rewrite rem_pos by lia.
  - simpl. rewrite lookup_alter_eq, Hg. reflexivity.
  - simpl. split; [done|]. split_and!; [done|done|simpl; lia|simpl; lia].
Qed.

Lemma mod_shift_inj b i j n : 0 ≤ i < n → 0 ≤ j < n → (b + i) mod n = (b + j) mod n → i = j.
Proof.
  intros Hi Hj E. assert (E' : (i - j) mod n = 0).
  { replace (i - j) with ((b + i) - (b + j)) by lia. rewrite Zminus_mod, E, Z.sub_diag.
    by apply Z.mod_0_l; lia. }
  apply Z.mod_divide in E' as [k Hk]; [|lia]. assert (k = 0) by nia. subst k. lia.
Qed.

(** Within one slice two different lambda ids get different indices, inside the
    group, also when the first call chooses the base of the slice.  Where an
    eviction decides the placement, [GetIndex] is not asked. *)
Lemma GetIndex_distinct g gr s h i j :
  groups h !! g = Some gr → group_ok gr → is_u64 (sliceBase gr) →
  sonce s = false → sgroup s = Some g → 0 ≤ ssize s < 2 ^ 63 →
  0 ≤ i < gsize gr → 0 ≤ j < gsize gr → i ≠ j →
  ∃ a b s' h', GetIndex s i h = Done ((a, s'), h') ∧ GetIndex s' j h' = Done ((b, s'), h') ∧
    a ≠ b ∧ 0 ≤ a < gsize gr ∧ 0 ≤ b < gsize gr.
Proof.
  intros Hg Hok Hb E1 E2 Hss Hi Hj Hne.
  destruct (GetIndex_first g gr s i h Hg Hok Hb E1 E2 Hss Hi) as (s'&h'&gr'&Hr&Hg'&Eg&Hrd).
  exists ((base s' + i) mod gsize gr), ((base s' + j) mod gsize gr), s', h'.
  split; [exact Hr|]. unfold group_ok in Hok. split_and!.
  - rewrite <- Eg. apply (GetIndex_ready g); unfold group_ok; rewrite ?Eg; done.
  - intros E. by apply Hne, (mod_shift_inj (base s') i j (gsize gr)).
  - apply Z.mod_pos_bound. lia.
  - apply Z.mod_pos_bound. lia.
  - apply Z.mod_pos_bound. lia.
  - apply Z.mod_pos_bound. lia.
Qed.

Definition groupOf (n : Z) : SHeap :=
  MkSHeap (MkLHeap ∅ ∅ ∅ ∅ ∅ [] 0) ∅
    {[ 0%nat := MkGroup (replicate (Z.to_nat n) None) n (2 ^ 64 - 4) ]}.

Lemma GetIndex_distinct_witness : ∃ a b s' h',
  GetIndex (InitMeta 0 12 zeroSlice) 3 (groupOf 10) = Done ((a, s'), h') ∧
  GetIndex s' 7 h' = Done ((b, s'), h') ∧ a ≠ b ∧ 0 ≤ a < 10 ∧ 0 ≤ b < 10.
Proof.
  apply (GetIndex_distinct 0 (MkGroup (replicate 10 None) 10 (2 ^ 64 - 4))
    (InitMeta 0 12 zeroSlice) (groupOf 10) 3 7); unfold group_ok, is_u64; simpl;
    (reflexivity || lia).
Defined.

(** The bases of [k] objects in a row. *)
Fixpoint takeSlices (k : nat) (g : grp) (ss : Z) : M SHeap (list Z) :=
  match k with
  | O => mret []
  | S k' => b ← nextSlice g ss; l ← takeSlices k' g ss; mret (b :: l)
  end.

(** Slices are dealt round robin: the [i]-th object after a point in time
    starts [i * sliceSize] instances further, modulo the size of the group,
    as long as the 64-bit base does not wrap. *)
Theorem slices_round_robin k g ss h gr :
  groups h !! g = Some gr → group_ok gr → 0 ≤ ss < 2 ^ 63 → 0 ≤ sliceBase gr →
  sliceBase gr + Z.of_nat k * ss < 2 ^ 64 →
  ∃ h', takeSlices k g ss h =
    Done ((λ i, (sliceBase gr + Z.of_nat i * ss) mod gsize gr) <$> seq 0 k, h').
Proof.
  revert h gr. induction k as [|k IH]; intros h gr Hg Hok Hss Hb Hw; [by exists h|].
  cbn [takeSlices]. assert (Hu : is_u64 (sliceBase gr)) by (unfold is_u64; nia).
  erewrite bind_done by (by apply (nextSlice_run g ss h gr)).
  rewrite u64_small by (unfold is_u64; nia).
  destruct (IH (h <| groups ::= alter (λ x, x <| sliceBase := sliceBase gr + ss |>) g |>)
    (gr <| sliceBase := sliceBase gr + ss |>)) as [h' Hr]; simpl;
    [by rewrite lookup_alter_eq, Hg|done|done|lia|nia|].
  exists h'. simpl in Hr. erewrite bind_done by exact Hr. unfold mret, M_ret. do 2 f_equal.
  cbn [seq fmap list_fmap]. f_equal; [f_equal; lia|].
  rewrite <- (fmap_S_seq 0 k), <- list_fmap_compose. apply list_fmap_ext.
  intros i x _. simpl. f_equal. lia.
Qed.

Lemma slices_round_robin_witness : ∃ h',
  takeSlices 3 0 4 (groupOf 10 <| groups := {[ 0%nat := MkGroup [] 10 0 ]} |>) =
    Done ((λ i, (0 + Z.of_nat i * 4) mod 10) <$> seq 0 3, h').
Proof.
  apply (slices_round_robin 3 0 4 _ (MkGroup [] 10 0)); unfold group_ok; simpl;
    (reflexivity || lia).
Defined.
