(* ===== verification/Meta.v ===== *)
(** * proxy/server/meta.go: object meta, placements and the meta pool

    A [Meta] records the placement of the chunks of one object.  Metas are
    shared by pointer between the meta store, the clock arrays of the placer
    and the [evicts] field of other metas, so they live in a heap; discarded
    ones are recycled through a [sync.Pool]. *)

From Stdlib Require Import Ascii.
From stdpp Require Import pretty.
From S2P Require Import Prelude Lambdastore Group.

Abbreviation mptr := nat (only parsing).

(** ** Data *)

(** A slice of ints with its capacity. *)
Record Placement : Type := MkPlacement { pl : list Z; plcap : nat }.
Definition nilPlacement : Placement := MkPlacement [] 0.

(** placer.go: [PlacerMeta].  [suggestMap] is never used by the source.  [once]
    is [None] for nil and otherwise tells whether the [sync.Once] has run. *)
Record PlacerMeta : Type := MkPlacerMeta {
  pos : two nat;
  visited : bool;
  visitedAt : Z;
  confirmed : list bool;
  numConfirmed : Z;
  swapMap : Placement;
  evicts : option mptr;
  once : option bool
}.

Record Meta : Type := MkMeta {
  Key : string;
  NumChunks : Z;
  Placement_ : Placement;
  ChunkSize : Z;
  ResetFlag : bool;
  Deleted : bool;
  slice : Slice;
  placerMeta : option PlacerMeta;
  lastChunk : Z
}.
(** [&Meta{}] *)
Definition zeroMeta : Meta :=
  MkMeta "" 0 nilPlacement 0 false false zeroSlice None 0.

#[global] Instance Placement_eta : Eta Placement := λ p, MkPlacement (pl p) (plcap p).
#[global] Instance PlacerMeta_eta : Eta PlacerMeta := λ p,
  MkPlacerMeta (pos p) (visited p) (visitedAt p) (confirmed p) (numConfirmed p)
    (swapMap p) (evicts p) (once p).
#[global] Instance Meta_eta : Eta Meta := λ m,
  MkMeta (Key m) (NumChunks m) (Placement_ m) (ChunkSize m) (ResetFlag m) (Deleted m)
    (slice m) (placerMeta m) (lastChunk m).

(** ** Placements *)

(** [emptyPlacement] has 100 elements; slicing it further panics.  A placement
    of capacity zero is nil: [initPlacement] never makes an empty one. *)
Definition emptyPlacement_len : Z := 100.

Definition initPlacement (p : Placement) (sz : Z) : res Placement :=
  if decide (Z.of_nat (plcap p) < sz)
  then Done (MkPlacement (replicate (Z.to_nat sz) 0) (Z.to_nat sz))
  else if decide (sz < 0) then Panics (if decide (plcap p = 0%nat) then PMake else PSlice)
  else if decide (emptyPlacement_len < sz) then Panics PSlice
  else Done (MkPlacement (replicate (Z.to_nat sz) 0) (plcap p)).

Definition copyPlacement (p src : Placement) : Placement :=
  let sz := length (pl src) in
  let p := if decide (plcap p < sz)%nat then MkPlacement (replicate sz 0) sz else p in
  p <| pl := go_copy (pl p) (pl src) |>.

Definition IsPlacementEmpty (p : Placement) : bool := bool_decide (pl p = []).

(** [p[i] = v] *)
Definition setPlacement (p : Placement) (i v : Z) : Placement :=
  p <| pl ::= zinsert i v |>.

(** ** Metas *)

(** [NewMeta] on the object taken from the pool; fields it does not assign
    ([ResetFlag], [lastChunk], an unused slice) keep their pooled value. *)
Definition initMeta (m : Meta) (key : string) (numChunks chunkSize : Z) : res Meta :=
  match initPlacement (Placement_ m) numChunks with
  | Done p =>
      Done (m <| Key := key |> <| NumChunks := numChunks |> <| Placement_ := p |>
              <| ChunkSize := chunkSize |> <| Deleted := false |>
              <| slice ::= (λ s, if initialized s then zeroSlice else s) |>
              <| placerMeta := None |>)
  | Panics e => Panics e
  | Spins => Spins
  end.

(** [fmt.Sprintf("%d@%s", chunkId, m.Key)] *)
Definition ChunkKey (m : Meta) (chunkId : Z) : string :=
  pretty chunkId +:+ "@" +:+ Key m.

(** ** Chunk keys *)

Fixpoint no_at (s : string) : bool :=
  match s with
  | EmptyString => true
  | String c s' => negb (bool_decide (c = "@"%char)) && no_at s'
  end.

Lemma no_at_app s1 s2 : no_at (s1 +:+ s2) = no_at s1 && no_at s2.
Proof. induction s1 as [|c s1 IH]; simpl; [done|]. by rewrite IH, andb_assoc. Qed.

Lemma pretty_N_char_no_at x : pretty_N_char x ≠ "@"%char.
Proof. unfold pretty_N_char. by repeat case_match. Qed.

Lemma pretty_N_go_no_at x s : no_at s = true → no_at (pretty_N_go x s) = true.
Proof.
  revert s. induction (N.lt_wf_0 x) as [x _ IH]. intros s Hs.
  destruct (decide (0 < x)%N) as [Hx|Hx].
  - rewrite pretty_N_go_step by done. apply IH; [by apply N.div_lt|]. simpl.
    rewrite bool_decide_eq_false_2; [done|]. apply pretty_N_char_no_at.
  - assert (x = 0)%N as -> by lia. by rewrite pretty_N_go_0.
Qed.

Lemma pretty_Z_no_at (z : Z) : no_at (pretty z) = true.
Proof.
  assert (HN : ∀ x : N, no_at (pretty x) = true).
  { intros x. unfold pretty, pretty_N. case_decide; [done|]. by apply pretty_N_go_no_at. }
  destruct z as [|p|p]; [done|apply (HN (Npos p))|].
  change (pretty (Z.neg p)) with ("-" +:+ pretty (Npos p)). rewrite no_at_app. by rewrite HN.
Qed.

Lemma split_at s1 s2 t1 t2 :
  no_at s1 = true → no_at t1 = true →
  s1 +:+ "@" +:+ s2 = t1 +:+ "@" +:+ t2 → s1 = t1 ∧ s2 = t2.
Proof.
  revert t1. induction s1 as [|c s1 IH]; intros [|d t1]; simpl; intros Hs Ht E.
  - by injection E.
  - injection E as <- _. by rewrite bool_decide_eq_true_2 in Ht.
  - injection E as -> _. by rewrite bool_decide_eq_true_2 in Hs.
  - injection E as -> E. apply andb_true_iff in Hs as [_ Hs], Ht as [_ Ht].
    by destruct (IH t1 Hs Ht E) as [-> ->].
Qed.

(** Chunk keys never collide: two chunks have the same key exactly when
    their ids and the keys of their objects are the same. *)
Theorem ChunkKey_injective m m' c c' :
  ChunkKey m c = ChunkKey m' c' ↔ c = c' ∧ Key m = Key m'.
Proof.
  unfold ChunkKey. split; [|by intros [-> ->]].
  intros E. destruct (split_at _ _ _ _ (pretty_Z_no_at c) (pretty_Z_no_at c') E) as [Ec Ek].
  split; [by apply (inj pretty)|done].
Qed.
