(* ===== verification/Placer.v ===== *)
(** * proxy/server/placer.go and metastore.go: placement with clock eviction

    The placer decides on which instance each chunk of an object goes.  When
    the instance is full it evicts another object, found by a clock sweep over
    the primary array, and compacts that array into the secondary one as it
    sweeps.  The third-party hash map behind the meta store is an interface. *)

From stdpp Require Import pretty.
From S2P Require Import Prelude Lambdastore Group Meta.

(** ** The hash map interface (github.com/cornelk/hashmap) *)

Class HashMap (K V H : Type) : Type := {
  hm_Get : H → K → option V;
  hm_GetOrInsert : H → K → V → (V * bool) * H;
  hm_Set : H → K → V → H;
  hm_Del : H → K → H;
  hm_Iter : H → list (K * V)
}.

(** What its documentation promises: a map, whose [GetOrInsert] returns the
    existing value, or stores the given one and reports that it was absent. *)
Class HashMapLaws (K V H : Type) `{HashMap K V H} : Prop := {
  hm_get_set_eq h k v : hm_Get (hm_Set h k v) k = Some v;
  hm_get_set_ne h k k' v : k ≠ k' → hm_Get (hm_Set h k v) k' = hm_Get h k';
  hm_get_del_eq h k : hm_Get (hm_Del h k) k = None;
  hm_get_del_ne h k k' : k ≠ k' → hm_Get (hm_Del h k) k' = hm_Get h k';
  hm_goi_found h k v v' :
    hm_Get h k = Some v' → hm_GetOrInsert h k v = ((v', true), h);
  hm_goi_absent h k v :
    hm_Get h k = None → hm_GetOrInsert h k v = ((v, false), hm_Set h k v);
  hm_iter h k v : (k, v) ∈ hm_Iter h ↔ hm_Get h k = Some v;
  hm_iter_nodup h : NoDup (hm_Iter h).*1
}.

(** A concrete map with that behaviour. *)
#[global] Instance gmap_HashMap (K V : Type) `{Countable K} : HashMap K V (gmap K V) := {
  hm_Get m k := m !! k;
  hm_GetOrInsert m k v :=
    match m !! k with
    | Some v' => ((v', true), m)
    | None => ((v, false), <[k := v]> m)
    end;
  hm_Set m k v := <[k := v]> m;
  hm_Del m k := delete k m;
  hm_Iter m := map_to_list m
}.

#[global] Instance gmap_HashMapLaws (K V : Type) `{Countable K} :
  HashMapLaws K V (gmap K V).
Proof.
  split; simpl; intros.
  - apply lookup_insert_eq.
  - by apply lookup_insert_ne.
  - apply lookup_delete_eq.
  - by apply lookup_delete_ne.
  - by case_match; simplify_eq.
  - by case_match; simplify_eq.
  - apply elem_of_map_to_list.
  - apply NoDup_fst_map_to_list.
Qed.

(** ** The state of the placer *)

Record Placer : Type := MkPlacer {
  pgroup : grp;
  objects : two (list (option mptr));
  cursor : nat;
  cursorBound : nat;
  primary : bool;
  secondary : bool
}.

(** The heap the placer works on: the server heap, the metas, the pool of
    discarded metas, the placer itself and the wall clock. *)
Record PState : Type := MkPState {
  sh : SHeap;
  metas : gmap mptr Meta;
  metaPool : list mptr;
  plc : Placer;
  now : Z
}.

#[global] Instance Placer_eta : Eta Placer := λ p,
  MkPlacer (pgroup p) (objects p) (cursor p) (cursorBound p) (primary p) (secondary p).
#[global] Instance PState_eta : Eta PState := λ s,
  MkPState (sh s) (metas s) (metaPool s) (plc s) (now s).

Definition onSh {A} (c : M SHeap A) : M PState A := zoom sh (λ h s, s <| sh := h |>) c.

Definition getMeta (m : mptr) : M PState Meta := λ s, expect PNil (metas s !! m) s.
Definition modMeta (m : mptr) (f : Meta → Meta) : M PState unit :=
  modify (λ s, s <| metas ::= alter f m |>).
(** [m.placerMeta], dereferenced *)
Definition getPM (m : mptr) : M PState PlacerMeta :=
  x ← getMeta m; expect PNil (placerMeta x).
Definition modPM (m : mptr) (f : PlacerMeta → PlacerMeta) : M PState unit :=
  modMeta m (λ x, x <| placerMeta ::= fmap f |>).
Definition modPlc (f : Placer → Placer) : M PState unit := modify (λ s, s <| plc ::= f |>).

Definition primArr (p : Placer) : list (option mptr) := get2 (primary p) (objects p).
Definition secArr (p : Placer) : list (option mptr) := get2 (secondary p) (objects p).
Definition setPrim (l : list (option mptr)) (p : Placer) : Placer :=
  p <| objects ::= set2 (primary p) l |>.
Definition setSec (l : list (option mptr)) (p : Placer) : Placer :=
  p <| objects ::= set2 (secondary p) l |>.

(** ** placer.go: [PlacerMeta] *)

Definition newPlacerMeta (numChunks : nat) : PlacerMeta :=
  MkPlacerMeta (Two 0%nat 0%nat) false 0 (replicate numChunks false) 0 nilPlacement None None.

Definition confirm (m : mptr) (chunk : Z) : M PState unit :=
  pm ← getPM m;
  c ← expect PIndex (zlookup (confirmed pm) chunk);
  if (c : bool) then mret () else
  modPM m (λ x, x <| confirmed ::= zinsert chunk true |>
                  <| numConfirmed ::= (λ n, i64 (n + 1)) |>).

Definition allConfirmed (pm : PlacerMeta) : bool :=
  bool_decide (numConfirmed pm = Z.of_nat (length (confirmed pm))).

(** [postProcess] with an action on the evicted meta.  The method value that
    [GetOrInsert] returns is represented by the meta it is bound to. *)
Definition postProcess (m : mptr) (action : option mptr → M PState unit) : M PState unit :=
  pm ← getPM m;
  match once pm with
  | None => mret ()
  | Some true => mret ()
  | Some false =>
      modPM m (λ x, x <| once := Some true |>);;
      action (evicts pm);;
      modPM m (λ x, x <| evicts := None |>)
  end.

(** ** placer.go: the clock *)

Definition AddObject (m : mptr) : M PState unit :=
  s ← mget;
  _ ← getPM m;
  let len := length (primArr (plc s)) in
  modPM m (λ x, x <| pos ::= set2 (primary (plc s)) len |>
                  <| visited := true |> <| visitedAt := now s |>);;
  modPlc (λ p, setPrim (primArr p ++ [Some m]) p).

Definition TouchObject (m : mptr) : M PState unit :=
  s ← mget;
  _ ← getPM m;
  modPM m (λ x, x <| visited := true |> <| visitedAt := now s |>).

(** [m.placerMeta.pos[p.secondary] = len(p.objects[p.secondary])] and append. *)
Definition appendSecondary (m : mptr) : M PState unit :=
  s ← mget;
  _ ← getPM m;
  modPM m (λ x, x <| pos ::= set2 (secondary (plc s)) (length (secArr (plc s))) |>);;
  modPlc (λ p, setSec (secArr p ++ [Some m]) p).

Definition incCursor : M PState unit := modPlc (λ p, p <| cursor ::= S |>).

(** The body of the candidate branch: [m] is evicted in favour of [meta], which
    takes its place in the primary array. *)
Definition replaceObject (meta m : mptr) : M PState unit :=
  modMeta m (λ x, x <| Deleted := true |>);;
  mm ← getMeta m;
  pm ← getPM meta;
  modPM meta (λ x, x <| swapMap := copyPlacement (swapMap pm) (Placement_ mm) |>
                     <| evicts := Some m |>);;
  s ← mget;
  let p := plc s in
  let old := get2 (primary p) (pos pm) in
  if decide (old < length (primArr p) ∧ cursor p < length (primArr p))%nat then
    modPlc (setPrim (<[old := None]> (primArr p)));;
    modPM meta (λ x, x <| pos ::= set2 (primary p) (cursor p) |>);;
    modPlc (λ p, setPrim (<[cursor p := Some meta]> (primArr p)) p);;
    modPM meta (λ x, x <| visited := true |> <| visitedAt := now s |>)
  else throw PIndex.

(** The loop over [p.objects[p.primary][p.cursor:p.cursorBound]]. *)
Fixpoint sweep (meta : mptr) (l : list (option mptr)) : M PState bool :=
  match l with
  | [] => mret false
  | None :: l' => incCursor;; sweep meta l'
  | Some m :: l' =>
      if decide (m = meta) then
        appendSecondary m;; incCursor;; sweep meta l'
      else
        pm ← getPM m;
        if visited pm && allConfirmed pm then
          modPM m (λ x, x <| visited := false |>);;
          appendSecondary m;; incCursor;; sweep meta l'
        else if negb (visited pm) then
          replaceObject meta m;;
          appendSecondary meta;; incCursor;; mret true
        else
          appendSecondary m;; incCursor;; sweep meta l'
  end.

(** The loop over [p.objects[p.primary][p.cursor:]] that ends a sweep. *)
Fixpoint copyRest (l : list (option mptr)) : M PState unit :=
  match l with
  | [] => mret ()
  | None :: l' => copyRest l'
  | Some m :: l' => appendSecondary m;; copyRest l'
  end.

(** At the start of an iteration the secondary array is emptied down to its
    reserved slot: made anew when it is nil or too small, resliced otherwise. *)
Definition resetSecondary (l : list (option mptr)) : list (option mptr) :=
  match l with [] => [None] | _ => take 1 l end.

Definition startIteration : M PState unit :=
  modPlc (λ p, if decide (cursor p = 0%nat)
               then setSec (resetSecondary (secArr p)) p
                      <| cursorBound := length (primArr p) |> <| cursor := 1%nat |>
               else p).

Definition finishIteration : M PState unit :=
  s ← mget;
  copyRest (drop (cursor (plc s)) (primArr (plc s)));;
  modPlc (λ p, p <| cursor := 0%nat |>
                 <| primary := secondary p |> <| secondary := primary p |>).

Definition NextAvailableObject (meta : mptr) : M PState bool :=
  startIteration;;
  s ← mget;
  let p := plc s in
  if decide (cursor p ≤ cursorBound p ∧ cursorBound p ≤ length (primArr p))%nat then
    found ← sweep meta (drop (cursor p) (take (cursorBound p) (primArr p)));
    (if (found : bool) then mret () else finishIteration);;
    mret found
  else throw PSlice.

(** [for !p.NextAvailableObject(meta) {}]; [fuel] bounds the calls. *)
Fixpoint evictLoop (fuel : nat) (meta : mptr) : M PState unit :=
  match fuel with
  | O => λ _, Spins
  | S n => found ← NextAvailableObject meta;
           if (found : bool) then mret () else evictLoop n meta
  end.

(** ** placer.go: [GetOrInsert] under the placer lock *)

(** The size of the [i]-th instance of the victim's placement is corrected. *)
Definition swapSize (meta : mptr) (i : nat) (tbe : Z) : M PState unit :=
  s ← mget;
  ip ← onSh (InstanceAt (pgroup (plc s)) tbe);
  mm ← getMeta meta;
  pm ← getPM meta;
  c ← expect PIndex (confirmed pm !! i);
  e ← expect PNil (evicts pm);
  ev ← getMeta e;
  onSh (onLs (modInst ip (λ x, x <| imeta ::=
    (if (c : bool) then DecreaseSize (ChunkSize ev)
     else IncreaseSize (i64 (ChunkSize mm - ChunkSize ev))) |>))).

Fixpoint swapSizes (meta : mptr) (i : nat) (l : list Z) : M PState unit :=
  match l with
  | [] => mret ()
  | tbe :: l' => swapSize meta i tbe;; swapSizes meta (S i) l'
  end.

(** [meta.Placement[chunk] = v] *)
Definition assignPlacement (m : mptr) (chunk v : Z) : M PState unit :=
  mm ← getMeta m;
  _ ← expect PIndex (zlookup (pl (Placement_ mm)) chunk);
  modMeta m (λ x, x <| Placement_ ::= (λ p, setPlacement p chunk v) |>).

Definition GOIResult : Type := mptr * bool * option mptr.

(** The chunk goes where the slice assigns it. *)
Definition placeChunk (meta : mptr) (chunk assigned : Z) (ip : iptr) : M PState unit :=
  assignPlacement meta chunk assigned;;
  confirm meta chunk;;
  s ← mget;
  pm ← getPM meta;
  (if decide (get2 (primary (plc s)) (pos pm) = 0%nat) then AddObject meta else mret ());;
  mm ← getMeta meta;
  onSh (onLs (modInst ip (λ x, x <| imeta ::= IncreaseSize (ChunkSize mm) |>))).

(** The chunk takes the place of the victim's: [meta.Placement[chunk] =
    meta.placerMeta.swapMap[chunk]] and confirmation. *)
Definition placeSwapped (meta : mptr) (chunk : Z) : M PState unit :=
  pm ← getPM meta;
  v ← expect PIndex (zlookup (pl (swapMap pm)) chunk);
  assignPlacement meta chunk v;;
  confirm meta chunk.

Definition evictAndPlace (fuel : nat) (meta : mptr) (chunk : Z) : M PState unit :=
  evictLoop fuel meta;;
  pm ← getPM meta;
  swapSizes meta 0 (pl (swapMap pm));;
  placeSwapped meta chunk;;
  modPM meta (λ x, x <| once := Some false |>).

(** From [p.mu.Lock()] to the end. *)
Definition GetOrInsert_locked (fuel : nat) (meta : mptr) (got : bool) (chunk lambdaId : Z) :
    M PState GOIResult :=
  mm ← getMeta meta;
  if Deleted mm then mret (meta, got, None) else
  pm ← getPM meta;
  if negb (IsPlacementEmpty (swapMap pm)) then
    placeSwapped meta chunk;; mret (meta, got, None)
  else
    '(assigned, sl) ← onSh (GetIndex (slice mm) lambdaId);
    modMeta meta (λ x, x <| slice := sl |>);;
    s ← mget;
    ip ← onSh (InstanceAt (pgroup (plc s)) assigned);
    ins ← onSh (onLs (getInst ip));
    if decide (u64 (Size (imeta ins) + u64 (ChunkSize mm)) < Capacity (imeta ins)) then
      placeChunk meta chunk assigned ip;; mret (meta, got, None)
    else
      evictAndPlace fuel meta chunk;; mret (meta, got, Some meta).

(** From [meta.mu.Lock()] to [p.mu.Lock()]; [true] when the function returns
    before the placer lock is taken. *)
Definition GetOrInsert_enter (meta : mptr) (chunk : Z) : M PState bool :=
  modMeta meta (λ x, if Deleted x then x <| placerMeta := None |> <| Deleted := false |>
                     else x);;
  mm ← getMeta meta;
  match placerMeta mm with
  | Some pm =>
      c ← expect PIndex (zlookup (confirmed pm) chunk);
      if (c : bool) then modMeta meta (λ x, x <| ResetFlag := true |>);; mret true
      else mret false
  | None =>
      modMeta meta (λ x, x <| placerMeta :=
        Some (newPlacerMeta (length (pl (Placement_ x)))) |>);;
      mret false
  end.

(** [Meta.close]: back to the pool. *)
Definition close (m : mptr) : M PState unit := modify (λ s, s <| metaPool ::= cons m |>).

(** [metaPool.Get()]: the pool hands out any of its objects, or a new one. *)
Definition metaPool_Get (pick : option nat) : M PState mptr := λ s,
  match pick ≫= (λ i, metaPool s !! i) with
  | Some m => Done (m, s <| metaPool ::= filter (λ x, x ≠ m) |>)
  | None =>
      let m := fresh (dom (metas s)) in
      Done (m, s <| metas ::= <[m := zeroMeta]> |>)
  end.

(** [Placer.NewMeta], through [NewMeta]. *)
Definition NewMeta (pick : option nat) (key : string)
    (sliceSize numChunks chunk lambdaId chunkSize : Z) : M PState mptr :=
  m ← metaPool_Get pick;
  x ← getMeta m;
  x' ← (λ s, match initMeta x key numChunks chunkSize with
             | Done y => Done (y, s) | Panics e => Panics e | Spins => Spins end);
  s ← mget;
  modMeta m (λ _, x' <| slice ::= InitMeta (pgroup (plc s)) sliceSize |>);;
  assignPlacement m chunk lambdaId;;
  modMeta m (λ y, y <| lastChunk := chunk |>);;
  mret m.

(** ** The placer with its meta store *)

Section store.
Context {H : Type} `{HashMap string mptr H}.

(** The placer state with [store.metaMap]. *)
Definition Store : Type := PState * H.
Definition onPS {A} (c : M PState A) : M Store A := zoom fst (λ p s, (p, s.2)) c.

(** metastore.go *)
Definition MetaStore_GetOrInsert (key : string) (insert : mptr) : M Store (mptr * bool) :=
  λ s, let '(r, h) := hm_GetOrInsert s.2 key insert in Done (r, (s.1, h)).
Definition MetaStore_Get (key : string) : M Store (option mptr) :=
  gets (λ s, hm_Get s.2 key).

(** The part of [GetOrInsert] before [meta.mu.Lock()]: the chunk and the lambda
    it asks for, and the meta of the key, with [got]. *)
Definition GetOrInsert_store (key : string) (newMeta : mptr) :
    M Store (mptr * bool * Z * Z) :=
  nm ← onPS (getMeta newMeta);
  let chunk := lastChunk nm in
  lambdaId ← expect PIndex (zlookup (pl (Placement_ nm)) chunk);
  '(meta, got) ← MetaStore_GetOrInsert key newMeta;
  (if (got : bool) then onPS (close newMeta) else mret ());;
  mret (meta, got, chunk, lambdaId).

Definition GetOrInsert (fuel : nat) (key : string) (newMeta : mptr) : M Store GOIResult :=
  '(meta, got, chunk, lambdaId) ← GetOrInsert_store key newMeta;
  early ← onPS (GetOrInsert_enter meta chunk);
  if (early : bool) then mret (meta, got, None)
  else onPS (GetOrInsert_locked fuel meta got chunk lambdaId).

(** [Placer.Get] up to the placer lock: [inl] of what it returns before it
    ([None] for [(nil, false)]), or [inr] of the meta it goes on with. *)
Definition Get_enter (key : string) (chunk : Z) : M Store (option mptr + mptr) :=
  found ← MetaStore_Get key;
  match found with
  | None => mret (inl None)
  | Some m =>
      mm ← onPS (getMeta m);
      if Deleted mm then mret (inl (Some m)) else
      match placerMeta mm with
      | None => mret (inl None)
      | Some pm =>
          c ← expect PIndex (zlookup (confirmed pm) chunk);
          if negb c then mret (inl None) else mret (inr m)
      end
  end.

(** ... and under it, where the object may have been evicted meanwhile. *)
Definition Get_locked (m : mptr) : M PState (option mptr) :=
  mm ← getMeta m;
  if Deleted mm then mret (Some m) else TouchObject m;; mret (Some m).

Definition Get (key : string) (chunk : Z) : M Store (option mptr) :=
  r ← Get_enter key chunk;
  match r with
  | inl o => mret o
  | inr m => onPS (Get_locked m)
  end.
End store.
Arguments Store H : clear implicits.

Definition NewPlacer (g : grp) : Placer := MkPlacer g (Two [None] []) 0 0 false true.

(** ** placer.go: dumps *)

(** [strings.Join] *)
Fixpoint join (sep : string) (l : list string) : string :=
  match l with
  | [] => ""
  | [x] => x
  | x :: l' => x +:+ sep +:+ join sep l'
  end.

Definition dumpElem (o : option mptr) : M PState string :=
  match o with
  | None => mret "nil"
  | Some m =>
      pm ← getPM m; x ← getMeta m;
      mret (Key x +:+ "-" +:+ (if visited pm then "1" else "0"))
  end.

Fixpoint dumpElems (l : list (option mptr)) : M PState (list string) :=
  match l with
  | [] => mret []
  | o :: l' => x ← dumpElem o; xs ← dumpElems l'; mret (x :: xs)
  end.

Definition dump (ms : list (option mptr)) : M PState string :=
  match ms with
  | [] => mret ""
  | _ :: l => xs ← dumpElems l; mret (join "," xs)
  end.

Definition dumpPlacer (args : list bool) : M PState string :=
  s ← mget;
  match args with
  | true :: _ => dump (secArr (plc s))
  | _ => dump (primArr (plc s))
  end.
