(* ===== verification/Clock.v ===== *)
(** * The clock eviction of the placer refines a second-chance queue

    [Clock] is the abstract state: the objects still to be examined in this
    iteration, those already passed, and those added since it began.  The
    placer's two arrays, cursor, bound and position fields implement it; [WF]
    is the invariant under which they do. *)

From S2P Require Import Prelude Lambdastore Group Meta Placer.

(** ** The specification *)

Record Entry : Type := MkEntry { eptr : mptr; evisited : bool; ecomplete : bool }.

Record Clock : Type := MkClock {
  ahead : list Entry;
  passed : list Entry;
  arrived : list Entry;
  sweeping : bool
}.

Definition others (meta : mptr) (l : list Entry) : list Entry :=
  filter (λ e, eptr e ≠ meta) l.
Definition present (meta : mptr) (l : list Entry) : Prop := Exists (λ e, eptr e = meta) l.
#[global] Instance present_dec meta l : Decision (present meta l).
Proof. unfold present. apply _. Defined.

Inductive sweep_result : Type :=
  | Victim (v : mptr) (ahead' passed' : list Entry)
  | Exhausted (passed' : list Entry)
  | Repeated.

(** One pass of the hand, evicting for [me]: a visited complete object gets its
    second chance, an incomplete one or [me] itself is passed over, and the
    first unvisited one is the victim.  [Repeated]: the hand had already
    passed [me] when it found a victim. *)
Fixpoint aSweep (me : Entry) (l acc : list Entry) : sweep_result :=
  match l with
  | [] => Exhausted acc
  | e :: l' =>
      if decide (eptr e = eptr me) then aSweep me l' (acc ++ [e])
      else if evisited e && ecomplete e then
        aSweep me l' (acc ++ [MkEntry (eptr e) false (ecomplete e)])
      else if negb (evisited e) then
        if decide (present (eptr me) acc) then Repeated
        else Victim (eptr e) (others (eptr me) l')
               (acc ++ [MkEntry (eptr me) true (ecomplete me)])
      else aSweep me l' (acc ++ [e])
  end.

Inductive next_result : Type :=
  | Evicted (v : mptr) (c : Clock)
  | NotFound (c : Clock)
  | Duplicated.

Definition aNext (me : Entry) (c : Clock) : next_result :=
  match aSweep me (ahead c) (passed c) with
  | Victim v l acc => Evicted v (MkClock l acc (others (eptr me) (arrived c)) true)
  | Exhausted acc => NotFound (MkClock (acc ++ arrived c) [] [] false)
  | Repeated => Duplicated
  end.

Definition aAdd (e : Entry) (c : Clock) : Clock :=
  if sweeping c then MkClock (ahead c) (passed c) (arrived c ++ [e]) true
  else MkClock (ahead c ++ [e]) (passed c) (arrived c) false.

(** ** The representation *)

Definition compact {A} (l : list (option A)) : list A := omap id l.

Definition entry (s : PState) (m : mptr) : option Entry :=
  x ← metas s !! m; pm ← placerMeta x; Some (MkEntry m (visited pm) (allConfirmed pm)).
Definition entries (s : PState) (l : list (option mptr)) : list Entry :=
  omap (entry s) (compact l).

Definition abs (s : PState) : Clock :=
  let p := plc s in
  if decide (cursor p = 0%nat) then MkClock (entries s (primArr p)) [] [] false
  else MkClock (entries s (drop (cursor p) (take (cursorBound p) (primArr p))))
         (entries s (take (cursor p) (primArr p)))
         (entries s (drop (cursorBound p) (primArr p))) true.

(** A meta the placer manages: not evicted, with its placer part. *)
Definition live (s : PState) (m : mptr) (x : Meta) (pm : PlacerMeta) : Prop :=
  metas s !! m = Some x ∧ placerMeta x = Some pm ∧ Deleted x = false.

Record WF (s : PState) : Prop := {
  wf_sides : secondary (plc s) = negb (primary (plc s));
  wf_slot0 : primArr (plc s) !! 0%nat = Some None;
  wf_sec0 : secArr (plc s) = [] ∨ secArr (plc s) !! 0%nat = Some None;
  wf_cursor : cursor (plc s) = 0%nat ∨
    (1 ≤ cursor (plc s) ≤ cursorBound (plc s) ≤ length (primArr (plc s)))%nat;
  wf_prim i m : primArr (plc s) !! i = Some (Some m) →
    ∃ x pm, live s m x pm ∧ get2 (primary (plc s)) (pos pm) = i ∧
      (visited pm = false → allConfirmed pm = true);
  wf_sec : cursor (plc s) ≠ 0%nat →
    secArr (plc s) = None :: (Some <$> compact (take (cursor (plc s)) (primArr (plc s))));
  wf_secpos i m : cursor (plc s) ≠ 0%nat → secArr (plc s) !! i = Some (Some m) →
    ∃ x pm, live s m x pm ∧ get2 (secondary (plc s)) (pos pm) = i;
  wf_pos m x pm : live s m x pm →
    pos pm = Two 0%nat 0%nat ∨
    primArr (plc s) !! get2 (primary (plc s)) (pos pm) = Some (Some m)
}.

(** ** Lists with empty slots *)

Section compact.
Context {A : Type}.
Implicit Types l : list (option A).

Lemma compact_app l1 l2 : compact (l1 ++ l2) = compact l1 ++ compact l2.
Proof. apply omap_app. Qed.

Lemma elem_of_compact l m : m ∈ compact l ↔ ∃ i, l !! i = Some (Some m).
Proof.
  unfold compact. rewrite list_elem_of_omap. split.
  - intros (o & Ho & E). apply list_elem_of_lookup in Ho as [i Hi].
    exists i. rewrite Hi. by f_equal.
  - intros [i Hi]. exists (Some m). split; [|done].
    apply list_elem_of_lookup. eauto.
Qed.

Lemma compact_Some_fmap (l : list A) : compact (Some <$> l) = l.
Proof. induction l; simpl; f_equal; auto. Qed.

Lemma take_S_compact l i m :
  l !! i = Some (Some m) → compact (take (S i) l) = compact (take i l) ++ [m].
Proof. intros E. by rewrite (take_S_r _ _ _ E), compact_app. Qed.

Lemma take_S_compact_none l i :
  l !! i = Some None → compact (take (S i) l) = compact (take i l).
Proof. intros E. rewrite (take_S_r _ _ _ E), compact_app. apply app_nil_r. Qed.
End compact.

Lemma compact_unset (l : list (option mptr)) i m :
  (∀ j, l !! j = Some (Some m) → j = i) →
  (l !! i = Some (Some m) ∨ l !! i = Some None ∨ l !! i = None) →
  compact (<[i := None]> l) = filter (λ y, y ≠ m) (compact l).
Proof.
  revert i. induction l as [|o l IH]; intros i Huniq Hi; [done|].
  destruct i as [|i]; simpl.
  - assert (Hnot : filter (λ y, y ≠ m) (compact l) = compact l).
    { apply filter_all. intros y Hy ->. apply elem_of_compact in Hy as [k Hk].
      specialize (Huniq (S k) Hk). done. }
    destruct Hi as [[= ->]|[[= ->]|[=]]]; unfold compact in *; simpl.
    + rewrite filter_cons_False by (intros ?; done). by symmetry.
    + by symmetry.
  - unfold compact in *. simpl. rewrite (IH i); [|intros j Hj|done].
    + destruct o as [y|]; simpl; [|done]. rewrite filter_cons_True; [done|].
      intros ->. specialize (Huniq O eq_refl). done.
    + specialize (Huniq (S j) Hj). lia.
Qed.

Lemma lookup_segment {A} (l : list A) a b i :
  drop a (take b l) !! i = if decide (a + i < b)%nat then l !! (a + i)%nat else None.
Proof. rewrite lookup_drop, lookup_take. done. Qed.

Lemma segment_insert {A} (l : list A) a b i x :
  drop a (take b (<[i := x]> l)) =
  if decide (a ≤ i < b)%nat then <[(i - a)%nat := x]> (drop a (take b l))
  else drop a (take b l).
Proof.
  apply list_eq. intros k. case_decide as Hi.
  - rewrite list_lookup_insert, !lookup_segment, list_lookup_insert, length_drop, length_take.
    repeat case_decide; (done || lia || (f_equal; lia)).
  - rewrite !lookup_segment. case_decide; [|done]. apply list_lookup_insert_ne. lia.
Qed.

Lemma compact_segment_unset (l : list (option mptr)) a b i m :
  (∀ j, l !! j = Some (Some m) → j = i) →
  (l !! i = Some (Some m) ∨ l !! i = Some None) →
  compact (drop a (take b (<[i := None]> l))) =
  filter (λ y, y ≠ m) (compact (drop a (take b l))).
Proof.
  intros Hu Hi. rewrite segment_insert. case_decide as Hr.
  - apply compact_unset.
    + intros j. rewrite lookup_segment. case_decide; [|done]. intros Hj%Hu. lia.
    + rewrite lookup_segment. rewrite decide_True by lia.
      replace (a + (i - a))%nat with i by lia. tauto.
  - symmetry. apply filter_all. intros y Hy ->.
    apply elem_of_compact in Hy as [j Hj]. rewrite lookup_segment in Hj.
    case_decide; [|done]. apply Hu in Hj. lia.
Qed.

(** ** Running the steps of the placer *)

(** [modPM] as a function on states. *)
Definition updPM (m : mptr) (f : PlacerMeta → PlacerMeta) (s : PState) : PState :=
  s <| metas ::= alter (λ x, x <| placerMeta ::= fmap f |>) m |>.
Definition pushSec (m : mptr) (s : PState) : PState :=
  updPM m (λ x, x <| pos ::= set2 (secondary (plc s)) (length (secArr (plc s))) |>) s
    <| plc ::= (λ p, setSec (secArr p ++ [Some m]) p) |>.
Definition advance (s : PState) : PState := s <| plc ::= (λ p, p <| cursor ::= S |>) |>.

Definition hasPM (s : PState) (m : mptr) (x : Meta) (pm : PlacerMeta) : Prop :=
  metas s !! m = Some x ∧ placerMeta x = Some pm.

Section run.
Implicit Types (s : PState) (m : mptr) (x : Meta) (pm : PlacerMeta).

Lemma getPM_run s m x pm : hasPM s m x pm → getPM m s = Done (pm, s).
Proof.
  intros [E1 E2]. unfold getPM, getMeta, mbind, M_bind, expect. by rewrite E1, E2.
Qed.

Lemma live_hasPM s m x pm : live s m x pm → hasPM s m x pm.
Proof. intros (?&?&?). by split. Qed.

Lemma bind_getPM {B} s m x pm (f : PlacerMeta → M PState B) :
  hasPM s m x pm → (getPM m ≫= f) s = f pm s.
Proof. intros H. by apply bind_done, (getPM_run s m x). Qed.

Lemma appendSecondary_run s m x pm :
  hasPM s m x pm → appendSecondary m s = Done ((), pushSec m s).
Proof.
  intros Hm. unfold appendSecondary. erewrite bind_done by reflexivity.
  by rewrite (bind_getPM s m x pm).
Qed.

Lemma updPM_lookup_eq s m x pm f :
  hasPM s m x pm → hasPM (updPM m f s) m (x <| placerMeta := Some (f pm) |>) (f pm).
Proof.
  intros [E1 E2]. split; [|done]. unfold updPM; simpl.
  rewrite lookup_alter_eq, E1. simpl. by rewrite E2.
Qed.

Lemma updPM_lookup_ne s m m' f :
  m ≠ m' → metas (updPM m f s) !! m' = metas s !! m'.
Proof. intros ?. unfold updPM; simpl. by apply lookup_alter_ne. Qed.

(** Reading a meta after an update of some placer part. *)
Lemma updPM_hasPM_inv s m m' f x' pm' :
  hasPM (updPM m f s) m' x' pm' →
  ∃ x pm, hasPM s m' x pm ∧ Deleted x' = Deleted x ∧ Placement_ x' = Placement_ x ∧
    ChunkSize x' = ChunkSize x ∧
    pm' = if decide (m = m') then f pm else pm.
Proof.
  intros [E1 E2]. unfold updPM in E1; simpl in E1.
  destruct (decide (m = m')) as [<-|Hne].
  - rewrite lookup_alter_eq in E1. destruct (metas s !! m) as [x|] eqn:Ex; [|done].
    simpl in E1. simplify_eq. simpl in E2.
    destruct (placerMeta x) as [pm|] eqn:Ep; [|done]. simpl in E2. simplify_eq.
    by exists x, pm.
  - rewrite lookup_alter_ne in E1 by done. exists x', pm'. done.
Qed.

Lemma updPM_live s m m' f x pm :
  live s m' x pm → ∃ x', live (updPM m f s) m' x' (if decide (m = m') then f pm else pm).
Proof.
  intros (E1&E2&E3). case_decide as Hm.
  - subst m'. destruct (updPM_lookup_eq s m x pm f) as [??]; [done|].
    eexists. by repeat split.
  - exists x. repeat split; [|done..]. by rewrite updPM_lookup_ne.
Qed.

Lemma updPM_live_inv s m m' f x' pm' :
  live (updPM m f s) m' x' pm' →
  ∃ x pm, live s m' x pm ∧ pm' = if decide (m = m') then f pm else pm.
Proof.
  intros (E1&E2&E3). destruct (updPM_hasPM_inv s m m' f x' pm') as (x&pm&[??]&E&_&_&->);
    [done|]. exists x, pm. repeat split; congruence.
Qed.

Lemma entry_updPM_ne s m m' f : m ≠ m' → entry (updPM m f s) m' = entry s m'.
Proof. intros ?. unfold entry. by rewrite updPM_lookup_ne. Qed.

Lemma entry_updPM s m m' f :
  (∀ pm, visited (f pm) = visited pm ∧ allConfirmed (f pm) = allConfirmed pm) →
  entry (updPM m f s) m' = entry s m'.
Proof.
  intros Hf. destruct (decide (m = m')) as [<-|]; [|by apply entry_updPM_ne].
  unfold entry, updPM; simpl. rewrite lookup_alter_eq.
  destruct (metas s !! m) as [x|]; [|done]. simpl.
  destruct (placerMeta x) as [pm|]; [|done]. simpl.
  by destruct (Hf pm) as [-> ->].
Qed.

Lemma entries_ext s s' l :
  (∀ m, m ∈ compact l → entry s' m = entry s m) → entries s' l = entries s l.
Proof.
  unfold entries. generalize (compact l). intros k Hk.
  induction k as [|m k IH]; [done|]. csimpl. rewrite Hk by left.
  rewrite IH; [done|]. intros m' Hm'. apply Hk. by right.
Qed.

Lemma entries_app s l1 l2 : entries s (l1 ++ l2) = entries s l1 ++ entries s l2.
Proof. unfold entries. by rewrite compact_app, omap_app. Qed.

Lemma entries_others s l me :
  others me (entries s l) = omap (entry s) (filter (λ y, y ≠ me) (compact l)).
Proof.
  unfold entries, others. generalize (compact l). intros k.
  induction k as [|m k IH]; [done|]. csimpl.
  assert (He : ∀ e, entry s m = Some e → eptr e = m).
  { unfold entry. destruct (metas s !! m) as [x|]; [|done]. simpl.
    destruct (placerMeta x); [|done]. simpl. by intros e [= <-]. }
  destruct (decide (m = me)) as [->|Hm].
  - rewrite (filter_cons_False _ me) by (intros ?; done).
    destruct (entry s me) as [e|]; [|done].
    rewrite filter_cons_False by (rewrite (He e) by done; intros ?; done). done.
  - rewrite (filter_cons_True _ m) by done. csimpl.
    destruct (entry s m) as [e|]; [|done].
    rewrite filter_cons_True by (by rewrite (He e)). by rewrite IH.
Qed.

Lemma entry_hasPM s m x pm :
  hasPM s m x pm → entry s m = Some (MkEntry m (visited pm) (allConfirmed pm)).
Proof. intros [E1 E2]. unfold entry. by rewrite E1; simpl; rewrite E2. Qed.

Lemma abs_sweeping s :
  cursor (plc s) ≠ 0%nat →
  abs s = MkClock
    (entries s (drop (cursor (plc s)) (take (cursorBound (plc s)) (primArr (plc s)))))
    (entries s (take (cursor (plc s)) (primArr (plc s))))
    (entries s (drop (cursorBound (plc s)) (primArr (plc s)))) true.
Proof. intros H. unfold abs. by rewrite decide_False. Qed.
End run.

(** Uniqueness: an object sits at one index of the primary array. *)
Lemma wf_unique s i j m :
  WF s → primArr (plc s) !! i = Some (Some m) → primArr (plc s) !! j = Some (Some m) → i = j.
Proof.
  intros Hwf Hi Hj.
  destruct (wf_prim s Hwf _ _ Hi) as (x&pm&(E1&E2&_)&<-&_).
  destruct (wf_prim s Hwf _ _ Hj) as (x'&pm'&(E1'&E2'&_)&<-&_).
  congruence.
Qed.

(** ** The arrays of a placer *)

Section arrays.
Implicit Types (p : Placer) (l : list (option mptr)).

Lemma primArr_setSec l p :
  secondary p = negb (primary p) → primArr (setSec l p) = primArr p.
Proof. intros E. unfold primArr, setSec. simpl. rewrite E. by destruct (primary p). Qed.

Lemma secArr_setSec l p : secArr (setSec l p) = l.
Proof. unfold secArr, setSec. simpl. apply get2_set2_eq. Qed.

Lemma secArr_setPrim l p :
  secondary p = negb (primary p) → secArr (setPrim l p) = secArr p.
Proof. intros E. unfold secArr, setPrim. simpl. rewrite E. by destruct (primary p). Qed.

Lemma primArr_setPrim l p : primArr (setPrim l p) = l.
Proof. unfold primArr, setPrim. simpl. apply get2_set2_eq. Qed.
End arrays.

Lemma pushSec_plc s m :
  WF s →
  primArr (plc (pushSec m s)) = primArr (plc s) ∧
  secArr (plc (pushSec m s)) = secArr (plc s) ++ [Some m] ∧
  primary (plc (pushSec m s)) = primary (plc s) ∧
  secondary (plc (pushSec m s)) = secondary (plc s) ∧
  cursor (plc (pushSec m s)) = cursor (plc s) ∧
  cursorBound (plc (pushSec m s)) = cursorBound (plc s).
Proof.
  intros Hwf. unfold pushSec; simpl.
  rewrite primArr_setSec by apply (wf_sides s Hwf). by rewrite secArr_setSec.
Qed.

(** The hand passes the object under the cursor. *)
Section pass.
Context (s : PState) (m : mptr) (Hwf : WF s).
Hypothesis (Hcur : cursor (plc s) ≠ 0%nat) (Hlt : (cursor (plc s) < cursorBound (plc s))%nat).
Hypothesis Hat : primArr (plc s) !! cursor (plc s) = Some (Some m).
Let s' := advance (pushSec m s).

Lemma pass_secArr :
  secArr (plc s') =
    None :: (Some <$> compact (take (S (cursor (plc s))) (primArr (plc s)))).
Proof.
  change (secArr (plc s')) with (secArr (plc (pushSec m s))).
  destruct (pushSec_plc s m Hwf) as (_ & -> & _). rewrite (wf_sec s Hwf Hcur).
  by rewrite (take_S_compact _ _ m), fmap_app by done.
Qed.

Lemma pass_live m' x pm :
  live s m' x pm → ∃ x' pm', live s' m' x' pm' ∧
    get2 (primary (plc s)) (pos pm') = get2 (primary (plc s)) (pos pm) ∧
    visited pm' = visited pm ∧ allConfirmed pm' = allConfirmed pm ∧
    (m' ≠ m → pos pm' = pos pm) ∧
    (m' = m → get2 (secondary (plc s)) (pos pm') = length (secArr (plc s))).
Proof.
  intros Hl.
  destruct (updPM_live s m m' (λ x, x <| pos ::= set2 (secondary (plc s)) (length (secArr (plc s))) |>) x pm Hl) as [x' Hx'].
  exists x'. eexists. split; [exact Hx'|]. case_decide; subst; simpl; [|naive_solver].
  rewrite get2_set2_eq, get2_set2_ne by (rewrite (wf_sides s Hwf); by destruct (primary _)).
  naive_solver.
Qed.

Lemma pass_live_inv m' x' pm' :
  live s' m' x' pm' → ∃ x pm, live s m' x pm ∧
    get2 (primary (plc s)) (pos pm') = get2 (primary (plc s)) (pos pm) ∧
    (m' ≠ m → pos pm' = pos pm).
Proof.
  intros Hl. destruct (updPM_live_inv s m m'
    (λ x, x <| pos ::= set2 (secondary (plc s)) (length (secArr (plc s))) |>) x' pm' Hl)
    as (x&pm&?&->).
  exists x, pm. case_decide; subst; simpl; [|naive_solver].
  rewrite get2_set2_ne by (rewrite (wf_sides s Hwf); by destruct (primary _)).
  naive_solver.
Qed.

Lemma pass_wf : WF s'.
Proof.
  destruct (pushSec_plc s m Hwf) as (Ep & Es & E1 & E2 & E3 & E4).
  assert (Pp : primArr (plc s') = primArr (plc s)) by exact Ep.
  assert (Ps : secArr (plc s') = secArr (plc s) ++ [Some m]) by exact Es.
  pose proof (wf_cursor s Hwf) as Hc.
  split; change (primary (plc s')) with (primary (plc s)) in *;
    change (secondary (plc s')) with (secondary (plc s)) in *; rewrite ?Pp.
  - apply (wf_sides s Hwf).
  - apply (wf_slot0 s Hwf).
  - right. rewrite pass_secArr. done.
  - right. unfold s'; simpl. lia.
  - intros i m' Hi. destruct (wf_prim s Hwf i m' Hi) as (x&pm&Hl&Hpos&Hv).
    destruct (pass_live m' x pm Hl) as (x'&pm'&Hl'&Epos&Ev&Ea&_).
    exists x', pm'. rewrite Ev, Ea. split_and!; [done|congruence|done].
  - intros _. apply pass_secArr.
  - intros i m' _ Hi. rewrite Ps in Hi. apply lookup_app_Some in Hi as [Hi|[Hge Hi]].
    + destruct (wf_secpos s Hwf i m' Hcur Hi) as (x&pm&Hl&Hpos).
      assert (m' ≠ m).
      { intros ->. rewrite (wf_sec s Hwf Hcur) in Hi. destruct i as [|i]; [done|].
        simpl in Hi. apply list_lookup_fmap_Some in Hi as (m''&[= <-]&Hi).
        apply list_elem_of_lookup_2, elem_of_compact in Hi as [k Hk].
        apply lookup_take_Some in Hk as [Hk Hk'].
        pose proof (wf_unique s _ _ _ Hwf Hk Hat). lia. }
      destruct (pass_live m' x pm Hl) as (x'&pm'&Hl'&_&_&_&Hne&_).
      exists x', pm'. rewrite Hne by done. done.
    + apply list_lookup_singleton_Some in Hi as [Hi [= <-]].
      destruct (wf_prim s Hwf _ m Hat) as (x&pm&Hl&_).
      destruct (pass_live m x pm Hl) as (x'&pm'&Hl'&_&_&_&_&Heq).
      exists x', pm'. split; [done|]. rewrite Heq by done. lia.
  - intros m' x' pm' Hl'. destruct (pass_live_inv m' x' pm' Hl') as (x&pm&Hl&Epos&Hne).
    destruct (wf_pos s Hwf m' x pm Hl) as [H0|Hin].
    + left. rewrite Hne; [done|]. intros ->.
      destruct (wf_prim s Hwf _ m Hat) as (y&pm2&Hl2&Hp2&_).
      destruct Hl as (?&?&_), Hl2 as (?&?&_). simplify_eq.
      rewrite H0 in Hp2. destruct (primary (plc s)); simpl in Hp2; lia.
    + right. by rewrite Epos.
Qed.

Lemma pass_abs e :
  entry s m = Some e →
  ∃ U, ahead (abs s) = e :: U ∧
    abs s' = MkClock U (passed (abs s) ++ [e]) (arrived (abs s)) true.
Proof.
  intros He. destruct (pushSec_plc s m Hwf) as (Ep & Es & E1 & E2 & E3 & E4).
  assert (Hent : ∀ l, entries s' l = entries s l).
  { intros l. apply entries_ext. intros m' _. unfold s'.
    apply (entry_updPM s m m'). by intros pm. }
  rewrite (abs_sweeping s Hcur), (abs_sweeping s') by done.
  assert (Pp : primArr (plc s') = primArr (plc s)) by (unfold s', advance; simpl; exact Ep).
  rewrite !Hent, Pp. unfold s'; simpl.
  eexists. split.
  - rewrite (drop_S _ (Some m)); [|by rewrite lookup_take_lt].
    unfold entries. csimpl. by rewrite He.
  - f_equal. unfold entries. rewrite (take_S_compact _ _ m), omap_app by done.
    csimpl. by rewrite He.
Qed.
End pass.

(** An empty slot is skipped. *)
Lemma skip_wf_abs s :
  WF s → cursor (plc s) ≠ 0%nat → (cursor (plc s) < cursorBound (plc s))%nat →
  primArr (plc s) !! cursor (plc s) = Some None →
  WF (advance s) ∧ abs (advance s) = abs s.
Proof.
  intros Hwf Hcur Hlt Hat. pose proof (wf_cursor s Hwf). split.
  - destruct Hwf as [h1 h2 h3 h4 h5 h6 h7 h8].
    split; [exact h1|exact h2|exact h3| |exact h5| |exact (λ i m _, h7 i m Hcur)|exact h8].
    + right. unfold advance, primArr in *; simpl in *. lia.
    + intros _. simpl. rewrite take_S_compact_none by done. exact (h6 Hcur).
  - rewrite !abs_sweeping by done.
    change (primArr (plc (advance s))) with (primArr (plc s)). simpl.
    rewrite (drop_S (take (cursorBound (plc s)) (primArr (plc s))) None (cursor (plc s)))
      by (by rewrite lookup_take_lt).
    unfold entries. rewrite (take_S_compact_none _ _ Hat). done.
Qed.

(** Updates of a placer part that leave the clock's structure alone. *)
Definition structural (f : PlacerMeta → PlacerMeta) (pm : PlacerMeta) : Prop :=
  pos (f pm) = pos pm ∧
  ((visited pm = false → allConfirmed pm = true) →
   visited (f pm) = false → allConfirmed (f pm) = true).

Lemma wf_updPM s m f :
  WF s → (∀ x pm, live s m x pm → structural f pm) → WF (updPM m f s).
Proof.
  intros Hwf Hf.
  assert (Hlive : ∀ m' x pm, live s m' x pm → ∃ x' pm', live (updPM m f s) m' x' pm' ∧
    pos pm' = pos pm ∧ ((visited pm = false → allConfirmed pm = true) →
      visited pm' = false → allConfirmed pm' = true)).
  { intros m' x pm Hl. destruct (updPM_live s m m' f x pm Hl) as [x' Hx'].
    exists x'. eexists. split; [exact Hx'|]. case_decide; subst; [|done].
    by apply (Hf x pm Hl). }
  destruct Hwf as [h1 h2 h3 h4 h5 h6 h7 h8].
  split; [exact h1|exact h2|exact h3|exact h4| |exact h6| |].
  - intros i m' Hi. destruct (h5 i m' Hi) as (x&pm&Hl&<-&Hv).
    destruct (Hlive m' x pm Hl) as (x'&pm'&?&E&?). exists x', pm'.
    split_and!; [done|by rewrite E|auto].
  - intros i m' Hc Hi. destruct (h7 i m' Hc Hi) as (x&pm&Hl&<-).
    destruct (Hlive m' x pm Hl) as (x'&pm'&?&E&?). exists x', pm'. by rewrite E.
  - intros m' x' pm' Hl'. destruct (updPM_live_inv s m m' f x' pm' Hl') as (x&pm&Hl&->).
    assert (E : pos (if decide (m = m') then f pm else pm) = pos pm).
    { case_decide; subst; [|done]. by apply (Hf x pm Hl). }
    rewrite E. exact (h8 m' x pm Hl).
Qed.

(** The second chance: the object under the cursor loses its visited bit. *)
Lemma clear_wf_abs s m e :
  WF s → cursor (plc s) ≠ 0%nat → (cursor (plc s) < cursorBound (plc s))%nat →
  primArr (plc s) !! cursor (plc s) = Some (Some m) →
  entry s m = Some e → ecomplete e = true →
  let s' := updPM m (λ x, x <| visited := false |>) s in
  WF s' ∧ entry s' m = Some (MkEntry m false true) ∧
  ∃ U, ahead (abs s) = e :: U ∧
    abs s' = MkClock (MkEntry m false true :: U) (passed (abs s)) (arrived (abs s)) true.
Proof.
  intros Hwf Hcur Hlt Hat He Hc s'.
  destruct (wf_prim s Hwf _ m Hat) as (x&pm&Hl&_&_).
  rewrite (entry_hasPM s m x pm (live_hasPM _ _ _ _ Hl)) in He. simplify_eq.
  simpl in Hc.
  assert (He' : entry s' m = Some (MkEntry m false true)).
  { destruct (updPM_lookup_eq s m x pm (λ x, x <| visited := false |>)) as [E1 E2];
      [by apply live_hasPM|].
    rewrite (entry_hasPM s' m _ _ (conj E1 E2)). simpl. by rewrite <- Hc. }
  split; [|split; [done|]].
  { apply wf_updPM; [done|]. intros y pm' Hl'. split; [done|]. intros _ _.
    destruct Hl as (?&?&_), Hl' as (?&?&_). by simplify_eq. }
  assert (Hent : ∀ l, m ∉ compact l → entries s' l = entries s l).
  { intros l Hnot. apply entries_ext. intros m' Hm'. apply entry_updPM_ne. by intros ->. }
  assert (Hu : ∀ i, primArr (plc s) !! i = Some (Some m) → i = cursor (plc s)).
  { intros i Hi. by eapply wf_unique. }
  rewrite (abs_sweeping s Hcur), (abs_sweeping s') by done. simpl.
  rewrite (drop_S (take _ _) (Some m)) by (by rewrite lookup_take_lt).
  eexists. split.
  - unfold entries. csimpl. by rewrite (entry_hasPM s m x pm) by (by apply live_hasPM).
  - f_equal.
    + unfold entries at 1. csimpl. rewrite He'. f_equal. apply Hent.
      rewrite elem_of_compact. intros [i Hi]. rewrite lookup_drop in Hi.
      apply lookup_take_Some in Hi as [Hi _]. apply Hu in Hi. lia.
    + apply Hent. rewrite elem_of_compact. intros [i Hi].
      apply lookup_take_Some in Hi as [Hi ?]. apply Hu in Hi. lia.
    + apply Hent. rewrite elem_of_compact. intros [i Hi]. rewrite lookup_drop in Hi.
      apply Hu in Hi. lia.
Qed.

(** ** Eviction *)

(** The placer part of the evicting meta once it has replaced [m]. *)
Definition taken (s : PState) (m : mptr) (xm : Meta) (pm : PlacerMeta) : PlacerMeta :=
  pm <| swapMap := copyPlacement (swapMap pm) (Placement_ xm) |> <| evicts := Some m |>
     <| pos ::= set2 (primary (plc s)) (cursor (plc s)) |>
     <| visited := true |> <| visitedAt := now s |>.

Definition replaced (meta m : mptr) (x xm : Meta) (pm : PlacerMeta) (s : PState) : PState :=
  s <| metas := <[meta := x <| placerMeta := Some (taken s m xm pm) |>]>
                  (<[m := xm <| Deleted := true |>]> (metas s)) |>
    <| plc ::= setPrim (<[cursor (plc s) := Some meta]>
                 (<[get2 (primary (plc s)) (pos pm) := None]> (primArr (plc s)))) |>.

Lemma setPrim_setPrim l1 l2 p : setPrim l2 (setPrim l1 p) = setPrim l2 p.
Proof. unfold setPrim. simpl. by destruct (primary p). Qed.

Lemma replaceObject_run s meta m x xm pm :
  hasPM s meta x pm → metas s !! m = Some xm → m ≠ meta →
  (get2 (primary (plc s)) (pos pm) < length (primArr (plc s)))%nat →
  (cursor (plc s) < length (primArr (plc s)))%nat →
  replaceObject meta m s = Done ((), replaced meta m x xm pm s).
Proof.
  intros [E1 E2] Em Hne Hold Hcl. unfold replaceObject.
  erewrite bind_done by reflexivity.
  set (s1 := s <| metas ::= alter (λ x, x <| Deleted := true |>) m |>).
  assert (Em1 : metas s1 !! m = Some (xm <| Deleted := true |>)).
  { unfold s1; simpl. by rewrite lookup_alter_eq, Em. }
  assert (E11 : metas s1 !! meta = Some x).
  { unfold s1; simpl. by rewrite lookup_alter_ne. }
  erewrite bind_done by (unfold getMeta; by rewrite Em1).
  erewrite bind_getPM by (by split).
  erewrite bind_done by reflexivity. erewrite bind_done by reflexivity. simpl.
  rewrite decide_True by done.
  do 3 (erewrite bind_done by reflexivity). unfold modPM, modMeta, modify.
  unfold replaced. simpl. do 2 f_equal. unfold update. simpl. f_equal.
  - apply map_eq. intros k.
    destruct (decide (k = meta)) as [->|Hk].
    + rewrite lookup_insert_eq, !lookup_alter_eq.
      rewrite lookup_alter_ne by done. rewrite E1. simpl. rewrite E2. done.
    + rewrite lookup_insert_ne by done. rewrite !(lookup_alter_ne _ _ meta) by done.
      destruct (decide (k = m)) as [->|Hk'].
      * by rewrite lookup_insert_eq, lookup_alter_eq, Em.
      * by rewrite lookup_insert_ne, lookup_alter_ne by done.
  - rewrite setPrim_setPrim, primArr_setPrim. done.
Qed.

Section evict.
Context (s : PState) (meta m : mptr) (x xm : Meta) (pm pmm : PlacerMeta) (Hwf : WF s).
Hypothesis (Hcur : cursor (plc s) ≠ 0%nat) (Hlt : (cursor (plc s) < cursorBound (plc s))%nat).
Hypothesis Hat : primArr (plc s) !! cursor (plc s) = Some (Some m).
Hypothesis (Hmeta : live s meta x pm) (Hm : live s m xm pmm) (Hne : m ≠ meta).
(** The hand has not passed [meta] in this iteration. *)
Hypothesis Hahead : meta ∉ compact (take (cursor (plc s)) (primArr (plc s))).
Let s' := replaced meta m x xm pm s.
Let old := get2 (primary (plc s)) (pos pm).
Let prim' := <[cursor (plc s) := Some meta]> (<[old := None]> (primArr (plc s))).

Lemma evict_old : primArr (plc s) !! old = Some None ∧ old = 0%nat ∨
  primArr (plc s) !! old = Some (Some meta) ∧ (cursor (plc s) < old)%nat.
Proof.
  destruct (wf_pos s Hwf meta x pm Hmeta) as [E|Hin].
  - left. unfold old. rewrite E. split; [|by destruct (primary _)].
    destruct (primary _); apply (wf_slot0 s Hwf).
  - right. split; [exact Hin|]. fold old in Hin.
    destruct (decide (old < cursor (plc s))%nat) as [Hl|Hl].
    + exfalso. apply Hahead, elem_of_compact. exists old. by apply lookup_take_Some.
    + assert (old ≠ cursor (plc s)); [|lia]. intros E. rewrite E in Hin. congruence.
Qed.

Lemma evict_meta_at i : primArr (plc s) !! i = Some (Some meta) → i = old.
Proof.
  intros Hi. destruct (wf_prim s Hwf i meta Hi) as (y&pm'&(?&?&_)&<-&_).
  destruct Hmeta as (?&?&_). unfold old. by simplify_eq.
Qed.

Lemma evict_old_ne : old ≠ cursor (plc s).
Proof. destruct evict_old as [[? ->]|[??]]; lia. Qed.

Lemma evict_primArr : primArr (plc s') = prim'.
Proof. unfold s', replaced; simpl. apply primArr_setPrim. Qed.

Lemma evict_secArr : secArr (plc s') = secArr (plc s).
Proof. unfold s', replaced; simpl. apply secArr_setPrim, (wf_sides s Hwf). Qed.

Lemma evict_prim_lookup i m' :
  prim' !! i = Some (Some m') ↔
  (i = cursor (plc s) ∧ m' = meta) ∨
  (i ≠ cursor (plc s) ∧ m' ≠ meta ∧ primArr (plc s) !! i = Some (Some m')).
Proof.
  pose proof (lookup_lt_Some _ _ _ Hat) as Hlen. pose proof evict_old_ne as Hoc.
  unfold prim'. rewrite list_lookup_insert, length_insert. case_decide as Hi.
  - destruct Hi as [<- ?]. split; [intros [= <-]; by left|].
    by intros [[_ ->]|[? _]].
  - rewrite list_lookup_insert. case_decide as Hj.
    + destruct Hj as [<- ?]. split; [done|]. intros [[? _]|(?&Hm'&Hi')]; [done|].
      destruct evict_old as [[??]|[??]]; congruence.
    + split.
      * intros Hi'. right. split_and!; [naive_solver| |done]. intros ->.
        pose proof (evict_meta_at i Hi'). pose proof (lookup_lt_Some _ _ _ Hi'). naive_solver.
      * intros [[-> ->]|(_&_&?)]; [|done]. naive_solver.
Qed.

Lemma evict_live m' y pm' :
  m' ≠ meta → m' ≠ m → live s m' y pm' ↔ live s' m' y pm'.
Proof.
  intros ??. unfold live, s', replaced; simpl. by rewrite !lookup_insert_ne by done.
Qed.

Lemma evict_live_meta : live s' meta (x <| placerMeta := Some (taken s m xm pm) |>) (taken s m xm pm).
Proof.
  unfold live, s', replaced; simpl. rewrite lookup_insert_eq. destruct Hmeta as (?&?&?). done.
Qed.

Lemma evict_take : take (cursor (plc s)) prim' = take (cursor (plc s)) (primArr (plc s)).
Proof.
  unfold prim'. rewrite take_insert_ge by lia.
  destruct evict_old as [[E E0]|[E ?]].
  - rewrite list_insert_id; [done|]. done.
  - by rewrite take_insert_ge by lia.
Qed.

Lemma evict_wf : WF s'.
Proof.
  pose proof (lookup_lt_Some _ _ _ Hat) as Hlen. pose proof (wf_cursor s Hwf) as Hc.
  split; change (primary (plc s')) with (primary (plc s));
    change (secondary (plc s')) with (secondary (plc s));
    change (cursor (plc s')) with (cursor (plc s));
    change (cursorBound (plc s')) with (cursorBound (plc s));
    rewrite ?evict_primArr, ?evict_secArr.
  - apply (wf_sides s Hwf).
  - unfold prim'. rewrite list_lookup_insert_ne by done. rewrite list_lookup_insert.
    case_decide; [done|]. apply (wf_slot0 s Hwf).
  - apply (wf_sec0 s Hwf).
  - right. unfold prim'. rewrite !length_insert. lia.
  - intros i m' [[-> ->]|(Hi&Hm'&Hl)]%evict_prim_lookup.
    + exists (x <| placerMeta := Some (taken s m xm pm) |>), (taken s m xm pm).
      split; [apply evict_live_meta|]. simpl. rewrite get2_set2_eq. done.
    + destruct (wf_prim s Hwf i m' Hl) as (y&pm'&?&?&?). exists y, pm'.
      split; [|done]. apply evict_live; [done| |done]. intros ->.
      by pose proof (wf_unique s _ _ _ Hwf Hl Hat).
  - intros _. rewrite evict_take. by apply (wf_sec s Hwf).
  - intros i m' _ Hi. pose proof Hi as Hi'.
    rewrite (wf_sec s Hwf Hcur) in Hi. destruct i as [|i]; [done|]. simpl in Hi.
    apply list_lookup_fmap_Some in Hi as (m''&[= <-]&Hi).
    apply list_elem_of_lookup_2 in Hi.
    destruct (wf_secpos s Hwf _ _ Hcur Hi') as (y&pm'&?&?). exists y, pm'.
    split; [|done]. apply evict_live; [by intros ->| |done]. intros ->.
    apply elem_of_compact in Hi as [k Hk]. apply lookup_take_Some in Hk as [Hk ?].
    pose proof (wf_unique s _ _ _ Hwf Hk Hat). lia.
  - intros m' y pm' Hl. destruct (decide (m' = meta)) as [->|Hm'].
    + right. pose proof evict_live_meta as (A&B&_). destruct Hl as (A'&B'&_). simplify_eq.
      simpl. rewrite get2_set2_eq. apply evict_prim_lookup. by left.
    + destruct (decide (m' = m)) as [->|Hm''].
      { destruct Hl as (A&B&C). unfold s', replaced in A; simpl in A.
        rewrite lookup_insert_ne, lookup_insert_eq in A by done. by simplify_eq. }
      apply evict_live in Hl; [|done..].
      destruct (wf_pos s Hwf m' y pm' Hl) as [?|Hin]; [by left|right].
      apply evict_prim_lookup. right. split_and!; [|done..].
      intros E. rewrite E in Hin. congruence.
Qed.

Lemma evict_entries (k : list mptr) :
  (∀ m', m' ∈ k → m' ≠ meta ∧ m' ≠ m) → omap (entry s') k = omap (entry s) k.
Proof.
  intros Hk. induction k as [|m' k IH]; [done|]. csimpl.
  destruct (Hk m') as [Hm1 Hm2]; [left|].
  rewrite IH by (intros; apply Hk; by right).
  assert (entry s' m' = entry s m') as ->; [|done].
  unfold entry, s', replaced; simpl. by rewrite !lookup_insert_ne by done.
Qed.

(** A segment of the array away from the cursor loses [meta] if it held it. *)
Lemma evict_segment a b :
  (cursor (plc s) < a ∨ b ≤ cursor (plc s))%nat →
  entries s' (drop a (take b prim')) = others meta (entries s (drop a (take b (primArr (plc s))))).
Proof.
  intros Hab. rewrite entries_others. unfold entries, prim'.
  rewrite segment_insert, decide_False by lia.
  rewrite (compact_segment_unset _ _ _ old meta);
    [|apply evict_meta_at|destruct evict_old; tauto].
  apply evict_entries. intros m' [Hm' Hin]%list_elem_of_filter. split; [done|]. intros ->.
  apply elem_of_compact in Hin as [i Hi]. rewrite lookup_segment in Hi.
  case_decide; [|done]. pose proof (wf_unique s _ _ _ Hwf Hi Hat). lia.
Qed.

Lemma evict_abs :
  ∃ U, ahead (abs s) = MkEntry m (visited pmm) (allConfirmed pmm) :: U ∧
    abs s' = MkClock (MkEntry meta true (allConfirmed pm) :: others meta U)
      (passed (abs s)) (others meta (arrived (abs s))) true.
Proof.
  pose proof (lookup_lt_Some _ _ _ Hat) as Hlen.
  rewrite (abs_sweeping s Hcur), (abs_sweeping s') by done.
  change (cursor (plc s')) with (cursor (plc s));
    change (cursorBound (plc s')) with (cursorBound (plc s)). rewrite evict_primArr.
  rewrite (drop_S (take (cursorBound (plc s)) (primArr (plc s))) (Some m))
    by (by rewrite lookup_take_lt). simpl.
  exists (entries s (drop (S (cursor (plc s))) (take (cursorBound (plc s)) (primArr (plc s))))).
  split.
  { unfold entries. csimpl. by rewrite (entry_hasPM s m xm pmm) by (by apply live_hasPM). }
  f_equal.
  - rewrite (drop_S (take (cursorBound (plc s)) prim') (Some meta)).
    2:{ rewrite lookup_take_lt by done. apply evict_prim_lookup. by left. }
    rewrite <- (evict_segment (S (cursor (plc s))) (cursorBound (plc s))) by lia.
    unfold entries. csimpl.
    rewrite (entry_hasPM s' meta _ _ (live_hasPM _ _ _ _ evict_live_meta)). done.
  - rewrite evict_take. unfold entries. apply evict_entries. intros m' Hin.
    split; [by intros ->|]. intros ->. apply elem_of_compact in Hin as [i Hi].
    apply lookup_take_Some in Hi as [Hi ?]. pose proof (wf_unique s _ _ _ Hwf Hi Hat). lia.
  - rewrite <- (take_ge prim' (length (primArr (plc s)))) by
      (unfold prim'; by rewrite !length_insert).
    rewrite evict_segment by lia. by rewrite take_ge.
Qed.
End evict.

(** ** What a sweep leaves alone *)

(** A meta without its clock fields. *)
Definition strip (x : Meta) : Meta :=
  x <| placerMeta ::= fmap (λ pm, pm <| pos := Two 0%nat 0%nat |> <| visited := false |>
                                     <| visitedAt := 0 |>) |>.

(** Same state up to the clock: arrays, cursor, positions and visited bits. *)
Record clock_only (s s' : PState) : Prop := {
  co_sh : sh s' = sh s;
  co_pool : metaPool s' = metaPool s;
  co_now : now s' = now s;
  co_group : pgroup (plc s') = pgroup (plc s);
  co_metas : strip <$> metas s' = strip <$> metas s
}.

(** [v] is evicted in favour of [meta]: it is marked deleted, [meta] records it
    and takes over its placement; nothing else changes but the clock. *)
Record evicted_for (meta v : mptr) (s s' : PState) : Prop := {
  ev_sh : sh s' = sh s;
  ev_pool : metaPool s' = metaPool s;
  ev_now : now s' = now s;
  ev_group : pgroup (plc s') = pgroup (plc s);
  ev_ne : v ≠ meta;
  ev_metas : ∃ x pm xv pmv,
    live s meta x pm ∧ live s v xv pmv ∧ allConfirmed pmv = true ∧
    strip <$> metas s' =
      <[meta := strip (x <| placerMeta := Some (pm
          <| swapMap := copyPlacement (swapMap pm) (Placement_ xv) |>
          <| evicts := Some v |>) |>)]>
      (<[v := strip (xv <| Deleted := true |>)]> (strip <$> metas s))
}.

#[global] Instance clock_only_refl : Reflexive clock_only.
Proof. by split. Qed.
#[global] Instance clock_only_trans : Transitive clock_only.
Proof. intros s1 s2 s3 [] []. split; congruence. Qed.

Lemma clock_only_updPM s m f :
  (∀ x, strip (x <| placerMeta ::= fmap f |>) = strip x) → clock_only s (updPM m f s).
Proof.
  intros Hf. split; [done..|]. unfold updPM; simpl. apply map_eq. intros k.
  rewrite !lookup_fmap. destruct (decide (k = m)) as [->|].
  - rewrite lookup_alter_eq. destruct (metas s !! m) as [x|]; [|done]. simpl. f_equal. apply Hf.
  - by rewrite lookup_alter_ne.
Qed.

Lemma clock_only_plc s f :
  pgroup (f (plc s)) = pgroup (plc s) → clock_only s (s <| plc ::= f |>).
Proof. by split. Qed.

Lemma clock_only_pushSec s m : clock_only s (pushSec m s).
Proof.
  unfold pushSec. etrans; [|by apply clock_only_plc].
  apply clock_only_updPM. intros x. unfold strip. simpl. by destruct (placerMeta x).
Qed.

Lemma clock_only_clear s m : clock_only s (updPM m (λ x, x <| visited := false |>) s).
Proof. apply clock_only_updPM. intros x. unfold strip. simpl. by destruct (placerMeta x). Qed.

Lemma clock_only_advance s : clock_only s (advance s).
Proof. by apply clock_only_plc. Qed.

#[export] Hint Resolve clock_only_pushSec clock_only_clear clock_only_advance : go.

(** The data of a live meta survives a clock-only change. *)
Lemma clock_only_live s s' m x' pm' :
  clock_only s s' → live s' m x' pm' →
  ∃ x pm, live s m x pm ∧ strip x = strip x' ∧ confirmed pm = confirmed pm' ∧
    numConfirmed pm = numConfirmed pm' ∧ swapMap pm = swapMap pm' ∧
    evicts pm = evicts pm' ∧ once pm = once pm' ∧ Placement_ x = Placement_ x'.
Proof.
  intros [_ _ _ _ Hc] (E1&E2&E3).
  assert (Hl : (strip <$> metas s') !! m = Some (strip x')) by (by rewrite lookup_fmap, E1).
  rewrite Hc, lookup_fmap in Hl. destruct (metas s !! m) as [x|] eqn:Ex; [|done].
  simpl in Hl. apply (inj Some) in Hl. unfold strip in Hl. simpl in Hl.
  destruct (placerMeta x) as [pm|] eqn:Ep; rewrite E2 in Hl; simpl in Hl; [|done].
  injection Hl as H1 H2 H3 H4 H5 H6 H7 H8 H9 H10 H11 H12 H13.
  exists x, pm. split_and!; try done; [|].
  - repeat split; [done..|]. congruence.
  - unfold strip. simpl. rewrite Ep, E2. simpl. congruence.
Qed.

Lemma evicted_for_clock meta v s s1 s2 s3 :
  clock_only s s1 → evicted_for meta v s1 s2 → clock_only s2 s3 → evicted_for meta v s s3.
Proof.
  intros H1 [e1 e2 e3 e4 e5 (x&pm&xv&pmv&Hx&Hv&Hc&Hm)] H3.
  destruct (clock_only_live s s1 meta x pm H1 Hx) as (y&pmy&Hy&Sy&C1&C2&C3&C4&C5&C6).
  destruct (clock_only_live s s1 v xv pmv H1 Hv) as (yv&pmyv&Hyv&Syv&D1&D2&_&_&_&D6).
  destruct H1, H3. split; [congruence..|]. exists y, pmy, yv, pmyv.
  split_and!; [done..| |].
  - unfold allConfirmed in *. by rewrite D1, D2.
  - rewrite co_metas1, Hm, co_metas0, C3, D6. f_equal; [|f_equal].
    + unfold strip in *. simpl in *. congruence.
    + unfold strip in *. simpl in *. congruence.
Qed.
