(* ===== verification/ClockRefine.v ===== *)
(** * NextAvailableObject refines the second-chance queue, and terminates

    The sweep of the placer computes what [aNext] specifies on the abstract
    clock; the eviction loop of [GetOrInsert] then returns within three calls
    whenever some other object is complete or unvisited, and never returns
    when there is none. *)

From S2P Require Import Prelude Lambdastore Group Meta Placer Clock.

(** [meta] sits at two indices of the array under compaction. *)
Definition duplicated (meta : mptr) (s : PState) : Prop :=
  ∃ i j, (i < j)%nat ∧ secArr (plc s) !! i = Some (Some meta) ∧
         secArr (plc s) !! j = Some (Some meta).

Definition sweep_post (meta : mptr) (s : PState) (r : sweep_result)
    (o : res (bool * PState)) : Prop :=
  match r with
  | Victim v U P => ∃ s', o = Done (true, s') ∧ WF s' ∧ cursor (plc s') ≠ 0%nat ∧
      abs s' = MkClock U P (others meta (arrived (abs s))) true ∧ evicted_for meta v s s'
  | Exhausted P => ∃ s', o = Done (false, s') ∧ WF s' ∧
      cursor (plc s') = cursorBound (plc s') ∧ cursor (plc s') ≠ 0%nat ∧
      abs s' = MkClock [] P (arrived (abs s)) true ∧ clock_only s s'
  | Repeated => ∃ s', o = Done (true, s') ∧ duplicated meta s'
  end.

Lemma sweep_post_clock meta s s1 r o :
  clock_only s s1 → arrived (abs s1) = arrived (abs s) →
  sweep_post meta s1 r o → sweep_post meta s r o.
Proof.
  intros Hc Ha. destruct r as [v U P|P|]; simpl; [| |done]; rewrite Ha.
  - intros (s'&?&?&?&?&?). exists s'. split_and!; [done..|].
    by eapply evicted_for_clock; [| |reflexivity].
  - intros (s'&?&?&?&?&?&?). exists s'. split_and!; [done..|]. by etrans.
Qed.

Lemma pass_run {B} s m x pm (k : M PState B) :
  hasPM s m x pm →
  (appendSecondary m ≫= λ _, incCursor ≫= λ _, k) s = k (advance (pushSec m s)).
Proof. intros Hm. by erewrite bind_done by (by eapply appendSecondary_run). Qed.

Lemma present_entries s l meta :
  is_Some (entry s meta) → present meta (entries s l) ↔ meta ∈ compact l.
Proof.
  intros [e He]. unfold present, entries. rewrite list.Exists_exists. split.
  - intros (e'&Hin&Hp). apply list_elem_of_omap in Hin as (m&Hm&Hem).
    assert (eptr e' = m) as Heq.
    { unfold entry in Hem. destruct (metas s !! m) as [x|]; [|done]. simpl in Hem.
      destruct (placerMeta x); [|done]. simpl in Hem. by simplify_eq. }
    by rewrite <- Hp, Heq.
  - intros Hin. exists e. split; [apply list_elem_of_omap; eauto|].
    unfold entry in He. destruct (metas s !! meta) as [x|]; [|done]. simpl in He.
    destruct (placerMeta x); [|done]. simpl in He. by simplify_eq.
Qed.

Section sweep.
Context (meta : mptr) (me : Entry) (Hme : eptr me = meta).

(** [meta] is live, and as complete as [me] says. *)
Definition evictor (s : PState) : Prop :=
  ∃ x pm, live s meta x pm ∧ allConfirmed pm = ecomplete me.

Lemma evictor_updPM s m f :
  evictor s → (∀ pm, allConfirmed (f pm) = allConfirmed pm) → evictor (updPM m f s).
Proof.
  intros (x&pm&Hl&He) Hf. destruct (updPM_live s m meta f x pm Hl) as [x' Hl'].
  exists x'. eexists. split; [exact Hl'|]. case_decide; [by rewrite Hf|done].
Qed.

Lemma evictor_pass s m : evictor s → evictor (advance (pushSec m s)).
Proof. intros H. by apply (evictor_updPM s m). Qed.

Lemma sweep_nil s :
  WF s → cursor (plc s) ≠ 0%nat → cursor (plc s) = cursorBound (plc s) →
  sweep_post meta s (aSweep me (ahead (abs s)) (passed (abs s))) (sweep meta [] s).
Proof.
  intros Hwf Hc Hb.
  assert (Ha : ahead (abs s) = []).
  { rewrite (abs_sweeping s Hc). simpl. rewrite drop_ge; [done|]. rewrite length_take. lia. }
  rewrite Ha. exists s. split_and!; try done. rewrite (abs_sweeping s Hc) in *.
  simpl in *. by rewrite Ha.
Qed.

(** One object is passed: the rest of the sweep does the rest. *)
Lemma sweep_pass s m e l' :
  WF s → cursor (plc s) ≠ 0%nat → (cursor (plc s) < cursorBound (plc s))%nat →
  primArr (plc s) !! cursor (plc s) = Some (Some m) → entry s m = Some e →
  let s1 := advance (pushSec m s) in
  (WF s1 → sweep_post meta s1 (aSweep me (ahead (abs s1)) (passed (abs s1)))
             (sweep meta l' s1)) →
  ∀ U, ahead (abs s) = e :: U →
  sweep_post meta s (aSweep me U (passed (abs s) ++ [e]))
    ((appendSecondary m ≫= λ _, incCursor ≫= λ _, sweep meta l') s).
Proof.
  intros Hwf Hc Hlt Hat He s1 IH U HU.
  destruct (wf_prim s Hwf _ m Hat) as (x&pm&Hl&_&_).
  rewrite (pass_run s m x pm) by (by apply live_hasPM).
  destruct (pass_abs s m Hwf Hc Hlt Hat e He) as (U'&EU&Eabs).
  rewrite EU in HU. injection HU as <-.
  eapply sweep_post_clock; [|rewrite Eabs; done|].
  { etrans; [apply clock_only_pushSec|apply clock_only_advance]. }
  fold s1 in Eabs. specialize (IH (pass_wf s m Hwf Hc Hlt Hat)).
  rewrite Eabs in IH. exact IH.
Qed.

(** The victim is found. *)
Lemma sweep_evict s m e :
  WF s → cursor (plc s) ≠ 0%nat → (cursor (plc s) < cursorBound (plc s))%nat →
  primArr (plc s) !! cursor (plc s) = Some (Some m) → entry s m = Some e →
  evisited e = false → m ≠ meta → evictor s → ¬ present meta (passed (abs s)) →
  ∀ U, ahead (abs s) = e :: U →
  sweep_post meta s
    (Victim m (others meta U) (passed (abs s) ++ [MkEntry meta true (ecomplete me)]))
    ((replaceObject meta m ≫= λ _, appendSecondary meta ≫= λ _, incCursor ≫= λ _,
      mret true) s).
Proof.
  intros Hwf Hc Hlt Hat He Hv Hne (x&pm&Hl&Hcomp) Hpres U HU.
  destruct (wf_prim s Hwf _ m Hat) as (xm&pmm&Hlm&_&Hvis).
  rewrite (entry_hasPM s m xm pmm (live_hasPM _ _ _ _ Hlm)) in He. injection He as <-.
  assert (Hah : meta ∉ compact (take (cursor (plc s)) (primArr (plc s)))).
  { intros Hin. apply Hpres. rewrite (abs_sweeping s Hc). apply present_entries; [|done].
    rewrite (entry_hasPM s meta x pm) by (by apply live_hasPM). done. }
  destruct (evict_abs s meta m x xm pm pmm Hwf Hc Hlt Hat Hl Hlm Hne Hah) as (U'&EU&Eabs).
  rewrite EU in HU. injection HU as <-.
  set (s1 := replaced meta m x xm pm s) in *.
  pose proof (evict_wf s meta m x xm pm Hwf Hc Hlt Hat Hl Hne Hah) as Hwf1.
  fold s1 in Hwf1. pose proof (lookup_lt_Some _ _ _ Hat) as Hlen.
  assert (Hold : (get2 (primary (plc s)) (pos pm) < length (primArr (plc s)))%nat).
  { destruct (evict_old s meta m x pm Hwf Hc Hlt Hat Hl Hne Hah) as [[E _]|[E _]];
      by apply lookup_lt_Some in E. }
  erewrite bind_done by
    (apply (replaceObject_run s meta m x xm pm); [by apply live_hasPM|apply Hlm|done..]).
  fold s1. pose proof (evict_live_meta s meta m x xm pm Hl) as Hl1. fold s1 in Hl1.
  rewrite (pass_run s1 meta _ _ (mret true) (live_hasPM _ _ _ _ Hl1)).
  assert (Hat1 : primArr (plc s1) !! cursor (plc s1) = Some (Some meta)).
  { unfold s1. rewrite evict_primArr. by apply list_lookup_insert_eq; rewrite length_insert. }
  destruct (pass_abs s1 meta Hwf1 Hc Hlt Hat1 (MkEntry meta true (allConfirmed pm)))
    as (U1&EU1&Eabs1).
  { by rewrite (entry_hasPM s1 meta _ _ (live_hasPM _ _ _ _ Hl1)). }
  rewrite Eabs in EU1. simpl in EU1. injection EU1 as <-. rewrite Eabs in Eabs1.
  eexists. split; [reflexivity|]. split_and!.
  - apply (pass_wf s1 meta Hwf1 Hc Hlt Hat1).
  - done.
  - rewrite Eabs1. simpl. by rewrite Hcomp.
  - eapply evicted_for_clock; [reflexivity| |etrans; [apply clock_only_pushSec|apply clock_only_advance]].
    split; [done..|]. exists x, pm, xm, pmm. split_and!; [done..|auto|].
    unfold s1, replaced; simpl. by rewrite !fmap_insert.
Qed.

(** The victim is found after the hand has passed [meta]. *)
Lemma sweep_repeat s m :
  WF s → cursor (plc s) ≠ 0%nat → (cursor (plc s) < cursorBound (plc s))%nat →
  primArr (plc s) !! cursor (plc s) = Some (Some m) → m ≠ meta → evictor s →
  present meta (passed (abs s)) →
  ∃ s', (replaceObject meta m ≫= λ _, appendSecondary meta ≫= λ _, incCursor ≫= λ _,
      mret true) s = Done (true, s') ∧ duplicated meta s'.
Proof.
  intros Hwf Hc Hlt Hat Hne (x&pm&Hl&_) Hpres.
  destruct (wf_prim s Hwf _ m Hat) as (xm&pmm&Hlm&_&_).
  rewrite (abs_sweeping s Hc) in Hpres. apply present_entries in Hpres;
    [|by rewrite (entry_hasPM s meta x pm) by (by apply live_hasPM)].
  pose proof (lookup_lt_Some _ _ _ Hat) as Hlen.
  assert (Hold : (get2 (primary (plc s)) (pos pm) < length (primArr (plc s)))%nat).
  { destruct (wf_pos s Hwf meta x pm Hl) as [E|E]; [|by apply lookup_lt_Some in E].
    rewrite E. destruct (primary (plc s)); simpl; lia. }
  erewrite bind_done by
    (apply (replaceObject_run s meta m x xm pm); [by apply live_hasPM|apply Hlm|done..]).
  pose proof (evict_live_meta s meta m x xm pm Hl) as Hl1.
  rewrite (pass_run _ meta _ _ (mret true) (live_hasPM _ _ _ _ Hl1)).
  eexists. split; [reflexivity|].
  assert (Es : secArr (plc (advance (pushSec meta (replaced meta m x xm pm s)))) =
               secArr (plc s) ++ [Some meta]).
  { transitivity (secArr (plc (replaced meta m x xm pm s)) ++ [Some meta]).
    - apply secArr_setSec.
    - by rewrite evict_secArr. }
  apply list_elem_of_lookup in Hpres as [i Hi].
  assert (Hi' : secArr (plc s) !! S i = Some (Some meta)).
  { rewrite (wf_sec s Hwf Hc). simpl. by rewrite list_lookup_fmap, Hi. }
  exists (S i), (length (secArr (plc s))). rewrite Es. split_and!.
  - by apply lookup_lt_Some in Hi'.
  - by apply lookup_app_l_Some.
  - by apply list_lookup_middle.
Qed.

Lemma sweep_refines l s :
  WF s → cursor (plc s) ≠ 0%nat → (cursor (plc s) ≤ cursorBound (plc s))%nat →
  l = drop (cursor (plc s)) (take (cursorBound (plc s)) (primArr (plc s))) →
  evictor s →
  sweep_post meta s (aSweep me (ahead (abs s)) (passed (abs s))) (sweep meta l s).
Proof.
  revert s. induction l as [|o l IH]; intros s Hwf Hc Hb Hl Hev.
  { pose proof (wf_cursor s Hwf). apply sweep_nil; [done..|].
    symmetry in Hl. apply (f_equal length) in Hl. rewrite length_drop, length_take in Hl.
    simpl in Hl. lia. }
  pose proof (f_equal (λ k, k !! 0%nat) Hl) as Hat. simpl in Hat.
  rewrite lookup_segment, Nat.add_0_r in Hat. case_decide as Hlt; [|done].
  symmetry in Hat. rewrite (drop_S _ o) in Hl by (by rewrite lookup_take_lt).
  injection Hl as Hl.
  assert (Hnext : ∀ s1, WF s1 → cursor (plc s1) = S (cursor (plc s)) →
    cursorBound (plc s1) = cursorBound (plc s) → primArr (plc s1) = primArr (plc s) →
    evictor s1 → sweep_post meta s1 (aSweep me (ahead (abs s1)) (passed (abs s1)))
                   (sweep meta l s1)).
  { intros s1 Hwf1 E1 E2 E3 Hev1. apply IH; [done|lia|lia| |done].
    rewrite E1, E2, E3. exact Hl. }
  destruct o as [m|].
  2:{ destruct (skip_wf_abs s Hwf Hc Hlt Hat) as [Hwf1 Eabs].
      simpl. erewrite bind_done by reflexivity.
      change (s <| plc := _ |>) with (advance s).
      eapply sweep_post_clock; [apply clock_only_advance|by rewrite Eabs|].
      rewrite <- Eabs. by apply Hnext. }
  destruct (wf_prim s Hwf _ m Hat) as (x&pm&Hlm&_&_).
  pose proof (entry_hasPM s m x pm (live_hasPM _ _ _ _ Hlm)) as He.
  destruct (pass_abs s m Hwf Hc Hlt Hat _ He) as (U&EU&_).
  destruct (pushSec_plc s m Hwf) as (Ep&_).
  rewrite EU. simpl. rewrite Hme.
  destruct (decide (m = meta)) as [Heq|Hne].
  { apply (sweep_pass s m); [done..| |done]. intros Hwf1.
    apply Hnext; [done..|]. by apply evictor_pass. }
  rewrite (bind_getPM s m x pm) by (by apply live_hasPM).
  destruct (visited pm && allConfirmed pm) eqn:Hsecond.
  - apply andb_prop in Hsecond as [Hv Hcomp]. rewrite Hcomp in *.
    destruct (clear_wf_abs s m _ Hwf Hc Hlt Hat He eq_refl) as (Hwf1&He1&U1&EU1&Eabs1).
    rewrite EU in EU1. injection EU1 as <-.
    set (s1 := updPM m (λ x, x <| visited := false |>) s) in *.
    erewrite bind_done by reflexivity. fold (modPM m (λ x, x <| visited := false |>)).
    eapply (sweep_post_clock meta s s1); [apply clock_only_clear|by rewrite Eabs1|].
    change (sweep_post meta s1 (aSweep me U (passed (abs s) ++ [MkEntry m false true]))
      ((appendSecondary m ≫= λ _, incCursor ≫= λ _, sweep meta l) s1)).
    replace (passed (abs s)) with (passed (abs s1)) by (by rewrite Eabs1).
    apply (sweep_pass s1 m); [done..| |by rewrite Eabs1]. intros Hwf2.
    destruct (pushSec_plc s1 m Hwf1) as (Ep1&_).
    apply Hnext; [done..|]. apply evictor_pass. by apply evictor_updPM.
  - destruct (visited pm) eqn:Hv; simpl in *.
    + apply (sweep_pass s m); [done..| |done]. intros Hwf1.
      apply Hnext; [done..|]. by apply evictor_pass.
    + case_decide as Hpres; [by eapply sweep_repeat|].
      by eapply sweep_evict.
Qed.
End sweep.

(** ** Starting and ending an iteration *)

Definition started (s : PState) : PState :=
  s <| plc ::= (λ p, if decide (cursor p = 0%nat)
                     then setSec (resetSecondary (secArr p)) p
                            <| cursorBound := length (primArr p) |> <| cursor := 1%nat |>
                     else p) |>.

Lemma start_wf_abs s :
  WF s →
  WF (started s) ∧ cursor (plc (started s)) ≠ 0%nat ∧
  abs (started s) = MkClock (ahead (abs s)) (passed (abs s)) (arrived (abs s)) true ∧
  clock_only s (started s).
Proof.
  intros Hwf. unfold started. destruct (decide (cursor (plc s) = 0%nat)) as [Hc|Hc].
  2:{ assert (E : (s <| plc ::= λ p, if decide (cursor p = 0%nat) then
        setSec (resetSecondary (secArr p)) p <| cursorBound := length (primArr p) |>
          <| cursor := 1%nat |> else p |>) = s).
      { simpl. rewrite decide_False by done. by destruct s. }
      rewrite E. split_and!; [done|done| |reflexivity]. by rewrite (abs_sweeping s Hc). }
  set (p1 := setSec (resetSecondary (secArr (plc s))) (plc s)
        <| cursorBound := length (primArr (plc s)) |> <| cursor := 1%nat |>).
  assert (E : (s <| plc ::= λ p, if decide (cursor p = 0%nat) then
        setSec (resetSecondary (secArr p)) p <| cursorBound := length (primArr p) |>
          <| cursor := 1%nat |> else p |>) = s <| plc := p1 |>).
  { simpl. by rewrite decide_True. }
  rewrite E. set (s1 := s <| plc := p1 |>).
  assert (Pp : primArr (plc s1) = primArr (plc s)).
  { apply (primArr_setSec _ (plc s)), (wf_sides s Hwf). }
  assert (Ps : secArr (plc s1) = [None]).
  { transitivity (resetSecondary (secArr (plc s))); [apply (secArr_setSec _ (plc s))|].
    destruct (wf_sec0 s Hwf) as [->|H0]; [done|].
    destruct (secArr (plc s)) as [|o l]; [done|]. simpl in *. by simplify_eq. }
  pose proof (wf_slot0 s Hwf) as H0.
  assert (Ht : primArr (plc s) = None :: tail (primArr (plc s))).
  { destruct (primArr (plc s)); simpl in *; by simplify_eq. }
  split_and!; [|done| |by apply clock_only_plc].
  - destruct Hwf as [h1 h2 h3 h4 h5 h6 h7 h8].
    split; rewrite ?Pp, ?Ps; try done.
    + by right.
    + right. change (1 ≤ 1 ≤ length (primArr (plc s)) ≤ length (primArr (plc s)))%nat.
      rewrite Ht. simpl. lia.
    + intros _. change (cursor (plc s1)) with 1%nat. rewrite Ht. by destruct (tail _).
    + intros [|i] m _ Hi; done.
  - rewrite (abs_sweeping s1) by done. rewrite Pp.
    change (cursor (plc s1)) with 1%nat.
    change (cursorBound (plc s1)) with (length (primArr (plc s))).
    unfold abs. rewrite decide_True by done. simpl.
    rewrite take_ge, drop_all by done. by rewrite Ht.
Qed.

(** The rest of the primary array is appended to the secondary one. *)
Definition pushAll (k : list mptr) (s : PState) : PState :=
  foldl (λ s m, pushSec m s) s k.

Lemma copyRest_run l s :
  (∀ m, m ∈ compact l → ∃ x pm, hasPM s m x pm) →
  copyRest l s = Done ((), pushAll (compact l) s).
Proof.
  revert s. induction l as [|[m|] l IH]; intros s Hall; [done| |by apply IH].
  destruct (Hall m) as (x&pm&Hm); [left|].
  simpl. erewrite bind_done by (by eapply appendSecondary_run). apply IH.
  intros m' Hm'. destruct (Hall m') as (x'&pm'&Hx'); [by right|].
  unfold pushSec. set (f := λ x : PlacerMeta, _).
  destruct (decide (m = m')) as [->|Hne].
  - destruct (updPM_lookup_eq s m' x' pm' f Hx') as [??]. eexists _, _. by split.
  - exists x', pm'. split; [|apply Hx']. simpl. rewrite lookup_alter_ne by done. apply Hx'.
Qed.

Record pushed (k : list mptr) (s s' : PState) : Prop := {
  pa_prim : primArr (plc s') = primArr (plc s);
  pa_sec : secArr (plc s') = secArr (plc s) ++ (Some <$> k);
  pa_sides : primary (plc s') = primary (plc s) ∧ secondary (plc s') = secondary (plc s);
  pa_clock : clock_only s s';
  pa_entry m : entry s' m = entry s m;
  pa_live m x pm : live s m x pm → ∃ x' pm', live s' m x' pm' ∧
    visited pm' = visited pm ∧ allConfirmed pm' = allConfirmed pm ∧
    (m ∉ k → pos pm' = pos pm) ∧
    (∀ j, k !! j = Some m →
      get2 (secondary (plc s)) (pos pm') = (length (secArr (plc s)) + j)%nat);
  pa_inv m x' pm' : live s' m x' pm' → ∃ x pm, live s m x pm
}.

Lemma pushAll_spec k s :
  secondary (plc s) = negb (primary (plc s)) → NoDup k → pushed k s (pushAll k s).
Proof.
  revert s. induction k as [|m k IH]; intros s Hsides Hnd.
  { split; try done.
    - simpl. by rewrite app_nil_r.
    - intros m x pm Hl. by exists x, pm.
    - eauto. }
  apply list.NoDup_cons in Hnd as [Hm Hnd]. simpl. set (s1 := pushSec m s).
  assert (E1 : primArr (plc s1) = primArr (plc s)) by (by apply primArr_setSec).
  assert (E2 : secArr (plc s1) = secArr (plc s) ++ [Some m]) by apply secArr_setSec.
  destruct (IH s1 Hsides Hnd) as [p1 p2 [p3 p3'] p4 p5 p6 p7].
  split; [congruence| |done|etrans; [apply clock_only_pushSec|done]| | |].
  - rewrite p2, E2. by rewrite <- app_assoc.
  - intros m'. rewrite p5. by apply (entry_updPM s m m').
  - intros m' x pm Hl.
    destruct (updPM_live s m m' (λ x, x <| pos ::= set2 (secondary (plc s))
      (length (secArr (plc s))) |>) x pm Hl) as [x1 Hl1].
    destruct (p6 m' x1 _ Hl1) as (x2&pm2&Hl2&Ev&Ea&Hnot&Hin).
    exists x2, pm2. case_decide as Heq; subst.
    + split_and!; [done..|intros Hno; exfalso; apply Hno; left|].
      intros [|j] Hj; simpl in Hj.
      * rewrite Hnot by done. simpl. rewrite get2_set2_eq. lia.
      * exfalso. apply Hm. by eapply list_elem_of_lookup_2.
    + split_and!; [done..| |].
      * intros Hno. apply Hnot. intros ?. apply Hno. by right.
      * intros [|j] Hj; simpl in Hj; [by simplify_eq|].
        transitivity (length (secArr (plc s1)) + j)%nat; [by apply Hin|].
        rewrite E2, length_app. simpl. lia.
  - intros m' x' pm' Hl. destruct (p7 m' x' pm' Hl) as (x1&pm1&Hl1).
    destruct (updPM_live_inv s m m' (λ x, x <| pos ::= set2 (secondary (plc s))
      (length (secArr (plc s))) |>) x1 pm1 Hl1) as (x&pm&Hl0&_). eauto.
Qed.

Definition switched (s : PState) : PState :=
  s <| plc ::= (λ p, p <| cursor := 0%nat |> <| primary := secondary p |>
                       <| secondary := primary p |>) |>.

Section finish.
Context (s : PState) (Hwf : WF s) (Hc : cursor (plc s) ≠ 0%nat).
Let rest := compact (drop (cursor (plc s)) (primArr (plc s))).
Let s1 := pushAll rest s.
Let s2 := switched s1.

Lemma rest_elem m : m ∈ rest ↔
  ∃ i, (cursor (plc s) ≤ i)%nat ∧ primArr (plc s) !! i = Some (Some m).
Proof.
  unfold rest. rewrite elem_of_compact. setoid_rewrite lookup_drop. split.
  - intros [i Hi]. exists (cursor (plc s) + i)%nat. split; [lia|done].
  - intros (i&?&Hi). exists (i - cursor (plc s))%nat.
    replace (cursor (plc s) + (i - cursor (plc s)))%nat with i by lia. done.
Qed.

Lemma rest_nodup : NoDup rest.
Proof.
  unfold rest, compact. apply list.NoDup_alt.
  assert (Hu : ∀ i j m, drop (cursor (plc s)) (primArr (plc s)) !! i = Some (Some m) →
    drop (cursor (plc s)) (primArr (plc s)) !! j = Some (Some m) → i = j).
  { intros i j m. rewrite !lookup_drop. intros Hi Hj.
    pose proof (wf_unique s _ _ _ Hwf Hi Hj). lia. }
  revert Hu. generalize (drop (cursor (plc s)) (primArr (plc s))). intros l Hu.
  apply list.NoDup_alt. induction l as [|[m|] l IH]; csimpl; [constructor| |].
  - constructor.
    + intros Hin. apply elem_of_compact in Hin as [i Hi].
      by specialize (Hu 0%nat (S i) m eq_refl Hi).
    + apply IH. intros i j m' Hi Hj. by injection (Hu (S i) (S j) m' Hi Hj).
  - apply IH. intros i j m' Hi Hj. by injection (Hu (S i) (S j) m' Hi Hj).
Qed.

Lemma finish_pushed : pushed rest s s1.
Proof. apply pushAll_spec; [apply (wf_sides s Hwf)|apply rest_nodup]. Qed.

Lemma finish_primArr : primArr (plc s2) = secArr (plc s) ++ (Some <$> rest).
Proof. exact (pa_sec _ _ _ finish_pushed). Qed.

Lemma finish_run : finishIteration s = Done ((), s2).
Proof.
  unfold finishIteration. erewrite bind_done by reflexivity.
  erewrite bind_done; [reflexivity|]. apply copyRest_run.
  intros m Hm. apply rest_elem in Hm as (i&_&Hi).
  destruct (wf_prim s Hwf _ _ Hi) as (x&pm&Hl&_). exists x, pm. by apply live_hasPM.
Qed.

(** Every object of the new primary array comes from the old one. *)
Lemma finish_prim i m :
  primArr (plc s2) !! i = Some (Some m) →
  ∃ j x pm x' pm', primArr (plc s) !! j = Some (Some m) ∧ live s m x pm ∧ live s1 m x' pm' ∧
    visited pm' = visited pm ∧ allConfirmed pm' = allConfirmed pm ∧
    get2 (secondary (plc s)) (pos pm') = i.
Proof.
  rewrite finish_primArr. intros [Hi|[Hge Hi]]%lookup_app_Some.
  - destruct (wf_secpos s Hwf i m Hc Hi) as (x&pm&Hl&Hp).
    rewrite (wf_sec s Hwf Hc) in Hi. destruct i as [|i]; [done|]. simpl in Hi.
    apply list_lookup_fmap_Some in Hi as (m'&[= <-]&Hi).
    apply list_elem_of_lookup_2, elem_of_compact in Hi as [k Hk].
    apply lookup_take_Some in Hk as [Hk Hlt].
    destruct (pa_live _ _ _ finish_pushed m x pm Hl) as (x'&pm'&Hl'&?&?&Hnot&_).
    exists k, x, pm, x', pm'. split_and!; [done..|]. rewrite Hnot; [done|].
    intros (j&?&Hj)%rest_elem. pose proof (wf_unique s _ _ _ Hwf Hj Hk). lia.
  - apply list_lookup_fmap_Some in Hi as (m'&[= <-]&Hi).
    pose proof (list_elem_of_lookup_2 _ _ _ Hi) as Hin.
    apply rest_elem in Hin as (k&_&Hk).
    destruct (wf_prim s Hwf _ _ Hk) as (x&pm&Hl&_).
    destruct (pa_live _ _ _ finish_pushed m x pm Hl) as (x'&pm'&Hl'&?&?&_&Hpos).
    exists k, x, pm, x', pm'. split_and!; [done..|]. rewrite (Hpos _ Hi). lia.
Qed.

(** ... and every object of the old one is in the new one. *)
Lemma finish_kept i m :
  primArr (plc s) !! i = Some (Some m) → ∃ j, primArr (plc s2) !! j = Some (Some m).
Proof.
  intros Hi. rewrite finish_primArr.
  destruct (decide (i < cursor (plc s))%nat) as [Hlt|Hge].
  - assert (Hin : m ∈ compact (take (cursor (plc s)) (primArr (plc s)))).
    { apply elem_of_compact. exists i. by apply lookup_take_Some. }
    apply list_elem_of_lookup in Hin as [j Hj]. exists (S j).
    rewrite (wf_sec s Hwf Hc). apply lookup_app_l_Some. simpl.
    by rewrite list_lookup_fmap, Hj.
  - assert (Hin : m ∈ rest) by (apply rest_elem; exists i; split; [lia|done]).
    apply list_elem_of_lookup in Hin as [j Hj]. exists (length (secArr (plc s)) + j)%nat.
    rewrite lookup_app_r by lia.
    replace (length (secArr (plc s)) + j - length (secArr (plc s)))%nat with j by lia.
    by rewrite list_lookup_fmap, Hj.
Qed.

Lemma finish_wf : WF s2.
Proof.
  pose proof finish_pushed as [p1 p2 [p3 p4] p5 p6 p7 p8].
  assert (Hss : primary (plc s2) = secondary (plc s)) by exact p4.
  split; rewrite ?Hss.
  - change (primary (plc s1) = negb (secondary (plc s))).
    rewrite p3, (wf_sides s Hwf). by rewrite negb_involutive.
  - rewrite finish_primArr, (wf_sec s Hwf Hc). done.
  - right. change (secArr (plc s2)) with (primArr (plc s1)). rewrite p1.
    apply (wf_slot0 s Hwf).
  - by left.
  - intros i m Hi. destruct (finish_prim i m Hi) as (j&x&pm&x'&pm'&Hj&Hl&Hl'&Ev&Ea&Hp).
    destruct (wf_prim s Hwf _ _ Hj) as (y&pmy&(?&?&_)&_&Hv).
    destruct Hl as (?&?&_). simplify_eq. exists x', pm'.
    split_and!; [exact Hl'|done|]. by rewrite Ev, Ea.
  - done.
  - done.
  - intros m x' pm' Hl'. change (live s1 m x' pm') in Hl'.
    destruct (p8 m x' pm' Hl') as (x&pm&Hl).
    destruct (p7 m x pm Hl) as (y&pmy&(A&B&_)&_&_&Hnot&_).
    destruct Hl' as (A'&B'&_). simplify_eq.
    destruct (wf_pos s Hwf m x pm Hl) as [E|Hin].
    + left. rewrite Hnot; [done|]. intros (i&Hi&Hat)%rest_elem.
      destruct (wf_prim s Hwf _ _ Hat) as (z&pmz&(?&?&_)&Hp&_).
      destruct Hl as (?&?&_). simplify_eq. rewrite E in Hi. destruct (primary (plc s)); simpl in Hi; lia.
    + right. destruct (finish_kept _ m Hin) as [j Hj].
      destruct (finish_prim j m Hj) as (_&_&_&z&pmz&_&_&(?&?&_)&_&_&Hp).
      simplify_eq. exact Hj.
Qed.

Lemma finish_abs :
  cursor (plc s) = cursorBound (plc s) →
  abs s2 = MkClock (passed (abs s) ++ arrived (abs s)) [] [] false.
Proof.
  intros Hb. pose proof finish_pushed as [_ _ _ _ p5 _ _].
  unfold abs at 1. rewrite decide_True by done. rewrite (abs_sweeping s Hc).
  cbn [passed arrived]. f_equal. rewrite finish_primArr, (wf_sec s Hwf Hc). change (None :: ?l) with ([None] ++ l).
  rewrite !entries_app. unfold entries. rewrite !compact_Some_fmap. simpl.
  assert (Hext : ∀ k : list mptr, omap (entry s2) k = omap (entry s) k).
  { intros k. induction k as [|m k IH]; [done|]. csimpl. rewrite IH.
    change (entry s2 m) with (entry s1 m). by rewrite p5. }
  rewrite !Hext. unfold rest. by rewrite Hb.
Qed.

Lemma finish_clock_only : clock_only s s2.
Proof. etrans; [apply (pa_clock _ _ _ finish_pushed)|by apply clock_only_plc]. Qed.
End finish.

(** ** The refinement *)

(** The abstract entry of a meta about to evict. *)
Definition next_post (meta : mptr) (s : PState) (r : next_result)
    (o : res (bool * PState)) : Prop :=
  match r with
  | Evicted v c => ∃ s', o = Done (true, s') ∧ WF s' ∧ abs s' = c ∧ evicted_for meta v s s'
  | NotFound c => ∃ s', o = Done (false, s') ∧ WF s' ∧ abs s' = c ∧ clock_only s s'
  | Duplicated => ∃ s', o = Done (true, s') ∧ duplicated meta s'
  end.

Lemma next_refines meta me s :
  WF s → eptr me = meta → evictor meta me s →
  next_post meta s (aNext me (abs s)) (NextAvailableObject meta s).
Proof.
  intros Hwf Hme (x&pm&Hl&Hcomp). unfold NextAvailableObject.
  erewrite bind_done by reflexivity. fold (started s).
  erewrite bind_done by reflexivity. cbv zeta.
  destruct (start_wf_abs s Hwf) as (Hwf1&Hc1&Eabs1&Hco).
  set (s1 := started s) in *.
  pose proof (wf_cursor s1 Hwf1) as [?|Hb]; [done|].
  rewrite decide_True by lia.
  assert (Hev1 : evictor meta me s1) by (exists x, pm; done).
  pose proof (sweep_refines meta me Hme _ s1 Hwf1 Hc1 (proj1 (proj2 Hb)) eq_refl Hev1) as Hs.
  rewrite Eabs1 in Hs. cbn [ahead passed] in Hs. unfold aNext.
  destruct (aSweep me (ahead (abs s)) (passed (abs s))) as [v U P|P|];
    unfold sweep_post in Hs;
    [| |destruct Hs as (s2&Hrun&Hd); exists s2; by erewrite bind_done by (exact Hrun)].
  - destruct Hs as (s2&Hrun&Hwf2&Hc2&Eabs2&Hev). exists s2.
    erewrite bind_done by (exact Hrun). split_and!; [done|done| |].
    + by rewrite Eabs2, Eabs1, Hme.
    + by eapply evicted_for_clock; [exact Hco|exact Hev|reflexivity].
  - destruct Hs as (s2&Hrun&Hwf2&Hcb&Hc2&Eabs2&Hco2).
    exists (switched (pushAll (compact (drop (cursor (plc s2)) (primArr (plc s2)))) s2)).
    erewrite bind_done by (exact Hrun).
    erewrite bind_done by (apply (finish_run s2 Hwf2 Hc2)).
    split_and!; [done|by apply finish_wf| |].
    + rewrite (finish_abs s2 Hwf2 Hc2 Hcb), Eabs2, Eabs1. done.
    + etrans; [exact Hco|]. etrans; [exact Hco2|]. by apply finish_clock_only.
Qed.

(** ** The eviction loop *)

(** What the hand does to an entry it passes. *)
Definition pass_entry (me e : Entry) : Entry :=
  if decide (eptr e = eptr me) then e
  else if evisited e && ecomplete e then MkEntry (eptr e) false (ecomplete e) else e.

Definition candidate (me e : Entry) : Prop := eptr e ≠ eptr me ∧ evisited e = false.
Definition complete_other (me e : Entry) : Prop := eptr e ≠ eptr me ∧ ecomplete e = true.

Lemma aSweep_exhausted me l acc acc' :
  aSweep me l acc = Exhausted acc' →
  acc' = acc ++ (pass_entry me <$> l) ∧ Forall (λ e, ¬ candidate me e) l.
Proof.
  revert acc. induction l as [|e l IH]; intros acc; csimpl.
  { intros [= <-]. by rewrite app_nil_r. }
  unfold pass_entry at 1. case_decide as Heq.
  - intros [-> Hall]%IH. rewrite <- app_assoc. split; [done|].
    constructor; [by intros [? _]|done].
  - destruct (evisited e) eqn:Hv; simpl; [|by case_decide].
    destruct (ecomplete e) eqn:Hc; simpl; intros [-> Hall]%IH; rewrite <- app_assoc;
      (split; [done|]); (constructor; [intros [_ ?]; congruence|done]).
Qed.

Lemma aSweep_passive me l acc :
  Forall (λ e, ¬ candidate me e ∧ ¬ complete_other me e) l →
  aSweep me l acc = Exhausted (acc ++ l).
Proof.
  revert acc. induction l as [|e l IH]; intros acc Hall; csimpl; [by rewrite app_nil_r|].
  apply list.Forall_cons in Hall as [[Hc Ho] Hall].
  unfold candidate, complete_other in *. case_decide; [by rewrite IH, <- app_assoc|].
  destruct (evisited e); [|naive_solver]. destruct (ecomplete e); [naive_solver|].
  simpl. by rewrite IH, <- app_assoc.
Qed.

Definition ring (c : Clock) : list Entry := ahead c ++ passed c ++ arrived c.

Lemma pass_complete me e : complete_other me e → candidate me (pass_entry me e).
Proof.
  intros [? Hc]. unfold pass_entry, candidate. rewrite decide_False by done.
  rewrite Hc. destruct (evisited e) eqn:Hv; simpl; auto.
Qed.

Lemma pass_complete_other me e : complete_other me e → complete_other me (pass_entry me e).
Proof.
  intros [? Hc]. unfold pass_entry, complete_other. rewrite decide_False by done.
  rewrite Hc. by destruct (evisited e).
Qed.

(** A failed call keeps a complete object available, at the front. *)
Lemma aNext_notfound me c c' :
  aNext me c = NotFound c' → Exists (complete_other me) (ring c) →
  ring c' = ahead c' ∧ Exists (complete_other me) (ahead c') ∧
  (passed c = [] → arrived c = [] → Exists (candidate me) (ahead c')).
Proof.
  unfold aNext. destruct (aSweep _ _ _) as [|acc|] eqn:Hs; [done| |done].
  intros [= <-]. apply aSweep_exhausted in Hs as [-> _]. unfold ring; simpl.
  rewrite !app_nil_r, !Exists_app, !list.Exists_fmap. intros Hex. split_and!; [done| |].
  - destruct Hex as [Ha|[Hp|Hr]]; [left; right|left; left; done|right; done].
    eapply Exists_impl; [|exact Ha]. apply pass_complete_other.
  - intros Hp Hr. rewrite Hp, Hr in Hex. left; right.
    destruct Hex as [Ha|[Ha|Ha]]; [|by apply Exists_nil in Ha..].
    eapply Exists_impl; [|exact Ha]. apply pass_complete.
Qed.

Lemma aNext_found me c :
  Exists (candidate me) (ahead c) → ∀ c', aNext me c ≠ NotFound c'.
Proof.
  intros Hex c'. unfold aNext. destruct (aSweep _ _ _) as [|acc|] eqn:Hs; [done| |done].
  apply aSweep_exhausted in Hs as [_ Hall]. exfalso.
  apply list.Exists_exists in Hex as (e&Hin&He).
  rewrite list.Forall_forall in Hall. by apply (Hall e Hin).
Qed.

Lemma evictor_clock_only meta me s s' :
  clock_only s s' → evictor meta me s → evictor meta me s'.
Proof.
  intros [a b c d Hm] (x&pm&(E1&E2&E3)&Hc).
  assert (Hl : (strip <$> metas s') !! meta = Some (strip x)).
  { by rewrite Hm, lookup_fmap, E1. }
  rewrite lookup_fmap in Hl. destruct (metas s' !! meta) as [x'|] eqn:Ex; [|done].
  simpl in Hl. apply (inj Some) in Hl. unfold strip in Hl. simpl in Hl.
  destruct (placerMeta x') as [pm'|] eqn:Ep; rewrite E2 in Hl; simpl in Hl; [|done].
  injection Hl as H1 H2 H3 H4 H5 H6 H7 H8 H9 H10 H11 H12 H13.
  exists x', pm'. split; [repeat split; congruence|].
  unfold allConfirmed in *. by rewrite H8, H9.
Qed.

Section loop.
Context (meta : mptr) (me : Entry) (Hme : eptr me = meta).

(** [evictLoop] returned: a clean eviction, or one that duplicated [meta]. *)
Definition loop_post (s : PState) (o : res (unit * PState)) : Prop :=
  ∃ s', o = Done ((), s') ∧ ((∃ v, WF s' ∧ evicted_for meta v s s') ∨ duplicated meta s').

Lemma loop_step n s :
  WF s → evictor meta me s →
  (∀ c, aNext me (abs s) ≠ NotFound c) → loop_post s (evictLoop (S n) meta s).
Proof.
  intros Hwf Hev Hnf. pose proof (next_refines meta me s Hwf Hme Hev) as Hn.
  simpl. destruct (aNext me (abs s)) as [v c|c|]; simpl in Hn; [|by destruct (Hnf c)|].
  - destruct Hn as (s'&Hr&?&?&?). exists s'. erewrite bind_done by (exact Hr). eauto.
  - destruct Hn as (s'&Hr&?). exists s'. erewrite bind_done by (exact Hr). eauto.
Qed.

Lemma loop_retry n s :
  WF s → evictor meta me s →
  (∀ s', WF s' → evictor meta me s' → aNext me (abs s) = NotFound (abs s') →
     clock_only s s' → loop_post s' (evictLoop n meta s')) →
  loop_post s (evictLoop (S n) meta s).
Proof.
  intros Hwf Hev Hk. pose proof (next_refines meta me s Hwf Hme Hev) as Hn.
  simpl. destruct (aNext me (abs s)) as [v c|c|] eqn:Ea; simpl in Hn.
  - destruct Hn as (s'&Hr&?&?&?). exists s'. erewrite bind_done by (exact Hr). eauto.
  - destruct Hn as (s'&Hr&Hwf'&Eabs&Hco). erewrite bind_done by (exact Hr).
    destruct (Hk s') as (s2&Hr2&Hp); [done|by eapply evictor_clock_only|by rewrite Eabs|done|].
    exists s2. split; [done|]. destruct Hp as [(v&?&?)|?]; [left|by right].
    exists v. split; [done|]. by eapply evicted_for_clock; [exact Hco| |reflexivity].
  - destruct Hn as (s'&Hr&?). exists s'. erewrite bind_done by (exact Hr). eauto.
Qed.

Lemma loop_terminates n s :
  WF s → evictor meta me s → Exists (complete_other me) (ring (abs s)) →
  loop_post s (evictLoop (S (S (S n))) meta s).
Proof.
  intros Hwf Hev Hex. apply loop_retry; [done..|]. intros s1 Hwf1 Hev1 E1 _.
  destruct (aNext_notfound _ _ _ E1 Hex) as (Hr1&Hex1&_).
  apply loop_retry; [done..|]. intros s2 Hwf2 Hev2 E2 _.
  destruct (aNext_notfound _ _ _ E2) as (_&_&Hc); [by rewrite Hr1|].
  unfold ring in Hr1. rewrite <- app_nil_r in Hr1. apply app_inv_head in Hr1.
  apply app_nil in Hr1 as [Hp Ha]. specialize (Hc Hp Ha).
  apply loop_step; [done..|]. by apply aNext_found.
Qed.

Lemma loop_spins n s :
  WF s → evictor meta me s →
  Forall (λ e, ¬ candidate me e ∧ ¬ complete_other me e) (ring (abs s)) →
  evictLoop n meta s = Spins.
Proof.
  revert s. induction n as [|n IH]; intros s Hwf Hev Hall; [done|].
  pose proof (next_refines meta me s Hwf Hme Hev) as Hn. unfold ring in Hall.
  rewrite !list.Forall_app in Hall. destruct Hall as (Ha&Hp&Hr).
  unfold aNext in Hn. rewrite aSweep_passive in Hn by done.
  destruct Hn as (s'&Hrun&Hwf'&Eabs&Hco). simpl. erewrite bind_done by (exact Hrun).
  apply IH; [done|by eapply evictor_clock_only|]. rewrite Eabs. unfold ring; simpl.
  rewrite !app_nil_r, !list.Forall_app. auto.
Qed.
End loop.
