(* ===== verification/Accounting.v ===== *)
(** * Size accounting of the placer

    The placer keeps, for every instance, the number of bytes placed on it.
    The invariant proved here says that this 64-bit counter is exactly the
    bytes charged to the instance by the objects that are not evicted: a chunk
    that was confirmed, or one reserved on the place of an evicted object. *)

From S2P Require Import Prelude Lambdastore Group Meta Placer Clock ClockRefine.

(** ** What an object is charged for *)

(** The instance an index of the group stands for. *)
Definition locate (h : SHeap) (g : grp) (z : Z) : option iptr :=
  gr ← groups h !! g;
  slot ← zlookup (All gr) z;
  p ← slot;
  gi ← ginsts h !! p;
  match gdep gi with LInstance i => Some i | LDeployment _ => None end.

Section charge.
Context (loc : Z → option iptr) (ip : iptr).

Definition hit (z : Z) : Z := if decide (loc z = Some ip) then 1 else 0.
Definition ohit (o : option Z) : Z := match o with Some z => hit z | None => 0 end.

(** Chunks on [ip]: a confirmed chunk is where it was placed, an unconfirmed
    one where the swap map, if any, reserves it. *)
Fixpoint chunks_on (C : list bool) (P S : list Z) : Z :=
  match C, P with
  | c :: C', p :: P' =>
      (if (c : bool) then hit p else ohit (head S)) + chunks_on C' P' (tail S)
  | _, _ => 0
  end.

Fixpoint hits (P : list Z) : Z :=
  match P with [] => 0 | p :: P' => hit p + hits P' end.

(** Unconfirmed chunks the swap map puts on [ip]. *)
Fixpoint open_hits (C : list bool) (S : list Z) : Z :=
  match C, S with
  | c :: C', z :: S' => (if (c : bool) then 0 else hit z) + open_hits C' S'
  | _, _ => 0
  end.

Definition charge (x : Meta) : Z :=
  if Deleted x then 0 else
  match placerMeta x with
  | None => 0
  | Some pm =>
      ChunkSize x * chunks_on (confirmed pm) (pl (Placement_ x)) (pl (swapMap pm))
  end.

Lemma chunks_on_open C P S :
  length P = length C → length S = length C →
  chunks_on C P S = chunks_on C P [] + open_hits C S.
Proof.
  revert P S. induction C as [|c C IH]; intros [|p P] [|z S]; simpl; [done..|].
  intros [= E1] [= E2]. rewrite (IH P S) by done. destruct c; lia.
Qed.

Lemma chunks_on_full C P S :
  length P = length C → (∀ i b, C !! i = Some b → b = true) → chunks_on C P S = hits P.
Proof.
  revert P S. induction C as [|c C IH]; intros [|p P] S; simpl; [done..|].
  intros [= E] Hall. pose proof (Hall 0%nat c eq_refl) as ->.
  rewrite IH; [done|done|]. intros i. apply (Hall (Datatypes.S i)).
Qed.

(** Placing and confirming chunk [i] at [v]. *)
Lemma chunks_on_confirm C P S i v :
  C !! i = Some false → length P = length C →
  chunks_on (<[i := true]> C) (<[i := v]> P) S =
  chunks_on C P S + hit v - ohit (S !! i).
Proof.
  revert P S i. induction C as [|c C IH]; intros [|p P] S [|i]; simpl; [done..| |].
  - intros [= ->] _. destruct S as [|z S]; simpl; lia.
  - intros Hi [= E]. rewrite (IH P (tail S) i) by done.
    replace (tail S !! i) with (S !! Datatypes.S i) by (by destruct S).
    lia.
Qed.

Lemma chunks_on_fresh n P : chunks_on (replicate n false) P [] = 0.
Proof. revert P. induction n as [|n IH]; intros [|p P]; simpl; [done..|]. by rewrite IH. Qed.
End charge.

(** ** The invariant *)

Definition loc_of (s : PState) : Z → option iptr := locate (sh s) (pgroup (plc s)).
Definition placed (s : PState) (ip : iptr) : Z := msum (charge (loc_of s) ip) (metas s).

(** [n] is the number of chunks of every object, [bs] what an instance's
    counter held before any object was placed. *)
Record meta_ok (n : nat) (x : Meta) (pm : PlacerMeta) : Prop := {
  mo_len : length (confirmed pm) = n;
  mo_placement : length (pl (Placement_ x)) = n;
  mo_count : numConfirmed pm = count_true (confirmed pm);
  mo_swap : swapMap pm = nilPlacement ∨ length (pl (swapMap pm)) = n
}.

Record Inv (n : nat) (bs : iptr → Z) (s : PState) : Prop := {
  inv_wf : WF s;
  inv_n : Z.of_nat n < 2 ^ 63;
  inv_meta m x pm : live s m x pm → meta_ok n x pm;
  inv_size ip ins : insts (ls (sh s)) !! ip = Some ins →
    lsize (imeta ins) = u64 (bs ip + placed s ip)
}.

(** ** Reading the group *)

Lemma InstanceAt_inv g z h ip h' :
  InstanceAt g z h = Done (ip, h') → locate h g z = Some ip ∧ h' = h.
Proof.
  unfold InstanceAt, locate, getGroup, getGI, mbind, M_bind, expect, option_bind.
  destruct (groups h !! g) as [gr|]; [|done].
  destruct (zlookup (All gr) z) as [[p|]|]; [|done..].
  destruct (ginsts h !! p) as [gi|]; [|done].
  destruct (gdep gi) as [d|i]; [done|]. by intros [= <- <-].
Qed.

Lemma InstanceAt_onSh_inv g z s ip s' :
  onSh (InstanceAt g z) s = Done (ip, s') → locate (sh s) g z = Some ip ∧ s' = s.
Proof.
  unfold onSh, zoom. destruct (InstanceAt g z (sh s)) as [[i h]|?|] eqn:E; [|done..].
  apply InstanceAt_inv in E as [E ->]. intros [= <- <-]. split; [done|]. by destruct s.
Qed.

Lemma locate_ls h g z l : locate (h <| ls := l |>) g z = locate h g z.
Proof. done. Qed.

Lemma locate_sliceBase h g g' z f :
  (∀ gr, All (f gr) = All gr) →
  locate (h <| groups ::= alter f g' |>) g z = locate h g z.
Proof.
  intros Hf. unfold locate. simpl. destruct (decide (g = g')) as [->|].
  - rewrite lookup_alter_eq. destruct (groups h !! g') as [gr|]; [|done]. simpl. by rewrite Hf.
  - by rewrite lookup_alter_ne.
Qed.

(** [charge] depends on the data of a meta, not on the clock. *)
Lemma charge_strip loc ip x : charge loc ip (strip x) = charge loc ip x.
Proof. unfold charge, strip. simpl. by destruct (placerMeta x). Qed.

Lemma msum_fmap {K V W} `{Countable K} (f : W → Z) (g : V → W) (m : gmap K V) :
  msum f (g <$> m) = msum (f ∘ g) m.
Proof.
  induction m as [|k v m Hk IH] using map_ind; [done|].
  rewrite fmap_insert, !msum_insert_new; [|done|by rewrite lookup_fmap, Hk].
  by rewrite IH.
Qed.

Lemma msum_ext {K V} `{Countable K} (f g : V → Z) (m : gmap K V) :
  (∀ k v, m !! k = Some v → f v = g v) → msum f m = msum g m.
Proof.
  induction m as [|k v m Hk IH] using map_ind; intros Hfg; [done|].
  rewrite !msum_insert_new by done. rewrite (Hfg k v) by apply lookup_insert_eq.
  rewrite IH; [done|]. intros k' v' Hk'. apply (Hfg k'). rewrite lookup_insert_ne; congruence.
Qed.

Lemma placed_strip s ip : placed s ip = msum (charge (loc_of s) ip) (strip <$> metas s).
Proof.
  unfold placed. rewrite msum_fmap. apply msum_ext. intros k v _.
  symmetry. apply charge_strip.
Qed.

Lemma placed_clock_only s s' ip : clock_only s s' → placed s' ip = placed s ip.
Proof.
  intros [Hsh _ _ Hg Hm]. rewrite !placed_strip, Hm. unfold loc_of. by rewrite Hsh, Hg.
Qed.

(** ** Changes of one meta *)

Definition setMeta (m : mptr) (x : Meta) (s : PState) : PState :=
  s <| metas ::= insert m x |>.

Lemma live_setMeta_eq s m x y pm : live (setMeta m x s) m y pm ↔
  y = x ∧ placerMeta x = Some pm ∧ Deleted x = false.
Proof.
  unfold live, setMeta; simpl. rewrite lookup_insert_eq. split.
  - by intros ([= <-]&?&?).
  - by intros (->&?&?).
Qed.

Lemma live_setMeta_ne s m m' x y pm : m ≠ m' → live (setMeta m x s) m' y pm ↔ live s m' y pm.
Proof. intros ?. unfold live, setMeta; simpl. by rewrite lookup_insert_ne. Qed.

(** Replacing the placer part of a live meta by one with the same position. *)
Lemma wf_setMeta s m x pm x' pm' :
  WF s → live s m x pm →
  placerMeta x' = Some pm' → Deleted x' = false → pos pm' = pos pm →
  ((visited pm = false → allConfirmed pm = true) →
   visited pm' = false → allConfirmed pm' = true) →
  WF (setMeta m x' s).
Proof.
  intros [h1 h2 h3 h4 h5 h6 h7 h8] Hl Ep Ed Epos Hv.
  assert (Hlive : ∀ m' y pmy, live s m' y pmy → ∃ y' pmy', live (setMeta m x' s) m' y' pmy' ∧
    pos pmy' = pos pmy ∧ ((visited pmy = false → allConfirmed pmy = true) →
      visited pmy' = false → allConfirmed pmy' = true)).
  { intros m' y pmy Hy. destruct (decide (m = m')) as [<-|Hne].
    - exists x', pm'. destruct Hy as (?&?&_), Hl as (?&?&_). simplify_eq.
      split; [by apply live_setMeta_eq|done].
    - exists y, pmy. split; [by apply live_setMeta_ne|done]. }
  split; [exact h1|exact h2|exact h3|exact h4| |exact h6| |].
  - intros i m' Hi. destruct (h5 i m' Hi) as (y&pmy&Hy&<-&Hvy).
    destruct (Hlive m' y pmy Hy) as (y'&pmy'&?&E&?). exists y', pmy'.
    split_and!; [done|by rewrite E|auto].
  - intros i m' Hc Hi. destruct (h7 i m' Hc Hi) as (y&pmy&Hy&<-).
    destruct (Hlive m' y pmy Hy) as (y'&pmy'&?&E&?). exists y', pmy'. by rewrite E.
  - intros m' y pmy Hy. destruct (decide (m = m')) as [<-|Hne].
    + apply live_setMeta_eq in Hy as (->&?&_). simplify_eq. rewrite Epos. by apply (h8 m x pm).
    + apply live_setMeta_ne in Hy; [|done]. by apply (h8 m' y pmy).
Qed.

Lemma placed_setMeta s m x x' ip :
  metas s !! m = Some x →
  placed (setMeta m x' s) ip =
    placed s ip - charge (loc_of s) ip x + charge (loc_of s) ip x'.
Proof. intros Hx. unfold placed, setMeta. simpl. by apply msum_insert. Qed.

(** The same, for an invariant whose charge does not move. *)
Lemma Inv_setMeta n bs s m x pm x' pm' :
  Inv n bs s → live s m x pm →
  placerMeta x' = Some pm' → Deleted x' = false → pos pm' = pos pm →
  ((visited pm = false → allConfirmed pm = true) →
   visited pm' = false → allConfirmed pm' = true) →
  meta_ok n x' pm' →
  (∀ ip, charge (loc_of s) ip x' = charge (loc_of s) ip x) →
  Inv n bs (setMeta m x' s).
Proof.
  intros [Hwf Hn Hm Hs] Hl Ep Ed Epos Hv Hok Hch. split; [by eapply wf_setMeta|done| |].
  - intros m' y pmy Hy. destruct (decide (m = m')) as [<-|Hne].
    + apply live_setMeta_eq in Hy as (->&?&_). by simplify_eq.
    + apply live_setMeta_ne in Hy; [|done]. by apply (Hm m' y pmy).
  - intros ip ins Hi. rewrite (Hs ip ins Hi). f_equal.
    rewrite (placed_setMeta s m x) by apply Hl. rewrite Hch. lia.
Qed.

Lemma meta_ok_strip n x pm x' pm' :
  meta_ok n x pm → confirmed pm' = confirmed pm → numConfirmed pm' = numConfirmed pm →
  swapMap pm' = swapMap pm → Placement_ x' = Placement_ x → meta_ok n x' pm'.
Proof. intros [a b c d] E1 E2 E3 E4. split; rewrite ?E1, ?E2, ?E3, ?E4; done. Qed.

Lemma Inv_clock_only n bs s s' : clock_only s s' → WF s' → Inv n bs s → Inv n bs s'.
Proof.
  intros Hco Hwf' [Hwf Hn Hm Hs]. split; [done|done| |].
  - intros m x' pm' Hl'.
    destruct (clock_only_live s s' m x' pm' Hco Hl') as (x&pm&Hl&_&E1&E2&E3&_&_&E4).
    by eapply meta_ok_strip; [apply (Hm m x pm Hl)|..].
  - intros ip ins Hi. rewrite (placed_clock_only s s' ip Hco). apply Hs.
    by rewrite <- (co_sh _ _ Hco).
Qed.

(** ** Placing and confirming a chunk *)

Definition confirmPM (chunk : Z) (pm : PlacerMeta) : PlacerMeta :=
  pm <| confirmed ::= zinsert chunk true |> <| numConfirmed ::= (λ n, i64 (n + 1)) |>.
Definition placeMeta (chunk v : Z) (x : Meta) (pm : PlacerMeta) : Meta :=
  x <| Placement_ ::= (λ p, setPlacement p chunk v) |>
    <| placerMeta := Some (confirmPM chunk pm) |>.

Lemma place_inv s m x pm chunk v s' :
  hasPM s m x pm → zlookup (confirmed pm) chunk = Some false →
  (assignPlacement m chunk v ≫= λ _, confirm m chunk) s = Done ((), s') →
  s' = setMeta m (placeMeta chunk v x pm) s.
Proof.
  intros [E1 E2] Hc. unfold assignPlacement, confirm, getPM, getMeta, modPM, modMeta, modify.
  unfold mbind, M_bind, mret, M_ret, expect. rewrite E1.
  destruct (zlookup (pl (Placement_ x)) chunk) as [o|]; [|done]. simpl.
  rewrite lookup_alter_eq, E1. simpl. rewrite E2, Hc. intros [= <-].
  unfold setMeta. simpl. f_equal. apply map_eq. intros k.
  destruct (decide (k = m)) as [->|Hk].
  - rewrite lookup_insert_eq, !lookup_alter_eq, E1. simpl. by rewrite E2.
  - by rewrite lookup_insert_ne, !lookup_alter_ne by done.
Qed.

Lemma count_confirm n x pm chunk :
  meta_ok n x pm → Z.of_nat n < 2 ^ 63 → zlookup (confirmed pm) chunk = Some false →
  numConfirmed (confirmPM chunk pm) = count_true (confirmed (confirmPM chunk pm)) ∧
  allConfirmed pm = false.
Proof.
  intros [Hlen _ Hcnt _] Hn Hc. apply zlookup_Some in Hc as [Hge Hc].
  pose proof (count_true_insert _ _ Hc) as Hi.
  pose proof (count_true_bounds (<[Z.to_nat chunk:=true]> (confirmed pm))) as Hb.
  pose proof (count_true_bounds (confirmed pm)). rewrite length_insert in Hb. split.
  - unfold confirmPM; simpl. unfold zinsert. rewrite decide_True by done.
    rewrite Hi, Hcnt. apply i64_small. unfold is_i64. lia.
  - unfold allConfirmed. apply bool_decide_eq_false. lia.
Qed.

Lemma meta_ok_place n x pm chunk v :
  meta_ok n x pm → Z.of_nat n < 2 ^ 63 → zlookup (confirmed pm) chunk = Some false →
  meta_ok n (placeMeta chunk v x pm) (confirmPM chunk pm).
Proof.
  intros Hok Hn Hc. destruct (count_confirm n x pm chunk Hok Hn Hc) as [Hcnt _].
  destruct Hok as [a b c d]. split; [| |exact Hcnt|exact d]; simpl; by rewrite length_zinsert.
Qed.

Lemma charge_place n x pm chunk v loc ip :
  meta_ok n x pm → placerMeta x = Some pm → Deleted x = false →
  zlookup (confirmed pm) chunk = Some false →
  charge loc ip (placeMeta chunk v x pm) =
  charge loc ip x + ChunkSize x * (hit loc ip v - ohit loc ip (zlookup (pl (swapMap pm)) chunk)).
Proof.
  intros [Hl Hp _ _] Epm Ed Hc. apply zlookup_Some in Hc as [Hge Hc].
  unfold charge. simpl. rewrite Ed, Epm. unfold zinsert, zlookup.
  rewrite !decide_True by done. rewrite chunks_on_confirm by (done || congruence). lia.
Qed.

Lemma wf_place n s m x pm chunk v :
  WF s → live s m x pm → meta_ok n x pm → Z.of_nat n < 2 ^ 63 →
  zlookup (confirmed pm) chunk = Some false →
  WF (setMeta m (placeMeta chunk v x pm) s).
Proof.
  intros Hwf Hl Hok Hn Hc. destruct (count_confirm n x pm chunk Hok Hn Hc) as [_ Hall].
  eapply wf_setMeta; [done|exact Hl|reflexivity|apply Hl|done|].
  intros Hv Hv'. specialize (Hv Hv'). congruence.
Qed.

(** ** Changes of the counters *)

Record sizes_by (f : iptr → Z) (s s' : PState) : Prop := {
  sb_metas : metas s' = metas s;
  sb_plc : plc s' = plc s;
  sb_pool : metaPool s' = metaPool s;
  sb_loc z : loc_of s' z = loc_of s z;
  sb_size ip ins' : insts (ls (sh s')) !! ip = Some ins' →
    ∃ ins, insts (ls (sh s)) !! ip = Some ins ∧
      lsize (imeta ins') = u64 (lsize (imeta ins) + f ip)
}.

Definition sizes_ok (s : PState) : Prop :=
  ∀ ip ins, insts (ls (sh s)) !! ip = Some ins → is_u64 (lsize (imeta ins)).

Lemma Inv_sizes_ok n bs s : Inv n bs s → sizes_ok s.
Proof. intros HI ip ins Hi. rewrite (inv_size n bs s HI ip ins Hi). apply u64_range. Qed.

Lemma sizes_by_nil s : sizes_ok s → sizes_by (λ _, 0) s s.
Proof.
  intros Hok. split; try done. intros ip ins Hi. exists ins. split; [done|].
  rewrite Z.add_0_r. symmetry. by apply u64_small, (Hok ip).
Qed.

Lemma sizes_by_ok f s s' : sizes_by f s s' → sizes_ok s'.
Proof.
  intros Hb ip ins' Hi. destruct (sb_size f s s' Hb ip ins' Hi) as (ins&_&->).
  apply u64_range.
Qed.

Lemma sizes_by_trans f g s1 s2 s3 :
  sizes_by f s1 s2 → sizes_by g s2 s3 → sizes_by (λ ip, f ip + g ip) s1 s3.
Proof.
  intros [a1 a2 a3 a4 a5] [b1 b2 b3 b4 b5]. split; [congruence..|].
  intros ip ins3 H3. destruct (b5 ip ins3 H3) as (ins2&H2&->).
  destruct (a5 ip ins2 H2) as (ins1&H1&->). exists ins1. split; [done|].
  by rewrite u64_add_l, Z.add_assoc.
Qed.

Lemma sizes_by_ext f g s s' : (∀ ip, f ip = g ip) → sizes_by f s s' → sizes_by g s s'.
Proof. intros E [a1 a2 a3 a4 a5]. split; [done..|]. intros ip. rewrite <- E. apply a5. Qed.

(** An increase of one counter by [d], modulo 2^64. *)
Lemma sizes_by_modInst s ip0 z d fm :
  sizes_ok s → loc_of s z = Some ip0 →
  (∀ m, lsize (fm m) = u64 (lsize m + d)) →
  ∀ s', onSh (onLs (modInst ip0 (λ x, x <| imeta ::= fm |>))) s = Done ((), s') →
  sizes_by (λ ip, hit (loc_of s) ip z * d) s s'.
Proof.
  intros Hok Hloc Hfm s' [= <-]. split; try done. intros ip ins' Hi. simpl in Hi.
  unfold hit. rewrite Hloc. destruct (decide (ip0 = ip)) as [->|Hne].
  - rewrite lookup_alter_eq in Hi. destruct (insts _ !! ip) as [ins|] eqn:E; [|done].
    simpl in Hi. injection Hi as <-. exists ins. split; [done|]. simpl.
    rewrite Hfm, decide_True by done. f_equal. lia.
  - rewrite lookup_alter_ne in Hi by done. exists ins'. split; [done|].
    rewrite decide_False by congruence. rewrite Z.add_0_r. symmetry.
    by apply u64_small, (Hok ip).
Qed.

(** What the loop over the swap map adds to the counter of [ip]. *)
Fixpoint swap_delta (loc : Z → option iptr) (cs ev : Z) (C : list bool) (l : list Z)
    (ip : iptr) : Z :=
  match C, l with
  | c :: C', z :: l' =>
      hit loc ip z * (if (c : bool) then - ev else cs - ev) + swap_delta loc cs ev C' l' ip
  | _, _ => 0
  end.

Lemma swap_delta_eq loc cs ev C l ip :
  length l = length C →
  swap_delta loc cs ev C l ip = cs * open_hits loc ip C l - ev * hits loc ip l.
Proof.
  revert l. induction C as [|c C IH]; intros [|z l]; simpl; [lia|done..|].
  intros [= E]. rewrite IH by done. destruct c; lia.
Qed.

Section swap.
Context (meta e : mptr) (x xe : Meta) (pm : PlacerMeta).

Lemma swapSize_inv s i tbe s' :
  hasPM s meta x pm → evicts pm = Some e → metas s !! e = Some xe → sizes_ok s →
  swapSize meta i tbe s = Done ((), s') →
  ∃ c, confirmed pm !! i = Some c ∧
  sizes_by (λ ip, hit (loc_of s) ip tbe *
    (if (c : bool) then - ChunkSize xe else ChunkSize x - ChunkSize xe)) s s'.
Proof.
  intros Hm He Hxe Hok Hr. unfold swapSize in Hr.
  erewrite bind_done in Hr by reflexivity.
  apply bind_inv in Hr as (ip&s1&Hat&Hr). apply InstanceAt_onSh_inv in Hat as [Hloc ->].
  erewrite bind_done in Hr by (unfold getMeta; by rewrite (proj1 Hm)).
  rewrite (bind_getPM s meta x pm) in Hr by done.
  apply bind_inv in Hr as (c&s2&Hc&Hr). apply expect_inv in Hc as [Hc ->].
  rewrite He in Hr. erewrite bind_done in Hr by reflexivity.
  erewrite bind_done in Hr by (unfold getMeta; by rewrite Hxe).
  exists c. split; [done|]. eapply sizes_by_modInst; [done|exact Hloc| |exact Hr].
  intros m. destruct c; [rewrite DecreaseSize_spec|rewrite IncreaseSize_spec]; simpl.
  - done.
  - by rewrite <- u64_add_r, u64_i64, u64_add_r.
Qed.

Lemma swapSizes_inv l s i s' :
  hasPM s meta x pm → evicts pm = Some e → metas s !! e = Some xe → sizes_ok s →
  swapSizes meta i l s = Done ((), s') →
  sizes_by (swap_delta (loc_of s) (ChunkSize x) (ChunkSize xe) (drop i (confirmed pm)) l) s s'.
Proof.
  revert s i. induction l as [|z l IH]; intros s i Hm He Hxe Hok Hr.
  { injection Hr as <-. eapply sizes_by_ext; [|by apply sizes_by_nil].
    intros ip. by destruct (drop i (confirmed pm)). }
  simpl in Hr. apply bind_inv in Hr as ([]&s1&H1&H2).
  destruct (swapSize_inv s i z s1 Hm He Hxe Hok H1) as (c&Hc&Hb1).
  pose proof (sb_metas _ _ _ Hb1) as Em.
  pose proof (IH s1 (S i)) as Hb2.
  eapply sizes_by_ext; [|eapply sizes_by_trans; [exact Hb1|apply Hb2; [| | | |exact H2]]].
  - intros ip. rewrite (drop_S (confirmed pm) c i) by done. simpl. f_equal.
    assert (Hext : ∀ C k, swap_delta (loc_of s1) (ChunkSize x) (ChunkSize xe) C k ip =
      swap_delta (loc_of s) (ChunkSize x) (ChunkSize xe) C k ip).
    { intros C. induction C as [|c' C IHC]; intros [|z' k]; simpl; [done..|].
      rewrite IHC. unfold hit. by rewrite (sb_loc _ _ _ Hb1). }
    by rewrite Hext.
  - unfold hasPM. by rewrite Em.
  - done.
  - by rewrite Em.
  - by eapply sizes_by_ok.
Qed.
End swap.

(** A state whose counters were corrected by what its charges lack. *)
Lemma Inv_sizes_by n bs f s0 s s' :
  sizes_by f s s' → WF s → Z.of_nat n < 2 ^ 63 →
  (∀ m x pm, live s m x pm → meta_ok n x pm) →
  (∀ ip ins, insts (ls (sh s)) !! ip = Some ins →
    lsize (imeta ins) = u64 (bs ip + placed s0 ip)) →
  (∀ ip, placed s ip = placed s0 ip + f ip) →
  Inv n bs s'.
Proof.
  intros [a1 a2 a3 a4 a5] Hwf Hn Hm Hs Hp.
  split; [|done| |].
  - destruct Hwf as [h1 h2 h3 h4 h5 h6 h7 h8].
    split; rewrite ?a2; [done..| |done| |].
    + intros i m Hi. destruct (h5 i m Hi) as (x&pm&?). exists x, pm. unfold live. by rewrite a1.
    + intros i m Hc Hi. destruct (h7 i m Hc Hi) as (x&pm&?). exists x, pm.
      unfold live. by rewrite a1.
    + intros m x pm Hl. apply (h8 m x pm). unfold live in *. by rewrite <- a1.
  - intros m x pm Hl. apply (Hm m x pm). unfold live in *. by rewrite <- a1.
  - intros ip ins' Hi. destruct (a5 ip ins' Hi) as (ins&Hins&->).
    rewrite (Hs ip ins Hins), u64_add_l. f_equal.
    assert (E : placed s' ip = placed s ip).
    { unfold placed. rewrite a1. apply msum_ext. intros k v _. unfold charge.
      destruct (Deleted v), (placerMeta v) as [pm|]; [done..| |done].
      assert (Hext : ∀ C P S, chunks_on (loc_of s') ip C P S = chunks_on (loc_of s) ip C P S).
      { intros C. induction C as [|c C IHC]; intros [|p P] S; simpl; [done..|].
        rewrite IHC. unfold hit, ohit, hit. destruct c; [by rewrite a4|].
        destruct (head S); [by rewrite a4|done]. }
      by rewrite Hext. }
    rewrite E, Hp. lia.
Qed.
