(* ===== verification/PlacerInv.v ===== *)
(** * The placer keeps its invariant

    Every operation of the placer preserves the accounting invariant [Inv], as
    long as no eviction duplicates an object in the clock; the operations are
    cut at the locks the code takes, so that the invariant holds in every
    interleaving of concurrent requests. *)

From S2P Require Import Prelude Lambdastore Group Meta Placer Clock ClockRefine Accounting.

(** ** Metas up to the clock *)

Definition mok (n : nat) (x : Meta) : Prop :=
  length (pl (Placement_ x)) = n ∧
  (∀ pm, placerMeta x = Some pm → meta_ok n x pm).

(** The invariant with, in addition, every meta sized for [n] chunks. *)
Record PInv (n : nat) (bs : iptr → Z) (s : PState) : Prop := {
  pi_inv : Inv n bs s;
  pi_meta m x : metas s !! m = Some x → mok n x
}.

Lemma mok_strip n x : mok n (strip x) ↔ mok n x.
Proof.
  unfold mok, strip; simpl. split; intros [? Hp]; (split; [done|]); intros pm E.
  - destruct (Hp _ (f_equal (fmap _) E)) as [a b c d]. by split.
  - destruct (placerMeta x) as [pm0|] eqn:Ep; [|done]. injection E as <-.
    destruct (Hp pm0 eq_refl) as [a b c d]. by split.
Qed.

Lemma moks_strip n s :
  (∀ m x, metas s !! m = Some x → mok n x) ↔
  (∀ m x, (strip <$> metas s) !! m = Some x → mok n x).
Proof.
  split; intros H m x.
  - rewrite lookup_fmap. intros (y&Hy&->)%fmap_Some. apply mok_strip. by apply (H m).
  - intros Hx. apply mok_strip, (H m). by rewrite lookup_fmap, Hx.
Qed.

Lemma PInv_live n bs s m x pm : PInv n bs s → live s m x pm → meta_ok n x pm.
Proof. intros [_ H] (?&?&_). by apply (H m x). Qed.

Lemma PInv_clock_only n bs s s' : clock_only s s' → WF s' → PInv n bs s → PInv n bs s'.
Proof.
  intros Hco Hwf [HI Hm]. split; [by eapply Inv_clock_only|].
  apply moks_strip. rewrite (co_metas _ _ Hco). by apply moks_strip.
Qed.

Lemma PInv_setMeta n bs s m x pm x' pm' :
  PInv n bs s → live s m x pm →
  placerMeta x' = Some pm' → Deleted x' = false → pos pm' = pos pm →
  ((visited pm = false → allConfirmed pm = true) →
   visited pm' = false → allConfirmed pm' = true) →
  meta_ok n x' pm' →
  (∀ ip, charge (loc_of s) ip x' = charge (loc_of s) ip x) →
  PInv n bs (setMeta m x' s).
Proof.
  intros [HI Hm] Hl E1 E2 E3 Hv Hok Hch. split; [by eapply Inv_setMeta|].
  intros m' y. unfold setMeta; simpl. rewrite lookup_insert_Some.
  intros [[<- <-]|[_ Hy]]; [|by apply (Hm m')].
  split; [apply Hok|]. intros pm'' ?. by simplify_eq.
Qed.

(** ** AddObject *)

Definition entered (s : PState) (pm : PlacerMeta) : PlacerMeta :=
  pm <| pos ::= set2 (primary (plc s)) (length (primArr (plc s))) |>
     <| visited := true |> <| visitedAt := now s |>.
Definition added (m : mptr) (s : PState) : PState :=
  updPM m (entered s) s <| plc ::= (λ p, setPrim (primArr p ++ [Some m]) p) |>.

Lemma AddObject_run s m x pm :
  hasPM s m x pm → AddObject m s = Done ((), added m s).
Proof.
  intros Hm. unfold AddObject. erewrite bind_done by reflexivity.
  by rewrite (bind_getPM s m x pm).
Qed.

Section add.
Context (s : PState) (m : mptr) (x : Meta) (pm : PlacerMeta).
Context (Hwf : WF s) (Hl : live s m x pm) (Hpos : pos pm = Two 0%nat 0%nat).

Local Abbreviation s' := (added m s) (only parsing).

Lemma add_absent i : primArr (plc s) !! i ≠ Some (Some m).
Proof.
  intros Hi. destruct (wf_prim s Hwf i m Hi) as (y&pmy&(?&?&_)&Hp&_).
  destruct Hl as (?&?&_). simplify_eq. rewrite Hpos in Hi.
  pose proof (wf_slot0 s Hwf). destruct (primary (plc s)); simpl in *; congruence.
Qed.

Lemma add_live m' y pmy : live s m' y pmy →
  ∃ y', live s' m' y' (if decide (m = m') then entered s pmy else pmy).
Proof. apply (updPM_live s m m' (entered s)). Qed.

Lemma add_primArr : primArr (plc s') = primArr (plc s) ++ [Some m].
Proof. apply primArr_setPrim. Qed.

Lemma add_secArr : secArr (plc s') = secArr (plc s).
Proof. apply (secArr_setPrim _ (plc s)), (wf_sides s Hwf). Qed.

Lemma add_prim_pos i m' :
  primArr (plc s) !! i = Some (Some m') → ∃ y pmy, live s' m' y pmy ∧
    get2 (primary (plc s)) (pos pmy) = i ∧ (visited pmy = false → allConfirmed pmy = true).
Proof.
  intros Hi. destruct (wf_prim s Hwf i m' Hi) as (y&pmy&Hy&Hp&Hv).
  destruct (add_live m' y pmy Hy) as [y' Hy']. rewrite decide_False in Hy'; [eauto 6|].
  intros <-. by apply (add_absent i).
Qed.

Lemma add_wf : WF s'.
Proof.
  pose proof (wf_cursor s Hwf) as Hc.
  pose proof (wf_slot0 s Hwf) as H0.
  split; change (primary (plc s')) with (primary (plc s));
    change (secondary (plc s')) with (secondary (plc s));
    change (cursor (plc s')) with (cursor (plc s));
    change (cursorBound (plc s')) with (cursorBound (plc s));
    rewrite ?add_primArr, ?add_secArr.
  - apply (wf_sides s Hwf).
  - by apply lookup_app_l_Some.
  - apply (wf_sec0 s Hwf).
  - rewrite length_app. lia.
  - intros i m' [Hi|[Hge Hi]]%lookup_app_Some; [by apply add_prim_pos|].
    apply list_lookup_singleton_Some in Hi as [Hi [= <-]].
    destruct (add_live m x pm Hl) as [y Hy]. rewrite decide_True in Hy by done.
    exists y, (entered s pm). split_and!; [done| |done]. unfold entered; simpl.
    rewrite get2_set2_eq. lia.
  - intros Hcur. rewrite (wf_sec s Hwf Hcur), take_app_le by lia. done.
  - intros i m' Hcur Hi. destruct (wf_secpos s Hwf i m' Hcur Hi) as (y&pmy&Hy&Hp).
    destruct (add_live m' y pmy Hy) as [y' Hy']. rewrite decide_False in Hy'; [eauto|].
    intros <-. rewrite (wf_sec s Hwf Hcur) in Hi. destruct i as [|i]; [done|].
    simpl in Hi. apply list_lookup_fmap_Some in Hi as (m'&[= <-]&Hi).
    apply list_elem_of_lookup_2, elem_of_compact in Hi as [k Hk].
    apply lookup_take_Some in Hk as [Hk _]. by apply (add_absent k).
  - intros m' y pm' Hy. destruct (updPM_live_inv s m m' (entered s) y pm' Hy) as (z&pmz&Hz&->).
    case_decide as E.
    + right. subst m'. unfold entered; simpl. rewrite get2_set2_eq.
      rewrite lookup_app_r by lia. by rewrite Nat.sub_diag.
    + destruct (wf_pos s Hwf m' z pmz Hz) as [?|Hin]; [by left|right].
      by apply lookup_app_l_Some.
Qed.

Lemma entry_added m' :
  entry s' m' = if decide (m = m') then Some (MkEntry m true (allConfirmed pm)) else entry s m'.
Proof.
  change (entry (updPM m (entered s) s) m' =
    if decide (m = m') then Some (MkEntry m true (allConfirmed pm)) else entry s m').
  case_decide as E; [subst m'|by apply entry_updPM_ne].
  by rewrite (entry_hasPM _ m _ _ (updPM_lookup_eq s m x pm (entered s) (live_hasPM _ _ _ _ Hl))).
Qed.

Lemma entries_added l : (∀ i, l !! i ≠ Some (Some m)) → entries s' l = entries s l.
Proof.
  intros Hl'. apply entries_ext. intros m' [i Hi]%elem_of_compact.
  rewrite entry_added, decide_False; [done|]. intros <-. by apply (Hl' i).
Qed.

(** [AddObject] appends the object, visited, to the abstract clock. *)
Lemma add_abs : abs s' = aAdd (MkEntry m true (allConfirmed pm)) (abs s).
Proof.
  pose proof (wf_cursor s Hwf) as Hc.
  assert (Hlast : entries s' [Some m] = [MkEntry m true (allConfirmed pm)]).
  { unfold entries; csimpl. by rewrite entry_added, decide_True. }
  assert (Hpre : ∀ a b, entries s' (drop a (take b (primArr (plc s)))) =
                        entries s (drop a (take b (primArr (plc s))))).
  { intros a b. apply entries_added. intros i. rewrite lookup_segment.
    case_decide; [apply add_absent|done]. }
  unfold abs, aAdd. rewrite add_primArr.
  change (cursor (plc s')) with (cursor (plc s)).
  change (cursorBound (plc s')) with (cursorBound (plc s)).
  case_decide as Hcur; simpl.
  - rewrite entries_app, Hlast. f_equal. f_equal.
    by apply entries_added; intros i; apply add_absent.
  - rewrite !take_app_le by lia. rewrite drop_app_le, entries_app, Hlast by lia.
    f_equal; [apply Hpre|apply (Hpre 0%nat)|f_equal].
    apply entries_added. intros i. rewrite lookup_drop. apply add_absent.
Qed.

Lemma clock_only_added : clock_only s s'.
Proof.
  unfold added. etrans; [|by apply clock_only_plc].
  apply clock_only_updPM. intros y. unfold strip; simpl. by destruct (placerMeta y).
Qed.
End add.

(** ** The outcome of the eviction loop *)

Lemma loop_done meta me n s s' :
  eptr me = meta → WF s → evictor meta me s → evictLoop n meta s = Done ((), s') →
  (∃ v, WF s' ∧ evicted_for meta v s s') ∨ duplicated meta s'.
Proof.
  intros Hme. revert s. induction n as [|n IH]; intros s Hwf Hev Hr; [done|].
  pose proof (next_refines meta me s Hwf Hme Hev) as Hn. simpl in Hr.
  destruct (aNext me (abs s)) as [v c|c|]; simpl in Hn; deex;
    erewrite bind_done in Hr by eassumption.
  - injection Hr as <-. left. eauto.
  - destruct (IH _ ltac:(eassumption) ltac:(by eapply evictor_clock_only) Hr)
      as [(v&?&?)|?]; [|by right].
    left. exists v. split; [done|]. by eapply evicted_for_clock; [| |reflexivity].
  - injection Hr as <-. by right.
Qed.

(** ** What an eviction does to the charges *)

Lemma copyPlacement_nil p : (0 < length (pl p))%nat → pl (copyPlacement nilPlacement p) = pl p.
Proof.
  intros H. unfold copyPlacement. simpl. rewrite decide_True by done. simpl.
  apply go_copy_same. by rewrite length_replicate.
Qed.

Section eviction.
Context (n : nat) (bs : iptr → Z) (meta v : mptr) (s s1 : PState).
Context (x : Meta) (pm : PlacerMeta).
Context (HI : PInv n bs s) (Hl : live s meta x pm) (Hswap : swapMap pm = nilPlacement).
Context (Hn : (0 < n)%nat) (Hwf1 : WF s1) (Hev : evicted_for meta v s s1).

(** The evicting meta once it has taken over the placement [P] of [v]. *)
Definition tookover (P : Placement) : PlacerMeta :=
  pm <| swapMap := copyPlacement (swapMap pm) P |> <| evicts := Some v |>.

Lemma evicted_victim : ∃ xv pmv, live s v xv pmv ∧ allConfirmed pmv = true ∧
  strip <$> metas s1 =
    <[meta := strip (x <| placerMeta := Some (tookover (Placement_ xv)) |>)]>
    (<[v := strip (xv <| Deleted := true |>)]> (strip <$> metas s)).
Proof.
  destruct (ev_metas _ _ _ _ Hev) as (y&pmy&xv&pmv&Hy&Hv&Hc&Hm).
  destruct Hy as (?&?&_), Hl as (?&?&_). simplify_eq. by exists xv, pmv.
Qed.

Lemma tookover_swap xv pmv : live s v xv pmv →
  pl (swapMap (tookover (Placement_ xv))) = pl (Placement_ xv) ∧
  length (pl (Placement_ xv)) = n.
Proof.
  intros Hv. pose proof (mo_placement _ _ _ (PInv_live _ _ _ _ _ _ HI Hv)) as Hlen.
  split; [|done]. simpl. rewrite Hswap. apply copyPlacement_nil. lia.
Qed.

Lemma evicted_moks m y : metas s1 !! m = Some y → mok n y.
Proof.
  revert m y. apply moks_strip. destruct evicted_victim as (xv&pmv&Hv&_&->).
  intros m y. rewrite !lookup_insert_Some.
  pose proof (PInv_live _ _ _ _ _ _ HI Hl) as [a b c d].
  pose proof (PInv_live _ _ _ _ _ _ HI Hv) as [a' b' c' d'].
  intros [[<- <-]|[_ [[<- <-]|[_ Hy]]]].
  - apply mok_strip. split; [done|]. intros pm' [= <-]. split; [done..|right].
    by destruct (tookover_swap xv pmv Hv) as [-> ->].
  - apply mok_strip. split; [done|]. simpl. intros pm' E. destruct Hv as (_&?&_).
    simplify_eq. by split.
  - revert Hy. apply (proj1 (moks_strip n s)). intros. by eapply (pi_meta n bs s HI).
Qed.

(** The evicting object is now charged for the chunks it will place on the
    victim's instances, and the victim for nothing. *)
Lemma evicted_placed ip : ∃ xv pmv, live s v xv pmv ∧
  placed s1 ip = placed s ip +
    (ChunkSize x * open_hits (loc_of s) ip (confirmed pm) (pl (Placement_ xv)) -
     ChunkSize xv * hits (loc_of s) ip (pl (Placement_ xv))).
Proof.
  destruct evicted_victim as (xv&pmv&Hv&Hall&Hm). exists xv, pmv. split; [done|].
  rewrite !placed_strip, Hm. unfold loc_of at 1. rewrite (ev_sh _ _ _ _ Hev), (ev_group _ _ _ _ Hev).
  fold (loc_of s). pose proof (ev_ne _ _ _ _ Hev) as Hne.
  pose proof (PInv_live _ _ _ _ _ _ HI Hl) as [a b c d].
  pose proof (PInv_live _ _ _ _ _ _ HI Hv) as [a' b' c' d'].
  destruct (tookover_swap xv pmv Hv) as [Esw Elen].
  rewrite (msum_insert _ _ _ (strip x)), (msum_insert _ _ _ (strip xv)), !charge_strip.
  2:{ by rewrite lookup_fmap, (proj1 Hv). }
  2:{ by rewrite lookup_insert_ne, lookup_fmap, (proj1 Hl). }
  unfold charge. simpl. destruct Hl as (_&Ep&->), Hv as (_&Epv&->). rewrite Ep, Epv.
  unfold tookover in Esw. simpl in Esw. rewrite Esw, Hswap.
  rewrite (chunks_on_open _ _ (confirmed pm) (pl (Placement_ x)) (pl (Placement_ xv))) by congruence.
  rewrite (chunks_on_full _ _ (confirmed pmv)); [simpl; lia|congruence|].
  apply count_true_full. unfold allConfirmed in Hall. apply bool_decide_eq_true in Hall.
  by rewrite <- c', Hall.
Qed.
End eviction.

(** ** The operations *)

Lemma strip_eq x y pm : strip x = strip y → placerMeta y = Some pm →
  ChunkSize x = ChunkSize y ∧ Deleted x = Deleted y ∧ Placement_ x = Placement_ y ∧
  ∃ pm', placerMeta x = Some pm' ∧ confirmed pm' = confirmed pm ∧
    swapMap pm' = swapMap pm ∧ evicts pm' = evicts pm.
Proof.
  unfold strip. simpl. intros E Hp. rewrite Hp in E.
  destruct (placerMeta x) as [pm'|]; simpl in E; [|done].
  injection E as E1 E2 E3 E4 E5 E6 E7 E8 E9 E10 E11 E12 E13.
  split_and!; [done..|]. exists pm'. by split_and!.
Qed.

Lemma PInv_place n bs s m x pm chunk v :
  PInv n bs s → live s m x pm → zlookup (confirmed pm) chunk = Some false →
  zlookup (pl (swapMap pm)) chunk = Some v →
  PInv n bs (setMeta m (placeMeta chunk v x pm) s).
Proof.
  intros HI Hl Hc Hs. pose proof (PInv_live _ _ _ _ _ _ HI Hl) as Hok.
  pose proof (inv_n _ _ _ (pi_inv _ _ _ HI)) as Hn.
  eapply PInv_setMeta; [done|exact Hl|reflexivity|apply Hl|done| |by apply meta_ok_place|].
  - destruct (count_confirm n x pm chunk Hok Hn Hc) as [_ Hall].
    intros Hv Hv'. specialize (Hv Hv'). congruence.
  - intros ip. erewrite charge_place; [|done|apply Hl|apply Hl|done].
    rewrite Hs. simpl. lia.
Qed.

Lemma placeSwapped_inv s m x pm chunk s' :
  hasPM s m x pm → zlookup (confirmed pm) chunk = Some false →
  placeSwapped m chunk s = Done ((), s') →
  ∃ v, zlookup (pl (swapMap pm)) chunk = Some v ∧ s' = setMeta m (placeMeta chunk v x pm) s.
Proof.
  intros Hm Hc Hr. unfold placeSwapped in Hr. rewrite (bind_getPM s m x pm) in Hr by done.
  apply bind_inv in Hr as (v&s1&Hv&Hr). apply expect_inv in Hv as [Hv ->].
  exists v. split; [done|]. by eapply place_inv.
Qed.

(** A change of the [once] or [evicts] of a placer part is invisible to the
    invariant. *)
Lemma PInv_updPM n bs s m f :
  PInv n bs s → (∀ pm, pos (f pm) = pos pm ∧ visited (f pm) = visited pm ∧
    confirmed (f pm) = confirmed pm ∧ numConfirmed (f pm) = numConfirmed pm ∧
    swapMap (f pm) = swapMap pm) →
  ∀ x pm, live s m x pm → PInv n bs (updPM m f s).
Proof.
  intros HI Hf x pm Hl. destruct (Hf pm) as (E1&E2&E3&E4&E5).
  assert (E : updPM m f s = setMeta m (x <| placerMeta := Some (f pm) |>) s).
  { unfold updPM, setMeta. simpl. f_equal. apply map_eq. intros k.
    destruct (decide (k = m)) as [->|Hk].
    - rewrite lookup_alter_eq, lookup_insert_eq. destruct Hl as (->&Ep&_). simpl.
      by rewrite Ep.
    - by rewrite lookup_alter_ne, lookup_insert_ne. }
  rewrite E. pose proof (PInv_live _ _ _ _ _ _ HI Hl) as Hok.
  eapply PInv_setMeta; [done|exact Hl|reflexivity|apply Hl|done| | |].
  - unfold allConfirmed. by rewrite E2, E3, E4.
  - by eapply meta_ok_strip; [exact Hok|..].
  - intros ip. unfold charge. simpl. destruct Hl as (_&->&->). by rewrite E3, E5.
Qed.

(** *** Computations that leave part of the state alone *)

Definition keeps (R : relation PState) {A} (c : M PState A) : Prop :=
  ∀ s a s', c s = Done (a, s') → R s s'.

(** The clock arrays, and the data of all metas but [m]. *)
Definition same_plc (s s' : PState) : Prop := plc s' = plc s.
Definition conf (s : PState) (m : mptr) : option (list bool) :=
  x ← metas s !! m; confirmed <$> placerMeta x.
Record frame (m : mptr) (s s' : PState) : Prop := {
  fr_pool : metaPool s' = metaPool s;
  fr_dom : dom (metas s') = dom (metas s);
  fr_conf m' : m' ≠ m → conf s' m' = conf s m';
  fr_last m' : lastChunk <$> metas s' !! m' = lastChunk <$> metas s !! m'
}.

#[local] Instance same_plc_preorder : PreOrder same_plc.
Proof. split; [done|]. intros ??? H1 H2. unfold same_plc in *. congruence. Qed.
#[local] Instance frame_preorder m : PreOrder (frame m).
Proof.
  split; [by split|]. intros ??? [a b c d] [a' b' c' d']. split; [congruence..| |].
  - intros m' ?. by rewrite c', c.
  - intros m'. by rewrite d', d.
Qed.

Section keeps.
Context (R : relation PState) `{!PreOrder R}.

Lemma keeps_bind {A B} (c : M PState A) (k : A → M PState B) :
  keeps R c → (∀ a, keeps R (k a)) → keeps R (c ≫= k).
Proof.
  intros Hc Hk s b s' (a&s1&H1&H2)%bind_inv. transitivity s1; [by eapply Hc|by eapply Hk].
Qed.
Lemma keeps_ret {A} (a : A) : keeps R (mret a).
Proof. by intros s b s' [= <- <-]. Qed.
Lemma keeps_mget : keeps R mget.
Proof. by intros s b s' [= <- <-]. Qed.
Lemma keeps_expect {A} e (o : option A) : keeps R (expect e o).
Proof. by intros s b s' [_ ->]%expect_inv. Qed.
Lemma keeps_throw {A} e : keeps R (throw (A:=A) e).
Proof. done. Qed.
Lemma keeps_getMeta m : keeps R (getMeta m).
Proof. intros s b s' Hr. unfold getMeta in Hr. by apply expect_inv in Hr as [_ ->]. Qed.
Lemma keeps_modify f : (∀ s, R s (f s)) → keeps R (modify f).
Proof. intros Hf s b s' E. by injection E as _ <-. Qed.
Lemma keeps_onSh {A} (c : M SHeap A) : (∀ s h, R s (s <| sh := h |>)) → keeps R (onSh c).
Proof.
  intros HR s b s'. unfold onSh, zoom. destruct (c (sh s)) as [[??]|?|]; [|done..].
  intros E. injection E as _ <-. apply HR.
Qed.
End keeps.

#[local] Hint Resolve keeps_ret keeps_mget keeps_expect keeps_throw keeps_getMeta : go.
#[local] Hint Resolve same_plc_preorder frame_preorder : go.
Ltac keeps :=
  repeat first [solve [auto with go] | apply keeps_bind; [apply _| |intros] | progress cbv zeta | case_match].

Lemma keeps_getPM R `{!PreOrder R} m : keeps R (getPM m).
Proof. unfold getPM. keeps. Qed.
#[local] Hint Resolve keeps_getPM : go.

Section keeps_plc.
Lemma same_plc_modMeta m f : keeps same_plc (modMeta m f).
Proof. by apply keeps_modify. Qed.
Lemma same_plc_modPM m f : keeps same_plc (modPM m f).
Proof. by apply keeps_modify. Qed.
Lemma same_plc_onSh {A} (c : M SHeap A) : keeps same_plc (onSh c).
Proof. by apply keeps_onSh. Qed.
#[local] Hint Resolve same_plc_modMeta same_plc_modPM same_plc_onSh : go.

Lemma same_plc_swapSizes m i l : keeps same_plc (swapSizes m i l).
Proof. revert i. induction l as [|z l IH]; intros i; simpl; unfold swapSize; keeps. Qed.
Lemma same_plc_placeSwapped m chunk : keeps same_plc (placeSwapped m chunk).
Proof. unfold placeSwapped, assignPlacement, confirm. keeps. Qed.
End keeps_plc.

Section keeps_frame.
Context (m : mptr).

Lemma frame_modMeta m' f :
  m' = m ∨ (∀ x, confirmed <$> placerMeta (f x) = confirmed <$> placerMeta x) →
  (∀ x, lastChunk (f x) = lastChunk x) →
  keeps (frame m) (modMeta m' f).
Proof.
  intros Hf Hlast. apply keeps_modify. intros s. split; [done|apply dom_alter_L| |].
  - intros k Hk. unfold conf. simpl. destruct (decide (k = m')) as [->|].
    + rewrite lookup_alter_eq. destruct (metas s !! m') as [x|]; [|done]. simpl.
      destruct Hf as [?|Hf]; [done|apply Hf].
    + by rewrite lookup_alter_ne.
  - intros k. simpl. destruct (decide (k = m')) as [->|].
    + rewrite lookup_alter_eq. destruct (metas s !! m') as [x|]; [|done]. simpl. by rewrite Hlast.
    + by rewrite lookup_alter_ne.
Qed.
Lemma frame_modPM m' f :
  m' = m ∨ (∀ pm, confirmed (f pm) = confirmed pm) → keeps (frame m) (modPM m' f).
Proof.
  intros Hf. apply frame_modMeta; [|done]. destruct Hf as [?|Hf]; [by left|right].
  intros x. simpl. destruct (placerMeta x) as [pm|]; [|done]. simpl. by rewrite Hf.
Qed.
Lemma frame_modPlc f : keeps (frame m) (modPlc f).
Proof. by apply keeps_modify. Qed.
Lemma frame_onSh {A} (c : M SHeap A) : keeps (frame m) (onSh c).
Proof. by apply keeps_onSh. Qed.
#[local] Hint Resolve frame_modMeta frame_modPM frame_modPlc frame_onSh : go.

Lemma frame_appendSecondary m' : keeps (frame m) (appendSecondary m').
Proof. unfold appendSecondary. keeps. Qed.
Lemma frame_replaceObject m' : keeps (frame m) (replaceObject m m').
Proof. unfold replaceObject. keeps. Qed.
Lemma frame_incCursor : keeps (frame m) incCursor.
Proof. unfold incCursor. keeps. Qed.
#[local] Hint Resolve frame_appendSecondary frame_replaceObject frame_incCursor : go.

Lemma frame_sweep l : keeps (frame m) (sweep m l).
Proof.
  induction l as [|[m'|] l IH]; simpl; keeps.
Qed.
Lemma frame_copyRest l : keeps (frame m) (copyRest l).
Proof. induction l as [|[m'|] l IH]; simpl; keeps. Qed.
#[local] Hint Resolve frame_sweep frame_copyRest : go.

Lemma frame_Next : keeps (frame m) (NextAvailableObject m).
Proof.
  unfold NextAvailableObject, startIteration, finishIteration. keeps.
Qed.
Lemma frame_evictLoop fuel : keeps (frame m) (evictLoop fuel m).
Proof. induction fuel as [|n IH]; simpl; [done|]. pose proof frame_Next. keeps. Qed.
Lemma frame_swapSizes i l : keeps (frame m) (swapSizes m i l).
Proof. revert i. induction l as [|z l IH]; intros i; simpl; unfold swapSize; keeps. Qed.
Lemma frame_placeSwapped chunk : keeps (frame m) (placeSwapped m chunk).
Proof. unfold placeSwapped, assignPlacement, confirm. keeps. Qed.
#[local] Hint Resolve frame_evictLoop frame_swapSizes frame_placeSwapped : go.

Lemma frame_evictAndPlace fuel chunk : keeps (frame m) (evictAndPlace fuel m chunk).
Proof. unfold evictAndPlace. keeps. Qed.
Lemma frame_placeChunk chunk z ip : keeps (frame m) (placeChunk m chunk z ip).
Proof.
  unfold placeChunk, assignPlacement, confirm, AddObject. keeps.
Qed.
#[local] Hint Resolve frame_evictAndPlace frame_placeChunk : go.

(** No operation on [m] touches the data of another object but its mark. *)
Lemma frame_locked fuel got chunk id : keeps (frame m) (GetOrInsert_locked fuel m got chunk id).
Proof.
  unfold GetOrInsert_locked. keeps.
Qed.
Lemma frame_enter chunk : keeps (frame m) (GetOrInsert_enter m chunk).
Proof.
  unfold GetOrInsert_enter. apply keeps_bind; [apply _| |intros].
  - apply frame_modMeta; [by left|]. intros x. by destruct (Deleted x).
  - keeps.
Qed.
Lemma frame_Get_locked : keeps (frame m) (Get_locked m).
Proof. unfold Get_locked, TouchObject. keeps. Qed.
End keeps_frame.

(** *** Eviction *)

Section evict.
Context (n : nat) (bs : iptr → Z) (meta : mptr) (s : PState) (x : Meta) (pm : PlacerMeta).
Context (HI : PInv n bs s) (Hl : live s meta x pm).
Context (Hswap : swapMap pm = nilPlacement) (Hn : (0 < n)%nat).

(** Correcting the counters by the swap map restores the accounting. *)
Lemma evict_sizes v s1 s2 x1 pm1 :
  WF s1 → evicted_for meta v s s1 → hasPM s1 meta x1 pm1 →
  swapSizes meta 0 (pl (swapMap pm1)) s1 = Done ((), s2) →
  PInv n bs s2 ∧ live s2 meta x1 pm1 ∧ confirmed pm1 = confirmed pm.
Proof.
  intros Hwf1 Hev Hpm1 Hr.
  destruct (evicted_victim meta v s s1 x pm Hl Hev) as (xv&pmv&Hv&_&Hm).
  destruct (tookover_swap n bs v s pm HI Hswap Hn xv pmv Hv) as [Esw Elen].
  assert (E1 : strip x1 = strip (x <| placerMeta := Some (tookover v pm (Placement_ xv)) |>)).
  { apply (inj Some). transitivity ((strip <$> metas s1) !! meta).
    - by rewrite lookup_fmap, (proj1 Hpm1).
    - by rewrite Hm, lookup_insert_eq. }
  destruct (strip_eq _ _ _ E1 eq_refl) as (Ecs&Edel&_&pm1'&Ep1&Ec1&Es1&Ee1).
  pose proof (proj2 Hpm1) as Ep1'. rewrite Ep1 in Ep1'. injection Ep1' as ->. simpl in Edel, Ecs, Ec1, Ee1.
  assert (Hxe : ∃ xe, metas s1 !! v = Some xe ∧ ChunkSize xe = ChunkSize xv).
  { pose proof (f_equal (λ f, f !! v) Hm) as Ev. simpl in Ev.
    rewrite lookup_insert_ne, lookup_insert_eq, lookup_fmap in Ev
      by (apply not_eq_sym, (ev_ne _ _ _ _ Hev)).
    apply fmap_Some in Ev as (xe&Hxe&Exe). exists xe. split; [done|].
    unfold strip in Exe. by injection Exe. }
  destruct Hxe as (xe&Hxe&Ecv).
  assert (Hls1 : insts (ls (sh s1)) = insts (ls (sh s))) by (by rewrite (ev_sh _ _ _ _ Hev)).
  assert (Hok1 : sizes_ok s1).
  { intros ip ins. rewrite Hls1. apply (Inv_sizes_ok n bs s (pi_inv _ _ _ HI)). }
  pose proof (swapSizes_inv meta v x1 xe pm1 _ s1 0 s2 Hpm1 Ee1 Hxe Hok1 Hr) as Hb.
  assert (Hmoks : ∀ m y, metas s1 !! m = Some y → mok n y).
  { apply (evicted_moks n bs meta v s s1 x pm); done. }
  assert (Hloc : ∀ z, loc_of s1 z = loc_of s z).
  { intros z. unfold loc_of. by rewrite (ev_sh _ _ _ _ Hev), (ev_group _ _ _ _ Hev). }
  split; [split|].
  - eapply (Inv_sizes_by n bs _ s s1 s2 Hb Hwf1 (inv_n _ _ _ (pi_inv _ _ _ HI))).
    + intros m y pmy (Hy&Hp&_). by apply (Hmoks m y).
    + intros ip ins. rewrite Hls1. apply (inv_size _ _ _ (pi_inv _ _ _ HI)).
    + intros ip.
      destruct (evicted_placed n bs meta v s s1 x pm HI Hl Hswap Hn Hev ip) as (xv'&pmv'&Hv'&->).
      destruct Hv as (A&_&_), Hv' as (A'&_&_). rewrite A in A'. injection A' as <-. f_equal.
      rewrite Es1, Esw, Ec1, Ecs, Ecv. rewrite drop_0, swap_delta_eq.
      * unfold loc_of. by rewrite (ev_sh _ _ _ _ Hev), (ev_group _ _ _ _ Hev).
      * rewrite Elen. symmetry. apply (mo_len n x), (PInv_live _ _ _ _ _ _ HI Hl).
  - intros m y. rewrite (sb_metas _ _ _ Hb). apply Hmoks.
  - split; [|done]. split_and!; [by rewrite (sb_metas _ _ _ Hb); apply Hpm1|done|].
    rewrite Edel. apply Hl.
Qed.

Lemma evictAndPlace_inv fuel chunk s' :
  zlookup (confirmed pm) chunk = Some false →
  evictAndPlace fuel meta chunk s = Done ((), s') →
  PInv n bs s' ∨ duplicated meta s'.
Proof.
  intros Hc Hr. unfold evictAndPlace in Hr.
  apply bind_inv in Hr as ([]&s1&Hloop&Hr).
  apply bind_inv in Hr as (pm1&s1'&Hpm&Hr).
  assert (s1' = s1 ∧ ∃ x1, hasPM s1 meta x1 pm1) as [-> [x1 Hpm1]].
  { unfold getPM, getMeta in Hpm. apply bind_inv in Hpm as (x1&s1''&E1&E2).
    apply expect_inv in E1 as [E1 ->]. apply expect_inv in E2 as [E2 ->].
    split; [done|]. by exists x1. }
  apply bind_inv in Hr as ([]&s2&Hsw&Hr).
  apply bind_inv in Hr as ([]&s3&Hpl&Hr).
  assert (s' = updPM meta (λ y, y <| once := Some false |>) s3) as -> by (by injection Hr as <-).
  destruct (loop_done meta (MkEntry meta false (allConfirmed pm)) fuel s s1) as [(v&Hwf1&Hev)|Hd];
    [done|apply (inv_wf _ _ _ (pi_inv _ _ _ HI))|by exists x, pm|done|left|right].
  - destruct (evict_sizes v s1 s2 x1 pm1 Hwf1 Hev Hpm1 Hsw) as (HI2&Hl2&Econf).
    rewrite <- Econf in Hc.
    destruct (placeSwapped_inv s2 meta x1 pm1 chunk s3 (live_hasPM _ _ _ _ Hl2) Hc Hpl)
      as (w&Hw&->).
    eapply PInv_updPM; [by apply PInv_place|done|].
    apply live_setMeta_eq. split_and!; [done..|]. apply Hl2.
  - destruct Hd as (i&j&Hij&Hi&Hj). exists i, j.
    assert (E : plc s3 = plc s1).
    { etrans; [by eapply same_plc_placeSwapped|by eapply same_plc_swapSizes]. }
    change (plc (updPM _ _ s3)) with (plc s3). rewrite E. done.
Qed.
End evict.

(** *** Placing a chunk on its slice *)

Lemma PInv_hit n bs s0 s m x pm chunk z ip fm s' :
  PInv n bs s0 → live s0 m x pm → swapMap pm = nilPlacement →
  zlookup (confirmed pm) chunk = Some false → loc_of s0 z = Some ip →
  clock_only (setMeta m (placeMeta chunk z x pm) s0) s → WF s →
  (∀ l, lsize (fm l) = u64 (lsize l + ChunkSize x)) →
  onSh (onLs (modInst ip (λ i, i <| imeta ::= fm |>))) s = Done ((), s') →
  PInv n bs s'.
Proof.
  intros HI Hl Hsw Hc Hloc Hco Hwf Hfm Hr.
  set (s1 := setMeta m (placeMeta chunk z x pm) s0) in *.
  pose proof (PInv_live _ _ _ _ _ _ HI Hl) as Hok.
  pose proof (inv_n _ _ _ (pi_inv _ _ _ HI)) as Hn.
  assert (Esh : sh s = sh s0) by (by rewrite (co_sh _ _ Hco)).
  assert (Hmoks : ∀ k y, metas s !! k = Some y → mok n y).
  { apply moks_strip. rewrite (co_metas _ _ Hco). apply moks_strip. intros k y.
    unfold s1, setMeta; simpl. rewrite lookup_insert_Some. intros [[<- <-]|[_ Hy]].
    - pose proof (meta_ok_place n x pm chunk z Hok Hn Hc) as Hok'.
      split; [apply Hok'|]. intros pm' [= <-]. done.
    - by apply (pi_meta n bs s0 HI k). }
  assert (Hloc' : loc_of s z = Some ip).
  { unfold loc_of. by rewrite Esh, (co_group _ _ Hco). }
  assert (Hszs : sizes_ok s).
  { intros i ins. rewrite Esh. apply (Inv_sizes_ok n bs s0 (pi_inv _ _ _ HI)). }
  pose proof (sizes_by_modInst s ip z (ChunkSize x) fm Hszs Hloc' Hfm s' Hr) as Hb.
  split; [|by intros k y; rewrite (sb_metas _ _ _ Hb); apply Hmoks].
  eapply (Inv_sizes_by n bs _ s0 s s' Hb Hwf Hn).
  - intros k y pmy (Hy&Hp&_). by apply (Hmoks k y).
  - intros i ins. rewrite Esh. apply (inv_size _ _ _ (pi_inv _ _ _ HI)).
  - intros i. rewrite (placed_clock_only s1 s i Hco).
    unfold s1. rewrite (placed_setMeta s0 m x) by apply Hl.
    erewrite charge_place; [|done|apply Hl|apply Hl|done]. rewrite Hsw. simpl.
    change (zlookup [] chunk) with (zlookup (A:=Z) [] chunk).
    assert (zlookup (A:=Z) [] chunk = None) as -> by (unfold zlookup; by case_decide).
    simpl. unfold loc_of at 4. rewrite Esh, (co_group _ _ Hco). simpl.
    fold (loc_of s0). lia.
Qed.

Lemma placeChunk_inv n bs s m x pm chunk z ip s' :
  PInv n bs s → live s m x pm → swapMap pm = nilPlacement →
  zlookup (confirmed pm) chunk = Some false → loc_of s z = Some ip →
  placeChunk m chunk z ip s = Done ((), s') → PInv n bs s'.
Proof.
  intros HI Hl Hsw Hc Hloc Hr. unfold placeChunk in Hr.
  apply bind_inv in Hr as ([]&sa&Ha&Hr). apply bind_inv in Hr as ([]&s1&Hcf&Hr).
  assert (s1 = setMeta m (placeMeta chunk z x pm) s) as ->.
  { eapply place_inv; [by apply live_hasPM|done|]. by erewrite bind_done. }
  set (s1 := setMeta m (placeMeta chunk z x pm) s) in *.
  pose proof (PInv_live _ _ _ _ _ _ HI Hl) as Hok.
  assert (Hwf1 : WF s1).
  { eapply wf_place; [apply (pi_inv _ _ _ HI)|done|exact Hok| |done].
    apply (inv_n _ _ _ (pi_inv _ _ _ HI)). }
  assert (Hl1 : live s1 m (placeMeta chunk z x pm) (confirmPM chunk pm)).
  { apply live_setMeta_eq. split_and!; [done..|]. apply Hl. }
  erewrite bind_done in Hr by reflexivity.
  rewrite (bind_getPM s1 m _ _ _ (live_hasPM _ _ _ _ Hl1)) in Hr.
  apply bind_inv in Hr as ([]&s2&Hadd&Hr).
  assert (clock_only s1 s2 ∧ WF s2) as [Hco Hwf2].
  { case_decide as E; [|injection Hadd as <-; done].
    rewrite (AddObject_run s1 m _ _ (live_hasPM _ _ _ _ Hl1)) in Hadd.
    injection Hadd as <-. split; [apply clock_only_added|].
    eapply add_wf; [done|exact Hl1|].
    destruct (wf_pos s1 Hwf1 _ _ _ Hl1) as [?|Hin]; [done|].
    rewrite E, (wf_slot0 s1 Hwf1) in Hin. done. }
  apply bind_inv in Hr as (mm&s2'&Hmm&Hr). unfold getMeta in Hmm.
  apply expect_inv in Hmm as [Hmm ->].
  assert (ChunkSize mm = ChunkSize x) as Ecs.
  { pose proof (f_equal (λ f, f !! m) (co_metas _ _ Hco)) as E. simpl in E.
    rewrite !lookup_fmap, Hmm, lookup_insert_eq in E. simpl in E. unfold strip in E.
    by injection E. }
  eapply PInv_hit; [exact HI|exact Hl|done|done|done|exact Hco|done| |exact Hr].
  intros l. rewrite IncreaseSize_spec, Ecs. done.
Qed.

(** *** The section under the placer lock *)

Lemma PInv_sh n bs s h :
  PInv n bs s → ls h = ls (sh s) → (∀ g z, locate h g z = locate (sh s) g z) →
  PInv n bs (s <| sh := h |>).
Proof.
  intros [HI Hm] El Hloc. split; [|done].
  destruct HI as [[h1 h2 h3 h4 h5 h6 h7 h8] Hn Hok Hs]. split; [by split|done|done|].
  intros ip ins. simpl. rewrite El. intros Hi. rewrite (Hs ip ins Hi). f_equal. f_equal.
  unfold placed. apply msum_ext. intros k v _. unfold charge.
  destruct (Deleted v), (placerMeta v) as [pm|]; [done..| |done]. f_equal.
  assert (E : ∀ z, loc_of (s <| sh := h |>) z = loc_of s z) by (intros z; apply Hloc).
  generalize (confirmed pm), (pl (Placement_ v)), (pl (swapMap pm)).
  intros C. induction C as [|c C IH]; intros [|p P] S; simpl; [done..|].
  rewrite (IH P (tail S)). unfold ohit, hit. rewrite <- !E. destruct c; [done|].
  destruct (head S); [by rewrite E|done].
Qed.

Lemma GetIndex_inv sl idx h r h' :
  GetIndex sl idx h = Done (r, h') →
  ls h' = ls h ∧ ∀ g z, locate h' g z = locate h g z.
Proof.
  unfold GetIndex. intros Hr. apply bind_inv in Hr as (sl'&h1&H1&Hr).
  assert (h' = h1) as ->.
  { repeat (apply bind_inv in Hr as (?&?&Hx&Hr); unfold getGroup in Hx;
      apply expect_inv in Hx as [_ ->]). case_decide; [done|]. by injection Hr. }
  destruct (sonce sl); [by injection H1 as _ <-|].
  unfold slice_get in H1. apply bind_inv in H1 as (g&h2&Hg&H1).
  apply expect_inv in Hg as [_ ->]. apply bind_inv in H1 as (b&h3&Hb&H1).
  injection H1 as _ <-. unfold nextSlice in Hb.
  apply bind_inv in Hb as (gr&h4&Hgr&Hb). unfold getGroup in Hgr.
  apply expect_inv in Hgr as [_ ->]. cbv zeta in Hb. erewrite bind_done in Hb by reflexivity.
  case_decide; [done|]. injection Hb as _ <-. split; [done|].
  intros g' z. by apply (locate_sliceBase h g' g z).
Qed.

Lemma PInv_slice n bs s m x pm sl :
  PInv n bs s → live s m x pm → PInv n bs (setMeta m (x <| slice := sl |>) s).
Proof.
  intros HI Hl. pose proof (PInv_live _ _ _ _ _ _ HI Hl) as Hok.
  eapply PInv_setMeta; [done|exact Hl|apply Hl|apply Hl|done|done| |done].
  by eapply meta_ok_strip; [exact Hok|..].
Qed.

Lemma modMeta_run m f s x s' :
  metas s !! m = Some x → modMeta m f s = Done ((), s') → s' = setMeta m (f x) s.
Proof.
  intros Hx E. injection E as <-. unfold setMeta; simpl. f_equal.
  apply map_eq. intros k. destruct (decide (k = m)) as [->|].
  - by rewrite lookup_alter_eq, lookup_insert_eq, Hx.
  - by rewrite lookup_alter_ne, lookup_insert_ne.
Qed.

Lemma getInst_onSh_inv ip s ins s' :
  onSh (onLs (getInst ip)) s = Done (ins, s') →
  insts (ls (sh s)) !! ip = Some ins ∧ s' = s.
Proof.
  unfold onSh, onLs, zoom, getInst. destruct (insts (ls (sh s)) !! ip) as [i|] eqn:E; [|done].
  simpl. intros Er. injection Er as <- <-. split; [done|]. by destruct s as [[]].
Qed.

Lemma locked_inv n bs fuel s m x pm got chunk id r s' :
  PInv n bs s → hasPM s m x pm → zlookup (confirmed pm) chunk = Some false →
  GetOrInsert_locked fuel m got chunk id s = Done (r, s') →
  PInv n bs s' ∨ duplicated m s'.
Proof.
  intros HI Hpm Hc Hr. unfold GetOrInsert_locked in Hr.
  erewrite bind_done in Hr by (unfold getMeta; by rewrite (proj1 Hpm)).
  destruct (Deleted x) eqn:Ed; [injection Hr as _ <-; by left|].
  assert (Hl : live s m x pm) by (by destruct Hpm).
  rewrite (bind_getPM s m x pm) in Hr by done.
  pose proof (PInv_live _ _ _ _ _ _ HI Hl) as Hok.
  assert (Hn : (0 < n)%nat).
  { apply zlookup_lt in Hc. pose proof (mo_len _ _ _ Hok). lia. }
  unfold IsPlacementEmpty in Hr. case_bool_decide as Hsw; simpl in Hr.
  2:{ apply bind_inv in Hr as ([]&s1&Hp&Hr). injection Hr as _ <-. left.
      destruct (placeSwapped_inv s m x pm chunk s1 Hpm Hc Hp) as (v&Hv&->).
      by apply PInv_place. }
  assert (Hnil : swapMap pm = nilPlacement).
  { destruct (mo_swap _ _ _ Hok) as [?|Hlen]; [done|]. rewrite Hsw in Hlen. simpl in Hlen. lia. }
  apply bind_inv in Hr as ([assigned sl]&s1&Hgi&Hr). unfold onSh, zoom in Hgi.
  destruct (GetIndex (slice x) id (sh s)) as [[[a sl'] h]|?|] eqn:Egi; [|done..].
  injection Hgi as -> -> <-. destruct (GetIndex_inv _ _ _ _ _ Egi) as [Els Eloc].
  pose proof (PInv_sh n bs s h HI Els Eloc) as HI1.
  apply bind_inv in Hr as ([]&s2&Hm&Hr).
  set (s1 := MkPState h (metas s) (metaPool s) (plc s) (now s)) in *.
  change (PInv n bs s1) in HI1.
  rewrite (modMeta_run m _ s1 x s2 (proj1 Hpm) Hm) in Hr.
  assert (Hl1 : live s1 m x pm) by done.
  pose proof (PInv_slice n bs s1 m x pm sl HI1 Hl1) as HI2.
  set (s2' := setMeta m (x <| slice := sl |>) s1) in *.
  assert (Hl2 : live s2' m (x <| slice := sl |>) pm).
  { apply live_setMeta_eq. split_and!; [done|apply Hl1|apply Hl1]. }
  erewrite bind_done in Hr by reflexivity.
  apply bind_inv in Hr as (ip&s3&Hat&Hr). apply InstanceAt_onSh_inv in Hat as [Hloc ->].
  apply bind_inv in Hr as (ins&s4&Hins&Hr). apply getInst_onSh_inv in Hins as [_ ->].
  case_decide.
  - apply bind_inv in Hr as ([]&s5&Hp&Hr). injection Hr as _ <-. left.
    by eapply placeChunk_inv.
  - apply bind_inv in Hr as ([]&s5&Hp&Hr). injection Hr as _ <-.
    by eapply evictAndPlace_inv.
Qed.

(** *** Before the placer lock: recovery of an evicted meta, new placer part *)

(** Replacing a meta that the placer does not manage by one it does not charge. *)
Lemma PInv_unmanaged n bs s m x' :
  PInv n bs s → (∀ x, metas s !! m = Some x → Deleted x = true ∨ placerMeta x = None) →
  mok n x' →
  (placerMeta x' = None ∨ placerMeta x' = Some (newPlacerMeta n)) →
  PInv n bs (setMeta m x' s).
Proof.
  intros [HI Hm] Hun Hok' Hp'.
  assert (Hno : ∀ y pmy, ¬ live s m y pmy).
  { intros y pmy (Hy&?&?). destruct (Hun y Hy); congruence. }
  assert (Hkeep : ∀ m' y pmy, live s m' y pmy → live (setMeta m x' s) m' y pmy).
  { intros m' y pmy Hy. destruct (decide (m = m')) as [<-|]; [by destruct (Hno y pmy)|].
    by apply live_setMeta_ne. }
  assert (Hch : ∀ ip, placed (setMeta m x' s) ip = placed s ip).
  { intros ip. assert (Hx' : charge (loc_of s) ip x' = 0).
    { unfold charge. destruct (Deleted x'); [done|]. destruct Hp' as [->| ->]; [done|].
      unfold newPlacerMeta; simpl. rewrite chunks_on_fresh. lia. }
    destruct (metas s !! m) as [x|] eqn:Hx.
    - rewrite (placed_setMeta s m x), Hx' by done. unfold charge.
      destruct (Hun x eq_refl) as [->| ->]; [|destruct (Deleted x)]; lia.
    - unfold placed, setMeta; simpl. rewrite msum_insert_new by done.
      change (loc_of _) with (loc_of s). lia. }
  destruct HI as [[h1 h2 h3 h4 h5 h6 h7 h8] Hn Hmo Hs].
  split; [split|].
  - split; [exact h1|exact h2|exact h3|exact h4| |exact h6| |].
    + intros i m' Hi. destruct (h5 i m' Hi) as (y&pmy&Hy&?). eauto.
    + intros i m' Hc Hi. destruct (h7 i m' Hc Hi) as (y&pmy&Hy&?). eauto.
    + intros m' y pmy Hy. destruct (decide (m = m')) as [<-|Hne].
      * apply live_setMeta_eq in Hy as (->&E&_). destruct Hp'; simplify_eq. by left.
      * apply live_setMeta_ne in Hy; [|done]. by apply (h8 m' y).
  - done.
  - intros m' y pmy Hy. destruct (decide (m = m')) as [<-|Hne].
    + apply live_setMeta_eq in Hy as (->&E&_). by apply Hok'.
    + apply live_setMeta_ne in Hy; [|done]. by apply (Hmo m').
  - intros ip ins Hi. rewrite (Hs ip ins Hi). by rewrite Hch.
  - intros m' y. unfold setMeta; simpl. rewrite lookup_insert_Some.
    intros [[<- <-]|[_ Hy]]; [done|by apply (Hm m')].
Qed.

Lemma enter_inv n bs s m chunk early s' :
  PInv n bs s → GetOrInsert_enter m chunk s = Done (early, s') →
  PInv n bs s' ∧ (early = false → 0 ≤ chunk < Z.of_nat n → ∃ x pm, hasPM s' m x pm ∧
    zlookup (confirmed pm) chunk = Some false).
Proof.
  intros HI Hr. unfold GetOrInsert_enter in Hr.
  apply bind_inv in Hr as ([]&s1&H1&Hr).
  apply bind_inv in Hr as (mm&s1'&Hmm&Hr). unfold getMeta in Hmm.
  apply expect_inv in Hmm as [Hmm ->].
  destruct (metas s !! m) as [x|] eqn:Hx.
  2:{ injection H1 as <-. simpl in Hmm. by rewrite lookup_alter_eq, Hx in Hmm. }
  apply (modMeta_run m _ s x s1 Hx) in H1.
  assert (HI1 : PInv n bs s1 ∧ (Deleted mm = false)).
  { subst s1. unfold setMeta in Hmm; simpl in Hmm. rewrite lookup_insert_eq in Hmm.
    injection Hmm as <-. pose proof (pi_meta n bs s HI m x Hx) as [Hlen _].
    destruct (Deleted x) eqn:Ed; (split; [|done]).
    - eapply (PInv_unmanaged n bs s m); [done| |by split|by left].
      intros y Hy. left. by simplify_eq.
    - unfold setMeta; simpl. rewrite insert_id by done. by destruct s. }
  destruct HI1 as [HI1 Hd1]. clear H1.
  pose proof (pi_meta n bs s1 HI1 m mm Hmm) as [Hlen Hok].
  destruct (placerMeta mm) as [pm|] eqn:Ep.
  - apply bind_inv in Hr as (c&s2&Hc&Hr). apply expect_inv in Hc as [Hc ->].
    destruct c.
    + apply bind_inv in Hr as ([]&s2&H2&Hr). injection Hr as <- <-. split; [|done].
      rewrite (modMeta_run m _ s1 mm s2 Hmm H2).
      eapply PInv_setMeta; [done|by split_and!|exact Ep|exact Hd1|done|done| |done].
      eapply meta_ok_strip; [by apply Hok|done..].
    + injection Hr as <- <-. split; [done|]. intros _ _. by exists mm, pm.
  - apply bind_inv in Hr as ([]&s2&H2&Hr). injection Hr as <- <-.
    rewrite (modMeta_run m _ s1 mm s2 Hmm H2). split.
    + eapply (PInv_unmanaged n bs s1 m); [done| | |right; simpl; by rewrite Hlen].
      { intros y Hy. right. by simplify_eq. }
      split; [done|]. simpl. intros pm [= <-].
      split; simpl; [by rewrite length_replicate|done|by rewrite count_true_replicate|by left].
    + intros _ Hch. eexists _, _. split.
      * split; [apply lookup_insert_eq|reflexivity].
      * simpl. apply zlookup_Some. split; [lia|]. apply lookup_replicate. lia.
Qed.

(** *** Reading an object touches it *)

Lemma Get_locked_inv n bs s m r s' :
  PInv n bs s → Get_locked m s = Done (r, s') → PInv n bs s' ∧ conf s' m = conf s m.
Proof.
  intros HI Hr. unfold Get_locked in Hr. apply bind_inv in Hr as (mm&s1&Hm&Hr).
  unfold getMeta in Hm. apply expect_inv in Hm as [Hm ->].
  destruct (Deleted mm) eqn:Ed; [by injection Hr as _ <-|].
  apply bind_inv in Hr as ([]&s1&Ht&Hr). injection Hr as _ <-.
  unfold TouchObject in Ht. erewrite bind_done in Ht by reflexivity.
  apply bind_inv in Ht as (pm&s2&Hpm&Ht). unfold getPM, getMeta in Hpm.
  apply bind_inv in Hpm as (x&s3&E1&E2). apply expect_inv in E1 as [E1 ->].
  apply expect_inv in E2 as [E2 ->]. rewrite Hm in E1. injection E1 as ->.
  set (g := λ x : PlacerMeta, x <| visited := true |> <| visitedAt := now s |>).
  assert (s1 = updPM m g s) as -> by (by injection Ht as <-). split.
  - eapply PInv_clock_only; [| |done].
    + apply clock_only_updPM. intros y. unfold strip; simpl. by destruct (placerMeta y).
    + apply wf_updPM; [apply (pi_inv _ _ _ HI)|]. by intros.
  - unfold conf, updPM; simpl. rewrite lookup_alter_eq, Hm. simpl. by rewrite E2.
Qed.

(** *** Making a meta *)

Lemma PInv_pool n bs s l : PInv n bs s → (PInv n bs (s <| metaPool := l |>)).
Proof.
  intros [[[h1 h2 h3 h4 h5 h6 h7 h8] Hn Hok Hs] Hm]. split; [|done].
  split; [by split|done|done|done].
Qed.

Lemma initMeta_inv x key n cs y :
  initMeta x key (Z.of_nat n) cs = Done y →
  length (pl (Placement_ y)) = n ∧ placerMeta y = None ∧ Deleted y = false ∧
  Key y = key ∧ ChunkSize y = cs.
Proof.
  unfold initMeta, initPlacement. intros Hr. repeat case_decide; try done.
  all: injection Hr as <-; simpl; rewrite length_replicate; split_and!; [lia|done..].
Qed.

(** The pool hands out an unused object, or a new one. *)
Lemma metaPool_Get_inv n bs s pick m s' :
  PInv n bs s → (∀ k, k ∈ metaPool s → conf s k = None ∧ k ∈ dom (metas s)) →
  metaPool_Get pick s = Done (m, s') →
  (∀ x, mok n x → placerMeta x = None →
    PInv n bs (setMeta m x s') ∧ setMeta m x s' = setMeta m x (s <| metaPool := metaPool s' |>)) ∧
  (m ∈ metaPool s ∨ m ∉ dom (metas s)) ∧ (m ∉ metaPool s') ∧ (metaPool s' ⊆ metaPool s).
Proof.
  intros HI Hpool Hr. unfold metaPool_Get in Hr.
  destruct (pick ≫= λ i, metaPool s !! i) as [k|] eqn:Ep.
  - injection Hr as -> <-.
    assert (Hk : m ∈ metaPool s).
    { destruct pick as [i|]; [|done]. by apply list_elem_of_lookup_2 in Ep. }
    split_and!; [|by left| |].
    + intros x Hok Hx. split; [|done]. apply PInv_unmanaged; [by apply PInv_pool| |done|by left].
      intros y Hy. right. destruct (Hpool m Hk) as [Hc _]. unfold conf in Hc.
      simpl in Hy. rewrite Hy in Hc. simpl in Hc. by destruct (placerMeta y).
    + simpl. rewrite list_elem_of_filter. by intros [? _].
    + simpl. intros k'. rewrite list_elem_of_filter. by intros [_ ?].
  - injection Hr as <- <-. set (m := fresh (dom (metas s))).
    assert (Hm : m ∉ dom (metas s)) by apply is_fresh.
    split_and!; [|by right|by intros [_ ?]%Hpool|done].
    intros x Hok Hx. match goal with |- PInv _ _ ?t ∧ _ => assert (E : t = setMeta m x s) end.
    { unfold setMeta; simpl. by rewrite insert_insert_eq. }
    split; [|rewrite E; by destruct s]. rewrite E. apply PInv_unmanaged; [done| |done|by left].
    intros y Hy. by apply not_elem_of_dom in Hm; simplify_eq.
Qed.

Lemma NewMeta_inv n bs s pick key ss chunk id cs m s' :
  PInv n bs s → (∀ k, k ∈ metaPool s → conf s k = None ∧ k ∈ dom (metas s)) →
  NewMeta pick key ss (Z.of_nat n) chunk id cs s = Done (m, s') →
  ∃ x, PInv n bs s' ∧ s' = setMeta m x (s <| metaPool := metaPool s' |>) ∧
    (m ∈ metaPool s ∨ m ∉ dom (metas s)) ∧ (m ∉ metaPool s') ∧ (metaPool s' ⊆ metaPool s) ∧
    placerMeta x = None ∧ Deleted x = false ∧ lastChunk x = chunk ∧
    0 ≤ chunk < Z.of_nat n ∧ zlookup (pl (Placement_ x)) chunk = Some id ∧
    Key x = key ∧ ChunkSize x = cs.
Proof.
  intros HI Hpool Hr. unfold NewMeta in Hr.
  apply bind_inv in Hr as (m'&s1&Hget&Hr).
  destruct (metaPool_Get_inv n bs s pick m' s1 HI Hpool Hget) as (Hset&Hor&Hnot&Hsub).
  apply bind_inv in Hr as (x0&s1'&Hx0&Hr). unfold getMeta in Hx0.
  apply expect_inv in Hx0 as [Hx0 ->].
  apply bind_inv in Hr as (y&s1'&Hy&Hr).
  destruct (initMeta x0 key (Z.of_nat n) cs) as [y'|?|] eqn:Ei; [|done..].
  injection Hy as -> <-. destruct (initMeta_inv _ _ _ _ _ Ei) as (Hlen&Hpm&Hd&Hkey&Hcs).
  erewrite bind_done in Hr by reflexivity.
  apply bind_inv in Hr as ([]&s2&H2&Hr). apply (modMeta_run _ _ _ _ _ Hx0) in H2.
  apply bind_inv in Hr as ([]&s3&H3&Hr). unfold assignPlacement in H3.
  apply bind_inv in H3 as (x2&s2'&Hx2&H3). unfold getMeta in Hx2.
  apply expect_inv in Hx2 as [Hx2 ->]. apply bind_inv in H3 as (w&s2'&Hw&H3).
  apply expect_inv in Hw as [Hw ->]. apply (modMeta_run _ _ _ _ _ Hx2) in H3.
  apply bind_inv in Hr as ([]&s4&H4&Hr). injection Hr as -> ->.
  assert (E2 : metas s2 !! m = Some x2) by exact Hx2.
  rewrite H2 in E2. unfold setMeta in E2; simpl in E2. rewrite lookup_insert_eq in E2.
  injection E2 as <-. simpl in Hw, H3.
  eapply modMeta_run in H4; [|rewrite H3; unfold setMeta; simpl; apply lookup_insert_eq].
  match type of H4 with s' = setMeta m ?x s3 => set (xf := x) in H4 end.
  pose proof (zlookup_lt _ _ _ Hw) as Hch.
  assert (E : s' = setMeta m xf s1).
  { rewrite H4, H3, H2. unfold setMeta; simpl. by rewrite !insert_insert_eq. }
  destruct (Hset xf) as [HI' Eset].
  { split; [unfold xf; simpl; by rewrite length_zinsert|]. unfold xf; simpl. by rewrite Hpm. }
  { done. }
  exists xf. rewrite E. split_and!; try done; [lia|rewrite <- Hlen; lia|].
  unfold xf; simpl. by apply zlookup_zinsert_eq.
Qed.

(** ** A placed chunk is confirmed *)

(** [m] stays managed, with the same chunks confirmed. *)
Definition own (m : mptr) (s s' : PState) : Prop :=
  ∀ x pm, live s m x pm → ∃ x' pm', live s' m x' pm' ∧ confirmed pm' = confirmed pm.

#[local] Instance own_preorder m : PreOrder (own m).
Proof.
  split; [by intros s x pm ?; exists x, pm|]. intros s1 s2 s3 H1 H2 x pm Hl.
  destruct (H1 x pm Hl) as (x'&pm'&Hl'&<-). exact (H2 x' pm' Hl').
Qed.
#[local] Hint Resolve own_preorder : go.

Section keeps_own.
Context (m : mptr).

Lemma own_modPM m' f : (∀ pm, confirmed (f pm) = confirmed pm) → keeps (own m) (modPM m' f).
Proof.
  intros Hf. apply keeps_modify. intros s x pm Hl.
  destruct (updPM_live s m' m f x pm Hl) as [x' Hl'].
  eexists x', _. split; [exact Hl'|]. case_decide; [apply Hf|done].
Qed.
Lemma own_delete m' : m' ≠ m → keeps (own m) (modMeta m' (λ x, x <| Deleted := true |>)).
Proof.
  intros Hne. apply keeps_modify. intros s x pm (?&?&?). exists x, pm. split; [|done].
  split_and!; [|done..]. simpl. by rewrite lookup_alter_ne.
Qed.
Lemma own_modPlc f : keeps (own m) (modPlc f).
Proof. apply keeps_modify. intros s x pm Hl. by exists x, pm. Qed.
Lemma own_onSh {A} (c : M SHeap A) : keeps (own m) (onSh c).
Proof. apply keeps_onSh. intros s h x pm Hl. by exists x, pm. Qed.
#[local] Hint Resolve own_modPM own_delete own_modPlc own_onSh : go.

Lemma own_appendSecondary m' : keeps (own m) (appendSecondary m').
Proof. unfold appendSecondary. keeps. Qed.
Lemma own_replaceObject m' : m' ≠ m → keeps (own m) (replaceObject m m').
Proof. intros ?. unfold replaceObject. keeps. Qed.
Lemma own_incCursor : keeps (own m) incCursor.
Proof. unfold incCursor. keeps. Qed.
#[local] Hint Resolve own_appendSecondary own_replaceObject own_incCursor : go.
Lemma own_sweep l : keeps (own m) (sweep m l).
Proof. induction l as [|[m'|] l IH]; simpl; keeps. Qed.
Lemma own_copyRest l : keeps (own m) (copyRest l).
Proof. induction l as [|[m'|] l IH]; simpl; keeps. Qed.
#[local] Hint Resolve own_sweep own_copyRest : go.
Lemma own_Next : keeps (own m) (NextAvailableObject m).
Proof. unfold NextAvailableObject, startIteration, finishIteration. keeps. Qed.
Lemma own_evictLoop fuel : keeps (own m) (evictLoop fuel m).
Proof. induction fuel as [|n IH]; simpl; [done|]. pose proof own_Next. keeps. Qed.
Lemma own_swapSizes i l : keeps (own m) (swapSizes m i l).
Proof. revert i. induction l as [|z l IH]; intros i; simpl; unfold swapSize; keeps. Qed.
Lemma own_AddObject : keeps (own m) (AddObject m).
Proof. unfold AddObject. keeps. Qed.
End keeps_own.

Definition confirmed_at (s : PState) (m : mptr) (chunk : Z) : Prop :=
  ∃ x pm, live s m x pm ∧ zlookup (confirmed pm) chunk = Some true.

Lemma own_confirmed s s' m chunk : own m s s' → confirmed_at s m chunk → confirmed_at s' m chunk.
Proof.
  intros Ho (x&pm&Hl&Hc). destruct (Ho x pm Hl) as (x'&pm'&Hl'&E). exists x', pm'. by rewrite E.
Qed.

Lemma placed_confirmed s m x pm chunk v :
  live s m x pm → zlookup (confirmed pm) chunk = Some false →
  confirmed_at (setMeta m (placeMeta chunk v x pm) s) m chunk.
Proof.
  intros Hl Hc. eexists _, _. split; [apply live_setMeta_eq; split_and!; [done..|apply Hl]|].
  simpl. apply zlookup_zinsert_eq. by apply zlookup_lt in Hc.
Qed.

Lemma placeChunk_confirms s m x pm chunk z ip s' :
  live s m x pm → zlookup (confirmed pm) chunk = Some false →
  placeChunk m chunk z ip s = Done ((), s') → confirmed_at s' m chunk.
Proof.
  intros Hl Hc Hr. unfold placeChunk in Hr.
  apply bind_inv in Hr as ([]&sa&Ha&Hr). apply bind_inv in Hr as ([]&s1&Hcf&Hr).
  assert (s1 = setMeta m (placeMeta chunk z x pm) s) as ->.
  { eapply place_inv; [by apply live_hasPM|done|]. by erewrite bind_done. }
  pose proof (placed_confirmed s m x pm chunk z Hl Hc) as Hcf'.
  eapply own_confirmed; [|exact Hcf']. revert Hr. generalize (setMeta m (placeMeta chunk z x pm) s).
  intros s1 Hr. apply bind_inv in Hr as (a&s2&Ha2&Hr). injection Ha2 as <- <-.
  eapply (keeps_bind (own m)); [| |exact Hr]; [auto with go|]. intros pm1.
  apply keeps_bind; [apply _| |intros []].
  - case_decide; [apply own_AddObject|auto with go].
  - apply keeps_bind; [apply _|auto with go|intros mm; apply own_onSh].
Qed.

Lemma evictAndPlace_confirms fuel s m x pm chunk s' :
  live s m x pm → zlookup (confirmed pm) chunk = Some false →
  evictAndPlace fuel m chunk s = Done ((), s') → confirmed_at s' m chunk.
Proof.
  intros Hl Hc Hr. unfold evictAndPlace in Hr.
  apply bind_inv in Hr as ([]&s1&Hloop&Hr).
  destruct (own_evictLoop m fuel _ _ _ Hloop x pm Hl) as (x1&pm1&Hl1&E1).
  rewrite (bind_getPM s1 m x1 pm1) in Hr by (by apply live_hasPM).
  apply bind_inv in Hr as ([]&s2&Hsw&Hr).
  destruct (own_swapSizes m _ _ _ _ _ Hsw x1 pm1 Hl1) as (x2&pm2&Hl2&E2).
  apply bind_inv in Hr as ([]&s3&Hp&Hr).
  destruct (placeSwapped_inv s2 m x2 pm2 chunk s3) as (v&_&->);
    [by apply live_hasPM|congruence|done|].
  assert (own m (setMeta m (placeMeta chunk v x2 pm2) s2) s') as Ho.
  { eapply (own_modPM m m (λ y, y <| once := Some false |>)); [done|exact Hr]. }
  eapply own_confirmed; [exact Ho|]. apply placed_confirmed; congruence.
Qed.

Lemma locked_confirms fuel s m x pm got chunk id r s' :
  live s m x pm → zlookup (confirmed pm) chunk = Some false →
  GetOrInsert_locked fuel m got chunk id s = Done (r, s') → confirmed_at s' m chunk.
Proof.
  intros Hl Hc Hr. unfold GetOrInsert_locked in Hr.
  erewrite bind_done in Hr by (unfold getMeta; by rewrite (proj1 Hl)).
  destruct Hl as (E1&E2&Ed). rewrite Ed in Hr.
  assert (Hl : live s m x pm) by done.
  rewrite (bind_getPM s m x pm) in Hr by done.
  case_match.
  { apply bind_inv in Hr as ([]&s1&Hp&Hr). injection Hr as _ <-.
    destruct (placeSwapped_inv s m x pm chunk s1 ltac:(done) Hc Hp) as (v&_&->).
    by apply placed_confirmed. }
  apply bind_inv in Hr as ([assigned sl]&s1&Hgi&Hr).
  destruct (own_onSh m _ _ _ _ Hgi x pm Hl) as (x1&pm1&Hl1&Ec1).
  apply bind_inv in Hr as ([]&s2&Hm&Hr).
  apply (modMeta_run m _ _ _ _ (proj1 Hl1)) in Hm.
  assert (Hl2 : live s2 m (x1 <| slice := sl |>) pm1).
  { rewrite Hm. apply live_setMeta_eq. split_and!; [done|apply Hl1|apply Hl1]. }
  clear Hm. rewrite <- Ec1 in Hc.
  erewrite bind_done in Hr by reflexivity.
  apply bind_inv in Hr as (ip&s3&Hat&Hr). apply InstanceAt_onSh_inv in Hat as [_ ->].
  apply bind_inv in Hr as (ins&s4&Hins&Hr). apply getInst_onSh_inv in Hins as [_ ->].
  case_decide; apply bind_inv in Hr as ([]&s5&Hp&Hr); injection Hr as _ <-.
  - by eapply placeChunk_confirms.
  - by eapply evictAndPlace_confirms.
Qed.

(** What [GetOrInsert] finds once it holds the lock of the meta. *)
Lemma enter_live n bs s m chunk early s' :
  PInv n bs s → GetOrInsert_enter m chunk s = Done (early, s') →
  ∃ x pm, live s' m x pm ∧
    (0 ≤ chunk < Z.of_nat n → zlookup (confirmed pm) chunk = Some early).
Proof.
  intros HI Hr. unfold GetOrInsert_enter in Hr.
  apply bind_inv in Hr as ([]&s1&H1&Hr).
  apply bind_inv in Hr as (mm&s1'&Hmm&Hr). unfold getMeta in Hmm.
  apply expect_inv in Hmm as [Hmm ->].
  assert (Hd : Deleted mm = false ∧ length (pl (Placement_ mm)) = n).
  { injection H1 as <-. simpl in Hmm. rewrite lookup_alter_eq in Hmm.
    destruct (metas s !! m) as [x|] eqn:Hx; [|done]. injection Hmm as <-.
    destruct (pi_meta n bs s HI m x Hx) as [Hlen _]. by destruct (Deleted x) eqn:Ed. }
  destruct Hd as [Hd Hlen]. destruct (placerMeta mm) as [pm|] eqn:Ep.
  - apply bind_inv in Hr as (c&s2&Hc&Hr). apply expect_inv in Hc as [Hc ->]. destruct c.
    + apply bind_inv in Hr as ([]&s2&H2&Hr). injection Hr as <- <-.
      rewrite (modMeta_run m _ s1 mm s2 Hmm H2). eexists _, pm. split; [|done].
      by apply live_setMeta_eq.
    + injection Hr as <- <-. exists mm, pm. by split_and!.
  - apply bind_inv in Hr as ([]&s2&H2&Hr). injection Hr as <- <-.
    rewrite (modMeta_run m _ s1 mm s2 Hmm H2). eexists _, _. split; [by apply live_setMeta_eq|].
    intros Hch. simpl. apply zlookup_Some. split; [lia|]. apply lookup_replicate. lia.
Qed.

Lemma locked_returns fuel m got chunk id s r1 r2 r3 s' :
  GetOrInsert_locked fuel m got chunk id s = Done ((r1, r2, r3), s') →
  r1 = m ∧ (r3 = None ∨ r3 = Some m).
Proof.
  intros Hr. unfold GetOrInsert_locked in Hr. apply bind_inv in Hr as (mm&s1&_&Hr).
  destruct (Deleted mm); [injection Hr as <- _ <- _; auto|]. apply bind_inv in Hr as (pm&s2&_&Hr).
  case_match; [apply bind_inv in Hr as (?&?&_&Hr); injection Hr as <- _ <- _; auto|].
  apply bind_inv in Hr as ([a sl]&s3&_&Hr). apply bind_inv in Hr as (?&s4&_&Hr).
  apply bind_inv in Hr as (?&s5&_&Hr). apply bind_inv in Hr as (?&s6&_&Hr).
  apply bind_inv in Hr as (?&s7&_&Hr).
  case_decide; apply bind_inv in Hr as (?&?&_&Hr); injection Hr as <- _ <- _; auto.
Qed.

(** The effect of placing a chunk on the slice. *)
Lemma placeChunk_result s m x pm chunk z ip s' :
  live s m x pm → zlookup (confirmed pm) chunk = Some false →
  placeChunk m chunk z ip s = Done ((), s') →
  pgroup (plc s') = pgroup (plc s) ∧
  sh s' = sh s <| ls ::= (λ l, l <| insts ::= alter (λ i, i <| imeta ::= IncreaseSize (ChunkSize x) |>) ip |>) |> ∧
  ∃ x', metas s' !! m = Some x' ∧ zlookup (pl (Placement_ x')) chunk = Some z.
Proof.
  intros Hl Hc Hr. unfold placeChunk in Hr.
  apply bind_inv in Hr as ([]&sa&Ha&Hr). apply bind_inv in Hr as ([]&s1&Hcf&Hr).
  assert (Hin : is_Some (zlookup (pl (Placement_ x)) chunk)).
  { unfold assignPlacement in Ha. erewrite bind_done in Ha by (unfold getMeta; by rewrite (proj1 Hl)).
    apply bind_inv in Ha as (w&sb&Hw&_). apply expect_inv in Hw as [Hw _]. eauto. }
  assert (s1 = setMeta m (placeMeta chunk z x pm) s) as ->.
  { eapply place_inv; [by apply live_hasPM|done|]. by erewrite bind_done. }
  set (s1 := setMeta m (placeMeta chunk z x pm) s) in *.
  assert (Hl1 : live s1 m (placeMeta chunk z x pm) (confirmPM chunk pm)).
  { apply live_setMeta_eq. split_and!; [done..|]. apply Hl. }
  erewrite bind_done in Hr by reflexivity.
  rewrite (bind_getPM s1 m _ _ _ (live_hasPM _ _ _ _ Hl1)) in Hr.
  apply bind_inv in Hr as ([]&s2&Hadd&Hr).
  assert (Hco : clock_only s1 s2).
  { case_decide; [|by injection Hadd as <-].
    rewrite (AddObject_run s1 m _ _ (live_hasPM _ _ _ _ Hl1)) in Hadd.
    injection Hadd as <-. apply clock_only_added. }
  apply bind_inv in Hr as (mm&s2'&Hmm&Hr). unfold getMeta in Hmm.
  apply expect_inv in Hmm as [Hmm ->].
  assert (ChunkSize mm = ChunkSize x ∧ Placement_ mm = Placement_ (placeMeta chunk z x pm)) as [Ecs Epl].
  { pose proof (f_equal (λ f, f !! m) (co_metas _ _ Hco)) as E. simpl in E.
    rewrite !lookup_fmap, Hmm, lookup_insert_eq in E. simpl in E. unfold strip in E.
    by injection E. }
  injection Hr as <-. simpl. rewrite (co_group _ _ Hco), (co_sh _ _ Hco). split_and!; [done| |].
  - by rewrite Ecs.
  - exists mm. split; [done|]. rewrite Epl. simpl. apply zlookup_zinsert_eq.
    by apply zlookup_is_Some.
Qed.
