(* ===== verification/PlacerSystem.v ===== *)
(** * The placer under concurrent requests

    Requests interleave at the locks of the code: [GetOrInsert] and [Get] run
    up to the placer lock holding the lock of one meta, then take the placer
    lock.  Every state reachable by such steps keeps the accounting invariant,
    provided no eviction duplicated an object in the clock. *)

From S2P Require Import Prelude Lambdastore Group Meta Placer Clock ClockRefine Accounting PlacerInv.

Section system.
Context {H : Type} `{HashMapLaws string mptr H}.
Context (n : nat).

(** A request for chunk [rchunk] of a meta, after the store was consulted. *)
Record Req : Type := MkReq { rmeta : mptr; rgot : bool; rchunk : Z; rlambda : Z }.

(** [pending]: metas made by [NewMeta], not yet offered to the store;
    [waiting]: requests before [meta.mu.Lock()]; [inside], [reading]: the SET
    and GET requests that hold the lock of their meta and wait for the placer's. *)
Record Sys : Type := MkSys {
  store : Store H;
  pending : list mptr;
  waiting : list Req;
  inside : list Req;
  reading : list mptr
}.

Definition held (y : Sys) : list mptr := (rmeta <$> inside y) ++ reading y.

Inductive step : Sys → Sys → Prop :=
  | step_new y pick key sliceSize chunk lambdaId chunkSize m s' :
      NewMeta pick key sliceSize (Z.of_nat n) chunk lambdaId chunkSize (store y).1
        = Done (m, s') →
      step y (MkSys (s', (store y).2) (m :: pending y) (waiting y) (inside y) (reading y))
  | step_store y key m rest r got chunk lambdaId st' :
      pending y ≡ₚ m :: rest →
      GetOrInsert_store key m (store y) = Done (r, got, chunk, lambdaId, st') →
      step y (MkSys st' rest (MkReq r got chunk lambdaId :: waiting y) (inside y) (reading y))
  | step_enter y q rest early s' :
      waiting y ≡ₚ q :: rest → rmeta q ∉ held y →
      GetOrInsert_enter (rmeta q) (rchunk q) (store y).1 = Done (early, s') →
      step y (MkSys (s', (store y).2) (pending y) rest
                (if (early : bool) then inside y else q :: inside y) (reading y))
  | step_locked y fuel q rest r s' :
      inside y ≡ₚ q :: rest →
      GetOrInsert_locked fuel (rmeta q) (rgot q) (rchunk q) (rlambda q) (store y).1
        = Done (r, s') →
      step y (MkSys (s', (store y).2) (pending y) (waiting y) rest (reading y))
  | step_get y key chunk r st' :
      (∀ m, hm_Get (store y).2 key = Some m → m ∉ held y) →
      Get_enter key chunk (store y) = Done (r, st') →
      step y (MkSys st' (pending y) (waiting y) (inside y)
                (match r with inl _ => reading y | inr m => m :: reading y end))
  | step_touch y m rest r s' :
      reading y ≡ₚ m :: rest →
      Get_locked m (store y).1 = Done (r, s') →
      step y (MkSys (s', (store y).2) (pending y) (waiting y) (inside y) rest).

(** No object sits twice in the array under compaction. *)
Definition clean (y : Sys) : Prop := ∀ m, ¬ duplicated m (store y).1.
Definition clean_step (y y' : Sys) : Prop := step y y' ∧ clean y'.

Definition stored (h : H) (m : mptr) : Prop := ∃ k, hm_Get h k = Some m.

Record SInv (bs : iptr → Z) (y : Sys) : Prop := {
  si_inv : PInv n bs (store y).1;
  si_fresh m : m ∈ pending y ++ metaPool (store y).1 →
    conf (store y).1 m = None ∧ m ∈ dom (metas (store y).1) ∧ ¬ stored (store y).2 m;
  si_pending : NoDup (pending y);
  si_apart m : m ∈ pending y → m ∉ metaPool (store y).1;
  si_pendlen m x : m ∈ pending y → metas (store y).1 !! m = Some x →
    0 ≤ lastChunk x < Z.of_nat n;
  si_stored m : stored (store y).2 m → m ∈ dom (metas (store y).1);
  si_waiting q : q ∈ waiting y → stored (store y).2 (rmeta q) ∧ 0 ≤ rchunk q < Z.of_nat n;
  si_held : NoDup (held y);
  si_inside q : q ∈ inside y → stored (store y).2 (rmeta q) ∧
    ∃ C, conf (store y).1 (rmeta q) = Some C ∧ zlookup C (rchunk q) = Some false;
  si_reading m : m ∈ reading y → stored (store y).2 m ∧ is_Some (conf (store y).1 m)
}.

(** ** The steps preserve the invariant *)

Lemma conf_hasPM s m C : conf s m = Some C ↔ ∃ x pm, hasPM s m x pm ∧ confirmed pm = C.
Proof.
  unfold conf, hasPM. split.
  - destruct (metas s !! m) as [x|]; [|done]. simpl. intros (pm&Hp&->)%fmap_Some. eauto.
  - intros (x&pm&[-> Hp]&<-). simpl. by rewrite Hp.
Qed.

(** A step on the lock-protected meta [m], which is in the store. *)
Lemma SInv_frame bs y s' m wait ins rd :
  SInv bs y → stored (store y).2 m → frame m (store y).1 s' → PInv n bs s' →
  wait ⊆ waiting y → NoDup ((rmeta <$> ins) ++ rd) →
  (∀ q, q ∈ ins → q ∈ inside y ∧ rmeta q ≠ m ∨ rmeta q = m ∧
    ∃ C, conf s' m = Some C ∧ zlookup C (rchunk q) = Some false) →
  (∀ k, k ∈ rd → k ∈ reading y ∧ k ≠ m ∨ k = m ∧ is_Some (conf s' k)) →
  SInv bs (MkSys (s', (store y).2) (pending y) wait ins rd).
Proof.
  intros [i1 i2 i3 i4 i5 i6 i7 i8 i9 i10] Hm [f1 f2 f3 f4] HI Hw Hnd Hins Hrd.
  split; simpl; rewrite ?f1, ?f2; [done| |done|done| |done| |done| |].
  - intros k Hk. destruct (i2 k Hk) as (Hc&Hd&Hs). split_and!; [|done|done].
    rewrite f3; [done|]. by intros ->.
  - intros k x Hk Hx. pose proof (f4 k) as E. rewrite Hx in E. simpl in E.
    symmetry in E. apply fmap_Some in E as (x0&Hx0&->). by apply (i5 k).
  - intros q Hq. apply i7. by apply Hw.
  - intros q Hq. destruct (Hins q Hq) as [[Hq' Hne]|[-> ?]]; [|done].
    rewrite f3 by done. by apply i9.
  - intros k Hk. destruct (Hrd k Hk) as [[Hk' Hne]|[-> ?]]; [|done].
    rewrite f3 by done. by apply i10.
Qed.

Lemma held_inside y q : q ∈ inside y → rmeta q ∈ held y.
Proof. intros Hq. unfold held. apply elem_of_app. left. by apply list_elem_of_fmap_2. Qed.
Lemma held_reading y m : m ∈ reading y → m ∈ held y.
Proof. intros Hq. unfold held. apply elem_of_app. by right. Qed.

Lemma step_enter_inv bs y q rest early s' :
  SInv bs y → waiting y ≡ₚ q :: rest → rmeta q ∉ held y →
  GetOrInsert_enter (rmeta q) (rchunk q) (store y).1 = Done (early, s') →
  SInv bs (MkSys (s', (store y).2) (pending y) rest
             (if (early : bool) then inside y else q :: inside y) (reading y)).
Proof.
  intros HS Hw Hfree Hr. destruct (si_waiting bs y HS q) as [Hst Hch].
  { rewrite Hw. left. }
  destruct (enter_inv n bs _ _ _ _ _ (si_inv bs y HS) Hr) as [HI' Hconf].
  eapply SInv_frame; [done|exact Hst|by eapply frame_enter|done| | | |].
  - intros k Hk. rewrite Hw. by right.
  - pose proof (si_held bs y HS). destruct early; [done|]. csimpl.
    apply list.NoDup_cons. by split.
  - intros k Hk. assert (Hk' : k = q ∧ early = false ∨ k ∈ inside y).
    { destruct early; [by right|]. apply elem_of_cons in Hk. naive_solver. }
    destruct Hk' as [[-> ->]|Hk'].
    + right. split; [done|]. destruct (Hconf eq_refl Hch) as (x&pm&Hpm&Hc).
      exists (confirmed pm). split; [|done]. apply conf_hasPM. eauto.
    + left. split; [done|]. intros E. apply Hfree. rewrite <- E. by apply held_inside.
  - intros k Hk. left. split; [done|]. intros ->. by apply Hfree, held_reading.
Qed.

Lemma step_locked_inv bs y fuel q rest r s' :
  SInv bs y → inside y ≡ₚ q :: rest → ¬ duplicated (rmeta q) s' →
  GetOrInsert_locked fuel (rmeta q) (rgot q) (rchunk q) (rlambda q) (store y).1
    = Done (r, s') →
  SInv bs (MkSys (s', (store y).2) (pending y) (waiting y) rest (reading y)).
Proof.
  intros HS Hi Hnd Hr. destruct (si_inside bs y HS q) as (Hst&C&HC&Hc).
  { rewrite Hi. left. }
  apply conf_hasPM in HC as (x&pm&Hpm&<-).
  destruct (locked_inv n bs _ _ _ _ _ _ _ _ _ _ (si_inv bs y HS) Hpm Hc Hr) as [HI'|?];
    [|done].
  pose proof (si_held bs y HS) as Hh. unfold held in Hh. rewrite Hi in Hh. csimpl in Hh.
  apply list.NoDup_cons in Hh as [Hnot Hh].
  eapply SInv_frame; [done|exact Hst|by eapply frame_locked|done|done|done| |].
  - intros k Hk. left. split; [rewrite Hi; by right|]. intros E. apply Hnot.
    rewrite <- E. apply elem_of_app. left. by apply list_elem_of_fmap_2.
  - intros k Hk. left. split; [done|]. intros ->. apply Hnot, elem_of_app. by right.
Qed.

Lemma step_touch_inv bs y m rest r s' :
  SInv bs y → reading y ≡ₚ m :: rest → Get_locked m (store y).1 = Done (r, s') →
  SInv bs (MkSys (s', (store y).2) (pending y) (waiting y) (inside y) rest).
Proof.
  intros HS Hi Hr. destruct (si_reading bs y HS m) as (Hst&_).
  { rewrite Hi. left. }
  destruct (Get_locked_inv n bs _ _ _ _ (si_inv bs y HS) Hr) as [HI' _].
  pose proof (si_held bs y HS) as Hh. unfold held in Hh.
  rewrite Hi, <- Permutation_middle in Hh. apply list.NoDup_cons in Hh as [Hnot Hh].
  eapply SInv_frame; [done|exact Hst|by eapply frame_Get_locked|done|done|done| |].
  - intros k Hk. left. split; [done|]. intros E. apply Hnot. rewrite <- E.
    apply elem_of_app. left. by apply list_elem_of_fmap_2.
  - intros k Hk. left. split; [rewrite Hi; by right|]. intros ->.
    apply Hnot, elem_of_app. by right.
Qed.

Lemma step_new_inv bs y pick key sliceSize chunk lambdaId chunkSize m s' :
  SInv bs y →
  NewMeta pick key sliceSize (Z.of_nat n) chunk lambdaId chunkSize (store y).1
    = Done (m, s') →
  SInv bs (MkSys (s', (store y).2) (m :: pending y) (waiting y) (inside y) (reading y)).
Proof.
  intros [i1 i2 i3 i4 i5 i6 i7 i8 i9 i10] Hr.
  destruct (NewMeta_inv n bs (store y).1 pick key sliceSize chunk lambdaId chunkSize m s' i1)
    as (x&HI&Es&Hor&Hnot&Hsub&Hx&_&Hlast&Hch&_); [|done|].
  { intros k Hk. destruct (i2 k) as (?&?&_); [|done]. apply elem_of_app. by right. }
  assert (Em : metas s' = <[m := x]> (metas (store y).1)) by (by rewrite Es).
  assert (Hmst : ¬ stored (store y).2 m).
  { intros Hs. destruct Hor as [Hin|Hout]; [|by apply Hout, i6].
    destruct (i2 m) as (_&_&?); [apply elem_of_app; by right|done]. }
  assert (Hmp : m ∉ pending y).
  { intros Hp. destruct Hor as [Hin|Hout]; [by apply (i4 m)|].
    apply Hout. destruct (i2 m) as (_&?&_); [apply elem_of_app; by left|done]. }
  assert (Hc : ∀ k, k ≠ m → conf s' k = conf (store y).1 k).
  { intros k Hk. unfold conf. by rewrite Em, lookup_insert_ne. }
  assert (Hd : ∀ k, k ∈ dom (metas (store y).1) → k ∈ dom (metas s')).
  { intros k Hk. rewrite Em, dom_insert. set_solver. }
  split; simpl; [done| | | | | | |done| |].
  - intros k Hk. destruct (decide (k = m)) as [->|Hne].
    + split_and!; [|rewrite Em, dom_insert; set_solver|done].
      unfold conf. rewrite Em, lookup_insert_eq. simpl. by rewrite Hx.
    + rewrite Hc by done. destruct (i2 k) as (?&?&?); [set_solver|eauto].
  - apply list.NoDup_cons. by split.
  - intros k [->|Hk]%elem_of_cons; [done|]. intros Hp. by apply (i4 k Hk), Hsub.
  - intros k z Hk. rewrite Em, lookup_insert_Some. intros [[<- <-]|[Hne Hz]].
    + rewrite Hlast. lia.
    + apply (i5 k); [set_solver|done].
  - intros k Hk. by apply Hd, i6.
  - done.
  - intros q Hq. destruct (i9 q Hq) as (Hs&C&HC&?). split; [done|]. exists C.
    rewrite Hc; [done|]. intros E. apply Hmst. by rewrite <- E.
  - intros k Hk. destruct (i10 k Hk) as (Hs&HC). split; [done|].
    rewrite Hc; [done|]. intros E. apply Hmst. by rewrite <- E.
Qed.

Lemma step_get_inv bs y key chunk r st' :
  SInv bs y → (∀ m, hm_Get (store y).2 key = Some m → m ∉ held y) →
  Get_enter key chunk (store y) = Done (r, st') →
  SInv bs (MkSys st' (pending y) (waiting y) (inside y)
             (match r with inl _ => reading y | inr m => m :: reading y end)).
Proof.
  intros HS Hfree Hr. unfold Get_enter, MetaStore_Get in Hr.
  erewrite bind_done in Hr by reflexivity.
  assert (st' = store y ∧ (∀ m, r = inr m → hm_Get (store y).2 key = Some m ∧
    is_Some (conf (store y).1 m))) as [-> Hrd].
  { destruct (hm_Get (store y).2 key) as [m|] eqn:Ek; [|injection Hr as <- <-; done].
    apply bind_inv in Hr as (mm&st1&Hm&Hr). unfold onPS, zoom, getMeta in Hm.
    destruct (metas (store y).1 !! m) as [x|] eqn:Ex; [|done]. simpl in Hm.
    injection Hm as -> <-. rewrite <- surjective_pairing in Hr.
    destruct (Deleted mm); [by injection Hr as <- <-|].
    destruct (placerMeta mm) as [pm|] eqn:Ep; [|by injection Hr as <- <-].
    apply bind_inv in Hr as (c&st1&Hc&Hr). apply expect_inv in Hc as [Hc ->].
    destruct c; simpl in Hr; injection Hr as <- <-; (split; [done|]); [|done].
    intros k [= <-]. split; [done|]. exists (confirmed pm). apply conf_hasPM.
    by exists mm, pm. }
  destruct HS as [i1 i2 i3 i4 i5 i6 i7 i8 i9 i10].
  split; simpl; try done.
  - destruct r as [o|m]; [done|]. destruct (Hrd m eq_refl) as [Hk _].
    unfold held; simpl. rewrite <- Permutation_middle. apply list.NoDup_cons.
    split; [by apply Hfree|done].
  - destruct r as [o|m]; [done|]. destruct (Hrd m eq_refl) as [Hk Hc].
    intros k [->|Hin]%elem_of_cons; [|by apply i10]. split; [by exists key|done].
Qed.

Lemma step_store_inv bs y key m rest r got chunk lambdaId st' :
  SInv bs y → pending y ≡ₚ m :: rest →
  GetOrInsert_store key m (store y) = Done (r, got, chunk, lambdaId, st') →
  SInv bs (MkSys st' rest (MkReq r got chunk lambdaId :: waiting y) (inside y) (reading y)).
Proof.
  intros [i1 i2 i3 i4 i5 i6 i7 i8 i9 i10] Hp Hr.
  assert (Hin : m ∈ pending y) by (rewrite Hp; left).
  assert (Hrest : ∀ k, k ∈ rest → k ∈ pending y ∧ k ≠ m).
  { intros k Hk. split; [rewrite Hp; by right|]. rewrite Hp in i3.
    apply list.NoDup_cons in i3 as [Hm _]. by intros ->. }
  unfold GetOrInsert_store in Hr. apply bind_inv in Hr as (nm&st1&Hnm&Hr).
  unfold onPS, zoom, getMeta in Hnm.
  destruct (metas (store y).1 !! m) as [x|] eqn:Ex; [|done]. simpl in Hnm.
  injection Hnm as -> <-. rewrite <- surjective_pairing in Hr. cbv zeta in Hr.
  apply bind_inv in Hr as (id&st1&Hid&Hr). apply expect_inv in Hid as [Hid ->].
  pose proof (i5 m nm Hin Ex) as Hlast.
  destruct (i2 m) as (Hmc&Hmd&Hms); [apply elem_of_app; by left|].
  apply bind_inv in Hr as ([r' got']&st1&Hgoi&Hr). unfold MetaStore_GetOrInsert in Hgoi.
  destruct (hm_Get (store y).2 key) as [m0|] eqn:Ek.
  - rewrite (hm_goi_found _ _ m m0) in Hgoi by done. injection Hgoi as <- <- <-.
    rewrite <- surjective_pairing in Hr. apply bind_inv in Hr as ([]&st1&Hcl&Hr).
    injection Hcl as <-. injection Hr as <- <- <- <- <-.
    split; simpl; [by apply PInv_pool| | | | |done| |done|done|done].
    + intros k Hk. apply i2. apply elem_of_app in Hk as [Hk|Hk].
      * apply elem_of_app. left. by apply Hrest.
      * apply elem_of_cons in Hk as [->|Hk]; apply elem_of_app; [by left|by right].
    + rewrite Hp in i3. by apply list.NoDup_cons in i3 as [_ ?].
    + intros k Hk [->|Hk']%elem_of_cons; [by destruct (Hrest m Hk)|].
      apply (i4 k); [by apply Hrest|done].
    + intros k z Hk. apply i5. by apply Hrest.
    + intros q [->|Hq]%elem_of_cons; [|by apply i7]. simpl. split; [by exists key|done].
  - rewrite (hm_goi_absent _ _ m) in Hgoi by done. injection Hgoi as <- <- <-.
    apply bind_inv in Hr as ([]&st1&Hcl&Hr). injection Hcl as <-.
    injection Hr as <- <- <- <- <-.
    assert (Hset : ∀ k, stored (hm_Set (store y).2 key m) k ↔ k = m ∨ stored (store y).2 k).
    { intros k. unfold stored. split.
      - intros [k' Hk']. destruct (decide (key = k')) as [<-|Hne].
        + rewrite hm_get_set_eq in Hk'. left. congruence.
        + rewrite hm_get_set_ne in Hk' by done. right. eauto.
      - intros [->|[k' Hk']]; [exists key; apply hm_get_set_eq|].
        exists k'. rewrite hm_get_set_ne; [done|]. intros <-. congruence. }
    split; simpl; [done| | | | | | |done| |].
    + intros k Hk. assert (Hk' : k ∈ pending y ++ metaPool (store y).1 ∧ k ≠ m).
      { apply elem_of_app in Hk as [Hk|Hk].
        - destruct (Hrest k Hk). split; [apply elem_of_app; by left|done].
        - split; [apply elem_of_app; by right|]. intros ->. by apply (i4 m). }
      destruct Hk' as [Hk1 Hk2]. destruct (i2 k Hk1) as (?&?&?). split_and!; [done..|].
      rewrite Hset. tauto.
    + rewrite Hp in i3. by apply list.NoDup_cons in i3 as [_ ?].
    + intros k Hk. apply i4. by apply Hrest.
    + intros k z Hk. apply i5. by apply Hrest.
    + intros k [->|Hk]%Hset; [done|by apply i6].
    + intros q [->|Hq]%elem_of_cons; simpl; rewrite Hset; [by split; [left|]|].
      destruct (i7 q Hq). split; [by right|done].
    + intros q Hq. destruct (i9 q Hq). split; [apply Hset; by right|done].
    + intros k Hk. destruct (i10 k Hk). split; [apply Hset; by right|done].
Qed.

Lemma clean_step_inv bs y y' : SInv bs y → clean_step y y' → SInv bs y'.
Proof.
  intros HS [Hst Hcl]. destruct Hst.
  - by eapply step_new_inv.
  - by eapply step_store_inv.
  - by eapply step_enter_inv.
  - eapply step_locked_inv; [done|done|apply Hcl|done].
  - by eapply step_get_inv.
  - by eapply step_touch_inv.
Qed.

(** ** Executions from an empty placer *)

(** No object yet, whatever the group holds. *)
Definition initial (s : PState) (h : H) (y : Sys) : Prop :=
  y = MkSys (s, h) [] [] [] [] ∧ metas s = ∅ ∧ metaPool s = [] ∧
  plc s = NewPlacer (pgroup (plc s)) ∧ (∀ k, hm_Get h k = None) ∧ sizes_ok s.

(** The counter of an instance before the first object. *)
Definition base_size (s : PState) (ip : iptr) : Z :=
  from_option (λ i, lsize (imeta i)) 0 (insts (ls (sh s)) !! ip).

Lemma initial_inv s h y :
  initial s h y → Z.of_nat n < 2 ^ 63 → SInv (base_size s) y.
Proof.
  intros (->&Em&Epool&Eplc&Hh&Hsz) Hn. remember (pgroup (plc s)) as g eqn:Eg. clear Eg.
  assert (Hno : ∀ m x, metas s !! m ≠ Some x) by (intros m x; by rewrite Em).
  assert (Hlist : ∀ i m, [None] !! i ≠ Some (Some m :> option mptr)) by (by intros [|[|i]] m).
  split; simpl; try (rewrite ?Epool; set_solver).
  - split; [|by intros m x ?%Hno]. split; [|done|by intros m x pm (?%Hno&_)|].
    + split; rewrite ?Eplc; simpl; try done.
      * by left.
      * by left.
      * intros i m. unfold primArr; simpl. by intros ?%Hlist.
      * by intros m x pm (?%Hno&_).
    + intros ip ins Hi. unfold placed, base_size. rewrite Em, msum_empty, Hi, Z.add_0_r.
      simpl. symmetry. apply u64_small. by apply (Hsz ip).
  - constructor.
  - intros m [k Hk]. by rewrite Hh in Hk.
  - constructor.
Qed.

Lemma reachable_inv s h y0 y :
  initial s h y0 → Z.of_nat n < 2 ^ 63 → rtc clean_step y0 y → SInv (base_size s) y.
Proof.
  intros Hi Hn Hr. pose proof (initial_inv s h y0 Hi Hn) as HS. clear Hi.
  induction Hr as [|y0 y1 y2 Hst _ IH]; [done|]. by apply IH, (clean_step_inv _ y0).
Qed.
End system.
