(* ===== verification/Fixtures.v ===== *)
(** * Concrete placers

    The fixtures of the placer's own tests ([initPlacer], [initGroupPlacer]), a
    decision procedure for the representation invariant on a concrete state,
    and the tests themselves, replayed on the model. *)

From stdpp Require Import pretty.
From S2P Require Import Prelude Lambdastore Group Meta Placer Clock.

(** ** Deciding [WF] *)

Section decide_wf.
Context (s : PState).

Definition live_pm (m : mptr) : option PlacerMeta :=
  x ← metas s !! m; if Deleted x then None else placerMeta x.

Definition indexed {A} (l : list A) : list (nat * A) := zip (seq 0 (length l)) l.

Definition prim_ok (e : nat * option mptr) : bool :=
  match e.2 with
  | None => true
  | Some m =>
      match live_pm m with
      | None => false
      | Some pm => bool_decide (get2 (primary (plc s)) (pos pm) = e.1) &&
                   (visited pm || allConfirmed pm)
      end
  end.
Definition sec_ok (e : nat * option mptr) : bool :=
  match e.2 with
  | None => true
  | Some m =>
      match live_pm m with
      | None => false
      | Some pm => bool_decide (get2 (secondary (plc s)) (pos pm) = e.1)
      end
  end.
Definition pos_ok (e : mptr * Meta) : bool :=
  match live_pm e.1 with
  | None => true
  | Some pm =>
      bool_decide (at0 (pos pm) = 0%nat ∧ at1 (pos pm) = 0%nat ∨
        primArr (plc s) !! get2 (primary (plc s)) (pos pm) = Some (Some e.1))
  end.

Definition wf_check : bool :=
  bool_decide (secondary (plc s) = negb (primary (plc s))) &&
  bool_decide (primArr (plc s) !! 0%nat = Some None) &&
  bool_decide (secArr (plc s) = [] ∨ secArr (plc s) !! 0%nat = Some None) &&
  bool_decide (cursor (plc s) = 0%nat ∨
    (1 ≤ cursor (plc s) ∧ cursor (plc s) ≤ cursorBound (plc s) ∧
     cursorBound (plc s) ≤ length (primArr (plc s)))%nat) &&
  forallb prim_ok (indexed (primArr (plc s))) &&
  (bool_decide (cursor (plc s) = 0%nat) ||
   bool_decide (secArr (plc s) =
     None :: (Some <$> compact (take (cursor (plc s)) (primArr (plc s))))) &&
   forallb sec_ok (indexed (secArr (plc s)))) &&
  forallb pos_ok (map_to_list (metas s)).

Lemma live_pm_Some m pm : live_pm m = Some pm ↔ ∃ x, live s m x pm.
Proof.
  unfold live_pm, live. split.
  - destruct (metas s !! m) as [x|] eqn:E; [|done]. simpl.
    destruct (Deleted x) eqn:Ed; [done|]. intros Hp. by exists x.
  - intros (x&->&Hp&Hd). simpl. by rewrite Hd.
Qed.

Lemma indexed_lookup {A} (l : list A) i x : l !! i = Some x → (i, x) ∈ indexed l.
Proof.
  intros Hi. unfold indexed. apply list_elem_of_lookup. exists i.
  apply lookup_zip_Some. split; [|done]. apply lookup_seq. split; [lia|].
  by apply lookup_lt_Some in Hi.
Qed.

Lemma forallb_elem {A} (f : A → bool) l x : forallb f l = true → x ∈ l → f x = true.
Proof. rewrite forallb_forall. intros Hf Hx. apply Hf. by apply list_elem_of_In. Qed.

Lemma wf_check_sound : wf_check = true → WF s.
Proof.
  unfold wf_check. rewrite !andb_true_iff, orb_true_iff, andb_true_iff, !bool_decide_eq_true.
  intros [[[[[[h1 h2] h3] h4] h5] h6] h7]. split; [done|done|done|lia| | | |].
  - intros i m Hi%indexed_lookup. pose proof (forallb_elem _ _ _ h5 Hi) as Hok.
    unfold prim_ok in Hok. simpl in Hok. destruct (live_pm m) as [pm|] eqn:Ep; [|done].
    apply live_pm_Some in Ep as [x Hl]. apply andb_true_iff in Hok as [Hp Hv].
    apply bool_decide_eq_true in Hp. exists x, pm. split_and!; [done..|].
    intros Hv'. by rewrite Hv' in Hv.
  - intros Hc. by destruct h6 as [?|[? _]].
  - intros i m Hc Hi%indexed_lookup. destruct h6 as [?|[_ h6]]; [done|].
    pose proof (forallb_elem _ _ _ h6 Hi) as Hok. unfold sec_ok in Hok. simpl in Hok.
    destruct (live_pm m) as [pm|] eqn:Ep; [|done]. apply live_pm_Some in Ep as [x Hl].
    apply bool_decide_eq_true in Hok. by exists x, pm.
  - intros m x pm Hl. assert (Hin : (m, x) ∈ map_to_list (metas s)).
    { apply elem_of_map_to_list, Hl. }
    pose proof (forallb_elem _ _ _ h7 Hin) as Hok. unfold pos_ok in Hok. simpl in Hok.
    rewrite (proj2 (live_pm_Some m pm)) in Hok by eauto.
    apply bool_decide_eq_true in Hok as [[E0 E1]|?]; [left|by right].
    destruct (pos pm); simpl in *; congruence.
Qed.
End decide_wf.

(** ** placer_test.go: the fixtures *)

Definition emptyHeap : SHeap := MkSHeap (MkLHeap ∅ ∅ ∅ ∅ ∅ [] 0) ∅ ∅.

Definition newTestMeta (i : nat) : Meta :=
  zeroMeta <| Key := pretty i |> <| Placement_ := MkPlacement [Z.of_nat i] 1 |>
           <| placerMeta := Some (newPlacerMeta 0) |>.
(** [NewPlacer(nil, nil)], with the metas of the tests at addresses 0 to 11. *)
Definition testPlacer : PState :=
  MkPState emptyHeap (list_to_map ((λ i, (i, newTestMeta i)) <$> seq 0 12)) []
    (NewPlacer 0) 7.
Definition initPlacer (caseCode : Z) : M PState unit :=
  mfor (seq 0 10) AddObject;;
  if decide (caseCode = 1) then
    NextAvailableObject 0;; mfor (seq 0 4) TouchObject;; mfor (seq 5 5) TouchObject
  else mret ().

(** [initGroupPlacer], with a capacity per instance. *)
Fixpoint fillGroup (g : grp) (i : Z) (caps : list Z) : M SHeap unit :=
  match caps with
  | [] => mret ()
  | c :: caps' =>
      ins ← onLs (NewInstance "TestInstance" i false);
      onLs (modInst ins (λ x, x <| imeta ::= (λ m, m <| Capacity := c |>) |>));;
      p ← Reserve g i (LInstance ins);
      SetGI g p;;
      fillGroup g (i + 1) caps'
  end.
Definition initGroupPlacer (caps : list Z) : res PState :=
  match (g ← NewGroup (Z.of_nat (length caps)); fillGroup g 0 caps;; mret g) emptyHeap with
  | Done (g, h) => Done (MkPState h ∅ [] (NewPlacer g) 0)
  | Panics e => Panics e
  | Spins => Spins
  end.

(** A SET of one chunk as the proxy makes it, lambda id equal to the chunk. *)
Definition SetChunk (key : string) (num chunk size : Z) :
    M (Store (gmap string mptr)) GOIResult :=
  m ← onPS (NewMeta None key num num chunk chunk size);
  GetOrInsert 8 key m.
Fixpoint setChunks (num size : Z) (l : list (string * Z)) : M (Store (gmap string mptr)) unit :=
  match l with
  | [] => mret ()
  | (k, c) :: l' => SetChunk k num c size;; setChunks num size l'
  end.

Definition groupStore (caps : list Z) : Store (gmap string mptr) :=
  (match initGroupPlacer caps with Done s => s | _ => testPlacer end, ∅).

Definition finalState {S A} (c : M S A) (s : S) : S :=
  match c s with Done (_, s') => s' | _ => s end.

(** ** placer_test.go: the tests *)

Section tests.
#[local] Open Scope string_scope.

Definition dumps : M PState (string * string) :=
  a ← dumpPlacer []; b ← dumpPlacer [true]; mret (a, b).
Definition testOf {A} (c : M PState A) : option A :=
  match c testPlacer with Done (a, _) => Some a | _ => None end.
Definition posOf (m : mptr) : M PState (list nat) :=
  pm ← getPM m; mret [at0 (pos pm); at1 (pos pm)].
Definition swapOf (m : mptr) : M PState (list Z) := pm ← getPM m; mret (pl (swapMap pm)).

(** "should visited be initialized with true" *)
Example test_init : testOf (initPlacer 0;; dumps) =
  Some ("0-1,1-1,2-1,3-1,4-1,5-1,6-1,7-1,8-1,9-1", "").
Proof. vm_compute. reflexivity. Qed.

(** "should replace the unvisited object" *)
Example test_replace :
  testOf (initPlacer 1;; f ← NextAvailableObject 10; d ← dumps; p ← posOf 10;
          w ← swapOf 10; mret (f, d, p, w)) =
  Some (true, ("0-0,1-0,2-0,3-0,10-1,5-1,6-1,7-1,8-1,9-1", "0-0,1-0,2-0,3-0,10-1"),
        [5%nat; 5%nat], [4]).
Proof. vm_compute. reflexivity. Qed.

(** "should replace the unvisited object even the newer has been appended" *)
Example test_replace_appended :
  testOf (initPlacer 1;; AddObject 10;; d0 ← dumpPlacer []; p0 ← posOf 10;
          f ← NextAvailableObject 10; d ← dumps; p ← posOf 10; mret (d0, p0, f, d, p)) =
  Some ("0-1,1-1,2-1,3-1,4-0,5-1,6-1,7-1,8-1,9-1,10-1", [0%nat; 11%nat], true,
        ("0-0,1-0,2-0,3-0,10-1,5-1,6-1,7-1,8-1,9-1,nil", "0-0,1-0,2-0,3-0,10-1"),
        [5%nat; 5%nat]).
Proof. vm_compute. reflexivity. Qed.

(** "should a second call and compact works if the first call failed" *)
Example test_second_call :
  testOf (initPlacer 1;; AddObject 10;; NextAvailableObject 10;;
          f1 ← NextAvailableObject 11; d1 ← dumps;
          f2 ← NextAvailableObject 11; d2 ← dumps; p ← posOf 11; w ← swapOf 11;
          mret (f1, d1, (f2, d2, p, w))) =
  Some (false, ("0-0,1-0,2-0,3-0,10-1,5-0,6-0,7-0,8-0,9-0",
                "0-0,1-0,2-0,3-0,10-1,5-0,6-0,7-0,8-0,9-0,nil"),
        (true, ("11-1,1-0,2-0,3-0,10-1,5-0,6-0,7-0,8-0,9-0", "11-1"),
         [1%nat; 1%nat], [0])).
Proof. vm_compute. reflexivity. Qed.

(** "should post process callback works": the callback gets the evicted meta. *)
Example test_postProcess :
  testOf (modPM 1 (λ x, x <| evicts := Some 2%nat |> <| once := Some false |>);;
          postProcess 1 (λ e, match e with
            | Some m => modMeta m (λ x, x <| ResetFlag := true |>) | None => mret () end);;
          x ← getMeta 2; pm ← getPM 1; mret (ResetFlag x, evicts pm)) =
  Some (true, None).
Proof. vm_compute. reflexivity. Qed.
End tests.
