(* ===== verification/PlacerTheorems.v ===== *)
(** * What the placer guarantees

    The main theorems about the placer: the accounting of instance sizes under
    concurrent requests, the refinement of the clock, termination and
    divergence of the eviction loop, and what SET and GET promise. *)

From S2P Require Import Prelude Lambdastore Group Meta Placer Clock ClockRefine Accounting PlacerInv PlacerSystem Fixtures.

(** ** Runs of whole requests as executions *)

Definition quiet {H} (st : Store H) : Sys (H:=H) := MkSys st [] [] [] [].

Definition clean_check (s : PState) : bool :=
  bool_decide (NoDup (compact (secArr (plc s)))).

Lemma compact_two {A} (l : list (option A)) i j x :
  (i < j)%nat → l !! i = Some (Some x) → l !! j = Some (Some x) → ¬ NoDup (compact l).
Proof.
  revert i j. induction l as [|o l IH]; intros [|i] [|j] Hij; simpl; try done; try lia.
  - intros [= ->] Hj Hnd. csimpl in Hnd. apply list.NoDup_cons in Hnd as [Hn _].
    apply Hn, elem_of_compact. by exists j.
  - intros Hi Hj Hnd. eapply (IH i j); [lia|done|done|].
    destruct o; csimpl in Hnd; [|done]. by apply list.NoDup_cons in Hnd as [_ ?].
Qed.

Lemma clean_check_sound {H} (y : Sys (H:=H)) : clean_check (store y).1 = true → clean y.
Proof.
  unfold clean_check. rewrite bool_decide_eq_true. intros Hnd m (i&j&Hij&Hi&Hj).
  by eapply compact_two.
Qed.

Section keeps_clock.
Lemma same_plc_enter m chunk : keeps same_plc (GetOrInsert_enter m chunk).
Proof.
  intros s a s' Hr. unfold GetOrInsert_enter in Hr.
  apply bind_inv in Hr as ([]&s1&H1&Hr). injection H1 as <-.
  apply bind_inv in Hr as (mm&s1'&Hmm&Hr). unfold getMeta in Hmm.
  apply expect_inv in Hmm as [_ ->]. destruct (placerMeta mm).
  - apply bind_inv in Hr as (c&s2&Hc&Hr). apply expect_inv in Hc as [_ ->].
    destruct c; [apply bind_inv in Hr as ([]&s2&H2&Hr); injection H2 as <-|];
      by injection Hr as _ <-.
  - apply bind_inv in Hr as ([]&s2&H2&Hr). injection H2 as <-. by injection Hr as _ <-.
Qed.

Lemma same_plc_NewMeta pick key ss num chunk id cs :
  keeps same_plc (NewMeta pick key ss num chunk id cs).
Proof.
  intros s a s' Hr. unfold NewMeta in Hr.
  apply bind_inv in Hr as (m&s1&Hg&Hr).
  assert (E1 : plc s1 = plc s).
  { unfold metaPool_Get in Hg. by case_match; injection Hg as _ <-. }
  apply bind_inv in Hr as (x&s2&Hx&Hr). unfold getMeta in Hx. apply expect_inv in Hx as [_ ->].
  apply bind_inv in Hr as (x'&s2&Hx&Hr).
  assert (s2 = s1) as -> by (by case_match; [injection Hx as _ <-|..]).
  erewrite bind_done in Hr by reflexivity.
  apply bind_inv in Hr as ([]&s3&H3&Hr). injection H3 as <-.
  apply bind_inv in Hr as ([]&s4&H4&Hr). unfold assignPlacement in H4.
  apply bind_inv in H4 as (y&s5&Hy&H4). unfold getMeta in Hy. apply expect_inv in Hy as [_ ->].
  apply bind_inv in H4 as (w&s5&Hw&H4). apply expect_inv in Hw as [_ ->]. injection H4 as <-.
  apply bind_inv in Hr as ([]&s5&H5&Hr). injection H5 as <-. by injection Hr as _ <-.
Qed.
End keeps_clock.

Section runs.
Abbreviation G := (gmap string mptr) (only parsing).

Lemma GetOrInsert_store_plc key m (st : Store G) r st' :
  GetOrInsert_store key m st = Done (r, st') → plc st'.1 = plc st.1.
Proof.
  intros Hr. unfold GetOrInsert_store in Hr. apply bind_inv in Hr as (nm&st1&Hnm&Hr).
  unfold onPS, zoom, getMeta in Hnm. destruct (metas st.1 !! m); [|done].
  injection Hnm as -> <-. apply bind_inv in Hr as (id&st1&Hid&Hr).
  apply expect_inv in Hid as [_ ->]. apply bind_inv in Hr as ([r0 got]&st1&Hg&Hr).
  assert (E : st1.1 = st.1).
  { unfold MetaStore_GetOrInsert in Hg.
    destruct (hm_GetOrInsert _ _ _) as [r1 h1]. by injection Hg as _ <-. }
  apply bind_inv in Hr as ([]&st2&Hc&Hr). injection Hr as _ <-. rewrite <- E.
  destruct got; by injection Hc as <-.
Qed.

(** A whole SET request is a sequence of steps, clean when it leaves no
    duplicate behind. *)
Lemma SetChunk_steps n key chunk size (st : Store G) r st' :
  SetChunk key (Z.of_nat n) chunk size st = Done (r, st') →
  rtc (step n) (quiet st) (quiet st') ∧
  (clean (quiet st) → clean (quiet st') → rtc (clean_step n) (quiet st) (quiet st')).
Proof.
  intros Hr. unfold SetChunk in Hr. apply bind_inv in Hr as (m&st1&Hn&Hr).
  unfold onPS, zoom in Hn.
  destruct (NewMeta _ _ _ _ _ _ _ st.1) as [[m' s1]|?|] eqn:En; [|done..].
  injection Hn as -> <-.
  pose proof (step_new n (quiet st) _ _ _ _ _ _ _ _ En) as S1.
  unfold GetOrInsert in Hr. apply bind_inv in Hr as ([[[r0 got] c] id]&st2&Hs&Hr).
  pose proof (step_store n (MkSys (s1, st.2) [m] [] [] []) key m [] _ _ _ _ _ (Permutation_refl _) Hs) as S2.
  apply bind_inv in Hr as (early&st3&He&Hr). unfold onPS, zoom in He.
  destruct (GetOrInsert_enter r0 c st2.1) as [[early' s3]|?|] eqn:Ee; [|done..].
  injection He as -> <-.
  pose proof (step_enter n (MkSys st2 [] [MkReq r0 got c id] [] []) _ [] _ _
    (Permutation_refl _) (not_elem_of_nil _) Ee) as S3.
  assert (P1 : plc s1 = plc st.1) by (by eapply same_plc_NewMeta).
  assert (P2 : plc st2.1 = plc st.1).
  { by rewrite (GetOrInsert_store_plc _ _ _ _ _ Hs). }
  assert (P3 : plc s3 = plc st.1).
  { rewrite <- P2. by eapply same_plc_enter. }
  assert (Hcl : ∀ y, plc (store y).1 = plc st.1 → clean (quiet st) → clean (H:=G) y).
  { intros y E Hc m0 (i&j&Hij). apply (Hc m0). exists i, j. simpl. by rewrite <- E. }
  assert (Hpre : ∀ y, y = MkSys (s3, st2.2) [] [] (if (early : bool) then [] else [MkReq r0 got c id]) [] →
    rtc (step n) (quiet st) y ∧ (clean (quiet st) → rtc (clean_step n) (quiet st) y)).
  { intros y ->. split.
    - eapply rtc_l; [exact S1|]. eapply rtc_l; [exact S2|]. by apply rtc_once.
    - intros Hc. eapply rtc_l; [split; [exact S1|apply Hcl; [exact P1|exact Hc]]|].
      eapply rtc_l; [split; [exact S2|apply Hcl; [exact P2|exact Hc]]|].
      apply rtc_once. split; [exact S3|apply Hcl; [exact P3|exact Hc]]. }
  destruct early.
  - injection Hr as _ <-. destruct (Hpre _ eq_refl) as [Ha Hb]. split; [exact Ha|]. intros Hc _. by apply Hb.
  - unfold onPS, zoom in Hr.
    destruct (GetOrInsert_locked 8 r0 got c id (s3, st2.2).1) as [[r4 s4]|?|] eqn:El; [|done..].
    injection Hr as _ <-. destruct (Hpre _ eq_refl) as [Ha Hb].
    pose proof (step_locked n (MkSys (s3, st2.2) [] [] [MkReq r0 got c id] []) 8 _ []
      _ _ (Permutation_refl _) El) as S4.
    split; [by eapply rtc_r|]. intros Hc Hc'. eapply rtc_r; [by apply Hb|by split].
Qed.

Lemma setChunks_steps n size l (st st' : Store G) :
  setChunks (Z.of_nat n) size l st = Done ((), st') →
  rtc (step n) (quiet st) (quiet st').
Proof.
  revert st. induction l as [|[k c] l IH]; intros st Hr.
  { injection Hr as <-. done. }
  simpl in Hr. apply bind_inv in Hr as (r&st1&H1&Hr).
  etrans; [by eapply SetChunk_steps|by apply IH].
Qed.

(** Runs the requests and checks every state between them. *)
Fixpoint clean_run (num size : Z) (l : list (string * Z)) (st : Store G) : option (Store G) :=
  if clean_check st.1 then
    match l with
    | [] => Some st
    | (k, c) :: l' =>
        match SetChunk k num c size st with
        | Done (_, st') => clean_run num size l' st'
        | _ => None
        end
    end
  else None.

Lemma clean_run_steps n size l (st st' : Store G) :
  clean_run (Z.of_nat n) size l st = Some st' →
  rtc (clean_step n) (quiet st) (quiet st') ∧ clean (quiet st).
Proof.
  revert st. induction l as [|[k c] l IH]; intros st Hr; simpl in Hr;
    destruct (clean_check st.1) eqn:Hc; try done;
    apply (clean_check_sound (quiet st)) in Hc.
  { by injection Hr as <-. }
  destruct (SetChunk k (Z.of_nat n) c size st) as [[r st1]|?|] eqn:E; [|done..].
  destruct (IH st1 Hr) as [Hrtc Hc1]. split; [|done].
  etrans; [by eapply SetChunk_steps|done].
Qed.
End runs.

(** ** Accounting *)

Definition counter (s : PState) (ip : iptr) : option Z :=
  (λ i, lsize (imeta i)) <$> insts (ls (sh s)) !! ip.

(** C2: in every state that concurrent SET and GET requests can reach from an
    empty placer without an eviction that duplicates an object in the clock,
    the size counter of each instance is, modulo 2^64, its initial value plus
    exactly the bytes of the chunks that the objects not evicted hold or have
    reserved on it. *)
Theorem placer_accounting {H : Type} `{HashMapLaws string mptr H} (n : nat) s h y0 y :
  initial s h y0 → Z.of_nat n < 2 ^ 63 → rtc (clean_step n) y0 y →
  ∀ ip z, counter (store y).1 ip = Some z →
    z = u64 (base_size s ip + placed (store y).1 ip).
Proof.
  intros Hi Hn Hr ip z Hz. pose proof (reachable_inv n s h y0 y Hi Hn Hr) as HS.
  unfold counter in Hz. apply fmap_Some in Hz as (ins&Hins&->).
  apply (inv_size _ _ _ (pi_inv _ _ _ (si_inv _ _ _ HS)) ip ins Hins).
Qed.

(** Deciding [initial] for a group of given capacities. *)
Definition initial_check (s : PState) : bool :=
  forallb (λ e, bool_decide (is_u64 (lsize (imeta e.2)))) (map_to_list (insts (ls (sh s)))) &&
  bool_decide (map_to_list (metas s) = []) && bool_decide (metaPool s = []).

#[global] Instance is_u64_dec z : Decision (is_u64 z).
Proof. unfold is_u64. apply _. Defined.

Lemma initial_check_sound s :
  match map_to_list (metas s) with [] => True | _ => False end → metaPool s = [] →
  plc s = NewPlacer (pgroup (plc s)) →
  forallb (λ e, bool_decide (is_u64 (lsize (imeta e.2)))) (map_to_list (insts (ls (sh s)))) = true →
  initial s (∅ : gmap string mptr) (quiet (s, ∅)).
Proof.
  intros Em Ep Epl Hsz. split; [done|]. split_and!; [|done|done|done|].
  - apply map_to_list_empty_iff. by destruct (map_to_list (metas s)).
  - intros ip ins Hi. apply elem_of_map_to_list in Hi.
    by apply (forallb_elem _ _ _ Hsz), bool_decide_eq_true in Hi.
Qed.

Section concrete.
#[local] Open Scope string_scope.
(** Two instances; objects of two chunks of 10 bytes.  [N] evicts [A]. *)
Definition caps0 : list Z := [40; 30].
Definition sets0 : list (string * Z) :=
  [("A", 0); ("A", 1); ("M", 0); ("B", 0); ("B", 1); ("N", 0); ("N", 1)].
(** [M] then evicts [B] after the hand has passed it; it is evicted by [P], and
    again by [R]. *)
Definition sets1 : list (string * Z) :=
  sets0 ++ [("M", 1); ("P", 0); ("P", 1); ("Q", 0); ("Q", 1); ("R", 0); ("R", 1)].
End concrete.

Lemma groupStore_initial :
  initial (groupStore caps0).1 (∅ : gmap string mptr) (quiet (groupStore caps0)).
Proof. by apply (initial_check_sound (groupStore caps0).1); vm_compute. Qed.

Lemma placer_accounting_witness :
  ∃ y, rtc (clean_step (H:=gmap string mptr) 2) (quiet (groupStore caps0)) y ∧
    counter (store y).1 0%nat = Some 30 ∧
    30 = u64 (base_size (groupStore caps0).1 0%nat + placed (store y).1 0%nat).
Proof.
  set (r := clean_run 2 10 sets0 (groupStore caps0)).
  assert (E : ∃ st, r = Some st ∧ counter st.1 0%nat = Some 30).
  { vm_compute. eexists. split; reflexivity. }
  destruct E as (st&Er&Ec). destruct (clean_run_steps 2 10 sets0 _ st Er) as [Hr _].
  exists (quiet st). split; [exact Hr|]. split; [exact Ec|].
  apply (placer_accounting (H:=gmap string mptr) 2 (groupStore caps0).1 ∅ (quiet (groupStore caps0)) (quiet st)
    groupStore_initial eq_refl Hr 0%nat 30 Ec).
Defined.

(** Without that proviso the accounting fails: after this sequence of SET
    requests the counter of an instance says 20 bytes while its live objects
    hold 30. *)
Lemma double_eviction_miscounts :
  ∃ y, rtc (step (H:=gmap string mptr) 2) (quiet (groupStore caps0)) y ∧
    counter (store y).1 0%nat = Some 20 ∧
    base_size (groupStore caps0).1 0%nat + placed (store y).1 0%nat = 30.
Proof.
  assert (E : match setChunks 2 10 sets1 (groupStore caps0) with
    | Done (_, st) => bool_decide (counter st.1 0%nat = Some 20) &&
        bool_decide (base_size (groupStore caps0).1 0%nat + placed st.1 0%nat = 30)
    | _ => false end = true) by (vm_compute; reflexivity).
  destruct (setChunks 2 10 sets1 (groupStore caps0)) as [[[] st]|?|] eqn:Er; [|done..].
  apply andb_true_iff in E as [Ec Ep]. apply bool_decide_eq_true in Ec, Ep.
  exists (quiet st). split; [exact (setChunks_steps 2 10 sets1 _ _ Er)|].
  split; [exact Ec|exact Ep].
Qed.

(** ** The clock *)

(** The abstract entry of a managed meta. *)
Definition entry_of (m : mptr) (pm : PlacerMeta) : Entry :=
  MkEntry m (visited pm) (allConfirmed pm).

(** C3: on a well-formed placer [NextAvailableObject] implements the
    second-chance queue: it does not panic, it finds and marks the victim the
    specification names (taking over its placement and nothing else), or
    reports that the sweep was exhausted, and the arrays it leaves represent
    the abstract clock of the specification; only when the hand had already
    passed the evicting object does it leave a duplicate. *)
Theorem NextAvailableObject_refines meta s x pm :
  WF s → live s meta x pm →
  next_post meta s (aNext (entry_of meta pm) (abs s)) (NextAvailableObject meta s).
Proof. intros Hwf Hl. apply next_refines; [done|done|]. by exists x, pm. Qed.

(** A placer with the complete objects [A] and [B] and one chunk of [M]. *)
Section midway.
#[local] Open Scope string_scope.
Definition midway : PState :=
  (finalState (setChunks 2 10 [("A", 0); ("A", 1); ("M", 0); ("B", 0); ("B", 1)])
     (groupStore caps0)).1.
End midway.
Definition M_addr : mptr := 2.

Lemma midway_wf : WF midway.
Proof. apply wf_check_sound. vm_compute. reflexivity. Qed.

Lemma midway_live : ∃ x pm, live midway M_addr x pm.
Proof.
  assert (E : is_Some (live_pm midway M_addr)) by (vm_compute; eauto).
  destruct E as [pm E]. apply live_pm_Some in E as [x Hx]. by exists x, pm.
Qed.

Lemma NextAvailableObject_refines_witness : ∃ pm,
  next_post M_addr midway (aNext (entry_of M_addr pm) (abs midway))
    (NextAvailableObject M_addr midway).
Proof.
  destruct midway_live as (x&pm&Hl). exists pm.
  exact (NextAvailableObject_refines M_addr midway x pm midway_wf Hl).
Defined.

(** C20: the eviction loop of [GetOrInsert] terminates: when some other object of
    the clock is complete, three calls of [NextAvailableObject] are enough,
    and the loop ends with another object evicted for [meta] (or with [meta]
    duplicated). *)
Theorem evictLoop_terminates meta s x pm n :
  WF s → live s meta x pm → (3 ≤ n)%nat →
  Exists (complete_other (entry_of meta pm)) (ring (abs s)) →
  ∃ s', evictLoop n meta s = Done ((), s') ∧
    ((∃ v, v ≠ meta ∧ WF s' ∧ evicted_for meta v s s') ∨ duplicated meta s').
Proof.
  intros Hwf Hl Hn Hex. destruct n as [|[|[|n]]]; [lia..|].
  destruct (loop_terminates meta (entry_of meta pm) eq_refl n s Hwf) as (s'&Hr&Hp);
    [by exists x, pm|done|].
  exists s'. split; [done|]. destruct Hp as [(v&Hwf'&Hev)|?]; [left|by right].
  exists v. split_and!; [apply (ev_ne _ _ _ _ Hev)|done|done].
Qed.

Lemma evictLoop_terminates_witness : ∃ s', evictLoop 3 M_addr midway = Done ((), s') ∧
    ((∃ v, v ≠ M_addr ∧ WF s' ∧ evicted_for M_addr v midway s') ∨ duplicated M_addr s').
Proof.
  destruct midway_live as (x&pm&Hl).
  apply (evictLoop_terminates M_addr midway x pm 3 midway_wf Hl (le_n 3)).
  apply list.Exists_exists. exists (MkEntry 0%nat true true). split; [|by split].
  vm_compute. left.
Defined.

(** C39: when every other object of the clock is still incomplete and visited
    (for instance when there is none) the loop never returns, however often
    it runs: [GetOrInsert] spins with both locks held. *)
Theorem evictLoop_spins meta s x pm n :
  WF s → live s meta x pm →
  Forall (λ e, ¬ candidate (entry_of meta pm) e ∧ ¬ complete_other (entry_of meta pm) e)
    (ring (abs s)) →
  evictLoop n meta s = Spins.
Proof. intros Hwf Hl Hall. apply (loop_spins meta (entry_of meta pm)); [done|done|by exists x, pm|done]. Qed.

(** The first object of a placer, too large for its instance. *)
Definition tooLarge : PState :=
  finalState (m ← NewMeta None "big" 1 1 0 0 50; GetOrInsert_enter m 0;; mret tt)
    (groupStore caps0).1.

Lemma evictLoop_spins_witness : evictLoop 100 0 tooLarge = Spins.
Proof.
  assert (E : is_Some (live_pm tooLarge 0)) by (vm_compute; eauto).
  destruct E as [pm E]. apply live_pm_Some in E as [x Hx].
  apply (evictLoop_spins 0 tooLarge x pm 100); [|done|].
  - apply wf_check_sound. vm_compute. reflexivity.
  - vm_compute. constructor.
Defined.

(** ** SET and GET *)

Lemma GetOrInsert_confirms {H : Type} `{HashMapLaws string mptr H} n bs fuel key newMeta x0
    (st : Store H) m got pp st' :
  PInv n bs st.1 → metas st.1 !! newMeta = Some x0 → 0 ≤ lastChunk x0 < Z.of_nat n →
  GetOrInsert fuel key newMeta st = Done ((m, got, pp), st') →
  hm_Get st'.2 key = Some m ∧ confirmed_at st'.1 m (lastChunk x0) ∧ (pp = None ∨ pp = Some m).
Proof.
  intros HI Hx0 Hch Hr. unfold GetOrInsert in Hr.
  apply bind_inv in Hr as ([[[m1 got1] chunk] id]&st1&Hs&Hr).
  assert (Hst : PInv n bs st1.1 ∧ hm_Get st1.2 key = Some m1 ∧ chunk = lastChunk x0).
  { unfold GetOrInsert_store in Hs. apply bind_inv in Hs as (nm&sta&Hnm&Hs).
    unfold onPS, zoom, getMeta in Hnm. rewrite Hx0 in Hnm. simpl in Hnm.
    injection Hnm as <- <-. rewrite <- surjective_pairing in Hs. cbv zeta in Hs.
    apply bind_inv in Hs as (id'&sta&Hid&Hs). apply expect_inv in Hid as [_ ->].
    apply bind_inv in Hs as ([m2 got2]&sta&Hg&Hs). unfold MetaStore_GetOrInsert in Hg.
    destruct (hm_Get st.2 key) as [m0|] eqn:Ek.
    - rewrite (hm_goi_found _ _ newMeta m0) in Hg by done. injection Hg as <- <- <-.
      apply bind_inv in Hs as ([]&stb&Hc&Hs). injection Hc as <-.
      injection Hs as <- <- <- <- <-. simpl. by split; [apply PInv_pool|].
    - rewrite (hm_goi_absent _ _ newMeta) in Hg by done. injection Hg as <- <- <-.
      apply bind_inv in Hs as ([]&stb&Hc&Hs). injection Hc as <-.
      injection Hs as <- <- <- <- <-. simpl. rewrite hm_get_set_eq. done. }
  destruct Hst as (HI1&Hk&->).
  apply bind_inv in Hr as (early&st2&He&Hr). unfold onPS, zoom in He.
  destruct (GetOrInsert_enter m1 (lastChunk x0) st1.1) as [[early' s2]|?|] eqn:Ee; [|done..].
  injection He as -> <-.
  assert (Hconf : st'.2 = st1.2 ∧ m = m1 ∧ confirmed_at st'.1 m (lastChunk x0) ∧ (pp = None ∨ pp = Some m)).
  { destruct (enter_live n bs _ _ _ _ _ HI1 Ee) as (x&pm&Hl&Hc).
    destruct early.
    - injection Hr as <- _ <- <-. simpl. split_and!; [done..| |by left]. exists x, pm. split; [done|by apply Hc].
    - unfold onPS, zoom in Hr. simpl in Hr.
      destruct (GetOrInsert_locked _ _ _ _ _ s2) as [[r3 s3]|?|] eqn:El; [|done..].
      injection Hr as -> <-. simpl. destruct (locked_returns _ _ _ _ _ _ _ _ _ _ El) as [-> Hpp].
      split_and!; [done..| |done]. eapply locked_confirms; [exact Hl| |exact El].
      by apply Hc. }
  destruct Hconf as (E2&->&Hcf&Hpp). split_and!; [congruence|done|done].
Qed.

(** A GET of a confirmed chunk finds the meta, and only marks it visited. *)
Definition touch (s : PState) (pm : PlacerMeta) : PlacerMeta :=
  pm <| visited := true |> <| visitedAt := now s |>.
Lemma Get_confirmed {H : Type} `{HashMap string mptr H} key chunk (st : Store H) m :
  hm_Get st.2 key = Some m → confirmed_at st.1 m chunk →
  Get key chunk st = Done (Some m,
    (st.1 <| metas ::= alter (λ x, x <| placerMeta ::= fmap (touch st.1) |>) m |>, st.2)).
Proof.
  intros Hk (x&pm&(E3&E4&E5)&Hc). unfold Get, Get_enter, MetaStore_Get.
  erewrite bind_done by (erewrite bind_done by reflexivity; rewrite Hk;
    erewrite bind_done by (unfold onPS, zoom, getMeta; rewrite E3; reflexivity);
    rewrite E5, E4, Hc; reflexivity).
  simpl. unfold onPS, zoom, Get_locked. simpl. unfold getMeta.
  erewrite bind_done by (by rewrite E3). rewrite E5.
  unfold TouchObject. erewrite bind_done.
  2:{ erewrite bind_done by reflexivity. rewrite (bind_getPM _ m x pm) by done. reflexivity. }
  reflexivity.
Qed.

(** A SET that returns makes its chunk readable: the meta it returns is the
    one the store maps the key to, the chunk is confirmed, and a GET for it
    finds that meta. *)
Theorem set_then_get {H : Type} `{HashMapLaws string mptr H} n bs fuel key newMeta x0
    (st : Store H) m got pp st' :
  PInv n bs st.1 → metas st.1 !! newMeta = Some x0 → 0 ≤ lastChunk x0 < Z.of_nat n →
  GetOrInsert fuel key newMeta st = Done ((m, got, pp), st') →
  hm_Get st'.2 key = Some m ∧ confirmed_at st'.1 m (lastChunk x0) ∧
  ∃ st'', Get key (lastChunk x0) st' = Done (Some m, st'').
Proof.
  intros HI Hx0 Hch Hr.
  destruct (GetOrInsert_confirms n bs fuel key newMeta x0 st m got pp st' HI Hx0 Hch Hr) as (Hk&Hc&_).
  split_and!; [done|done|]. eexists. by apply Get_confirmed.
Qed.

Section set_then_get_witness.
#[local] Open Scope string_scope.
Definition oneMeta : M (Store (gmap string mptr)) mptr := onPS (NewMeta None "A" 2 2 1 1 10).

Lemma set_then_get_witness : ∃ st m pp st' st'',
  GetOrInsert 1 "A" 0 st = Done ((m, false, pp), st') ∧ Get "A" 1 st' = Done (Some m, st'').
Proof.
  destruct (NewMeta None "A" 2 2 1 1 10 (groupStore caps0).1) as [[m s1]|?|] eqn:En;
    [|vm_compute in En; discriminate En..].
  pose proof (step_new_inv 2 _ (quiet (groupStore caps0)) None "A" 2 1 1 10 m s1
    (initial_inv 2 _ _ _ groupStore_initial eq_refl) En) as HS.
  assert (Hx : ∃ x, metas s1 !! 0%nat = Some x ∧ lastChunk x = 1 ∧
    ∃ r st', GetOrInsert 1 "A" 0 (s1, (∅ : gmap string mptr)) = Done ((r, false, None), st')).
  { vm_compute in En. injection En as <- <-. vm_compute.
    eexists. split; [reflexivity|]. split; [reflexivity|]. eexists _, _. reflexivity. }
  destruct Hx as (x&Hx&Hlast&r&st'&Hr).
  destruct (set_then_get 2 _ 1 "A" 0 x (s1, (∅ : gmap string mptr)) r false None st'
    (si_inv _ _ _ HS) Hx) as (_&_&st''&Hget); [rewrite Hlast; lia|exact Hr|].
  exists (s1, ∅), r, None, st', st''. rewrite Hlast in Hget. split; [exact Hr|exact Hget].
Defined.
End set_then_get_witness.

(** ** Capacity *)

(** C38: a chunk placed without an eviction goes to an instance with room for it:
    its counter is below the capacity afterwards. *)
Theorem capacity_respected fuel m s x pm got chunk id s' :
  live s m x pm → zlookup (confirmed pm) chunk = Some false →
  swapMap pm = nilPlacement →
  GetOrInsert_locked fuel m got chunk id s = Done ((m, got, None), s') →
  ∃ x' z ip ins, metas s' !! m = Some x' ∧ zlookup (pl (Placement_ x')) chunk = Some z ∧
    loc_of s' z = Some ip ∧ insts (ls (sh s')) !! ip = Some ins ∧
    lsize (imeta ins) < Capacity (imeta ins).
Proof.
  intros Hl Hc Hsw Hr. unfold GetOrInsert_locked in Hr.
  erewrite bind_done in Hr by (unfold getMeta; by rewrite (proj1 Hl)).
  destruct Hl as (E1&E2&Ed). rewrite Ed in Hr.
  rewrite (bind_getPM s m x pm) in Hr by done. rewrite Hsw in Hr. simpl in Hr.
  apply bind_inv in Hr as ([assigned sl]&s1&Hgi&Hr). unfold onSh, zoom in Hgi.
  destruct (GetIndex (slice x) id (sh s)) as [[[a sl'] h]|?|] eqn:Egi; [|done..].
  injection Hgi as -> -> <-. destruct (GetIndex_inv _ _ _ _ _ Egi) as [Els Eloc].
  apply bind_inv in Hr as ([]&s2&Hm&Hr).
  set (s1 := MkPState h (metas s) (metaPool s) (plc s) (now s)) in *.
  apply (modMeta_run m _ s1 x s2 E1) in Hm.
  erewrite bind_done in Hr by reflexivity.
  apply bind_inv in Hr as (ip&s3&Hat&Hr). apply InstanceAt_onSh_inv in Hat as [Hloc ->].
  apply bind_inv in Hr as (ins&s4&Hins&Hr). apply getInst_onSh_inv in Hins as [Hins ->].
  case_decide as Hroom; [|apply bind_inv in Hr as (?&?&_&Hr); by injection Hr].
  apply bind_inv in Hr as ([]&s5&Hp&Hr). injection Hr as <-.
  assert (Hl2 : live s2 m (x <| slice := sl |>) pm).
  { rewrite Hm. apply live_setMeta_eq. by split_and!. }
  destruct (placeChunk_result s2 m _ pm chunk assigned ip s5 Hl2 Hc Hp) as (Egr&Esh&x'&Hx'&Hz).
  exists x', assigned, ip, (ins <| imeta ::= IncreaseSize (ChunkSize x) |>).
  split_and!; [done|done| | |].
  - unfold loc_of. rewrite Egr, Esh. exact Hloc.
  - rewrite Esh. simpl. by rewrite lookup_alter_eq, Hins.
  - simpl. by rewrite u64_add_r in Hroom |- *.
Qed.

Lemma capacity_respected_witness : ∃ s m x' z ip ins,
  GetOrInsert_locked 1 m false 0 0 s = Done ((m, false, None), x'.1) ∧
  zlookup (pl (Placement_ x'.2)) 0 = Some z ∧ insts (ls (sh x'.1)) !! ip = Some ins ∧
  lsize (imeta ins) < Capacity (imeta ins).
Proof.
  set (c := m ← NewMeta None "A" 1 1 0 0 10; GetOrInsert_enter m 0;; mret tt).
  set (s := finalState c (groupStore caps0).1).
  assert (E : is_Some (live_pm s 0%nat) ∧ ∃ pm, live_pm s 0%nat = Some pm ∧
    zlookup (confirmed pm) 0 = Some false ∧ swapMap pm = nilPlacement).
  { vm_compute. eauto 6. }
  destruct E as [_ (pm&Epm&Hc&Hsw)]. apply live_pm_Some in Epm as [x Hl].
  assert (Hr : ∃ s', GetOrInsert_locked 1 0 false 0 0 s = Done ((0%nat, false, None), s')).
  { vm_compute. eauto. }
  destruct Hr as [s' Hr].
  destruct (capacity_respected 1 0 s x pm false 0 0 s' Hl Hc Hsw Hr)
    as (x'&z&ip&ins&_&Hz&_&Hi&Hlt).
  exists s, 0%nat, (s', x'), z, ip, ins. split_and!; [exact Hr|exact Hz|exact Hi|exact Hlt].
Defined.

(** An eviction does not check the capacity again: two SETs of one chunk
    each, of 20 and then 100 bytes, on an instance of capacity 40, end with
    100 bytes charged to it. *)
Theorem eviction_overcommits :
  ∃ st', (SetChunk "A" 1 0 20;; SetChunk "B" 1 0 100;; mret tt) (groupStore [40]) = Done (tt, st') ∧
    counter st'.1 0%nat = Some 100 ∧
    (λ i, Capacity (imeta i)) <$> insts (ls (sh st'.1)) !! 0%nat = Some 40.
Proof. vm_compute. eexists. split_and!; reflexivity. Qed.
