(* ===== verification/Scheduler.v ===== *)
(** * proxy/server/scheduler.go: the pool of deployments

    The scheduler hands deployments from its pool to groups, keeps the active
    ones by id, and recycles them.  The hash map behind [actives] is an
    interface.  The scheduler is the registry that connections consult. *)

From stdpp Require Import pretty.
From S2P Require Import Prelude Lambdastore Request Instance Connection Group Meta Placer.

Definition LambdaPrefix : string := "Your Lambda Function Prefix".
Definition IN_DEPLOYMENT_MIGRATION : bool := true.
Definition ErrNoSpareDeployment : string := "No spare deployment".

Section scheduler.
Context {H : Type} `{HashMap Z gptr H}.

(** [pool] is a channel: first in, first out, of capacity [poolCap]. *)
Record Scheduler : Type := MkScheduler {
  ssh : SHeap;
  pool : list dptr;
  poolCap : nat;
  actives : H
}.
#[global] Instance Scheduler_eta : Eta Scheduler := λ s,
  MkScheduler (ssh s) (pool s) (poolCap s) (actives s).

Definition onS {A} (c : M SHeap A) : M Scheduler A := zoom ssh (λ h s, s <| ssh := h |>) c.
Definition onL {A} (c : M LHeap A) : M Scheduler A := onS (onLs c).

(** [<-s.pool] and [s.pool <- d] *)
Definition takePool : M Scheduler dptr := λ s,
  match pool s with
  | [] => Spins
  | d :: l => Done (d, s <| pool := l |>)
  end.
Definition putPool (d : dptr) : M Scheduler unit := λ s,
  if decide (length (pool s) < poolCap s)%nat
  then Done ((), s <| pool ::= (λ l, l ++ [d]) |>) else Spins.

Definition active_Get (id : Z) : M Scheduler (option gptr) :=
  gets (λ s, hm_Get (actives s) id).
Definition active_Set (id : Z) (p : gptr) : M Scheduler unit :=
  modify (λ s, s <| actives ::= (λ a, hm_Set a id p) |>).
Definition active_Del (id : Z) : M Scheduler unit :=
  modify (λ s, s <| actives ::= (λ a, hm_Del a id) |>).

(** [ins.Id()] of a group instance *)
Definition GI_Id (p : gptr) : M Scheduler Z :=
  gi ← onS (getGI p); onL (IdOf (gdep gi)).

Fixpoint fillPool (i : Z) (n : nat) : M Scheduler unit :=
  match n with
  | O => mret ()
  | S n' =>
      d ← onL (allocDep (NewDeployment LambdaPrefix i false));
      putPool d;; fillPool (i + 1) n'
  end.
Definition NewScheduler (a : H) (numDeployment : nat) (h : SHeap) : res (unit * Scheduler) :=
  fillPool 0 numDeployment (MkScheduler h [] (numDeployment + 1) a).

Definition GetForGroup (g : grp) (idx : Z) : M Scheduler iptr :=
  d ← takePool;
  i ← onL (NewInstanceFromDeployment d);
  p ← onS (Reserve g idx (LInstance i));
  id ← GI_Id p;
  active_Set id p;;
  onS (SetGI g p);;
  gi ← onS (getGI p);
  onS (asInstance (gdep gi)).

Definition ReserveForGroup (g : grp) (idx : Z) : M Scheduler (LambdaDeployment + string) :=
  s ← mget;
  match pool s with
  | [] => mret (inr ErrNoSpareDeployment)
  | _ =>
      d ← takePool;
      p ← onS (Reserve g idx (LDeployment d));
      id ← GI_Id p;
      active_Set id p;;
      gi ← onS (getGI p);
      mret (inl (gdep gi))
  end.

Definition ReserveForInstance (insId : Z) : M Scheduler (LambdaDeployment + string) :=
  got ← active_Get insId;
  match got with
  | None => mret (inr ("Instance " +:+ pretty insId +:+ " not found."))
  | Some p =>
      gi ← onS (getGI p);
      if IN_DEPLOYMENT_MIGRATION then mret (inl (gdep gi))
      else ReserveForGroup (ggroup gi) (gidx gi)
  end.

Definition Recycle (dp : LambdaDeployment) : M Scheduler unit :=
  id ← onL (IdOf dp);
  active_Del id;;
  match dp with
  | LDeployment d => putPool d
  | LInstance i => onL (Inst_Close i);; d ← onL (resolve (LInstance i)); putPool d
  end.

Definition DeploymentOf (id : Z) : M Scheduler (option LambdaDeployment) :=
  got ← active_Get id;
  match got with
  | Some p => gi ← onS (getGI p); mret (Some (gdep gi))
  | None => mret None
  end.

(** [Scheduler.Instance] *)
Definition Sched_Instance (id : Z) : M Scheduler (option iptr) :=
  got ← active_Get id;
  match got with
  | None => mret None
  | Some p =>
      gi ← onS (getGI p);
      validated ← onS (Validate (ggroup gi) p);
      (if decide (validated ≠ Some p) then
         q ← expect PNil validated;
         qid ← GI_Id q;
         active_Set qid q;;
         pid ← GI_Id p;
         active_Set pid p;;
         gi' ← onS (getGI p);
         Recycle (gdep gi')
       else mret ());;
      q ← expect PNil validated;
      gq ← onS (getGI q);
      i ← onS (asInstance (gdep gq));
      mret (Some i)
  end.

(** The loops over [s.actives.Iter()], on the entries present at the start. *)
Fixpoint recycleAll (keep : gptr → GroupInstance → bool) (l : list (Z * gptr)) : M Scheduler unit :=
  match l with
  | [] => mret ()
  | (_, p) :: l' =>
      gi ← onS (getGI p);
      (if keep p gi then mret () else Recycle (gdep gi));;
      recycleAll keep l'
  end.
Definition Clear (g : grp) : M Scheduler unit :=
  s ← mget;
  recycleAll (λ _ gi, negb (bool_decide (ggroup gi = g))) (hm_Iter (actives s)).
Definition ClearAll : M Scheduler unit :=
  s ← mget; recycleAll (λ _ _, false) (hm_Iter (actives s)).

(** [GetDestination] *)
Definition GetDestination (lambdaId : Z) : M Scheduler (LambdaDeployment + string) :=
  ReserveForInstance lambdaId.

(** The scheduler as the registry of instances. *)
#[global] Instance scheduler_registry : InstanceRegistry Scheduler := {
  reg_ls s := ls (ssh s);
  reg_put l s := s <| ssh ::= (λ h, h <| ls := l |>) |>;
  Registry_Instance := Sched_Instance
}.
End scheduler.
Arguments Scheduler H : clear implicits.

(** ** scheduler_test.go

    "should instance fetch return switched instance on migrate." *)
Section test.
Definition testScheduler : res (unit * Scheduler (gmap Z gptr)) :=
  NewScheduler (∅ : gmap Z gptr) 5 (MkSHeap (MkLHeap ∅ ∅ ∅ ∅ ∅ [] 0) ∅ ∅).
Definition switchTest : M (Scheduler (gmap Z gptr)) (bool * Z * Z * (bool * Z)) :=
  g ← onS (NewGroup 2);
  ins1 ← GetForGroup g 0;
  r ← ReserveForGroup g 0;
  match r with
  | inr _ => throw PNil
  | inl dpl2 =>
      id2 ← onL (IdOf dpl2);
      ins11 ← Sched_Instance id2;
      i11 ← onL (IdOf (LInstance ins1));
      d2 ← onL (IdOf dpl2);
      ins12 ← Sched_Instance i11;
      i12 ← onL (IdOf (LInstance ins1));
      mret (bool_decide (ins11 = Some ins1), i11, d2, (bool_decide (ins12 = Some ins1), i12))
  end.
Example test_switch :
  match testScheduler with
  | Done (_, s) => match switchTest s with Done (r, _) => Some r | _ => None end
  | _ => None
  end = Some (true, 1, 0, (true, 1)).
Proof. vm_compute. reflexivity. Qed.
End test.
