(* ===== verification/SchedulerTheorems.v ===== *)
(** * What the scheduler guarantees

    It is a registry as the connections expect one; no deployment is lost or
    handed out twice; and asking for an instance whose deployment migrated
    returns the instance of the group, under the id asked for. *)

From S2P Require Import Prelude Lambdastore Request Instance Connection Responses Validation.
From S2P Require Import Group Meta Placer Scheduler.

(** ** The scheduler implements the registry *)

Section lifting.
Context {H : Type} `{HashMap Z gptr H}.

(** A property of the lambdastore heap that neither renaming deployments, nor
    making or closing instances can break. *)
Context (J : LHeap → Prop).
Context (Jdeps : ∀ h f, J h → J (h <| deps ::= f |>)).
Context (Jnew : ∀ d, preserves J (NewInstanceFromDeployment d)).
Context (Jclose : ∀ i, preserves J (Inst_Close i)).

Lemma J_modDep d f : preserves J (modDep d f).
Proof. apply preserves_modify. intros h. apply Jdeps. Qed.
Lemma J_getDep d : preserves J (getDep d).
Proof. intros h a h' HJ E. unfold getDep in E. by apply expect_inv in E as [_ ->]. Qed.
Lemma J_getInst d : preserves J (getInst d).
Proof. intros h a h' HJ E. unfold getInst in E. by apply expect_inv in E as [_ ->]. Qed.
Lemma J_allocDep d : preserves J (allocDep d).
Proof. intros h a h' HJ E. injection E as _ <-. by apply Jdeps. Qed.
#[local] Hint Resolve J_modDep J_getDep J_getInst J_allocDep Jnew Jclose : go.

Lemma J_resolve l : preserves J (resolve l).
Proof. unfold resolve. preserve. Qed.
#[local] Hint Resolve J_resolve : go.
Lemma J_IdOf l : preserves J (IdOf l).
Proof. unfold IdOf. preserve. Qed.
Lemma J_Name l : preserves J (Name l).
Proof. unfold Name. preserve. Qed.
#[local] Hint Resolve J_IdOf J_Name : go.
Lemma J_assign d l : preserves J (assign_name_id d l).
Proof. unfold assign_name_id. preserve. Qed.
#[local] Hint Resolve J_assign : go.
Lemma J_Switch i l : preserves J (Switch i l).
Proof. unfold Switch, Reset. preserve. Qed.
#[local] Hint Resolve J_Switch : go.

Definition JS (h : SHeap) : Prop := J (ls h).
Lemma JS_onLs {A} (c : M LHeap A) : preserves J c → preserves JS (onLs c).
Proof. intros Hc. by apply (preserves_zoom JS _ _ J). Qed.
Lemma JS_getGI p : preserves JS (getGI p).
Proof. intros h a h' HJ E. unfold getGI in E. by apply expect_inv in E as [_ ->]. Qed.
Lemma JS_getGroup p : preserves JS (getGroup p).
Proof. intros h a h' HJ E. unfold getGroup in E. by apply expect_inv in E as [_ ->]. Qed.
Lemma JS_modGI p f : preserves JS (modGI p f).
Proof. by apply preserves_modify. Qed.
Lemma JS_modGroup p f : preserves JS (modGroup p f).
Proof. by apply preserves_modify. Qed.
#[local] Hint Resolve JS_onLs JS_getGI JS_getGroup JS_modGI JS_modGroup : go.
Lemma JS_asInstance l : preserves JS (asInstance l).
Proof. unfold asInstance. preserve. Qed.
#[local] Hint Resolve JS_asInstance : go.
Lemma JS_Validate g p : preserves JS (Validate g p).
Proof. unfold Validate, SetGI. preserve. Qed.
#[local] Hint Resolve JS_Validate : go.

Definition JJ (s : Scheduler H) : Prop := J (ls (ssh s)).
Lemma JJ_onS {A} (c : M SHeap A) : preserves JS c → preserves JJ (onS c).
Proof. intros Hc. by apply (preserves_zoom JJ _ _ JS). Qed.
Lemma JJ_onL {A} (c : M LHeap A) : preserves J c → preserves JJ (onL c).
Proof. intros Hc. by apply JJ_onS, JS_onLs. Qed.
Lemma JJ_modify f : (∀ s, ssh (f s) = ssh s) → preserves JJ (modify f).
Proof. intros Hf. apply preserves_modify. intros s. unfold JJ. by rewrite Hf. Qed.
Lemma JJ_putPool d : preserves JJ (putPool d).
Proof. intros s a s' HJ E. unfold putPool in E. case_decide; [|done]. by injection E as _ <-. Qed.
Lemma JJ_Get k : preserves JJ (active_Get k).
Proof. by intros s a s' HJ [= <- <-]. Qed.
Lemma JJ_Set k p : preserves JJ (active_Set k p).
Proof. by apply JJ_modify. Qed.
Lemma JJ_Del k : preserves JJ (active_Del k).
Proof. by apply JJ_modify. Qed.
#[local] Hint Resolve JJ_onS JJ_onL JJ_putPool JJ_Get JJ_Set JJ_Del : go.

Lemma JJ_Recycle dp : preserves JJ (Recycle dp).
Proof. unfold Recycle. preserve. Qed.
#[local] Hint Resolve JJ_Recycle : go.
Lemma JJ_Instance id : preserves JJ (Sched_Instance id).
Proof. unfold Sched_Instance, GI_Id. preserve. Qed.
Lemma JJ_takePool : preserves JJ takePool.
Proof. intros s a s' HJ E. unfold takePool in E. case_match; [done|]. by injection E as _ <-. Qed.
Lemma JS_Reserve g idx d : preserves JS (Reserve g idx d).
Proof. intros s a s' HJ E. by injection E as _ <-. Qed.
Lemma JS_SetGI g p : preserves JS (SetGI g p).
Proof. unfold SetGI. preserve. Qed.
#[local] Hint Resolve JJ_takePool JS_Reserve JS_SetGI : go.
Lemma JJ_GetForGroup g idx : preserves JJ (GetForGroup g idx).
Proof. unfold GetForGroup, GI_Id. preserve. Qed.
Lemma JJ_ReserveForGroup g idx : preserves JJ (ReserveForGroup g idx).
Proof. unfold ReserveForGroup, GI_Id. preserve. Qed.
End lifting.

Section registry.
Context {H : Type} `{HashMap Z gptr H}.

Lemma keep_reqs_close R P i :
  preserves (λ h, reqs h = R ∧ responses h = P) (Inst_Close i).
Proof.
  assert (Hm : ∀ f, (∀ h, reqs (f h) = reqs h) → (∀ h, responses (f h) = responses h) →
    preserves (λ h, reqs h = R ∧ responses h = P) (modify f)).
  { intros f H1 H2. apply preserves_modify. intros h. by rewrite H1, H2. }
  assert (Hi : ∀ k f, preserves (λ h, reqs h = R ∧ responses h = P) (modInst k f)) by (by intros; apply Hm).
  assert (Hc : ∀ k f, preserves (λ h, reqs h = R ∧ responses h = P) (modConn k f)) by (by intros; apply Hm).
  assert (Hgi : ∀ k, preserves (λ h, reqs h = R ∧ responses h = P) (getInst k)).
  { intros k h a h' HJ E. unfold getInst in E. by apply expect_inv in E as [_ ->]. }
  assert (Hgc : ∀ k, preserves (λ h, reqs h = R ∧ responses h = P) (getConn k)).
  { intros k h a h' HJ E. unfold getConn in E. by apply expect_inv in E as [_ ->]. }
  unfold Inst_Close, Conn_Close, flagValidatedLocked. preserve.
Qed.

#[export] Instance scheduler_laws : RegistryLaws (Scheduler H).
Proof.
  split; [done|]. intros id s r s' Hr. simpl in *.
  eapply (JJ_Instance (λ h, reqs h = reqs (ls (ssh s)) ∧ responses h = responses (ls (ssh s))));
    [done| |apply keep_reqs_close| |exact Hr]; [|done].
  intros d h a h' HJ E. by injection E as _ <-.
Qed.

Lemma unbound_close c i :
  preserves (λ h, ∃ cn, conns h !! c = Some cn ∧ cinstance cn = None) (Inst_Close i).
Proof.
  set (J := λ h, ∃ cn, conns h !! c = Some cn ∧ cinstance cn = None).
  assert (Hi : ∀ k f, preserves J (modInst k f)) by (by intros; apply preserves_modify).
  assert (Hc : ∀ k, preserves J (modConn k (λ x, x <| cclosed := true |>))).
  { intros k. apply preserves_modify. intros h (cn&Hcn&Hb). unfold J; simpl.
    destruct (decide (c = k)) as [->|].
    - rewrite lookup_alter_eq, Hcn. eexists. split; [reflexivity|done].
    - rewrite lookup_alter_ne by done. eauto. }
  assert (Hgi : ∀ k, preserves J (getInst k)).
  { intros k h a h' HJ E. unfold getInst in E. by apply expect_inv in E as [_ ->]. }
  assert (Hgc : ∀ k, preserves J (getConn k)).
  { intros k h a h' HJ E. unfold getConn in E. by apply expect_inv in E as [_ ->]. }
  unfold Inst_Close, Conn_Close, flagValidatedLocked. preserve.
Qed.

#[export] Instance scheduler_bindings : RegistryBindings (Scheduler H).
Proof.
  split; intros id s r s'; simpl.
  - intros Hr HI. eapply (JJ_Instance IInv); [| | |exact HI|exact Hr].
    + intros h f Hh. by eapply IInv_same.
    + apply IInv_NewInstance.
    + apply IInv_Inst_Close.
  - intros c cn Hr Hcn Hb.
    eapply (JJ_Instance (λ h, ∃ cn, conns h !! c = Some cn ∧ cinstance cn = None));
      [done| |apply unbound_close|by exists cn|exact Hr].
    intros d h a h' HJ E. by injection E as _ <-.
Qed.
End registry.

(** ** Conservation of deployments *)

Section conservation.
Context {H : Type} {HM : HashMap Z gptr H} {HL : HashMapLaws Z gptr H}.
Implicit Types (s : Scheduler H) (d : dptr) (k : Z) (p q : gptr).

Definition dep_of (l : LHeap) (ld : LambdaDeployment) : option dptr :=
  match ld with LDeployment d => Some d | LInstance i => idep <$> insts l !! i end.
Definition gdep_of s p : option dptr :=
  gi ← ginsts (ssh s) !! p; dep_of (ls (ssh s)) (gdep gi).
Definition id_of s d : option Z := did <$> deps (ls (ssh s)) !! d.
Definition active s k p : Prop := hm_Get (actives s) k = Some p.
(** A deployment the scheduler holds, pooled or active. *)
Definition owned s d : Prop := d ∈ pool s ∨ ∃ k p, active s k p ∧ gdep_of s p = Some d.

Record SchedInv s : Prop := {
  sc_pool : NoDup (pool s);
  sc_poolid d : d ∈ pool s → is_Some (id_of s d);
  sc_active k p : active s k p → ∃ d, gdep_of s p = Some d ∧ id_of s d = Some k ∧ d ∉ pool s;
  sc_ids d1 d2 k : owned s d1 → owned s d2 → id_of s d1 = Some k → id_of s d2 = Some k → d1 = d2;
  sc_slot g gr z q : groups (ssh s) !! g = Some gr → zlookup (All gr) z = Some (Some q) →
    (∃ k, active s k q) ∧ ∃ gq i, ginsts (ssh s) !! q = Some gq ∧ gdep gq = LInstance i ∧
      ggroup gq = g ∧ gidx gq = z
}.

(** Same deployments before and after. *)
Definition conserves s s' : Prop := ∀ d, owned s' d ↔ owned s d.

Lemma IdOf_inv ld h a h' :
  IdOf ld h = Done (a, h') → h' = h ∧ ∃ d dp, dep_of h ld = Some d ∧ deps h !! d = Some dp ∧ a = did dp.
Proof.
  unfold IdOf. intros Hr. apply bind_inv in Hr as (d&h1&H1&Hr).
  assert (h1 = h ∧ dep_of h ld = Some d) as [-> Hd].
  { destruct ld as [d'|i]; simpl in *; [by injection H1 as <- <-|].
    apply bind_inv in H1 as (ins&h2&H2&H1). unfold getInst in H2.
    apply expect_inv in H2 as [H2 ->]. injection H1 as <- <-. by rewrite H2. }
  apply bind_inv in Hr as (dp&h2&H2&Hr). unfold getDep in H2. apply expect_inv in H2 as [H2 ->].
  injection Hr as <- <-. eauto 6.
Qed.

Lemma onS_inv {A} (c : M SHeap A) s a s' :
  onS c s = Done (a, s') → ∃ h', c (ssh s) = Done (a, h') ∧ s' = s <| ssh := h' |>.
Proof.
  unfold onS, zoom. destruct (c (ssh s)) as [[b h]|?|]; [|done..]. intros [= <- <-]. eauto.
Qed.
Lemma onL_inv {A} (c : M LHeap A) s a s' :
  onL c s = Done (a, s') → ∃ l', c (ls (ssh s)) = Done (a, l') ∧
    s' = s <| ssh := ssh s <| ls := l' |> |>.
Proof.
  unfold onL. intros (h'&Hr&->)%onS_inv. unfold onLs, zoom in Hr.
  destruct (c (ls (ssh s))) as [[b l]|?|]; [|done..]. injection Hr as <- <-. eauto.
Qed.
Lemma ssh_id s : s <| ssh := ssh s |> = s.
Proof. by destruct s. Qed.
Lemma ssh_ls_id s : s <| ssh := ssh s <| ls := ls (ssh s) |> |> = s.
Proof. by destruct s as [[]]. Qed.

Lemma getGI_onS_inv p s gi s' : onS (getGI p) s = Done (gi, s') → ginsts (ssh s) !! p = Some gi ∧ s' = s.
Proof.
  intros (h'&Hr&->)%onS_inv. unfold getGI in Hr. apply expect_inv in Hr as [Hr ->].
  split; [done|apply ssh_id].
Qed.

Lemma GI_Id_inv p s a s' :
  GI_Id p s = Done (a, s') → s' = s ∧ ∃ d, gdep_of s p = Some d ∧ id_of s d = Some a.
Proof.
  unfold GI_Id. intros Hr. apply bind_inv in Hr as (gi&s1&Hgi&Hr).
  apply getGI_onS_inv in Hgi as [Hgi ->]. apply onL_inv in Hr as (l'&Hr&->).
  apply IdOf_inv in Hr as (->&d&dp&Hd&Hdp&->). split; [apply ssh_ls_id|].
  exists d. unfold gdep_of, id_of. rewrite Hgi. simpl. by rewrite Hd, Hdp.
Qed.

(** Changes of the heap that no deployment notices. *)
Record heap_same s s' : Prop := {
  hs_pool : pool s' = pool s;
  hs_actives : actives s' = actives s;
  hs_ginsts : ginsts (ssh s') = ginsts (ssh s);
  hs_groups : groups (ssh s') = groups (ssh s);
  hs_deps : deps (ls (ssh s')) = deps (ls (ssh s));
  hs_idep i : idep <$> insts (ls (ssh s')) !! i = idep <$> insts (ls (ssh s)) !! i
}.

Lemma heap_same_gdep s s' p : heap_same s s' → gdep_of s' p = gdep_of s p.
Proof.
  intros [a b c d e f]. unfold gdep_of. rewrite c. destruct (ginsts (ssh s) !! p) as [gi|]; [|done].
  simpl. destruct (gdep gi); [done|]. apply f.
Qed.

(** *** Recycling an active deployment whose slot is another's *)

(** Putting [d] back: key [k] is dropped and [d] enters the pool. *)
Lemma SchedInv_return s s' k p d :
  SchedInv s → active s k p → gdep_of s p = Some d → id_of s d = Some k →
  (∀ g gr z, groups (ssh s) !! g = Some gr → zlookup (All gr) z ≠ Some (Some p)) →
  heap_same (s <| pool := pool s ++ [d] |> <| actives := hm_Del (actives s) k |>) s' →
  SchedInv s' ∧ conserves s s'.
Proof.
  intros [i1 i2 i3 i4 i5] Hact Hd Hid Hslot Hsame.
  set (s1 := s <| pool := pool s ++ [d] |> <| actives := hm_Del (actives s) k |>) in *.
  assert (Eg : ∀ q, gdep_of s' q = gdep_of s q) by (intros q; apply (heap_same_gdep s1 s'); done).
  destruct Hsame as [e1 e2 e3 e4 e5 e6]. simpl in *.
  assert (Ei : ∀ x, id_of s' x = id_of s x) by (intros x; unfold id_of; by rewrite e5).
  assert (Hk : ∀ k' q, active s' k' q ↔ k' ≠ k ∧ active s k' q).
  { intros k' q. unfold active. rewrite e2. destruct (decide (k = k')) as [<-|Hne].
    - rewrite hm_get_del_eq. naive_solver.
    - rewrite hm_get_del_ne by done. naive_solver. }
  assert (Hdpool : d ∉ pool s).
  { destruct (i3 k p Hact) as (d'&Hd'&_&?). rewrite Hd in Hd'. by injection Hd' as <-. }
  assert (Hown : conserves s s').
  { intros x. unfold owned. rewrite e1, elem_of_app, list_elem_of_singleton. split.
    - intros [[Hx| ->]|(k'&q&Ha&Hq)]; [by left|right; eauto|].
      apply Hk in Ha as [_ Ha]. rewrite Eg in Hq. right. eauto.
    - intros [Hx|(k'&q&Ha&Hq)]; [by left; left|].
      destruct (decide (k' = k)) as [->|Hne].
      + left. right. unfold active in *. rewrite Hact in Ha. injection Ha as <-. congruence.
      + right. exists k', q. rewrite Eg. split; [by apply Hk|done]. }
  split; [|done]. split.
  - rewrite e1. apply list.NoDup_app. split_and!; [done| |apply list.NoDup_singleton].
    intros x Hx ->%list_elem_of_singleton. done.
  - intros x. rewrite e1, Ei, elem_of_app, list_elem_of_singleton. intros [Hx| ->]; [by apply i2|eauto].
  - intros k' q [Hne Ha]%Hk. destruct (i3 k' q Ha) as (x&Hx&Hxid&Hxp). exists x.
    rewrite Eg, Ei, e1, elem_of_app, list_elem_of_singleton. split_and!; [done..|].
    intros [?| ->]; [done|congruence].
  - intros d1 d2 k' H1%Hown H2%Hown. rewrite !Ei. by apply i4.
  - intros g gr z q. rewrite e4, e3. intros Hg Hz. destruct (i5 g gr z q Hg Hz) as [[k' Ha] Hrest].
    split; [|done]. exists k'. apply Hk. split; [|done]. intros ->.
    apply (Hslot g gr z Hg). unfold active in *. congruence.
Qed.

(** *** Renaming the ids *)

(** The ids of the deployments are permuted, and the keys with them. *)
Lemma SchedInv_rename (t : Z → Z) s s' :
  Inj (=) (=) t → (∀ k, ∃ k', k = t k') → SchedInv s →
  pool s' = pool s → ginsts (ssh s') = ginsts (ssh s) → groups (ssh s') = groups (ssh s) →
  (∀ p, gdep_of s' p = gdep_of s p) →
  (∀ d, owned s d → id_of s' d = t <$> id_of s d) →
  (∀ k p, active s' (t k) p ↔ active s k p) →
  SchedInv s' ∧ conserves s s'.
Proof.
  intros Ht Hsur [i1 i2 i3 i4 i5] e1 e3 e4 Eg Ei Hk.
  assert (Hk' : ∀ k' p, active s' k' p → ∃ k, k' = t k ∧ active s k p).
  { intros k' p Ha. destruct (Hsur k') as [k ->]. exists k. by rewrite <- Hk. }
  assert (Hown : conserves s s').
  { intros d. unfold owned. rewrite e1. split; (intros [?|(k&p&Ha&Hd)]; [by left|right]).
    - apply Hk' in Ha as (k'&->&Ha). rewrite Eg in Hd. eauto.
    - exists (t k), p. rewrite Eg. split; [by apply Hk|done]. }
  split; [|done]. split.
  - by rewrite e1.
  - intros d. rewrite e1. intros Hd. rewrite Ei by (by left). destruct (i2 d Hd) as [k ->]. eauto.
  - intros k' p (k&->&Ha)%Hk'. destruct (i3 k p Ha) as (d&Hd&Hid&Hp). exists d.
    rewrite Eg, e1, Ei by (right; eauto). by rewrite Hid.
  - intros d1 d2 k H1%Hown H2%Hown. rewrite !Ei by done. intros Hd1 Hd2.
    apply fmap_Some in Hd1 as (k1&Hd1&->), Hd2 as (k2&Hd2&Et). apply Ht in Et as ->.
    by eapply i4.
  - intros g gr z q. rewrite e4, e3. intros Hg Hz.
    destruct (i5 g gr z q Hg Hz) as [[k Ha] Hrest]. split; [|done]. exists (t k). by apply Hk.
Qed.

Definition swapId (a b k : Z) : Z :=
  if decide (k = a) then b else if decide (k = b) then a else k.
Lemma swapId_invol a b k : swapId a b (swapId a b k) = k.
Proof. unfold swapId. repeat case_decide; congruence. Qed.
Lemma swapId_inj a b : Inj (=) (=) (swapId a b).
Proof. intros x y E. rewrite <- (swapId_invol a b x), E. apply swapId_invol. Qed.

Lemma gdep_of_inst s p gi i : ginsts (ssh s) !! p = Some gi → gdep gi = LInstance i →
  gdep_of s p = idep <$> insts (ls (ssh s)) !! i.
Proof. unfold gdep_of. intros -> E. simpl. by rewrite E. Qed.

Lemma dep_of_resolve l ld d : dep_of l ld = Some d → resolve ld l = Done (d, l).
Proof.
  destruct ld as [d'|i]; simpl; [by intros [= ->]|].
  unfold mbind, M_bind, getInst, expect. destruct (insts l !! i); [|done]. by intros [= ->].
Qed.

(** Active deployments are told apart by their keys. *)
Lemma active_dep_inj s k1 k2 p1 p2 d : SchedInv s →
  active s k1 p1 → active s k2 p2 → gdep_of s p1 = Some d → gdep_of s p2 = Some d →
  k1 = k2 ∧ p1 = p2.
Proof.
  intros HI H1 H2 E1 E2. destruct (sc_active s HI _ _ H1) as (d1&F1&G1&_).
  destruct (sc_active s HI _ _ H2) as (d2&F2&G2&_).
  assert (k1 = k2) as -> by congruence. split; [done|]. unfold active in *. congruence.
Qed.

(** The state after [Switch] and the two [Set]s. *)
Definition switched (id kq : Z) (p q : gptr) (dq dp : dptr) (vq vp : Deployment) s : Scheduler H :=
  s <| ssh := ssh s <| ls := switched_heap dq dp vq vp (ls (ssh s)) |> |>
    <| actives := hm_Set (hm_Set (actives s) id q) kq p |>.

Lemma SchedInv_switched s id kq p q dp dq vp vq :
  SchedInv s → active s id p → active s kq q → p ≠ q →
  gdep_of s p = Some dp → gdep_of s q = Some dq →
  deps (ls (ssh s)) !! dp = Some vp → deps (ls (ssh s)) !! dq = Some vq →
  did vp = id → did vq = kq →
  SchedInv (switched id kq p q dq dp vq vp s) ∧ conserves s (switched id kq p q dq dp vq vp s).
Proof.
  intros HI Hp Hq Hne Ep Eq Hvp Hvq Eid Ekq.
  assert (Hd : dq ≠ dp).
  { intros ->. by destruct (active_dep_inj s id kq p q dp HI Hp Hq Ep Eq). }
  assert (Hids : id ≠ kq) by (intros <-; unfold active in *; congruence).
  pose proof (switched_heap_deps dq dp vq vp (ls (ssh s)) Hd Hvq Hvp) as D.
  cbv zeta in D. destruct D as (D1&D2&D3).
  apply (SchedInv_rename (swapId id kq)); try done.
  - apply swapId_inj.
  - intros k. exists (swapId id kq k). by rewrite swapId_invol.
  - intros d Hown. change (id_of (switched id kq p q dq dp vq vp s) d) with
      (did <$> deps (switched_heap dq dp vq vp (ls (ssh s))) !! d).
    destruct (decide (d = dq)) as [->|N1]; [|destruct (decide (d = dp)) as [->|N2]].
    + rewrite D1. unfold id_of. rewrite Hvq. simpl. unfold swapId. rewrite Ekq.
      rewrite decide_False, decide_True by done. congruence.
    + rewrite D2. unfold id_of. rewrite Hvp. simpl. unfold swapId. rewrite Eid.
      rewrite decide_True by done. congruence.
    + assert (Hk : ∃ k, id_of s d = Some k).
      { destruct Hown as [Hd'|(k&r&Ha&Hr)]; [by apply (sc_poolid s HI)|].
        destruct (sc_active s HI k r Ha) as (d'&?&?&_). exists k. congruence. }
      destruct Hk as [k Hk].
      assert (Hneq : k ≠ id ∧ k ≠ kq).
      { split; intros ->; [apply N2|apply N1];
          (eapply (sc_ids s HI); [exact Hown|right; eauto|exact Hk|]).
        - unfold id_of. by rewrite Hvp, <- Eid.
        - unfold id_of. by rewrite Hvq, <- Ekq. }
      rewrite Hk. simpl. unfold swapId. rewrite !decide_False by naive_solver.
      rewrite D3; [exact Hk|done..|]. intros ->. unfold id_of in Hk.
      assert (E : deps (ls (ssh s)) !! fresh_dep (ls (ssh s)) = None)
        by (apply not_elem_of_dom; unfold fresh_dep; apply is_fresh).
      by rewrite E in Hk.
  - intros k r. unfold active, switched, swapId; simpl. case_decide as E1; [|case_decide as E2].
    + subst k. rewrite hm_get_set_eq. unfold active in *. split; congruence.
    + subst k. rewrite hm_get_set_ne, hm_get_set_eq by congruence. unfold active in *. split; congruence.
    + by rewrite !hm_get_set_ne by done.
Qed.

(** *** [Recycle] and [Instance] return *)

Definition keeps_deps (l l' : LHeap) : Prop :=
  deps l' = deps l ∧ ∀ i, idep <$> insts l' !! i = idep <$> insts l !! i.

Lemma alter_idep (m : gmap iptr _) f i j : (∀ x, idep (f x) = idep x) →
  idep <$> alter f j m !! i = idep <$> m !! i.
Proof.
  intros Hf. destruct (decide (i = j)) as [->|].
  - rewrite lookup_alter_eq. destruct (m !! j); simpl; [by rewrite Hf|done].
  - by rewrite lookup_alter_ne.
Qed.

Lemma Close_run l i x : IInv l → insts l !! i = Some x →
  ∃ l', Inst_Close i l = Done ((), l') ∧ keeps_deps l l'.
Proof.
  intros HI Hx. unfold Inst_Close. erewrite bind_done by (unfold getInst; by rewrite Hx).
  destruct (iclosed x); [by exists l|].
  erewrite bind_done by reflexivity.
  set (l1 := l <| insts ::= alter (λ x, x <| iclosed := true |>) i |>).
  assert (Hcl : ∃ l2, match icn x with Some c => Conn_Close c | None => mret () end l1 = Done ((), l2) ∧
    deps l2 = deps l ∧ insts l2 = insts l1).
  { destruct (icn x) as [c|] eqn:Ec; [|by exists l1].
    destruct (ii_cn l HI i x c Hx Ec) as (cn&Hcn&_).
    exists (l1 <| conns ::= alter (λ x, x <| cclosed := true |>) c |>). split; [|by split].
    unfold Conn_Close. by erewrite bind_done by (unfold getConn; simpl; by rewrite Hcn). }
  destruct Hcl as (l2&Hcl&Hd2&Hi2). erewrite bind_done by exact Hcl.
  assert (Hx2 : insts l2 !! i = Some (x <| iclosed := true |>))
    by (rewrite Hi2; unfold l1; simpl; by rewrite lookup_alter_eq, Hx).
  assert (K2 : keeps_deps l l2).
  { split; [done|]. intros j. rewrite Hi2. unfold l1; simpl. by apply alter_idep. }
  unfold flagValidatedLocked. unfold mbind at 1, M_bind at 1. unfold mbind at 1, M_bind at 1.
  unfold getInst at 1. rewrite Hx2. simpl. destruct (chanValidated x).
  - unfold mbind, M_bind, modInst, modify, getInst; simpl. rewrite lookup_alter_eq, Hx2. simpl.
    eexists. split; [reflexivity|]. destruct K2 as [K1 K2]. split; [done|]. intros j. simpl.
    rewrite alter_idep by done. apply K2.
  - unfold mbind, M_bind, mret, M_ret, getInst. rewrite Hx2. simpl. by exists l2.
Qed.

Lemma onL_run {A} (c : M LHeap A) s a l' :
  c (ls (ssh s)) = Done (a, l') → onL c s = Done (a, s <| ssh := ssh s <| ls := l' |> |>).
Proof. intros E. unfold onL, onS, onLs, zoom. by rewrite E. Qed.

Lemma putPool_run d s : (length (pool s) < poolCap s)%nat →
  putPool d s = Done ((), s <| pool ::= (λ l, l ++ [d]) |>).
Proof. intros E. unfold putPool. by rewrite decide_True. Qed.

Lemma Recycle_run s ld d v :
  IInv (ls (ssh s)) → dep_of (ls (ssh s)) ld = Some d → deps (ls (ssh s)) !! d = Some v →
  (length (pool s) < poolCap s)%nat →
  ∃ s', Recycle ld s = Done ((), s') ∧ poolCap s' = poolCap s ∧
    heap_same (s <| pool := pool s ++ [d] |> <| actives := hm_Del (actives s) (did v) |>) s'.
Proof.
  intros HI Hd Hv Hcap. pose proof (dep_of_resolve _ _ _ Hd) as Hres. unfold Recycle.
  erewrite bind_done by (apply onL_run; by eapply IdOf_run). rewrite ssh_ls_id.
  erewrite bind_done by reflexivity.
  destruct ld as [d'|i].
  - injection Hd as ->. rewrite putPool_run by done. eexists. split; [reflexivity|]. split; [done|]. by split.
  - simpl in Hd. apply fmap_Some in Hd as (x&Hx&->).
    destruct (Close_run _ i x HI Hx) as (l'&Hc&K1&K2).
    erewrite bind_done by (by apply onL_run).
    assert (Hx' : ∃ x', insts l' !! i = Some x' ∧ idep x' = idep x).
    { specialize (K2 i). rewrite Hx in K2. by apply fmap_Some in K2 as (x'&?&?); eauto. }
    destruct Hx' as (x'&Hx'&Eid).
    erewrite bind_done by (apply onL_run; apply (dep_of_resolve _ _ (idep x)); simpl; by rewrite Hx', <- Eid).
    rewrite putPool_run by done. eexists. split; [reflexivity|]. split; [done|]. by split.
Qed.

Lemma getGI_run p s gi : ginsts (ssh s) !! p = Some gi → onS (getGI p) s = Done (gi, s).
Proof. intros E. unfold onS, zoom, getGI. rewrite E. by destruct s. Qed.

Lemma GI_Id_run p s gi d v : ginsts (ssh s) !! p = Some gi →
  dep_of (ls (ssh s)) (gdep gi) = Some d → deps (ls (ssh s)) !! d = Some v →
  GI_Id p s = Done (did v, s).
Proof.
  intros Hgi Hd Hv. unfold GI_Id. erewrite bind_done by (by apply getGI_run).
  rewrite (onL_run _ _ (did v) (ls (ssh s))); [by rewrite ssh_ls_id|].
  eapply IdOf_run; [by apply dep_of_resolve|done].
Qed.

Lemma gdep_of_inv s p d : gdep_of s p = Some d →
  ∃ gi, ginsts (ssh s) !! p = Some gi ∧ dep_of (ls (ssh s)) (gdep gi) = Some d.
Proof. unfold gdep_of. intros (gi&?&?)%bind_Some. eauto. Qed.

Lemma id_of_inv s d k : id_of s d = Some k → ∃ v, deps (ls (ssh s)) !! d = Some v ∧ did v = k.
Proof. unfold id_of. intros (v&?&?)%fmap_Some. eauto. Qed.

(** [Validate] when the slot holds another instance. *)
Lemma Validate_other s p q gi gq gr i dp dq vp vq :
  ginsts (ssh s) !! p = Some gi → groups (ssh s) !! ggroup gi = Some gr →
  zlookup (All gr) (gidx gi) = Some (Some q) → q ≠ p →
  ginsts (ssh s) !! q = Some gq → gdep gq = LInstance i →
  dep_of (ls (ssh s)) (gdep gi) = Some dp → idep <$> insts (ls (ssh s)) !! i = Some dq → dq ≠ dp →
  deps (ls (ssh s)) !! dp = Some vp → deps (ls (ssh s)) !! dq = Some vq →
  onS (Validate (ggroup gi) p) s =
    Done (Some q, s <| ssh := ssh s <| ls := switched_heap dq dp vq vp (ls (ssh s)) |> |>).
Proof.
  intros Hp Hg Hz Hne Hq Ei Edp Edq Hd Hvp Hvq. unfold onS, zoom.
  apply fmap_Some in Edq as (ins&Hins&->).
  assert (E : Validate (ggroup gi) p (ssh s) =
    Done (Some q, ssh s <| ls := switched_heap (idep ins) dp vq vp (ls (ssh s)) |>)).
  { unfold Validate. erewrite bind_done by (unfold getGI; by rewrite Hp).
    erewrite bind_done by (unfold getGroup; by rewrite Hg).
    erewrite bind_done by (by rewrite Hz). cbv beta iota. rewrite decide_True by done.
    unfold mbind at 1, M_bind at 1. erewrite bind_done by (unfold getGI; by rewrite Hq).
    rewrite Ei. erewrite bind_done by reflexivity.
    erewrite bind_done by (unfold onLs, zoom;
      rewrite (Switch_run i (gdep gi) (ls (ssh s)) ins dp vq vp);
      [reflexivity|done|by apply dep_of_resolve|done..]).
    reflexivity. }
  by rewrite E.
Qed.

(** What [Instance] returns for a key whose slot another instance holds. *)
Lemma Instance_switch_run s id p gi gr q :
  SchedInv s → IInv (ls (ssh s)) → active s id p →
  ginsts (ssh s) !! p = Some gi → groups (ssh s) !! ggroup gi = Some gr →
  zlookup (All gr) (gidx gi) = Some (Some q) → q ≠ p → (length (pool s) < poolCap s)%nat →
  ∃ i kq dp dq vp vq gq s',
    ginsts (ssh s) !! q = Some gq ∧ gdep gq = LInstance i ∧ active s kq q ∧
    gdep_of s p = Some dp ∧ gdep_of s q = Some dq ∧
    deps (ls (ssh s)) !! dp = Some vp ∧ deps (ls (ssh s)) !! dq = Some vq ∧
    did vp = id ∧ did vq = kq ∧
    Sched_Instance id s = Done (Some i, s') ∧ poolCap s' = poolCap s ∧
    heap_same (switched id kq p q dq dp vq vp s
      <| pool := pool s ++ [dp] |> <| actives ::= λ a, hm_Del a kq |>) s'.
Proof.
  intros HI HII Hact Hp Hg Hz Hne Hcap.
  destruct (sc_slot s HI _ _ _ _ Hg Hz) as [[kq Hkq] (gq&i&Hq&Ei&_)].
  destruct (sc_active s HI _ _ Hact) as (dp&Edp&Idp&_).
  destruct (sc_active s HI _ _ Hkq) as (dq&Edq&Idq&_).
  destruct (id_of_inv _ _ _ Idp) as (vp&Hvp&Evp). destruct (id_of_inv _ _ _ Idq) as (vq&Hvq&Evq).
  assert (Hd : dq ≠ dp).
  { intros ->. by destruct (active_dep_inj s id kq p q dp HI Hact Hkq Edp Edq). }
  pose proof (switched_heap_deps dq dp vq vp (ls (ssh s)) Hd Hvq Hvp) as D.
  cbv zeta in D. destruct D as (D1&D2&_).
  pose proof Edp as Edp'. apply gdep_of_inv in Edp' as (gi'&Hp'&Edep).
  rewrite Hp in Hp'. injection Hp' as <-.
  pose proof Edq as Edq'. rewrite (gdep_of_inst s q gq i Hq Ei) in Edq'.
  set (s2 := switched id kq p q dq dp vq vp s).
  destruct (Recycle_run s2 (gdep gi) dp (MkDeployment (dname vq) (did vq) (dreplica vp)))
    as (s'&Hr&Hc&Hs); [by apply (IInv_same (ls (ssh s)))|done|exact D2|done|].
  exists i, kq, dp, dq, vp, vq, gq, s'. do 9 (split; [done|]). split; [|split; [exact Hc|]].
  2: { cbn [did] in Hs. rewrite Evq in Hs. exact Hs. }
  unfold Sched_Instance. unfold active in Hact.
  erewrite bind_done by (unfold active_Get, gets; by rewrite Hact). cbv beta iota.
  erewrite bind_done by (by apply getGI_run).
  erewrite bind_done by (by eapply (Validate_other s p q gi gq gr i dp dq vp vq)).
  rewrite decide_True by congruence.
  erewrite bind_done.
  2: { erewrite bind_done by reflexivity.
       erewrite bind_done by (eapply (GI_Id_run q _ gq dq); [exact Hq|rewrite Ei; exact Edq'|exact D1]).
       erewrite bind_done by reflexivity.
       erewrite bind_done by (eapply (GI_Id_run p _ gi dp); [exact Hp|exact Edep|exact D2]).
       erewrite bind_done by reflexivity.
       erewrite bind_done by (by apply getGI_run).
       simpl. rewrite Evp, Evq. exact Hr. }
  erewrite bind_done by reflexivity.
  erewrite bind_done by (apply getGI_run; rewrite (hs_ginsts _ _ Hs); exact Hq).
  rewrite Ei. unfold mbind, M_bind, onS, zoom, asInstance. by destruct s'.
Qed.

(** *** Handing out a deployment *)

Lemma SchedInv_take s s' d k p gi :
  SchedInv s → pool s = d :: pool s' → id_of s d = Some k →
  ginsts (ssh s) !! p = None → ginsts (ssh s') = <[p := gi]> (ginsts (ssh s)) →
  dep_of (ls (ssh s')) (gdep gi) = Some d → deps (ls (ssh s')) = deps (ls (ssh s)) →
  (∀ i x, insts (ls (ssh s)) !! i = Some x → insts (ls (ssh s')) !! i = Some x) →
  actives s' = hm_Set (actives s) k p →
  (∀ g gr z q, groups (ssh s') !! g = Some gr → zlookup (All gr) z = Some (Some q) →
    (q = p ∧ ggroup gi = g ∧ gidx gi = z ∧ ∃ i, gdep gi = LInstance i) ∨
    (∃ gr0, groups (ssh s) !! g = Some gr0 ∧ zlookup (All gr0) z = Some (Some q))) →
  SchedInv s' ∧ conserves s s'.
Proof.
  intros [i1 i2 i3 i4 i5] Epool Hid Hp Eg Hgi Ed Hmono Ea Hslots.
  assert (Ei : ∀ x, id_of s' x = id_of s x) by (intros x; unfold id_of; by rewrite Ed).
  assert (Egp : gdep_of s' p = Some d)
    by (unfold gdep_of; rewrite Eg, lookup_insert_eq; exact Hgi).
  assert (Emono : ∀ q x, gdep_of s q = Some x → q ≠ p ∧ gdep_of s' q = Some x).
  { intros q x (gq&Hq&Hx)%gdep_of_inv. assert (q ≠ p) by congruence. split; [done|].
    unfold gdep_of. rewrite Eg, lookup_insert_ne, Hq by done. simpl.
    destruct (gdep gq) as [|j]; simpl in *; [done|].
    apply fmap_Some in Hx as (y&Hy&->). by rewrite (Hmono _ _ Hy). }
  rewrite Epool in i1. apply list.NoDup_cons in i1 as [Hnin i1].
  assert (Hdown : d ∈ pool s) by (rewrite Epool; by left).
  assert (Hfree : ∀ q, ¬ active s k q).
  { intros q Ha. destruct (i3 k q Ha) as (d'&Hd'&Hk'&Hn). apply Hn.
    by rewrite (i4 d' d k); [| right; eauto | left | | ]. }
  assert (Hk : ∀ k' q, active s' k' q ↔ (k' = k ∧ q = p) ∨ active s k' q).
  { intros k' q. unfold active. rewrite Ea. destruct (decide (k = k')) as [<-|].
    - rewrite hm_get_set_eq. specialize (Hfree q). unfold active in Hfree. naive_solver.
    - rewrite hm_get_set_ne by done. naive_solver. }
  assert (Hown : conserves s s').
  { intros x. unfold owned. rewrite Epool, elem_of_cons. split.
    - intros [?|(k'&q&[[-> ->]|Ha]%Hk&Hq)]; [by left; right|left; left; congruence|].
      right. exists k', q. destruct (i3 k' q Ha) as (x'&Hx'&_).
      destruct (Emono q x' Hx') as [_ E]. rewrite Hx'. split; [done|congruence].
    - intros [[->|?]|(k'&q&Ha&Hq)]; [|by left|].
      + right. exists k, p. split; [apply Hk; by left|done].
      + right. exists k', q. split; [apply Hk; by right|]. by apply Emono. }
  split; [|done]. split.
  - done.
  - intros x Hx. rewrite Ei. apply i2. rewrite Epool. by right.
  - intros k' q [[-> ->]|Ha]%Hk; [exists d; by rewrite Ei|].
    destruct (i3 k' q Ha) as (x&Hx&Hxk&Hn). exists x. rewrite Ei. split_and!; [by apply Emono|done|].
    rewrite Epool in Hn. intros ?. apply Hn. by right.
  - intros d1 d2 k' H1%Hown H2%Hown. rewrite !Ei. by apply i4.
  - intros g gr z q Hg Hz. rewrite Eg.
    destruct (Hslots g gr z q Hg Hz) as [(->&?&?&i&?)|(gr0&Hg0&Hz0)].
    + split; [exists k; apply Hk; by left|]. exists gi, i. by rewrite lookup_insert_eq.
    + destruct (i5 g gr0 z q Hg0 Hz0) as [[k' Ha] (gq&i&Hq&Hrest)].
      split; [exists k'; apply Hk; by right|]. exists gq, i.
      rewrite lookup_insert_ne by congruence. done.
Qed.

Lemma takePool_inv s d s' : takePool s = Done (d, s') →
  pool s = d :: pool s' ∧ s' = s <| pool := pool s' |>.
Proof. unfold takePool. destruct (pool s) as [|x l]; [done|]. by intros [= <- <-]. Qed.

Lemma ReserveForGroup_inv g idx s r s' :
  SchedInv s → ReserveForGroup g idx s = Done (r, s') → SchedInv s' ∧ conserves s s'.
Proof.
  intros HI Hr. unfold ReserveForGroup in Hr. erewrite bind_done in Hr by reflexivity.
  destruct (pool s) as [|d0 l] eqn:Ep; [injection Hr as _ <-; by split|].
  unfold mbind at 1, M_bind at 1 in Hr. unfold takePool in Hr. rewrite Ep in Hr. simpl in Hr.
  mstep Hr. apply onS_inv in E as (h'&E&->). injection E as <- <-.
  set (p := fresh _) in *. mstep Hr.
  apply GI_Id_inv in E as (->&d&Hd&Hid). mstep Hr. injection E as _ <-. mstep Hr.
  apply getGI_onS_inv in E as [Hgi ->]. injection Hr as _ <-.
  assert (d = d0) as ->.
  { unfold gdep_of in Hd. simpl in Hd. rewrite lookup_insert_eq in Hd. by injection Hd. }
  eapply (SchedInv_take s _ d0 _ p (MkGroupInstance (LDeployment d0) g idx) HI); simpl;
    [done|exact Hid| |done..|].
  - apply not_elem_of_dom. unfold p. simpl. apply is_fresh.
  - intros g' gr z q Hg Hz. right. eauto.
Qed.

(** [Group.Set] of an instance fills its slot. *)
Lemma SetGI_inv g p gi i h u h' : ginsts h !! p = Some gi → gdep gi = LInstance i →
  SetGI g p h = Done (u, h') → ls h' = ls h ∧ ginsts h' = ginsts h ∧
    groups h' = alter (λ x, x <| All ::= zinsert (gidx gi) (Some p) |>) g (groups h).
Proof.
  intros Hp Ei Hr. unfold SetGI in Hr. mstep Hr. unfold getGI in E. apply expect_inv in E as [E ->].
  rewrite Hp in E. injection E as <-. rewrite Ei in Hr. mstep Hr. injection E as _ <-.
  mstep Hr. unfold getGroup in E. apply expect_inv in E as [E ->].
  case_decide; [|done]. by injection Hr as _ <-.
Qed.

Lemma GetForGroup_inv g idx s r s' :
  SchedInv s → GetForGroup g idx s = Done (r, s') → SchedInv s' ∧ conserves s s'.
Proof.
  intros HI Hr. unfold GetForGroup in Hr. mstep Hr. apply takePool_inv in E as [Ep Es].
  rewrite Es in Hr. clear Es. rename a into d0. mstep Hr. apply onL_inv in E as (l'&E&->).
  injection E as <- <-. set (i := fresh_inst _) in *. mstep Hr.
  apply onS_inv in E as (h'&E&->). injection E as <- <-. set (p := fresh _) in *. mstep Hr.
  apply GI_Id_inv in E as (->&d&Hd&Hid). mstep Hr. injection E as _ <-. mstep Hr.
  apply onS_inv in E as (h'&E&->).
  eapply (SetGI_inv g p (MkGroupInstance (LInstance i) g idx) i) in E as (E1&E2&E3);
    [|simpl; apply lookup_insert_eq|done].
  mstep Hr. apply getGI_onS_inv in E as [Hgi ->]. apply onS_inv in Hr as (h2&Hr&->).
  assert (h2 = h') as ->.
  { unfold asInstance in Hr. simpl in *. rewrite E2 in Hgi. simpl in Hgi.
    rewrite lookup_insert_eq in Hgi. injection Hgi as <-. by injection Hr. }
  assert (d = d0) as ->.
  { unfold gdep_of in Hd. simpl in Hd. rewrite lookup_insert_eq in Hd. simpl in Hd.
    rewrite lookup_insert_eq in Hd. by injection Hd. }
  simpl in *.
  eapply (SchedInv_take s _ d0 _ p (MkGroupInstance (LInstance i) g idx) HI); simpl;
    [done|exact Hid| |done|..].
  - apply not_elem_of_dom. unfold p. simpl. apply is_fresh.
  - rewrite E1. simpl. by rewrite lookup_insert_eq.
  - by rewrite E1.
  - intros j x Hj. rewrite E1. simpl. rewrite lookup_insert_ne; [done|]. intros <-.
    assert (insts (ls (ssh s)) !! i = None) by (apply not_elem_of_dom; unfold i, fresh_inst; apply is_fresh).
    congruence.
  - done.
  - intros g' gr z q Hg Hz. rewrite E3 in Hg. destruct (decide (g' = g)) as [->|Hne].
    + rewrite lookup_alter_eq in Hg. apply fmap_Some in Hg as (gr0&Hg0&->). simpl in Hz.
      destruct (decide (idx = z)) as [<-|Hz']; [|right; exists gr0; by rewrite zlookup_zinsert_ne in Hz].
      left. rewrite zlookup_zinsert_eq in Hz; [injection Hz as <-; eauto 6|].
      apply zlookup_lt in Hz. by rewrite length_zinsert in Hz.
    + rewrite lookup_alter_ne in Hg by done. right. eauto.
Qed.

(** *** Runs of the scheduler *)

(** The deployments [D] are those the scheduler started with. *)
Record SchedSys (D : list dptr) s : Prop := {
  sy_inv : SchedInv s;
  sy_insts : IInv (ls (ssh s));
  sy_owned d : owned s d ↔ d ∈ D;
  sy_cap : (length D < poolCap s)%nat
}.

Lemma sys_room D s : SchedSys D s → (length (pool s) < poolCap s)%nat.
Proof.
  intros [HI _ Ho Hc]. eapply Nat.le_lt_trans; [|exact Hc].
  apply submseteq_length, NoDup_submseteq; [apply (sc_pool s HI)|].
  intros d Hd. apply Ho. by left.
Qed.

Lemma SchedSys_step D s s' : SchedSys D s → SchedInv s' ∧ conserves s s' → IInv (ls (ssh s')) →
  poolCap s' = poolCap s → SchedSys D s'.
Proof. intros [HI HII Ho Hc] [HI' Hcons] HII' E. split; [done..| |by rewrite E]. intros d. rewrite <- Ho. apply Hcons. Qed.

Lemma Instance_switch_sys s id kq p q dp dq vp vq s' gr gi :
  SchedInv s → active s id p → active s kq q → q ≠ p →
  gdep_of s p = Some dp → gdep_of s q = Some dq →
  deps (ls (ssh s)) !! dp = Some vp → deps (ls (ssh s)) !! dq = Some vq →
  did vp = id → did vq = kq →
  ginsts (ssh s) !! p = Some gi → groups (ssh s) !! ggroup gi = Some gr →
  zlookup (All gr) (gidx gi) = Some (Some q) →
  heap_same (switched id kq p q dq dp vq vp s
      <| pool := pool s ++ [dp] |> <| actives ::= λ a, hm_Del a kq |>) s' →
  SchedInv s' ∧ conserves s s'.
Proof.
  intros HI Hp Hq Hne Ep Eq Hvp Hvq E1 E2 Hgi Hg Hz Hs.
  destruct (SchedInv_switched s id kq p q dp dq vp vq) as [HI1 C1]; [done..|].
  assert (Hd : dq ≠ dp).
  { intros ->. by destruct (active_dep_inj s id kq p q dp HI Hp Hq Ep Eq). }
  set (s1 := switched id kq p q dq dp vq vp s) in *.
  destruct (SchedInv_return s1 s' kq p dp) as [HI2 C2]; try done.
  - unfold active, s1, switched; simpl. apply hm_get_set_eq.
  - unfold id_of, s1, switched; simpl. by rewrite lookup_insert_eq, <- E2.
  - intros g gr' z Hg' Hz'. destruct (sc_slot s HI g gr' z p Hg' Hz') as [_ (gp&j&Hgp&_&<-&<-)].
    assert (gp = gi) as -> by congruence. change (groups (ssh s1)) with (groups (ssh s)) in Hg'. congruence.
  - split; [done|]. intros d. etrans; [apply C2|apply C1].
Qed.

(** What [Instance] does: nothing for an unknown id or when the group already
    has this instance, the switch otherwise; it panics on an empty slot. *)
Lemma Instance_cases D s id r s' : SchedSys D s → Sched_Instance id s = Done (r, s') →
  s' = s ∨ ∃ p gi gr q, active s id p ∧ ginsts (ssh s) !! p = Some gi ∧
    groups (ssh s) !! ggroup gi = Some gr ∧ zlookup (All gr) (gidx gi) = Some (Some q) ∧ q ≠ p.
Proof.
  intros Hsys Hr. unfold Sched_Instance in Hr. mstep Hr. injection E as Ea <-.
  destruct a as [p|]; [|left; by injection Hr]. mstep Hr. apply getGI_onS_inv in E as [Hgi ->].
  mstep Hr. apply onS_inv in E as (h'&E&->). unfold Validate in E. mstep E.
  unfold getGI in E0. apply expect_inv in E0 as [E0 ->]. rewrite Hgi in E0. injection E0 as <-.
  mstep E. unfold getGroup in E0. apply expect_inv in E0 as [Hg ->]. mstep E.
  apply expect_inv in E0 as [Hz ->]. destruct a2 as [q|]; mstep E; injection E as <- <-.
  - destruct (decide (q = p)) as [->|Hne]; [|right; eauto 10].
    rewrite decide_False in E0 by naive_solver. injection E0 as _ <-.
    rewrite decide_False in Hr by naive_solver. left. mstep Hr. injection E as _ <-. mstep Hr.
    apply expect_inv in E as [_ ->]. mstep Hr. apply getGI_onS_inv in E as [_ ->]. mstep Hr.
    apply onS_inv in E as (h2&E&->). injection Hr as _ <-. unfold asInstance in E.
    destruct (gdep a4); [done|]. injection E as _ <-. by destruct s.
  - rewrite decide_True in Hr by done. mstep Hr. mstep E. by apply expect_inv in E1 as [? _].
Qed.

Lemma Instance_sys D s id r s' : SchedSys D s → Sched_Instance id s = Done (r, s') → SchedSys D s'.
Proof.
  intros Hsys Hr. pose proof Hsys as [HI HII Ho Hc].
  destruct (Instance_cases D s id r s' Hsys Hr) as [->|(p&gi&gr&q&Hp&Hgi&Hg&Hz&Hne)]; [done|].
  destruct (Instance_switch_run s id p gi gr q) as (i&kq&dp&dq&vp&vq&gq&s1&Hx); [done..|by eapply sys_room|].
  destruct Hx as (Hq&Ei&Hkq&Ep&Eq&Hvp&Hvq&E1&E2&Hrun&Ecap&Hs).
  rewrite Hrun in Hr. injection Hr as <- <-.
  eapply SchedSys_step; [done| | |done].
  - by eapply (Instance_switch_sys s id kq p q dp dq vp vq s1 gr gi).
  - eapply (JJ_Instance IInv); [| | |exact HII|exact Hrun].
    + intros h f Hh. by eapply IInv_same.
    + apply IInv_NewInstance.
    + apply IInv_Inst_Close.
Qed.

(** Calls of the scheduler, in any order, with the connections and instances
    running in between.  A call is one step: the scheduler takes no lock, and
    calls that overlap are not covered.  [Clear] and [ClearAll], which the
    proxy runs when it ends, are not steps. *)
Inductive sched_step s : Scheduler H → Prop :=
  | step_get g idx i s' : GetForGroup g idx s = Done (i, s') → sched_step s s'
  | step_reserve g idx r s' : ReserveForGroup g idx s = Done (r, s') → sched_step s s'
  | step_instance id r s' : Sched_Instance id s = Done (r, s') → sched_step s s'
  | step_newgroup n g s' : onS (NewGroup n) s = Done (g, s') → sched_step s s'
  | step_lambdastore l' : keeps_deps (ls (ssh s)) l' → IInv l' →
      sched_step s (s <| ssh := ssh s <| ls := l' |> |>).

Lemma cap_onS {A} (c : M SHeap A) n : preserves (λ s, poolCap s = n) (onS c).
Proof. intros s a s' E (h'&_&->)%onS_inv. done. Qed.
Lemma cap_takePool n : preserves (λ s, poolCap s = n) takePool.
Proof. intros s a s' Hs [_ ->]%takePool_inv. done. Qed.
Lemma cap_Set n k p : preserves (λ s, poolCap s = n) (active_Set k p).
Proof. by apply preserves_modify. Qed.
#[local] Hint Resolve cap_onS cap_takePool cap_Set : go.
Lemma cap_GetForGroup n g idx : preserves (λ s, poolCap s = n) (GetForGroup g idx).
Proof. unfold GetForGroup, GI_Id, onL. preserve. Qed.
Lemma cap_ReserveForGroup n g idx : preserves (λ s, poolCap s = n) (ReserveForGroup g idx).
Proof. unfold ReserveForGroup, GI_Id, onL. preserve. Qed.

(** A heap where groups were only added, with empty slots. *)
Lemma SchedInv_newgroup n s g s' : SchedInv s → onS (NewGroup n) s = Done (g, s') →
  SchedInv s' ∧ conserves s s'.
Proof.
  intros [i1 i2 i3 i4 i5] (h'&E&->)%onS_inv. unfold NewGroup in E. case_decide; [done|].
  injection E as <- <-. split; [|done]. split; [done..|].
  intros g' gr z q Hg Hz. simpl in Hg. apply lookup_insert_Some in Hg as [[<- <-]|[_ Hg]].
  - simpl in Hz. apply zlookup_Some in Hz as [_ Hz]. by apply lookup_replicate in Hz as [? _].
  - by apply (i5 g' gr).
Qed.

Lemma SchedInv_lambdastore s l' : SchedInv s → keeps_deps (ls (ssh s)) l' →
  let s' := s <| ssh := ssh s <| ls := l' |> |> in SchedInv s' ∧ conserves s s'.
Proof.
  intros HI [K1 K2] s'.
  apply (SchedInv_rename (λ k, k) s s'); try done; [by intros ??|by intros k; exists k| |].
  - intros p. unfold gdep_of, s'; simpl. destruct (ginsts (ssh s) !! p) as [gi|]; [|done]. simpl.
    destruct (gdep gi); [done|]. apply K2.
  - intros d _. unfold id_of, s'; simpl. rewrite K1. by destruct (deps (ls (ssh s)) !! d).
Qed.

Lemma sched_step_sys D s s' : SchedSys D s → sched_step s s' → SchedSys D s'.
Proof.
  intros Hsys Hst. pose proof Hsys as [HI HII Ho Hc].
  destruct Hst as [g idx i s' Hr|g idx r s' Hr|id r s' Hr|n g s' Hr|l' HK HI'].
  - eapply SchedSys_step; [done|by eapply GetForGroup_inv| |by eapply cap_GetForGroup].
    eapply (JJ_GetForGroup IInv); [apply IInv_NewInstance|exact HII|exact Hr].
  - eapply SchedSys_step; [done|by eapply ReserveForGroup_inv| |by eapply cap_ReserveForGroup].
    eapply (JJ_ReserveForGroup IInv); [exact HII|exact Hr].
  - by eapply Instance_sys.
  - eapply SchedSys_step; [done|by eapply SchedInv_newgroup| |by eapply cap_onS].
    apply onS_inv in Hr as (h'&E&->). unfold NewGroup in E. case_decide; [done|].
    by injection E as <- <-.
  - eapply SchedSys_step; [done|by apply SchedInv_lambdastore|done..].
Qed.

(** *** The start *)

(** The pool holds the deployments of ids below [i]. *)
Record Filling (i : Z) s : Prop := {
  fl_pool : NoDup (pool s);
  fl_id d : d ∈ pool s → ∃ k, id_of s d = Some k ∧ k < i;
  fl_inj d1 d2 k : d1 ∈ pool s → d2 ∈ pool s → id_of s d1 = Some k → id_of s d2 = Some k → d1 = d2
}.

Lemma Filling_put i s s' d v : Filling i s → deps (ls (ssh s)) !! d = None → did v = i →
  pool s' = pool s ++ [d] → deps (ls (ssh s')) = <[d := v]> (deps (ls (ssh s))) → Filling (i + 1) s'.
Proof.
  intros [f1 f2 f3] Hd Ev Ep Ed.
  assert (Hn : d ∉ pool s).
  { intros Hin. destruct (f2 d Hin) as (k&Hk&_). unfold id_of in Hk. by rewrite Hd in Hk. }
  assert (Hid : id_of s' d = Some i) by (unfold id_of; rewrite Ed, lookup_insert_eq; simpl; by rewrite Ev).
  assert (Hne : ∀ x, x ∈ pool s → id_of s' x = id_of s x).
  { intros x Hx. unfold id_of. rewrite Ed, lookup_insert_ne by (by intros <-). done. }
  split; rewrite Ep.
  - apply list.NoDup_app. split_and!; [done| |apply list.NoDup_singleton].
    by intros x Hx ->%list_elem_of_singleton.
  - intros x. rewrite elem_of_app, list_elem_of_singleton. intros [Hx| ->].
    + destruct (f2 x Hx) as (k&Hk&Hlt). exists k. rewrite Hne by done. split; [done|lia].
    + exists i. split; [done|lia].
  - intros d1 d2 k. rewrite !elem_of_app, !list_elem_of_singleton.
    intros [H1| ->] [H2| ->]; rewrite ?Hne, ?Hid by done; intros E1 E2; [by eapply f3| | |done].
    + destruct (f2 d1 H1) as (k1&?&?). assert (k1 = i) by congruence. lia.
    + rewrite Hne in E2 by done. destruct (f2 d2 H2) as (k1&?&?). assert (k1 = i) by congruence. lia.
Qed.

Lemma fillPool_run n : ∀ i s, Filling i s → (length (pool s) + n ≤ poolCap s)%nat →
  ∃ s', fillPool i n s = Done ((), s') ∧ Filling (i + Z.of_nat n) s' ∧
    length (pool s') = (length (pool s) + n)%nat ∧ poolCap s' = poolCap s ∧
    actives s' = actives s ∧ groups (ssh s') = groups (ssh s) ∧
    insts (ls (ssh s')) = insts (ls (ssh s)) ∧ conns (ls (ssh s')) = conns (ls (ssh s)).
Proof.
  induction n as [|n IH]; intros i s Hf Hc; simpl fillPool.
  { exists s. rewrite Z.add_0_r, Nat.add_0_r. by split_and!. }
  erewrite bind_done by (apply onL_run; reflexivity).
  erewrite bind_done by (apply putPool_run; simpl; lia).
  set (s1 := _ <| pool ::= _ |>).
  destruct (IH (i + 1) s1) as (s'&Hr&Hf'&El&H'); [| |].
  - eapply (Filling_put i s _ (fresh_dep (ls (ssh s))) (NewDeployment LambdaPrefix i false)); [done| |reflexivity|done..].
    apply not_elem_of_dom. unfold fresh_dep. apply is_fresh.
  - unfold s1; simpl. rewrite length_app. simpl. lia.
  - exists s'. split; [exact Hr|]. replace (i + Z.of_nat (S n)) with (i + 1 + Z.of_nat n) by lia.
    split; [done|]. split; [|exact H']. rewrite El. unfold s1; simpl. rewrite length_app. simpl. lia.
Qed.

Lemma NewScheduler_run a n h : (∀ k, hm_Get a k = None) → groups h = ∅ → IInv (ls h) →
  ∃ s, NewScheduler a n h = Done ((), s) ∧ length (pool s) = n ∧ SchedSys (pool s) s.
Proof.
  intros Ha Hg HI. unfold NewScheduler.
  destruct (fillPool_run n 0 (MkScheduler h [] (n + 1) a)) as (s&Hr&Hf&El&Ec&Ea&Eg&Ei&Ecn);
    [|simpl; lia|].
  { split; simpl; [apply base.NoDup_nil_2|..]; by intros; set_solver. }
  simpl in *. exists s. split; [exact Hr|]. split; [done|]. destruct Hf as [f1 f2 f3].
  assert (Hact : ∀ k p, ¬ active s k p) by (intros k p; unfold active; by rewrite Ea, Ha).
  assert (Hown : ∀ d, owned s d ↔ d ∈ pool s).
  { intros d. unfold owned. split; [|by left]. intros [?|(k&p&Hk&_)]; [done|by destruct (Hact k p)]. }
  split; [|by eapply IInv_same|done|lia]. split; [done|..].
  - intros d Hd. destruct (f2 d Hd) as (k&->&_). eauto.
  - intros k p Hk. by destruct (Hact k p).
  - intros d1 d2 k H1%Hown H2%Hown. by apply f3.
  - intros g gr z q. by rewrite Eg, Hg, lookup_empty.
Qed.

Lemma reachable_sys D s s' : SchedSys D s → rtc sched_step s s' → SchedSys D s'.
Proof. intros Hs Hst. induction Hst as [|s s1 s2 H1 _ IH]; [done|]. apply IH. by eapply sched_step_sys. Qed.

(** C6: The scheduler neither loses nor duplicates deployments.  Starting with
    the [n] deployments of [NewScheduler], and whatever calls of [GetForGroup],
    [ReserveForGroup] and [Instance] follow, with migrations switching
    deployments and connections running in between, the deployments held are
    exactly the initial ones: each is in the pool, once, or serves one active
    group instance, registered under the deployment's current id; no two held
    deployments have the same id, and the pool's channel never blocks. *)
Theorem deployments_conserved a n h s0 s :
  (∀ k, hm_Get a k = None) → groups h = ∅ → IInv (ls h) →
  NewScheduler a n h = Done ((), s0) → rtc sched_step s0 s →
  length (pool s0) = n ∧ NoDup (pool s) ∧ (length (pool s) < poolCap s)%nat ∧
  (∀ d, d ∈ pool s0 ↔ d ∈ pool s ∨ ∃ k p, active s k p ∧ gdep_of s p = Some d) ∧
  (∀ k p, active s k p → ∃ d, gdep_of s p = Some d ∧ id_of s d = Some k ∧ d ∉ pool s) ∧
  (∀ d1 d2, d1 ∈ pool s0 → d2 ∈ pool s0 → id_of s d1 = id_of s d2 → d1 = d2).
Proof.
  intros Ha Hg HI Hnew Hst. destruct (NewScheduler_run a n h Ha Hg HI) as (s1&Hr&El&Hs0).
  rewrite Hnew in Hr. injection Hr as <-.
  pose proof (reachable_sys _ _ _ Hs0 Hst) as Hs. pose proof (sys_room _ _ Hs) as Hroom.
  destruct Hs as [[i1 i2 i3 i4 i5] _ Ho _]. split_and!; try done.
  - intros d. symmetry. apply Ho.
  - intros d1 d2 H1%Ho H2%Ho E.
    assert (Hk : ∃ k, id_of s d1 = Some k).
    { destruct H1 as [H1|(k&p&Hk&Hd)]; [by apply i2|]. destruct (i3 k p Hk) as (d&?&?&_).
      exists k. congruence. }
    destruct Hk as [k Hk]. apply (i4 d1 d2 k H1 H2 Hk). congruence.
Qed.

(** C34: Asking the scheduler for an id whose deployment migrated: when the
    group's slot is held by another instance [q], [Instance] returns the
    instance of [q], now registered under the id asked for; the deployment that
    was only reserved goes back to the pool under [q]'s old id, which is no
    longer registered.  The call neither blocks nor panics. *)
Theorem Instance_switches D s id p gi gr q :
  SchedSys D s → active s id p →
  ginsts (ssh s) !! p = Some gi → groups (ssh s) !! ggroup gi = Some gr →
  zlookup (All gr) (gidx gi) = Some (Some q) → q ≠ p →
  ∃ i gq kq dp dq s', Sched_Instance id s = Done (Some i, s') ∧ SchedSys D s' ∧
    ginsts (ssh s) !! q = Some gq ∧ gdep gq = LInstance i ∧ active s kq q ∧
    gdep_of s p = Some dp ∧ gdep_of s q = Some dq ∧
    active s' id q ∧ gdep_of s' q = Some dq ∧ id_of s' dq = Some id ∧
    pool s' = pool s ++ [dp] ∧ id_of s' dp = Some kq ∧ (∀ r, ¬ active s' kq r).
Proof.
  intros Hsys Hp Hgi Hg Hz Hne. pose proof Hsys as [HI HII Ho Hc].
  destruct (Instance_switch_run s id p gi gr q) as (i&kq&dp&dq&vp&vq&gq&s1&Hx); [done..|by eapply sys_room|].
  destruct Hx as (Hq&Ei&Hkq&Ep&Eq&Hvp&Hvq&E1&E2&Hrun&Ecap&Hs).
  exists i, gq, kq, dp, dq, s1. split; [done|]. split; [by eapply Instance_sys|].
  do 5 (split; [done|]).
  assert (Hids : id ≠ kq) by (intros <-; unfold active in *; congruence).
  assert (Hd : dq ≠ dp).
  { intros ->. by destruct (active_dep_inj s id kq p q dp HI Hp Hkq Ep Eq). }
  pose proof (heap_same_gdep _ _ q Hs) as Eg. destruct Hs as [h1 h2 h3 h4 h5 h6]. simpl in *.
  split_and!.
  - unfold active. rewrite h2. simpl. by rewrite hm_get_del_ne, hm_get_set_ne, hm_get_set_eq by done.
  - by rewrite Eg.
  - unfold id_of. rewrite h5. unfold switched_heap, withDep; simpl.
    by rewrite lookup_insert_ne, lookup_insert_eq by done; simpl; rewrite E1.
  - done.
  - unfold id_of. rewrite h5. unfold switched_heap, withDep; simpl.
    rewrite lookup_insert_eq; simpl. by rewrite E2.
  - intros r. unfold active. rewrite h2. simpl. by rewrite hm_get_del_eq.
Qed.
End conservation.

(** ** Witnesses: five deployments, one in use and one reserved for its slot *)

Section witness.
Definition emptyHeap : SHeap := MkSHeap (MkLHeap ∅ ∅ ∅ ∅ ∅ [] 0) ∅ ∅.
Definition after {A} (c : M (Scheduler (gmap Z gptr)) A) (s : Scheduler (gmap Z gptr)) :=
  match c s with Done (_, s') => s' | _ => s end.
Definition sched0 : Scheduler (gmap Z gptr) :=
  match NewScheduler (∅ : gmap Z gptr) 5 emptyHeap with
  | Done (_, s) => s
  | _ => MkScheduler emptyHeap [] 0 ∅
  end.
Definition sched1 := after (onS (NewGroup 2)) sched0.
Definition sched2 := after (GetForGroup 0 0) sched1.
Definition sched3 := after (ReserveForGroup 0 0) sched2.

Lemma emptyHeap_inv : IInv (ls emptyHeap).
Proof. split; simpl; intros *; by rewrite lookup_empty. Qed.

Lemma after_run {A} (c : M (Scheduler (gmap Z gptr)) A) s :
  match c s with Done _ => true | _ => false end = true → ∃ a, c s = Done (a, after c s).
Proof. unfold after. destruct (c s) as [[a s']|?|]; [eauto|done..]. Qed.

Lemma sched3_reached : rtc sched_step sched0 sched3.
Proof.
  destruct (after_run (onS (NewGroup 2)) sched0) as [g H1]; [vm_compute; reflexivity|].
  destruct (after_run (GetForGroup 0 0) sched1) as [i H2]; [vm_compute; reflexivity|].
  destruct (after_run (ReserveForGroup 0 0) sched2) as [r H3]; [vm_compute; reflexivity|].
  eapply rtc_l; [by eapply step_newgroup|]. eapply rtc_l; [by eapply step_get|].
  eapply rtc_l; [by eapply step_reserve|]. apply rtc_refl.
Qed.

Lemma sched3_sys : SchedSys (pool sched0) sched3.
Proof.
  eapply reachable_sys; [|apply sched3_reached].
  destruct (NewScheduler_run (∅ : gmap Z gptr) 5 emptyHeap) as (s&Hr&_&Hs);
    [intros k; apply lookup_empty|done|apply emptyHeap_inv|].
  assert (s = sched0) as <-; [|done]. unfold sched0. by rewrite Hr.
Qed.

Lemma deployments_conserved_witness : length (pool sched0) = 5%nat ∧
  ∀ d, d ∈ pool sched0 ↔ d ∈ pool sched3 ∨ ∃ k p, active sched3 k p ∧ gdep_of sched3 p = Some d.
Proof.
  destruct (deployments_conserved (∅ : gmap Z gptr) 5 emptyHeap sched0 sched3)
    as (H1&_&_&H2&_).
  - intros k. apply lookup_empty.
  - reflexivity.
  - apply emptyHeap_inv.
  - vm_compute. reflexivity.
  - apply sched3_reached.
  - split; [exact H1|exact H2].
Defined.

Lemma Instance_switches_witness : ∃ i s', Sched_Instance 1 sched3 = Done (Some i, s') ∧
  active s' 1 0%nat.
Proof.
  destruct (Instance_switches (pool sched0) sched3 1 1%nat (MkGroupInstance (LDeployment 1) 0 0)
    (MkGroup [Some 0%nat; None] 2 0) 0%nat) as (i&gq&kq&dp&dq&s'&Hr&_&_&_&_&_&_&Ha&_).
  - apply sched3_sys.
  - vm_compute. reflexivity.
  - vm_compute. reflexivity.
  - vm_compute. reflexivity.
  - vm_compute. reflexivity.
  - discriminate.
  - exists i, s'. split; [exact Hr|exact Ha].
Defined.
End witness.
