(* ===== verification/Proxy.v ===== *)
(** * proxy/server/proxy.go: the request handlers

    A handler runs up to the point where it sends a command to an instance's
    request channel, which may block; what it does afterwards is the rest of
    the goroutine.  Arguments that the command stream fails to parse are zero,
    as in the source, which ignores the errors. *)

From stdpp Require Import pretty.
From S2P Require Import Prelude Lambdastore Request Instance Connection Group Meta Placer Scheduler.

(** ** config.go *)

Definition LambdaMaxDeployments : nat := 400.
Definition NumLambdaClusters : Z := 400.
Definition InstanceCapacity : Z := 1536 * 1000000.
Definition InstanceOverhead : Z := 100 * 1000000.

(** ** Goroutines *)

(** What is left of a goroutine: nothing, a send to the channel of an instance
    and the rest, or a wait on a condition and the rest. *)
#[warnings="-register-all"] Inductive proc (S : Type) : Type :=
  | PEnd
  | PSend (i : iptr) (cmd : Command) (next : S → res (proc S * S))
  | PWait (ready : S → bool) (next : S → res (proc S * S)).
Arguments PEnd {S}.
Arguments PSend {S} i cmd next.
Arguments PWait {S} ready next.

Definition allocReq (x : Request) : M LHeap rptr := λ h,
  let r := fresh (dom (reqs h)) in Done (r, h <| reqs ::= <[r := x]> |>).

Section proxy.
Context {H : Type} `{HashMap string mptr H}.
#[local] Open Scope string_scope.

Definition ended : M (Store H) (proc (Store H)) := mret PEnd.
Definition onLS {A} (c : M LHeap A) : M (Store H) A := onPS (onSh (onLs c)).

(** One step of a goroutine: a send needs the channel, of capacity one, to be
    empty. *)
Definition proc_step (p : proc (Store H)) : M (Store H) (proc (Store H)) :=
  match p with
  | PEnd => mret PEnd
  | PSend i cmd next =>
      ins ← onLS (getInst i);
      match chanReq ins with
      | [] => onLS (modInst i (λ x, x <| chanReq := [cmd] |>));; next
      | _ :: _ => blocked
      end
  | PWait ready next => s ← mget; if ready s then next else blocked
  end.

(** [p.group.Instance(idx)] *)
Definition groupInstance (idx : Z) : M (Store H) iptr :=
  s ← mget; onPS (onSh (InstanceAt (pgroup (plc s.1)) idx)).

(** The rest of [dropEvicted] from chunk [i], [n] chunks before its end. *)
Fixpoint dropFrom (m : mptr) (reqId : string) (n i : nat)
    (k : M (Store H) (proc (Store H))) : M (Store H) (proc (Store H)) :=
  match n with
  | O => k
  | S n' =>
      mm ← onPS (getMeta m);
      lambdaId ← expect PIndex (pl (Placement_ mm) !! i);
      ip ← groupInstance lambdaId;
      r ← onLS (allocReq (MkRequest (MkId 0 reqId (pretty i)) "del"
            (ChunkKey mm (Z.of_nat i)) None None false false None false false));
      mret (PSend ip (CRequest r) (dropFrom m reqId n' (S i) k))
  end.
Definition dropEvicted (uuid : string) (m : option mptr)
    (k : M (Store H) (proc (Store H))) : M (Store H) (proc (Store H)) :=
  m ← expect PNil m;
  mm ← onPS (getMeta m);
  dropFrom m uuid (length (pl (Placement_ mm))) 0 k.

(** [postProcess(p.dropEvicted)] and what follows it. *)
Definition postProcessDrop (uuid : string) (m : mptr)
    (k : M (Store H) (proc (Store H))) : M (Store H) (proc (Store H)) :=
  pm ← onPS (getPM m);
  match once pm with
  | None => k
  | Some true => k
  | Some false =>
      onPS (modPM m (λ x, x <| once := Some true |>));;
      dropEvicted uuid (evicts pm) (onPS (modPM m (λ x, x <| evicts := None |>));; k)
  end.

Definition notSet (chunkId key : string) : string :=
  "KEY " +:+ chunkId +:+ "@" +:+ key +:+
  " not set to lambda store, may got evicted before all chunks are set.".
Definition notFound (chunkId key : string) : string :=
  "KEY " +:+ chunkId +:+ "@" +:+ key +:+ " not found in lambda store, please set first.".

(** The arguments of a SET and of a GET. *)
Record SetArgs : Type := MkSetArgs {
  sKey : string; sChunkId : Z; sLambdaId : Z; sRandBase : Z; sReqId : string;
  sDataChunks : Z; sParityChunks : Z
}.
Record GetArgs : Type := MkGetArgs {
  gKey : string; gChunkId : Z; gReqId : string; gDataChunks : Z; gParityChunks : Z
}.

(** The request for a chunk that both handlers build. *)
Definition chunkRequest (mm : Meta) (chunk : Z) (id : Id) (cmd : string) (body : option Z) : Request :=
  MkRequest id (ToLower cmd) (ChunkKey mm chunk) None body true true None false false.

(** The end of both handlers: the chunk's request goes to the instance that the
    placement names. *)
Definition sendChunk (meta : mptr) (chunk : Z) (id : Id) (cmd : string) (body : option Z) :
    M (Store H) (proc (Store H)) :=
  mm ← onPS (getMeta meta);
  lambdaDest ← expect PIndex (zlookup (pl (Placement_ mm)) chunk);
  ip ← groupInstance lambdaDest;
  r ← onLS (allocReq (chunkRequest mm chunk id cmd body));
  mret (PSend ip (CRequest r) ended).

(** [HandleSet]: an error replied to the client, or the rest of the goroutine.
    [name] is the command's name; [body] is the length of the value's stream,
    or [None] when it could not be read; [pick] and [uuid] are what the meta
    pool and the uuid generator give. *)
Definition HandleSet (fuel : nat) (pick : option nat) (uuid : string) (connId : Z) (name : string)
    (a : SetArgs) (body : option Z) : M (Store H) (string + proc (Store H)) :=
  let chunkId := pretty (sChunkId a) in
  match body with
  | None => mret (inr PEnd)
  | Some len =>
      prepared ← onPS (NewMeta pick (sKey a) (sRandBase a)
        (i64 (sDataChunks a + sParityChunks a)) (sChunkId a) (sLambdaId a) len);
      '(meta, _, pp) ← GetOrInsert fuel (sKey a) prepared;
      mm ← onPS (getMeta meta);
      if Deleted mm then mret (inl (notSet chunkId (sKey a))) else
      let rest := sendChunk meta (sChunkId a) (MkId connId (sReqId a) chunkId) name (Some len) in
      p ← match pp with
          | Some m => postProcessDrop uuid m rest
          | None => rest
          end;
      mret (inr p)
  end.

Definition HandleGet (connId : Z) (name : string) (a : GetArgs) :
    M (Store H) (string + proc (Store H)) :=
  let chunkId := pretty (gChunkId a) in
  onLS (modify (λ h, h <| ReqMap ::= (λ rm, match rm !! gReqId a with
    | Some _ => rm
    | None => <[gReqId a := MkCounter "get" (gDataChunks a) (gParityChunks a) 0]> rm
    end) |>));;
  found ← Get (gKey a) (gChunkId a);
  match found with
  | None => mret (inl (notFound chunkId (gKey a)))
  | Some meta =>
      mm ← onPS (getMeta meta);
      if Deleted mm then mret (inl (notFound chunkId (gKey a))) else
      p ← sendChunk meta (gChunkId a) (MkId connId (gReqId a) chunkId) name None;
      mret (inr p)
  end.

(** [HandleCallback]: the calls on the client's writer. *)
Definition HandleCallback (rsp : Reply) (len : Z) (ioCopy ioFl : error) : list ROp :=
  match rsp with
  | RResponse r => Response_PrepareFor r ++ (Response_Flush r len ioCopy ioFl).1
  | RError msg => [RAppendError msg; RFlush]
  end.

(** [CollectData], [n] instances before its end. *)
Fixpoint collectFrom (n i : nat) : M (Store H) (proc (Store H)) :=
  match n with
  | O => mret (PWait (λ s, bool_decide (DataCollected (ls (sh s.1)) = 0)) ended)
  | S n' =>
      onLS (modify (λ h, h <| DataCollected ::= Z.succ |>));;
      ip ← groupInstance (Z.of_nat i);
      mret (PSend ip (CControl (MkControl "data" "" "" 0 None None)) (collectFrom n' (S i)))
  end.
Definition CollectData : M (Store H) (proc (Store H)) :=
  s ← mget;
  gr ← onPS (onSh (getGroup (pgroup (plc s.1))));
  collectFrom (length (All gr)) 0.
End proxy.

(** ** Start and end of a proxy *)

Section lifecycle.
Context {H : Type} `{HashMap Z gptr H}.

(** The loop of [New] over the slots, from slot [i]. *)
Fixpoint initNodes (g : grp) (n : nat) (i : Z) : M (Scheduler H) unit :=
  match n with
  | O => mret ()
  | S n' =>
      node ← GetForGroup g i;
      onL (modInst node (λ x, x <| imeta ::= λ m,
        IncreaseSize InstanceOverhead (m <| Capacity := InstanceCapacity |>) |>));;
      initNodes g n' (i + 1)
  end.
(** [New]: the group, on which the placer is made ([NewPlacer]). *)
Definition New (num : Z) : M (Scheduler H) grp :=
  g ← onS (NewGroup num);
  gr ← onS (getGroup g);
  initNodes g (length (All gr)) 0;;
  mret g.

Fixpoint releaseNodes (g : grp) (i : Z) (l : list (option gptr)) : M (Scheduler H) unit :=
  match l with
  | [] => mret ()
  | node :: l' =>
      p ← expect PNil node;
      gi ← onS (getGI p);
      Recycle (gdep gi);;
      onS (modGroup g (λ x, x <| All ::= zinsert i None |>));;
      releaseNodes g (i + 1) l'
  end.
Definition Release (g : grp) : M (Scheduler H) unit :=
  gr ← onS (getGroup g);
  releaseNodes g 0 (All gr);;
  Clear g.
End lifecycle.
