(* ===== verification/ProxyTheorems.v ===== *)
(** * What the handlers guarantee

    Where a chunk was stored is where it is looked for; the chunks of an
    evicted object are deleted where they are, once. *)

From stdpp Require Import pretty.
From S2P Require Import Prelude Lambdastore Request Instance Connection Validation Group Meta Placer.
From S2P Require Import Clock ClockRefine Accounting PlacerInv PlacerSystem Fixtures PlacerTheorems.
From S2P Require Import Scheduler SchedulerTheorems Proxy.

(** ** Running a goroutine to its end

    The commands it sends, to instances that take each at once; [fuel] bounds
    the number of sends. *)

Section sends.
Context {H : Type} {HM : HashMap string mptr H}.
Implicit Types (st : Store H) (l : list (iptr * Command)).

Fixpoint sends (fuel : nat) (p : proc (Store H)) : M (Store H) (list (iptr * Command)) :=
  match fuel, p with
  | _, PEnd => mret []
  | S n, PSend i cmd next => p' ← next; l ← sends n p'; mret ((i, cmd) :: l)
  | _, _ => blocked
  end.

(** The requests, and the states that differ in them only. *)
Definition reqs_of st : gmap rptr Request := reqs (ls (sh st.1)).
Definition setReqs (R : gmap rptr Request) st : Store H :=
  (st.1 <| sh ::= (λ h, h <| ls ::= (λ x, x <| reqs := R |>) |>) |>, st.2).
Definition grows st st' : Prop := ∃ R, reqs_of st ⊆ R ∧ st' = setReqs R st.

Lemma setReqs_setReqs R R' st : setReqs R (setReqs R' st) = setReqs R st.
Proof. done. Qed.
Lemma setReqs_id st : setReqs (reqs_of st) st = st.
Proof. by destruct st as [[[[] ? ?]] ?]. Qed.
Lemma grows_refl st : grows st st.
Proof. exists (reqs_of st). split; [done|]. by rewrite setReqs_id. Qed.
Lemma grows_trans st1 st2 st3 : grows st1 st2 → grows st2 st3 → grows st1 st3.
Proof.
  intros (R&HR&->) (R'&HR'&->). exists R'. split; [|done]. etrans; [exact HR|exact HR'].
Qed.

Lemma allocReq_inv x st r st' : onLS (allocReq x) st = Done (r, st') →
  reqs_of st !! r = None ∧ st' = setReqs (<[r := x]> (reqs_of st)) st.
Proof.
  intros E. injection E as <- <-. split; [|done]. apply not_elem_of_dom, is_fresh.
Qed.
Lemma allocReq_run x st : ∃ r, reqs_of st !! r = None ∧
  onLS (allocReq x) st = Done (r, setReqs (<[r := x]> (reqs_of st)) st).
Proof. eexists. split; [|reflexivity]. apply not_elem_of_dom, is_fresh. Qed.
Lemma grows_alloc x st r : reqs_of st !! r = None → grows st (setReqs (<[r := x]> (reqs_of st)) st).
Proof. intros Hr. eexists. split; [|reflexivity]. by apply insert_subseteq. Qed.

Lemma groupInstance_inv z st ip st' : groupInstance z st = Done (ip, st') →
  loc_of st.1 z = Some ip ∧ st' = st.
Proof.
  unfold groupInstance. erewrite bind_done by reflexivity. unfold onPS, zoom.
  destruct (onSh _ st.1) as [[ip' s']|?|] eqn:E; [|done..]. intros [= -> <-].
  apply InstanceAt_onSh_inv in E as [E ->]. split; [done|]. by destruct st.
Qed.
Lemma groupInstance_run z st ip : loc_of st.1 z = Some ip → groupInstance z st = Done (ip, st).
Proof.
  intros E. unfold groupInstance. erewrite bind_done by reflexivity. unfold onPS, zoom, onSh, zoom.
  assert (Er : InstanceAt (pgroup (plc st.1)) z (sh st.1) = Done (ip, sh st.1)).
  { unfold loc_of, locate in E. unfold InstanceAt, getGroup, getGI, mbind, M_bind, expect.
    destruct (groups (sh st.1) !! pgroup (plc st.1)) as [gr|]; [|done]. simpl in *.
    destruct (zlookup (All gr) z) as [[p|]|]; [|done..]. simpl in *.
    destruct (ginsts (sh st.1) !! p) as [gi|]; [|done]. simpl in *.
    destruct (gdep gi); [done|]. by injection E as ->. }
  rewrite Er. by destruct st as [[]].
Qed.

(** ** Dropping an evicted object *)

(** The request that deletes chunk [i] of an object. *)
Definition delRequest (mm : Meta) (rq : string) (i : nat) : Request :=
  MkRequest (MkId 0 rq (pretty i)) "del" (ChunkKey mm (Z.of_nat i)) None None false false None false false.
(** The sends [l] delete the chunks of the object from the [i]-th on. *)
Definition drops (mm : Meta) (loc : Z → option iptr) (rq : string) (R : gmap rptr Request)
    (i : nat) l : Prop :=
  ∀ j c, l !! j = Some c → ∃ z r, pl (Placement_ mm) !! (i + j)%nat = Some z ∧ loc z = Some c.1 ∧
    c.2 = CRequest r ∧ R !! r = Some (delRequest mm rq (i + j)).

Lemma drops_mono mm loc rq R R' i l : R ⊆ R' → drops mm loc rq R i l → drops mm loc rq R' i l.
Proof.
  intros HR Hd j c Hj. destruct (Hd j c Hj) as (z&r&?&?&?&Hr). exists z, r.
  split_and!; [done..|]. by eapply lookup_weaken.
Qed.
Lemma drops_cons mm loc rq R i c l z r :
  pl (Placement_ mm) !! i = Some z → loc z = Some c.1 → c.2 = CRequest r →
  R !! r = Some (delRequest mm rq i) → drops mm loc rq R (S i) l → drops mm loc rq R i (c :: l).
Proof.
  intros H1 H2 H3 H4 Hd [|j] c' Hj; simpl in Hj.
  - injection Hj as <-. exists z, r. by rewrite Nat.add_0_r.
  - destruct (Hd j c' Hj) as (z'&r'&Hx). exists z', r'. by rewrite Nat.add_succ_r.
Qed.

Definition metas_of st : gmap mptr Meta := metas st.1.

(** One round of the loop. *)
Lemma dropFrom_step m mm rq n i k st p st1 :
  metas_of st !! m = Some mm → dropFrom m rq (S n) i k st = Done (p, st1) →
  ∃ z ip r, pl (Placement_ mm) !! i = Some z ∧ loc_of st.1 z = Some ip ∧
    reqs_of st !! r = None ∧ p = PSend ip (CRequest r) (dropFrom m rq n (S i) k) ∧
    st1 = setReqs (<[r := delRequest mm rq i]> (reqs_of st)) st.
Proof.
  intros Hm Hr. simpl in Hr.
  erewrite bind_done in Hr by (unfold onPS, zoom, getMeta; unfold metas_of in Hm; rewrite Hm;
    simpl; rewrite <- surjective_pairing; reflexivity).
  mstep Hr. apply expect_inv in E as [Hz ->]. mstep Hr. apply groupInstance_inv in E as [Hip ->].
  mstep Hr. apply allocReq_inv in E as [Hr0 ->]. injection Hr as <- <-. eauto 10.
Qed.

Lemma dropFrom_sends m mm rq k n : ∀ i f st p st1 l st2,
  metas_of st !! m = Some mm → dropFrom m rq n i k st = Done (p, st1) →
  sends f p st1 = Done (l, st2) →
  ∃ l0 l1 f' stk pk stk', l = l0 ++ l1 ∧ length l0 = n ∧ grows st stk ∧
    drops mm (loc_of st.1) rq (reqs_of stk) i l0 ∧
    k stk = Done (pk, stk') ∧ sends f' pk stk' = Done (l1, st2).
Proof.
  induction n as [|n IH]; intros i f st p st1 l st2 Hm Hd Hs.
  { exists [], l, f, st, p, st1. split_and!; [done|done|apply grows_refl|by intros ??|done|done]. }
  destruct (dropFrom_step _ mm _ _ _ _ _ _ _ Hm Hd) as (z&ip&r&Hz&Hip&Hr&->&->).
  destruct f as [|f]; [done|]. simpl in Hs. mstep Hs. mstep Hs. injection Hs as <- <-.
  set (st1 := setReqs _ st) in *.
  destruct (IH (S i) f st1 a s a0 s0) as (l0&l1&f'&stk&pk&stk'&->&El&Hg&Hdr&Hk&Hs'); [done..|].
  exists ((ip, CRequest r) :: l0), l1, f', stk, pk, stk'. split_and!; [done|simpl; lia| | |done|done].
  - eapply grows_trans; [by apply grows_alloc|exact Hg].
  - eapply drops_cons; [exact Hz|exact Hip|reflexivity| |exact Hdr].
    destruct Hg as (R&HR&->). eapply lookup_weaken; [|exact HR].
    apply lookup_insert_eq.
Qed.

(** It returns, whatever follows, when every chunk's instance exists. *)
Lemma dropFrom_runs m mm rq k n : ∀ i f st,
  metas_of st !! m = Some mm → length (pl (Placement_ mm)) = (i + n)%nat →
  (∀ z, z ∈ pl (Placement_ mm) → is_Some (loc_of st.1 z)) →
  (∀ stk, grows st stk → ∃ pk stk' l1 st2, k stk = Done (pk, stk') ∧ sends f pk stk' = Done (l1, st2)) →
  ∃ p st1 l st2, dropFrom m rq n i k st = Done (p, st1) ∧ sends (n + f) p st1 = Done (l, st2).
Proof.
  induction n as [|n IH]; intros i f st Hm Hlen Hloc Hk.
  { destruct (Hk st (grows_refl st)) as (p&st1&l&st2&?&?). by exists p, st1, l, st2. }
  assert (Hz : ∃ z, pl (Placement_ mm) !! i = Some z) by (apply lookup_lt_is_Some; lia).
  destruct Hz as [z Hz]. destruct (Hloc z (list_elem_of_lookup_2 _ _ _ Hz)) as [ip Hip].
  destruct (allocReq_run (delRequest mm rq i) st) as (r&Hr&Halloc).
  set (st1 := setReqs (<[r := delRequest mm rq i]> (reqs_of st)) st) in *.
  assert (Hg1 : grows st st1) by (by apply grows_alloc).
  destruct (IH (S i) f st1) as (p&st2&l&st3&Hd&Hs); [done|lia|exact Hloc| |].
  { intros stk Hg. apply Hk. by eapply grows_trans. }
  exists (PSend ip (CRequest r) (dropFrom m rq n (S i) k)), st1, ((ip, CRequest r) :: l), st3. split.
  - simpl. erewrite bind_done by (unfold onPS, zoom, getMeta; unfold metas_of in Hm; rewrite Hm;
      simpl; rewrite <- surjective_pairing; reflexivity).
    erewrite bind_done by (by rewrite Hz). erewrite bind_done by (by apply groupInstance_run).
    by erewrite bind_done by exact Halloc.
  - simpl. erewrite bind_done by exact Hd. by erewrite bind_done by exact Hs.
Qed.

Definition updMetaPM (m : mptr) (f : PlacerMeta → PlacerMeta) st : Store H :=
  (st.1 <| metas ::= alter (λ x, x <| placerMeta ::= fmap f |>) m |>, st.2).
Lemma onPS_getMeta_inv m st mm st' : onPS (getMeta m) st = Done (mm, st') →
  metas_of st !! m = Some mm ∧ st' = st.
Proof.
  unfold onPS, zoom, getMeta, metas_of. destruct (metas st.1 !! m); [|done]. intros [= <- <-].
  by destruct st.
Qed.
Lemma onPS_modPM m f st : onPS (modPM m f) st = Done ((), updMetaPM m f st).
Proof. done. Qed.
Lemma onPS_getPM m st x pm : metas_of st !! m = Some x → placerMeta x = Some pm →
  onPS (getPM m) st = Done (pm, st).
Proof.
  intros Hm Hp. unfold onPS, zoom, getPM. erewrite bind_done by (unfold getMeta; unfold metas_of in Hm; by rewrite Hm).
  rewrite Hp. simpl. by destruct st.
Qed.

(** C21: the first [postProcess] after an eviction deletes the evicted object's
    chunks: for every chunk, in order, one "del" request for its chunk key goes
    to the instance that holds it, and to no other; nothing panics, and a
    second [postProcess] sends nothing. *)
Theorem eviction_drops uuid m st x pm v mm :
  metas_of st !! m = Some x → placerMeta x = Some pm → once pm = Some false →
  evicts pm = Some v → metas_of st !! v = Some mm → v ≠ m →
  (∀ z, z ∈ pl (Placement_ mm) → is_Some (loc_of st.1 z)) →
  ∃ p st1 l st2, postProcessDrop uuid m ended st = Done (p, st1) ∧
    sends (length (pl (Placement_ mm))) p st1 = Done (l, st2) ∧
    length l = length (pl (Placement_ mm)) ∧
    drops mm (loc_of st.1) uuid (reqs_of st2) 0 l ∧
    postProcessDrop uuid m ended st2 = Done (PEnd, st2).
Proof.
  intros Hm Hp Ho Hev Hv Hne Hloc.
  set (st0 := updMetaPM m (λ x, x <| once := Some true |>) st).
  set (k := onPS (modPM m (λ x, x <| evicts := None |>));; ended : M (Store H) (proc (Store H))).
  assert (Hv0 : metas_of st0 !! v = Some mm) by (unfold st0, metas_of; simpl; by rewrite lookup_alter_ne).
  destruct (dropFrom_runs v mm uuid k (length (pl (Placement_ mm))) 0 0 st0) as (p&st1&l&st2&Hd&Hs);
    [done|done|exact Hloc| |].
  { intros stk _. eexists _, _, _, _. split; reflexivity. }
  rewrite Nat.add_0_r in Hs.
  destruct (dropFrom_sends _ mm _ _ _ _ _ _ _ _ _ _ Hv0 Hd Hs) as (l0&l1&f'&stk&pk&stk'&->&El&Hg&Hdr&Hk&Hs').
  unfold k in Hk. injection Hk as <- <-.
  assert (l1 = [] ∧ st2 = updMetaPM m (λ x, x <| evicts := None |>) stk) as [-> ->]
    by (by destruct f'; injection Hs').
  rewrite app_nil_r in *. eexists p, st1, l0, _. split_and!; [|exact Hs|exact El|exact Hdr|].
  - unfold postProcessDrop. erewrite bind_done by (by eapply onPS_getPM). rewrite Ho.
    erewrite bind_done by apply onPS_modPM. rewrite Hev. unfold dropEvicted.
    erewrite bind_done by reflexivity. fold st0.
    erewrite bind_done by (unfold onPS, zoom, getMeta; unfold metas_of in Hv0; rewrite Hv0;
      simpl; rewrite <- surjective_pairing; reflexivity).
    exact Hd.
  - destruct Hg as (R&_&->). unfold postProcessDrop. erewrite bind_done.
    2: { eapply onPS_getPM.
         - unfold metas_of, updMetaPM, st0, updMetaPM; simpl. unfold metas_of in Hm.
           rewrite lookup_alter_eq, lookup_alter_eq, Hm. reflexivity.
         - simpl. by rewrite Hp. }
    reflexivity.
Qed.

(** ** A GET follows the SET *)

Lemma sendChunk_inv m chunk id cmd body st p st' : sendChunk m chunk id cmd body st = Done (p, st') →
  ∃ mm z ip r, metas_of st !! m = Some mm ∧ zlookup (pl (Placement_ mm)) chunk = Some z ∧
    loc_of st.1 z = Some ip ∧ p = PSend ip (CRequest r) ended ∧
    st' = setReqs (<[r := chunkRequest mm chunk id cmd body]> (reqs_of st)) st.
Proof.
  unfold sendChunk. intros Hr. mstep Hr. apply onPS_getMeta_inv in E as [Em ->]. mstep Hr. apply expect_inv in E as [Hz ->].
  mstep Hr. apply groupInstance_inv in E as [Hip ->]. mstep Hr. apply allocReq_inv in E as [_ ->].
  injection Hr as <- <-. eauto 10.
Qed.

Lemma sendChunk_run m chunk id cmd body st mm z ip :
  metas_of st !! m = Some mm → zlookup (pl (Placement_ mm)) chunk = Some z → loc_of st.1 z = Some ip →
  ∃ r, sendChunk m chunk id cmd body st = Done (PSend ip (CRequest r) ended,
    setReqs (<[r := chunkRequest mm chunk id cmd body]> (reqs_of st)) st).
Proof.
  intros Hm Hz Hip. unfold sendChunk.
  erewrite bind_done by (unfold onPS, zoom, getMeta; unfold metas_of in Hm; rewrite Hm;
      simpl; rewrite <- surjective_pairing; reflexivity).
  erewrite bind_done by (by rewrite Hz). erewrite bind_done by (by apply groupInstance_run).
  destruct (allocReq_run (chunkRequest mm chunk id cmd body) st) as (r&_&Ha).
  erewrite bind_done by exact Ha. by exists r.
Qed.

Lemma confirmed_updPM m f chunk st : (∀ pm, confirmed (f pm) = confirmed pm) →
  confirmed_at st.1 m chunk → confirmed_at (updMetaPM m f st).1 m chunk.
Proof.
  intros Hf (x&pm&(E1&E2&E3)&Hc). exists (x <| placerMeta := Some (f pm) |>), (f pm).
  split; [|by rewrite Hf]. split_and!; [|done|done]. simpl. rewrite lookup_alter_eq, E1. simpl.
  by rewrite E2.
Qed.

(** What happens before the chunk's own request is sent. *)
Lemma postProcessDrop_sends uuid m chunk k st p st1 f l st2 :
  confirmed_at st.1 m chunk → postProcessDrop uuid m k st = Done (p, st1) →
  sends f p st1 = Done (l, st2) →
  ∃ l0 l1 f' stk pk stk', l = l0 ++ l1 ∧ stk.2 = st.2 ∧ confirmed_at stk.1 m chunk ∧
    (l0 = [] ∨ ∃ v mm, metas_of st !! v = Some mm ∧ length l0 = length (pl (Placement_ mm)) ∧
       drops mm (loc_of st.1) uuid (reqs_of stk) 0 l0) ∧
    k stk = Done (pk, stk') ∧ sends f' pk stk' = Done (l1, st2).
Proof.
  intros Hcf Hr Hs. pose proof Hcf as (x&pm&(E1&E2&E3)&Hc). unfold postProcessDrop in Hr.
  erewrite bind_done in Hr by (by eapply onPS_getPM).
  assert (Hskip : k st = Done (p, st1) → ∃ l0 l1 f' stk pk stk', l = l0 ++ l1 ∧ stk.2 = st.2 ∧
    confirmed_at stk.1 m chunk ∧ (l0 = [] ∨ ∃ v mm, metas_of st !! v = Some mm ∧
       length l0 = length (pl (Placement_ mm)) ∧ drops mm (loc_of st.1) uuid (reqs_of stk) 0 l0) ∧
    k stk = Done (pk, stk') ∧ sends f' pk stk' = Done (l1, st2)).
  { intros Hk. exists [], l, f, st, p, st1. split_and!; [done|done|done|by left|done|done]. }
  destruct (once pm) as [[]|]; [by apply Hskip| |by apply Hskip]. clear Hskip.
  mstep Hr. rewrite onPS_modPM in E. injection E as _ <-. unfold dropEvicted in Hr. mstep Hr.
  apply expect_inv in E as [Hev ->]. rename a0 into v. mstep Hr.
  apply onPS_getMeta_inv in E as [Hv0 ->].
  set (st0 := updMetaPM m (λ x, x <| once := Some true |>) st).
  change (metas_of st0 !! v = Some a0) in Hv0. change (dropFrom v uuid (length (pl (Placement_ a0))) 0
    (onPS (modPM m (λ x, x <| evicts := None |>));; k) st0 = Done (p, st1)) in Hr.
  destruct (dropFrom_sends _ a0 _ _ _ _ _ _ _ _ _ _ Hv0 Hr Hs)
    as (l0&l1&f'&stk&pk&stk'&->&El&(R&_&->)&Hdr&Hk&Hs').
  mstep Hk. rewrite onPS_modPM in E. injection E as _ <-.
  eexists l0, l1, f', _, pk, stk'. split_and!; [done| | | |exact Hk|exact Hs'].
  - done.
  - apply confirmed_updPM; [done|]. by apply (confirmed_updPM m (λ x, x <| once := Some true |>)).
  - right. destruct (decide (v = m)) as [->|Hne].
    + unfold metas_of, st0 in Hv0; simpl in Hv0. rewrite lookup_alter_eq, E1 in Hv0.
      injection Hv0 as <-. exists m, x. by split_and!.
    + unfold metas_of, st0 in Hv0; simpl in Hv0. rewrite lookup_alter_ne in Hv0 by done.
      exists v, a0. by split_and!.
Qed.

(** The counter of a GET. *)
Definition counting a (h : LHeap) : LHeap :=
  h <| ReqMap ::= (λ rm, match rm !! gReqId a with
    | Some _ => rm
    | None => <[gReqId a := MkCounter "get" (gDataChunks a) (gParityChunks a) 0]> rm
    end) |>.

(** A GET of a confirmed chunk asks the instance the placement names. *)
Lemma HandleGet_run connId name a st m x pm z ip :
  hm_Get st.2 (gKey a) = Some m → live st.1 m x pm → zlookup (confirmed pm) (gChunkId a) = Some true →
  zlookup (pl (Placement_ x)) (gChunkId a) = Some z → loc_of st.1 z = Some ip →
  ∃ r st', HandleGet connId name a st = Done (inr (PSend ip (CRequest r) ended), st') ∧
    ls (sh st'.1) = counting a (ls (sh st.1)) <| reqs ::=
      insert r (chunkRequest x (gChunkId a) (MkId connId (gReqId a) (pretty (gChunkId a))) name None) |>.
Proof.
  intros Hk Hl Hc Hz Hip. unfold HandleGet. erewrite bind_done by reflexivity.
  set (st1 := (_ : PState, _ : H)).
  erewrite bind_done by (apply (Get_confirmed _ _ st1 m); [exact Hk|by exists x, pm]).
  cbv beta iota. set (st2 := (_ <| metas ::= _ |>, _)).
  set (x2 := x <| placerMeta := Some (touch st1.1 pm) |>).
  assert (Hm2 : metas_of st2 !! m = Some x2).
  { destruct Hl as (E1&E2&E3). unfold metas_of, st2; simpl. rewrite lookup_alter_eq, E1. simpl.
    by rewrite E2. }
  assert (Hg : onPS (getMeta m) st2 = Done (x2, st2)).
  { unfold onPS, zoom, getMeta. unfold metas_of in Hm2. by rewrite Hm2. }
  erewrite bind_done by exact Hg.
  destruct Hl as (E1&E2&E3). change (Deleted x2) with (Deleted x). rewrite E3.
  destruct (sendChunk_run m (gChunkId a) (MkId connId (gReqId a) (pretty (gChunkId a))) name None
    st2 x2 z ip) as (r&Hs); [done..|].
  exists r. eexists. split; [by erewrite bind_done by exact Hs|done].
Qed.

Lemma sends_end f st l st' : sends f PEnd st = Done (l, st') → l = [] ∧ st' = st.
Proof. by destruct f; intros [= <- <-]. Qed.
Lemma sends_one f i c st l st' : sends f (PSend i c ended) st = Done (l, st') → l = [(i, c)] ∧ st' = st.
Proof.
  destruct f as [|f]; [done|]. simpl. intros Hs. mstep Hs. injection E as <- <-. mstep Hs.
  apply sends_end in E as [-> ->]. by injection Hs as <- <-.
Qed.

Lemma HandleSet_sends {HL : HashMapLaws string mptr H} n bs fuel pick uuid connId name a len st p st1 f l st2 :
  SInv n bs (quiet st) → i64 (sDataChunks a + sParityChunks a) = Z.of_nat n →
  HandleSet fuel pick uuid connId name a (Some len) st = Done (inr p, st1) →
  sends f p st1 = Done (l, st2) →
  ∃ m x pm z ip r l0, l = l0 ++ [(ip, CRequest r)] ∧
    hm_Get st2.2 (sKey a) = Some m ∧ live st2.1 m x pm ∧
    zlookup (confirmed pm) (sChunkId a) = Some true ∧
    zlookup (pl (Placement_ x)) (sChunkId a) = Some z ∧ loc_of st2.1 z = Some ip ∧
    reqs_of st2 !! r = Some (chunkRequest x (sChunkId a) (MkId connId (sReqId a) (pretty (sChunkId a))) name (Some len)).
Proof.
  intros HS En Hr Hs. unfold HandleSet in Hr. rewrite En in Hr. mstep Hr.
  unfold onPS, zoom in E. destruct (NewMeta _ _ _ _ _ _ _ st.1) as [[nm s1]|?|] eqn:Enm; [|done..].
  injection E as <- <-.
  destruct (NewMeta_inv n bs st.1 pick (sKey a) (sRandBase a) (sChunkId a) (sLambdaId a) len nm s1
    (si_inv _ _ _ HS)) as (x0&HI1&Es1&_&_&_&_&_&Hlast&Hch&_&_&_); [|done|].
  { intros k Hk. by destruct (si_fresh _ _ _ HS k) as (?&?&_). }
  assert (Hx0 : metas s1 !! nm = Some x0) by (rewrite Es1; apply lookup_insert_eq).
  mstep Hr. destruct a0 as [[m got] pp].
  destruct (GetOrInsert_confirms n bs fuel (sKey a) nm x0 (s1, st.2) m got pp s HI1 Hx0) as (Hk&Hcf&Hpp);
    [by rewrite Hlast|done|]. rewrite Hlast in Hcf.
  mstep Hr. apply onPS_getMeta_inv in E0 as [Hmm ->].
  destruct (Deleted a0); [done|]. mstep Hr. injection Hr as <- <-.
  set (rest := sendChunk m _ _ _ _) in *.
  assert (Hx : ∃ l0 l1 f' stk pk stk', l = l0 ++ l1 ∧ stk.2 = s.2 ∧ confirmed_at stk.1 m (sChunkId a) ∧
    rest stk = Done (pk, stk') ∧ sends f' pk stk' = Done (l1, st2)).
  { destruct Hpp as [->| ->].
    - exists [], l, f, s, a1, s0. by split_and!.
    - destruct (postProcessDrop_sends uuid m (sChunkId a) rest s a1 s0 f l st2)
        as (l0&l1&f'&stk&pk&stk'&?&?&?&_&?&?); [done..|]. by exists l0, l1, f', stk, pk, stk'. }
  destruct Hx as (l0&l1&f'&stk&pk&stk'&->&E2&(x&pm&Hl&Hc)&Hk'&Hs').
  apply sendChunk_inv in Hk' as (mm&z&ip&r&Em&Hz&Hip&->&->). apply sends_one in Hs' as [-> ->].
  assert (mm = x) as -> by (destruct Hl as [E1 _]; unfold metas_of in Em; congruence).
  exists m, x, pm, z, ip, r, l0. split_and!; [done|simpl; congruence|exact Hl|done|done|exact Hip|].
  apply lookup_insert_eq.
Qed.

(** a GET finds what a SET stored.  When [HandleSet] has sent its requests,
    the last of them carries the chunk's value to an instance under the chunk
    key, and [HandleGet] for the same key and chunk sends its request to the
    same instance with the same chunk key. *)
Theorem get_follows_set {HL : HashMapLaws string mptr H} n bs fuel pick uuid connId name a len st
    p st1 f l st2 connId' name' rq :
  SInv n bs (quiet st) → i64 (sDataChunks a + sParityChunks a) = Z.of_nat n →
  HandleSet fuel pick uuid connId name a (Some len) st = Done (inr p, st1) →
  sends f p st1 = Done (l, st2) →
  ∃ l0 ip r x r' x' st3, l = l0 ++ [(ip, CRequest r)] ∧ reqs_of st2 !! r = Some x ∧
    reqId x = MkId connId (sReqId a) (pretty (sChunkId a)) ∧ BodyStream x = Some len ∧
    HandleGet connId' name' (MkGetArgs (sKey a) (sChunkId a) rq (sDataChunks a) (sParityChunks a)) st2
      = Done (inr (PSend ip (CRequest r') ended), st3) ∧
    reqs_of st3 !! r' = Some x' ∧ reqKey x' = reqKey x ∧
    reqId x' = MkId connId' rq (pretty (sChunkId a)).
Proof.
  intros HS En Hr Hs.
  destruct (HandleSet_sends n bs fuel pick uuid connId name a len st p st1 f l st2)
    as (m&x&pm&z&ip&r&l0&->&Hk&Hl&Hc&Hz&Hip&Hr0); [done..|].
  destruct (HandleGet_run connId' name'
    (MkGetArgs (sKey a) (sChunkId a) rq (sDataChunks a) (sParityChunks a)) st2 m x pm z ip)
    as (r'&st3&Hg&Hr'); [done..|].
  exists l0, ip, r. eexists. exists r'. eexists. exists st3.
  split_and!; [done|exact Hr0|done|done|exact Hg|unfold reqs_of; rewrite Hr'; apply lookup_insert_eq|done|done].
Qed.
End sends.

(** Witnesses: a SET on an empty placer; an object of one chunk evicted. *)
Section witness.
#[local] Open Scope string_scope.
Definition setArgs : SetArgs := MkSetArgs "A" 1 1 2 "req" 1 1.

Lemma get_follows_set_witness : ∃ ip r r' st1 st2 st3 st3',
  HandleSet 1 None "u" 7 "set" setArgs (Some 10) (groupStore caps0) =
    Done (inr (PSend ip (CRequest r) ended), st1) ∧
  sends 1 (PSend ip (CRequest r) ended) st1 = Done ([(ip, CRequest r)], st2) ∧
  HandleGet 8 "get" (MkGetArgs "A" 1 "req2" 1 1) st3 = Done (inr (PSend ip (CRequest r') ended), st3').
Proof.
  assert (Hr : ∃ ip r st1, HandleSet 1 None "u" 7 "set" setArgs (Some 10) (groupStore caps0) =
    Done (inr (PSend ip (CRequest r) ended), st1)) by (vm_compute; eauto).
  destruct Hr as (ip&r&st1&Hr).
  destruct (get_follows_set 2 _ 1 None "u" 7 "set" setArgs 10 (groupStore caps0)
    (PSend ip (CRequest r) ended) st1 1 [(ip, CRequest r)] st1 8 "get" "req2"
    (initial_inv 2 _ _ _ groupStore_initial eq_refl) eq_refl Hr eq_refl)
    as (l0&ip'&r0&x&r'&x'&st3&El&_&_&_&Hg&_).
  destruct l0 as [|? [|??]]; [|discriminate El..]. injection El as <- <-.
  exists ip, r, r', st1, st1, st1, st3. split; [exact Hr|]. split; [reflexivity|exact Hg].
Defined.

Definition evicting : Store (gmap string mptr) :=
  finalState (SetChunk "A" 1 0 20;; SetChunk "B" 1 0 100) (groupStore [40]).
Definition victim : Meta := default zeroMeta (metas_of evicting !! 0%nat).
Definition evictor : Meta := default zeroMeta (metas_of evicting !! 1%nat).

Lemma eviction_drops_witness : ∃ p st1 l st2,
  postProcessDrop "u" 1 ended evicting = Done (p, st1) ∧
  sends 1 p st1 = Done (l, st2) ∧ length l = 1%nat ∧
  drops victim (loc_of evicting.1) "u" (reqs_of st2) 0 l.
Proof.
  destruct (eviction_drops "u" 1 evicting evictor (default (newPlacerMeta 0) (placerMeta evictor))
    0 victim) as (p&st1&l&st2&H1&H2&H3&H4&_).
  - vm_compute. reflexivity.
  - vm_compute. reflexivity.
  - vm_compute. reflexivity.
  - vm_compute. reflexivity.
  - vm_compute. reflexivity.
  - discriminate.
  - intros z Hz. assert (E : pl (Placement_ victim) = [0]) by (vm_compute; reflexivity).
    rewrite E in Hz. apply list_elem_of_singleton in Hz as ->. vm_compute. eauto.
  - exists p, st1, l, st2. split; [exact H1|]. split; [exact H2|]. split; [exact H3|exact H4].
Defined.
End witness.
