(* ===== verification/Erasure.v ===== *)
(** * client/ec.go: splitting an object into shards

    [reedsolomon.Encoder] is an interface: the class [Encoder].  The client uses
    the library's code when there are parity shards (its documented behaviour
    is the class [ErasureCode]), and its own [DummyEncoder] when there are none. *)

From Stdlib Require Strings.Byte.
From stdpp Require Import pretty.
From S2P Require Import Prelude Lambdastore Request.

Abbreviation bytes := (list Byte.byte) (only parsing).
(** A [[]byte] may be nil. *)
Abbreviation shard := (option (list Byte.byte)) (only parsing).

#[global] Instance byte_eq_dec : EqDecision Byte.byte := Strings.Byte.byte_eq_dec.

Definition slen (s : shard) : nat := length (default [] s).

(** The errors of the library, by name. *)
Definition ErrShortData : string := "reedsolomon.ErrShortData".
Definition ErrTooFewShards : string := "reedsolomon.ErrTooFewShards".
Definition ErrReconstructRequired : string := "reedsolomon.ErrReconstructRequired".
Definition ErrNotImplemented : string := "Not implemented".

(** [reedsolomon.Encoder].  Methods that work in place return the shards.
    [Join] gives the writes it makes; [wr k] is the error of the [k]-th. *)
Class Encoder (E : Type) : Type := {
  Split : E → bytes → res (list shard + string);
  Encode : E → list shard → list shard * error;
  Verify : E → list shard → bool * error;
  Reconstruct : E → list shard → list shard * error;
  Join : (nat → error) → E → list shard → Z → res (list bytes * error)
}.

(** ** DummyEncoder *)

Record DummyEncoder : Type := MkDummyEncoder { encShards : Z }.

Definition Dummy_Encode (_ : DummyEncoder) (shards : list shard) : list shard * error := (shards, None).

Definition Dummy_Verify (enc : DummyEncoder) (shards : list shard) : bool * error :=
  if decide (Z.of_nat (length shards) ≠ encShards enc) then (false, Some ErrTooFewShards)
  else if existsb (λ s, bool_decide (slen s = 0%nat)) shards then (false, Some ErrTooFewShards)
  else (true, None).

Definition Dummy_Reconstruct (enc : DummyEncoder) (shards : list shard) : list shard * error :=
  (shards, (Dummy_Verify enc shards).2).
Definition Dummy_ReconstructData (enc : DummyEncoder) (shards : list shard) : list shard * error :=
  (shards, (Dummy_Verify enc shards).2).
Definition Dummy_Update (_ : DummyEncoder) (shards newDatashards : list shard) : error :=
  Some ErrNotImplemented.

(** [perShard := (len(data) + enc.DataShards - 1) / enc.DataShards] *)
Definition perShard (d len : Z) : Z := (len + d - 1) ÷ d.

(** The loop over the [n] shards left, and the assignment after it. *)
Fixpoint splitLoop (n per : nat) (data : bytes) : list shard :=
  match n with
  | O => []
  | S n' =>
      if decide (per ≤ length data)%nat
      then Some (take per data) :: splitLoop n' per (drop per data)
      else Some data :: replicate n' None
  end.

Definition Dummy_Split (enc : DummyEncoder) (data : bytes) : res (list shard + string) :=
  let d := encShards enc in
  if decide (length data = 0%nat) then Done (inr ErrShortData) else
  if decide (d = 0) then Panics PDivide else
  if decide (d < 0) then Panics PMake else
  Done (inl (splitLoop (Z.to_nat d) (Z.to_nat (perShard d (Z.of_nat (length data)))) data)).

(** The first loop of [Join]: the total size, or an error for a nil shard. *)
Fixpoint joinSize (size outSize : Z) (l : list shard) : Z + string :=
  match l with
  | [] => inl size
  | None :: _ => inr ErrReconstructRequired
  | Some s :: l' =>
      let size := size + Z.of_nat (length s) in
      if decide (outSize ≤ size) then inl size else joinSize size outSize l'
  end.

(** The second loop: what is written from the [k]-th write on. *)
Fixpoint joinWrite (wr : nat → error) (k : nat) (write : Z) (l : list shard) :
    res (list bytes * error) :=
  match l with
  | [] => Done ([], None)
  | s :: l' =>
      let b := default [] s in
      if decide (write < Z.of_nat (length b)) then
        if decide (write < 0) then Panics PSlice
        else Done ([take (Z.to_nat write) b], wr k)
      else
        match wr k with
        | Some e => Done ([b], Some e)
        | None =>
            match joinWrite wr (S k) (write - Z.of_nat (length b)) l' with
            | Done (ws, e) => Done (b :: ws, e)
            | Panics e => Panics e
            | Spins => Spins
            end
        end
  end.

Definition Dummy_Join (wr : nat → error) (enc : DummyEncoder) (shards : list shard) (outSize : Z) :
    res (list bytes * error) :=
  let d := encShards enc in
  if decide (Z.of_nat (length shards) < d) then Done ([], Some ErrTooFewShards) else
  if decide (d < 0) then Panics PSlice else
  let shards := take (Z.to_nat d) shards in
  match joinSize 0 outSize shards with
  | inr e => Done ([], Some e)
  | inl size =>
      if decide (size < outSize) then Done ([], Some ErrShortData)
      else joinWrite wr 0 outSize shards
  end.

#[global] Instance dummy_Encoder : Encoder DummyEncoder := {
  Split := Dummy_Split;
  Encode := Dummy_Encode;
  Verify := Dummy_Verify;
  Reconstruct := Dummy_Reconstruct;
  Join := Dummy_Join
}.

(** ** What an erasure code promises *)

(** [full] are the shards of [data]. *)
Definition encodes {E : Type} `{Encoder E} (enc : E) (data : bytes) (full : list shard) : Prop :=
  ∃ s, Split enc data = Done (inl s) ∧ Encode enc s = (full, None).

(** [part] is [full] with some shards missing; [present part] of them are not. *)
Definition partial (part full : list shard) : Prop :=
  Forall2 (λ p f, p = None ∨ p = f) part full.
Definition present (part : list shard) : nat := length (filter (λ s : shard, s ≠ None) part).
Definition noError : nat → error := λ _, None.

(** The documented behaviour of [reedsolomon.New(d, p)]: shards of a non-empty
    object verify, any [d] of them are enough to rebuild all, fewer are an
    error, missing shards do not verify, and [Join] writes the object's first
    [outSize] bytes. *)
Class ErasureCode (E : Type) `{Encoder E} (enc : E) (d p : nat) : Prop := {
  ec_encodes data : data ≠ [] → ∃ full, encodes enc data full;
  ec_length data full : encodes enc data full → length full = (d + p)%nat;
  ec_nonempty data full i : encodes enc data full → (i < d + p)%nat →
    ∃ b, full !! i = Some (Some b) ∧ b ≠ [];
  ec_verify data full : encodes enc data full → Verify enc full = (true, None);
  ec_verify_missing data full part : encodes enc data full → partial part full → part ≠ full →
    (Verify enc part).1 = false;
  ec_reconstruct data full part : encodes enc data full → partial part full →
    (d ≤ present part)%nat → Reconstruct enc part = (full, None);
  ec_too_few data full part : encodes enc data full → partial part full →
    (present part < d)%nat → ∃ part' e, Reconstruct enc part = (part', Some e);
  ec_join data full n : encodes enc data full → (n ≤ length data)%nat →
    ∃ ws, Join noError enc full (Z.of_nat n) = Done (ws, None) ∧ concat ws = take n data
}.
