(* ===== verification/ErasureTheorems.v ===== *)
(** * What the encoders guarantee

    The dummy encoder gives back what it split; which objects it accepts; and a
    concrete code with parity, the mirror, that behaves as the library
    documents. *)

From S2P Require Import Prelude Lambdastore Request Erasure.

Section dummy.
Implicit Types (data : bytes) (per n : nat).

Lemma joinWrite_nil k n : joinWrite noError k 0 (replicate n None) = Done (replicate n [], None).
Proof. revert k. induction n as [|n IH]; intros k; simpl; [done|]. by rewrite IH. Qed.
Lemma concat_replicate_nil n : concat (replicate n ([] : bytes)) = [].
Proof. induction n; simpl; auto. Qed.

Lemma joinWrite_split per n : ∀ k data (o : nat), (0 < per)%nat → (length data ≤ n * per)%nat →
  (o ≤ length data)%nat →
  ∃ ws, joinWrite noError k (Z.of_nat o) (splitLoop n per data) = Done (ws, None) ∧
    concat ws = take o data.
Proof.
  induction n as [|n IH]; intros k data o Hper Hlen Ho; simpl.
  { exists []. split; [done|]. destruct data; [by rewrite take_nil|simpl in *; lia]. }
  case_decide as Hd; simpl.
  - rewrite length_take, Nat.min_l by done. case_decide as Hw.
    + rewrite decide_False by lia. eexists. split; [reflexivity|]. simpl.
      rewrite app_nil_r, take_take, Nat2Z.id. f_equal. lia.
    + replace (Z.of_nat o - Z.of_nat per) with (Z.of_nat (o - per)) by lia.
      destruct (IH (S k) (drop per data) (o - per)%nat) as (ws&Hr&Hc);
        [done|rewrite length_drop; lia|rewrite length_drop; lia|].
      change (noError k) with (@None string). cbv iota. rewrite Hr. eexists. split; [reflexivity|]. simpl. rewrite Hc.
      rewrite take_take_drop. f_equal. lia.
  - case_decide as Hw.
    + rewrite decide_False by lia. eexists. split; [reflexivity|]. simpl.
      by rewrite app_nil_r, Nat2Z.id.
    + assert (o = length data) as -> by lia. change (noError k) with (@None string). cbv iota.
      rewrite Z.sub_diag, joinWrite_nil. eexists. split; [reflexivity|]. simpl.
      by rewrite concat_replicate_nil, app_nil_r, take_ge.
Qed.

Lemma joinSize_split per n : ∀ data size o, (0 < per)%nat → (length data ≤ n * per)%nat →
  data ≠ [] → o ≤ size + Z.of_nat (length data) →
  ∃ size', joinSize size o (splitLoop n per data) = inl size' ∧ o ≤ size'.
Proof.
  induction n as [|n IH]; intros data size o Hper Hlen Hne Ho; [destruct data; simpl in *; [done|lia]|].
  simpl. case_decide as Hd; simpl.
  - rewrite length_take, Nat.min_l by done. case_decide as Hs; [eauto|].
    apply IH; [done|rewrite length_drop; lia| |rewrite length_drop; lia].
    intros E. apply (f_equal length) in E. rewrite length_drop in E. simpl in E. lia.
  - rewrite decide_True by lia. eauto.
Qed.

Lemma length_splitLoop per n data : length (splitLoop n per data) = n.
Proof.
  revert data. induction n as [|n IH]; intros data; simpl; [done|]. case_decide; simpl; [by rewrite IH|].
  by rewrite length_replicate.
Qed.

(** The shard size is the length divided by the number of shards, rounded up. *)
Lemma perShard_spec d len : 0 < d → 0 < len →
  0 < perShard d len ∧ (d * perShard d len < len + d) ∧ len ≤ d * perShard d len.
Proof.
  intros Hd Hl. unfold perShard. rewrite Z.quot_div_nonneg by lia.
  pose proof (Z.div_mod (len + d - 1) d) as E. pose proof (Z.mod_pos_bound (len + d - 1) d).
  assert (0 < (len + d - 1) / d) by (apply Z.div_str_pos; lia). nia.
Qed.

(** C17: joining what the dummy encoder split gives back the object: for every
    non-empty object and number of shards, [Split] succeeds and [Join] writes
    its first [o] bytes, whatever [o] up to its length. *)
Theorem dummy_roundtrip enc data (o : nat) :
  0 < encShards enc → data ≠ [] → (o ≤ length data)%nat →
  ∃ shards ws, Dummy_Split enc data = Done (inl shards) ∧
    Z.of_nat (length shards) = encShards enc ∧
    Dummy_Join noError enc shards (Z.of_nat o) = Done (ws, None) ∧ concat ws = take o data.
Proof.
  intros Hd Hne Ho. assert (Hlen : length data ≠ 0%nat) by (by destruct data).
  destruct (perShard_spec (encShards enc) (Z.of_nat (length data))) as (P1&P2&P3); [lia..|].
  set (per := Z.to_nat (perShard (encShards enc) (Z.of_nat (length data)))) in *.
  set (n := Z.to_nat (encShards enc)) in *.
  assert (Hcov : (length data ≤ n * per)%nat) by (unfold n, per; nia).
  destruct (joinWrite_split per n 0 data o) as (ws&Hr&Hc); [unfold per; lia|done..|].
  destruct (joinSize_split per n data 0 (Z.of_nat o)) as (size&Hs&Hle); [unfold per; lia|done|done|lia|].
  exists (splitLoop n per data), ws. unfold Dummy_Split, Dummy_Join. fold n per.
  rewrite length_splitLoop. unfold n at 2 3. rewrite !decide_False by lia.
  split_and!; [done|lia| |done].
  rewrite take_ge by (rewrite length_splitLoop; lia). rewrite Hs. rewrite decide_False by lia. exact Hr.
Qed.

Lemma split_nonempty per n data : (0 < per)%nat →
  existsb (λ s : shard, bool_decide (slen s = 0%nat)) (splitLoop (S n) per data) = false ↔
  (n * per < length data)%nat.
Proof.
  intros Hper. revert data. induction n as [|n IH]; intros data.
  - simpl. case_decide as Hd; simpl; unfold slen; simpl; rewrite orb_false_r, bool_decide_eq_false.
    + rewrite length_take. lia.
    + lia.
  - remember (S n) as n1 eqn:En. simpl. case_decide as Hd; simpl; rewrite orb_false_iff.
    + unfold slen at 1; simpl. rewrite bool_decide_eq_false, length_take, IH, length_drop. lia.
    + subst n1. split; [by intros [_ E]|lia].
Qed.

(** Which objects the dummy encoder accepts: the shards it splits verify
    exactly when all shards but the last can be filled and a byte is left for
    the last one; in particular, all objects longer than [(d-1)^2] bytes are. *)
Theorem dummy_accepts enc data shards :
  Dummy_Split enc data = Done (inl shards) →
  let d := encShards enc in let len := Z.of_nat (length data) in
  ((Dummy_Verify enc shards).1 = true ↔ (d - 1) * perShard d len < len) ∧
  ((d - 1) * (d - 1) < len → (Dummy_Verify enc shards).1 = true).
Proof.
  intros Hs d len. unfold Dummy_Split in Hs. fold d len in Hs.
  case_decide as Hl; [done|]. case_decide as Hd0; [done|]. case_decide as Hd1; [done|].
  injection Hs as <-. destruct (perShard_spec d len) as (P1&P2&P3); [lia|unfold len; lia|].
  assert (Hiff : (Dummy_Verify enc (splitLoop (Z.to_nat d) (Z.to_nat (perShard d len)) data)).1 = true ↔
    (d - 1) * perShard d len < len).
  { unfold Dummy_Verify. fold d. rewrite length_splitLoop, decide_False by lia.
    destruct (Z.to_nat d) as [|n] eqn:En; [lia|].
    pose proof (split_nonempty (Z.to_nat (perShard d len)) n data ltac:(lia)) as Hne.
    destruct (existsb _ _); simpl.
    - split; [done|]. intros Hlt. destruct Hne as [_ Hne]. discriminate Hne. unfold len in *. nia.
    - split; [|done]. intros _. destruct Hne as [Hne _]. specialize (Hne eq_refl). unfold len in *. nia. }
  split; [exact Hiff|]. intros Hbig. apply Hiff. nia.
Qed.
End dummy.

Section dummy_witness.
#[local] Open Scope byte_scope.
Lemma dummy_roundtrip_witness : ∃ shards ws,
  Dummy_Split (MkDummyEncoder 3) ["a"; "b"; "c"; "d"] = Done (inl shards) ∧
  Dummy_Join noError (MkDummyEncoder 3) shards 4 = Done (ws, None) ∧ concat ws = ["a"; "b"; "c"; "d"].
Proof.
  destruct (dummy_roundtrip (MkDummyEncoder 3) ["a"; "b"; "c"; "d"] 4) as (shards&ws&H1&_&H2&H3);
    [reflexivity|discriminate|simpl; lia|].
  exists shards, ws. split; [exact H1|]. split; [exact H2|exact H3].
Defined.

(** Four bytes cannot be stored in three shards, five can. *)
Lemma dummy_accepts_witness :
  (Dummy_Verify (MkDummyEncoder 3) [Some ["a"; "b"]; Some ["c"; "d"]; Some []]).1 ≠ true ∧
  (Dummy_Verify (MkDummyEncoder 3) [Some ["a"; "b"]; Some ["c"; "d"]; Some ["e"]]).1 = true.
Proof.
  split.
  - intros E. destruct (dummy_accepts (MkDummyEncoder 3) ["a"; "b"; "c"; "d"]
      [Some ["a"; "b"]; Some ["c"; "d"]; Some []] eq_refl) as [[Hiff _] _].
    specialize (Hiff E). vm_compute in Hiff. discriminate Hiff.
  - apply (dummy_accepts (MkDummyEncoder 3) ["a"; "b"; "c"; "d"; "e"]
      [Some ["a"; "b"]; Some ["c"; "d"]; Some ["e"]] eq_refl). reflexivity.
Defined.
End dummy_witness.

(** ** The mirror: one data shard and one copy *)

Inductive Mirror : Set := mirror.

Definition mirror_Verify (l : list shard) : bool * error :=
  match l with
  | [Some a; Some b] => if decide (a ≠ [] ∧ a = b) then (true, None) else (false, None)
  | _ => (false, Some ErrTooFewShards)
  end.
#[global] Instance mirror_Encoder : Encoder Mirror := {
  Split _ data := Done (match data with [] => inr ErrShortData | _ => inl [Some data; None] end);
  Encode _ l := match l with [Some a; _] => ([Some a; Some a], None) | _ => (l, Some ErrTooFewShards) end;
  Verify _ := mirror_Verify;
  Reconstruct _ l := match l with
    | [Some a; _] => ([Some a; Some a], None)
    | [None; Some a] => ([Some a; Some a], None)
    | _ => (l, Some ErrTooFewShards) end;
  Join wr _ l n := match l with
    | Some a :: _ => Done ([take (Z.to_nat n) a], wr 0%nat) | _ => Done ([], Some ErrReconstructRequired) end
}.

Lemma mirror_encodes data full : encodes mirror data full ↔ data ≠ [] ∧ full = [Some data; Some data].
Proof.
  unfold encodes; simpl. destruct data as [|a l]; [naive_solver|]. split.
  - intros (s&E&H). injection E as <-. injection H as <-. done.
  - intros [_ ->]. eexists. done.
Qed.

#[global] Instance mirror_code : ErasureCode Mirror mirror 1 1.
Proof.
  split.
  - intros data Hd. eexists. by apply mirror_encodes.
  - intros data full [_ ->]%mirror_encodes. done.
  - intros data full i [Hd ->]%mirror_encodes Hi. exists data. by destruct i as [|[|i]]; [..|lia].
  - intros data full [Hd ->]%mirror_encodes. simpl. by rewrite decide_True.
  - intros data full part [Hd ->]%mirror_encodes Hp Hne.
    unfold partial in Hp. destruct part as [|a [|b [|]]]; repeat (apply Forall2_cons_1 in Hp as [? Hp]);
      simpl; [done..| | |]; try by inversion Hp.
    destruct a, b; naive_solver.
  - intros data full part [Hd ->]%mirror_encodes Hp Hpres.
    destruct part as [|a [|b [|]]]; repeat (apply Forall2_cons_1 in Hp as [? Hp]); try by inversion Hp.
    destruct a as [a|]; [naive_solver|]. destruct b as [b|]; [naive_solver|]. vm_compute in Hpres. lia.
  - intros data full part [Hd ->]%mirror_encodes Hp Hpres.
    destruct part as [|a [|b [|]]]; repeat (apply Forall2_cons_1 in Hp as [? Hp]); try by inversion Hp.
    destruct a as [a|]; [vm_compute in Hpres; lia|]. destruct b as [b|]; [vm_compute in Hpres; lia|].
    simpl. eauto.
  - intros data full n [Hd ->]%mirror_encodes Hn. simpl. eexists. split; [reflexivity|]. simpl.
    by rewrite app_nil_r, Nat2Z.id.
Qed.
