(* ===== verification/Client.v ===== *)
(** * client/client.go, client/ecRedis.go: the client

    An object is split into shards, one request per shard is sent over the
    shard's own connection, and the answers are collected.  Each request runs
    in a goroutine; they touch separate slots but for [ecRet.Err], so that they
    run here one after the other in the order in which they end, which is a
    parameter.  What dialling, writing and reading give are parameters too, and
    so are the host the ring locates, the random permutation and the uuids. *)

From Stdlib Require String.
From stdpp Require Import pretty.
From S2P Require Import Prelude Lambdastore Request Connection Erasure Proxy.

(** ** Data *)

(** The errors the client tells apart: [io.EOF], a timeout, any other. *)
Inductive cerr : Type :=
  | EOF
  | NetTimeout (msg : string)
  | EOther (msg : string).

(** The calls on the request writer of a connection. *)
Inductive COp : Type :=
  | CMultiBulkSize (n : Z)
  | CBulkString (s : string)
  | CCmdString (args : list string)
  | CCopyBulk (b : bytes)
  | CFlush.

(** [Conn]: the calls made on its writer. *)
Record Conn : Type := MkConn { W : list COp }.

(** [DataEntry], without times. *)
Record DataEntry : Type := MkDataEntry { deReqId : string; AllGood : bool; Corrupted : bool }.

(** [ecRet]: an entry is nil, a value or an error. *)
Inductive Ret : Type :=
  | RetBytes (b : bytes)
  | RetError (e : cerr).
Record ecRet : Type := MkEcRet { Rets : list (option Ret); Err : option cerr }.

Definition MaxLambdaStores : Z := NumLambdaClusters.
Definition ErrUnexpectedResponse : string := "Unexpected response".

Section client.
Context {E : Type} `{Encoder E}.
#[local] Open Scope string_scope.

Record Client : Type := MkClient {
  Conns : gmap string (list (option Conn));
  EC : E;
  Data : DataEntry;
  cDataShards : Z;
  cParityShards : Z;
  Shards : Z
}.
#[global] Instance Client_eta : Eta Client := λ c,
  MkClient (Conns c) (EC c) (Data c) (cDataShards c) (cParityShards c) (Shards c).
#[global] Instance ecRet_eta : Eta ecRet := λ r, MkEcRet (Rets r) (Err r).
#[global] Instance DataEntry_eta : Eta DataEntry := λ d, MkDataEntry (deReqId d) (AllGood d) (Corrupted d).
#[global] Instance Conn_eta : Eta Conn := λ c, MkConn (W c).

(** [NewClient] on the encoder that [NewEncoder] made. *)
Definition NewClient (ec : E) (dataShards parityShards : Z) : Client :=
  MkClient ∅ ec (MkDataEntry "" false false) dataShards parityShards (dataShards + parityShards).

(** ** Connections *)

(** [c.Conns[address][i]] *)
Definition connAt (address : string) (i : nat) : M Client (option Conn) := λ c,
  expect PIndex (default [] (Conns c !! address) !! i) c.
Definition putConn (address : string) (i : nat) (cn : option Conn) : M Client unit :=
  _ ← connAt address i;
  modify (λ c, c <| Conns ::= alter (insert i cn) address |>).

Definition connect (dial : option cerr) (address : string) (i : nat) : M Client (option cerr) :=
  match dial with
  | Some e => mret (Some e)
  | None => putConn address i (Some (MkConn []));; mret None
  end.

Definition disconnect (address : string) (i : nat) : M Client unit :=
  cn ← connAt address i;
  match cn with
  | Some _ => putConn address i None
  | None => mret ()
  end.

(** [Client.validate] *)
Definition validate (dial : option cerr) (address : string) (i : nat) : M Client (option cerr) :=
  cn ← connAt address i;
  match cn with
  | None => connect dial address i
  | Some _ => mret None
  end.

(** [initDial]: the connections from the [i]-th on; [dial i] is the outcome of
    dialling the [i]-th. *)
Fixpoint dialFrom (dial : nat → option cerr) (address : string) (i n : nat) : M Client (option cerr) :=
  match n with
  | O => mret None
  | S n' =>
      err ← connect (dial i) address i;
      match err with
      | Some e => mret (Some e)
      | None => dialFrom dial address (S i) n'
      end
  end.
Definition initDial (dial : nat → option cerr) (address : string) : M Client (option cerr) :=
  c ← mget;
  if decide (Shards c < 0) then throw PMake else
  modify (λ c, c <| Conns ::= <[address := replicate (Z.to_nat (Shards c)) None]> |>);;
  dialFrom dial address 0 (Z.to_nat (Shards c)).

(** [Client.Close] closes every connection. *)
Definition Client_Close : M Client unit :=
  modify (λ c, c <| Conns ::= (λ m, (λ l : list (option Conn), replicate (length l) None) <$> m) |>).

(** [Dial] over the addresses. *)
Fixpoint Dial (dial : string → nat → option cerr) (addrArr : list string) : M Client bool :=
  match addrArr with
  | [] => mret true
  | addr :: l =>
      err ← initDial (dial addr) addr;
      match err with
      | Some _ => Client_Close;; mret false
      | None => Dial dial l
      end
  end.

(** ** Results *)

Definition newEcRet (shards : Z) : res ecRet :=
  if decide (shards < 0) then Panics PMake else Done (MkEcRet (replicate (Z.to_nat shards) None) None).
Definition Ret_Set (i : nat) (b : bytes) (r : ecRet) : ecRet := r <| Rets ::= insert i (Some (RetBytes b)) |>.
Definition Ret_SetError (i : nat) (e : cerr) (r : ecRet) : ecRet :=
  r <| Rets ::= insert i (Some (RetError e)) |> <| Err := Some e |>.
(** [Ret(i)] and [Error(i)] of an entry: failed type assertions give nil. *)
Definition Ret_Ret (o : option Ret) : shard := match o with Some (RetBytes b) => Some b | _ => None end.
Definition Ret_Error (o : option Ret) : option cerr := match o with Some (RetError e) => Some e | _ => None end.

(** The client and the results of one operation. *)
Abbreviation CS := (Client * ecRet)%type.
Definition onC {A} (k : M Client A) : M CS A := zoom fst (λ c s, (c, s.2)) k.
Definition retMod (i : nat) (f : ecRet → ecRet) : M CS unit := λ s,
  if decide (i < length (Rets s.2))%nat then Done ((), (s.1, f s.2)) else Panics PIndex.

Definition setError (addr : string) (i : nat) (e : cerr) : M CS unit :=
  match e with
  | EOF | NetTimeout _ => onC (disconnect addr i)
  | EOther _ => mret ()
  end;;
  retMod i (Ret_SetError i e).

(** Writing to the connection of a shard. *)
Definition cwrite (addr : string) (i : nat) (ops : list COp) : M Client unit :=
  cn ← connAt addr i;
  cn ← expect PNil cn;
  putConn addr i (Some (cn <| W ::= (λ l, (l ++ ops)%list) |>)).

(** ** One shard *)

(** What reading an answer gives: the peek, an error response, the request id,
    the chunk id, the stream and its content. *)
Record RecIO : Type := MkRecIO {
  rPeek : cerr + bool;
  rError : cerr + string;
  rReqId : cerr + string;
  rChunkId : cerr + string;
  rStream : option cerr;
  rAll : cerr + bytes
}.

Definition rec (addr : string) (i : nat) (reqId : string) (io : RecIO) : M CS unit :=
  cn ← onC (connAt addr i);
  _ ← expect PNil cn;
  match rPeek io with
  | inl e => setError addr i e
  | inr true =>
      setError addr i (match rError io with inl e => e | inr s => EOther s end)
  | inr false =>
      match rReqId io with
      | inl e => setError addr i e
      | inr respId =>
          if decide (respId ≠ reqId) then retMod i (Ret_SetError i (EOther ErrUnexpectedResponse)) else
          match rChunkId io with
          | inl e => setError addr i e
          | inr chunkId =>
              if decide (chunkId = "-1") then mret () else
              match rStream io with
              | Some e => setError addr i e
              | None =>
                  match rAll io with
                  | inl e => setError addr i e
                  | inr val => retMod i (Ret_Set i val)
                  end
              end
          end
      end
  end.

(** Dialling, copying the value, flushing, and the answer. *)
Record ShardIO : Type := MkShardIO {
  sDial : option cerr; sCopy : option cerr; sFlush : option cerr; sRec : RecIO
}.

Definition setFrame (c : Client) (key : string) (i : nat) (lambdaId : Z) (reqId : string) : list COp :=
  [CMultiBulkSize 9; CBulkString "set"; CBulkString key; CBulkString (pretty i);
   CBulkString (pretty lambdaId); CBulkString (pretty MaxLambdaStores); CBulkString reqId;
   CBulkString (pretty (cDataShards c)); CBulkString (pretty (cParityShards c))].

Definition getFrame (c : Client) (key : string) (i : nat) (reqId : string) : list COp :=
  [CCmdString ["get"; key; pretty i; reqId; pretty (cDataShards c); pretty (cParityShards c)]].

(** [Client.set] *)
Definition Client_set (addr key : string) (val : shard) (i : nat) (lambdaId : Z) (reqId : string)
    (io : ShardIO) : M CS unit :=
  err ← onC (validate (sDial io) addr i);
  match err with
  | Some e => setError addr i e
  | None =>
      s ← mget;
      onC (cwrite addr i (setFrame s.1 key i lambdaId reqId ++ [CCopyBulk (default [] val)])%list);;
      match sCopy io with
      | Some e => setError addr i e
      | None =>
          onC (cwrite addr i [CFlush]);;
          match sFlush io with
          | Some e => setError addr i e
          | None => rec addr i reqId (sRec io)
          end
      end
  end.

(** [Client.get] *)
Definition Client_get (addr key : string) (i : nat) (reqId : string) (io : ShardIO) : M CS unit :=
  err ← onC (validate (sDial io) addr i);
  match err with
  | Some e => setError addr i e
  | None =>
      s ← mget;
      onC (cwrite addr i (getFrame s.1 key i reqId));;
      onC (cwrite addr i [CFlush]);;
      match sFlush io with
      | Some e => setError addr i e
      | None => rec addr i reqId (sRec io)
      end
  end.

(** ** Objects *)

(** [encode]: the shards, or nil, and an error. *)
Definition encode (obj : bytes) : M Client (list shard * error) := λ c,
  match Split (EC c) obj with
  | Panics e => Panics e
  | Spins => Spins
  | Done (inr e) => Done ([], Some e, c)
  | Done (inl shards) =>
      match Encode (EC c) shards with
      | (_, Some e) => Done ([], Some e, c)
      | (shards, None) =>
          match Verify (EC c) shards with
          | (false, err) => Done ([], err, c)
          | (true, err) => Done (shards, err, c)
          end
      end
  end.

(** [decode]: the shards as it leaves them, the reader (the shards joined into
    it) or nil, and an error. *)
Definition decode (data : list shard) : M Client (list shard * option (list shard) * error) := λ c,
  let ok := (Verify (EC c) data).1 in
  let c := c <| Data ::= (λ d, d <| AllGood := ok |>) |> in
  if ok then Done (data, Some data, None, c)
  else
    match Reconstruct (EC c) data with
    | (data, Some e) => Done (data, None, Some e, c)
    | (data, None) =>
        let '(good, err) := Verify (EC c) data in
        let c := c <| Data ::= (λ d, d <| Corrupted := good |>) |> in
        if (good : bool) then Done (data, Some data, None, c) else Done (data, None, err, c)
    end.

(** Runs a goroutine per shard, in the order they end. *)
Definition inOrder (order : list nat) (body : nat → M CS unit) : M CS unit := mfor order body.

(** A computation with a fresh [ecRet]. *)
Definition withRet {A} (k : M CS A) : M Client (A * ecRet) := λ c,
  match newEcRet (Shards c) with
  | Panics e => Panics e
  | Spins => Spins
  | Done r =>
      match k (c, r) with
      | Done (a, (c', r')) => Done (a, r', c')
      | Panics e => Panics e
      | Spins => Spins
      end
  end.

(** [strconv.Atoi(string(ret))] of every result. *)
Fixpoint placementsOf (l : list (option Ret)) : res (list Z) :=
  match l with
  | [] => Done []
  | Some (RetBytes b) :: l' =>
      match placementsOf l' with
      | Done zs => Done (Atoi (String.string_of_list_byte b) :: zs)
      | Panics e => Panics e
      | Spins => Spins
      end
  | _ => Panics PType
  end.

(** The first addresses of the map, in the order it is iterated, whose filter
    has the key. *)
Fixpoint getHost {F} (Lookup : F → string → bool) (MappingTable : list (string * F)) (key : string) : string * bool :=
  match MappingTable with
  | [] => ("", false)
  | (addr, filter) :: l => if Lookup filter key then (addr, true) else getHost Lookup l key
  end.

(** [random]: [perm] is [rand.Perm(cluster)]. *)
Definition random {S} (perm : list Z) (n : Z) : M S (list Z) :=
  if decide (n < 0 ∨ Z.of_nat (length perm) < n) then throw PSlice else mret (take (Z.to_nat n) perm).

(** [EcSet]: success, and the placements when the caller asked for them.
    [perm] is the random permutation; [wanted] that [placements] is not nil. *)
Definition EcSet (host uuid : string) (perm : list Z) (order : list nat) (io : nat → ShardIO)
    (dryrun : Z) (wanted : bool) (key : string) (val : bytes) : M Client (bool * option (list Z)) :=
  modify (λ c, c <| Data ::= (λ d, d <| deReqId := uuid |>) |>);;
  c ← mget;
  index ← random perm (Shards c);
  if bool_decide (0 < dryrun) && wanted then mret (true, Some index) else
  '(shards, err) ← encode val;
  match err with
  | Some _ => mret (false, None)
  | None =>
      if decide (Z.of_nat (length shards) < Shards c) then throw PIndex else
      '(_, r) ← withRet (inOrder order (λ i,
        sh ← expect PIndex (shards !! i);
        lambdaId ← expect PIndex (index !! i);
        Client_set host key sh i lambdaId uuid (io i)));
      match Err r with
      | Some _ => mret (false, None)
      | None =>
          if wanted then
            match placementsOf (Rets r) with
            | Done zs => mret (true, Some zs)
            | Panics e => throw e
            | Spins => blocked
            end
          else mret (true, None)
      end
  end.

(** The failed entries. *)
Definition failedOf (l : list (option Ret)) : list nat :=
  filter (λ i, is_Some (Ret_Error (default None (l !! i)))) (seq 0 (length l)).

(** [Client.recover] *)
Definition recover (order : list nat) (io : nat → ShardIO) (addr key reqId : string)
    (shards : list shard) : M Client ecRet :=
  '(_, r) ← withRet (inOrder order (λ i,
    sh ← expect PIndex (shards !! i);
    Client_set addr key sh i 0 reqId (io i)));
  mret r.

(** [EcGet]: the reader, or nil, and success.  [reorder] gives the order in
    which the recovering requests end. *)
Definition EcGet (host uuid uuid' : string) (order : list nat) (io io' : nat → ShardIO)
    (reorder : list nat → list nat) (dryrun : Z) (key : string) :
    M Client (option (list shard) * bool) :=
  modify (λ c, c <| Data ::= (λ d, d <| deReqId := uuid |>) |>);;
  if decide (0 < dryrun) then mret (None, true) else
  '(_, r) ← withRet (inOrder order (λ i, Client_get host key i uuid (io i)));
  let chunks := Ret_Ret <$> Rets r in
  let failed := failedOf (Rets r) in
  '(chunks, reader, err) ← decode chunks;
  match err with
  | Some _ => mret (None, false)
  | None =>
      (match failed with
       | [] => mret ()
       | _ => recover (reorder failed) io' host key uuid' chunks;; mret ()
       end);;
      mret (reader, true)
  end.
End client.
Arguments Client E : clear implicits.
