(* ===== verification/ClientTheorems.v ===== *)
(** * What the client guarantees

    A read succeeds, with the object's bytes, as long as any [d] shards arrive,
    and re-sends the shards that failed; the dummy encoder apart, against any
    erasure code as the library documents it. *)

From stdpp Require Import pretty.
From S2P Require Import Prelude Lambdastore Request Connection Erasure ErasureTheorems Proxy Client.

Section client.
Context {E : Type} {HE : Encoder E}.
Implicit Types (c : Client E) (r : ecRet) (l : list (option Conn)).

(** ** One entry of the connections of a host *)

Definition upd (host : string) l c : Client E := c <| Conns := <[host := l]> (Conns c) |>.

Lemma upd_upd host l l' c : upd host l (upd host l' c) = upd host l c.
Proof. unfold upd; simpl. by rewrite insert_insert_eq. Qed.
Lemma upd_lookup host l c : Conns (upd host l c) !! host = Some l.
Proof. apply lookup_insert_eq. Qed.
Lemma upd_id host l c : Conns c !! host = Some l → upd host l c = c.
Proof. intros Hl. unfold upd. rewrite insert_id by done. by destruct c. Qed.

Lemma connAt_run host i l c cn : Conns c !! host = Some l → l !! i = Some cn →
  connAt host i c = Done (cn, c).
Proof. intros Hl Hi. unfold connAt. rewrite Hl. simpl. by rewrite Hi. Qed.

Lemma putConn_run host i l c cn x : Conns c !! host = Some l → l !! i = Some cn →
  putConn host i x c = Done ((), upd host (<[i := x]> l) c).
Proof.
  intros Hl Hi. unfold putConn. erewrite bind_done by (by eapply connAt_run).
  assert (Ea : alter (insert i x) host (Conns c) = <[host := <[i := x]> l]> (Conns c)).
  { apply map_eq. intros k. destruct (decide (k = host)) as [->|].
    - by rewrite lookup_alter_eq, lookup_insert_eq, Hl.
    - by rewrite lookup_alter_ne, lookup_insert_ne. }
  unfold modify, upd; simpl. by rewrite Ea.
Qed.

(** A computation that leaves the client but for one entry. *)
Definition entry_post (host : string) l i c (c' : Client E) : Prop :=
  ∃ cn, c' = upd host (<[i := cn]> l) c.

Lemma entry_refl host l i c cn : Conns c !! host = Some l → l !! i = Some cn → entry_post host l i c c.
Proof. intros Hl Hi. exists cn. by rewrite list_insert_id, upd_id. Qed.
Lemma entry_put host l i c c' cn x : l !! i = Some cn → entry_post host l i c c' →
  ∃ c'', putConn host i x c' = Done ((), c'') ∧ entry_post host l i c c''.
Proof.
  intros Hi [y ->]. eexists. split.
  - eapply putConn_run; [apply upd_lookup|]. rewrite list_lookup_insert_eq; [done|]. by eapply lookup_lt_Some.
  - exists x. by rewrite upd_upd, list_insert_insert_eq.
Qed.
Lemma entry_at host l i c c' cn : l !! i = Some cn → entry_post host l i c c' →
  ∃ y, connAt host i c' = Done (y, c').
Proof.
  intros Hi [y ->]. exists y. eapply connAt_run; [apply upd_lookup|].
  rewrite list_lookup_insert_eq; [done|]. by eapply lookup_lt_Some.
Qed.

(** ** What a request leaves in its slot *)

Definition recResult (reqId : string) (io : RecIO) : option Ret :=
  match rPeek io with
  | inl e => Some (RetError e)
  | inr true => Some (RetError (match rError io with inl e => e | inr s => EOther s end))
  | inr false =>
      match rReqId io with
      | inl e => Some (RetError e)
      | inr respId =>
          if decide (respId ≠ reqId) then Some (RetError (EOther ErrUnexpectedResponse)) else
          match rChunkId io with
          | inl e => Some (RetError e)
          | inr chunkId =>
              if decide (chunkId = "-1") then None else
              match rStream io, rAll io with
              | Some e, _ => Some (RetError e)
              | None, inl e => Some (RetError e)
              | None, inr b => Some (RetBytes b)
              end
          end
      end
  end.
Definition getResult (reqId : string) (cn : option Conn) (io : ShardIO) : option Ret :=
  match cn, sDial io with
  | None, Some e => Some (RetError e)
  | _, _ => match sFlush io with Some e => Some (RetError e) | None => recResult reqId (sRec io) end
  end.
Definition setResult (reqId : string) (cn : option Conn) (io : ShardIO) : option Ret :=
  match cn, sDial io with
  | None, Some e => Some (RetError e)
  | _, _ =>
      match sCopy io, sFlush io with
      | Some e, _ => Some (RetError e)
      | None, Some e => Some (RetError e)
      | None, None => recResult reqId (sRec io)
      end
  end.

(** The slot of the results after it. *)
Definition record (i : nat) (x : option Ret) r : ecRet :=
  match x with
  | None => r
  | Some (RetBytes b) => Ret_Set i b r
  | Some (RetError e) => Ret_SetError i e r
  end.

Section entry.
Context (host : string) (i : nat) (l : list (option Conn)) (c : Client E) (cn : option Conn).
Context (Hi : l !! i = Some cn).
Context (r : ecRet) (Hr : (i < length (Rets r))%nat).

Definition leaves (k : M (Client E * ecRet) unit) (c' : Client E) (x : option Ret) : Prop :=
  ∃ c'', k (c', r) = Done ((), (c'', record i x r)) ∧ entry_post host l i c c''.

Lemma retMod_leaves c' x : entry_post host l i c c' → leaves (retMod i (record i x)) c' x.
Proof. intros He. exists c'. unfold retMod. simpl. by rewrite decide_True. Qed.

Lemma setError_leaves c' e : entry_post host l i c c' →
  leaves (setError host i e) c' (Some (RetError e)).
Proof.
  intros He.
  assert (Hd : ∃ c1, onC (disconnect host i) (c', r) = Done ((), (c1, r)) ∧ entry_post host l i c c1).
  { destruct (entry_at _ _ _ _ _ _ Hi He) as [y Hy]. unfold onC, zoom, disconnect. simpl.
    erewrite bind_done by exact Hy. destruct y as [y|]; [|by exists c'].
    destruct (entry_put host l i c c' cn None Hi He) as (c1&Hp&He1). rewrite Hp. by exists c1. }
  unfold setError, leaves.
  destruct e; [destruct Hd as (c1&Hd&He1); erewrite bind_done by exact Hd; by apply (retMod_leaves c1 (Some (RetError _)))..|].
  erewrite bind_done by reflexivity. by apply (retMod_leaves c' (Some (RetError (EOther msg)))).
Qed.

Lemma rec_leaves c' y reqId io : entry_post host l i c c' → connAt host i c' = Done (Some y, c') →
  leaves (rec host i reqId io) c' (recResult reqId io).
Proof.
  intros He Hy. unfold leaves, rec.
  erewrite bind_done by (unfold onC, zoom; simpl; rewrite Hy; reflexivity).
  erewrite bind_done by reflexivity. unfold recResult.
  destruct (rPeek io) as [e|[]]; [by apply setError_leaves..|].
  destruct (rReqId io) as [e|id]; [by apply setError_leaves|].
  case_decide; [by apply (retMod_leaves c' (Some (RetError (EOther ErrUnexpectedResponse))))|].
  destruct (rChunkId io) as [e|ch]; [by apply setError_leaves|].
  case_decide; [by exists c'|]. destruct (rStream io) as [e|]; [by apply setError_leaves|].
  destruct (rAll io) as [e|b]; [by apply setError_leaves|]. by apply (retMod_leaves c' (Some (RetBytes b))).
Qed.

(** A connection is there. *)
Definition open_at c' : Prop := entry_post host l i c c' ∧ ∃ y, connAt host i c' = Done (Some y, c').

Lemma putConn_open c' y : entry_post host l i c c' →
  ∃ c'', putConn host i (Some y) c' = Done ((), c'') ∧ open_at c''.
Proof.
  intros [z ->]. assert (Hlt : (i < length l)%nat) by (by eapply lookup_lt_Some).
  eexists. split; [eapply putConn_run; [apply upd_lookup|by apply list_lookup_insert_eq]|].
  split.
  - exists (Some y). by rewrite upd_upd, list_insert_insert_eq.
  - exists y. eapply connAt_run; [apply upd_lookup|]. apply list_lookup_insert_eq. by rewrite length_insert.
Qed.

Lemma cwrite_open c' ops : open_at c' →
  ∃ c'', onC (cwrite host i ops) (c', r) = Done ((), (c'', r)) ∧ open_at c''.
Proof.
  intros [He [y Hy]]. unfold onC, zoom, cwrite; cbn [fst snd]. erewrite bind_done by exact Hy.
  erewrite bind_done by reflexivity.
  destruct (putConn_open c' (y <| W ::= (λ w, w ++ ops) |>) He) as (c2&Hp&Ho). rewrite Hp. by exists c2.
Qed.

Lemma validate_leaves dial : Conns c !! host = Some l →
  match cn, dial with
  | None, Some e => onC (validate dial host i) (c, r) = Done (Some e, (c, r))
  | _, _ => ∃ c', onC (validate dial host i) (c, r) = Done (None, (c', r)) ∧ open_at c'
  end.
Proof.
  intros Hl. unfold onC, zoom, validate; cbn [fst snd].
  pose proof (connAt_run host i l c cn Hl Hi) as Ha. rewrite (bind_done _ _ _ _ _ Ha).
  pose proof (entry_refl host l i c cn Hl Hi) as He.
  destruct (putConn_open c (MkConn []) He) as (c2&Hp&Ho).
  destruct cn as [y|]; [exists c; split; [done|]; split; [done|by exists y]|].
  destruct dial as [e|]; [done|]. unfold connect. erewrite bind_done by exact Hp. by exists c2.
Qed.

Lemma get_leaves key reqId io : Conns c !! host = Some l →
  leaves (Client_get host key i reqId io) c (getResult reqId cn io).
Proof.
  intros Hl. pose proof (validate_leaves (sDial io) Hl) as Hv. unfold getResult.
  pose proof (entry_refl host l i c cn Hl Hi) as He.
  assert (Hgo : (∃ c', onC (validate (sDial io) host i) (c, r) = Done (None, (c', r)) ∧ open_at c') →
    leaves (Client_get host key i reqId io) c
      (match sFlush io with Some e => Some (RetError e) | None => recResult reqId (sRec io) end)).
  { intros (c1&Hv1&Ho1). unfold leaves, Client_get. erewrite bind_done by exact Hv1. cbv beta iota.
    erewrite bind_done by reflexivity.
    destruct (cwrite_open c1 (getFrame c1 key i reqId) Ho1) as (c2&Hw2&Ho2).
    erewrite bind_done by exact Hw2.
    destruct (cwrite_open c2 [CFlush] Ho2) as (c3&Hw3&Ho3). erewrite bind_done by exact Hw3.
    destruct Ho3 as [He3 [y Hy]].
    destruct (sFlush io) as [e|]; [by apply setError_leaves|by eapply rec_leaves]. }
  pose proof (λ e, setError_leaves c e He) as Hse.
  destruct cn as [y|]; [by apply Hgo|]. destruct (sDial io) as [e|] eqn:Ed; [|by apply Hgo].
  unfold leaves, Client_get. rewrite Ed. erewrite bind_done by exact Hv. cbv beta iota. apply Hse.
Qed.

Lemma set_leaves key val lambdaId reqId io : Conns c !! host = Some l →
  leaves (Client_set host key val i lambdaId reqId io) c (setResult reqId cn io).
Proof.
  intros Hl. pose proof (validate_leaves (sDial io) Hl) as Hv. unfold setResult.
  pose proof (entry_refl host l i c cn Hl Hi) as He.
  assert (Hgo : (∃ c', onC (validate (sDial io) host i) (c, r) = Done (None, (c', r)) ∧ open_at c') →
    leaves (Client_set host key val i lambdaId reqId io) c
      (match sCopy io, sFlush io with Some e, _ => Some (RetError e) | None, Some e => Some (RetError e)
       | None, None => recResult reqId (sRec io) end)).
  { intros (c1&Hv1&Ho1). unfold leaves, Client_set. erewrite bind_done by exact Hv1. cbv beta iota.
    erewrite bind_done by reflexivity.
    destruct (cwrite_open c1 (setFrame c1 key i lambdaId reqId ++ [CCopyBulk (default [] val)]) Ho1)
      as (c2&Hw2&Ho2). erewrite bind_done by exact Hw2.
    destruct (sCopy io) as [e|]; [apply setError_leaves, Ho2|].
    destruct (cwrite_open c2 [CFlush] Ho2) as (c3&Hw3&Ho3). erewrite bind_done by exact Hw3.
    destruct Ho3 as [He3 [y Hy]].
    destruct (sFlush io) as [e|]; [by apply setError_leaves|by eapply rec_leaves]. }
  pose proof (λ e, setError_leaves c e He) as Hse.
  destruct cn as [y|]; [by apply Hgo|]. destruct (sDial io) as [e|] eqn:Ed; [|by apply Hgo].
  unfold leaves, Client_set. rewrite Ed. erewrite bind_done by exact Hv. cbv beta iota. apply Hse.
Qed.
End entry.

(** ** All the shards *)

Lemma record_length i x r : length (Rets (record i x r)) = length (Rets r).
Proof. destruct x as [[]|]; simpl; by rewrite ?length_insert. Qed.
Lemma record_ne i j x r : i ≠ j → Rets (record i x r) !! j = Rets r !! j.
Proof. intros Hne. destruct x as [[]|]; simpl; by rewrite ?list_lookup_insert_ne. Qed.
Lemma record_eq i x r : (i < length (Rets r))%nat →
  Rets (record i x r) !! i = match x with Some y => Some (Some y) | None => Rets r !! i end.
Proof. intros Hi. destruct x as [[]|]; simpl; by rewrite ?list_lookup_insert_eq. Qed.
Lemma record_err i x r : Err (record i x r) = None ↔ Err r = None ∧ ∀ e, x ≠ Some (RetError e).
Proof. destruct x as [[]|]; simpl; naive_solver. Qed.

(** The slots after the requests of [order], which found the connections [l]. *)
Record finished (res : nat → option Conn → option Ret) (order : list nat) l r r' : Prop := {
  fi_length : length (Rets r') = length (Rets r);
  fi_other i : i ∉ order → Rets r' !! i = Rets r !! i;
  fi_slot i cn : i ∈ order → l !! i = Some cn →
    Rets r' !! i = match res i cn with Some y => Some (Some y) | None => Rets r !! i end;
  fi_err : Err r' = None ↔ Err r = None ∧ ∀ i cn e, i ∈ order → l !! i = Some cn →
    res i cn ≠ Some (RetError e)
}.

Lemma inOrder_run host body res order : 
  (∀ i c r l cn, l !! i = Some cn → (i < length (Rets r))%nat → Conns c !! host = Some l → i ∈ order →
    leaves host i l c r (body i) c (res i cn)) →
  NoDup order → ∀ c r l, Conns c !! host = Some l →
  (∀ i, i ∈ order → (i < length l)%nat ∧ (i < length (Rets r))%nat) →
  ∃ l' r', inOrder order body (c, r) = Done ((), (upd host l' c, r')) ∧
    length l' = length l ∧ (∀ i, i ∉ order → l' !! i = l !! i) ∧ finished res order l r r'.
Proof.
  intros Hbody Hnd. unfold inOrder.
  induction order as [|i order IH]; intros c r l Hl Hin; simpl.
  { exists l, r. rewrite upd_id by done. split_and!; [done..|].
    split; [done..|set_solver|]. split; [|tauto]. intros Hr. split; [done|set_solver]. }
  apply list.NoDup_cons in Hnd as [Hni Hnd].
  destruct (Hin i) as [Hi1 Hi2]; [by left|].
  destruct (lookup_lt_is_Some_2 l i Hi1) as [cn Hcn].
  destruct (Hbody i c r l cn Hcn Hi2 Hl) as (c1&Hr1&[cn' ->]); [by left|].
  erewrite bind_done by exact Hr1.
  destruct (IH) with (c := upd host (<[i := cn']> l) c) (r := record i (res i cn) r) (l := <[i := cn']> l)
    as (l'&r'&Hr'&El&Hother&[f1 f2 f3 f4]).
  { intros j cj rj lj cnj. intros. apply Hbody; [done..|by right]. }
  { done. }
  { apply upd_lookup. }
  { intros j Hj. rewrite length_insert, record_length. apply Hin. by right. }
  assert (Hj : ∀ j, j ∈ order → i ≠ j) by (intros j Hj ->; done).
  exists l', r'. rewrite upd_upd in Hr'. rewrite length_insert in El. split_and!; [exact Hr'|done| |].
  - intros j Hnj. rewrite Hother by set_solver. apply list_lookup_insert_ne. set_solver.
  - split.
    + by rewrite f1, record_length.
    + intros j Hnj. rewrite f2 by set_solver. apply record_ne. set_solver.
    + intros j cnj [->|Hjo]%elem_of_cons Hlj.
      * rewrite f2 by done. rewrite record_eq by done. by rewrite Hcn in Hlj; injection Hlj as ->.
      * rewrite (f3 j cnj) by (rewrite ?list_lookup_insert_ne; auto). by rewrite record_ne by auto.
    + rewrite f4, record_err. split.
      * intros [[He Hx] Hrest]. split; [done|]. intros j cnj e [->|Hjo]%elem_of_cons Hlj.
        -- rewrite Hcn in Hlj. injection Hlj as <-. apply Hx.
        -- eapply Hrest; [done|]. rewrite list_lookup_insert_ne; auto.
      * intros [He Hall]. split; [split; [done|]|].
        -- intros e. eapply Hall; [by left|done].
        -- intros j cnj e Hjo Hlj. rewrite list_lookup_insert_ne in Hlj by auto.
           eapply Hall; [by right|done].
Qed.

(** What the requests of a GET leave, shard by shard, and what arrived of the
    object. *)
Definition results (reqId : string) (io : nat → ShardIO) l : list (option Ret) :=
  imap (λ i cn, getResult reqId cn (io i)) l.
Definition arrived (reqId : string) (io : nat → ShardIO) l : list shard :=
  Ret_Ret <$> results reqId io l.

Lemma in_seq i n : i ∈ seq 0 n ↔ (i < n)%nat.
Proof. rewrite elem_of_seq. lia. Qed.

Lemma getAll_run host key reqId io order c l n :
  Conns c !! host = Some l → Shards c = Z.of_nat n → length l = n → order ≡ₚ seq 0 n →
  ∃ l' e, withRet (inOrder order (λ i, Client_get host key i reqId (io i))) c =
    Done ((), MkEcRet (results reqId io l) e, upd host l' c) ∧ length l' = n.
Proof.
  intros Hl Hn Hlen Hord. unfold withRet, newEcRet. rewrite Hn, decide_False by lia. rewrite Nat2Z.id.
  set (r0 := MkEcRet (replicate n None) None).
  assert (Hin : ∀ i, i ∈ order → (i < n)%nat) by (intros i; rewrite Hord; apply in_seq).
  destruct (inOrder_run host (λ i, Client_get host key i reqId (io i)) (λ i cn, getResult reqId cn (io i))
    order) with (c := c) (r := r0) (l := l) as (l'&r'&Hr&El&_&[f1 f2 f3 f4]).
  - intros i c1 r1 l1 cn Hi Hr Hc _. by apply get_leaves.
  - rewrite Hord. apply NoDup_seq.
  - done.
  - intros i Hi. rewrite Hlen. unfold r0; simpl. rewrite length_replicate. auto.
  - rewrite Hr. exists l', (Err r'). split; [|by rewrite El].
    assert (E1 : Rets r' = results reqId io l); [|by destruct r'; simpl in *; rewrite E1].
    apply list_eq. intros i. unfold results. rewrite list_lookup_imap.
    destruct (l !! i) as [cn|] eqn:Ei; simpl.
    + pose proof (lookup_lt_Some _ _ _ Ei).
      rewrite (f3 i cn); [|rewrite Hord; apply in_seq; lia|done].
      destruct (getResult reqId cn (io i)); [done|]. unfold r0; simpl. apply lookup_replicate_2. lia.
    + apply lookup_ge_None_2. rewrite f1. unfold r0; simpl. rewrite length_replicate.
      apply lookup_ge_None_1 in Ei. lia.
Qed.

Lemma setAll_run host key reqId io order (body : nat → M (Client E * ecRet) unit) c l n :
  Conns c !! host = Some l → Shards c = Z.of_nat n → length l = n → NoDup order →
  (∀ i, i ∈ order → (i < n)%nat ∧
    ∃ sh lambda, ∀ s, body i s = Client_set host key sh i lambda reqId (io i) s) →
  ∃ l' r', withRet (inOrder order body) c = Done ((), r', upd host l' c) ∧ length l' = n ∧
    finished (λ i cn, setResult reqId cn (io i)) order l (MkEcRet (replicate n None) None) r'.
Proof.
  intros Hl Hn Hlen Hnd Hin. unfold withRet, newEcRet. rewrite Hn, decide_False by lia.
  rewrite Nat2Z.id. set (r0 := MkEcRet (replicate n None) None).
  destruct (inOrder_run host body (λ i cn, setResult reqId cn (io i)) order)
    with (c := c) (r := r0) (l := l) as (l'&r'&Hr&El&_&Hf).
  - intros i c1 r1 l1 cn Hi Hr Hc Hio. destruct (Hin i Hio) as [_ (sh&lam&Hb)].
    unfold leaves. rewrite Hb. by apply set_leaves.
  - done.
  - done.
  - intros i Hi. rewrite Hlen. unfold r0; simpl. rewrite length_replicate. by split; apply Hin.
  - rewrite Hr. exists l', r'. by rewrite El.
Qed.

(** *** Reading *)

Section reading.
Context (enc : E) (d p : nat) {EC0 : ErasureCode E enc d p}.

Lemma decode_enough c val full part : EC c = enc → encodes enc val full → partial part full →
  (d ≤ present part)%nat → ∃ c', decode part c = Done (full, Some full, None, c') ∧
    Conns c' = Conns c ∧ Shards c' = Shards c.
Proof.
  intros He Hc Hp Hd. unfold decode. rewrite He. simpl. rewrite He.
  destruct (decide (part = full)) as [->|Hne].
  - rewrite (ec_verify val) by done. by eexists.
  - rewrite (ec_verify_missing val full) by done. rewrite (ec_reconstruct val full) by done.
    rewrite (ec_verify val) by done. by eexists.
Qed.
Lemma decode_too_few c val full part : EC c = enc → encodes enc val full → partial part full →
  (present part < d)%nat → ∃ data c' e, decode part c = Done (data, None, Some e, c').
Proof.
  intros He Hc Hp Hd. unfold decode. rewrite He. simpl. rewrite He.
  assert (Hne : part ≠ full).
  { intros ->. assert (Hall : present full = length full).
    { unfold present. f_equal. apply filter_all. intros x Hx.
      apply list_elem_of_lookup_1 in Hx as [i Hi]. pose proof (lookup_lt_Some _ _ _ Hi) as Hlt.
      rewrite (ec_length val full) in Hlt by done.
      destruct (ec_nonempty val full i Hc Hlt) as (b&Hb&_). congruence. }
    rewrite (ec_length val full) in Hall by done. lia. }
  rewrite (ec_verify_missing val full) by done.
  destruct (ec_too_few val full part Hc Hp Hd) as (part'&e&->). by eexists _, _, _.
Qed.

Lemma failedOf_lt (rs : list (option Ret)) i : i ∈ failedOf rs → (i < length rs)%nat.
Proof. unfold failedOf. intros [_ Hi]%list_elem_of_filter. by apply in_seq. Qed.

Lemma full_joins val full : encodes enc val full →
  ∃ ws, Join noError enc full (Z.of_nat (length val)) = Done (ws, None) ∧ concat ws = val.
Proof.
  intros Hc. destruct (ec_join val full (length val) Hc) as (ws&Hw&Hcat); [lia|]. exists ws.
  by rewrite take_ge in Hcat by lia.
Qed.

Lemma EcGet_enough host uuid uuid' order io io' reorder key c l val full :
  EC c = enc → Shards c = Z.of_nat (d + p) → Conns c !! host = Some l → length l = (d + p)%nat →
  order ≡ₚ seq 0 (d + p) → (∀ xs, reorder xs ≡ₚ xs) →
  encodes enc val full → partial (arrived uuid io l) full → (d ≤ present (arrived uuid io l))%nat →
  ∃ c', EcGet host uuid uuid' order io io' reorder 0 key c = Done (Some full, true, c') ∧
    (failedOf (results uuid io l) ≠ [] → ∃ c1 r,
      recover (reorder (failedOf (results uuid io l))) io' host key uuid' full c1 = Done (r, c')).
Proof.
  intros He Hn Hl Hlen Hord Hre Hc Hp Hd.
  set (c0 := c <| Data ::= (λ x, x <| deReqId := uuid |>) |>).
  destruct (getAll_run host key uuid io order c0 l (d + p)) as (l'&e&Hg&El); [done..|].
  set (c1 := upd host l' c0) in *.
  destruct (decode_enough c1 val full (arrived uuid io l)) as (c2&Hdec&Ec2&En2); [done..|].
  assert (Hget : ∀ u : () * Client E, (match failedOf (results uuid io l) with
       | [] => mret ()
       | _ => recover (reorder (failedOf (results uuid io l))) io' host key uuid' full;; mret ()
       end) c2 = Done u →
    EcGet host uuid uuid' order io io' reorder 0 key c = Done (Some full, true, u.2)).
  { intros [[] c3] Hrec. unfold EcGet. erewrite bind_done by reflexivity. fold c0.
    rewrite decide_False by lia. erewrite bind_done by exact Hg. cbv beta iota zeta.
    simpl Rets. erewrite bind_done by exact Hdec. cbv beta iota. by erewrite bind_done by exact Hrec. }
  destruct (failedOf (results uuid io l)) as [|f0 fs] eqn:Ef.
  { exists c2. split; [by apply (Hget ((), c2))|]. by intros []. }
  destruct (setAll_run host key uuid' io' (reorder (f0 :: fs)) (λ i,
      sh ← expect PIndex (full !! i); Client_set host key sh i 0 uuid' (io' i)) c2 l' (d + p))
    as (l2&r2&Hset&_).
  - rewrite Ec2. unfold c1. apply upd_lookup.
  - by rewrite En2.
  - done.
  - rewrite (Hre (f0 :: fs)), <- Ef. unfold failedOf. apply list.NoDup_filter, NoDup_seq.
  - intros i Hi. rewrite (Hre (f0 :: fs)), <- Ef in Hi. apply failedOf_lt in Hi.
    unfold results in Hi. rewrite length_imap in Hi. split; [lia|].
    destruct (ec_nonempty val full i Hc) as (b&Hb&_); [lia|]. exists (Some b), 0. intros s.
    by erewrite bind_done by (by rewrite Hb).
  - assert (Hrec : recover (reorder (f0 :: fs)) io' host key uuid' full c2 = Done (r2, upd host l2 c2)).
    { unfold recover. by erewrite bind_done by exact Hset. }
    exists (upd host l2 c2). split.
    + apply (Hget ((), upd host l2 c2)). by erewrite bind_done by exact Hrec.
    + intros _. by exists c2, r2.
Qed.

(** C16: a GET succeeds with the object as long as [d] of its [d + p] shards
    arrive.  Whatever the others do (fail to connect, time out, answer with an
    error, come late), in whatever order the requests end, [EcGet] returns a
    reader over all the shards of the object, from which exactly its bytes are
    read; when shards failed, it has re-sent the object's own shards for them. *)
Theorem EcGet_recovers host uuid uuid' order io io' reorder key c l val full :
  EC c = enc → Shards c = Z.of_nat (d + p) → Conns c !! host = Some l → length l = (d + p)%nat →
  order ≡ₚ seq 0 (d + p) → (∀ xs, reorder xs ≡ₚ xs) →
  encodes enc val full → partial (arrived uuid io l) full → (d ≤ present (arrived uuid io l))%nat →
  ∃ c', EcGet host uuid uuid' order io io' reorder 0 key c = Done (Some full, true, c') ∧
    (∃ ws, Join noError enc full (Z.of_nat (length val)) = Done (ws, None) ∧ concat ws = val) ∧
    (failedOf (results uuid io l) ≠ [] → ∃ c1 r,
      recover (reorder (failedOf (results uuid io l))) io' host key uuid' full c1 = Done (r, c')).
Proof.
  intros He Hn Hl Hlen Hord Hre Hc Hp Hd.
  destruct (EcGet_enough host uuid uuid' order io io' reorder key c l val full) as (c'&Hg&Hf); [done..|].
  exists c'. split; [done|]. split; [by apply full_joins|done].
Qed.

(** C23: with fewer than [d] shards a GET reports failure and gives no reader. *)
Theorem EcGet_too_few host uuid uuid' order io io' reorder key c l val full :
  EC c = enc → Shards c = Z.of_nat (d + p) → Conns c !! host = Some l → length l = (d + p)%nat →
  order ≡ₚ seq 0 (d + p) →
  encodes enc val full → partial (arrived uuid io l) full → (present (arrived uuid io l) < d)%nat →
  ∃ c', EcGet host uuid uuid' order io io' reorder 0 key c = Done (None, false, c').
Proof.
  intros He Hn Hl Hlen Hord Hc Hp Hd.
  set (c0 := c <| Data ::= (λ x, x <| deReqId := uuid |>) |>).
  destruct (getAll_run host key uuid io order c0 l (d + p)) as (l'&e&Hg&El); [done..|].
  destruct (decode_too_few (upd host l' c0) val full (arrived uuid io l)) as (data&c2&er&Hdec); [done..|].
  exists c2. unfold EcGet. erewrite bind_done by reflexivity. fold c0.
  rewrite decide_False by lia. erewrite bind_done by exact Hg. cbv beta iota zeta.
  simpl Rets. by erewrite bind_done by exact Hdec.
Qed.

(** *** Writing *)

(** What a SET answers when its requests left [r] in the slots. *)
Definition setAnswer (wanted : bool) r c : res (bool * option (list Z) * Client E) :=
  match Err r with
  | Some _ => Done (false, None, c)
  | None =>
      if wanted then
        match placementsOf (Rets r) with
        | Done zs => Done (true, Some zs, c)
        | Panics e => Panics e
        | Spins => Spins
        end
      else Done (true, None, c)
  end.

Lemma EcSet_run host uuid perm order io wanted key val full c l :
  EC c = enc → Shards c = Z.of_nat (d + p) → Conns c !! host = Some l → length l = (d + p)%nat →
  (d + p ≤ length perm)%nat → order ≡ₚ seq 0 (d + p) → encodes enc val full →
  ∃ l2 r, length l2 = (d + p)%nat ∧
    EcSet host uuid perm order io 0 wanted key val c =
      setAnswer wanted r (upd host l2 (c <| Data ::= (λ x, x <| deReqId := uuid |>) |>)) ∧
    finished (λ i cn, setResult uuid cn (io i)) order l (MkEcRet (replicate (d + p) None) None) r.
Proof.
  intros He Hn Hl Hlen Hperm Hord Hfull.
  set (c0 := c <| Data ::= (λ x, x <| deReqId := uuid |>) |>). pose proof Hfull as (sh0&Hsp&Henc).
  assert (Hen : encode val c0 = Done (full, None, c0)).
  { unfold encode. simpl. rewrite He, Hsp, Henc, (ec_verify val) by done. done. }
  set (index := take (d + p) perm).
  destruct (setAll_run host key uuid io order (λ i, sh ← expect PIndex (full !! i);
      lambdaId ← expect PIndex (index !! i); Client_set host key sh i lambdaId uuid (io i)) c0 l (d + p))
    as (l2&r2&Hset&El&Hf); [done..| | |].
  { rewrite Hord. apply NoDup_seq. }
  { intros i Hi. rewrite Hord, in_seq in Hi. split; [done|].
    destruct (ec_nonempty val full i Hfull Hi) as (b&Hb&_).
    destruct (lookup_lt_is_Some_2 index i) as [z Hz]; [unfold index; rewrite length_take; lia|].
    exists (Some b), z. intros s. erewrite bind_done by (by rewrite Hb).
    by erewrite bind_done by (by rewrite Hz). }
  exists l2, r2. split; [done|]. split; [|done].
  unfold EcSet. erewrite bind_done by reflexivity. erewrite bind_done by reflexivity. fold c0.
  change (Shards c0) with (Shards c). rewrite Hn.
  erewrite bind_done by (unfold random; rewrite decide_False, Nat2Z.id by lia; fold index; reflexivity).
  simpl (bool_decide _ && _). cbv beta iota zeta.
  erewrite bind_done by exact Hen. cbv beta iota. rewrite (ec_length val) by done.
  rewrite decide_False by lia. erewrite bind_done by exact Hset. cbv beta iota. unfold setAnswer.
  destruct (Err r2); [done|]. destruct wanted; [|done]. by destruct (placementsOf (Rets r2)).
Qed.

Lemma finished_ok reqId io order l r n :
  length l = n → order ≡ₚ seq 0 n →
  finished (λ i cn, setResult reqId cn (io i)) order l (MkEcRet (replicate n None) None) r →
  Err r = None ↔ ∀ i cn e, l !! i = Some cn → setResult reqId cn (io i) ≠ Some (RetError e).
Proof.
  intros Hlen Hord Hf. rewrite (fi_err _ _ _ _ _ Hf). split; [|by intros Hx; split; eauto].
  intros [_ Hx] i cn e Hi. apply (Hx i cn e); [|done]. rewrite Hord, in_seq.
  apply lookup_lt_Some in Hi. lia.
Qed.

(** C22: a SET of a non-empty object returns, and reports success exactly when
    none of the [d + p] requests left an error, in whatever order they end. *)
Theorem EcSet_succeeds host uuid perm order io key val c l :
  EC c = enc → Shards c = Z.of_nat (d + p) → Conns c !! host = Some l → length l = (d + p)%nat →
  (d + p ≤ length perm)%nat → order ≡ₚ seq 0 (d + p) → val ≠ [] →
  ∃ b c', EcSet host uuid perm order io 0 false key val c = Done (b, None, c') ∧
    (b = true ↔ ∀ i cn e, l !! i = Some cn → setResult uuid cn (io i) ≠ Some (RetError e)).
Proof.
  intros He Hn Hl Hlen Hperm Hord Hval. destruct (ec_encodes val Hval) as (full&Hfull).
  destruct (EcSet_run host uuid perm order io false key val full c l) as (l2&r&_&Hrun&Hf); [done..|].
  apply (finished_ok _ _ _ _ _ (d + p)) in Hf; [|done..]. rewrite Hrun. unfold setAnswer.
  destruct (Err r); (eexists _, _; split; [reflexivity|]); rewrite <- Hf; naive_solver.
Qed.
End reading.

(** C40: corrupted data is reported as success.  When shards arrived damaged, so
    that they can be completed but do not verify afterwards (and the code
    reports no other error), [decode] gives neither a reader nor an error, and
    [EcGet] returns a nil reader with [true]. *)
Theorem corrupted_reported_good host uuid uuid' order io io' reorder key c l n part' :
  Shards c = Z.of_nat n → Conns c !! host = Some l → length l = n → order ≡ₚ seq 0 n →
  failedOf (results uuid io l) = [] →
  (Verify (EC c) (arrived uuid io l)).1 = false →
  Reconstruct (EC c) (arrived uuid io l) = (part', None) → Verify (EC c) part' = (false, None) →
  ∃ c', EcGet host uuid uuid' order io io' reorder 0 key c = Done (None, true, c').
Proof.
  intros Hn Hl Hlen Hord Hf V1 Hre V2.
  set (c0 := c <| Data ::= (λ x, x <| deReqId := uuid |>) |>).
  destruct (getAll_run host key uuid io order c0 l n) as (l'&e&Hg&El); [done..|].
  assert (Hdec : ∃ c2, decode (arrived uuid io l) (upd host l' c0) = Done (part', None, None, c2)).
  { unfold decode. change (EC (upd host l' c0)) with (EC c). rewrite V1. simpl.
    rewrite Hre, V2. by eexists. }
  destruct Hdec as [c2 Hdec]. exists c2. unfold EcGet. erewrite bind_done by reflexivity. fold c0.
  rewrite decide_False by lia. erewrite bind_done by exact Hg. cbv beta iota zeta.
  simpl Rets. erewrite bind_done by exact Hdec. by rewrite Hf.
Qed.
End client.

(** ** Witnesses *)

Section witness.
Abbreviation bA := (Byte.x61).
Definition gives (id : string) (b : bytes) : ShardIO :=
  MkShardIO None None None (MkRecIO (inr false) (inr "") (inr id) (inr "0") None (inr b)).
Definition broken : ShardIO :=
  MkShardIO (Some (EOther "refused")) None None (MkRecIO (inl EOF) (inr "") (inr "") (inr "") None (inr [])).

(** A client of the mirror with one open connection. *)
Definition mirrorClient : Client Mirror :=
  MkClient {[ "h" := [Some (MkConn []); None] ]} mirror (MkDataEntry "" false false) 1 1 2.
Definition oneShard (i : nat) : ShardIO := match i with O => gives "u" [bA; bA] | _ => broken end.

Lemma EcGet_recovers_witness : ∃ c' ws,
  EcGet "h" "u" "v" [1%nat; 0%nat] oneShard oneShard (λ xs, xs) 0 "k" mirrorClient =
    Done (Some [Some [bA; bA]; Some [bA; bA]], true, c') ∧
  Join noError mirror [Some [bA; bA]; Some [bA; bA]] 2 = Done (ws, None) ∧ concat ws = [bA; bA].
Proof.
  destruct (EcGet_recovers mirror 1 1 "h" "u" "v" [1%nat; 0%nat] oneShard oneShard (λ xs, xs) "k"
    mirrorClient [Some (MkConn []); None] [bA; bA] [Some [bA; bA]; Some [bA; bA]])
    as (c'&Hr&(ws&Hj&Hc)&_).
  - reflexivity.
  - reflexivity.
  - reflexivity.
  - reflexivity.
  - apply Permutation_swap.
  - reflexivity.
  - by apply mirror_encodes.
  - apply Forall2_cons_2; [by right|]. apply Forall2_cons_2; [by left|]. constructor.
  - vm_compute. constructor.
  - exists c', ws. split; [exact Hr|]. split; [exact Hj|exact Hc].
Defined.

Lemma EcGet_too_few_witness : ∃ c',
  EcGet "h" "u" "v" [1%nat; 0%nat] (λ _, broken) oneShard (λ xs, xs) 0 "k" mirrorClient = Done (None, false, c').
Proof.
  apply (EcGet_too_few mirror 1 1 "h" "u" "v" [1%nat; 0%nat] (λ _, broken) oneShard (λ xs, xs) "k"
    mirrorClient [Some (MkConn []); None] [bA; bA] [Some [bA; bA]; Some [bA; bA]]).
  - reflexivity.
  - reflexivity.
  - reflexivity.
  - reflexivity.
  - apply Permutation_swap.
  - by apply mirror_encodes.
  - apply Forall2_cons_2; [by left|]. apply Forall2_cons_2; [by left|]. constructor.
  - vm_compute. constructor.
Defined.

Lemma EcSet_succeeds_witness : ∃ c',
  EcSet "h" "u" [4; 2; 7] [1%nat; 0%nat] (λ _, gives "u" []) 0 false "k" [bA] mirrorClient =
    Done (true, None, c').
Proof.
  destruct (EcSet_succeeds mirror 1 1 "h" "u" [4; 2; 7] [1%nat; 0%nat] (λ _, gives "u" []) "k" [bA]
    mirrorClient [Some (MkConn []); None]) as (b&c'&Hr&Hb).
  - reflexivity.
  - reflexivity.
  - reflexivity.
  - reflexivity.
  - simpl. lia.
  - apply Permutation_swap.
  - discriminate.
  - exists c'. destruct Hb as [_ Hb]. rewrite Hb in Hr; [exact Hr|].
    intros [|[|i]] cn e Hi; [injection Hi as <-; discriminate..|discriminate Hi].
Defined.

(** Three copies, compared: a damaged one is noticed only at the end. *)
Inductive Triple : Set := triple.
#[local] Instance triple_Encoder : Encoder Triple := {
  Split _ data := Done (inl [Some data; Some data; Some data]);
  Encode _ l := (l, None);
  Verify _ l := match l with
    | [Some a; Some b; Some c] => (bool_decide (a = b ∧ b = c), None)
    | _ => (false, Some ErrTooFewShards) end;
  Reconstruct _ l := match l with
    | [Some a; Some b; None] => ([Some a; Some b; Some a], None)
    | _ => (l, Some ErrTooFewShards) end;
  Join wr _ l n := Done ([], None)
}.
Definition late : ShardIO :=
  MkShardIO None None None (MkRecIO (inr false) (inr "") (inr "u") (inr "-1") None (inr [])).
Definition damaged (i : nat) : ShardIO :=
  match i with O => gives "u" [bA] | 1%nat => gives "u" [] | _ => late end.
Definition tripleClient : Client Triple :=
  MkClient {[ "h" := [None; None; None] ]} triple (MkDataEntry "" false false) 2 1 3.

Lemma corrupted_reported_good_witness : ∃ c',
  EcGet "h" "u" "v" [0%nat; 1%nat; 2%nat] damaged damaged (λ xs, xs) 0 "k" tripleClient = Done (None, true, c').
Proof.
  apply (corrupted_reported_good "h" "u" "v" [0%nat; 1%nat; 2%nat] damaged damaged (λ xs, xs) "k"
    tripleClient [None; None; None] 3 [Some [bA]; Some []; Some [bA]]); reflexivity.
Defined.
End witness.
