(* ===== verification/Example.v ===== *)
(** * client/client.go: dialling; client/example/main.go: the example

    [Dial] opens the connections of every proxy; the example sets an object and
    gets it, through one proxy. *)

From Stdlib Require Import Ascii.
From S2P Require Import Prelude Logger Lambdastore Request Connection Erasure ErasureTheorems Proxy Client ClientTheorems.

Section dial.
Context {E : Type} {HE : Encoder E}.
Implicit Types (c : Client E) (l : list (option Conn)).

Lemma connect_run address i c l : Conns c !! address = Some l → (i < length l)%nat →
  connect None address i c = Done (None, upd address (<[i := Some (MkConn [])]> l) c).
Proof.
  intros Hl Hi. destruct (lookup_lt_is_Some_2 l i Hi) as [cn Hcn]. unfold connect.
  by erewrite bind_done by (by eapply putConn_run).
Qed.

(** What dialling the connections from the [i]-th on gives. *)
Definition opened (i : nat) l : list (option Conn) := take i l ++ replicate (length l - i) (Some (MkConn [])).

Lemma dialFrom_run dial address i n c l :
  Conns c !! address = Some l → length l = (i + n)%nat →
  ∃ e l', dialFrom dial address i n c = Done (e, upd address l' c) ∧ length l' = length l ∧
    (e = None ↔ ∀ k, (i ≤ k < i + n)%nat → dial k = None) ∧ (e = None → l' = opened i l).
Proof.
  revert i c l. induction n as [|n IH]; intros i c l Hl Hlen.
  { exists None, l. rewrite upd_id by done. split_and!; [done|done|split; [intros _ k Hk; lia|done]|].
    intros _. unfold opened. rewrite take_ge, Hlen by lia. replace (i + 0 - i)%nat with 0%nat by lia. by rewrite app_nil_r. }
  cbn [dialFrom]. destruct (dial i) as [e|] eqn:Ed.
  - exists (Some e), l. erewrite bind_done by reflexivity. rewrite upd_id by done. split_and!; [done|done| |done].
    split; [done|]. intros Hk. rewrite Hk in Ed by lia. done.
  - erewrite bind_done by (apply connect_run; [done|lia]).
    destruct (IH (S i) (upd address (<[i := Some (MkConn [])]> l) c) (<[i := Some (MkConn [])]> l))
      as (e&l'&Hr&Hlen'&He&Ho); [apply upd_lookup|rewrite length_insert; lia|].
    rewrite length_insert in Hlen'. exists e, l'. rewrite Hr, upd_upd. split_and!; [done|done| |].
    + rewrite He. split; intros Hk k Hk'; [|apply Hk; lia]. destruct (decide (k = i)) as [->|]; [done|apply Hk; lia].
    + intros Hn. rewrite (Ho Hn). unfold opened. rewrite length_insert, (take_S_r _ i (Some (MkConn []))).
      * rewrite take_insert_ge, <- app_assoc by lia. f_equal.
        replace (length l - i)%nat with (S (length l - S i)) by lia. done.
      * apply list_lookup_insert_eq. lia.
Qed.

Definition Z_nat c : nat := Z.to_nat (Shards c).
Lemma initDial_run dial address c : 0 ≤ Shards c →
  ∃ e l, initDial dial address c = Done (e, upd address l c) ∧ length l = Z_nat c ∧
    (e = None ↔ ∀ k, (k < Z_nat c)%nat → dial k = None) ∧
    (e = None → l = replicate (Z_nat c) (Some (MkConn []))).
Proof.
  intros Hs. unfold initDial. erewrite bind_done by reflexivity. rewrite decide_False by lia.
  erewrite bind_done by reflexivity.
  set (l0 := replicate (Z_nat c) (@None Conn)).
  destruct (dialFrom_run dial address 0 (Z_nat c) (upd address l0 c) l0) as (e&l&Hr&Hlen&He&Ho).
  { apply upd_lookup. }
  { unfold l0. by rewrite length_replicate. }
  rewrite upd_upd in Hr. unfold l0 in Hlen, Ho. rewrite length_replicate in Hlen.
  exists e, l. split_and!; [exact Hr|done| |].
  - rewrite He. split; intros Hk k Hk'; apply Hk; lia.
  - intros Hn. rewrite (Ho Hn). unfold opened. by rewrite length_replicate, Nat.sub_0_r.
Qed.

(** [Dial] succeeds exactly when every connection opens, and then they are all
    open; it never panics.  Whatever it returns, the proxies it had, and the
    first of the new ones, have their slots, whose shards are dialled again
    when they are used. *)
Lemma Dial_spec dial addrs c : 0 ≤ Shards c → NoDup addrs →
  ∃ b c', Dial dial addrs c = Done (b, c') ∧ EC c' = EC c ∧ Shards c' = Shards c ∧
    (b = true ↔ ∀ a k, a ∈ addrs → (k < Z_nat c)%nat → dial a k = None) ∧
    (b = true → ∀ a, a ∈ addrs → Conns c' !! a = Some (replicate (Z_nat c) (Some (MkConn [])))) ∧
    (∀ a l, a ∉ addrs → Conns c !! a = Some l →
       ∃ l', Conns c' !! a = Some l' ∧ length l' = length l ∧ (b = true → l' = l)) ∧
    (∀ a, head addrs = Some a → ∃ l, Conns c' !! a = Some l ∧ length l = Z_nat c).
Proof.
  revert c. induction addrs as [|a addrs IH]; intros c Hs Hnd.
  { exists true, c. split_and!; try done.
    - split; [|done]. by intros _ a k ?%not_elem_of_nil.
    - by intros _ a ?%not_elem_of_nil.
    - intros a l _ Hl. by exists l. }
  apply list.NoDup_cons in Hnd as [Ha Hnd]. cbn [Dial].
  destruct (initDial_run (dial a) a c Hs) as (e&l&Hr&Hlen&He&Ho). erewrite bind_done by exact Hr.
  destruct e as [e|].
  - eexists false, _. split; [by erewrite bind_done by reflexivity|]. split_and!; [done|done| |done| |].
    + split; [done|]. intros Hall. assert (Some e = None); [|done]. apply He. intros k Hk. apply Hall; [by left|done].
    + intros b lb [Hne _]%not_elem_of_cons Hb. cbn. rewrite lookup_fmap, lookup_insert_ne, Hb by done.
      eexists. split; [reflexivity|]. by rewrite length_replicate.
    + intros b [= <-]. cbn. rewrite lookup_fmap, lookup_insert_eq. eexists. split; [reflexivity|].
      by rewrite length_replicate.
  - destruct (IH (upd a l c)) as (b&c'&Hd&H1&H2&H3&H4&H5&_); [done|done|].
    exists b, c'. split; [done|]. split; [done|]. split; [done|].
    assert (Hok : ∀ k, (k < Z_nat c)%nat → dial a k = None) by (by apply He).
    destruct (H5 a l Ha) as (la&Hla&Elen&Eq); [apply upd_lookup|]. split_and!.
    + rewrite H3. split; [|intros Hall a' k Ha'; apply Hall; by right].
      intros Hall a' k [->|Ha']%elem_of_cons Hk; [by apply Hok|by apply Hall].
    + intros Hb a' [->|Ha']%elem_of_cons; [|by apply H4]. rewrite Hla, (Eq Hb). f_equal. by apply Ho.
    + intros a' l' [Hne Ha']%not_elem_of_cons Hl'. apply H5; [done|]. cbn. by rewrite lookup_insert_ne.
    + intros a' [= <-]. exists la. split; [done|]. by rewrite Elen.
Qed.
End dial.

(** ** example/main.go *)

Section example.
Context {E : Type} {HE : Encoder E} (enc : E) {EC0 : ErasureCode E enc 10 2}.
#[local] Open Scope string_scope.

Definition addrList : string := "127.0.0.1:6378".

(** What the environment does: dialling; the host the ring of these members
    locates; and, for the SET and the GET, the uuids, the permutation and what
    the requests meet. *)
Record ExampleIO : Type := MkExampleIO {
  exDial : string → nat → option cerr;
  exLocate : list string → string → string;
  exUuids : string * string * string;
  exPerm : list Z;
  exOrders : list nat * list nat * (list nat → list nat);
  exSet : nat → ShardIO;
  exGet : nat → ShardIO;
  exRecover : nat → ShardIO
}.

(** [main] on the value that [rand.Read] gave: the message it dies with, if any. *)
Definition example_main (io : ExampleIO) (val : bytes) : res (option string * Client E) :=
  (let addrArr := Logger.Split ","%char addrList in
   let '(u1, u2, u3) := exUuids io in
   let '(o1, o2, reorder) := exOrders io in
   let host := exLocate io addrArr "foo" in
   _ ← Dial (exDial io) addrArr;
   '(ok, _) ← EcSet host u1 (exPerm io) o1 (exSet io) 0 false "foo" val;
   if negb ok then mret (Some "Failed to set") else
   '(reader, ok) ← EcGet host u2 u3 o2 (exGet io) (exRecover io) reorder 0 "foo";
   if negb ok then mret (Some "Failed to get") else
   _ ← expect PNil reader;
   mret None) (NewClient enc 10 2).

(** The example ends without a message when no shard of the SET fails and ten
    shards of the GET arrive, even where dialling failed at first. *)
Lemma example_ends io val full :
  encodes enc val full → (∀ addrs key, exLocate io addrs key ∈ addrs) → (12 ≤ length (exPerm io))%nat →
  (exOrders io).1.1 ≡ₚ seq 0 12 → (exOrders io).1.2 ≡ₚ seq 0 12 → (∀ xs, (exOrders io).2 xs ≡ₚ xs) →
  (∀ i cn e, setResult (exUuids io).1.1 cn (exSet io i) ≠ Some (RetError e)) →
  (∀ l, length l = 12%nat → partial (arrived (exUuids io).1.2 (exGet io) l) full ∧
     (10 ≤ present (arrived (exUuids io).1.2 (exGet io) l))%nat) →
  ∃ c, example_main io val = Done (None, c).
Proof.
  destruct io as [dial locate [[u1 u2] u3] perm [[o1 o2] reorder] ios iog ior].
  cbn [exLocate exUuids exPerm exOrders exSet exGet fst snd].
  intros Hfull Hloc Hperm Ho1 Ho2 Hre Hset Hget. unfold example_main.
  assert (Logger.Split ","%char addrList = [addrList]) as -> by reflexivity.
  cbn [exDial exLocate exUuids exPerm exOrders exSet exGet exRecover].
  assert (locate [addrList] "foo" = addrList) as ->.
  { specialize (Hloc [addrList] "foo"). by apply list_elem_of_singleton in Hloc. }
  destruct (Dial_spec dial [addrList] (NewClient enc 10 2)) as (b&c1&Hd&E1&S1&_&_&_&Hhd); [done|apply NoDup_singleton|].
  destruct (Hhd addrList eq_refl) as (l&Hl&Hlen). erewrite bind_done by exact Hd.
  destruct (EcSet_run enc 10 2 addrList u1 perm o1 ios false "foo" val full c1 l) as (l2&r&El2&Hs&Hf); [done..|].
  assert (Err r = None) as Er.
  { apply (finished_ok _ _ _ _ _ 12 Hlen Ho1 Hf). intros i cn e _. apply Hset. }
  unfold setAnswer in Hs. rewrite Er in Hs. erewrite bind_done by exact Hs. cbn [negb].
  destruct (Hget l2 El2) as [Hp Hpd].
  destruct (EcGet_enough enc 10 2 addrList u2 u3 o2 iog ior reorder "foo"
    (upd addrList l2 (c1 <| Data ::= (λ x, x <| deReqId := u1 |>) |>)) l2 val full) as (c2&Hg&_); try done.
  { apply upd_lookup. }
  erewrite bind_done by exact Hg. cbn [negb]. erewrite bind_done by reflexivity. by eexists.
Qed.
End example.
