(* ===== verification/Storage.v ===== *)
(** * lambda/storage, lambda/types: the chunks a lambda holds

    A store maps keys to chunks.  A deleted chunk keeps its entry without a
    body, so that a migration can tell the destination about it.  Times are
    nanoseconds, given to each operation. *)

From Stdlib Require Import Sorted.
From stdpp Require Import pretty sorting.
From S2P Require Import Prelude Lambdastore Request Erasure.

(** ** types.go *)

Definition OP_SET : Z := 0.
Definition OP_GET : Z := 1.
Definition OP_DEL : Z := 2.
Definition OP_WARMUP : Z := 90.
Definition OP_MIGRATION : Z := 91.

Definition ErrProxyClosing : string := "Proxy closed.".
Definition ErrNotFound : string := "Key not found".

Record Chunk : Type := MkChunk {
  ckKey : string;
  ckId : string;
  ckBody : shard;
  Accessed : Z
}.
#[global] Instance Chunk_eta : Eta Chunk := λ c, MkChunk (ckKey c) (ckId c) (ckBody c) (Accessed c).
#[global] Instance Chunk_eq_dec : EqDecision Chunk.
Proof. solve_decision. Defined.

Definition NewChunk (now : Z) (id : string) (body : shard) : Chunk := MkChunk "" id body now.
Definition Access (now : Z) (c : Chunk) : Chunk := c <| Accessed := now |>.

(** [ResponseError]: a message with a status code. *)
Record ResponseError : Type := MkResponseError { reMsg : string; StatusCode : Z }.
Definition NewResponseError (status : Z) (msg : string) : ResponseError := MkResponseError msg status.
Definition Status (e : ResponseError) : string := pretty (StatusCode e).

(** ** response.go: the answer of a lambda

    The calls on the response writer; a stream has the bytes it will yield. *)
Inductive LOp : Type :=
  | LBulkString (s : string)
  | LInt (z : Z)
  | LCopyBulk (b : bytes)
  | LErrorf (s : string)
  | LFlush.
#[global] Instance LOp_eq_dec : EqDecision LOp.
Proof. solve_decision. Defined.

Record LResponse : Type := MkLResponse {
  lrCmd : string; lrConnId : string; lrReqId : string; lrChunkId : string; lrVal : string;
  lrBody : shard; lrStream : option bytes
}.

Definition LResponse_Prepare (r : LResponse) : list LOp :=
  [LBulkString (lrCmd r); LBulkString (lrConnId r); LBulkString (lrReqId r); LBulkString (lrChunkId r)] ++
  (if decide (lrVal r = "") then [] else [LBulkString (lrVal r)]).

(** [Flush]: the calls made, and the error; [ioCopy] and [ioFl] are what the
    copy and the flush return. *)
Definition LResponse_Flush (r : LResponse) (ioCopy ioFl : error) : list LOp * error :=
  match lrBody r, lrStream r with
  | Some b, _ | None, Some b =>
      match ioCopy with
      | Some e => ([LCopyBulk b], Some e)
      | None => ([LCopyBulk b; LFlush], ioFl)
      end
  | None, None => ([LFlush], ioFl)
  end.

(** ** storage.go *)

Abbreviation Storage := (gmap string Chunk) (only parsing).

Definition Storage_New : Storage := ∅.

(** [Get]: the id and the body, or an error. *)
Definition Storage_Get (now : Z) (key : string) : M Storage ((string * bytes) + string) := λ s,
  match s !! key with
  | Some c =>
      match ckBody c with
      | Some b => Done (inl (ckId c, b), <[key := Access now c]> s)
      | None => Done (inr ErrNotFound, s)
      end
  | None => Done (inr ErrNotFound, s)
  end.

Definition Storage_Del (now : Z) (key chunkId : string) : M Storage error := λ s,
  match s !! key with
  | None => Done (Some ErrNotFound, s)
  | Some c => Done (None, <[key := Access now c <| ckBody := None |>]> s)
  end.

(** [GetStream]: the stream yields the body. *)
Definition Storage_GetStream (now : Z) (key : string) : M Storage ((string * bytes) + string) :=
  Storage_Get now key.

Definition Storage_Set (now : Z) (key chunkId : string) (val : shard) : M Storage error := λ s,
  Done (None, <[key := NewChunk now chunkId val <| ckKey := key |>]> s).

(** [SetStream]: [val] is what [ReadAll] gives. *)
Definition Storage_SetStream (now : Z) (key chunkId : string) (val : bytes + string) : M Storage error :=
  match val with
  | inr e => mret (Some ("Error on read stream: " +:+ e))
  | inl b => Storage_Set now key chunkId (Some b)
  end.

Definition Storage_Len (s : Storage) : Z := Z.of_nat (size s).

(** [Keys]: [all] is the order in which the range over the map yields the
    chunks; the most recently accessed come first. *)
Definition newer (a b : Chunk) : Prop := Accessed b ≤ Accessed a.
#[global] Instance newer_dec a b : Decision (newer a b).
Proof. unfold newer. apply _. Defined.
Definition Storage_Keys (all : list Chunk) : list string := ckKey <$> merge_sort newer all.

(** ** What the store guarantees *)

(** Each chunk knows its key. *)
Definition keyed (s : Storage) : Prop := ∀ k c, s !! k = Some c → ckKey c = k.

Lemma keyed_New : keyed Storage_New.
Proof. intros k c. unfold Storage_New. by rewrite lookup_empty. Qed.
Lemma keyed_Get now key : preserves keyed (Storage_Get now key).
Proof.
  intros s a s' Hs. unfold Storage_Get. destruct (s !! key) as [c|] eqn:E; [|by intros [= _ <-]].
  destruct (ckBody c); [|by intros [= _ <-]]. intros [= _ <-] k x.
  rewrite lookup_insert_Some. intros [[<- <-]|[_ Hx]]; [by apply (Hs key c)|by apply Hs].
Qed.
Lemma keyed_Del now key id : preserves keyed (Storage_Del now key id).
Proof.
  intros s a s' Hs. unfold Storage_Del. destruct (s !! key) as [c|] eqn:E; [|by intros [= _ <-]].
  intros [= _ <-] k x. rewrite lookup_insert_Some. intros [[<- <-]|[_ Hx]]; [by apply (Hs key c)|by apply Hs].
Qed.
Lemma keyed_Set now key id val : preserves keyed (Storage_Set now key id val).
Proof.
  intros s a s' Hs [= _ <-] k x. rewrite lookup_insert_Some. intros [[<- <-]|[_ Hx]]; [done|by apply Hs].
Qed.

(** The content a client can read. *)
Definition content (s : Storage) (key : string) : option (string * bytes) :=
  c ← s !! key; b ← ckBody c; Some (ckId c, b).

Lemma Get_content now key s : ∃ s', Storage_Get now key s =
  Done (match content s key with Some x => inl x | None => inr ErrNotFound end, s') ∧
  (∀ k, content s' k = content s k).
Proof.
  unfold Storage_Get, content. destruct (s !! key) as [c|] eqn:E; simpl; [|by exists s].
  destruct (ckBody c) as [b|] eqn:Eb; simpl; [|by exists s].
  eexists. split; [reflexivity|]. intros k. destruct (decide (k = key)) as [->|].
  - rewrite lookup_insert_eq, E. simpl. by rewrite Eb.
  - by rewrite lookup_insert_ne.
Qed.
Lemma Set_content now key id b s : ∃ s', Storage_Set now key id (Some b) s = Done (None, s') ∧
  (∀ k, content s' k = if decide (k = key) then Some (id, b) else content s k).
Proof.
  eexists. split; [reflexivity|]. intros k. unfold content. case_decide as E.
  - subst. by rewrite lookup_insert_eq.
  - by rewrite lookup_insert_ne.
Qed.
Lemma Del_content now key id s : ∃ e s', Storage_Del now key id s = Done (e, s') ∧
  (e = None ↔ is_Some (s !! key)) ∧
  (∀ k, content s' k = if decide (k = key) then None else content s k).
Proof.
  unfold Storage_Del. destruct (s !! key) as [c|] eqn:E.
  - eexists _, _. split; [reflexivity|]. split; [naive_solver|]. intros k. unfold content. case_decide.
    + subst. by rewrite lookup_insert_eq.
    + by rewrite lookup_insert_ne.
  - eexists _, _. split; [reflexivity|]. split; [naive_solver|]. intros k. unfold content.
    case_decide; [subst; by rewrite E|done].
Qed.

#[global] Instance newer_total : Total newer.
Proof. intros a b. unfold newer. lia. Qed.
#[global] Instance newer_trans : Transitive newer.
Proof. intros a b c. unfold newer. lia. Qed.

Lemma Keys_Permutation s all :
  keyed s → all ≡ₚ (map_to_list s).*2 → Storage_Keys all ≡ₚ (map_to_list s).*1.
Proof.
  intros Hk Hall. unfold Storage_Keys. rewrite merge_sort_Permutation, Hall, <- list_fmap_compose.
  apply reflexive_eq, list_fmap_ext. intros i [k c] Hi. simpl.
  apply Hk, elem_of_map_to_list, list_elem_of_lookup. eauto.
Qed.

(** [Keys] lists every key of the store once, deleted ones included, the
    most recently accessed first, in whatever order the map yields them. *)
Theorem Keys_sorted s all :
  keyed s → all ≡ₚ (map_to_list s).*2 →
  Storage_Keys all ≡ₚ (map_to_list s).*1 ∧ NoDup (Storage_Keys all) ∧
  Z.of_nat (length (Storage_Keys all)) = Storage_Len s ∧
  (∀ i j k1 k2 c1 c2, (i < j)%nat → Storage_Keys all !! i = Some k1 → Storage_Keys all !! j = Some k2 →
    s !! k1 = Some c1 → s !! k2 = Some c2 → Accessed c2 ≤ Accessed c1).
Proof.
  intros Hk Hall.
  assert (Hp : merge_sort newer all ≡ₚ (map_to_list s).*2) by (by rewrite merge_sort_Permutation).
  pose proof (Keys_Permutation s all Hk Hall) as Hkeys.
  split_and!; [done| | |].
  - rewrite Hkeys. apply NoDup_fst_map_to_list.
  - rewrite Hkeys, length_fmap, length_map_to_list. done.
  - intros i j k1 k2 c1 c2 Hij H1 H2 L1 L2. unfold Storage_Keys in H1, H2.
    rewrite list_lookup_fmap in H1, H2. apply fmap_Some in H1 as (x1&H1&->), H2 as (x2&H2&->).
    assert (Hin : ∀ i x, merge_sort newer all !! i = Some x → s !! ckKey x = Some x).
    { intros i' x Hx. apply list_elem_of_lookup_2 in Hx. rewrite Hp in Hx.
      apply list_elem_of_fmap in Hx as ([k c]&->&Hx). simpl. apply elem_of_map_to_list in Hx.
      by rewrite (Hk k c Hx). }
    rewrite (Hin i x1 H1) in L1. rewrite (Hin j x2 H2) in L2. injection L1 as <-. injection L2 as <-.
    assert (HS : StronglySorted newer (merge_sort newer all)).
    { apply Sorted_StronglySorted; [apply _|]. apply Sorted_merge_sort. apply _. }
    clear -HS Hij H1 H2. revert i j Hij H1 H2.
    induction HS as [|a l _ IH Hall]; intros i j Hij H1 H2; [done|].
    destruct i as [|i], j as [|j]; simpl in *; [lia| |lia|by apply (IH i j); [lia|..]].
    injection H1 as ->. rewrite list.Forall_forall in Hall. apply Hall. by eapply list_elem_of_lookup_2.
Qed.

Section witness.
Definition twoChunks : Storage :=
  {[ "a" := MkChunk "a" "0" (Some [Byte.x61]) 5; "b" := MkChunk "b" "1" None 9 ]}.
Lemma Keys_sorted_witness : ∃ all, Storage_Keys all = ["b"; "a"] ∧ NoDup (Storage_Keys all).
Proof.
  exists ((map_to_list twoChunks).*2). split; [vm_compute; reflexivity|].
  apply (Keys_sorted twoChunks); [|reflexivity].
  intros k c Hc. apply elem_of_map_to_list in Hc. vm_compute in Hc.
  repeat (apply elem_of_cons in Hc as [Hc|Hc]; [injection Hc as -> ->; reflexivity|]).
  by apply not_elem_of_nil in Hc.
Defined.
End witness.
