(* ===== verification/Lifetime.v ===== *)
(** * lambda/lifetime: how long a lambda lives

    The lifetime of a store, and the timeout that ends an invocation, with its
    goroutine.  Times are nanoseconds; [now] is the wall
    clock, a parameter of the operations that read it. *)

From S2P Require Import Prelude Lambdastore.

(** ** lifetime.go *)

Record Lifetime : Type := MkLifetime { birthtime : Z; alive : bool; expected : Z }.
#[global] Instance Lifetime_eta : Eta Lifetime := λ l, MkLifetime (birthtime l) (alive l) (expected l).

Definition Lifetime_New (now exp : Z) : Lifetime := MkLifetime now true exp.
Definition Lifetime_Id (l : Lifetime) : Z := birthtime l.
Definition Reborn (now : Z) (l : Lifetime) : Lifetime := l <| birthtime := now |> <| alive := true |>.
Definition RebornIfDead (now : Z) (l : Lifetime) : Lifetime := if alive l then l else Reborn now l.
Definition IsTimeUp (now : Z) (l : Lifetime) : bool := bool_decide (expected l ≤ now - birthtime l).
Definition Rest (l : Lifetime) : Lifetime := l <| alive := false |>.

(** ** timeout.go: constants *)

Definition Millisecond : Z := 1000000.
Definition TICK : Z := 100 * Millisecond.
Definition TICK_1_ERROR_EXTEND : Z := 10000 * Millisecond.
Definition TICK_1_ERROR : Z := 10 * Millisecond.
Definition TICK_5_ERROR_EXTEND : Z := 1000 * Millisecond.
Definition TICK_5_ERROR : Z := 10 * Millisecond.
Definition TICK_10_ERROR_EXTEND : Z := 1000 * Millisecond.
Definition TICK_10_ERROR : Z := 2 * Millisecond.

(** [init]: the error margins for the memory of the lambda. *)
Definition tickErrors (memoryLimitInMB : Z) : Z * Z :=
  if decide (memoryLimitInMB < 896) then (TICK_1_ERROR_EXTEND, TICK_1_ERROR)
  else if decide (memoryLimitInMB < 1792) then (TICK_5_ERROR_EXTEND, TICK_5_ERROR)
  else (TICK_10_ERROR_EXTEND, TICK_10_ERROR).

(** ** Rounding up in floating point

    [math.Ceil(float64(x) / float64(y))] in binary64: the conversion and the
    division round to the nearest 53-bit number, ties to even. *)

Definition roundNE (a b : Z) : Z :=
  let q := a `div` b in let r := a `mod` b in
  if decide (2 * r < b) then q
  else if decide (b < 2 * r) then q + 1
  else if Z.even q then q else q + 1.

(** A non-negative integer rounded to 53 significant bits. *)
Definition f64 (x : Z) : Z :=
  if decide (x < 2 ^ 53) then x
  else let k := Z.log2 x - 52 in roundNE x (2 ^ k) * 2 ^ k.

(** The scale at which the quotient has 53 significant bits. *)
Definition fscale (x y : Z) : Z :=
  let s := 52 - (Z.log2 x - Z.log2 y) in
  if decide ((x * 2 ^ s) `div` y < 2 ^ 52) then s + 1 else s.

Definition ceilDiv (x y : Z) : Z :=
  let a := f64 (Z.abs x) in
  if decide (a = 0) then 0 else
  let s := fscale a y in
  let m := roundNE (a * 2 ^ s) y in
  if decide (x < 0) then - (m `div` 2 ^ s) else - ((- m) `div` 2 ^ s).

(** ** timeout.go: the timeout *)

(** [start] is [None] for the zero time; [timer] is the duration the timer was last armed with, [timerC] whether its
    channel holds a tick; [resetCh] and [c] are channels of capacity one. *)
Record Timeout : Type := MkTimeout {
  start : option Z;
  timer : Z;
  timerC : bool;
  lastExtension : Z;
  tactive : Z;
  disabled : bool;
  resetCh : list Z;
  tc : list Z;
  timedout : bool;
  hasReset : bool;
  due : Z
}.
#[global] Instance Timeout_eta : Eta Timeout := λ t,
  MkTimeout (start t) (timer t) (timerC t) (lastExtension t) (tactive t) (disabled t) (resetCh t)
    (tc t) (timedout t) (hasReset t) (due t).

Section timeout.
(** [TICK_ERROR] *)
Context (tickError : Z).

(** [time.Since(t.start)]; the distance to the zero time saturates. *)
Definition Since (now : Z) (t : Timeout) : Z :=
  match start t with Some s => now - s | None => 2 ^ 63 - 1 end.

Definition getTimeout (now ext : Z) (t : Timeout) : Z * Z :=
  if decide (ext < 0) then (1 * Millisecond, i64 (Since now t + 1 * Millisecond))
  else
    let n := Since now t in
    let d := i64 (ceilDiv (i64 (n + ext)) TICK * TICK - tickError) in
    (i64 (d - n), d).

Definition NewTimeout (now d : Z) : Timeout :=
  let t := MkTimeout None 0 false d 0 false [] [] false false 0 in
  let '(timeout, du) := getTimeout now d t in
  t <| due := du |> <| timer := timeout |>.

Definition StartWithCalibration (st : Z) (t : Timeout) : Timeout := t <| start := Some st |>.
Definition Start (now : Z) (t : Timeout) : Timeout := StartWithCalibration now t.

(** [Stop] drains the timer. *)
Definition Stop (t : Timeout) : Timeout := t <| timerC := false |>.
Definition Disable (t : Timeout) : bool * Timeout := (negb (disabled t), t <| disabled := true |>).
Definition Enable (t : Timeout) : bool * Timeout := (disabled t, t <| disabled := false |>).
Definition Halt (t : Timeout) : Timeout := Stop (Disable t).2.
Definition IsDisabled (t : Timeout) : bool := disabled t.

Definition Busy (t : Timeout) : Timeout := t <| tactive ::= (λ n, i32 (n + 1)) |>.
Definition DoneBusy (t : Timeout) : Timeout := t <| tactive ::= (λ n, i32 (n - 1)) |>.
Definition IsBusy (t : Timeout) : bool := bool_decide (0 < tactive t).

(** [resetLocked], run without interruption: an unread extension is replaced. *)
Definition resetLocked (now : Z) (t : Timeout) : Timeout :=
  t <| due := (getTimeout now (lastExtension t) t).2 |>
    <| resetCh := [lastExtension t] |> <| hasReset := true |>.

(** [Reset], under the session's lock; [done] is the session's. *)
Definition Reset_ok (done : bool) (t : Timeout) : bool := negb (timedout t || disabled t || done).
Definition Timeout_Reset (now : Z) (done : bool) (t : Timeout) : bool * Timeout :=
  if Reset_ok done t then (true, resetLocked now t) else (false, t).
Definition ResetWithExtension (now : Z) (done : bool) (ext : Z) (t : Timeout) : bool * Timeout :=
  Timeout_Reset now done (t <| lastExtension := ext |>).
Definition DoneBusyWithReset (now : Z) (done : bool) (ext : Z) (t : Timeout) : Timeout :=
  DoneBusy (ResetWithExtension now done ext t).2.
Definition Restart (now : Z) (done : bool) (ext : Z) (t : Timeout) : Timeout :=
  (ResetWithExtension now done ext (Enable t).2).2.

(** ** timeout.go: the goroutine [validateTimeout] and the callers of [Reset]

    The session's lock serialises the critical sections, so one of them runs at
    a time: [crit] is how far its [resetLocked] got, [RCheck] while the
    validator makes its checks, [None] when the lock is free.  The receive from
    [t.reset] is not under the lock, and neither are [Busy] and [Disable], so
    that the checks of the validator are steps of their own. *)

Inductive rphase : Set := RCheck | RTry | RTake | RPut | RFlag.
(** The conditions of the double check, in their order, and the signal. *)
Inductive check : Set := CReset | CDisabled | CBusy | CDue | CSignal.
Inductive vphase : Set :=
  | VSelect            (* in the select *)
  | VExt (ext : Z)     (* received an extension *)
  | VClear             (* has re-armed the timer *)
  | VTick (ti : Z)     (* received a tick, waits for the lock *)
  | VCheck (c : check) (ti : Z)   (* holds the lock, about to check *)
  | VReset             (* in resetLocked *)
  | VEnd.
#[global] Instance rphase_eq_dec : EqDecision rphase.
Proof. solve_decision. Defined.
#[global] Instance check_eq_dec : EqDecision check.
Proof. solve_decision. Defined.
#[global] Instance vphase_eq_dec : EqDecision vphase.
Proof. solve_decision. Defined.

(** [armed] is when the timer fires, [fired] the time in its channel. *)
Record TSys : Type := MkTSys {
  tmo : Timeout;
  tnow : Z;
  armed : option Z;
  fired : Z;
  sdone : bool;
  crit : option rphase;
  vph : vphase
}.
#[global] Instance TSys_eta : Eta TSys := λ s,
  MkTSys (tmo s) (tnow s) (armed s) (fired s) (sdone s) (crit s) (vph s).

Inductive tact : Set :=
  | AElapse (d : Z) | AFire | AStart (st : Z)
  | AExtend (ext : Z) | AReset | ACrit
  | ABusy | ADoneBusy | ADisable | AEnable | AStop | ADone | AConsume
  | ARecvDone | ARecvReset | AExt | AClear | ATick | ALock | ACheck.

(** The head of [resetLocked]. *)
Definition resetDue (now : Z) (t : Timeout) : Timeout :=
  t <| due := (getTimeout now (lastExtension t) t).2 |>.

(** One step of the rest of it; [None] is a goroutine blocked on the channel. *)
Definition resetStep (p : rphase) (s : TSys) : option TSys :=
  let t := tmo s in
  match p, resetCh t with
  | RTry, [] | RPut, [] =>
      Some (s <| tmo := t <| resetCh := [lastExtension t] |> |> <| crit := Some RFlag |>)
  | RTry, _ :: _ => Some (s <| crit := Some RTake |>)
  | RTake, _ :: r => Some (s <| tmo := t <| resetCh := r |> |> <| crit := Some RPut |>)
  | RTake, [] | RPut, _ :: _ | RCheck, _ => None
  | RFlag, _ =>
      Some (s <| tmo := t <| hasReset := true |> |> <| crit := None |>
              <| vph ::= (λ v, if decide (v = VReset) then VSelect else v) |>)
  end.

(** [case extension := <-t.reset] up to the write of [hasReset]. *)
Definition gotExtension (ext : Z) (s : TSys) : TSys :=
  let '(timeout, du) := getTimeout (tnow s) ext (tmo s) in
  s <| tmo := Stop (tmo s) <| due := du |> <| timer := timeout |> |>
    <| armed := Some (tnow s + timeout) |> <| vph := VClear |>.

(** [case ti := <-t.timer.C] once the lock is taken, one condition at a time. *)
Definition gotTick (c : check) (ti : Z) (s : TSys) : TSys :=
  let t := tmo s in
  let unlock (t : Timeout) := s <| tmo := t |> <| crit := None |> <| vph := VSelect |> in
  let reset := s <| tmo := resetDue (tnow s) t |> <| crit := Some RTry |> <| vph := VReset |> in
  let next (c : check) := s <| vph := VCheck c ti |> in
  match c with
  | CReset => if hasReset t then unlock t else next CDisabled
  | CDisabled => if IsDisabled t then unlock t else next CBusy
  | CBusy => if IsBusy t then reset else next CDue
  | CDue => if decide (Since (tnow s) t < due t) then reset else next CSignal
  | CSignal => unlock (t <| tc := [ti] |> <| timedout := true |>)
  end.

Definition validateStep (a : tact) (s : TSys) : option TSys :=
  let t := tmo s in
  match a, vph s with
  | ARecvDone, VSelect => if sdone s then Some (s <| vph := VEnd |>) else None
  | ARecvReset, VSelect =>
      match resetCh t with
      | e :: r => Some (s <| tmo := t <| resetCh := r |> |> <| vph := VExt e |>)
      | [] => None
      end
  | AExt, VExt e => Some (gotExtension e s)
  | AClear, VClear => Some (s <| tmo := t <| hasReset := false |> |> <| vph := VSelect |>)
  | ATick, VSelect =>
      if timerC t then
        Some (s <| tmo := t <| timerC := false |> <| tc := [] |> |> <| vph := VTick (fired s) |>)
      else None
  | ALock, VTick ti =>
      if crit s is Some _ then None else Some (s <| crit := Some RCheck |> <| vph := VCheck CReset ti |>)
  | ACheck, VCheck c ti => Some (gotTick c ti s)
  | _, _ => None
  end.

Definition tstep (a : tact) (s : TSys) : option TSys :=
  let t := tmo s in
  match a with
  | AElapse d => if decide (0 ≤ d) then Some (s <| tnow ::= Z.add d |>) else None
  | AFire =>
      match armed s with
      | Some d => if decide (d ≤ tnow s) then
          Some (s <| tmo := t <| timerC := true |> |> <| armed := None |> <| fired := tnow s |>) else None
      | None => None
      end
  | AStart st => Some (s <| tmo := StartWithCalibration st t |>)
  | AExtend ext => Some (s <| tmo := t <| lastExtension := ext |> |>)
  | AReset =>
      if crit s is Some _ then None
      else if Reset_ok (sdone s) t then Some (s <| tmo := resetDue (tnow s) t |> <| crit := Some RTry |>)
      else Some s
  | ACrit => p ← crit s; resetStep p s
  | ABusy => Some (s <| tmo := Busy t |>)
  | ADoneBusy => Some (s <| tmo := DoneBusy t |>)
  | ADisable => Some (s <| tmo := (Disable t).2 |>)
  | AEnable => Some (s <| tmo := (Enable t).2 |>)
  | AStop => Some (s <| tmo := Stop t |> <| armed := None |>)
  | ADone => if crit s is Some _ then None else Some (s <| sdone := true |>)
  | AConsume => Some (s <| tmo := t <| tc := [] |> |>)
  | _ => validateStep a s
  end.

Fixpoint trun (l : list tact) (s : TSys) : option TSys :=
  match l with [] => Some s | a :: l => tstep a s ≫= trun l end.

Definition tinit (now d : Z) : TSys :=
  let t := NewTimeout now d in MkTSys t now (Some (now + timer t)) 0 false None VSelect.
End timeout.
