(* ===== verification/LifetimeTheorems.v ===== *)
(** * The timeout of a lambda: properties

    The deadline computed in floating point is the exact one; the system of the
    timeout's goroutine and the goroutines that reset it, as a step relation:
    what was checked when it signals, when it refuses, and two races of
    [resetLocked]. *)

From S2P Require Import Prelude Lambdastore Lifetime.

(** ** Rounding *)

Definition ceiling (x y : Z) : Z := - ((- x) `div` y).

Lemma ceiling_bounds x y : 0 < y → (ceiling x y - 1) * y < x ≤ ceiling x y * y.
Proof.
  intros Hy. unfold ceiling.
  pose proof (Z.div_mod (- x) y ltac:(lia)). pose proof (Z.mod_pos_bound (- x) y Hy). nia.
Qed.

Lemma ceiling_unique x y c : 0 < y → (c - 1) * y < x ≤ c * y → ceiling x y = c.
Proof. intros Hy Hc. pose proof (ceiling_bounds x y Hy). nia. Qed.

Lemma roundNE_half a b : 0 < b → - b ≤ 2 * (roundNE a b * b - a) ≤ b.
Proof.
  intros Hb. unfold roundNE.
  pose proof (Z.div_mod a b ltac:(lia)). pose proof (Z.mod_pos_bound a b Hb).
  repeat case_match; nia.
Qed.

Lemma log2_lt_53 x : 0 < x < 2 ^ 53 → Z.log2 x ≤ 52.
Proof. intros [? ?]. assert (Z.log2 x < 53) by (apply Z.log2_lt_pow2; lia). lia. Qed.

Lemma fscale_large x y : 0 < x < 2 ^ 53 → Z.log2 y ≤ fscale x y.
Proof. intros Hx. pose proof (log2_lt_53 x Hx). unfold fscale. case_decide; lia. Qed.

(** Below 2^53 the rounded quotient never reaches the integer below or passes
    the one above. *)
Lemma ceilDiv_exact x y : 0 ≤ x < 2 ^ 53 → 0 < y → ceilDiv x y = ceiling x y.
Proof.
  intros Hx Hy. unfold ceilDiv. rewrite Z.abs_eq by lia.
  assert (f64 x = x) as -> by (unfold f64; case_decide; lia).
  case_decide as H0.
  { subst x. unfold ceiling. by rewrite Zdiv_0_l. }
  rewrite (decide_False (P:=x < 0)) by lia.
  pose proof (fscale_large x y ltac:(lia)) as Hs. pose proof (Z.log2_nonneg y).
  set (s := fscale x y) in *.
  assert (0 < y < 2 * 2 ^ s) as HT.
  { split; [done|]. rewrite <-Z.pow_succ_r by lia. destruct (Z.log2_spec y Hy) as [_ Hlt].
    apply (Z.lt_le_trans _ _ _ Hlt). apply Z.pow_le_mono_r; lia. }
  pose proof (roundNE_half (x * 2 ^ s) y ltac:(lia)) as Hr.
  pose proof (ceiling_bounds x y ltac:(lia)) as Hc.
  set (m := roundNE _ _) in *. set (c := ceiling x y) in *.
  change (ceiling m (2 ^ s) = c). set (p := 2 ^ s) in *.
  apply ceiling_unique; [lia|]. split.
  - assert (((c - 1) * y + 1) * p ≤ x * p) by (apply Z.mul_le_mono_nonneg_r; lia). nia.
  - assert (x * p ≤ c * y * p) by (apply Z.mul_le_mono_nonneg_r; lia). nia.
Qed.

(** C18: the deadline of [getTimeout], computed with [math.Ceil] on binary64
    quotients, is the exact one for 104 days: the least multiple of [TICK] at
    or above the elapsed time plus the extension, less the error margin; the
    timer is armed with the time left until then. *)
Theorem getTimeout_exact tickError now ext t s :
  start t = Some s → 0 ≤ now - s → 0 ≤ ext → now - s + ext < 2 ^ 53 →
  0 ≤ tickError ≤ TICK →
  let d := ceiling (now - s + ext) TICK * TICK - tickError in
  getTimeout tickError now ext t = (d - (now - s), d) ∧
  (TICK | d + tickError) ∧
  now - s + ext - tickError ≤ d < now - s + ext + TICK - tickError.
Proof.
  intros Hs Hn He Hx Ht d.
  pose proof (ceiling_bounds (now - s + ext) TICK eq_refl) as Hc.
  assert (TICK = 100000000) as HT by done.
  unfold getTimeout, Since. rewrite Hs, decide_False by lia. cbv zeta.
  rewrite (i64_small (now - s + ext)) by (unfold is_i64; lia).
  rewrite ceilDiv_exact by (done || lia). fold d.
  assert (now - s + ext - tickError ≤ d < now - s + ext + TICK - tickError) as Hd by (subst d; lia).
  split_and!; try lia.
  - f_equal; [|apply i64_small; unfold is_i64; lia].
    rewrite (i64_small d) by (unfold is_i64; lia). apply i64_small. unfold is_i64. lia.
  - exists (ceiling (now - s + ext) TICK). subst d. lia.
Qed.

Lemma getTimeout_exact_witness :
  let t := Start 5 (NewTimeout TICK_10_ERROR 5 TICK_10_ERROR_EXTEND) in
  start t = Some 5 ∧ getTimeout TICK_10_ERROR 30000005 TICK_10_ERROR t = (68000000, 98000000).
Proof.
  intros t. split; [done|].
  destruct (getTimeout_exact TICK_10_ERROR 30000005 TICK_10_ERROR t 5) as [-> _];
    [done|done|done|done|split; done|]. by vm_compute.
Defined.

(** ** The system *)

Section system.
Context (te : Z).
Implicit Types (s : TSys) (a : tact).
#[local] Instance tact_eq_dec : EqDecision tact.
Proof. solve_decision. Defined.

Definition tmoves s s' : Prop := ∃ a, tstep te a s = Some s'.
Abbreviation steps := (rtc tmoves).

Ltac tmove H :=
  repeat (first [ progress (cbv beta iota zeta in H; simplify_option_eq)
                | match type of H with context [match ?x with _ => _ end] => destruct x eqn:? end ]).

Lemma trun_steps l s s' : trun te l s = Some s' → steps s s'.
Proof.
  revert s. induction l as [|a l IH]; intros s; [by intros [= ->]|]. cbn [trun].
  destruct (tstep te a s) as [s1|] eqn:E; [|done]. intros Hr.
  apply (rtc_l _ _ s1); [by exists a|by apply IH].
Qed.

(** A critical section that is not interrupted is [resetLocked]. *)
Lemma reset_uninterrupted s :
  crit s = None → vph s ≠ VReset → (length (resetCh (tmo s)) ≤ 1)%nat →
  Reset_ok (sdone s) (tmo s) = true →
  ∃ l, (∀ a, a ∈ l → a = ACrit) ∧
    trun te (AReset :: l) s = Some (s <| tmo := resetLocked te (tnow s) (tmo s) |>).
Proof.
  destruct s as [t n ar fi sd cr v]. destruct t as [st ti tC le ac di rc c to hr du].
  cbn. intros -> Hv Hl Hok. destruct rc as [|x [|y r]]; [| |simpl in Hl; lia].
  - exists [ACrit; ACrit]. split; [set_solver|]. cbn. rewrite Hok. cbn.
    rewrite decide_False by done. done.
  - exists [ACrit; ACrit; ACrit; ACrit]. split; [set_solver|]. cbn. rewrite Hok. cbn.
    rewrite decide_False by done. done.
Qed.

(** ** When the validator signals *)

(** One critical section of the validator: it found the timeout enabled in
    [s2], then the lambda not busy in [s3], then the deadline reached in [s4],
    the flag of a pending reset being down from before [s2] to [s4]. *)
Record expires s2 s3 s4 : Prop := {
  ex_23 : steps s2 s3;
  ex_34 : steps s3 s4;
  ex_2 : disabled (tmo s2) = false ∧ hasReset (tmo s2) = false ∧ crit s2 = Some RCheck;
  ex_3 : IsBusy (tmo s3) = false ∧ hasReset (tmo s3) = false ∧ crit s3 = Some RCheck;
  ex_4 : due (tmo s4) ≤ Since (tnow s4) (tmo s4) ∧ hasReset (tmo s4) = false ∧ crit s4 = Some RCheck
}.

(** Only the last check signals. *)
Lemma gotTick_signal c ti s :
  let s' := gotTick te c ti s in
  timedout (tmo s') = timedout (tmo s) ∧ tc (tmo s') ⊆ tc (tmo s) ∨ c = CSignal ∧ timedout (tmo s') = true.
Proof. destruct c; cbn; [..|by right]; left; by repeat case_match. Qed.

Lemma step_signal a s s' :
  tstep te a s = Some s' →
  timedout (tmo s') = timedout (tmo s) ∧ tc (tmo s') ⊆ tc (tmo s) ∨
  (∃ ti, vph s = VCheck CSignal ti) ∧ timedout (tmo s') = true.
Proof.
  intros H. destruct (decide (a = ACheck)) as [->|Hne].
  - cbn in H. destruct (vph s) eqn:Ev; try done. injection H as <-.
    destruct (gotTick_signal c ti s) as [?|[-> ?]]; [by left|right]. split; [by eexists|done].
  - destruct a; cbn in H; unfold validateStep, resetStep, gotExtension in H;
      tmove H; left; try destruct (getTimeout _ _ _ _); (split; [done|set_solver]).
Qed.

Lemma timedout_stays s s' : steps s s' → timedout (tmo s) = true → timedout (tmo s') = true.
Proof.
  induction 1 as [|s1 s2 s3 [a Ha] _ IH]; [done|]. intros H. apply IH.
  destruct (step_signal a s1 s2 Ha) as [[-> _]|[_ ->]]; done.
Qed.

(** What has been checked, at each stage of the critical section. *)
Definition passed s0 s (c : check) : Prop :=
  match c with
  | CReset => True
  | CDisabled => hasReset (tmo s) = false
  | CBusy => hasReset (tmo s) = false ∧ ∃ s2, steps s0 s2 ∧ steps s2 s ∧
      disabled (tmo s2) = false ∧ hasReset (tmo s2) = false ∧ crit s2 = Some RCheck
  | CDue => hasReset (tmo s) = false ∧ ∃ s2 s3, steps s0 s2 ∧ steps s2 s3 ∧ steps s3 s ∧
      (disabled (tmo s2) = false ∧ hasReset (tmo s2) = false ∧ crit s2 = Some RCheck) ∧
      IsBusy (tmo s3) = false ∧ hasReset (tmo s3) = false ∧ crit s3 = Some RCheck
  | CSignal => ∃ s2 s3 s4, steps s0 s2 ∧ steps s4 s ∧ expires s2 s3 s4
  end.

Lemma passed_mono s0 s s' c :
  passed s0 s c → tmoves s s' → hasReset (tmo s') = hasReset (tmo s) → passed s0 s' c.
Proof.
  intros Hp Hm Hh. pose proof (rtc_once _ _ Hm) as Hr.
  destruct c; cbn in *; rewrite ?Hh; [done|done| | |].
  - destruct Hp as (?&s2&?&?&?). split; [done|]. exists s2. split_and!; [done|by etrans|naive_solver..].
  - destruct Hp as (?&s2&s3&?&?&?&?). split; [done|]. exists s2, s3. split_and!; [done|done|by etrans|naive_solver..].
  - destruct Hp as (s2&s3&s4&?&?&?). exists s2, s3, s4. split_and!; [done|by etrans|done].
Qed.

(** The critical section, as the other goroutines leave it: the flag is not
    touched, since that needs the lock. *)
Lemma checking_step a s s' c ti :
  tstep te a s = Some s' → vph s = VCheck c ti → crit s = Some RCheck → a ≠ ACheck →
  vph s' = vph s ∧ crit s' = crit s ∧ hasReset (tmo s') = hasReset (tmo s).
Proof.
  intros H Hv Hc Ha. destruct a; cbn in H; unfold validateStep in H; rewrite ?Hv, ?Hc in H;
    try done; tmove H; by split_and!.
Qed.

Lemma entered a s s' c ti :
  tstep te a s = Some s' → vph s' = VCheck c ti → (∀ c' ti', vph s ≠ VCheck c' ti') →
  c = CReset ∧ crit s' = Some RCheck.
Proof.
  intros H Hv Hn. destruct a; cbn in H; unfold validateStep, resetStep, gotExtension in H;
    tmove H; try destruct (getTimeout _ _ _ _); simplify_eq/=; try case_decide; simplify_eq; try done;
    naive_solver.
Qed.

(** A check that goes on has found its condition false. *)
Lemma gotTick_next s0 c ti c' ti' s :
  steps s0 s → crit s = Some RCheck → passed s0 s c → tmoves s (gotTick te c ti s) →
  vph (gotTick te c ti s) = VCheck c' ti' →
  crit (gotTick te c ti s) = Some RCheck ∧ passed s0 (gotTick te c ti s) c'.
Proof.
  intros H0 Hc Hp Hm%rtc_once Hv. revert Hm Hv. unfold gotTick.
  destruct c; cbn in Hp |- *; case_match eqn:E || case_decide as E || idtac; intros Hm [= <- <-] || intros _ [=];
    cbn; (split; [done|]).
  - done.
  - split; [done|]. by exists s.
  - destruct Hp as (Hh&s2&Hs2&Hs&H2). split; [done|]. exists s2, s. destruct H2 as (?&?&?). by split_and!.
  - destruct Hp as (Hh&s2&s3&Hs2&Hs3&Hs&H2&H3). exists s2, s3, s. split_and!; [done|done|]. split; [done..|]. split_and!; [lia|done|done].
Qed.

Definition TInv s0 s : Prop :=
  (∀ c ti, vph s = VCheck c ti → crit s = Some RCheck ∧ passed s0 s c) ∧
  (tc (tmo s) ≠ [] →
   (∃ s2 s3 s4, steps s0 s2 ∧ steps s4 s ∧ expires s2 s3 s4) ∧ timedout (tmo s) = true).

Lemma TInv_step s0 s s' : steps s0 s → TInv s0 s → tmoves s s' → TInv s0 s'.
Proof.
  intros H0 [I1 I2] Hm. pose proof Hm as [a Ha]. split.
  - intros c ti Hv. destruct (vph s) as [| | | |c0 ti0| |] eqn:Ev;
      try (destruct (entered a s s' c ti Ha Hv) as [-> ?]; [congruence|done]).
    destruct (I1 c0 ti0 eq_refl) as [Hc Hp]. destruct (decide (a = ACheck)) as [->|Hne].
    + pose proof Ha as Ha'. cbn in Ha'. rewrite Ev in Ha'. injection Ha' as <-.
      by apply (gotTick_next s0 c0 ti0 c ti s).
    + destruct (checking_step a s s' c0 ti0 Ha Ev Hc Hne) as (Ev'&Ec'&Eh). rewrite Ev', Ev in Hv.
      injection Hv as -> ->. split; [congruence|]. by apply (passed_mono s0 s).
  - intros Hne. destruct (step_signal a s s' Ha) as [[Ht Hsub]|[[ti Hv] Ht]].
    + destruct I2 as [(s2&s3&s4&?&?&?) Ht1].
      * intros E. rewrite E in Hsub. by apply list_nil_subseteq in Hsub.
      * split; [|congruence]. exists s2, s3, s4. split_and!; [done|by eapply rtc_r|done].
    + destruct (I1 _ _ Hv) as (_&s2&s3&s4&?&?&?). split; [|done].
      exists s2, s3, s4. split_and!; [done|by eapply rtc_r|done].
Qed.

Lemma reachable_TInv now d s : steps (tinit te now d) s → TInv (tinit te now d) s.
Proof.
  intros Hr. pattern s. revert s Hr. apply rtc_ind_r.
  - unfold TInv, tinit, NewTimeout. by destruct (getTimeout _ _ _ _).
  - intros s1 s2 Hr Hm HI. by eapply TInv_step.
Qed.

(** C19: a value on [C()] comes from one critical section of the validator in
    which it found, one after the other, the timeout enabled, the lambda not
    busy, and the elapsed time at or past the deadline [t.due], with the flag
    [hasReset] down all along; and from then on every [Reset] is refused, so
    that the lambda may return.  The conditions hold when each is checked, not
    at one moment, and the deadline is the last one that was computed: an
    extension that is granted while the validator handles an earlier one may
    have been overwritten ([reset_lost]). *)
Theorem timeout_only_idle now d s :
  steps (tinit te now d) s → tc (tmo s) ≠ [] →
  (∃ s2 s3 s4, steps (tinit te now d) s2 ∧ expires s2 s3 s4 ∧ steps s4 s) ∧
  ∀ s' done, steps s s' → Reset_ok done (tmo s') = false.
Proof.
  intros Hr Hc. destruct (reachable_TInv now d s Hr) as [_ H].
  destruct (H Hc) as [(s2&s3&s4&?&?&?) Ht]. split; [by exists s2, s3, s4|].
  intros s' dn Hs'. unfold Reset_ok. by rewrite (timedout_stays s s' Hs' Ht).
Qed.

(** A caller past the [default] of [resetLocked] while the validator has
    emptied the channel. *)
Definition stuck s : Prop :=
  crit s = Some RTake ∧ resetCh (tmo s) = [] ∧
  match vph s with VReset | VCheck _ _ => False | _ => True end ∧ sdone s = false ∧
  timedout (tmo s) = false ∧ tc (tmo s) = [].

Lemma stuck_step s s' : stuck s → tmoves s s' → stuck s'.
Proof.
  intros (Hc&Hr&Hv&Hd&Ht&Hn) [a H]. unfold stuck.
  destruct a; cbn in H; unfold validateStep, resetStep, gotExtension in H;
    rewrite ?Hc, ?Hr, ?Hd in H; tmove H; try destruct (getTimeout _ _ _ _);
    by (split_and!; simplify_eq/=).
Qed.

Lemma stuck_steps s s' : stuck s → steps s s' → stuck s'.
Proof. intros H. induction 1; eauto using stuck_step. Qed.
End system.

(** The trace of the deadlock: two resets, the second one preempted after it
    found the channel full. *)
Definition deadlock_trace (now : Z) : list tact :=
  [AStart now; AReset; ACrit; ACrit; AReset; ACrit; ARecvReset].

(** C32: [resetLocked] can deadlock the lambda.  Its receive from [t.reset] in
    the [default] branch assumes that the extension found there is still
    there, but [validateTimeout] receives without the lock: from any new
    timeout a state is reached in which the caller of [Reset] holds the
    session's lock and waits on the empty channel for ever, so the lock is
    never free, the session is never done and the timeout never signalled. *)
Theorem reset_deadlock te now d :
  ∃ s, rtc (tmoves te) (tinit te now d) s ∧
    ∀ s', rtc (tmoves te) s s' →
      crit s' = Some RTake ∧ resetCh (tmo s') = [] ∧ sdone s' = false ∧ tc (tmo s') = [].
Proof.
  destruct (trun te (deadlock_trace now) (tinit te now d)) as [s|] eqn:E.
  - exists s. split; [by eapply trun_steps|]. intros s' Hs.
    assert (stuck s) as Hst.
    { revert E. unfold tinit, NewTimeout. destruct (getTimeout _ _ _ _). cbn. intros [= <-].
      by split_and!. }
    by destruct (stuck_steps te s s' Hst Hs) as (?&?&?&?&?&?).
  - exfalso. revert E. unfold tinit, NewTimeout. by destruct (getTimeout _ _ _ _).
Qed.

(** The trace of the lost extension: the validator has received a short
    extension when a long one is granted. *)
Definition lost_trace : list tact :=
  [AStart 0; AExtend TICK_10_ERROR; AReset; ACrit; ACrit; ARecvReset;
   AExtend (10 * 1000 * Millisecond); AReset; ACrit; ACrit].
Definition lost_rest : list tact :=
  [AExt; AClear; AElapse (98 * Millisecond); AFire; ATick; ALock] ++ replicate 5 ACheck.

(** A granted extension can be ignored: [Reset] has completed with a deadline
    of 9.998 seconds, and the timeout is signalled after 98 milliseconds. *)
Lemma reset_lost :
  ∃ s1 s2, rtc (tmoves TICK_10_ERROR) (tinit TICK_10_ERROR 0 TICK_10_ERROR_EXTEND) s1 ∧
    crit s1 = None ∧ due (tmo s1) = 9998 * Millisecond ∧
    trun TICK_10_ERROR lost_rest s1 = Some s2 ∧
    timedout (tmo s2) = true ∧ Since (tnow s2) (tmo s2) = 98 * Millisecond.
Proof.
  destruct (trun TICK_10_ERROR lost_trace (tinit TICK_10_ERROR 0 TICK_10_ERROR_EXTEND))
    as [s1|] eqn:E; [|by vm_compute in E].
  destruct (trun TICK_10_ERROR lost_rest s1) as [s2|] eqn:E2.
  - exists s1, s2. split; [by eapply trun_steps|].
    vm_compute in E. injection E as <-. vm_compute in E2. injection E2 as <-. by split_and!.
  - vm_compute in E. injection E as <-. by vm_compute in E2.
Qed.

Definition expiring_trace : list tact :=
  [AStart 0; AExtend TICK_10_ERROR; AReset; ACrit; ACrit; ARecvReset] ++ lost_rest.

Lemma timeout_only_idle_witness :
  ∃ s, trun TICK_10_ERROR expiring_trace (tinit TICK_10_ERROR 0 TICK_10_ERROR_EXTEND) = Some s ∧
    tc (tmo s) = [98000000] ∧ Reset_ok false (tmo s) = false.
Proof.
  destruct (trun TICK_10_ERROR expiring_trace (tinit TICK_10_ERROR 0 TICK_10_ERROR_EXTEND))
    as [s|] eqn:E; [|by vm_compute in E].
  exists s. split; [done|].
  assert (tc (tmo s) = [98000000]) as Hc by (vm_compute in E; by injection E as <-).
  split; [done|].
  apply (timeout_only_idle TICK_10_ERROR 0 TICK_10_ERROR_EXTEND s); [by eapply trun_steps| |done].
  by rewrite Hc.
Defined.
