(* ===== verification/Migrator.v ===== *)
(** * lambda/migrator: moving the chunks of a lambda to another

    The connection of a migration and its [ready] channel, and the reader that
    keeps what passes through it.  The calls on the channel are given as whole
    operations, and again cut at their channel operations and interleaved. *)

From stdpp Require Import pretty.
From S2P Require Import Prelude Lambdastore Request Erasure Client Storage.

(** ** client.go *)

Definition ErrClosedPrematurely : string := "Client closed before ready.".
Definition ErrClosed : string := "Client closed.".

(** [ready] is a channel of capacity one: [pending] what it holds, [rclosed]
    whether it is closed.  [mcn] is the connection, [None] when nil. *)
Record MClient : Type := MkMClient {
  mcn : option nat;
  mcnOpen : bool;
  pending : list string;
  rclosed : bool
}.
#[global] Instance MClient_eta : Eta MClient := λ c,
  MkMClient (mcn c) (mcnOpen c) (pending c) (rclosed c).

Definition NewMClient : MClient := MkMClient None false [] false.

(** A receive that can proceed: [Some None] is nil, from the closed channel. *)
Definition tryRecv : M MClient (option error) := λ c,
  match pending c with
  | e :: r => Done (Some (Some e), c <| pending := r |>)
  | [] => Done (if rclosed c then Some None else None, c)
  end.
Definition recvReady : M MClient error :=
  r ← tryRecv; match r with Some e => mret e | None => blocked end.
Definition sendReady (e : string) : M MClient unit := λ c,
  if rclosed c then Panics PClosed
  else match pending c with
       | [] => Done ((), c <| pending := [e] |>)
       | _ :: _ => Spins
       end.

(** [Initiate]: [ini] is what the initiator returns, [others] what the other
    goroutines do to the client before the last receive. *)
Definition reopen : M MClient unit :=
  r ← tryRecv;
  if decide (r = Some None) then modify (λ c, c <| pending := [] |> <| rclosed := false |>) else mret ().
Definition Initiate (ini : error) (others : M MClient unit) : M MClient error :=
  match ini with
  | Some e => mret (Some e)
  | None => reopen;; others;; recvReady
  end.

(** [Connect]: [dial] is [net.Dial], by the address. *)
Definition Connect (dial : string → nat + string) (addr : string) : M MClient error :=
  match dial addr with
  | inl n => modify (λ c, c <| mcn := Some n |> <| mcnOpen := true |>);; mret None
  | inr e => modify (λ c, c <| mcn := None |>);; sendReady e;; mret (Some e)
  end.

(** [TriggerDestination]: [invoke] is the invocation of a function with an event,
    its status code or its error. *)
Definition TriggerDestination {A} (invoke : string → A → Z + string) (dest : string) (args : A) : M MClient error :=
  let err := match invoke dest args with
             | inr e => Some e
             | inl code => if decide (300 ≤ code) then
                 Some ("Unexpected http code on triggering destination of migration: " +:+ pretty code)
                 else None
             end in
  match err with Some e => sendReady e;; mret (Some e) | None => mret None end.

(** [Send]: the calls on the writer; a command with its arguments, and a
    stream as the last bulk. *)
Definition Send_ops (cmd : string) (stream : shard) (args : list string) : list COp :=
  let n := Z.of_nat (length args) in
  [CMultiBulkSize (match stream with None => n + 1 | Some _ => n + 2 end); CBulkString cmd] ++
  (CBulkString <$> args) ++ match stream with Some b => [CCopyBulk b] | None => [] end.

(** The errors the writer returns decide; on success the calls end in a flush. *)
Definition Send (cpErr flErr : error) (cmd : string) (stream : shard) (args : list string) :
    list COp + string :=
  match stream, cpErr, flErr with
  | Some _, Some e, _ => inr e
  | _, _, Some e => inr e
  | _, _, None => inl (Send_ops cmd stream args ++ [CFlush])
  end.

Definition IsReady : M MClient bool :=
  r ← tryRecv;
  match r with
  | Some None => mret true
  | Some (Some e) => sendReady e;; mret false
  | None => mret false
  end.

Definition SetError (err : string) : M MClient unit :=
  r ← tryRecv;
  match r with
  | Some None => mret ()
  | _ => sendReady err
  end.

Definition SetReady : M MClient unit :=
  r ← tryRecv;
  match r with
  | Some _ => mret ()
  | None => modify (λ c, c <| rclosed := true |>)
  end.

Definition MClient_Close : M MClient unit :=
  c ← mget;
  _ ← expect PNil (mcn c);
  modify (λ c, c <| mcnOpen := false |>).

(** [WaitForMigration]: [err] is what serving the connection returned. *)
Definition EOF : string := "EOF".
Definition WaitForMigration (err : error) : M MClient unit :=
  match err with
  | None => MClient_Close
  | Some e =>
      ok ← IsReady;
      (if (ok : bool) then mret ()
       else sendReady (if decide (e = EOF) then ErrClosedPrematurely else e));;
      MClient_Close
  end.

(** ** intercept_reader.go *)

Record InterceptReader : Type := MkInterceptReader {
  ibuf : bytes;
  ir : nat;
  ilast : error
}.
#[global] Instance InterceptReader_eta : Eta InterceptReader := λ i,
  MkInterceptReader (ibuf i) (ir i) (ilast i).

Definition NewInterceptReader (len : nat) : InterceptReader :=
  MkInterceptReader (replicate len Byte.x00) 0 None.

(** [Read]: the underlying reader gave the bytes [p] and the error [err]. *)
Definition Intercept_Read (rd : bytes * error) : M InterceptReader unit := λ i,
  let '(p, err) := rd in
  let i := i <| ilast := err |> in
  match p with
  | [] => Done ((), i)
  | _ :: _ =>
      if decide (ir i ≤ length (ibuf i))%nat then
        Done ((), i <| ibuf := take (ir i) (ibuf i) ++ go_copy (drop (ir i) (ibuf i)) p |>
                    <| ir ::= (λ n, n + length p)%nat |>)
      else Panics PSlice
  end.
Definition Intercepted (i : InterceptReader) : bytes := ibuf i.
Definition LastError (i : InterceptReader) : error := ilast i.

(** A reader of [len] bytes read to where its consumer stopped. *)
Definition intercept (len : nat) (rds : list (bytes * error)) : res (unit * InterceptReader) :=
  mfor rds Intercept_Read (NewInterceptReader len).

(** ** The channel [ready] *)

(** Several goroutines call the methods of a client at once: the one that serves
    the proxy, the one that serves the migrator, and the invocation.  A call is
    cut where another goroutine can come in: before a send, a receive, and the
    close of the channel.  [ISendOn] and [IRecvOn] have evaluated the channel. *)
Inductive instr : Type :=
  | ISend (e : string) | ISendOn (k : nat) (e : string)
  | IRecv | IRecvOn (k : nat)
  | IIsReady (err : option string) (* to send when not ready *)
  | ISetError (e : string)
  | ISetReady | IClose
  | IInitiate.

Inductive mop : Type :=
  | OpConnect (e : string) (* that fails *)
  | OpTrigger (e : string) (* that fails *)
  | OpSetError (e : string)
  | OpSetReady
  | OpIsReady
  | OpReceive
  | OpWait (e : string)
  | OpInitiate.
Definition code (o : mop) : instr :=
  match o with
  | OpConnect e | OpTrigger e => ISend e
  | OpSetError e => ISetError e
  | OpSetReady => ISetReady
  | OpIsReady => IIsReady None
  | OpReceive => IRecv
  | OpWait e => IIsReady (Some (if decide (e = EOF) then ErrClosedPrematurely else e))
  | OpInitiate => IInitiate
  end.

(** The channels a client had, with what they hold and whether they are closed;
    the current one; who holds [mu], which callers of [SetReady] hold; and what
    the goroutines have to do. *)
Record Chans : Type := MkChans {
  chans : list (list string * bool); cur : nat; muHolder : option nat; progs : gmap nat (list instr)
}.
#[global] Instance Chans_eta : Eta Chans := λ s, MkChans (chans s) (cur s) (muHolder s) (progs s).
Definition newChans (ops : gmap nat (list mop)) : Chans := MkChans [([], false)] 0 None (fmap (M := gmap nat) (fmap (M := list) code) ops).

Definition goes (g : nat) (l : list instr) (s : Chans) : Chans := s <| progs ::= insert g l |>.
Definition setChan (k : nat) (c : list string * bool) (s : Chans) : Chans := s <| chans ::= insert k c |>.

(** The next part of goroutine [g]; it blocks where it cannot go on. *)
Definition istep (g : nat) (s : Chans) : res Chans :=
  match progs s !! g, chans s !! cur s with
  | Some (i :: rest), Some (buf, closed) =>
      match i with
      | ISend e => Done (goes g (ISendOn (cur s) e :: rest) s)
      | ISendOn k e =>
          match chans s !! k with
          | Some (_, true) => Panics PClosed
          | Some ([], false) => Done (goes g rest (setChan k ([e], false) s))
          | _ => Spins
          end
      | IRecv => Done (goes g (IRecvOn (cur s) :: rest) s)
      | IRecvOn k =>
          match chans s !! k with
          | Some (_ :: buf', c) => Done (goes g rest (setChan k (buf', c) s))
          | Some ([], true) => Done (goes g rest s)
          | _ => Spins
          end
      | IIsReady err =>
          let notReady := match err with Some e => ISend e :: rest | None => rest end in
          match buf with
          | e :: buf' => Done (goes g (ISend e :: notReady) (setChan (cur s) (buf', closed) s))
          | [] => Done (goes g (if (closed : bool) then rest else notReady) s)
          end
      | ISetError e =>
          match buf with
          | _ :: buf' => Done (goes g (ISend e :: rest) (setChan (cur s) (buf', closed) s))
          | [] => Done (goes g (if (closed : bool) then rest else ISend e :: rest) s)
          end
      | ISetReady =>
          match muHolder s, buf with
          | Some _, _ => Spins
          | None, _ :: buf' => Done (goes g rest (setChan (cur s) (buf', closed) s))
          | None, [] => Done (if (closed : bool) then goes g rest s else goes g (IClose :: rest) s <| muHolder := Some g |>)
          end
      | IClose =>
          if (closed : bool) then Panics PClosed
          else Done (goes g rest (setChan (cur s) (buf, true) s) <| muHolder := None |>)
      | IInitiate =>
          match buf with
          | _ :: buf' => Done (goes g (IRecv :: rest) (setChan (cur s) (buf', closed) s))
          | [] =>
              if (closed : bool) then Done (goes g (IRecv :: rest) (s <| chans ::= (λ l, l ++ [([], false)]) |> <| cur := length (chans s) |>))
              else Done (goes g (IRecv :: rest) s)
          end
      end
  | _, _ => Spins
  end.
Definition rstep (s s' : Chans) : Prop := ∃ g, istep g s = Done s'.

(** ** Its invariant *)

Definition calm (i : instr) : bool := match i with IClose => false | _ => true end.
Definition calms (l : list instr) : Prop := Forall (λ i, calm i = true) l.






Ltac calm := let Hr := fresh in intros Hr; unfold calms in *; repeat case_match; repeat (apply list.Forall_cons_2; [done|]); done.




(** A schedule of the goroutines. *)
Fixpoint runChans (l : list nat) (s : Chans) : res Chans :=
  match l with
  | [] => Done s
  | g :: l => match istep g s with Done s' => runChans l s' | Panics e => Panics e | Spins => Spins end
  end.
Lemma runChans_steps l s s' : runChans l s = Done s' → rtc rstep s s'.
Proof.
  revert s. induction l as [|g l IH]; intros s Hr; cbn in Hr; [by injection Hr as <-|].
  destruct (istep g s) as [s1|?|] eqn:E; [|done..]. eapply rtc_l; [by exists g|by apply IH].
Qed.

(** C31: [IsReady] and [SetReady] race.  Whenever an error is in the channel and
    nobody holds the lock, a goroutine in [IsReady] takes the error out to look
    at it; a goroutine in [SetReady] that looks meanwhile finds the channel
    empty and closes it; and the first one, which puts the error back, sends
    on the closed channel: the lambda panics. *)
Theorem ready_race s g1 g2 e rest1 rest2 err :
  g1 ≠ g2 → chans s !! cur s = Some ([e], false) → muHolder s = None →
  progs s !! g1 = Some (IIsReady err :: rest1) → progs s !! g2 = Some (ISetReady :: rest2) →
  ∃ s1 s2 s3, istep g1 s = Done s1 ∧ istep g2 s1 = Done s2 ∧ istep g2 s2 = Done s3 ∧
    ∃ s4, istep g1 s3 = Done s4 ∧ istep g1 s4 = Panics PClosed.
Proof.
  intros Hne Hc Hm H1 H2. assert (Hlt : (cur s < length (chans s))%nat) by (by eapply lookup_lt_Some).
  eexists _, _, _. split; [unfold istep; by rewrite H1, Hc|]. split.
  { unfold istep. cbn. rewrite lookup_insert_ne, H2, list_lookup_insert_eq by done. cbn. by rewrite Hm. }
  split.
  { unfold istep. cbn. rewrite lookup_insert_eq, list_lookup_insert_eq by done. done. }
  eexists. split.
  { unfold istep. cbn. rewrite !(lookup_insert_ne _ g2 g1), lookup_insert_eq, list_insert_insert_eq, list_lookup_insert_eq by done. done. }
  unfold istep. cbn. by rewrite lookup_insert_eq, !list_lookup_insert_eq by done.
Qed.

(** The goroutine that serves the migrator has reported that its connection was
    closed, and looks, while the one that served the proxy flags the client ready. *)
Definition racing : Chans := newChans {[ 0%nat := [OpSetReady]; 1%nat := [OpWait EOF; OpIsReady] ]}.
Lemma ready_race_witness : ∃ s s', rtc rstep racing s ∧ rtc rstep s s' ∧ istep 1 s' = Panics PClosed.
Proof.
  destruct (runChans [1%nat; 1%nat; 1%nat] racing) as [s|?|] eqn:E; [|vm_compute in E; discriminate E..].
  assert (Hr : rtc rstep racing s) by (by eapply runChans_steps).
  assert (Hs : chans s !! cur s = Some ([ErrClosedPrematurely], false) ∧ muHolder s = None ∧
    progs s !! 1%nat = Some [IIsReady None] ∧ progs s !! 0%nat = Some [ISetReady]).
  { vm_compute in E. injection E as <-. split; [reflexivity|]. split; [reflexivity|]. split; reflexivity. }
  destruct Hs as (Hc&Hm&H1&H0).
  destruct (ready_race s 1 0 ErrClosedPrematurely [] [] None) as (s1&s2&s3&E1&E2&E3&s4&E4&E5);
    [discriminate|exact Hc|exact Hm|exact H1|exact H0|].
  exists s, s4. split; [exact Hr|]. split; [|exact E5].
  eapply rtc_l; [exists 1%nat; exact E1|]. eapply rtc_l; [exists 0%nat; exact E2|].
  eapply rtc_l; [exists 0%nat; exact E3|]. apply rtc_once. exists 1%nat. exact E4.
Defined.

(** [WaitForMigration] blocks for ever on the full channel when an error is
    already pending, and never closes the connection. *)
Lemma WaitForMigration_blocks c x e :
  pending c = [x] → rclosed c = false → WaitForMigration (Some e) c = Spins.
Proof.
  destruct c as [cn co p cl]. cbn. intros -> ->. done.
Qed.
