(* ===== verification/StorageAdapter.v ===== *)
(** * lambda/migrator/storage_adapter.go: the store of a destination

    The interface [types.Storage] is the class [StorageOps], its contract the class
    [StoreLaws]; lambda/storage implements it, and so does the adapter, which
    asks the source of the migration for what it does not hold yet.  The
    commands of the adapter are shared by pointer through a pool, and its get
    handler is cut where it waits for the reader of a stream. *)

From stdpp Require Import pretty.
From S2P Require Import Prelude Lambdastore Request Erasure Client Storage Migrator.

(** ** types.Storage

    What the environment of an operation does is given with it: the errors of
    the copy, the flush, the peek and the [ReadAll] of a response, the reads
    that the consumer of a stream makes, the bytes and the error of each, and
    the element of the pool of commands that it gets.  A stream to be stored
    yields all its bytes, or an error. *)

Abbreviation reads := (list (list Byte.byte * option string)) (only parsing).
Record AIO : Type := MkAIO {
  aCopy : error; aFlush : error; aPeek : error; aAll : error; aReads : reads; aPick : option nat
}.

Class StorageOps (St : Type) : Type := {
  sGet : Z → AIO → string → M St ((string * bytes) + string);
  sGetStream : Z → AIO → string → M St ((string * bytes) + string);
  sSetStream : Z → AIO → string → string → bytes + string → M St error;
  sDel : Z → AIO → string → string → M St error;
  sLen : St → Z;
  sKeys : St → list string → Prop;
  sNew : St
}.

(** The consumer read all of [b], without an error. *)
Definition whole (rds : reads) (b : bytes) : Prop :=
  concat rds.*1 = b ∧ ∀ e, list.last rds.*2 = Some e → e = None.
(** ... or met one in the end. *)
Definition fair (rds : reads) (b : bytes) : Prop :=
  (length (concat rds.*1) ≤ length b)%nat ∧ (whole rds b ∨ ∃ e, list.last rds.*2 = Some (Some e)).

(** The connection works. *)
Definition online (io : AIO) : Prop :=
  aCopy io = None ∧ aFlush io = None ∧ aPeek io = None ∧ aAll io = None.

Class StoreLaws (St : Type) `{!StorageOps St} : Type := {
  sContent : St → string → option (string * bytes);
  sOk : St → Prop;
  sGet_spec s now io key :
    sOk s → online io → (∀ id b, sContent s key = Some (id, b) → fair (aReads io) b) →
    ∃ r s', sGetStream now io key s = Done (r, s') ∧ sOk s' ∧
      (∀ k, sContent s' k = sContent s k) ∧
      match sContent s key with Some x => r = inl x | None => ∃ e, r = inr e end;
  sSet_spec s now io key id b :
    sOk s → online io → whole (aReads io) b →
    ∃ s', sSetStream now io key id (inl b) s = Done (None, s') ∧ sOk s' ∧
      ∀ k, sContent s' k = if decide (k = key) then Some (id, b) else sContent s k;
  sDel_spec s now io key id :
    sOk s → online io →
    ∃ e s', sDel now io key id s = Done (e, s') ∧ sOk s' ∧
      (sContent s key ≠ None → e = None) ∧
      ∀ k, sContent s' k = if decide (k = key) then None else sContent s k
}.

(** lambda/storage. *)
#[global] Instance Storage_Store : StorageOps (gmap string Chunk) := {|
  sGet now _ key := Storage_Get now key;
  sGetStream now _ key := Storage_GetStream now key;
  sSetStream now _ key id val := Storage_SetStream now key id val;
  sDel now _ key id := Storage_Del now key id;
  sLen := Storage_Len;
  sKeys s l := ∃ all, all ≡ₚ (map_to_list s).*2 ∧ l = Storage_Keys all;
  sNew := Storage_New
|}.

#[global] Program Instance Storage_Laws : StoreLaws (gmap string Chunk) := {|
  sContent := content;
  sOk := keyed
|}.
Next Obligation.
  intros s now io key Hs _ _. destruct (Get_content now key s) as (s'&Hg&Hc).
  eexists _, s'. split; [exact Hg|]. split; [by eapply keyed_Get|]. split; [done|].
  by destruct (content s key); [|eexists].
Qed.
Next Obligation.
  intros s now io key id b Hs _ _. destruct (Set_content now key id b s) as (s'&Hg&Hc).
  exists s'. split; [exact Hg|]. split; [by eapply keyed_Set|done].
Qed.
Next Obligation.
  intros s now io key id Hs _. destruct (Del_content now key id s) as (e&s'&Hg&He&Hc).
  exists e, s'. split; [exact Hg|]. split; [by eapply keyed_Del|]. split; [|done].
  intros Hk. apply He. unfold content in Hk. destruct (s !! key); [done|done].
Qed.

(** ** The adapter *)

Definition ErrSkip : string := "Skiped".

(** What a reader of responses yields. *)
Inductive Item : Type :=
  | IError (s : string)
  | IBulk (b : bytes)
  | IInt (z : Z).

(** The peer of a migration connection: it serves a command and answers. *)
Class Remote (R : Type) : Type := rServe : Z → list COp → M R (list Item).

Record storageAdapterCommand : Type := MkCommand {
  cmdKey : string;
  cmdChunk : string;
  cmdStream : shard
}.
#[global] Instance storageAdapterCommand_eta : Eta storageAdapterCommand := λ c,
  MkCommand (cmdKey c) (cmdChunk c) (cmdStream c).

Definition zeroCommand : storageAdapterCommand := MkCommand "" "" None.

(** Commands are shared by pointer: [commands] are those made so far, and
    [cmdPool] those in the [sync.Pool] that is the variable [cmds].
    [streaming] is the command and the stream that the serializer waits for in
    the middle of [getHandler], at [interceptor.Close()]. *)
Record StorageAdapter (R : Type) : Type := MkStorageAdapter {
  amigrator : R;
  astore : gmap string Chunk;
  lastError : error;
  adone : bool;
  commands : list storageAdapterCommand;
  cmdPool : list nat;
  streaming : option (nat * bytes)
}.
Arguments MkStorageAdapter {R}.
Arguments amigrator {R}. Arguments astore {R}. Arguments lastError {R}. Arguments adone {R}.
Arguments commands {R}. Arguments cmdPool {R}. Arguments streaming {R}.
#[global] Instance StorageAdapter_eta R : Eta (StorageAdapter R) := λ a,
  MkStorageAdapter (amigrator a) (astore a) (lastError a) (adone a) (commands a) (cmdPool a) (streaming a).

Definition ReadBulkString : M (list Item) (string + string) := λ l,
  match l with
  | IBulk b :: l => Done (inl (String.string_of_list_byte b), l)
  | [] => Done (inr EOF, l)
  | _ :: _ => Done (inr "resp: unexpected type", l)
  end.
Definition StreamBulk : M (list Item) (bytes + string) := λ l,
  match l with
  | IBulk b :: l => Done (inl b, l)
  | [] => Done (inr EOF, l)
  | _ :: _ => Done (inr "resp: unexpected type", l)
  end.

(** [readGetResponse] after the peek.  The error of [StreamBulk] is dropped,
    which leaves the stream nil. *)
Definition readItems (cmd : storageAdapterCommand) : M (list Item) (error * storageAdapterCommand) :=
  name ← ReadBulkString;
  match name with
  | inr e => mret (Some e, cmd)
  | inl name =>
  conn ← ReadBulkString;
  match conn with
  | inr e => mret (Some e, cmd)
  | inl _ =>
  req ← ReadBulkString;
  match req with
  | inr e => mret (Some e, cmd)
  | inl _ =>
  chunk ← ReadBulkString;
  match chunk with
  | inr e => mret (Some e, cmd <| cmdChunk := "" |>)
  | inl chunk =>
      let cmd := cmd <| cmdChunk := chunk |> in
      if decide (ToLower name = "get") then
        st ← StreamBulk;
        mret (None, cmd <| cmdStream := match st with inl b => Some b | inr _ => None end |>)
      else mret (None, cmd)
  end end end end.

Section adapter.
Context {R : Type} `{HR : !Remote R}.
Implicit Types a : StorageAdapter R.

Definition newStorageAdapter (r : R) (store : gmap string Chunk) : StorageAdapter R :=
  MkStorageAdapter r store None false [] [] None.

(** [cmds.Get]: an element of the pool, or a new command; [cmds.Put]. *)
Definition takeCmd (pick : option nat) : M (StorageAdapter R) nat := λ a,
  match i ← pick; c ← cmdPool a !! i; Some (i, c) with
  | Some (i, c) => Done (c, a <| cmdPool ::= delete i |>)
  | None => Done (length (commands a), a <| commands ::= (λ l, l ++ [zeroCommand]) |>)
  end.
Definition putCmd (c : nat) : M (StorageAdapter R) unit := modify (λ a, a <| cmdPool ::= cons c |>).
Definition getCmd (c : nat) : M (StorageAdapter R) storageAdapterCommand :=
  a ← mget; expect PNil (commands a !! c).
Definition setCmd (c : nat) (f : storageAdapterCommand → storageAdapterCommand) : M (StorageAdapter R) unit :=
  modify (λ a, a <| commands ::= alter f c |>).

Definition Restore a : gmap string Chunk * StorageAdapter R := (astore a, a <| adone := true |>).

Definition readGetResponse (io : AIO) (items : list Item) (cmd : storageAdapterCommand) :
    M (StorageAdapter R) (error * storageAdapterCommand) :=
  match aPeek io with
  | Some e => modify (λ a, a <| lastError := Some e |>);; mret (Some ErrClosed, cmd)
  | None =>
      match items with
      | IError s :: _ => mret (Some ("Error in migration response: " +:+ s), cmd)
      | _ => λ a, match readItems cmd items with
                  | Done (r, _) => Done (r, a)
                  | Panics e => Panics e
                  | Spins => Spins
                  end
      end
  end.

(** [a.migrator.Send] and [readGetResponse]. *)
Definition exchange (now : Z) (io : AIO) (name : string) (stream : shard) (args : list string)
    (cmd : storageAdapterCommand) : M (StorageAdapter R) (error * storageAdapterCommand) :=
  match Send (aCopy io) (aFlush io) name stream args with
  | inr e => mret (Some e, cmd)
  | inl ops =>
      items ← zoom amigrator (λ r a, a <| amigrator := r |>) (rServe now ops);
      readGetResponse io items cmd
  end.

Definition onStore {A} (c : M (gmap string Chunk) A) : M (StorageAdapter R) A :=
  zoom astore (λ s a, a <| astore := s |>) c.

Definition onIntercept {A} (r : res (unit * InterceptReader)) (k : InterceptReader → M (StorageAdapter R) A) :
    M (StorageAdapter R) A := λ a,
  match r with Done (_, i) => k i a | Panics e => Panics e | Spins => Spins end.

(** ... for a command of the heap. *)
Definition exchangeOn (now : Z) (io : AIO) (name : string) (stream : shard) (args : list string)
    (c : nat) : M (StorageAdapter R) error :=
  cmd ← getCmd c;
  '(err, cmd) ← exchange now io name stream args cmd;
  setCmd c (λ _, cmd);;
  mret err.

(** [cmd.chunk, cmd.bodyStream, err = a.store.GetStream(cmd.key)] *)
Definition lookupLocal (now : Z) (c : nat) : M (StorageAdapter R) bool :=
  cmd ← getCmd c;
  r ← onStore (Storage_GetStream now (cmdKey cmd));
  match r with
  | inl (id, b) => setCmd c (λ x, x <| cmdChunk := id |> <| cmdStream := Some b |>);; mret true
  | inr _ => setCmd c (λ x, x <| cmdChunk := "" |> <| cmdStream := None |>);; mret false
  end.

(** The handlers, run by the serializer, with what they send on [cmd.err].
    [getHandler] sends it before the stream is read, and then waits for its
    reader: what follows is [getHandler_tail]. *)
Definition adapter_getHandler (now : Z) (io : AIO) (c : nat) : M (StorageAdapter R) error :=
  found ← lookupLocal now c;
  if (found : bool) then mret None else
  cmd ← getCmd c;
  err ← exchangeOn now io "get" None ["migrator"; "proxy"; ""; cmdKey cmd] c;
  match err with
  | Some e => mret (Some e)
  | None =>
      cmd ← getCmd c;
      body ← expect PNil (cmdStream cmd);
      modify (λ a, a <| streaming := Some (c, body) |>);;
      mret None
  end.

(** From [interceptor.Close()] on, once the consumer has made its reads.  The
    key and the chunk id are those that the command has then. *)
Definition getHandler_tail (now : Z) (rds : reads) : M (StorageAdapter R) unit :=
  a ← mget;
  match streaming a with
  | None => mret ()
  | Some (c, body) =>
      modify (λ a, a <| streaming := None |>);;
      onIntercept (intercept (length body) rds) (λ i,
        match LastError i with
        | Some _ => mret ()
        | None =>
            cmd ← getCmd c;
            _ ← onStore (Storage_Set now (cmdKey cmd) (cmdChunk cmd) (Some (Intercepted i)));
            mret ()
        end)
  end.

(** The stream of the command is [body]. *)
Definition adapter_setHandler (now : Z) (io : AIO) (body : bytes) (c : nat) : M (StorageAdapter R) error :=
  cmd ← getCmd c;
  err ← exchangeOn now io "set" (Some body) ["migrator"; "proxy"; cmdChunk cmd; cmdKey cmd] c;
  match err with
  | Some e => mret (Some e)
  | None =>
      onIntercept (intercept (length body) (aReads io)) (λ i,
        match LastError i with
        | Some e => mret (Some e)
        | None =>
            cmd ← getCmd c;
            onStore (Storage_Set now (cmdKey cmd) (cmdChunk cmd) (Some (Intercepted i)));;
            mret None
        end)
  end.

Definition migrateHandler (now : Z) (io : AIO) (c : nat) : M (StorageAdapter R) error :=
  found ← lookupLocal now c;
  if (found : bool) then mret (Some ErrSkip) else
  cmd ← getCmd c;
  err ← exchangeOn now io "get" None ["migrator"; "migrate"; ""; cmdKey cmd] c;
  match err with
  | Some e => mret (Some e)
  | None =>
      cmd ← getCmd c;
      body ← expect PNil (cmdStream cmd);
      match aAll io with
      | Some e => mret (Some e)
      | None => onStore (Storage_Set now (cmdKey cmd) (cmdChunk cmd) (Some body));; mret None
      end
  end.

Definition adapter_delHandler (now : Z) (io : AIO) (c : nat) : M (StorageAdapter R) error :=
  cmd ← getCmd c;
  err ← exchangeOn now io "del" None ["migrator"; "proxy"; cmdChunk cmd; cmdKey cmd] c;
  match err with
  | Some e => mret (Some e)
  | None =>
      cmd ← getCmd c;
      onStore (Storage_Del now (cmdKey cmd) (cmdChunk cmd));;
      mret None
  end.

(** The operations wait for the serializer, which ends with [Restore] and
    takes no command while it waits for the reader of a stream. *)
Definition serialized {A} (c : M (StorageAdapter R) A) : M (StorageAdapter R) A :=
  a ← mget; if adone a || bool_decide (is_Some (streaming a)) then blocked else c.

(** The start of an operation, a command with its fields, before it is sent
    to the serializer; and the rest of it. *)
Definition newCmd (pick : option nat) (f : storageAdapterCommand → storageAdapterCommand) :
    M (StorageAdapter R) nat :=
  c ← takeCmd pick; setCmd c f;; mret c.
Definition withKey (key : string) (x : storageAdapterCommand) : storageAdapterCommand := x <| cmdKey := key |>.

Definition awaitGet (now : Z) (io : AIO) (c : nat) : M (StorageAdapter R) ((string * bytes) + string) :=
  err ← serialized (adapter_getHandler now io c);
  cmd ← getCmd c;
  putCmd c;;
  match err with
  | Some e => mret (inr e)
  | None => body ← expect PNil (cmdStream cmd); mret (inl (cmdChunk cmd, body))
  end.
Definition Adapter_GetStream (now : Z) (io : AIO) (key : string) :
    M (StorageAdapter R) ((string * bytes) + string) :=
  c ← newCmd (aPick io) (withKey key); awaitGet now io c.
(** ... with the reads of its consumer, and then the rest of [getHandler]. *)
Definition Adapter_ReadStream (now : Z) (io : AIO) (key : string) :
    M (StorageAdapter R) ((string * bytes) + string) :=
  r ← Adapter_GetStream now io key; getHandler_tail now (aReads io);; mret r.

(** A stream that fails makes the copy of [Send] fail. *)
Definition Adapter_SetStream (now : Z) (io : AIO) (key chunk : string) (val : bytes + string) :
    M (StorageAdapter R) error :=
  c ← newCmd (aPick io) (λ x, x <| cmdKey := key |> <| cmdChunk := chunk |>
                             <| cmdStream := match val with inl b => Some b | inr _ => None end |>);
  err ← serialized match val with
                   | inl b => adapter_setHandler now io b c
                   | inr e => mret (Some e)
                   end;
  putCmd c;;
  mret err.

Definition awaitMigrate (now : Z) (io : AIO) (c : nat) : M (StorageAdapter R) (string + string) :=
  err ← serialized (migrateHandler now io c);
  cmd ← getCmd c;
  putCmd c;;
  mret (match err with Some e => inr e | None => inl (cmdChunk cmd) end).
Definition Adapter_Migrate (now : Z) (io : AIO) (key : string) : M (StorageAdapter R) (string + string) :=
  c ← newCmd (aPick io) (withKey key); awaitMigrate now io c.

Definition Adapter_Del (now : Z) (io : AIO) (key chunk : string) : M (StorageAdapter R) error :=
  c ← newCmd (aPick io) (λ x, x <| cmdKey := key |> <| cmdChunk := chunk |>);
  err ← serialized (adapter_delHandler now io c);
  putCmd c;;
  mret err.
Definition LocalDel (now : Z) (key : string) : M (StorageAdapter R) unit :=
  _ ← onStore (Storage_Del now key ""); mret ().
(** [Get] and [Set] read and make a stream. *)
Definition Adapter_Get (now : Z) (io : AIO) (key : string) : M (StorageAdapter R) ((string * bytes) + string) :=
  r ← Adapter_ReadStream now io key;
  mret (match r, aAll io with inl _, Some e => inr e | _, _ => r end).
Definition Adapter_Set (now : Z) (io : AIO) (key chunk : string) (val : bytes) : M (StorageAdapter R) error :=
  Adapter_SetStream now io key chunk (inl val).
Definition Adapter_Len a : Z := Storage_Len (astore a).
Definition Adapter_Keys a (l : list string) : Prop := sKeys (astore a) l.
End adapter.

(** ** The variable [store] of a lambda: its own storage, or an adapter *)

Inductive AnyStore (R : Type) : Type :=
  | Plain (s : gmap string Chunk)
  | Adapted (a : StorageAdapter R).
Arguments Plain {R}. Arguments Adapted {R}.

Section any.
Context {R : Type} `{HR : !Remote R}.

Definition onPlain {A} (c : M (gmap string Chunk) A) (s : gmap string Chunk) : res (A * AnyStore R) :=
  match c s with Done (x, s') => Done (x, Plain s') | Panics e => Panics e | Spins => Spins end.
Definition onAdapted {A} (c : M (StorageAdapter R) A) (a : StorageAdapter R) : res (A * AnyStore R) :=
  match c a with Done (x, a') => Done (x, Adapted a') | Panics e => Panics e | Spins => Spins end.

#[global] Instance AnyStore_Store : StorageOps (AnyStore R) := {|
  sGet now io key s := match s with
    | Plain s => onPlain (sGet now io key) s
    | Adapted a => onAdapted (Adapter_Get now io key) a end;
  sGetStream now io key s := match s with
    | Plain s => onPlain (sGetStream now io key) s
    | Adapted a => onAdapted (Adapter_ReadStream now io key) a end;
  sSetStream now io key id val s := match s with
    | Plain s => onPlain (sSetStream now io key id val) s
    | Adapted a => onAdapted (Adapter_SetStream now io key id val) a end;
  sDel now io key id s := match s with
    | Plain s => onPlain (sDel now io key id) s
    | Adapted a => onAdapted (Adapter_Del now io key id) a end;
  sLen s := match s with Plain s => sLen s | Adapted a => Adapter_Len a end;
  sKeys s := match s with Plain s => sKeys s | Adapted a => Adapter_Keys a end;
  sNew := Plain sNew
|}.
End any.

(** ** The contract of the peer *)

Definition sbytes (s : string) : bytes := String.list_byte_of_string s.
Definition cmdFrame (cmd : string) (stream : shard) (args : list string) : list COp :=
  Send_ops cmd stream args ++ [CFlush].

Class RemoteLaws (R : Type) `{!Remote R} : Type := {
  rContent : R → string → option (string * bytes);
  rOk : R → Prop;
  rGet_spec r now conn req chunk key :
    rOk r →
    ∃ items r', rServe now (cmdFrame "get" None [conn; req; chunk; key]) r = Done (items, r') ∧ rOk r' ∧
      (∀ k, rContent r' k = rContent r k) ∧
      match rContent r key with
      | Some (id, b) => items = IBulk <$> [sbytes "get"; sbytes conn; sbytes req; sbytes id; b]
      | None => ∃ e, items = [IError e]
      end;
  rSet_spec r now conn req chunk key b :
    rOk r →
    ∃ r', rServe now (cmdFrame "set" (Some b) [conn; req; chunk; key]) r =
        Done (IBulk <$> [sbytes "set"; sbytes conn; sbytes req; sbytes chunk], r') ∧ rOk r' ∧
      ∀ k, rContent r' k = if decide (k = key) then Some (chunk, b) else rContent r k;
  rDel_spec r now conn req chunk key :
    rOk r →
    ∃ items r', rServe now (cmdFrame "del" None [conn; req; chunk; key]) r = Done (items, r') ∧ rOk r' ∧
      (items = IBulk <$> [sbytes "del"; sbytes conn; sbytes req; sbytes chunk] ∨
       rContent r key = None ∧ ∃ e, items = [IError e]) ∧
      ∀ k, rContent r' k = if decide (k = key) then None else rContent r k
}.
