(* ===== verification/AdapterTheorems.v ===== *)
(** * The storage adapter implements the contract of a store

    Served through the adapter, the chunks are those of the source: reads of a
    chunk not held yet are forwarded and kept, writes and deletes go to both.
    This is for operations that do not share a command; the last part shows
    what a shared one does. *)

From S2P Require Import Prelude Lambdastore Request Erasure Client Storage Migrator StorageAdapter.

(** ** Interception *)

Lemma go_copy_prefix (p : bytes) m : (length p ≤ m)%nat →
  go_copy (replicate m Byte.x00) p = p ++ replicate (m - length p) Byte.x00.
Proof.
  intros Hm. unfold go_copy. rewrite length_replicate, drop_replicate, take_ge by lia. done.
Qed.

Lemma intercept_from rds pre m e :
  (length (concat rds.*1) ≤ m)%nat →
  mfor rds Intercept_Read (MkInterceptReader (pre ++ replicate m Byte.x00) (length pre) e) =
  Done ((), MkInterceptReader (pre ++ concat rds.*1 ++ replicate (m - length (concat rds.*1)) Byte.x00)
              (length pre + length (concat rds.*1)) (default e (list.last rds.*2))).
Proof.
  revert pre m e. induction rds as [|[p err] rds IH]; intros pre m e Hm.
  { cbn. by rewrite Nat.sub_0_r, Nat.add_0_r. }
  cbn [fmap list_fmap fst snd concat mfor] in *. rewrite length_app in Hm.
  assert (Intercept_Read (p, err) (MkInterceptReader (pre ++ replicate m Byte.x00) (length pre) e) =
    Done ((), MkInterceptReader ((pre ++ p) ++ replicate (m - length p) Byte.x00) (length (pre ++ p)) err)) as E.
  { unfold Intercept_Read. destruct p as [|x p]; cbn [update ilast].
    - cbn. by rewrite Nat.sub_0_r, app_nil_r.
    - cbn -[go_copy]. rewrite decide_True by (rewrite length_app; lia).
      rewrite take_app_length, drop_app_length, go_copy_prefix by (cbn in *; lia).
      by rewrite length_app, <- app_assoc. }
  rewrite (bind_done _ _ _ () _ E), IH by lia. rewrite !length_app. do 3 f_equal.
  - rewrite <- !app_assoc. do 3 f_equal. f_equal. lia.
  - lia.
  - rewrite last_cons. by destruct (list.last rds.*2).
Qed.

Lemma intercept_all len rds :
  (length (concat rds.*1) ≤ len)%nat →
  intercept len rds =
  Done ((), MkInterceptReader (concat rds.*1 ++ replicate (len - length (concat rds.*1)) Byte.x00)
              (length (concat rds.*1)) (default None (list.last rds.*2))).
Proof. apply (intercept_from rds []). Qed.

Lemma intercept_whole rds b : whole rds b →
  intercept (length b) rds = Done ((), MkInterceptReader b (length b) None).
Proof.
  intros [Hb He]. rewrite intercept_all by (by rewrite Hb). rewrite Hb, Nat.sub_diag, app_nil_r.
  destruct (list.last rds.*2) as [e|]; [|done]. by rewrite (He e eq_refl).
Qed.

(** What is kept of a stream is the stream, or nothing. *)
Lemma intercept_fair rds b : fair rds b →
  ∃ i, intercept (length b) rds = Done ((), i) ∧ (LastError i = None → Intercepted i = b).
Proof.
  intros [Hl [Hw|[e He]]].
  - eexists. split; [by apply intercept_whole|done].
  - eexists. split; [by apply intercept_all|]. unfold LastError. cbn. by rewrite He.
Qed.

(** ** Exchanges with the source *)

Section adapter.
Context {R : Type} `{HR : !Remote R} `{HL : !RemoteLaws R}.
Implicit Types (a : StorageAdapter R) (cmd : storageAdapterCommand).

Lemma string_sbytes s : String.string_of_list_byte (sbytes s) = s.
Proof. apply String.string_of_list_byte_of_string. Qed.

Lemma ReadBulkString_bulk s l : ReadBulkString (IBulk (sbytes s) :: l) = Done (inl s, l).
Proof. unfold ReadBulkString. by rewrite string_sbytes. Qed.

Lemma readItems_head name conn req id rest cmd :
  readItems cmd ((IBulk <$> [sbytes name; sbytes conn; sbytes req; sbytes id]) ++ rest) =
  (if decide (ToLower name = "get") then
     st ← StreamBulk;
     mret (None, cmd <| cmdChunk := id |>
                     <| cmdStream := match st with inl b => Some b | inr _ => None end |>)
   else mret (None, cmd <| cmdChunk := id |>)) rest.
Proof.
  unfold readItems. cbn [fmap list_fmap app].
  do 4 (erewrite bind_done by apply ReadBulkString_bulk; cbv beta iota zeta). done.
Qed.

Lemma exchange_serves now io name stream args cmd a items r' :
  online io → rServe now (cmdFrame name stream args) (amigrator a) = Done (items, r') →
  exchange now io name stream args cmd a =
  readGetResponse io items cmd (a <| amigrator := r' |>).
Proof.
  intros (Hc&Hf&_&_) Hs. unfold exchange. rewrite Hc, Hf.
  assert (Send None None name stream args = inl (cmdFrame name stream args)) as ->
    by (by destruct stream).
  erewrite bind_done; [reflexivity|]. unfold zoom. by rewrite Hs.
Qed.

Lemma readGetResponse_get io conn req id b cmd a :
  online io →
  readGetResponse io (IBulk <$> [sbytes "get"; sbytes conn; sbytes req; sbytes id; b]) cmd a =
  Done ((None, cmd <| cmdChunk := id |> <| cmdStream := Some b |>), a).
Proof.
  intros (_&_&Hp&_). unfold readGetResponse. rewrite Hp.
  pose proof (readItems_head "get" conn req id [IBulk b] cmd) as E. cbn [fmap list_fmap app] in *.
  rewrite E. rewrite decide_True by done. done.
Qed.

Lemma readGetResponse_ack io name conn req id cmd a :
  online io → ToLower name ≠ "get" →
  readGetResponse io (IBulk <$> [sbytes name; sbytes conn; sbytes req; sbytes id]) cmd a =
  Done ((None, cmd <| cmdChunk := id |>), a).
Proof.
  intros (_&_&Hp&_) Hn. unfold readGetResponse. rewrite Hp.
  pose proof (readItems_head name conn req id [] cmd) as E. cbn [fmap list_fmap app] in *.
  rewrite E. by rewrite decide_False.
Qed.

Lemma readGetResponse_error io e cmd a :
  online io → readGetResponse io [IError e] cmd a =
  Done ((Some ("Error in migration response: " +:+ e), cmd), a).
Proof. intros (_&_&Hp&_). unfold readGetResponse. by rewrite Hp. Qed.

(** What is held locally is what the source has. *)
Definition coherent a : Prop :=
  ∀ k x, content (astore a) k = Some x → rContent (amigrator a) k = Some x.
(** The serializer is free, and the pool has commands that exist. *)
Definition idle a : Prop :=
  adone a = false ∧ streaming a = None ∧ ∀ c, c ∈ cmdPool a → (c < length (commands a))%nat.
Definition serves a : Prop := rOk (amigrator a) ∧ keyed (astore a) ∧ idle a.
Definition adapts a : Prop :=
  rOk (amigrator a) ∧ keyed (astore a) ∧ idle a ∧ coherent a.
Lemma adapts_serves a : adapts a → serves a.
Proof. by intros (?&?&?&_). Qed.

Lemma idle_new (r : R) s : idle (newStorageAdapter r s).
Proof. split_and!; [done|done|]. intros c Hc. by apply not_elem_of_nil in Hc. Qed.
Lemma serialized_idle {A} (c : M (StorageAdapter R) A) a : idle a → serialized c a = c a.
Proof. intros (Hd&Hs&_). unfold serialized. erewrite bind_done by reflexivity. by rewrite Hd, Hs. Qed.
Lemma onStore_done {A} (c : M (gmap string Chunk) A) a x s' :
  c (astore a) = Done (x, s') → onStore c a = Done (x, a <| astore := s' |>).
Proof. intros H. unfold onStore, zoom. by rewrite H. Qed.

(** A local write of what the source has keeps the store coherent. *)
Lemma adapts_set a s' r' key id b :
  adapts a → rOk r' → keyed s' →
  (∀ k, content s' k = if decide (k = key) then Some (id, b) else content (astore a) k) →
  rContent r' key = Some (id, b) →
  (∀ k, k ≠ key → rContent r' k = rContent (amigrator a) k) →
  adapts (a <| amigrator := r' |> <| astore := s' |>).
Proof.
  intros (_&_&Hd&Hc) Hr Hs Hs' Hk Hr'. split_and!; [done..|]. intros k x. cbn. rewrite Hs'.
  case_decide as E; [subst; congruence|]. rewrite Hr' by done. apply Hc.
Qed.

Lemma exchange_get now io conn req key id b cmd a :
  rOk (amigrator a) → online io → rContent (amigrator a) key = Some (id, b) →
  ∃ r', exchange now io "get" None [conn; req; ""; key] cmd a =
      Done ((None, cmd <| cmdChunk := id |> <| cmdStream := Some b |>), a <| amigrator := r' |>) ∧
    rOk r' ∧ ∀ k, rContent r' k = rContent (amigrator a) k.
Proof.
  intros Hr Hio Hk. destruct (rGet_spec (amigrator a) now conn req "" key Hr) as (items&r'&Hs&Hr'&Hc&Hi).
  rewrite Hk in Hi. subst items. exists r'. split; [|done].
  by rewrite (exchange_serves _ _ _ _ _ _ _ _ _ Hio Hs), readGetResponse_get.
Qed.

Lemma exchange_get_none now io conn req key cmd a :
  rOk (amigrator a) → online io → rContent (amigrator a) key = None →
  ∃ e r', exchange now io "get" None [conn; req; ""; key] cmd a =
      Done ((Some e, cmd), a <| amigrator := r' |>) ∧
    e ≠ ErrClosed ∧ rOk r' ∧ ∀ k, rContent r' k = rContent (amigrator a) k.
Proof.
  intros Hr Hio Hk. destruct (rGet_spec (amigrator a) now conn req "" key Hr) as (items&r'&Hs&Hr'&Hc&Hi).
  rewrite Hk in Hi. destruct Hi as [e ->]. eexists _, r'.
  split; [by rewrite (exchange_serves _ _ _ _ _ _ _ _ _ Hio Hs), readGetResponse_error|].
  by split.
Qed.

(** The source's chunks stay as they are, no chunk held is lost, and those
    added are the source's. *)
Definition extends a a' : Prop :=
  serves a' ∧ (∀ k, rContent (amigrator a') k = rContent (amigrator a) k) ∧
  (∀ k x, content (astore a) k = Some x → content (astore a') k = Some x) ∧
  (∀ k x, content (astore a') k = Some x → content (astore a) k = Some x ∨ rContent (amigrator a) k = Some x).
Definition unchanged a a' : Prop :=
  adapts a' ∧ (∀ k, rContent (amigrator a') k = rContent (amigrator a) k) ∧
  ∀ k x, content (astore a) k = Some x → content (astore a') k = Some x.

Lemma extends_unchanged a a' : adapts a → extends a a' → unchanged a a'.
Proof.
  intros (_&_&_&Hc) ((Hr&Hk&Hi)&H1&H2&H3). split; [|done]. split_and!; [done..|]. intros k x Hx.
  rewrite H1. destruct (H3 k x Hx); [by apply Hc|done].
Qed.

(** A lookup in the local store that misses changes nothing to speak of. *)
Lemma local_get now key a :
  serves a → ∃ s', Storage_GetStream now key (astore a) =
      Done (match content (astore a) key with Some x => inl x | None => inr ErrNotFound end, s') ∧
    extends a (a <| astore := s' |>) ∧ (∀ k, content s' k = content (astore a) k).
Proof.
  intros (Hr&Hk&Hd). destruct (Get_content now key (astore a)) as (s'&Hg&Hs).
  exists s'. split; [exact Hg|]. split; [|done].
  split_and!; [|done|intros k x; cbn; by rewrite Hs|intros k x; cbn; rewrite Hs; by left].
  split_and!; [done| |done]. by eapply keyed_Get.
Qed.

Lemma extends_remote a r' :
  serves a → rOk r' → (∀ k, rContent r' k = rContent (amigrator a) k) → extends a (a <| amigrator := r' |>).
Proof. intros (Hr&Hk&Hd) Hr' Hs. split_and!; [done|done|done|by left]. Qed.

Lemma extends_trans a a1 a2 : extends a a1 → extends a1 a2 → extends a a2.
Proof.
  intros (_&H1&G1&F1) (H2&H3&G2&F2). split_and!; [done|intros k; by rewrite H3|eauto|].
  intros k x Hx. destruct (F2 k x Hx); [by apply F1|]. right. by rewrite <- H1.
Qed.

(** Keeping a chunk of the source. *)
Lemma keep_chunk now key id b a :
  serves a → rContent (amigrator a) key = Some (id, b) → content (astore a) key = None →
  ∃ a', onStore (Storage_Set now key id (Some b)) a = Done (None, a') ∧ extends a a' ∧
    (∀ k, content (astore a') k = if decide (k = key) then Some (id, b) else content (astore a) k).
Proof.
  intros (Hr&Hk&Hd) Hs Hn. destruct (Set_content now key id b (astore a)) as (s'&Hg&Hc).
  eexists. split; [by apply onStore_done|]. split; [|done]. split_and!; [|done| |].
  - split_and!; [done| |done]. by eapply keyed_Set.
  - intros k x Hx. cbn. rewrite Hc. case_decide; [subst; congruence|done].
  - intros k x. cbn. rewrite Hc. case_decide; [subst; intros [= <-]; by right|by left].
Qed.

Lemma onStore_Set_inv now key id b a r a' :
  onStore (Storage_Set now key id (Some b)) a = Done (r, a') →
  (∀ k, content (astore a') k = if decide (k = key) then Some (id, b) else content (astore a) k) ∧
  commands a' = commands a ∧ adone a' = adone a ∧ streaming a' = streaming a.
Proof.
  destruct (Set_content now key id b (astore a)) as (s'&Hg&Hs). rewrite (onStore_done _ _ _ _ Hg).
  by intros [= _ <-].
Qed.

(** ** Commands *)

Definition cell c cmd a : Prop := commands a !! c = Some cmd.

(** Only the commands and the pool differ. *)
Definition recmd a a' : Prop :=
  amigrator a' = amigrator a ∧ astore a' = astore a ∧ (idle a → idle a').

Lemma recmd_trans a a1 a2 : recmd a a1 → recmd a1 a2 → recmd a a2.
Proof. intros (H1&H2&H3) (G1&G2&G3). split_and!; [congruence|congruence|auto]. Qed.
Lemma recmd_extends a a' : serves a → recmd a a' → extends a a'.
Proof.
  intros (Hr&Hk&Hi) (E1&E2&E3). split_and!; [|by rewrite E1|by rewrite E2|rewrite E2; by left].
  split_and!; [by rewrite E1|by rewrite E2|auto].
Qed.
Lemma extends_recmd a a1 a2 : extends a a1 → recmd a1 a2 → extends a a2.
Proof. intros Hu Hm. eapply extends_trans; [exact Hu|]. apply recmd_extends; [apply Hu|done]. Qed.

Lemma getCmd_run c cmd a : cell c cmd a → getCmd c a = Done (cmd, a).
Proof. intros Hc. unfold getCmd. erewrite bind_done by reflexivity. by rewrite Hc. Qed.
Lemma setCmd_run c cmd f a : cell c cmd a →
  ∃ a', setCmd c f a = Done ((), a') ∧ recmd a a' ∧ cell c (f cmd) a' ∧ cmdPool a' = cmdPool a.
Proof.
  intros Hc. eexists. split; [reflexivity|]. unfold recmd, cell.
  split_and!; [done|done| |cbn|done].
  - intros (H1&H2&H3). split_and!; [done|done|]. intros k Hk. cbn. rewrite length_alter. by apply H3.
  - rewrite list_lookup_alter, decide_True by done. by rewrite Hc.
Qed.
Lemma putCmd_run c cmd a : cell c cmd a →
  ∃ a', putCmd c a = Done ((), a') ∧ recmd a a' ∧ cell c cmd a' ∧ cmdPool a' = c :: cmdPool a.
Proof.
  intros Hc. eexists. split; [reflexivity|]. unfold recmd. split_and!; [done|done| |done|done].
  intros (H1&H2&H3). split_and!; [done|done|]. intros k Hk. cbn in Hk |- *.
  apply elem_of_cons in Hk as [->|Hk]; [by apply lookup_lt_Some in Hc|by apply H3].
Qed.
Lemma newCmd_run pick f a : idle a →
  ∃ c cmd a', newCmd pick f a = Done (c, a') ∧ recmd a a' ∧ cell c (f cmd) a'.
Proof.
  intros (H1&H2&H3). unfold newCmd.
  assert (∃ c cmd a', takeCmd pick a = Done (c, a') ∧ recmd a a' ∧ cell c cmd a') as (c&cmd&a1&E1&M1&C1).
  { unfold takeCmd. destruct (i ← pick; c ← cmdPool a !! i; Some (i, c)) as [[i c]|] eqn:Ep.
    - apply bind_Some in Ep as (j&_&Ep). apply bind_Some in Ep as (c'&Hc&[= -> ->]).
      pose proof (H3 c (list_elem_of_lookup_2 _ _ _ Hc)) as Hlt.
      apply lookup_lt_is_Some in Hlt as [cmd Hcmd]. exists c, cmd. eexists. split; [reflexivity|].
      unfold recmd. split_and!; [done|done| |done]. intros _. split_and!; [done|done|]. intros k Hk. apply H3. cbn in Hk.
      rewrite delete_take_drop in Hk. rewrite <- (take_drop_middle _ _ _ Hc). set_solver.
    - exists (length (commands a)), zeroCommand. eexists. split; [reflexivity|].
      unfold recmd. split_and!; [done|done| |unfold cell; cbn; by rewrite list_lookup_middle].
      intros _. split_and!; [done|done|]. intros k Hk. cbn. rewrite length_app. apply H3 in Hk. lia. }
  destruct (setCmd_run c cmd f a1 C1) as (a2&E2&M2&C2&_).
  erewrite bind_done by exact E1. erewrite bind_done by exact E2.
  exists c, cmd, a2. split; [done|]. split; [by eapply recmd_trans|done].
Qed.

Lemma exchangeOn_run now io name stream args c cmd a err cmd' a1 :
  cell c cmd a → exchange now io name stream args cmd a = Done ((err, cmd'), a1) → commands a1 = commands a →
  ∃ a', exchangeOn now io name stream args c a = Done (err, a') ∧ recmd a1 a' ∧ cell c cmd' a'.
Proof.
  intros Hc He Hs. unfold exchangeOn. erewrite bind_done by (by apply getCmd_run).
  erewrite bind_done by exact He.
  destruct (setCmd_run c cmd (λ _, cmd') a1) as (a'&E&M&C&_); [unfold cell; by rewrite Hs|].
  erewrite bind_done by exact E. by exists a'.
Qed.

Definition looked (cmd : storageAdapterCommand) (o : option (string * bytes)) : storageAdapterCommand :=
  match o with
  | Some (id, b) => cmd <| cmdChunk := id |> <| cmdStream := Some b |>
  | None => cmd <| cmdChunk := "" |> <| cmdStream := None |>
  end.
Lemma lookupLocal_run now c cmd a :
  serves a → cell c cmd a → ∃ a',
    lookupLocal now c a = Done (bool_decide (is_Some (content (astore a) (cmdKey cmd))), a') ∧
    extends a a' ∧ (∀ k, content (astore a') k = content (astore a) k) ∧
    cell c (looked cmd (content (astore a) (cmdKey cmd))) a'.
Proof.
  intros Ha Hc. unfold lookupLocal. destruct (local_get now (cmdKey cmd) a Ha) as (s'&Hg&Hu&Hs).
  erewrite bind_done by (by apply getCmd_run). erewrite bind_done by (by apply onStore_done).
  assert (C1 : cell c cmd (a <| astore := s' |>)) by done.
  destruct (content (astore a) (cmdKey cmd)) as [[id b]|];
    (edestruct (setCmd_run c cmd) as (a'&E&M&C&_); [exact C1|]);
    erewrite bind_done by exact E; exists a'; (split; [reflexivity|]);
    (split; [by eapply extends_recmd|]); (split; [|exact C]); intros k; destruct M as (_&->&_); apply Hs.
Qed.

(** A lookup at the source, of a command that was not found here. *)
Lemma ask_source now io conn req c cmd a :
  serves a → online io → cell c cmd a → cmdStream cmd = None →
  ∃ err a', exchangeOn now io "get" None [conn; req; ""; cmdKey cmd] c a = Done (err, a') ∧
    extends a a' ∧ astore a' = astore a ∧ ∃ cmd', cell c cmd' a' ∧ cmdKey cmd' = cmdKey cmd ∧
    match rContent (amigrator a) (cmdKey cmd) with
    | Some (id, b) => err = None ∧ cmdChunk cmd' = id ∧ cmdStream cmd' = Some b
    | None => ∃ e, err = Some e ∧ e ≠ ErrClosed
    end.
Proof.
  intros Ha Hio Hc _. pose proof (proj1 Ha) as Hr.
  destruct (rContent (amigrator a) (cmdKey cmd)) as [[id b]|] eqn:Er.
  - destruct (exchange_get now io conn req (cmdKey cmd) id b cmd a Hr Hio Er) as (r'&He&Hr'&Hc').
    destruct (exchangeOn_run _ _ _ _ _ c _ _ _ _ _ Hc He eq_refl) as (a'&E&M&C).
    eexists _, a'. split; [exact E|]. split; [eapply extends_recmd; [|exact M]; by apply extends_remote|].
    split; [apply M|]. by eexists.
  - destruct (exchange_get_none now io conn req (cmdKey cmd) cmd a Hr Hio Er) as (e&r'&He&Hne&Hr'&Hc').
    destruct (exchangeOn_run _ _ _ _ _ c _ _ _ _ _ Hc He eq_refl) as (a'&E&M&C).
    eexists _, a'. split; [exact E|]. split; [eapply extends_recmd; [|exact M]; by apply extends_remote|].
    split; [apply M|]. exists cmd. split_and!; [done|done|by exists e].
Qed.

(** [getHandler], up to its answer: the serializer is free again, or waits for
    the reader of the stream that the source sends. *)
Lemma adapter_getHandler_run now io c cmd a :
  serves a → online io → cell c cmd a →
  ∃ err cmd' a', adapter_getHandler now io c a = Done (err, a') ∧ cell c cmd' a' ∧ cmdKey cmd' = cmdKey cmd ∧
    (∀ k, content (astore a') k = content (astore a) k) ∧ extends a (a' <| streaming := None |>) ∧
    match content (astore a) (cmdKey cmd), rContent (amigrator a) (cmdKey cmd) with
    | Some (id, b), _ => err = None ∧ streaming a' = None ∧ cmdChunk cmd' = id ∧ cmdStream cmd' = Some b
    | None, Some (id, b) =>
        err = None ∧ streaming a' = Some (c, b) ∧ cmdChunk cmd' = id ∧ cmdStream cmd' = Some b
    | None, None => (∃ e, err = Some e) ∧ streaming a' = None
    end.
Proof.
  intros Ha Hio Hc. unfold adapter_getHandler.
  destruct (lookupLocal_run now c cmd a Ha Hc) as (a1&E1&U1&S1&C1).
  assert (Hfree : ∀ a', extends a a' → extends a (a' <| streaming := None |>) ∧ streaming a' = None).
  { intros [] Hu. pose proof Hu as ((_&_&_&Hs&_)&_). cbn in Hs. subst. done. }
  erewrite bind_done by exact E1.
  destruct (content (astore a) (cmdKey cmd)) as [[id b]|] eqn:El.
  { rewrite bool_decide_true by done. eexists _, _, a1. split; [reflexivity|]. split; [exact C1|].
    destruct (Hfree a1 U1). done. }
  rewrite bool_decide_false by (intros [? [=]]). erewrite bind_done by (by apply getCmd_run).
  cbn [looked] in *. destruct (ask_source now io "migrator" "proxy" c _ a1 (proj1 U1) Hio C1 eq_refl)
    as (err&a2&E2&U2&S2&cmd2&C2&K2&H2).
  erewrite bind_done by exact E2. rewrite (proj1 (proj2 U1)) in H2. cbn [cmdKey update] in *.
  assert (U12 : extends a a2) by (by eapply extends_trans).
  assert (S12 : ∀ k, content (astore a2) k = content (astore a) k) by (intros k; by rewrite S2).
  destruct (rContent (amigrator a) (cmdKey cmd)) as [[id b]|].
  - destruct H2 as (->&H2&H3). erewrite bind_done by (by apply getCmd_run).
    rewrite H3. erewrite bind_done by reflexivity. erewrite bind_done by reflexivity.
    eexists _, cmd2, _. split; [reflexivity|]. split_and!; [done|done|done| |done..].
    destruct (Hfree a2 U12) as [? _]. by destruct a2.
  - destruct H2 as (e&->&_). eexists _, cmd2, a2. split; [reflexivity|].
    destruct (Hfree a2 U12). split_and!; try done. by eexists.
Qed.

(** A get whose chunk is at the source only: it has returned, its command is in
    the pool, and the serializer waits for the reader of the stream. *)
Lemma GetStream_run now io key a :
  serves a → online io →
  ∃ r c cmd a', Adapter_GetStream now io key a = Done (r, a') ∧ cell c cmd a' ∧ cmdKey cmd = key ∧
    head (cmdPool a') = Some c ∧
    (∀ k, content (astore a') k = content (astore a) k) ∧ extends a (a' <| streaming := None |>) ∧
    match content (astore a) key, rContent (amigrator a) key with
    | Some x, _ => r = inl x ∧ streaming a' = None
    | None, Some (id, b) => r = inl (id, b) ∧ streaming a' = Some (c, b) ∧ cmdChunk cmd = id
    | None, None => (∃ e, r = inr e) ∧ streaming a' = None
    end.
Proof.
  intros Ha Hio. unfold Adapter_GetStream. pose proof Ha as (_&_&Hi).
  destruct (newCmd_run (aPick io) (withKey key) a Hi) as (c&cmd&a1&E1&M1&C1).
  erewrite bind_done by exact E1. pose proof (recmd_extends a a1 Ha M1) as U1.
  pose proof (proj1 U1) as A1. unfold awaitGet.
  destruct (adapter_getHandler_run now io c _ a1 A1 Hio C1) as (err&cmd2&a2&E2&C2&K2&S2&U2&H2).
  erewrite bind_done by (rewrite serialized_idle; [exact E2|apply A1]).
  erewrite bind_done by (by apply getCmd_run).
  destruct (putCmd_run c cmd2 a2 C2) as (a3&E3&M3&C3&P3). erewrite bind_done by exact E3.
  cbn [cmdKey withKey update] in *. destruct M1 as (R1&L1&_). rewrite R1, L1 in H2.
  assert (streaming a3 = streaming a2) as Hs by (cbn in E3; by injection E3 as <-).
  assert (U3 : extends a (a3 <| streaming := None |>)).
  { eapply extends_trans; [exact U1|]. eapply extends_recmd; [exact U2|].
    destruct M3 as (R3&L3&I3). split_and!; [done|done|]. intros (I1&I2&I4). cbn in I1, I4.
    cbn in E3. injection E3 as <-. split_and!; [done|done|]. intros k. cbn. rewrite elem_of_cons.
    intros [->|Hk]; [by apply lookup_lt_Some in C2|by apply I4]. }
  assert (S3 : ∀ k, content (astore a3) k = content (astore a) k).
  { intros k. destruct M3 as (_&->&_). by rewrite S2, L1. }
  assert (Hh : head (cmdPool a3) = Some c) by (by rewrite P3).
  destruct (content (astore a) key) as [[id b]|].
  { destruct H2 as (->&H4&H5&H6). rewrite H6. erewrite bind_done by reflexivity. rewrite H5.
    eexists _, c, cmd2, a3. split; [reflexivity|]. split_and!; try done. by rewrite Hs. }
  destruct (rContent (amigrator a) key) as [[id b]|].
  { destruct H2 as (->&H4&H5&H6). rewrite H6. erewrite bind_done by reflexivity. rewrite H5.
    eexists _, c, cmd2, a3. split; [reflexivity|]. split_and!; try done. by rewrite Hs. }
  destruct H2 as ([e ->]&H4). eexists _, c, cmd2, a3. split; [reflexivity|].
  split_and!; try done; [by eexists|by rewrite Hs].
Qed.

(** The rest of [getHandler], when the command still is what the get left. *)
Lemma tail_run now rds c cmd b a :
  streaming a = Some (c, b) → cell c cmd a → fair rds b →
  let a1 := a <| streaming := None |> in
  ∃ a', getHandler_tail now rds a = Done ((), a') ∧
    (a' = a1 ∨ onStore (Storage_Set now (cmdKey cmd) (cmdChunk cmd) (Some b)) a1 = Done (None, a')) ∧
    (whole rds b → onStore (Storage_Set now (cmdKey cmd) (cmdChunk cmd) (Some b)) a1 = Done (None, a')).
Proof.
  intros Hs Hc Hf a1. unfold getHandler_tail. erewrite bind_done by reflexivity. rewrite Hs.
  erewrite bind_done by reflexivity. fold a1. unfold onIntercept.
  destruct (intercept_fair rds b Hf) as (i&Hi&Hk). rewrite Hi.
  destruct (LastError i) as [e|] eqn:El.
  { exists a1. split; [done|]. split; [by left|]. intros Hw. rewrite (intercept_whole rds b Hw) in Hi.
    by injection Hi as <-. }
  rewrite (Hk eq_refl). erewrite bind_done by (apply (getCmd_run c cmd a1); exact Hc).
  erewrite bind_done by reflexivity. eexists. split; [reflexivity|]. split; [by right|done].
Qed.

Lemma ReadStream_spec now io key a :
  adapts a → online io →
  (∀ id b, rContent (amigrator a) key = Some (id, b) → fair (aReads io) b) →
  ∃ r a', Adapter_ReadStream now io key a = Done (r, a') ∧ unchanged a a' ∧
    match rContent (amigrator a) key with Some x => r = inl x | None => ∃ e, r = inr e end.
Proof.
  intros Ha Hio Hf. unfold Adapter_ReadStream.
  destruct (GetStream_run now io key a (adapts_serves a Ha) Hio) as (r&c&cmd&a1&E1&C1&K1&_&S1&U1&H1).
  apply (extends_unchanged a _ Ha) in U1 as U1'. erewrite bind_done by exact E1.
  assert (Hskip : streaming a1 = None → getHandler_tail now (aReads io) a1 = Done ((), a1) ∧ unchanged a a1).
  { intros Hs. split; [unfold getHandler_tail; erewrite bind_done by reflexivity; by rewrite Hs|].
    destruct a1. cbn in Hs. subst. exact U1'. }
  destruct (content (astore a) key) as [x|] eqn:El.
  { destruct H1 as (->&Hs). destruct (Hskip Hs) as [E2 U2]. erewrite bind_done by exact E2.
    eexists _, a1. split; [reflexivity|]. split; [done|]. destruct Ha as (_&_&_&Hc). by rewrite (Hc _ _ El). }
  destruct (rContent (amigrator a) key) as [[id b]|] eqn:Er.
  - destruct H1 as (->&Hs&Hid). destruct (tail_run now (aReads io) c cmd b a1 Hs C1 (Hf _ _ eq_refl)) as (a2&E2&H2&_).
    erewrite bind_done by exact E2. eexists _, a2. split; [reflexivity|]. split; [|done].
    destruct H2 as [->|H2]; [exact U1'|]. rewrite K1, Hid in H2.
    destruct (keep_chunk now key id b (a1 <| streaming := None |>)) as (a3&E3&U3&_);
      [apply U1|by destruct U1 as (_&->&_)|by cbn; rewrite S1|].
    rewrite H2 in E3. injection E3 as ->. apply extends_unchanged; [done|]. by eapply extends_trans.
  - destruct H1 as ([e ->]&Hs). destruct (Hskip Hs) as [E2 U2]. erewrite bind_done by exact E2.
    eexists _, a1. split; [reflexivity|]. split; [done|by eexists].
Qed.

Lemma recmd_adapts a a' : adapts a → recmd a a' → adapts a'.
Proof. intros Ha Hm. apply (extends_unchanged a a' Ha). by apply recmd_extends; [apply adapts_serves|]. Qed.

(** An operation that puts its command back at the end. *)
Lemma put_after c cmd {A} (x : A) a :
  adapts a → cell c cmd a → ∃ a', (putCmd c;; mret x) a = Done (x, a') ∧ adapts a' ∧ recmd a a'.
Proof.
  intros Ha Hc. destruct (putCmd_run c cmd a Hc) as (a'&E&M&_). erewrite bind_done by exact E.
  exists a'. split; [done|]. split; [by apply (recmd_adapts a)|done].
Qed.

Lemma SetStream_spec now io key id b a :
  adapts a → online io → whole (aReads io) b →
  ∃ a', Adapter_SetStream now io key id (inl b) a = Done (None, a') ∧ adapts a' ∧
    (∀ k, rContent (amigrator a') k = if decide (k = key) then Some (id, b) else rContent (amigrator a) k) ∧
    ∀ k, content (astore a') k = if decide (k = key) then Some (id, b) else content (astore a) k.
Proof.
  intros Ha Hio Hw. unfold Adapter_SetStream. pose proof Ha as (_&_&Hi&_).
  edestruct (newCmd_run (aPick io)) as (c&cmd&a1&E1&M1&C1); [exact Hi|]. erewrite bind_done by exact E1.
  pose proof (recmd_adapts a a1 Ha M1) as A1. destruct M1 as (R1&L1&_).
  rewrite <- R1, <- L1. unfold adapter_setHandler.
  destruct (rSet_spec (amigrator a1) now "migrator" "proxy" id key b ltac:(apply A1)) as (r'&Hs&Hr'&Hc).
  destruct (exchangeOn_run now io "set" (Some b) ["migrator"; "proxy"; id; key] c _ a1 None
              (MkCommand key id (Some b)) (a1 <| amigrator := r' |>) C1) as (a2&E2&M2&C2); [|done|].
  { rewrite (exchange_serves _ _ _ _ _ _ _ _ _ Hio Hs). by apply (readGetResponse_ack io "set"). }
  destruct (Set_content now key id b (astore a1)) as (s'&Hg&Hs').
  assert (A2 : adapts (a1 <| amigrator := r' |> <| astore := s' |>)).
  { apply (adapts_set a1 s' r' key id b); try done.
    - eapply keyed_Set; [|exact Hg]. apply A1.
    - rewrite Hc. by rewrite decide_True.
    - intros k Hk. rewrite Hc. by rewrite decide_False. }
  assert (A3 : adapts (a2 <| astore := s' |>)).
  { apply (recmd_adapts (a1 <| amigrator := r' |> <| astore := s' |>)); [done|].
    destruct M2 as (G1&G2&G3). by split_and!. }
  destruct (put_after c (MkCommand key id (Some b)) (None : error) (a2 <| astore := s' |>) A3 C2) as (a4&E4&A4&R4&L4&_).
  exists a4. split.
  - erewrite bind_done; [exact E4|]. rewrite serialized_idle by apply A1.
    erewrite bind_done by (apply getCmd_run; exact C1). erewrite bind_done by exact E2. unfold onIntercept.
    rewrite (intercept_whole _ _ Hw). cbn [LastError ilast Intercepted ibuf].
    erewrite bind_done by (apply getCmd_run; exact C2). cbn [cmdKey cmdChunk].
    erewrite bind_done by (apply onStore_done; destruct M2 as (_&->&_); exact Hg). done.
  - split; [done|]. rewrite R4, L4. cbn. destruct M2 as (->&_). done.
Qed.

(** Deleting at the source keeps the store coherent if it is deleted here too. *)
Lemma adapts_del a s' r' key :
  adapts a → rOk r' → keyed s' →
  (∀ k, content s' k = if decide (k = key) then None else content (astore a) k) →
  (∀ k, rContent r' k = if decide (k = key) then None else rContent (amigrator a) k) →
  adapts (a <| amigrator := r' |> <| astore := s' |>).
Proof.
  intros (_&_&Hd&Hc) Hr Hs Hs' Hr'. split_and!; [done..|]. intros k x. cbn. rewrite Hs', Hr'.
  case_decide; [done|]. apply Hc.
Qed.

Lemma Del_spec now io key id a :
  adapts a → online io →
  ∃ e a', Adapter_Del now io key id a = Done (e, a') ∧ adapts a' ∧
    (rContent (amigrator a) key ≠ None → e = None) ∧
    (∀ k, rContent (amigrator a') k = if decide (k = key) then None else rContent (amigrator a) k) ∧
    ∀ k, content (astore a') k = if decide (k = key) then None else content (astore a) k.
Proof.
  intros Ha Hio. unfold Adapter_Del. pose proof Ha as (_&_&Hi&_).
  edestruct (newCmd_run (aPick io)) as (c&cmd&a1&E1&M1&C1); [exact Hi|]. erewrite bind_done by exact E1.
  pose proof (recmd_adapts a a1 Ha M1) as A1. destruct M1 as (R1&L1&_).
  rewrite <- R1, <- L1. unfold adapter_delHandler.
  destruct (rDel_spec (amigrator a1) now "migrator" "proxy" id key ltac:(apply A1)) as (items&r'&Hs&Hr'&Hi'&Hc).
  pose proof (λ cmd, exchange_serves now io "del" None ["migrator"; "proxy"; id; key] cmd
                a1 items r' Hio Hs) as Hx.
  destruct Hi' as [->|[Hn [e ->]]].
  - edestruct (exchangeOn_run now io "del" None ["migrator"; "proxy"; id; key] c) as (a2&E2&M2&C2);
      [exact C1|rewrite Hx; by apply (readGetResponse_ack io "del")|done|].
    destruct (Del_content now key id (astore a1)) as (e&s'&Hg&_&Hs').
    assert (A3 : adapts (a2 <| astore := s' |>)).
    { apply (recmd_adapts (a1 <| amigrator := r' |> <| astore := s' |>)).
      - apply (adapts_del a1 s' r' key); try done. eapply keyed_Del; [|exact Hg]. apply A1.
      - destruct M2 as (G1&G2&G3). by split_and!. }
    destruct (put_after c _ (None : error) (a2 <| astore := s' |>) A3 C2) as (a4&E4&A4&R4&L4&_).
    eexists _, a4. split.
    + erewrite bind_done; [exact E4|]. rewrite serialized_idle by apply A1.
      erewrite bind_done by (apply getCmd_run; exact C1). erewrite bind_done by exact E2.
      cbv iota. erewrite bind_done by (apply getCmd_run; exact C2). cbn [cmdKey cmdChunk update].
      erewrite bind_done by (apply onStore_done; destruct M2 as (_&->&_); exact Hg). done.
    + split; [done|]. split; [done|]. rewrite R4, L4. cbn. destruct M2 as (->&_). done.
  - edestruct (exchangeOn_run now io "del" None ["migrator"; "proxy"; id; key] c) as (a2&E2&M2&C2);
      [exact C1|rewrite Hx; by apply readGetResponse_error|done|].
    assert (content (astore a1) key = None) as Hl.
    { destruct (content (astore a1) key) as [x|] eqn:E; [|done].
      destruct A1 as (_&_&_&Hco). by rewrite (Hco _ _ E) in Hn. }
    assert (∀ k, content (astore a1) k = if decide (k = key) then None else content (astore a1) k) as Hs'.
    { intros k. case_decide; [by subst|done]. }
    assert (A2 : adapts a2).
    { apply (recmd_adapts (a1 <| amigrator := r' |>)); [|done].
      pose proof (adapts_del a1 (astore a1) r' key) as Hd. destruct a1. apply Hd; try done. apply A1. }
    edestruct (put_after c) as (a4&E4&A4&R4&L4&_); [exact A2|exact C2|].
    eexists _, a4. split.
    + erewrite bind_done; [exact E4|]. rewrite serialized_idle by apply A1.
      erewrite bind_done by (apply getCmd_run; exact C1). erewrite bind_done by exact E2. done.
    + split; [done|]. split; [done|]. rewrite R4, L4. destruct M2 as (->&->&_). done.
Qed.

(** A migrated key is held afterwards, if the source has it. *)
Lemma Migrate_extends now io key a :
  serves a → online io →
  ∃ r a', Adapter_Migrate now io key a = Done (r, a') ∧ extends a a' ∧
    (content (astore a) key = None → content (astore a') key = rContent (amigrator a) key) ∧
    r ≠ inr ErrClosed.
Proof.
  intros Ha Hio. unfold Adapter_Migrate. pose proof Ha as (_&_&Hi).
  destruct (newCmd_run (aPick io) (withKey key) a Hi) as (c&cmd&a1&E1&M1&C1). erewrite bind_done by exact E1.
  pose proof (recmd_extends a a1 Ha M1) as U1. pose proof (proj1 U1) as A1. destruct M1 as (R1&L1&_).
  assert (∃ err cmd' a2, migrateHandler now io c a1 = Done (err, a2) ∧ extends a1 a2 ∧ cell c cmd' a2 ∧
    (content (astore a1) key = None → content (astore a2) key = rContent (amigrator a1) key) ∧ err ≠ Some ErrClosed)
    as (err&cmd'&a2&E2&U2&C2&K2&N2).
  { unfold migrateHandler. destruct (lookupLocal_run now c _ a1 A1 C1) as (a3&E3&U3&S3&C3).
    cbn [cmdKey withKey update] in *. erewrite bind_done by exact E3.
    destruct (content (astore a1) key) as [x|] eqn:El.
    { rewrite bool_decide_true by done. by eexists _, _, a3. }
    rewrite bool_decide_false by (intros [? [=]]). erewrite bind_done by (by apply getCmd_run).
    cbn [looked] in *. destruct (ask_source now io "migrator" "migrate" c _ a3 (proj1 U3) Hio C3 eq_refl)
      as (err&a4&E4&U4&S4&cmd4&C4&K4&H4).
    erewrite bind_done by exact E4. pose proof (extends_trans _ _ _ U3 U4) as U34.
    cbn [cmdKey withKey update] in *. destruct U3 as (_&R3&_). rewrite R3 in H4.
    assert (L4 : content (astore a4) key = None) by (by rewrite S4, S3).
    destruct (rContent (amigrator a1) key) as [[id b]|] eqn:Er.
    - destruct H4 as (->&Hid&Hst). erewrite bind_done by (by apply getCmd_run). rewrite Hst.
      erewrite bind_done by reflexivity. destruct Hio as (_&_&_&->). rewrite K4, Hid.
      destruct (keep_chunk now key id b a4) as (a5&H5&U5&K5); [by apply U34|by destruct U34 as (_&->&_)|done|].
      erewrite bind_done by exact H5. eexists _, cmd4, a5. split; [reflexivity|].
      split_and!; [by eapply extends_trans| | |done].
      + apply onStore_Set_inv in H5 as (_&H5&_). unfold cell. by rewrite H5.
      + intros _. rewrite K5. by rewrite decide_True.
    - destruct H4 as (e&->&Hne). eexists _, cmd4, a4. split; [reflexivity|].
      split_and!; [done|done|done|congruence]. }
  destruct (putCmd_run c cmd' a2 C2) as (a3&E3&M3&_). eexists _, a3. split; [|split; [|split]].
  - unfold awaitMigrate. erewrite bind_done by (rewrite serialized_idle; [exact E2|apply A1]).
    erewrite bind_done by (by apply getCmd_run). erewrite bind_done by exact E3. reflexivity.
  - eapply extends_recmd; [|exact M3]. by eapply extends_trans.
  - destruct M3 as (_&->&_). by rewrite <- R1, <- L1.
  - by destruct err; congruence.
Qed.

Lemma Migrate_spec now io key a :
  adapts a → online io →
  ∃ r a', Adapter_Migrate now io key a = Done (r, a') ∧ unchanged a a' ∧
    (∀ x, rContent (amigrator a) key = Some x → content (astore a') key = Some x) ∧
    r ≠ inr ErrClosed.
Proof.
  intros Ha Hio. destruct (Migrate_extends now io key a (adapts_serves a Ha) Hio) as (r&a'&E&U&K&N).
  exists r, a'. split; [done|]. split; [by apply extends_unchanged|]. split; [|done]. intros x Hx.
  destruct (content (astore a) key) as [y|] eqn:El; [|by rewrite K].
  destruct U as (_&_&G&_). apply G. destruct Ha as (_&_&_&Hc). by rewrite El, <- Hx, (Hc _ _ El).
Qed.

(** A local delete only forgets. *)
Lemma LocalDel_spec now key a :
  adapts a → ∃ a', LocalDel now key a = Done ((), a') ∧ adapts a' ∧ amigrator a' = amigrator a ∧
    ∀ k, content (astore a') k = if decide (k = key) then None else content (astore a) k.
Proof.
  intros Ha. unfold LocalDel. destruct (Del_content now key "" (astore a)) as (e&s'&Hg&_&Hs').
  erewrite bind_done by (by apply onStore_done). eexists. split; [reflexivity|].
  split; [|done]. destruct Ha as (Hr&Hk&Hd&Hc). split_and!; [done| |done|].
  - by eapply keyed_Del.
  - intros k x. cbn. rewrite Hs'. case_decide; [done|apply Hc].
Qed.

(** ** A command in two hands

    [GetStream] puts its command back into the pool when it returns, while
    [getHandler] still has to read the key and the chunk id from it. *)

Lemma newCmd_pooled f c P a :
  cmdPool a = c :: P →
  newCmd (Some 0%nat) f a = Done (c, a <| cmdPool := P |> <| commands ::= alter f c |>).
Proof.
  intros Hp. unfold newCmd, takeCmd. destruct a. cbn in *. by subst.
Qed.

Lemma lookupLocal_hit now c cmd id b a :
  cell c cmd a → content (astore a) (cmdKey cmd) = Some (id, b) →
  ∃ a', lookupLocal now c a = Done (true, a') ∧ (∀ k, content (astore a') k = content (astore a) k) ∧
    cell c (looked cmd (Some (id, b))) a'.
Proof.
  intros Hc Hl. unfold lookupLocal. destruct (Get_content now (cmdKey cmd) (astore a)) as (s'&Hg&Hs).
  rewrite Hl in Hg. erewrite bind_done by (by apply getCmd_run). erewrite bind_done by (by apply onStore_done).
  assert (C1 : cell c cmd (a <| astore := s' |>)) by done.
  edestruct (setCmd_run c cmd) as (a'&E&M&C&_); [exact C1|].
  erewrite bind_done by exact E. exists a'. split; [done|]. split; [|exact C]. intros k. destruct M as (_&->&_). apply Hs.
Qed.

(** C30: the command of a streaming get is shared with the next operation.  While
    the consumer still reads the chunk of [k], which the source sends, an
    operation for another key [k'] may get the same command from the pool and
    write its key; when the stream is done, the handler stores the bytes of [k]
    under [k'].  A get of [k'] then answers with the chunk of [k], and a
    migration of [k'] skips it, so that the wrong chunk stays; [k] is not kept. *)
Theorem pooled_command_misplaces now now' io io' k k' id b a :
  serves a → online io → whole (aReads io) b →
  content (astore a) k = None → rContent (amigrator a) k = Some (id, b) → k' ≠ k →
  ∃ a1 c a2 a3,
    Adapter_GetStream now io k a = Done (inl (id, b), a1) ∧
    newCmd (Some 0%nat) (withKey k') a1 = Done (c, a2) ∧
    getHandler_tail now (aReads io) a2 = Done ((), a3) ∧
    content (astore a3) k = None ∧
    (∃ a4, awaitGet now' io' c a3 = Done (inl (id, b), a4) ∧ content (astore a4) k' = Some (id, b)) ∧
    (∃ a4, awaitMigrate now' io' c a3 = Done (inr ErrSkip, a4) ∧ content (astore a4) k' = Some (id, b)).
Proof.
  intros Ha Hio Hw Hl Hr Hne.
  destruct (GetStream_run now io k a Ha Hio) as (r&c&cmd&a1&E1&C1&K1&P1&S1&U1&H1).
  rewrite Hl, Hr in H1. destruct H1 as (->&T1&I1).
  destruct (cmdPool a1) as [|c' P] eqn:Ep; [done|]. injection P1 as ->.
  pose proof (newCmd_pooled (withKey k') c P a1 Ep) as E2.
  set (a2 := a1 <| cmdPool := P |> <| commands ::= alter (withKey k') c |>) in *.
  assert (C2 : cell c (withKey k' cmd) a2).
  { unfold cell, a2. cbn. rewrite list_lookup_alter, decide_True by done. unfold cell in C1. by rewrite C1. }
  destruct (tail_run now (aReads io) c _ b a2 T1 C2) as (a3&E3&_&H3).
  { split; [destruct Hw as [<- _]; lia|by left]. }
  specialize (H3 Hw). cbn [cmdKey cmdChunk withKey update] in H3. rewrite I1 in H3.
  apply onStore_Set_inv in H3 as (S3&C3&D3&T3).
  exists a1, c, a2, a3. split; [exact E1|]. split; [exact E2|]. split; [exact E3|].
  assert (Hk' : content (astore a3) k' = Some (id, b)) by (rewrite S3; by rewrite decide_True).
  split; [rewrite S3, decide_False by done; cbn; by rewrite S1|].
  assert (C3' : cell c (withKey k' cmd) a3) by (unfold cell; by rewrite C3).
  destruct (lookupLocal_hit now' c (withKey k' cmd) id b a3 C3' Hk') as (a4&E4&S4&C4).
  edestruct (putCmd_run c) as (a5&E5&(_&L5&_)&_); [exact C4|].
  assert (I3 : ∀ A (m : M (StorageAdapter R) A), serialized m a3 = m a3).
  { intros A m. unfold serialized. erewrite bind_done by reflexivity.
    destruct U1 as ((_&_&D1&_)&_). cbn in D1. rewrite D3, T3. cbn. by rewrite D1. }
  split; exists a5; (split; [|by rewrite L5, S4]).
  - unfold awaitGet, adapter_getHandler. erewrite bind_done by (rewrite I3; by erewrite bind_done by exact E4).
    erewrite bind_done by (by apply getCmd_run). by erewrite bind_done by exact E5.
  - unfold awaitMigrate, migrateHandler. erewrite bind_done by (rewrite I3; by erewrite bind_done by exact E4).
    erewrite bind_done by (by apply getCmd_run). by erewrite bind_done by exact E5.
Qed.

(** ** The store of a lambda keeps its contract, migrating or not *)

Definition anyContent (s : AnyStore R) : string → option (string * bytes) :=
  match s with Plain s => content s | Adapted a => rContent (amigrator a) end.
Definition anyOk (s : AnyStore R) : Prop :=
  match s with Plain s => keyed s | Adapted a => adapts a end.

Lemma onAdapted_done {A} c a (x : A) a' :
  c a = Done (x, a') → onAdapted c a = Done (x, Adapted a').
Proof. intros H. unfold onAdapted. by rewrite H. Qed.
Lemma onPlain_done {A} c (s : gmap string Chunk) (x : A) s' :
  c s = Done (x, s') → onPlain (R:=R) c s = Done (x, Plain s').
Proof. intros H. unfold onPlain. by rewrite H. Qed.

#[global] Program Instance AnyStore_Laws : StoreLaws (AnyStore R) := {|
  sContent := anyContent;
  sOk := anyOk
|}.
Next Obligation.
  intros [s|a] now io key Hs Hio Hf; cbn in *.
  - destruct (@sGet_spec _ _ Storage_Laws s now io key Hs Hio Hf) as (r&s'&Hg&Hs'&Hc&Hr).
    exists r, (Plain s'). split; [by apply onPlain_done|done].
  - destruct (ReadStream_spec now io key a Hs Hio Hf) as (r&a'&Hg&(Ha&Hc&_)&Hr).
    exists r, (Adapted a'). split; [by apply onAdapted_done|done].
Qed.
Next Obligation.
  intros [s|a] now io key id b Hs Hio Hw; cbn in *.
  - destruct (@sSet_spec _ _ Storage_Laws s now io key id b Hs Hio Hw) as (s'&Hg&Hs'&Hc).
    exists (Plain s'). split; [cbn in Hg; by injection Hg as <-|done].
  - destruct (SetStream_spec now io key id b a Hs Hio Hw) as (a'&Hg&Ha&Hc&_).
    exists (Adapted a'). split; [by apply onAdapted_done|done].
Qed.
Next Obligation.
  intros [s|a] now io key id Hs Hio; cbn in *.
  - destruct (@sDel_spec _ _ Storage_Laws s now io key id Hs Hio) as (e&s'&Hg&Hs'&He&Hc).
    exists e, (Plain s'). split; [by apply onPlain_done|done].
  - destruct (Del_spec now io key id a Hs Hio) as (e&a'&Hg&Ha&He&Hc&_).
    exists e, (Adapted a'). split; [by apply onAdapted_done|done].
Qed.
End adapter.
