(* ===== verification/Session.v ===== *)
(** * lambda/lifetime/session.go: the session of an invocation

    Sessions are shared by pointer between goroutines; the heap keeps them all,
    and the package's variable points to the current one. *)

From S2P Require Import Prelude Lambdastore Request Lifetime Migrator.

(** [Requests] is an int; [sessConn] names a connection. *)
Record Session : Type := MkSession {
  sessId : string;
  Requests : Z;
  sessMigrator : option MClient;
  sessTimeout : Timeout;
  sessConn : option nat;
  sessDone : bool
}.
#[global] Instance Session_eta : Eta Session := λ s,
  MkSession (sessId s) (Requests s) (sessMigrator s) (sessTimeout s) (sessConn s) (sessDone s).

Abbreviation sptr := nat (only parsing).
Record Sessions : Type := MkSessions { sheap : list Session; current : option sptr }.
#[global] Instance Sessions_eta : Eta Sessions := λ s, MkSessions (sheap s) (current s).

Definition getSess (p : sptr) : M Sessions Session := s ← mget; expect PNil (sheap s !! p).
Definition modSess (p : sptr) (f : Session → Session) : M Sessions unit :=
  modify (λ s, s <| sheap ::= alter f p |>).

(** [te] and [tex] are [TICK_ERROR] and [TICK_ERROR_EXTEND]. *)
Section session.
Context (te tex : Z).

Definition GetOrCreateSession (now : Z) : M Sessions sptr :=
  s ← mget;
  match current s with
  | Some p => mret p
  | None =>
      let p := length (sheap s) in
      modify (λ s, s <| sheap ::= (λ h, h ++ [MkSession "" 0 None (NewTimeout te now tex) None false]) |>
                     <| current := Some p |>);;
      mret p
  end.
Definition GetSession : M Sessions (option sptr) := gets current.
Definition ClearSession : M Sessions unit := modify (λ s, s <| current := None |>).

(** [Done] closes the channel once. *)
Definition DoneLocked (p : sptr) : M Sessions unit := modSess p (λ s, if sessDone s then s else s <| sessDone := true |>).
Definition Session_Done (p : sptr) : M Sessions unit := DoneLocked p.
Definition isDoneLocked (s : Session) : bool := sessDone s.
Definition IsDone (s : Session) : bool := isDoneLocked s.
Definition IsMigrating (s : Session) : bool := bool_decide (is_Some (sessMigrator s)).

(** The timeout of a session, and [Reset] with the session's [done]. *)
Definition onTimeout (p : sptr) (f : Timeout → Timeout) : M Sessions unit :=
  modSess p (λ s, s <| sessTimeout ::= f |>).
Definition extendTimeout (now : Z) (p : sptr) (ext : Z) : M Sessions bool :=
  s ← getSess p;
  let '(ok, t) := ResetWithExtension te now (sessDone s) ext (sessTimeout s) in
  onTimeout p (λ _, t);;
  mret ok.
End session.
