(* ===== verification/LambdaHandler.v ===== *)
(** * lambda/handler.go: what a lambda does

    The handlers of the commands a lambda serves, the invocation that sets it
    up and waits, and the goroutines it starts.  Handlers give the calls they
    make on their response writer.  The variables of the package are the record
    [Lambda]; the type of the store is the interface's. *)

From stdpp Require Import pretty.
From Stdlib Require Import Ascii DecimalString DecimalZ.
From S2P Require Import Prelude Lambdastore Request Connection Erasure Storage Lifetime Migrator StorageAdapter Session.

Definition EXPECTED_GOMAXPROCS : Z := 2.
Definition LIFESPAN : Z := 5 * 60 * 1000 * Millisecond.

(** common/types: [InputEvent]. *)
Record LInputEvent : Type := MkLInputEvent {
  inCmd : string; inId : Z; inProxy : string; inTimeout : Z; inAddr : string; inPrefix : string; inLog : Z
}.

(** types.go: [DataEntry], without durations. *)
Record LDataEntry : Type := MkLDataEntry {
  ldOp : Z; ldStatus : string; ldReqId : string; ldChunkId : string; ldSession : string
}.

(** [init]: the processors the program runs on, [n] being what they were. *)
Definition initProcs (n : Z) : Z := if decide (n < EXPECTED_GOMAXPROCS) then EXPECTED_GOMAXPROCS else n.

(** The goroutines a lambda starts. *)
Inductive task : Type :=
  | TMigrate (p : sptr)
  | TServe (conn : nat)
  | TServeMigration (p : sptr) (requestFromProxy : bool)
  | TCollect (p : sptr).

Record Lambda (St : Type) : Type := MkLambda {
  lifetime : Lifetime;
  sessions : Sessions;
  store : St;
  storeId : Z;
  lproxy : string;
  proxyConn : option nat;
  closedConns : list nat;
  pongLimiter : bool;
  cprefix : string;
  loglevel : Z;
  dataDepository : list LDataEntry;
  savedData : list (list LDataEntry);
  tasks : list task
}.
Arguments MkLambda {St}. Arguments lifetime {St}. Arguments sessions {St}. Arguments store {St}.
Arguments storeId {St}. Arguments lproxy {St}. Arguments proxyConn {St}. Arguments closedConns {St}.
Arguments pongLimiter {St}. Arguments cprefix {St}. Arguments loglevel {St}.
Arguments dataDepository {St}. Arguments savedData {St}. Arguments tasks {St}.
#[global] Instance Lambda_eta St : Eta (Lambda St) := λ l,
  MkLambda (lifetime l) (sessions l) (store l) (storeId l) (lproxy l) (proxyConn l) (closedConns l)
    (pongLimiter l) (cprefix l) (loglevel l) (dataDepository l) (savedData l) (tasks l).

(** ** strconv *)

Definition Itoa (z : Z) : string := NilZero.string_of_int (Z.to_int z).
Definition checkedAtoi (s : string) : option Z :=
  let s' := match s with String "+"%char r => if decide (r = "") then "+" else
                           match r with String "-"%char _ => "+" | _ => r end | _ => s end in
  z ← Z.of_int <$> NilZero.int_of_string s';
  if decide (is_i64 z) then Some z else None.

(** ** Slices of strings, sharing their arrays *)

Record slice : Type := MkSlice { sarr : nat; soff : nat; slength : nat; scap : nat }.
#[global] Instance slice_eta : Eta slice := λ s, MkSlice (sarr s) (soff s) (slength s) (scap s).
Abbreviation arrays := (list (list string)) (only parsing).

Definition sliceElems (h : arrays) (s : slice) : list string :=
  take (slength s) (drop (soff s) (default [] (h !! sarr s))).
(** [append]: in place while there is capacity, else in a new array. *)
Definition appendS (s : slice) (x : string) : M (list (list string)) slice := λ h,
  if decide (slength s < scap s)%nat then
    Done (s <| slength ::= S |>, alter (insert (soff s + slength s)%nat x) (sarr s) h)
  else
    let s' := MkSlice (length h) 0 (S (slength s)) (2 * slength s + 1) in
    Done (s', h ++ [sliceElems h s ++ x :: replicate (slength s) ""]).

(** What the network does for a handler: the copy and the flush of its
    response, and the connections of the store. *)
Record HIO : Type := MkHIO { hCopy : error; hFlush : error; hStore : AIO }.

Section handler.
Context {St : Type} `{HS : !StorageOps St}.
Context (memoryLimitInMB : Z).
Definition TICK_ERROR_EXTEND : Z := (tickErrors memoryLimitInMB).1.
Definition TICK_ERROR : Z := (tickErrors memoryLimitInMB).2.

Definition onSessions {A} (c : M Sessions A) : M (Lambda St) A :=
  zoom sessions (λ s l, l <| sessions := s |>) c.
Definition onStoreOf {A} (c : M St A) : M (Lambda St) A := zoom store (λ s l, l <| store := s |>) c.
Definition spawn (t : task) : M (Lambda St) unit := modify (λ l, l <| tasks ::= (λ ts, ts ++ [t]) |>).
Definition closeConn (n : nat) : M (Lambda St) unit := modify (λ l, l <| closedConns ::= cons n |>).

(** The calls of the collector: an entry is handed to it, and [Save] takes what
    it was handed.  Its channel, its goroutines and the wait of [Save] are in
    [LambdaCollector]. *)
Definition collectorSend (e : LDataEntry) : M (Lambda St) unit :=
  modify (λ l, l <| dataDepository ::= (λ d, d ++ [e]) |>).
Definition collectorSave : M (Lambda St) unit :=
  modify (λ l, l <| savedData ::= (λ d, d ++ [dataDepository l]) |> <| dataDepository := [] |>).

(** A migrator of a session, and operations on it. *)
Definition onMigrator {A} (p : sptr) (c : M MClient A) : M (Lambda St) A :=
  s ← onSessions (getSess p);
  m ← expect PNil (sessMigrator s);
  match c m with
  | Done (x, m') => onSessions (modSess p (λ s, s <| sessMigrator := Some m' |>));; mret x
  | Panics e => throw e
  | Spins => blocked
  end.

(** The prologue and the deferred epilogue of the get, set and del handlers. *)
Definition beginRequest : M (Lambda St) (sptr * Z) :=
  p ← onSessions GetSession;
  p ← expect PNil p;
  onSessions (onTimeout p Busy);;
  onSessions (modSess p (λ s, s <| Requests ::= (λ n, i64 (n + 1)) |>));;
  s ← onSessions (getSess p);
  mret (p, if decide (1 < Requests s) then TICK else TICK_ERROR).
Definition endRequest (now : Z) (p : sptr) (ext : Z) : M (Lambda St) unit :=
  s ← onSessions (getSess p);
  onSessions (onTimeout p (λ t, DoneBusyWithReset TICK_ERROR now (sessDone s) ext t)).

Definition arg (args : list string) (i : nat) : string := default "" (args !! i).

(** [Failed to ...: %v] with a status. *)
Definition failure (verb key err : string) : LOp * ResponseError :=
  let re := if decide (err = ErrNotFound) then NewResponseError 404 err else NewResponseError 500 err in
  (LErrorf ("Failed to " +:+ verb +:+ " " +:+ key +:+ ": " +:+ reMsg re), re).

(** [srv.HandleFunc("get", ...)]; [name] is the command as received. *)
Definition lambda_get (now now' : Z) (io : HIO) (name : string) (args : list string) :
    M (Lambda St) (list LOp) :=
  '(p, ext) ← beginRequest;
  s ← onSessions (getSess p);
  let connId := arg args 0 in
  let reqId := arg args 1 in
  let key := arg args 3 in
  r ← onStoreOf (sGetStream now (hStore io) key);
  ops ← match r with
        | inl (chunkId, b) =>
            let rsp := MkLResponse name connId reqId chunkId "" None (Some b) in
            let '(fl, err) := LResponse_Flush rsp (hCopy io) (hFlush io) in
            (if err is Some _ then mret ()
             else collectorSend (MkLDataEntry OP_GET "200" reqId chunkId (sessId s)));;
            mret (LResponse_Prepare rsp ++ fl)
        | inr e =>
            let '(op, re) := failure "get" key e in
            collectorSend (MkLDataEntry OP_GET (Status re) reqId "-1" (sessId s));;
            mret [op; LFlush]
        end;
  endRequest now' p ext;;
  mret ops.

(** [srv.HandleStreamFunc("set", ...)]: [next] is the error of [c.Next()],
    [val] what the value stream yields. *)
Definition lambda_set (now now' : Z) (io : HIO) (args : list string) (next : error) (val : bytes + string) :
    M (Lambda St) (list LOp) :=
  '(p, ext) ← beginRequest;
  s ← onSessions (getSess p);
  let connId := arg args 0 in
  let reqId := arg args 1 in
  let chunkId := arg args 2 in
  let key := arg args 3 in
  ops ← match next with
        | Some e => mret [LErrorf ("Error on get value reader: " +:+ e); LFlush]
        | None =>
            err ← onStoreOf (sSetStream now (hStore io) key chunkId val);
            match err with
            | Some e => mret [LErrorf e; LFlush]
            | None =>
                let rsp := MkLResponse "set" connId reqId chunkId "" None None in
                let '(fl, err) := LResponse_Flush rsp (hCopy io) (hFlush io) in
                (if err is Some _ then mret ()
                 else collectorSend (MkLDataEntry OP_SET "200" reqId chunkId (sessId s)));;
                mret (LResponse_Prepare rsp ++ fl)
            end
        end;
  endRequest now' p ext;;
  mret ops.

Definition lambda_del (now now' : Z) (io : HIO) (args : list string) : M (Lambda St) (list LOp) :=
  '(p, ext) ← beginRequest;
  let connId := arg args 0 in
  let reqId := arg args 1 in
  let chunkId := arg args 2 in
  let key := arg args 3 in
  err ← onStoreOf (sDel now (hStore io) key chunkId);
  let ops := match err with
             | None =>
                 let rsp := MkLResponse "del" connId reqId chunkId "" None None in
                 LResponse_Prepare rsp ++ (LResponse_Flush rsp (hCopy io) (hFlush io)).1
             | Some e => [(failure "del" key e).1; LFlush]
             end in
  endRequest now' p ext;;
  mret ops.

(** ** Pongs *)

Definition issuePong : M (Lambda St) unit := modify (λ l, l <| pongLimiter := true |>).
Definition pong : M (Lambda St) (list LOp) :=
  l ← mget;
  if pongLimiter l then
    modify (λ l, l <| pongLimiter := false |>);;
    mret [LBulkString "pong"; LInt (i64 (storeId l)); LFlush]
  else mret [].
Definition Lambda_pongHandler : M (Lambda St) (list LOp) := pong.
Definition initMigrateHandler : list LOp := [LBulkString "initMigrate"; LFlush].
Definition byeHandler : list LOp := [LBulkString "bye"; LFlush].

Definition lambda_ping (now : Z) : M (Lambda St) (list LOp) :=
  p ← onSessions GetSession;
  match p with
  | None => mret []
  | Some p =>
      ok ← onSessions (extendTimeout TICK_ERROR now p TICK_ERROR_EXTEND);
      s ← onSessions (getSess p);
      if negb ok && negb (IsMigrating s) then mret []
      else issuePong;; pong
  end.

(** ** Closing *)

Definition lambda_data (io : HIO) : M (Lambda St) (list LOp) :=
  p ← onSessions GetSession;
  p ← expect PNil p;
  onSessions (onTimeout p Halt);;
  s ← onSessions (getSess p);
  (if IsMigrating s then
     onMigrator p (SetError ErrProxyClosing);;
     onMigrator p MClient_Close;;
     onSessions (modSess p (λ s, s <| sessMigrator := None |>))
   else mret ());;
  collectorSave;;
  let ops := [LBulkString "data"; LBulkString "OK"; LFlush] in
  match hFlush io with
  | Some _ => mret ops
  | None =>
      s ← onSessions (getSess p);
      conn ← expect PNil (sessConn s);
      closeConn conn;;
      modify (λ l, l <| store := sNew |>);;
      mret ops
  end.

(** ** Migrating away *)

(** [srv.HandleFunc("migrate", ...)]: [dial] is [net.Dial] and [invoke] the
    invocation of a function with an event; the call of it that was made. *)
Definition lambda_migrate (dial : string → nat + string) (invoke : string → LInputEvent → Z + string)
    (args : list string) : M (Lambda St) (option (string * LInputEvent)) :=
  p ← onSessions GetSession;
  p ← expect PNil p;
  onSessions (onTimeout p Halt);;
  let addr := arg args 0 in
  let deployment := arg args 1 in
  let newId := Atoi (arg args 2) in
  s ← onSessions (getSess p);
  let requestFromProxy := negb (IsMigrating s) in
  (if requestFromProxy then onSessions (modSess p (λ s, s <| sessMigrator := Some NewMClient |>))
   else mret ());;
  err ← onMigrator p (Connect dial addr);
  match err with
  | Some _ => mret None
  | None =>
      l ← mget;
      let ev := MkLInputEvent "migrate" (u64 newId) (lproxy l) 0 addr (cprefix l) (loglevel l) in
      err ← onMigrator p (TriggerDestination invoke deployment ev);
      match err with
      | Some _ => mret (Some (deployment, ev))
      | None => spawn (TServeMigration p requestFromProxy);; mret (Some (deployment, ev))
      end
  end.

(** The goroutine it starts; [err] is what serving the connection returned. *)
Definition serveMigration (now : Z) (p : sptr) (requestFromProxy : bool) (err : error) : M (Lambda St) unit :=
  onMigrator p (WaitForMigration err);;
  ok ← onMigrator p IsReady;
  if (ok : bool) then
    collectorSave;;
    modify (λ l, l <| lifetime ::= Rest |>);;
    onSessions (modSess p (λ s, s <| sessMigrator := None |>));;
    onSessions (Session_Done p)
  else if requestFromProxy then
    onSessions (modSess p (λ s, s <| sessMigrator := None |>));;
    s ← onSessions (getSess p);
    onSessions (onTimeout p (Restart TICK_ERROR now (sessDone s) TICK_ERROR))
  else mret ().

(** [srv.HandleFunc("mhello", ...)]: [keys] is what [Keys] yields.  The lists of
    keys share one array, the live keys in its second half. *)
Fixpoint splitKeys (now : Z) (io : AIO) (keys : list string) (h : arrays) (dl gl : slice) :
    M (Lambda St) (arrays * slice * slice) :=
  match keys with
  | [] => mret (h, dl, gl)
  | key :: keys =>
      r ← onStoreOf (sGet now io key);
      let del := match r with inr e => bool_decide (e = ErrNotFound) | inl _ => false end in
      match appendS (if del then dl else gl) key h with
      | Done (s', h') => if del then splitKeys now io keys h' s' gl else splitKeys now io keys h' dl s'
      | Panics e => throw e
      | Spins => blocked
      end
  end.

Definition lambda_mhello (now : Z) (io : AIO) (keys : list string) : M (Lambda St) (list LOp) :=
  p ← onSessions GetSession;
  p ← expect PNil p;
  s ← onSessions (getSess p);
  match sessMigrator s with
  | None => mret []
  | Some _ =>
      err ← onMigrator p recvReady;
      match err with
      | Some _ => mret []
      | None =>
          l ← mget;
          let n := Z.to_nat (sLen (store l)) in
          let delList := MkSlice 0 0 0 (2 * n) in
          let getList := MkSlice 0 n 0 n in
          '(h, dl, gl) ← splitKeys now io keys [replicate (2 * n) ""] delList getList;
          mret ([LBulkString "mhello"; LBulkString (Itoa (sLen (store l)))] ++
                ((λ k, LBulkString (pretty OP_DEL +:+ k)) <$> sliceElems h dl) ++
                ((λ k, LBulkString (pretty OP_GET +:+ k)) <$> sliceElems h gl) ++ [LFlush])
      end
  end.

(** ** Invocation *)

Inductive waited : Type := WDone | WTimeout.
#[global] Instance waited_eq_dec : EqDecision waited.
Proof. solve_decision. Defined.

(** The loop of [Wait]: each attempt has the error of its initiator and what
    the other goroutines do to the client while it waits.  The source tries for
    ever: when the attempts that are given all failed, the loop has not returned. *)
Fixpoint initiateLoop (p : sptr) (outs : list (error * M MClient unit)) : M (Lambda St) (list LOp) :=
  match outs with
  | [] => blocked
  | (ini, others) :: outs =>
      err ← onMigrator p (Initiate ini others);
      match err with
      | None => mret initMigrateHandler
      | Some e =>
          if decide (e = ErrProxyClosing) then mret initMigrateHandler
          else ops ← initiateLoop p outs; mret (initMigrateHandler ++ ops)
      end
  end.

(** After a timeout: whether a migration has to be initiated; the session is
    done otherwise. *)
Definition Wait_timeout (now : Z) (p : sptr) : M (Lambda St) bool :=
  onSessions (onTimeout p Halt);;
  l ← mget;
  if IsTimeUp now (lifetime l) && bool_decide (0 < sLen (store l)) then
    onSessions (modSess p (λ s, s <| sessMigrator := Some NewMClient |>));;
    mret true
  else
    onSessions (Session_Done p);;
    mret false.

(** [Wait]: [w] is the case of the select that was taken. *)
Definition Wait (now : Z) (p : sptr) (w : waited) (outs : list (error * M MClient unit)) :
    M (Lambda St) (list LOp) :=
  match w with
  | WDone => mret []
  | WTimeout =>
      migrate ← Wait_timeout now p;
      if (migrate : bool) then initiateLoop p outs else mret byeHandler
  end.

(** What the environment of an invocation does: the request id in its context,
    if the context is a lambda's, and its deadline, [net.Dial], greeting the
    migrator. *)
Record InvokeIO : Type := MkInvokeIO {
  awsReqId : option string; ctxDeadline : Z;
  dialTo : string → nat + string; helloErr : error
}.

(** [getAwsReqId] dereferences what it did not find. *)
Definition getAwsReqId (ctx : option string) : M (Lambda St) string := expect PNil ctx.

(** The [migrate] part: [false] when the invocation ends there.  [adapt] is
    [GetStoreAdapter]. *)
Definition startMigration (now : Z) (io : InvokeIO) (adapt : St → St) (input : LInputEvent) (p : sptr) :
    M (Lambda St) bool :=
  s ← onSessions (getSess p);
  collectorSend (MkLDataEntry OP_MIGRATION "" "" "" (sessId s));;
  if decide (inAddr input = "") then mret false else
  l ← mget;
  match proxyConn l with
  | Some c => closeConn c;; modify (λ l, l <| proxyConn := None |> <| lifetime ::= Reborn now |>)
  | None => mret ()
  end;;
  onSessions (modSess p (λ s, s <| sessMigrator := Some NewMClient |>));;
  err ← onMigrator p (Connect (dialTo io) (inAddr input));
  match err, helloErr io with
  | None, None =>
      modify (λ l, l <| store ::= adapt |>);;
      spawn (TMigrate p);;
      mret true
  | _, _ => mret false
  end.

(** Connecting to the proxy: [inl] when the invocation ends there. *)
Definition connectProxy (io : InvokeIO) (input : LInputEvent) (p : sptr) : M (Lambda St) (error + nat) :=
  l ← mget;
  onSessions (modSess p (λ s, s <| sessConn := proxyConn l |>));;
  match proxyConn l with
  | Some c => mret (inr c)
  | None =>
      if decide (inProxy input = "") then mret (inl None) else
      modify (λ l, l <| storeId := inId input |> <| lproxy := inProxy input |>);;
      match dialTo io (inProxy input) with
      | inr e => mret (inl (Some e))
      | inl c =>
          onSessions (modSess p (λ s, s <| sessConn := Some c |>));;
          modify (λ l, l <| proxyConn := Some c |>);;
          spawn (TServe c);;
          mret (inr c)
      end
  end.

(** [HandleRequest] until [Wait]: [inl err] when it returned early, else the
    session and what it wrote to the proxy. *)
Definition Lambda_HandleRequest_setup (now : Z) (io : InvokeIO) (adapt : St → St) (input : LInputEvent) :
    M (Lambda St) (error + (sptr * list LOp)) :=
  modify (λ l, l <| lifetime ::= RebornIfDead now |>);;
  p ← onSessions (GetOrCreateSession TICK_ERROR TICK_ERROR_EXTEND now);
  id ← getAwsReqId (awsReqId io);
  onSessions (modSess p (λ s, s <| sessId := id |>));;
  onSessions (onTimeout p (if decide (0 < inTimeout input)
                           then StartWithCalibration (ctxDeadline io - inTimeout input * 1000 * Millisecond)
                           else Start now));;
  issuePong;;
  modify (λ l, l <| cprefix := inPrefix input |> <| loglevel := inLog input |>);;
  go ← (if decide (inCmd input = "migrate") then startMigration now io adapt input p else mret true);
  if negb go then mret (inl None) else
  c ← connectProxy io input p;
  match c with
  | inl e => mret (inl e)
  | inr _ =>
      (if decide (inCmd input = "warmup") then
         _ ← onSessions (extendTimeout TICK_ERROR now p TICK_ERROR);
         collectorSend (MkLDataEntry OP_WARMUP "" "" "" id)
       else _ ← onSessions (extendTimeout TICK_ERROR now p TICK_ERROR_EXTEND); mret ());;
      ops ← Lambda_pongHandler;
      spawn (TCollect p);;
      mret (inr (p, ops))
  end.

(** [HandleRequest]: the requests served while it waits are [served]. *)
Definition Lambda_HandleRequest (now : Z) (io : InvokeIO) (adapt : St → St) (input : LInputEvent)
    (served : M (Lambda St) unit) (now' : Z) (w : waited) (outs : list (error * M MClient unit)) :
    M (Lambda St) (error * list LOp) :=
  r ← Lambda_HandleRequest_setup now io adapt input;
  res ← match r with
        | inl e => mret (e, [])
        | inr (p, ops) => served;; ops' ← Wait now' p w outs; mret (None, ops ++ ops')
        end;
  onSessions ClearSession;;
  mret res.

(** The goroutine that serves the proxy, when the connection is closed. *)
Definition connectionClosed (now : Z) (conn : nat) : M (Lambda St) unit :=
  closeConn conn;;
  p ← onSessions (GetOrCreateSession TICK_ERROR TICK_ERROR_EXTEND now);
  s ← onSessions (getSess p);
  match sessConn s with
  | None => modify (λ l, l <| proxyConn := None |> <| lifetime ::= Reborn now |>)
  | Some c =>
      if decide (c ≠ conn) then mret () else
      modify (λ l, l <| proxyConn := None |>);;
      if IsMigrating s then onMigrator p SetReady
      else modify (λ l, l <| lifetime ::= Rest |>);; onSessions (Session_Done p)
  end.
End handler.
