(* ===== verification/HandlerTheorems.v ===== *)
(** * The handlers of a lambda, against the contract of its store

    Whatever the store is, its own or an adapter of a migration, the get, set
    and del handlers answer like a map of chunks. *)

From S2P Require Import Prelude Lambdastore Request Erasure Client Storage Lifetime Migrator StorageAdapter AdapterTheorems Session LambdaHandler.

Section handlers.
Context {St : Type} `{HS : !StorageOps St} `{HL : !StoreLaws St}.
Context (mem : Z).
Implicit Types (l : Lambda St) (p : sptr).

(** ** Sessions *)

Definition alive_at p l : Prop := current (sessions l) = Some p ∧ is_Some (sheap (sessions l) !! p).
(** The lambda is in an invocation. *)
Definition serving l : Prop := ∃ p, alive_at p l.

Lemma onSessions_id {A} (c : M Sessions A) l x :
  c (sessions l) = Done (x, sessions l) → onSessions c l = Done (x, l).
Proof. intros H. unfold onSessions, zoom. rewrite H. by destruct l. Qed.
Lemma GetSession_at p l : alive_at p l → onSessions GetSession l = Done (Some p, l).
Proof. intros [Hc _]. apply onSessions_id. unfold GetSession, gets. by rewrite Hc. Qed.
Lemma getSess_at p l s : sheap (sessions l) !! p = Some s → onSessions (getSess p) l = Done (s, l).
Proof.
  intros Hs. apply onSessions_id. unfold getSess. erewrite bind_done by reflexivity. by rewrite Hs.
Qed.

(** Steps that leave the store alone. *)
Definition steady {A} p (c : M (Lambda St) A) : Prop :=
  ∀ l, alive_at p l → ∃ x l', c l = Done (x, l') ∧ alive_at p l' ∧ store l' = store l.

Lemma steady_ret {A} p (x : A) : steady p (mret x).
Proof. intros l Hl. by exists x, l. Qed.
Lemma steady_bind {A B} p (c : M (Lambda St) A) (k : A → M (Lambda St) B) :
  steady p c → (∀ x, steady p (k x)) → steady p (c ≫= k).
Proof.
  intros Hc Hk l Hl. destruct (Hc l Hl) as (x&l1&H1&A1&S1). destruct (Hk x l1 A1) as (y&l2&H2&A2&S2).
  exists y, l2. split; [by rewrite (bind_done _ _ _ _ _ H1)|]. split; [done|congruence].
Qed.
Lemma steady_getSess p : steady p (onSessions (getSess p)).
Proof.
  intros l [Hc [s Hs]]. exists s, l. split; [by apply getSess_at|]. split; [split; [done|by eexists]|done].
Qed.
Lemma steady_modSess p f : steady p (onSessions (modSess p f)).
Proof.
  intros l [Hc [s Hs]]. eexists _, _. split; [reflexivity|]. split; [|done]. split; [done|].
  cbn. rewrite list_lookup_alter, decide_True by done. by rewrite Hs.
Qed.
Lemma steady_onTimeout p f : steady p (onSessions (onTimeout p f)).
Proof. apply steady_modSess. Qed.
Lemma steady_collectorSend p e : steady p (collectorSend e).
Proof. intros l Hl. by eexists _, _. Qed.

Lemma beginRequest_steady p l :
  alive_at p l → ∃ ext l', beginRequest mem l = Done ((p, ext), l') ∧ alive_at p l' ∧ store l' = store l.
Proof.
  intros Hl. unfold beginRequest.
  erewrite bind_done by (by apply GetSession_at). erewrite bind_done by reflexivity.
  assert (steady p (onSessions (onTimeout p Busy);;
    onSessions (modSess p (λ s, s <| Requests ::= (λ n, i64 (n + 1)) |>));; onSessions (getSess p))) as Hq.
  { repeat (apply steady_bind; intros; eauto using steady_onTimeout, steady_modSess, steady_getSess). }
  destruct (Hq l Hl) as (s&l'&H'&A'&S').
  unfold mbind, M_bind in H' |- *. destruct (onSessions (onTimeout p Busy) l) as [[? l1]| |]; try done.
  destruct (onSessions (modSess p _) l1) as [[? l2]| |]; try done. rewrite H'. by eexists _, l'.
Qed.

Lemma endRequest_steady now p ext : steady p (endRequest mem now p ext).
Proof. apply steady_bind; intros; eauto using steady_onTimeout, steady_getSess. Qed.

Lemma onStoreOf_done {A} (c : M St A) l x s' :
  c (store l) = Done (x, s') → onStoreOf c l = Done (x, l <| store := s' |>).
Proof. intros H. unfold onStoreOf, zoom. by rewrite H. Qed.

(** The network does its part. *)
Definition delivered (io : HIO) : Prop := hCopy io = None ∧ hFlush io = None ∧ online (hStore io).

(** A handler ends with its store [s'], having written [ops]. *)
Definition answers (c : M (Lambda St) (list LOp)) l ops s' : Prop :=
  ∃ l', c l = Done (ops, l') ∧ serving l' ∧ store l' = s'.

Lemma answers_bind {A} (c : M (Lambda St) A) k l x l1 ops s' :
  c l = Done (x, l1) → answers (k x) l1 ops s' → answers (c ≫= k) l ops s'.
Proof. intros H (l'&H'&?). exists l'. split; [by rewrite (bind_done _ _ _ _ _ H)|done]. Qed.

(** The epilogue of a handler. *)
Lemma answers_done now p ext l ops s' :
  alive_at p l → store l = s' → answers (endRequest mem now p ext;; mret ops) l ops s'.
Proof.
  intros A S. destruct (endRequest_steady now p ext l A) as ([]&l'&H'&A'&S').
  exists l'. split; [by rewrite (bind_done _ _ _ _ _ H')|]. split; [by exists p|congruence].
Qed.
Lemma answers_end now p ext c l ops l1 s' :
  c l = Done (ops, l1) → alive_at p l1 → store l1 = s' →
  answers (ops ← c; endRequest mem now p ext;; mret ops) l ops s'.
Proof. intros H A S. eapply answers_bind; [exact H|by apply answers_done]. Qed.

(** The prologue: the session, and the store as it was. *)
Lemma answers_begin k l ops s' :
  serving l →
  (∀ p ext l1, alive_at p l1 → store l1 = store l → answers (k (p, ext)) l1 ops s') →
  answers (beginRequest mem ≫= k) l ops s'.
Proof.
  intros [p Hp] Hk. destruct (beginRequest_steady p l Hp) as (ext&l1&H1&A1&S1).
  eapply answers_bind; [exact H1|]. by apply Hk.
Qed.
Lemma answers_sess p k l ops s' :
  alive_at p l → (∀ sess, answers (k sess) l ops s') → answers (onSessions (getSess p) ≫= k) l ops s'.
Proof.
  intros [Hc [s Hs]] Hk. eapply answers_bind; [by apply getSess_at|apply (Hk s)].
Qed.

Lemma lambda_get_spec now now' io name args l :
  serving l → sOk (store l) → delivered io →
  (∀ id b, sContent (store l) (arg args 3) = Some (id, b) → fair (aReads (hStore io)) b) →
  ∃ ops s', answers (lambda_get mem now now' io name args) l ops s' ∧ sOk s' ∧
    (∀ k, sContent s' k = sContent (store l) k) ∧
    match sContent (store l) (arg args 3) with
    | Some (id, b) => ops = [LBulkString name; LBulkString (arg args 0); LBulkString (arg args 1);
                             LBulkString id; LCopyBulk b; LFlush]
    | None => ∃ e, ops = [LErrorf e; LFlush]
    end.
Proof.
  intros Hl Hok (Hcp&Hfl&Hon) Hf.
  destruct (sGet_spec (store l) now (hStore io) (arg args 3) Hok Hon Hf) as (r&s'&Hg&Hok'&Hc&Hr).
  assert (∃ ops, answers (lambda_get mem now now' io name args) l ops s' ∧
    match r with
    | inl (id, b) => ops = [LBulkString name; LBulkString (arg args 0); LBulkString (arg args 1);
                            LBulkString id; LCopyBulk b; LFlush]
    | inr e => ops = [(failure "get" (arg args 3) e).1; LFlush]
    end) as (ops&Ho&Ha).
  { destruct r as [[id b]|e]; (eexists; split; [|reflexivity]);
      apply answers_begin; try done; intros p ext l1 A1 S1; apply answers_sess; try done; intros sess; cbv zeta;
      (eapply answers_bind; [apply onStoreOf_done; by rewrite S1|]);
      rewrite ?Hcp, ?Hfl; (eapply answers_end; [reflexivity|exact A1|done]). }
  exists ops, s'. split; [done|]. split; [done|]. split; [done|].
  destruct (sContent (store l) (arg args 3)) as [[id b]|]; [by subst r|].
  destruct Hr as [e ->]. rewrite Ha. unfold failure. case_decide; by eexists.
Qed.

Lemma lambda_set_spec now now' io args b l :
  serving l → sOk (store l) → delivered io → whole (aReads (hStore io)) b →
  ∃ s', answers (lambda_set mem now now' io args None (inl b)) l
      [LBulkString "set"; LBulkString (arg args 0); LBulkString (arg args 1); LBulkString (arg args 2); LFlush] s' ∧
    sOk s' ∧
    ∀ k, sContent s' k = if decide (k = arg args 3) then Some (arg args 2, b) else sContent (store l) k.
Proof.
  intros Hl Hok (Hcp&Hfl&Hon) Hw.
  destruct (sSet_spec (store l) now (hStore io) (arg args 3) (arg args 2) b Hok Hon Hw) as (s'&Hg&Hok'&Hc).
  exists s'. split; [|done]. apply answers_begin; [done|]. intros p ext l1 A1 S1.
  apply answers_sess; [done|]. intros sess. cbv zeta.
  eapply answers_end; [|..].
  - erewrite bind_done by (apply onStoreOf_done; by rewrite S1). cbv beta iota. rewrite Hcp, Hfl. reflexivity.
  - exact A1.
  - done.
Qed.

Lemma lambda_del_spec now now' io args l :
  serving l → sOk (store l) → delivered io →
  ∃ ops s', answers (lambda_del mem now now' io args) l ops s' ∧ sOk s' ∧
    (ops = [LBulkString "del"; LBulkString (arg args 0); LBulkString (arg args 1);
            LBulkString (arg args 2); LFlush] ∨
     sContent (store l) (arg args 3) = None ∧ ∃ e, ops = [LErrorf e; LFlush]) ∧
    ∀ k, sContent s' k = if decide (k = arg args 3) then None else sContent (store l) k.
Proof.
  intros Hl Hok (Hcp&Hfl&Hon).
  destruct (sDel_spec (store l) now (hStore io) (arg args 3) (arg args 2) Hok Hon) as (e&s'&Hg&Hok'&He&Hc).
  eexists _, s'. split; [|split; [done|split; [|done]]].
  - apply answers_begin; [done|]. intros p ext l1 A1 S1. cbv zeta.
    eapply answers_bind; [apply onStoreOf_done; by rewrite S1|].
    apply answers_done; [exact A1|done].
  - destruct e as [e|]; [right|left; by rewrite Hcp, Hfl].
    split; [by destruct (sContent (store l) (arg args 3)) eqn:E; [discriminate He|]|].
    unfold failure. case_decide; by eexists.
Qed.

(** ** A lambda refines a map of chunks *)

(** The requests of the proxy; [qreads] are the reads of the chunk's
    stream, [qpick] the pooled command that the adapter gets. *)
Inductive lop : Type :=
  | QGet
  | QSet (chunk : string) (b : bytes)
  | QDel (chunk : string).
Record lreq : Type := MkLReq {
  qop : lop; qkey : string; qconn : string; qreq : string; qnow : Z; qnow' : Z; qreads : reads; qpick : option nat
}.
Definition qio (q : lreq) : HIO := MkHIO None None (MkAIO None None None None (qreads q) (qpick q)).

Definition handle (q : lreq) : M (Lambda St) (list LOp) :=
  match qop q with
  | QGet => lambda_get mem (qnow q) (qnow' q) (qio q) "get" [qconn q; qreq q; ""; qkey q]
  | QSet chunk b =>
      lambda_set mem (qnow q) (qnow' q) (qio q) [qconn q; qreq q; chunk; qkey q] None (inl b)
  | QDel chunk => lambda_del mem (qnow q) (qnow' q) (qio q) [qconn q; qreq q; chunk; qkey q]
  end.
Fixpoint handleAll (qs : list lreq) : M (Lambda St) (list (list LOp)) :=
  match qs with
  | [] => mret []
  | q :: qs => ops ← handle q; opss ← handleAll qs; mret (ops :: opss)
  end.
End handlers.

(** The specification: the map after a request, and the answers allowed.  A del
    of a key that holds no chunk is acknowledged when the key was deleted
    before, and an error when the store never had it: the map does not tell. *)
Definition spec_step (q : lreq) (m : gmap string (string * bytes)) : gmap string (string * bytes) :=
  match qop q with
  | QGet => m
  | QSet chunk b => <[qkey q := (chunk, b)]> m
  | QDel _ => delete (qkey q) m
  end.
Definition ack (name : string) (q : lreq) (chunk : string) : list LOp :=
  [LBulkString name; LBulkString (qconn q); LBulkString (qreq q); LBulkString chunk].
Definition spec_answer (q : lreq) (m : gmap string (string * bytes)) (ops : list LOp) : Prop :=
  match qop q, m !! qkey q with
  | QGet, Some (id, b) => ops = ack "get" q id ++ [LCopyBulk b; LFlush]
  | QGet, None => ∃ e, ops = [LErrorf e; LFlush]
  | QSet chunk _, _ => ops = ack "set" q chunk ++ [LFlush]
  | QDel chunk, Some _ => ops = ack "del" q chunk ++ [LFlush]
  | QDel chunk, None => ops = ack "del" q chunk ++ [LFlush] ∨ ∃ e, ops = [LErrorf e; LFlush]
  end.
(** The streams are read to the end, or to an error. *)
Definition spec_fair (q : lreq) (m : gmap string (string * bytes)) : Prop :=
  match qop q with
  | QGet => ∀ id b, m !! qkey q = Some (id, b) → fair (qreads q) b
  | QSet _ b => whole (qreads q) b
  | QDel _ => True
  end.
Fixpoint spec_fairs (qs : list lreq) (m : gmap string (string * bytes)) : Prop :=
  match qs with [] => True | q :: qs => spec_fair q m ∧ spec_fairs qs (spec_step q m) end.
Fixpoint spec_answers (qs : list lreq) (m : gmap string (string * bytes)) (opss : list (list LOp)) : Prop :=
  match qs, opss with
  | [], [] => True
  | q :: qs, ops :: opss => spec_answer q m ops ∧ spec_answers qs (spec_step q m) opss
  | _, _ => False
  end.

Section refines.
Context {St : Type} `{HS : !StorageOps St} `{HL : !StoreLaws St}.
Context (mem : Z).
Implicit Types (l : Lambda St).

(** The lambda's store holds what the map says. *)
Definition refines l (m : gmap string (string * bytes)) : Prop :=
  serving l ∧ sOk (store l) ∧ ∀ k, sContent (store l) k = m !! k.

Lemma handle_refines q l m :
  refines l m → spec_fair q m →
  ∃ ops l', handle mem q l = Done (ops, l') ∧ spec_answer q m ops ∧ refines l' (spec_step q m).
Proof.
  intros (Hl&Hok&Hm). unfold spec_fair, spec_answer, spec_step, handle.
  assert (Hd : delivered (qio q)) by done.
  destruct q as [[|chunk b|chunk] key conn req now now' rds]; cbn [qop qkey qconn qreq qnow qnow' qreads] in *;
    intros Hf.
  - destruct (lambda_get_spec mem now now' _ "get" [conn; req; ""; key] l Hl Hok Hd)
      as (ops&s'&(l'&Hr&Hl'&<-)&Hok'&Hc&Ho); [intros id b; cbn; rewrite Hm; apply Hf|].
    cbn in Ho. rewrite Hm in Ho. exists ops, l'. split; [done|]. split; [by destruct (m !! key) as [[]|]|].
    split_and!; [done..|]. intros k. by rewrite Hc.
  - destruct (lambda_set_spec mem now now' _ [conn; req; chunk; key] b l Hl Hok Hd Hf)
      as (s'&(l'&Hr&Hl'&<-)&Hok'&Hc).
    eexists _, l'. split; [exact Hr|]. split; [done|]. split_and!; [done..|]. intros k. rewrite Hc. cbn.
    case_decide; [subst; by rewrite lookup_insert_eq|by rewrite lookup_insert_ne].
  - destruct (lambda_del_spec mem now now' _ [conn; req; chunk; key] l Hl Hok Hd)
      as (ops&s'&(l'&Hr&Hl'&<-)&Hok'&Ho&Hc).
    exists ops, l'. split; [done|]. cbn in Ho. rewrite Hm in Ho.
    split; [destruct (m !! key); naive_solver|]. split_and!; [done..|]. intros k. rewrite Hc. cbn.
    case_decide; [subst; by rewrite lookup_delete_eq|by rewrite lookup_delete_ne].
Qed.

(** C13: a lambda answers every sequence of get, set and del requests the way a
    map from keys to chunks does, whether its store is its own or the adapter
    of a running migration: each handler returns, a get streams the chunk last
    set under its key or answers an error, sets and deletes are acknowledged
    with the ids of their requests, or a delete of a key without a chunk
    answers an error.  The requests follow one another: the stream of a get is
    read, and its handler done, before the next request starts, whichever
    command of the pool each gets. *)
Theorem handlers_refine_map qs l m :
  refines l m → spec_fairs qs m →
  ∃ opss l', handleAll mem qs l = Done (opss, l') ∧ spec_answers qs m opss ∧
    refines l' (foldl (λ m q, spec_step q m) m qs).
Proof.
  revert l m. induction qs as [|q qs IH]; intros l m Hr Hf; [by exists [], l|].
  destruct Hf as [Hq Hqs]. destruct (handle_refines q l m Hr Hq) as (ops&l1&H1&Ho&Hr1).
  destruct (IH l1 _ Hr1 Hqs) as (opss&l2&H2&Ho2&Hr2). exists (ops :: opss), l2.
  split; [|done]. cbn [handleAll]. by rewrite (bind_done _ _ _ _ _ H1), (bind_done _ _ _ _ _ H2).
Qed.
End refines.
