(* ===== verification/Migration.v ===== *)
(** * A migration from end to end

    The source lambda is the peer of the destination's adapter: it serves the
    commands of the adapter with the handlers it serves the proxy with.
    [Migrate] reads the keys the source announced and moves the chunks. *)

From stdpp Require Import pretty.
From Stdlib Require Import Ascii DecimalString DecimalZ.
From S2P Require Import Prelude Lambdastore Request Erasure Client Storage Lifetime Migrator StorageAdapter AdapterTheorems Session LambdaHandler HandlerTheorems.

(** ** The source *)

Record Source : Type := MkSource { srcMem : Z; srcLambda : Lambda (gmap string Chunk) }.
#[global] Instance Source_eta : Eta Source := λ s, MkSource (srcMem s) (srcLambda s).

Definition itemsOf (ops : list LOp) : list Item :=
  ops ≫= λ o, match o with
              | LBulkString s => [IBulk (sbytes s)]
              | LCopyBulk b => [IBulk b]
              | LInt z => [IInt z]
              | LErrorf s => [IError s]
              | LFlush => []
              end.

(** lambda/types/response.go: a response made of one that is read. *)
Definition PrepareByResponse (r : LResponse) : M (list Item) (LResponse * list LOp * error) :=
  f ← ReadBulkString;
  match f with
  | inr e => mret (MkLResponse "" (lrConnId r) (lrReqId r) (lrChunkId r) (lrVal r) (lrBody r) (lrStream r), [], Some e)
  | inl cmd =>
      f ← ReadBulkString;
      match f with
      | inr e => mret (MkLResponse cmd "" (lrReqId r) (lrChunkId r) (lrVal r) (lrBody r) (lrStream r), [], Some e)
      | inl conn =>
          f ← ReadBulkString;
          match f with
          | inr e => mret (MkLResponse cmd conn "" (lrChunkId r) (lrVal r) (lrBody r) (lrStream r), [], Some e)
          | inl req =>
              f ← ReadBulkString;
              match f with
              | inr e => mret (MkLResponse cmd conn req "" (lrVal r) (lrBody r) (lrStream r), [], Some e)
              | inl chunk =>
                  b ← StreamBulk;
                  match b with
                  | inr e => mret (MkLResponse cmd conn req chunk (lrVal r) (lrBody r) None, [], Some e)
                  | inl b =>
                      let r := MkLResponse cmd conn req chunk (lrVal r) (lrBody r) (Some b) in
                      mret (r, LResponse_Prepare r, None)
                  end
              end
          end
      end
  end.

(** It gives back the streamed response that was written. *)
Lemma PrepareByResponse_reads cmd conn req chunk b :
  let r := MkLResponse cmd conn req chunk "" None (Some b) in
  PrepareByResponse (MkLResponse "" "" "" "" "" None None)
    (itemsOf (LResponse_Prepare r ++ (LResponse_Flush r None None).1)) = Done ((r, LResponse_Prepare r, None), []).
Proof.
  cbn -[LResponse_Prepare]. unfold LResponse_Prepare. cbn [lrCmd lrConnId lrReqId lrChunkId lrVal app].
  cbn [decide]. unfold PrepareByResponse. cbn [itemsOf mbind list_bind app].
  do 4 (erewrite bind_done by apply ReadBulkString_bulk; cbv beta iota). by erewrite bind_done by reflexivity.
Qed.

Definition bulkStrings (ops : list COp) : list string :=
  omap (λ o, match o with CBulkString s => Some s | _ => None end) ops.
Definition bulkStream (ops : list COp) : option bytes :=
  head (omap (λ o, match o with CCopyBulk b => Some b | _ => None end) ops).

(** Its connection works; its store is in memory, and does not see the reads. *)
Definition sourceIO (rds : reads) : HIO := MkHIO None None (MkAIO None None None None rds None).

(** The handlers registered in [main]. *)
Definition dispatch (mem now : Z) (ops : list COp) : M (Lambda (gmap string Chunk)) (list LOp) :=
  match bulkStrings ops with
  | [] => mret []
  | cmd :: args =>
      if decide (ToLower cmd = "get") then lambda_get mem now now (sourceIO [([], Some EOF)]) cmd args
      else if decide (ToLower cmd = "set") then
        match bulkStream ops with
        | Some b => lambda_set mem now now (sourceIO [(b, None)]) args None (inl b)
        | None => lambda_set mem now now (sourceIO []) args (Some EOF) (inr EOF)
        end
      else if decide (ToLower cmd = "del") then lambda_del mem now now (sourceIO []) args
      else mret [LErrorf ("ERR unknown command '" +:+ cmd +:+ "'")]
  end.

#[global] Instance Source_Remote : Remote Source := λ now ops s,
  match dispatch (srcMem s) now ops (srcLambda s) with
  | Done (out, l) => Done (itemsOf out, s <| srcLambda := l |>)
  | Panics e => Panics e
  | Spins => Spins
  end.

Lemma Source_serves now ops s out s' :
  answers (dispatch (srcMem s) now ops) (srcLambda s) out s' →
  ∃ src', rServe now ops s = Done (itemsOf out, src') ∧ serving (srcLambda src') ∧
    store (srcLambda src') = s'.
Proof.
  intros (l'&H&Hl&Hs). exists (s <| srcLambda := l' |>). split; [|by split].
  unfold rServe, Source_Remote. by rewrite H.
Qed.

#[global] Program Instance Source_Laws : RemoteLaws Source := {|
  rContent s := content (store (srcLambda s));
  rOk s := serving (srcLambda s) ∧ keyed (store (srcLambda s))
|}.
Next Obligation.
  intros s now conn req chunk key [Hl Hk].
  destruct (lambda_get_spec (HL:=Storage_Laws) (srcMem s) now now (sourceIO [([], Some EOF)]) "get"
              [conn; req; chunk; key] (srcLambda s) Hl Hk) as (ops&s'&Ha&Hok&Hc&Ho); [done| |].
  { intros id b _. split; [cbn; lia|]. right. by eexists. }
  destruct (Source_serves now (cmdFrame "get" None [conn; req; chunk; key]) s ops s' Ha) as (src'&Hs&Hl'&<-).
  exists (itemsOf ops), src'. split; [done|]. split; [done|]. split; [done|].
  cbn in Ho |- *. destruct (content _ key) as [[id b]|]; [by subst|]. destruct Ho as [e ->]. by exists e.
Qed.
Next Obligation.
  intros s now conn req chunk key b [Hl Hk].
  destruct (lambda_set_spec (HL:=Storage_Laws) (srcMem s) now now (sourceIO [(b, None)])
              [conn; req; chunk; key] b (srcLambda s) Hl Hk) as (s'&Ha&Hok&Hc); [done| |].
  { split; [cbn; apply app_nil_r|]. by intros e [= <-]. }
  destruct (Source_serves now (cmdFrame "set" (Some b) [conn; req; chunk; key]) s _ s' Ha) as (src'&Hs&Hl'&<-).
  by exists src'.
Qed.
Next Obligation.
  intros s now conn req chunk key [Hl Hk].
  destruct (lambda_del_spec (HL:=Storage_Laws) (srcMem s) now now (sourceIO [])
              [conn; req; chunk; key] (srcLambda s) Hl Hk) as (ops&s'&Ha&Hok&Ho&Hc); [done|].
  destruct (Source_serves now (cmdFrame "del" None [conn; req; chunk; key]) s ops s' Ha) as (src'&Hs&Hl'&<-).
  exists (itemsOf ops), src'. split; [done|]. split; [done|]. split; [|done].
  cbn in Ho |- *. destruct Ho as [->|[Hn [e ->]]]; [by left|right].
  split; [done|by exists e].
Qed.

(** ** client.go: [Migrate] *)

Section migrate.
Context {R : Type} `{HR : !Remote R}.

Fixpoint readKeys (n : nat) : M (list Item) (list string + string) :=
  match n with
  | O => mret (inl [])
  | S n =>
      r ← ReadBulkString;
      match r with
      | inr e => mret (inr e)
      | inl k => ks ← readKeys n; mret (match ks with inl ks => inl (k :: ks) | inr e => inr e end)
      end
  end.

(** What the loop does with a key: [false] when it returns. *)
Definition migrateKey (now : Z) (io : AIO) (cmdkey : string) : M (StorageAdapter R) bool :=
  match cmdkey with
  | "" => throw PSlice
  | String c key =>
      if decide (Itoa OP_DEL = String c "") then LocalDel now key;; mret true
      else r ← Adapter_Migrate now io key; mret (negb (bool_decide (r = inr ErrClosed)))
  end.
Fixpoint migrateKeys (now : Z) (ios : nat → AIO) (cmdkeys : list string) : M (StorageAdapter R) unit :=
  match cmdkeys with
  | [] => mret ()
  | ck :: cks =>
      go ← migrateKey now (ios (length cks)) ck;
      if (go : bool) then migrateKeys now ios cks else mret ()
  end.

(** The head of [Migrate]: the keys, unless reading them failed. *)
Definition announced (items : list Item) : res (option (list string)) :=
  let '(_, items) := match ReadBulkString items with Done x => x | _ => (inl "", items) end in
  match ReadBulkString items with
  | Done (inl strLen, items) =>
      match checkedAtoi strLen with
      | None => Done None
      | Some n =>
          if decide (n < 0) then Panics PMake
          else match readKeys (Z.to_nat n) items with
               | Done (inl ks, _) => Done (Some ks)
               | _ => Done None
               end
      end
  | _ => Done None
  end.

Definition MClient_Migrate (now : Z) (ios : nat → AIO) (items : list Item) : M (StorageAdapter R) unit := λ a,
  match announced items with
  | Done (Some cmdkeys) => migrateKeys now ios cmdkeys a
  | Done None => Done ((), a)
  | Panics e => Panics e
  | Spins => Spins
  end.
End migrate.

(** handler.go: the goroutine that migrates, then restores the store. *)
Definition migrateRoutine {R} `{!Remote R} (mem now : Z) (ios : nat → AIO) (items : list Item) (p : sptr) :
    M (Lambda (AnyStore R)) unit :=
  onSessions (onTimeout p Busy);;
  l ← mget;
  match store l with
  | Plain _ => throw PType
  | Adapted a =>
      match MClient_Migrate now ios items a with
      | Done (_, a') =>
          onMigrator p MClient_Close;;
          onSessions (modSess p (λ s, s <| sessMigrator := None |>));;
          modify (λ l, l <| store := Plain (Restore a').1 |>);;
          onSessions (onTimeout p DoneBusy)
      | Panics e => throw e
      | Spins => blocked
      end
  end.

(** ** Announcing the keys *)

Lemma checkedAtoi_Itoa n : 0 ≤ n < 2 ^ 63 → checkedAtoi (Itoa n) = Some n.
Proof.
  intros Hn. unfold Itoa. destruct (Z.to_int n) as [u|u] eqn:Eu; [|by destruct n; try lia].
  assert (u ≠ Decimal.Nil) as Hu.
  { intros ->. pose proof (DecimalZ.of_to n) as E. rewrite Eu in E. cbn in E. by subst n. }
  assert (checkedAtoi (NilZero.string_of_int (Decimal.Pos u)) =
    z ← Z.of_int <$> NilZero.int_of_string (NilZero.string_of_int (Decimal.Pos u));
    if decide (is_i64 z) then Some z else None) as -> by (by destruct u).
  rewrite NilZero.isi by (intros [= ->]; done || done). cbn [fmap option_fmap option_map mbind option_bind].
  rewrite <- Eu, DecimalZ.of_to. by rewrite decide_True by (unfold is_i64; lia).
Qed.

Lemma readKeys_bulks ks rest :
  readKeys (length ks) (((λ k, IBulk (sbytes k)) <$> ks) ++ rest) = Done (inl ks, rest).
Proof.
  induction ks as [|k ks IH]; [done|]. cbn [length readKeys fmap list_fmap app].
  erewrite bind_done by apply ReadBulkString_bulk. cbv beta iota. by rewrite (bind_done _ _ _ _ _ IH).
Qed.
