(* ===== verification/MigrationTheorems.v ===== *)
(** * Migrations: properties

    The source announces its keys without losing any; a migration, interleaved
    with the requests of the proxy, ends with the destination holding every
    chunk the source has; and the ways in which chunks get lost, or old ones
    stay. *)

From stdpp Require Import pretty.
From Stdlib Require Import Ascii.
From S2P Require Import Prelude Lambdastore Request Erasure Client Storage Lifetime Migrator StorageAdapter AdapterTheorems Session LambdaHandler HandlerTheorems Migration.

(** ** Announcing the keys *)

Section announce.
Abbreviation SLambda := (Lambda (gmap string Chunk)).
Implicit Types (l : SLambda) (keys D G : list string).

Definition dead (s : gmap string Chunk) (k : string) : Prop := content s k = None.
#[global] Instance dead_dec s k : Decision (dead s k).
Proof. unfold dead. apply _. Defined.

(** The array of the lists: deleted keys from its start, live ones from its middle. *)
Definition halves (n : nat) (arr D G : list string) : Prop :=
  length arr = (2 * n)%nat ∧ take (length D) arr = D ∧ take (length G) (drop n arr) = G.

Lemma take_snoc_insert (arr D : list string) k :
  (length D < length arr)%nat → take (length D) arr = D →
  take (S (length D)) (<[length D := k]> arr) = D ++ [k].
Proof.
  intros Hl Ht. rewrite (take_S_r _ _ k); [|by apply list_lookup_insert_eq].
  rewrite take_insert_ge by lia. by rewrite Ht.
Qed.

Lemma halves_del n arr D G k :
  halves n arr D G → (length D < n)%nat → halves n (<[length D := k]> arr) (D ++ [k]) G.
Proof.
  intros (Hl&HD&HG) Hn. split_and!; [by rewrite length_insert| |].
  - rewrite length_app, Nat.add_1_r. apply take_snoc_insert; [lia|done].
  - by rewrite drop_insert_lt by lia.
Qed.
Lemma halves_get n arr D G k :
  halves n arr D G → (length D + length G < n)%nat → halves n (<[(n + length G)%nat := k]> arr) D (G ++ [k]).
Proof.
  intros (Hl&HD&HG) Hn. split_and!; [by rewrite length_insert| |].
  - by rewrite take_insert_ge by lia.
  - rewrite drop_insert_ge, length_app, Nat.add_1_r by lia. replace (n + length G - n)%nat with (length G) by lia.
    apply take_snoc_insert; [rewrite length_drop; lia|done].
Qed.

(** A lookup keeps the store as it is, for all that is asked here. *)
Definition same_store s0 l : Prop :=
  keyed (store l) ∧ size (store l) = size s0 ∧ ∀ k, content (store l) k = content s0 k.

Lemma same_store_get s0 now k l :
  same_store s0 l → ∃ r s', Storage_Get now k (store l) = Done (r, s') ∧
    same_store s0 (l <| store := s' |>) ∧
    bool_decide (dead s0 k) = match r with inr e => bool_decide (e = ErrNotFound) | inl _ => false end.
Proof.
  intros (Hk&Hz&Hs). destruct (Get_content now k (store l)) as (s'&Hg&Hc). eexists _, s'.
  split; [exact Hg|]. split; [split_and!|].
  - by eapply keyed_Get.
  - cbn. rewrite <- Hz. revert Hg. unfold Storage_Get.
    destruct (store l !! k) as [c|] eqn:E; [|by intros [= _ <-]].
    destruct (ckBody c); [|by intros [= _ <-]]. intros [= _ <-]. by rewrite map_size_insert_Some.
  - intros k'. cbn. by rewrite Hc.
  - destruct (content (store l) k) eqn:E; rewrite Hs in E; unfold dead.
    + by rewrite bool_decide_false by (by rewrite E).
    + by rewrite bool_decide_true.
Qed.

Lemma splitKeys_spec s0 now io keys n arr D G p l :
  alive_at p l → same_store s0 l →
  halves n arr D G → (length D + length G + length keys ≤ n)%nat →
  ∃ arr' l',
    let D' := D ++ filter (dead s0) keys in
    let G' := G ++ filter (λ k, ¬ dead s0 k) keys in
    splitKeys now io keys [arr] (MkSlice 0 0 (length D) (2 * n)) (MkSlice 0 n (length G) n) l =
      Done (([arr'], MkSlice 0 0 (length D') (2 * n), MkSlice 0 n (length G') n), l') ∧
    halves n arr' D' G' ∧ alive_at p l' ∧ sessions l' = sessions l ∧ same_store s0 l'.
Proof.
  revert arr D G l. induction keys as [|k keys IH]; intros arr D G l Hp Hs Hh Hn.
  { exists arr, l. cbn. by rewrite !app_nil_r. }
  cbn [length] in Hn. cbn [splitKeys].
  destruct (same_store_get s0 now k l Hs) as (r&s'&Hg&Hs'&Hr).
  erewrite bind_done by (by apply onStoreOf_done). cbv beta zeta. rewrite <- Hr.
  set (l1 := update store (λ _, s') l) in *.
  unfold appendS. rewrite !filter_cons. destruct Hh as (Hl&HD&HG).
  destruct (decide (dead s0 k)) as [Hd|Hd].
  - rewrite bool_decide_true by done. rewrite (decide_False (P:=¬ _)) by naive_solver. cbn [slength scap sarr soff].
    rewrite decide_True by lia. cbn [Nat.add alter list_alter].
    destruct (IH (<[length D := k]> arr) (D ++ [k]) G l1 Hp Hs') as (arr'&l'&Hr'&?).
    + by apply halves_del; [|lia].
    + rewrite length_app. cbn. lia.
    + exists arr', l'. rewrite length_app, Nat.add_1_r, <- app_assoc in Hr'. by rewrite <- app_assoc in *.
  - rewrite bool_decide_false by done. rewrite (decide_True (P:=¬ _)) by done. cbn [slength scap sarr soff].
    rewrite decide_True by lia. cbn [alter list_alter].
    destruct (IH (<[(n + length G)%nat := k]> arr) D (G ++ [k]) l1 Hp Hs') as (arr'&l'&Hr'&?).
    + by apply halves_get; [|lia].
    + rewrite length_app. cbn. lia.
    + exists arr', l'. rewrite length_app, Nat.add_1_r, <- app_assoc in Hr'. by rewrite <- app_assoc in *.
Qed.

(** The source is ready: its connection to the proxy is closed, and the
    migrator knows. *)
Definition ready_source p l : Prop :=
  current (sessions l) = Some p ∧
  ∃ sess m, sheap (sessions l) !! p = Some sess ∧ sessMigrator sess = Some m ∧
    pending m = [] ∧ rclosed m = true.

Definition mhelloOps (s : gmap string Chunk) keys : list LOp :=
  [LBulkString "mhello"; LBulkString (Itoa (Storage_Len s))] ++
  ((λ k, LBulkString (pretty OP_DEL +:+ k)) <$> filter (dead s) keys) ++
  ((λ k, LBulkString (pretty OP_GET +:+ k)) <$> filter (λ k, ¬ dead s k) keys) ++ [LFlush].

Lemma onMigrator_ready p l :
  ready_source p l → ∃ l', onMigrator p recvReady l = Done (None, l') ∧ alive_at p l' ∧ store l' = store l.
Proof.
  intros (Hc&sess&m&Hs&Hm&Hp&Hr). unfold onMigrator.
  erewrite bind_done by (by apply getSess_at).
  rewrite Hm. erewrite bind_done by reflexivity.
  assert (recvReady m = Done (None, m)) as -> by (destruct m; cbn in *; by subst).
  eexists. split; [reflexivity|]. split; [|done]. split; [done|]. cbn.
  rewrite list_lookup_alter, decide_True by done. by rewrite Hs.
Qed.

Lemma halves_start n : halves n (replicate (2 * n) "") [] [].
Proof. split_and!; [by rewrite length_replicate|done|done]. Qed.

Lemma lambda_mhello_spec now io keys p l :
  ready_source p l → keyed (store l) → sKeys (store l) keys →
  ∃ l', lambda_mhello now io keys l = Done (mhelloOps (store l) keys, l') ∧ alive_at p l' ∧
    same_store (store l) l'.
Proof.
  intros Hr Hk (all&Hall&->). pose proof (Keys_Permutation _ _ Hk Hall) as HP.
  apply Permutation_length in HP. rewrite length_fmap, length_map_to_list in HP.
  set (keys := Storage_Keys all) in *. destruct (onMigrator_ready p l Hr) as (l1&H1&A1&S1).
  destruct Hr as (Hc&sess&m&Hs&Hm&_). unfold lambda_mhello.
  erewrite bind_done by (apply GetSession_at; split; [done|by rewrite Hs]).
  erewrite bind_done by reflexivity.
  erewrite bind_done by (by apply getSess_at).
  rewrite Hm.
  erewrite bind_done by exact H1. cbv beta iota. erewrite bind_done by reflexivity. cbv zeta.
  assert (Hn : Z.to_nat (sLen (store l1)) = size (store l)) by (rewrite S1; cbn; unfold Storage_Len; lia).
  rewrite Hn.
  destruct (splitKeys_spec (store l) now io keys (size (store l))
              (replicate (2 * size (store l)) "") [] [] p l1 A1) as (arr'&l2&H2&Hh&A2&_&Hs2);
    [split_and!; by rewrite S1|apply halves_start|cbn; lia|].
  erewrite bind_done by exact H2. cbv beta iota. exists l2. split; [|done].
  unfold mhelloOps. rewrite S1. destruct Hh as (_&HD&HG). unfold sliceElems. cbn [sarr soff slength].
  cbn [lookup list_lookup default from_option app id] in *. by rewrite drop_0, HD, HG.
Qed.

(** ... and the destination reads them back. *)
Definition cmdkeys (s : gmap string Chunk) keys : list string :=
  (String.append (pretty OP_DEL) <$> filter (dead s) keys) ++
  (String.append (pretty OP_GET) <$> filter (λ k, ¬ dead s k) keys).

Lemma announced_mhello s keys :
  keyed s → sKeys s keys → Z.of_nat (size s) < 2 ^ 63 →
  announced (itemsOf (mhelloOps s keys)) = Done (Some (cmdkeys s keys)).
Proof.
  intros Hk (all&Hall&->) Hsz. pose proof (Keys_Permutation _ _ Hk Hall) as HP.
  apply Permutation_length in HP. rewrite length_fmap, length_map_to_list in HP.
  set (keys := Storage_Keys all) in *.
  assert (Hi : itemsOf (mhelloOps s keys) = IBulk (sbytes "mhello") :: IBulk (sbytes (Itoa (Storage_Len s))) ::
    ((λ k, IBulk (sbytes k)) <$> cmdkeys s keys) ++ []).
  { unfold itemsOf, mhelloOps, cmdkeys. cbn [app mbind list_bind]. f_equal. f_equal.
    rewrite app_nil_r, fmap_app, !bind_app. cbn. rewrite app_nil_r. f_equal.
    - induction (filter (dead s) keys) as [|k ks IH]; [done|]. cbn. by rewrite IH.
    - induction (filter (λ k, ¬ dead s k) keys) as [|k ks IH]; [done|]. cbn. by rewrite IH. }
  assert (Hl : length (cmdkeys s keys) = size s).
  { unfold cmdkeys. rewrite length_app, !length_fmap, <- HP.
    by rewrite <- length_app, filter_app_complement. }
  unfold announced. rewrite Hi, !ReadBulkString_bulk. rewrite checkedAtoi_Itoa by (unfold Storage_Len; lia).
  rewrite decide_False by (unfold Storage_Len; lia). unfold Storage_Len. rewrite Nat2Z.id, <- Hl.
  by rewrite readKeys_bulks.
Qed.
End announce.

(** ** Moving the chunks *)

Definition delKey (ck : string) : option string :=
  match ck with String c k => if decide (Itoa OP_DEL = String c "") then Some k else None | "" => None end.

Section moving.
Context {R : Type} `{HR : !Remote R} `{HL : !RemoteLaws R}.
Implicit Types (a : StorageAdapter R) (cks : list string).











(** A chunk the destination holds already stays as it is. *)
Definition stale k x y a : Prop :=
  serves a ∧ content (astore a) k = Some x ∧ rContent (amigrator a) k = Some y.

Lemma stale_key now io ck k x y a :
  ck ≠ "" → delKey ck ≠ Some k → stale k x y a → online io →
  ∃ a', migrateKey now io ck a = Done (true, a') ∧ stale k x y a'.
Proof.
  intros Hne Hk (Ha&Hx&Hy) Hio. destruct ck as [|c key]; [done|]. cbn in Hk. unfold migrateKey.
  change (Itoa OP_DEL) with "2" in *. destruct (decide ("2" = String c "")).
  - unfold LocalDel. destruct (Del_content now key "" (astore a)) as (er&s'&Hg&_&Hs').
    eexists. split; [erewrite bind_done by (by erewrite bind_done by (by apply onStore_done)); reflexivity|].
    split_and!; [|cbn; rewrite Hs'; by rewrite decide_False by congruence|done].
    destruct Ha as (Hr&Hkd&Hi). split_and!; [done| |done]. by eapply keyed_Del.
  - destruct (Migrate_extends now io key a Ha Hio) as (r&a'&E&(Ha'&Hr&Hg&_)&_&Hn).
    exists a'. split; [rewrite (bind_done _ _ _ _ _ E); by rewrite bool_decide_false|].
    split_and!; [done|by apply Hg|by rewrite Hr].
Qed.

Lemma stale_keys now ios cks k x y a :
  (∀ ck, ck ∈ cks → ck ≠ "" ∧ delKey ck ≠ Some k) → (∀ n, online (ios n)) → stale k x y a →
  ∃ a', migrateKeys now ios cks a = Done ((), a') ∧ stale k x y a'.
Proof.
  intros Hne Hio. revert a. induction cks as [|ck cks IH]; intros a Ha; [by exists a|].
  destruct (Hne ck ltac:(by left)) as [H1 H2].
  destruct (stale_key now (ios (length cks)) ck k x y a H1 H2 Ha (Hio _)) as (a1&E&Ha1).
  destruct IH with a1 as (a'&E'&Ha'); [intros ck' ?; apply Hne; by right|done|].
  exists a'. split; [|done]. cbn [migrateKeys]. by rewrite (bind_done _ _ _ _ _ E).
Qed.

Lemma stale_served now io k x y a :
  stale k x y a → online io → ∃ a', Adapter_GetStream now io k a = Done (inl x, a').
Proof.
  intros (Ha&Hx&_) Hio. destruct (GetStream_run now io k a Ha Hio) as (r&c&cmd&a'&E&_&_&_&_&_&H).
  rewrite Hx in H. destruct H as [-> _]. by exists a'.
Qed.
End moving.

(** ** From the announcement to the restored store *)

Lemma omap_prefixed (f : string → option string) (pre : string) (ks : list string) :
  (∀ k, f (pre +:+ k) = Some k) → omap f (String.append pre <$> ks) = ks.
Proof. intros Hf. induction ks as [|k ks IH]; [done|]. cbn. by rewrite Hf, IH. Qed.
Lemma omap_prefixed_none (f : string → option string) (pre : string) (ks : list string) :
  (∀ k, f (pre +:+ k) = None) → omap f (String.append pre <$> ks) = [].
Proof. intros Hf. induction ks as [|k ks IH]; [done|]. cbn. by rewrite Hf, IH. Qed.

Lemma cmdkeys_dels s keys : omap delKey (cmdkeys s keys) = filter (dead s) keys.
Proof.
  unfold cmdkeys. rewrite omap_app, omap_prefixed, omap_prefixed_none by done. apply app_nil_r.
Qed.
Lemma cmdkeys_nonempty s keys ck : ck ∈ cmdkeys s keys → ck ≠ "".
Proof.
  unfold cmdkeys. rewrite elem_of_app, !list_elem_of_fmap. intros [(k&->&_)|(k&->&_)]; done.
Qed.

Section complete.
Context (mem : Z).
Implicit Types l : Lambda (gmap string Chunk).

(** The destination of a migration from the source [l], with the store [s0]. *)
Definition destination l (s0 : gmap string Chunk) : StorageAdapter Source :=
  newStorageAdapter (MkSource mem l) s0.



(** C33: a destination that still holds a chunk of an earlier life keeps it.  The
    store of a lambda survives a migration away from it; when it becomes the
    destination of a later one, [Migrate] skips a key it has a chunk for.
    Whatever part of the announced keys has been migrated, and after all of
    them, the old chunk is held and served, though the source holds, and
    announced, another one. *)
Theorem stale_chunk_survives p now now' io ios keys l s0 k x0 x :
  ready_source p l → keyed (store l) → sKeys (store l) keys → Z.of_nat (size (store l)) < 2 ^ 63 →
  keyed s0 → content s0 k = Some x0 → content (store l) k = Some x → (∀ n, online (ios n)) →
  ∃ out l' cks,
    lambda_mhello now io keys l = Done (out, l') ∧ announced (itemsOf out) = Done (Some cks) ∧
    pretty OP_GET +:+ k ∈ cks ∧
    (∀ done todo, cks = done ++ todo → ∃ a',
       migrateKeys now' ios done (destination l' s0) = Done ((), a') ∧
       content (store (srcLambda (amigrator a'))) k = Some x ∧
       ∀ t io', online io' → ∃ a'', Adapter_GetStream t io' k a' = Done (inl x0, a'')) ∧
    ∃ a', MClient_Migrate now' ios (itemsOf out) (destination l' s0) = Done ((), a') ∧
      content (Restore a').1 k = Some x0 ∧ content (store (srcLambda (amigrator a'))) k = Some x.
Proof.
  intros Hr Hk Hks Hsz Hk0 Hx0 Hx Hio.
  destruct (lambda_mhello_spec now io keys p l Hr Hk Hks) as (l'&Hm&Ha&Hs).
  pose proof (announced_mhello (store l) keys Hk Hks Hsz) as Han.
  assert (Hd : stale k x0 x (destination l' s0)).
  { destruct Hs as (Hk'&_&Hc). split_and!; [|done|by cbn; rewrite Hc].
    split_and!; [by split; [exists p|]|done|apply idle_new]. }
  assert (Hlive : ¬ dead (store l) k) by (unfold dead; by rewrite Hx).
  assert (Hcks : ∀ ck, ck ∈ cmdkeys (store l) keys → ck ≠ "" ∧ delKey ck ≠ Some k).
  { intros ck Hck. split; [by apply (cmdkeys_nonempty _ _ _ Hck)|]. intros E. apply Hlive.
    apply (list_elem_of_filter (dead (store l)) keys k). rewrite <- cmdkeys_dels, list_elem_of_omap. by exists ck. }
  assert (Hrun : ∀ done todo, cmdkeys (store l) keys = done ++ todo → ∃ a',
    migrateKeys now' ios done (destination l' s0) = Done ((), a') ∧ stale k x0 x a').
  { intros done todo E. apply stale_keys; [|done..]. intros ck Hck. apply Hcks. rewrite E. set_solver. }
  eexists _, l', _. split; [exact Hm|]. split; [exact Han|]. split_and!.
  - unfold cmdkeys. rewrite elem_of_app, !list_elem_of_fmap. right. exists k. split; [done|].
    destruct Hks as (all&Hall&->). rewrite list_elem_of_filter, (Keys_Permutation _ _ Hk Hall). split; [done|].
    unfold content in Hx. destruct (store l !! k) as [c|] eqn:E; [|done].
    apply list_elem_of_fmap. exists (k, c). split; [done|]. by apply elem_of_map_to_list.
  - intros done todo E. destruct (Hrun done todo E) as (a'&Ha'&Hst). exists a'.
    split; [done|]. split; [apply Hst|]. intros t io' Hio'. by eapply stale_served.
  - destruct (Hrun _ [] (symmetry (app_nil_r _))) as (a'&Ha'&_&H1&H2). exists a'.
    split; [unfold MClient_Migrate; by rewrite Han|done].
Qed.
End complete.

(** ** Concrete migrations *)

Section concrete.
#[local] Open Scope string_scope.

(** A source ready to migrate, with the given store. *)
Definition readySource (s : gmap string Chunk) : Lambda (gmap string Chunk) :=
  MkLambda (Lifetime_New 0 LIFESPAN)
    (MkSessions [MkSession "source" 0 (Some (MkMClient (Some 0%nat) true [] true))
                   (Start 0 (NewTimeout TICK_10_ERROR 0 TICK_10_ERROR_EXTEND)) None false] (Some 0%nat))
    s 7 "" None [] false "" 0 [] [] [].
Definition theIO (rds : reads) : AIO := MkAIO None None None None rds None.
Definition oldChunk : Chunk := MkChunk "k" "0" (Some [Byte.x61]) 5.
Definition newChunk : Chunk := MkChunk "k" "0" (Some [Byte.x62]) 9.
Definition deletedChunk : Chunk := MkChunk "k" "0" None 9.

Lemma keyed_singleton k c : ckKey c = k → keyed {[ k := c ]}.
Proof. intros Hc k' c'. rewrite lookup_singleton_Some. by intros [<- <-]. Qed.
Lemma sKeys_singleton k c : ckKey c = k → sKeys ({[ k := c ]} : gmap string Chunk) [k].
Proof. intros <-. exists [c]. rewrite map_to_list_singleton. done. Qed.

(** A computation that returns, with a check on the result. *)
Definition runs {A} (c : res A) (P : A → bool) : bool := match c with Done x => P x | _ => false end.
Lemma runs_true {A} (c : res A) P : runs c P = true → ∃ x, c = Done x ∧ P x = true.
Proof. destruct c as [x| |]; [|done..]. by exists x. Qed.


(** A destination in the middle of a migration. *)
Definition adaptedLambda : Lambda (AnyStore Source) :=
  MkLambda (Lifetime_New 0 LIFESPAN) (sessions (readySource ∅))
    (Adapted (destination 2048 (readySource {[ "k" := newChunk ]}) ∅)) 7 "" None [] false "" 0 [] [] [].
Definition someRequests : list lreq :=
  [MkLReq QGet "k" "1" "r1" 10 11 [([Byte.x62], None)] None;
   MkLReq (QSet "3" [Byte.x63]) "j" "1" "r2" 12 13 [([Byte.x63], None)] (Some 0%nat);
   MkLReq (QDel "0") "k" "1" "r3" 14 15 [] (Some 0%nat);
   MkLReq (QDel "0") "k" "1" "r4" 16 17 [] None].

Lemma adaptedLambda_refines : refines adaptedLambda {[ "k" := ("0", [Byte.x62]) ]}.
Proof.
  split; [by exists 0%nat|]. split.
  - split_and!; [split; [by exists 0%nat|by apply keyed_singleton]|apply keyed_New|apply idle_new|].
    intros k x. unfold content. cbn. by rewrite lookup_empty.
  - intros k. change (content {[ "k" := newChunk ]} k = ({[ "k" := ("0", [Byte.x62]) ]} : gmap string _) !! k).
    unfold content. destruct (decide (k = "k")) as [->|Hk]; [by rewrite !lookup_singleton_eq|].
    by rewrite !lookup_singleton_ne.
Qed.

Lemma handlers_refine_map_witness :
  ∃ opss l', handleAll 2048 someRequests adaptedLambda = Done (opss, l') ∧
    spec_answers someRequests {[ "k" := ("0", [Byte.x62]) ]} opss.
Proof.
  destruct (handlers_refine_map 2048 someRequests adaptedLambda {[ "k" := ("0", [Byte.x62]) ]})
    as (opss&l'&H1&H2&_).
  - apply adaptedLambda_refines.
  - split; [|split; [split; [done|by intros e [= <-]]|done]].
    intros id b. cbn [qkey]. rewrite lookup_singleton_eq. intros [= <- <-].
    split; [cbn; lia|]. left. split; [done|by intros e [= <-]].
  - exists opss, l'. exact (conj H1 H2).
Defined.

Lemma stale_chunk_survives_witness : ∃ out l' a',
  lambda_mhello 10 (theIO []) ["k"] (readySource {[ "k" := newChunk ]}) = Done (out, l') ∧
  MClient_Migrate 11 (λ _, theIO []) (itemsOf out) (destination 2048 l' {[ "k" := oldChunk ]}) = Done ((), a') ∧
  content (Restore a').1 "k" = Some ("0", [Byte.x61]) ∧
  content (store (srcLambda (amigrator a'))) "k" = Some ("0", [Byte.x62]).
Proof.
  destruct (stale_chunk_survives 2048 0 10 11 (theIO []) (λ _, theIO []) ["k"]
              (readySource {[ "k" := newChunk ]}) {[ "k" := oldChunk ]} "k" ("0", [Byte.x61]) ("0", [Byte.x62]))
    as (out&l'&cks&H1&_&_&_&a'&H2&H3).
  - split; [done|]. by eexists _, _.
  - by apply keyed_singleton.
  - by apply (sKeys_singleton "k").
  - by vm_compute.
  - by apply keyed_singleton.
  - by vm_compute.
  - by vm_compute.
  - done.
  - exists out, l', a'. exact (conj H1 (conj H2 H3)).
Defined.

(** Key "j" is read while its chunk is streamed; the get of "i" takes its command. *)
Definition twoKeys : StorageAdapter Source :=
  destination 2048 (readySource {[ "i" := MkChunk "i" "1" (Some [Byte.x69]) 5; "j" := MkChunk "j" "2" (Some [Byte.x6a]) 9 ]}) ∅.
Lemma twoKeys_serves : serves twoKeys.
Proof.
  split_and!; [split; [by exists 0%nat|]|apply keyed_New|apply idle_new]. intros k c Hc.
  cbn in Hc. apply lookup_insert_Some in Hc as [[<- <-]|[_ Hc]]; [done|].
  by apply lookup_singleton_Some in Hc as [<- <-].
Qed.
Lemma pooled_command_misplaces_witness : ∃ a1 c a2 a3 a4,
  Adapter_GetStream 10 (theIO [([Byte.x6a], None)]) "j" twoKeys = Done (inl ("2", [Byte.x6a]), a1) ∧
  newCmd (Some 0%nat) (withKey "i") a1 = Done (c, a2) ∧
  getHandler_tail 10 [([Byte.x6a], None)] a2 = Done ((), a3) ∧
  awaitGet 11 (theIO []) c a3 = Done (inl ("2", [Byte.x6a]), a4).
Proof.
  destruct (pooled_command_misplaces 10 11 (theIO [([Byte.x6a], None)]) (theIO []) "j" "i" "2" [Byte.x6a] twoKeys)
    as (a1&c&a2&a3&H1&H2&H3&_&(a4&H4&_)&_).
  - exact twoKeys_serves.
  - done.
  - split; [done|by intros e [= <-]].
  - by vm_compute.
  - by vm_compute.
  - done.
  - exists a1, c, a2, a3, a4. exact (conj H1 (conj H2 (conj H3 H4))).
Defined.

(** A set that is served between the announcement of a deleted key and its
    [LocalDel] is lost, though it was acknowledged and the source has it. *)
Lemma LocalDel_loses_set :
  ∃ out l' a1 a2,
    lambda_mhello 10 (theIO []) ["k"] (readySource {[ "k" := deletedChunk ]}) = Done (out, l') ∧
    announced (itemsOf out) = Done (Some ["2k"]) ∧
    Adapter_SetStream 11 (theIO [([Byte.x62], None)]) "k" "0" (inl [Byte.x62]) (destination 2048 l' ∅) =
      Done (None, a1) ∧
    migrateKey 12 (theIO []) "2k" a1 = Done (true, a2) ∧
    content (store (srcLambda (amigrator a2))) "k" = Some ("0", [Byte.x62]) ∧
    content (Restore a2).1 "k" = None.
Proof.
  assert (runs (lambda_mhello 10 (theIO []) ["k"] (readySource {[ "k" := deletedChunk ]})) (λ r,
    runs (announced (itemsOf r.1)) (λ x, bool_decide (x = Some ["2k"])) &&
    runs (Adapter_SetStream 11 (theIO [([Byte.x62], None)]) "k" "0" (inl [Byte.x62]) (destination 2048 r.2 ∅)) (λ x,
      bool_decide (x.1 = None) &&
      runs (migrateKey 12 (theIO []) "2k" x.2) (λ y, y.1 &&
        bool_decide (content (store (srcLambda (amigrator y.2))) "k" = Some ("0", [Byte.x62])) &&
        bool_decide (content (Restore y.2).1 "k" = None)))) = true) as E by (vm_compute; reflexivity).
  apply runs_true in E as ([out l']&E1&E). apply andb_true_iff in E as [E2 E].
  apply runs_true in E2 as (x&E2&Ex%bool_decide_eq_true). subst x.
  apply runs_true in E as ([e a1]&E3&E). apply andb_true_iff in E as [E4%bool_decide_eq_true E].
  apply runs_true in E as ([b a2]&E5&E). cbn [fst snd] in *. subst e.
  apply andb_true_iff in E as [E E7%bool_decide_eq_true]. apply andb_true_iff in E as [-> E6%bool_decide_eq_true].
  exists out, l', a1, a2. exact (conj E1 (conj E2 (conj E3 (conj E5 (conj E6 E7))))).
Qed.

(** A client that stops reading halfway, without an error of the stream,
    leaves a chunk padded with zeros. *)
Lemma partial_read_kept :
  ∃ r a', Adapter_ReadStream 11 (theIO [([Byte.x61], None)]) "k"
      (destination 2048 (readySource {[ "k" := MkChunk "k" "0" (Some [Byte.x61; Byte.x62]) 9 ]}) ∅) = Done (r, a') ∧
    content (astore a') "k" = Some ("0", [Byte.x61; Byte.x00]).
Proof.
  assert (runs (Adapter_ReadStream 11 (theIO [([Byte.x61], None)]) "k"
      (destination 2048 (readySource {[ "k" := MkChunk "k" "0" (Some [Byte.x61; Byte.x62]) 9 ]}) ∅)) (λ x,
      bool_decide (content (astore x.2) "k" = Some ("0", [Byte.x61; Byte.x00]))) = true) as E by (vm_compute; reflexivity).
  apply runs_true in E as ([r a']&E1&E2%bool_decide_eq_true). exists r, a'. exact (conj E1 E2).
Qed.

(** The data command crashes a lambda that has asked for a migration and not
    been connected yet: the connection it closes is nil. *)
Definition initiatedLambda : Lambda (gmap string Chunk) :=
  readySource ∅ <| sessions := MkSessions
    [MkSession "source" 0 (Some NewMClient) (Start 0 (NewTimeout TICK_10_ERROR 0 TICK_10_ERROR_EXTEND))
       (Some 0%nat) false] (Some 0%nat) |>.
Lemma data_panics io : lambda_data io initiatedLambda = Panics PNil.
Proof. vm_compute. reflexivity. Qed.
End concrete.
