(* ===== verification/ForwardConn.v ===== *)
(** * migrator: the proxy's end of a migration

    The migrator listens for the two lambdas of a migration and pipes bytes
    between them.  What a connection's [Read] and [Write] return is given. *)

From stdpp Require Import pretty.
From S2P Require Import Prelude Lambdastore Request Erasure Migrator.

(** ** forward_connection.go *)

Record forwardConnection : Type := MkForwardConnection {
  sentBytes : Z;
  receivedBytes : Z;
  fclosed : bool
}.
#[global] Instance forwardConnection_eta : Eta forwardConnection := λ f,
  MkForwardConnection (sentBytes f) (receivedBytes f) (fclosed f).

Definition newForwardConnection : forwardConnection := MkForwardConnection 0 0 false.

(** [close] closes the channel once. *)
Definition fclose (f : forwardConnection) : forwardConnection := f <| fclosed := true |>.
Definition isClosed (f : forwardConnection) : bool := fclosed f.
Definition ferr (f : forwardConnection) : forwardConnection := fclose f.

(** [pipe] after a [Read] that gave [b] and [readErr]: whether [b] is passed on. *)
Definition pipeRead (b : bytes) (readErr : error) : M forwardConnection bool := λ f,
  match readErr with
  | None => Done (true, f)
  | Some e =>
      if isClosed f then Done (false, f)
      else if decide (e = EOF ∧ b ≠ []) then Done (true, f) else Done (false, ferr f)
  end.

(** [pipe] after a [Write] that returned [n] and [writeErr]: whether it goes on. *)
Definition pipeWrite (islocal : bool) (readErr : error) (n : nat) (writeErr : error) :
    M forwardConnection bool := λ f,
  match writeErr with
  | Some _ => Done (false, ferr f)
  | None =>
      let f := if islocal then f <| sentBytes ::= (λ k, u64 (k + Z.of_nat n)) |>
               else f <| receivedBytes ::= (λ k, u64 (k + Z.of_nat n)) |> in
      match readErr with
      | Some _ => Done (false, fclose f)
      | None => Done (true, f)
      end
  end.

(** An iteration of [pipe] on its own: what [Read] gave, and what [Write]
    returns; the bytes given to [Write], if it is called, and whether the loop
    goes on. *)
Record turn : Type := MkTurn { tRead : bytes * error; tWrite : nat * error }.
Definition pipeTurn (islocal : bool) (x : turn) : M forwardConnection (option bytes * bool) :=
  pass ← pipeRead (tRead x).1 (tRead x).2;
  if (pass : bool) then
    go ← pipeWrite islocal (tRead x).2 (tWrite x).1 (tWrite x).2;
    mret (Some (tRead x).1, go)
  else mret (None, false).

(** [pipe]: the writes it makes; a connection that has no more to give blocks. *)
Fixpoint pipe (islocal : bool) (xs : list turn) : M forwardConnection (list bytes) :=
  match xs with
  | [] => blocked
  | x :: xs =>
      '(w, go) ← pipeTurn islocal x;
      rest ← (if (go : bool) then pipe islocal xs else mret []);
      mret (match w with Some b => b :: rest | None => rest end)
  end.

(** ** migrator.go *)

Record Server : Type := MkServer {
  port : Z;
  listening : bool;
  fconn : option forwardConnection;
  LastErr : error
}.
#[global] Instance Server_eta : Eta Server := λ s, MkServer (port s) (listening s) (fconn s) (LastErr s).

(** The map [all] of the servers. *)
Abbreviation Servers := (gmap Z Server) (only parsing).

Definition MServer_New (p : Z) : M Servers unit :=
  modify (insert p (MkServer p false None None)).
Definition onServer (p : Z) (f : Server → Server) : M Servers unit := modify (alter f p).

Definition Listen (p : Z) (err : error) : M Servers error :=
  match err with
  | Some e => onServer p (λ s, s <| listening := false |> <| LastErr := Some e |>);; mret err
  | None => onServer p (λ s, s <| listening := true |>);; mret None
  end.

Definition MServer_Close (s : Server) : Server :=
  s <| listening := false |> <| fconn := None |>.

(** [Serve]: the errors of the two accepts, and the connection when the
    forwarding ended. *)
Definition Serve (p : Z) (acc1 acc2 : error) (forwarded : forwardConnection) : M Servers unit :=
  match acc1, acc2 with
  | Some e, _ | None, Some e =>
      onServer p (λ s, s <| LastErr := Some e |>);; onServer p MServer_Close
  | None, None =>
      onServer p (λ s, s <| listening := false |> <| fconn := Some forwarded |>);;
      onServer p (λ s, s <| fconn := None |>);;
      modify (delete p);;
      onServer p MServer_Close
  end.

Definition CleanUp : M Servers unit := modify (fmap MServer_Close).

(** ** Starting a migrator *)

Definition BaseMigratorPort : Z := 6380.

(** [StartMigrator] of the scheduler: the address of the migrator, or the error
    of listening; [go m.Serve()] runs [Serve]. *)
Definition StartMigrator (lambdaId : Z) (ioListen : error) : M Servers (string + string) :=
  let p := BaseMigratorPort + lambdaId in
  MServer_New p;;
  err ← Listen p ioListen;
  mret (match err with Some e => inr e | None => inl (":" +:+ pretty p) end).

(** ** One direction *)

(** Writes that take all they are given. *)
Definition writes_all (xs : list turn) : Prop :=
  ∀ x, x ∈ xs → tWrite x = (length (tRead x).1, None).

Definition counter (islocal : bool) (f : forwardConnection) : Z :=
  if islocal then sentBytes f else receivedBytes f.
Definition count (islocal : bool) (n : nat) (f : forwardConnection) : forwardConnection :=
  if islocal then f <| sentBytes ::= (λ k, u64 (k + Z.of_nat n)) |>
  else f <| receivedBytes ::= (λ k, u64 (k + Z.of_nat n)) |>.

Lemma counter_count d n f : counter d (count d n f) = u64 (counter d f + Z.of_nat n).
Proof. by destruct d. Qed.
Lemma counter_other d d' n f : d ≠ d' → counter d (count d' n f) = counter d f.
Proof. by destruct d, d'. Qed.
Lemma counter_fclose d f : counter d (fclose f) = counter d f.
Proof. by destruct d. Qed.
Lemma fclosed_count d n f : fclosed (count d n f) = fclosed f.
Proof. by destruct d. Qed.

(** What a reader delivers with its end. *)
Definition delivered_end (last : bytes * error) : bytes :=
  if decide (last.2 = Some EOF) then last.1 else [].

Lemma pipeTurn_end islocal b e f : fclosed f = false →
  pipeTurn islocal (MkTurn (b, Some e) (length b, None)) f =
  if decide (e = EOF ∧ b ≠ []) then Done (Some b, false, fclose (count islocal (length b) f))
  else Done (None, false, ferr f).
Proof.
  intros Hf. unfold pipeTurn, pipeRead, isClosed, mbind, M_bind. cbn [tRead fst snd]. rewrite Hf.
  by case_decide.
Qed.

Lemma pipeTurn_go islocal b n f :
  pipeTurn islocal (MkTurn (b, None) (n, None)) f = Done (Some b, true, count islocal n f).
Proof. by destruct islocal. Qed.

(** A direction alone writes exactly the bytes it reads, in order, including
    those that arrive with the end of the stream, then ends and closes the
    connection; its counter grows by their number, modulo 2^64. *)
Lemma pipe_forwards islocal xs b e f :
  (∀ x, x ∈ xs → (tRead x).2 = None) → writes_all xs → fclosed f = false → is_u64 (counter islocal f) →
  ∃ ws f', pipe islocal (xs ++ [MkTurn (b, Some e) (length b, None)]) f = Done (ws, f') ∧
    concat ws = concat ((λ x, (tRead x).1) <$> xs) ++ delivered_end (b, Some e) ∧ fclosed f' = true ∧
    counter islocal f' = u64 (counter islocal f + Z.of_nat (length (concat ws))).
Proof.
  revert f. induction xs as [|x xs IH]; intros f Hr Hw Hf Hc.
  - pose proof (pipeTurn_end islocal b e f Hf) as Ht. cbn [app pipe]. unfold delivered_end.
    cbn [fst snd fmap list_fmap concat app]. destruct (decide (e = EOF ∧ b ≠ [])) as [[-> Hb]|Hn].
    + erewrite bind_done by exact Ht. eexists _, _. split; [reflexivity|]. cbn [concat].
      rewrite app_nil_r, counter_fclose, counter_count. done.
    + erewrite bind_done by exact Ht. eexists _, _. split; [reflexivity|]. cbn [concat length].
      rewrite Z.add_0_r. split.
      { case_decide as He; [|done]. injection He as ->. by destruct b; [|destruct Hn]. }
      split; [done|]. unfold ferr. by rewrite counter_fclose, u64_small.
  - destruct x as [[c re] [n we]].
    assert (re = None) as -> by (apply (Hr (MkTurn (c, re) (n, we))); by left).
    pose proof (Hw (MkTurn (c, None) (n, we)) ltac:(by left)) as Hwx. cbn in Hwx. injection Hwx as -> ->.
    destruct (IH (count islocal (length c) f)) as (ws&f'&Hp&Hws&Hcl&Hcnt).
    + intros x ?. apply Hr. by right.
    + intros x ?. apply Hw. by right.
    + by rewrite fclosed_count.
    + rewrite counter_count. apply u64_range.
    + exists (c :: ws), f'. cbn [app pipe]. split.
      { erewrite bind_done by apply pipeTurn_go. cbv beta iota zeta. by erewrite bind_done by exact Hp. }
      cbn [concat fmap list_fmap tRead fst]. rewrite Hws, app_assoc. split_and!; [done|done|].
      rewrite Hcnt, counter_count, Hws, !length_app, !Nat2Z.inj_add, u64_add_l. f_equal. lia.
Qed.

(** ** Both directions *)

(** Where a [pipe] is: about to read, about to write what it read, returned. *)
Inductive ppc : Type := PReading | PWriting (b : bytes) (readErr : error) | PStopped.

(** [forward]: the two pipes (index [true] is the local side's), what each has
    read to pass on, and what its writer has taken. *)
Record Forward : Type := MkForward {
  fcn : forwardConnection;
  fpc : two ppc;
  fgot : two bytes;
  ftook : two bytes
}.
#[global] Instance Forward_eta : Eta Forward := λ s, MkForward (fcn s) (fpc s) (fgot s) (ftook s).

Definition forward_init : Forward :=
  MkForward newForwardConnection (Two PReading PReading) (Two [] []) (Two [] []).
(** [<-fconn.closed]: [forward] returns. *)
Definition forward_done (s : Forward) : bool := isClosed (fcn s).

Definition pcOf (d : bool) (s : Forward) : ppc := get2 d (fpc s).
Definition gotOf (d : bool) (s : Forward) : bytes := get2 d (fgot s).
Definition tookOf (d : bool) (s : Forward) : bytes := get2 d (ftook s).

(** The read of a pipe returns, or its write; [Write] takes all it is given or
    reports an error. *)
Inductive fstep : Forward → Forward → Prop :=
  | fs_read d s b e pass f' :
      pcOf d s = PReading → pipeRead b e (fcn s) = Done (pass, f') →
      fstep s (if (pass : bool)
               then s <| fcn := f' |> <| fpc ::= set2 d (PWriting b e) |> <| fgot ::= set2 d (gotOf d s ++ b) |>
               else s <| fcn := f' |> <| fpc ::= set2 d PStopped |>)
  | fs_write d s b e n we go f' :
      pcOf d s = PWriting b e → (n ≤ length b)%nat → (we = None → n = length b) →
      pipeWrite d e n we (fcn s) = Done (go, f') →
      fstep s (s <| fcn := f' |> <| fpc ::= set2 d (if (go : bool) then PReading else PStopped) |>
                 <| ftook ::= set2 d (tookOf d s ++ take n b) |>)
  | fs_close s : fstep s (s <| fcn ::= fclose |>).

(** What is between a reader and its writer. *)
Definition pending (pc : ppc) : bytes := match pc with PWriting b _ => b | _ => [] end.

(** A direction: what was taken is what was read, but for what is being written,
    or was not when the write failed; the counter counts it. *)
Definition direction_ok (d : bool) (s : Forward) : Prop :=
  match pcOf d s with
  | PStopped => fclosed (fcn s) = true ∧
      ∃ w lost part, gotOf d s = w ++ part ++ lost ∧ tookOf d s = w ++ part ∧
        counter d (fcn s) = u64 (Z.of_nat (length w))
  | pc => gotOf d s = tookOf d s ++ pending pc ∧
      counter d (fcn s) = u64 (Z.of_nat (length (tookOf d s)))
  end.

Lemma pipeRead_inv b e f pass f' : pipeRead b e f = Done (pass, f') →
  (∀ d, counter d f' = counter d f) ∧ (fclosed f = true → fclosed f' = true) ∧
  (pass = false → fclosed f' = true).
Proof.
  unfold pipeRead, isClosed, ferr. destruct e as [e|]; [|by intros [= <- <-]].
  destruct (fclosed f) eqn:Ef; [by intros [= <- <-]|]. case_decide; intros [= <- <-]; [done|].
  split_and!; [intros; apply counter_fclose|done|done].
Qed.
Lemma pipeWrite_inv d e n we f go f' : pipeWrite d e n we f = Done (go, f') →
  (∀ d', d' ≠ d → counter d' f' = counter d' f) ∧ (fclosed f = true → fclosed f' = true) ∧
  counter d f' = (if we is None then u64 (counter d f + Z.of_nat n) else counter d f) ∧
  (go = true → we = None) ∧ (go = false → fclosed f' = true).
Proof.
  unfold pipeWrite, ferr. fold (count d n f). destruct we as [we|]; [|destruct e as [e|]]; intros [= <- <-].
  - split_and!; try done; intros; apply counter_fclose.
  - split_and!; try done; intros; rewrite counter_fclose; [by apply counter_other|apply counter_count].
  - split_and!; try done; [intros; by apply counter_other|by rewrite fclosed_count|apply counter_count].
Qed.

(** A direction is not disturbed by what happens around it. *)
Lemma direction_frame d s s' :
  pcOf d s' = pcOf d s → gotOf d s' = gotOf d s → tookOf d s' = tookOf d s →
  counter d (fcn s') = counter d (fcn s) → (fclosed (fcn s) = true → fclosed (fcn s') = true) →
  direction_ok d s → direction_ok d s'.
Proof.
  intros E1 E2 E3 E4 Hc. unfold direction_ok. rewrite E1, E2, E3, E4.
  destruct (pcOf d s); [done..|]. intros [H1 H2]. split; [by apply Hc|done].
Qed.

Lemma forward_step_ok s s' : fstep s s' → (∀ d, direction_ok d s) → ∀ d, direction_ok d s'.
Proof.
  intros Hst Hok d'. pose proof (Hok d') as Hd'. destruct Hst as [d s b e pass f' Hpc Hr|d s b e n we go f' Hpc Hn Hwe Hw|s].
  - destruct (pipeRead_inv _ _ _ _ _ Hr) as (Hcnt&Hcl&Hstop). destruct (decide (d' = d)) as [->|Hne].
    + unfold direction_ok in Hd'. rewrite Hpc in Hd'. destruct Hd' as [Hg Hk]. cbn in Hg. rewrite app_nil_r in Hg.
      unfold direction_ok, pcOf, gotOf, tookOf in *. destruct pass; cbn; rewrite ?get2_set2_eq; cbn; rewrite Hcnt.
      * by rewrite Hg.
      * split; [by apply Hstop|]. eexists (get2 d (ftook s)), [], []. by rewrite !app_nil_r.
    + eapply direction_frame; [..|exact Hd']; unfold pcOf, gotOf, tookOf;
        destruct pass; cbn; rewrite ?get2_set2_ne by done; auto.
  - destruct (pipeWrite_inv _ _ _ _ _ _ _ Hw) as (Hoth&Hcl&Hcnt&Hgo&Hstop). destruct (decide (d' = d)) as [->|Hne].
    + unfold direction_ok in Hd'. rewrite Hpc in Hd'. destruct Hd' as [Hg Hk]. cbn in Hg.
      unfold direction_ok, pcOf, gotOf, tookOf in *. cbn. rewrite !get2_set2_eq, Hcnt.
      destruct go.
      * rewrite Hgo, Hwe by auto. rewrite Hk, u64_add_l, take_ge by lia. cbn.
        by rewrite app_nil_r, length_app, Nat2Z.inj_add.
      * split; [by apply Hstop|]. rewrite Hg. destruct we as [we|].
        -- exists (get2 d (ftook s)), (drop n b), (take n b). by rewrite take_drop.
        -- rewrite Hwe by done. exists (get2 d (ftook s) ++ b), [], []. rewrite Hk, u64_add_l, take_ge by lia.
           by rewrite !app_nil_r, length_app, Nat2Z.inj_add.
    + eapply direction_frame; [..|exact Hd']; unfold pcOf, gotOf, tookOf; cbn; rewrite ?get2_set2_ne by done; auto.
  - eapply direction_frame; [..|exact Hd']; done || apply counter_fclose.
Qed.

(** C24: a forwarded connection is faithful in both directions, however the two
    pipes and a close are interleaved and whatever fails: the writer of a
    direction has taken a prefix of what its reader gave, all of it whenever
    the pipe is back at its read; the direction's counter is the number of
    bytes taken, modulo 2^64, as long as the pipe runs; and once a pipe has
    returned, [forward] is released. *)
Theorem forward_faithful s : rtc fstep forward_init s → ∀ d,
  tookOf d s `prefix_of` gotOf d s ∧
  (pcOf d s = PReading → tookOf d s = gotOf d s) ∧
  (pcOf d s ≠ PStopped → counter d (fcn s) = u64 (Z.of_nat (length (tookOf d s)))) ∧
  (pcOf d s = PStopped → forward_done s = true).
Proof.
  intros Hr. assert (Hok : ∀ d, direction_ok d s).
  { assert (∀ s0, (∀ d, direction_ok d s0) → rtc fstep s0 s → ∀ d, direction_ok d s) as Hgen.
    { clear. intros s0 H0 Hr0. induction Hr0 as [|s1 s2 s3 Hst _ IH]; [done|]. by eapply IH, forward_step_ok. }
    apply (Hgen forward_init); [by intros []|done]. }
  intros d. specialize (Hok d). unfold direction_ok in Hok. destruct (pcOf d s) eqn:Epc.
  - destruct Hok as [-> Hk]. cbn. rewrite app_nil_r. split_and!; [done|done|done|done].
  - destruct Hok as [-> Hk]. split_and!; [by apply prefix_app_r|done|done|done].
  - destruct Hok as (Hc&w&lost&part&->&->&_). split_and!; [|done|done|done].
    rewrite app_assoc. by apply prefix_app_r.
Qed.

Lemma forward_faithful_witness : ∃ s, rtc fstep forward_init s ∧
  tookOf true s = [Byte.x61] ∧ counter true (fcn s) = 1 ∧ pcOf true s = PReading ∧ tookOf true s = gotOf true s.
Proof.
  set (s1 := forward_init <| fpc ::= set2 true (PWriting [Byte.x61] None) |> <| fgot ::= set2 true [Byte.x61] |>).
  set (s2 := s1 <| fcn := count true 1 (fcn s1) |> <| fpc ::= set2 true PReading |> <| ftook ::= set2 true [Byte.x61] |>).
  assert (Hr : rtc fstep forward_init s2).
  { eapply rtc_l; [apply (fs_read true forward_init [Byte.x61] None true (fcn forward_init)); reflexivity|].
    apply rtc_once. apply (fs_write true s1 [Byte.x61] None 1 None true (count true 1 (fcn s1))); reflexivity || (cbn; lia). }
  exists s2. split; [exact Hr|]. destruct (forward_faithful s2 Hr true) as (_&H2&H3&_).
  split; [reflexivity|]. split; [apply H3; discriminate|]. split; [reflexivity|apply H2; reflexivity].
Defined.

(** What the other direction still held is lost when one ends: the reader of
    the remote side has given a byte that is never taken. *)
Lemma other_direction_cut : ∃ s, rtc fstep forward_init s ∧ forward_done s = true ∧
  gotOf false s = [Byte.x61] ∧ tookOf false s = [].
Proof.
  eexists. split; [|split; [|split]].
  - eapply rtc_l; [apply (fs_read false forward_init [Byte.x61] None true (fcn forward_init)); reflexivity|].
    eapply rtc_l; [eapply (fs_read true _ [] (Some EOF) false); reflexivity|].
    eapply rtc_once, (fs_write false _ [Byte.x61] None 0 (Some "broken"%string)); [reflexivity|cbn; lia|done|reflexivity].
  - reflexivity.
  - reflexivity.
  - reflexivity.
Qed.

(** ** The migrators of several instances *)

(** Starting a migrator leaves those of the other instances alone, and its
    address is that of its own port; when it cannot listen it stays registered. *)
Lemma StartMigrator_run id io m : ∃ r m', StartMigrator id io m = Done (r, m') ∧
  (∀ p, p ≠ BaseMigratorPort + id → m' !! p = m !! p) ∧
  (∃ v, m' !! (BaseMigratorPort + id) = Some v ∧ listening v = bool_decide (io = None) ∧ LastErr v = io) ∧
  r = match io with Some e => inr e | None => inl (":" +:+ pretty (BaseMigratorPort + id)) end.
Proof.
  unfold StartMigrator. destruct io as [e|]; eexists _, _; (split; [reflexivity|]); cbn.
  - split; [|split; [|done]].
    + intros p Hp. by rewrite lookup_alter_ne, lookup_insert_ne by done.
    + rewrite lookup_alter_eq, lookup_insert_eq. eexists. split; [reflexivity|done].
  - split; [|split; [|done]].
    + intros p Hp. by rewrite lookup_alter_ne, lookup_insert_ne by done.
    + rewrite lookup_alter_eq, lookup_insert_eq. eexists. split; [reflexivity|done].
Qed.
