(* ===== verification/MigrationStart.v ===== *)
(** * How a migration starts

    A lambda near the end of its life asks its proxy for a migration: the proxy
    finds a destination, starts a migrator and queues a command for the
    instance; the command tells the source where the migrator is and which
    function to invoke, and the source invokes it with that address.  Proxy,
    scheduler, migrator and lambda are put together here. *)

From stdpp Require Import pretty.
From S2P Require Import Prelude Lambdastore Request Instance Connection Validation Sending Group Meta Placer Scheduler SchedulerTheorems.
From S2P Require Import Erasure Client Storage Lifetime Migrator StorageAdapter Session LambdaHandler HandlerTheorems ForwardConn.

Section start.
Context {H : Type} {HM : HashMap Z gptr H} {HL : HashMapLaws Z gptr H}.
Implicit Types (s : Scheduler H) (m : gmap Z Server).

(** The scheduler and the migrators of the proxy. *)
Definition onSched {A} (c : M (Scheduler H) A) : M (Scheduler H * gmap Z Server) A := zoom fst (λ a w, (a, w.2)) c.
Definition onServers {A} (c : M (gmap Z Server) A) : M (Scheduler H * gmap Z Server) A := zoom snd (λ b w, (w.1, b)) c.

(** [Instance.Migrate] with the calls on [global.Migrator]; [ioListen] is what
    listening returns. *)
Definition startMigration (serverIp : string) (ioListen : error) (i : iptr) :
    M (Scheduler H * gmap Z Server) error :=
  id ← onSched (onL (IdOf (LInstance i)));
  dest ← onSched (GetDestination id);
  match dest with
  | inr e => onSched (onL (Migrate serverIp i (inr e) (inr e)))
  | inl d =>
      start ← onServers (StartMigrator id ioListen);
      onSched (onL (Migrate serverIp i (inl d) start))
  end.

(** [initMigrateHandler] of a connection. *)
Definition conn_initMigrate (serverIp : string) (ioListen : error) (c : cptr) :
    M (Scheduler H * gmap Z Server) error :=
  cn ← onSched (onL (getConn c));
  i ← expect PNil (cinstance cn);
  startMigration serverIp ioListen i.

(** The arguments of a command, as the lambda's server reads them. *)
Definition commandArgs (ops : list WOp) : option (string * list string) :=
  match ops with WCmdString (cmd :: args) :: _ => Some (cmd, args) | _ => None end.

(** ** The proxy's side *)

Lemma onSched_run {A} (c : M (Scheduler H) A) s m a s' : c s = Done (a, s') → onSched c (s, m) = Done (a, (s', m)).
Proof. intros E. unfold onSched, zoom. cbn. by rewrite E. Qed.
Lemma onL_id {A} (c : M LHeap A) s a : c (ls (ssh s)) = Done (a, ls (ssh s)) → onL c s = Done (a, s).
Proof. intros E. rewrite (onL_run _ _ _ _ E). by rewrite ssh_ls_id. Qed.

(** An instance, its deployment and its entry in the scheduler. *)
Record enlisted s (k : Z) (i : iptr) (x : Instance) (v : Deployment) : Prop := {
  en_entry : ∃ p gi, active s k p ∧ ginsts (ssh s) !! p = Some gi ∧ gdep gi = LInstance i;
  en_inst : insts (ls (ssh s)) !! i = Some x;
  en_dep : deps (ls (ssh s)) !! idep x = Some v;
  en_id : did v = k
}.

Lemma enlisted_intro D s k p gi i : SchedSys D s → active s k p → ginsts (ssh s) !! p = Some gi → gdep gi = LInstance i →
  ∃ x v, enlisted s k i x v.
Proof.
  intros Hs Ha Hgi Hi. destruct (sc_active s (sy_inv _ _ Hs) k p Ha) as (d&Hd&Hk&_).
  pose proof (gdep_of_inst s p gi i Hgi Hi) as E. rewrite Hd in E. symmetry in E.
  apply fmap_Some in E as (x&Hx&->). apply id_of_inv in Hk as (v&Hv&<-).
  exists x, v. split; [by exists p, gi|done..].
Qed.

Definition queued (i : iptr) (cmd : Command) s : Scheduler H :=
  s <| ssh := ssh s <| ls := ls (ssh s) <| insts ::= alter (λ x, x <| chanReq := [cmd] |>) i |> |> |>.

Lemma startMigration_run serverIp io s m k i x v : enlisted s k i x v → chanReq x = [] →
  let addr := serverIp +:+ ":" +:+ pretty (BaseMigratorPort + k) in
  ∃ m', StartMigrator k io m = Done (match io with Some e => inr e | None => inl (":" +:+ pretty (BaseMigratorPort + k)) end, m') ∧
    startMigration serverIp io i (s, m) =
      Done (io, (match io with
                 | Some _ => s
                 | None => queued i (CControl (MkControl "migrate" addr (dname v) k None None)) s
                 end, m')).
Proof.
  intros [(p&gi&Ha&Hgi&Hi) Hx Hv Hk] Hq addr.
  destruct (StartMigrator_run k io m) as (r&m'&Hr&_&_&->). exists m'. split; [done|].
  assert (Hres : resolve (LInstance i) (ls (ssh s)) = Done (idep x, ls (ssh s))).
  { apply dep_of_resolve. cbn. by rewrite Hx. }
  assert (Hid : IdOf (LInstance i) (ls (ssh s)) = Done (k, ls (ssh s))) by (rewrite <- Hk; by eapply IdOf_run).
  assert (Hname : Name (LInstance i) (ls (ssh s)) = Done (dname v, ls (ssh s))).
  { unfold Name. erewrite bind_done by exact Hres. by erewrite bind_done by (unfold getDep; by rewrite Hv). }
  unfold startMigration. erewrite bind_done by (by apply onSched_run, onL_id).
  erewrite bind_done.
  2:{ apply onSched_run. unfold GetDestination, ReserveForInstance.
      erewrite bind_done by reflexivity. rewrite Ha.
      erewrite bind_done by (by apply getGI_run). rewrite Hi. reflexivity. }
  cbn [IN_DEPLOYMENT_MIGRATION]. erewrite bind_done by (unfold onServers, zoom; cbn; rewrite Hr; reflexivity).
  cbn [fst snd]. destruct io as [e|].
  - by apply onSched_run, onL_id.
  - apply onSched_run, onL_run. unfold Migrate. erewrite bind_done by reflexivity. cbn [decide].
    erewrite bind_done by exact Hname. erewrite bind_done by exact Hid.
    erewrite bind_done by (unfold getInst; by rewrite Hx). rewrite Hq. reflexivity.
Qed.

(** The loop of the instance sends the command. *)
Lemma send_migrate h i c cn k : conns h !! c = Some cn → ToLower (ctlCmd k) = "migrate" →
  ∃ h', HandleRequest i (CControl k) [(Some c, ioOk)] h = Done (true, h') ∧
    conns h' !! c = Some (cn <| cw ::= (λ l, l ++ [WCmdString [ctlCmd k; ctlAddr k; ctlDeployment k; pretty (ctlId k)]; WFlush]) |>).
Proof.
  intros Hc Hk.
  set (f := λ x : Connection, x <| cw ::= (λ l, l ++ [WCmdString [ctlCmd k; ctlAddr k; ctlDeployment k; pretty (ctlId k)]]) |>).
  set (g := λ x : Connection, x <| cw ::= (λ l, l ++ [WFlush]) |>).
  set (h' := h <| conns ::= alter f c |> <| conns ::= alter g c |>).
  assert (Hh : handleRequest ioOk i c (CControl k) h = Done (None, h')).
  { unfold handleRequest. rewrite Hk. erewrite bind_done by (unfold getConn; by rewrite Hc).
    destruct (decide (_ ∨ _)) as [_|Hn]; [|tauto]. destruct (decide ("migrate" = "data")) as [?|_]; [done|].
    destruct (decide ("migrate" = "migrate")) as [_|?]; [|done].
    erewrite bind_done; [|unfold Control_PrepareForMigrate; erewrite bind_done by reflexivity; reflexivity].
    erewrite bind_done; [|unfold Control_Flush; cbn [ctlW update]; erewrite bind_done by reflexivity; reflexivity].
    reflexivity. }
  exists h'. split.
  - unfold HandleRequest. erewrite bind_done by reflexivity. unfold MAX_RETRY. cbv zeta. cbn [Control_Retriable].
    erewrite bind_done; [|cbn [attempts]; erewrite bind_done by exact Hh; reflexivity]. reflexivity.
  - cbn. rewrite !lookup_alter_eq, Hc. cbn. unfold f, g. cbn. by rewrite <- app_assoc.
Qed.
End start.

(** ** The source's side *)

Section source.
Context {St : Type}.
Implicit Types (l : Lambda St) (p : sptr).

Lemma onSessions_run {A} (c : M Sessions A) l a ss : c (sessions l) = Done (a, ss) →
  onSessions c l = Done (a, l <| sessions := ss |>).
Proof. intros E. unfold onSessions, zoom. by rewrite E. Qed.

(** The client of the migration of a session is connected to [sock]. *)
Definition connected l p (sock : nat) : Prop :=
  ∃ x mc, sheap (sessions l) !! p = Some x ∧ sessMigrator x = Some mc ∧ mcn mc = Some sock ∧ mcnOpen mc = true.
(** The event a source invokes its destination with. *)
Definition migrateEvent l (id : Z) (addr : string) : LInputEvent :=
  MkLInputEvent "migrate" id (lproxy l) 0 addr (cprefix l) (loglevel l).

(** The source connects to the address and invokes the destination with it. *)
Lemma source_migrates p l dial invoke sock code args : alive_at p l →
  let ev := migrateEvent l (u64 (Atoi (arg args 2))) (arg args 0) in
  dial (arg args 0) = inl sock → invoke (arg args 1) ev = inl code → code < 300 →
  ∃ l' b, lambda_migrate dial invoke args l = Done (Some (arg args 1, ev), l') ∧
    connected l' p sock ∧ TServeMigration p b ∈ tasks l'.
Proof.
  intros [Hc [x Hx]] ev Hdial Hinvoke Hcode.
  (* updates of the session *)
  assert (Hmod : ∀ f l1, onSessions (modSess p f) l1 = Done ((), l1 <| sessions ::= (λ ss, ss <| sheap ::= alter f p |>) |>)).
  { intros f l1. by apply (onSessions_run (modSess p f)). }
  assert (Hget : ∀ l1 y, sheap (sessions l1) !! p = Some y → onSessions (getSess p) l1 = Done (y, l1)).
  { intros l1 y Hy. apply onSessions_id. unfold getSess. erewrite bind_done by reflexivity. by rewrite Hy. }
  assert (Hmig : ∀ A (c : M MClient A) l1 y mc a mc', sheap (sessions l1) !! p = Some y → sessMigrator y = Some mc →
    c mc = Done (a, mc') → onMigrator p c l1 =
      Done (a, l1 <| sessions ::= (λ ss, ss <| sheap ::= alter (λ z, z <| sessMigrator := Some mc' |>) p |>) |>)).
  { intros A c l1 y mc a mc' Hy Hmc Hr. unfold onMigrator. erewrite bind_done by (by apply Hget).
    erewrite bind_done by (by rewrite Hmc). rewrite Hr. by erewrite bind_done by apply Hmod. }
  unfold lambda_migrate. erewrite bind_done by (by apply (GetSession_at p)).
  erewrite bind_done by reflexivity. erewrite bind_done by apply Hmod.
  set (l1 := l <| sessions ::= _ |>). set (x1 := x <| sessTimeout ::= Halt |>).
  assert (H1 : sheap (sessions l1) !! p = Some x1) by (cbn; by rewrite list_lookup_alter_eq, Hx).
  erewrite bind_done by (by apply Hget).
  assert (∃ l2 y mc, (if negb (IsMigrating x1) then onSessions (modSess p (λ s, s <| sessMigrator := Some NewMClient |>)) else mret ()) l1 =
    Done ((), l2) ∧ sheap (sessions l2) !! p = Some y ∧ sessMigrator y = Some mc ∧
    lproxy l2 = lproxy l ∧ cprefix l2 = cprefix l ∧ loglevel l2 = loglevel l) as (l2&y&mc&E2&H2&Hy&P1&P2&P3).
  { destruct (sessMigrator x1) as [mc|] eqn:Em; unfold IsMigrating; rewrite Em; cbn [negb].
    - by exists l1, x1, mc.
    - eexists _, _, NewMClient. split; [apply Hmod|]. cbn. rewrite !list_lookup_alter_eq, Hx. cbn. by split_and!. }
  erewrite bind_done by exact E2.
  set (mc' := mc <| mcn := Some sock |> <| mcnOpen := true |>).
  erewrite bind_done by (apply (Hmig _ (Connect dial (arg args 0)) l2 y mc None mc'); [done..|]; unfold Connect; by rewrite Hdial).
  set (l3 := l2 <| sessions ::= _ |>). cbv beta iota zeta. erewrite bind_done by reflexivity.
  assert (H3 : sheap (sessions l3) !! p = Some (y <| sessMigrator := Some mc' |>)) by (cbn; by rewrite list_lookup_alter_eq, H2).
  erewrite bind_done.
  2:{ eapply (Hmig _ (TriggerDestination invoke _ _)); [exact H3|reflexivity|].
      unfold TriggerDestination. unfold l3. cbn. rewrite P1, P2, P3. fold (migrateEvent l (u64 (Atoi (arg args 2))) (arg args 0)).
      fold ev. rewrite Hinvoke, decide_False by lia. reflexivity. }
  cbv beta iota. erewrite bind_done by reflexivity. eexists _, _. split_and!.
  - unfold l3. cbn. rewrite P1, P2, P3. reflexivity.
  - exists (y <| sessMigrator := Some mc' |>), mc'. split; [|done]. cbn. by rewrite !list_lookup_alter_eq, H2.
  - cbn. apply elem_of_app. right. left.
Qed.
End source.

(** ** From the request of the source to the invocation of the destination *)

Section reaches.
Context {H : Type} {HM : HashMap Z gptr H} {HL : HashMapLaws Z gptr H} {St : Type}.

(** C12: a migration reaches both its ends.  When a lambda asks for a migration over
    a connection of its instance, whose queue is empty, the proxy starts a
    migrator that listens on the port of this instance and leaves those of the
    others alone, and queues one command; the loop of the instance writes it as
    one frame; and the source that reads it dials the address of exactly that
    migrator, invokes the function of the destination with the same address and
    the destination's id, and then serves the migration on the connection it
    dialled, whatever other addresses and functions there are.  When the
    migrator cannot listen, its error is returned and nothing is queued. *)
Theorem migration_reaches_source D (s : Scheduler H) m c cn k p gi i serverIp :
  SchedSys D s → active s k p → ginsts (ssh s) !! p = Some gi → gdep gi = LInstance i →
  conns (ls (ssh s)) !! c = Some cn → cinstance cn = Some i →
  (∀ x, insts (ls (ssh s)) !! i = Some x → chanReq x = []) → 0 ≤ k < 2 ^ 63 →
  let addr := serverIp +:+ ":" +:+ pretty (BaseMigratorPort + k) in
  (∀ e, ∃ m1, conn_initMigrate serverIp (Some e) c (s, m) = Done (Some e, (s, m1))) ∧
  ∃ s1 m1 ctl h2 cn2 args v,
    dep_of (ls (ssh s)) (gdep gi) ≫= (deps (ls (ssh s)) !!.) = Some v ∧
    conn_initMigrate serverIp None c (s, m) = Done (None, (s1, m1)) ∧
    (listening <$> m1 !! (BaseMigratorPort + k) = Some true) ∧
    (∀ q, q ≠ BaseMigratorPort + k → m1 !! q = m !! q) ∧
    (chanReq <$> insts (ls (ssh s1)) !! i = Some [CControl ctl]) ∧
    HandleRequest i (CControl ctl) [(Some c, ioOk)] (ls (ssh s1)) = Done (true, h2) ∧
    conns h2 !! c = Some cn2 ∧ commandArgs (drop (length (cw cn)) (cw cn2)) = Some ("migrate", args) ∧
    ∀ (l : Lambda St) sp dial invoke sock code, alive_at sp l →
      dial addr = inl sock → invoke (dname v) (migrateEvent l k addr) = inl code → code < 300 →
      ∃ l' b, lambda_migrate dial invoke args l = Done (Some (dname v, migrateEvent l k addr), l') ∧
        connected l' sp sock ∧ TServeMigration sp b ∈ tasks l'.
Proof.
  intros Hs Ha Hgi Hi Hc Hci Hq Hk addr. destruct (enlisted_intro D s k p gi i Hs Ha Hgi Hi) as (x&v&Hen).
  pose proof Hen as [_ Hx Hv Hid].
  assert (Hinit : ∀ io, conn_initMigrate serverIp io c (s, m) = startMigration serverIp io i (s, m)).
  { intros io. unfold conn_initMigrate. erewrite bind_done by (apply onSched_run, onL_id; unfold getConn; by rewrite Hc).
    by erewrite bind_done by (by rewrite Hci). }
  split.
  { intros e. destruct (startMigration_run serverIp (Some e) s m k i x v Hen (Hq x Hx)) as (m1&_&Hr).
    exists m1. by rewrite Hinit. }
  destruct (startMigration_run serverIp None s m k i x v Hen (Hq x Hx)) as (m1&Hm&Hr).
  destruct (StartMigrator_run k None m) as (r&m2&Hm2&Hoth&(w&Hw&Hl&_)&_). rewrite Hm in Hm2. injection Hm2 as _ <-.
  set (ctl := MkControl "migrate" addr (dname v) k None None).
  destruct (send_migrate (ls (ssh (queued i (CControl ctl) s))) i c cn ctl) as (h2&Hh&Hc2); [done|done|].
  eexists _, m1, ctl, h2, _, [addr; dname v; pretty k], v.
  split; [rewrite Hi; cbn; by rewrite Hx|].
  split; [by rewrite Hinit|]. split; [rewrite Hw; cbn; by rewrite Hl|]. split; [exact Hoth|].
  split; [cbn; by rewrite lookup_alter_eq, Hx|]. split; [exact Hh|]. split; [exact Hc2|].
  split; [cbn; by rewrite drop_app_length|].
  intros l sp dial invoke sock code Hal Hd Hv' Hcode.
  assert (Ek : u64 (Atoi (pretty k)) = k) by (rewrite Atoi_pretty, u64_small; [done|unfold is_u64; lia|unfold is_i64; lia]).
  pose proof (source_migrates sp l dial invoke sock code [addr; dname v; pretty k] Hal) as Hr'.
  unfold arg in Hr'. cbn in Hr'. rewrite Ek in Hr'. by apply Hr'.
Qed.
End reaches.

(** An instance with its connection. *)
Definition boundHeap : LHeap :=
  (ls (ssh sched2)) <| conns := {[ 0%nat := MkConnection (Some 0%nat) [] false false [] ]} |>
    <| insts ::= alter (λ x, x <| icn := Some 0%nat |>) 0%nat |>.
Definition boundSched : Scheduler (gmap Z gptr) := sched2 <| ssh := ssh sched2 <| ls := boundHeap |> |>.

Lemma boundHeap_insts i x : insts boundHeap !! i = Some x →
  i = 0%nat ∧ icn x = Some 0%nat ∧ chanReq x = [] ∧ lastValidated x = None.
Proof.
  assert (insts boundHeap = {[ 0%nat := MkInstance 0 (MkLMeta 0 0) (Some 0%nat) [] INSTANCE_SLEEP false None false [] ]}) as ->
    by (vm_compute; reflexivity).
  rewrite lookup_singleton_Some. by intros [<- <-].
Qed.
Lemma boundHeap_inv : IInv boundHeap.
Proof.
  assert (Hc : ∀ c cn, conns boundHeap !! c = Some cn → c = 0%nat ∧ cinstance cn = Some 0%nat).
  { intros c cn. cbn. rewrite lookup_singleton_Some. by intros [<- <-]. }
  assert (Hb : ∃ cn, conns boundHeap !! 0%nat = Some cn ∧ cinstance cn = Some 0%nat).
  { eexists. split; [apply lookup_singleton_eq|done]. }
  split.
  - intros i x Hx _. apply boundHeap_insts in Hx as (_&->&_). by eexists.
  - intros i x c Hx Ei. apply boundHeap_insts in Hx as (->&E&_). rewrite E in Ei. injection Ei as <-. exact Hb.
  - intros i x c cn Hx Hcn _ Hne. apply boundHeap_insts in Hx as (_&E&_). apply Hc in Hcn as [-> _]. by destruct Hne.
  - intros i x Hx _. by apply boundHeap_insts in Hx as (_&_&_&->).
  - intros i x c Hx Hl. apply boundHeap_insts in Hx as (_&_&_&E). by rewrite E in Hl.
  - intros c cn i Hcn Hi. apply Hc in Hcn as [_ E]. rewrite E in Hi. injection Hi as <-. vm_compute. by eexists.
Qed.
Lemma boundSched_sys : SchedSys (pool sched0) boundSched.
Proof.
  destruct (NewScheduler_run (∅ : gmap Z gptr) 5 emptyHeap) as (s&Hr&_&Hs);
    [intros k; apply lookup_empty|done|apply emptyHeap_inv|].
  assert (s = sched0) as -> by (unfold sched0; by rewrite Hr).
  destruct (after_run (onS (NewGroup 2)) sched0) as [g H1]; [vm_compute; reflexivity|].
  destruct (after_run (GetForGroup 0 0) sched1) as [i H2]; [vm_compute; reflexivity|].
  eapply reachable_sys; [exact Hs|]. eapply rtc_l; [by eapply step_newgroup|]. eapply rtc_l; [by eapply step_get|].
  apply rtc_once. apply (step_lambdastore sched2 boundHeap); [|apply boundHeap_inv].
  split; [reflexivity|]. intros j. by apply alter_idep.
Qed.

Definition boundEntry : GroupInstance := MkGroupInstance (LInstance 0) 0 0.
(** The source, in an invocation. *)
Definition sourceLambda : Lambda (gmap string Chunk) :=
  MkLambda (Lifetime_New 0 LIFESPAN)
    (MkSessions [MkSession "s" 0 None (Start 0 (NewTimeout TICK_10_ERROR 0 TICK_10_ERROR_EXTEND)) None false] (Some 0%nat))
    ∅ 0 "10.0.0.1:6379" None [] false "log" 0 [] [] [].
(** Only the migrator of instance 0 listens, and only its destination can be invoked. *)
Definition dialOne (addr : string) : nat + string :=
  if decide (addr = "10.0.0.1:6380") then inl 4%nat else inr "connection refused".
Definition invokeOne (v : Deployment) (name : string) (ev : LInputEvent) : Z + string :=
  if decide (name = dname v) then inl 202 else inr "ResourceNotFoundException".

Lemma migration_reaches_source_witness :
  active boundSched 0 0%nat ∧ ginsts (ssh boundSched) !! 0%nat = Some boundEntry ∧
  ∃ s1 m1 v args l', conn_initMigrate "10.0.0.1" None 0 (boundSched, ∅) = Done (None, (s1, m1)) ∧
    listening <$> m1 !! 6380 = Some true ∧
    lambda_migrate dialOne (invokeOne v) args sourceLambda =
      Done (Some (dname v, migrateEvent sourceLambda 0 "10.0.0.1:6380"), l') ∧ connected l' 0%nat 4.
Proof.
  assert (Ha : active boundSched 0 0%nat) by (vm_compute; reflexivity).
  assert (Hg : ginsts (ssh boundSched) !! 0%nat = Some boundEntry) by (vm_compute; reflexivity).
  split; [exact Ha|]. split; [exact Hg|].
  destruct (migration_reaches_source (St:=gmap string Chunk) (pool sched0) boundSched ∅ 0
    (MkConnection (Some 0%nat) [] false false []) 0 0 boundEntry 0 "10.0.0.1") as [_ (s1&m1&_&_&_&args&v&_&H1&H2&_&_&_&_&_&Hsrc)].
  - apply boundSched_sys.
  - exact Ha.
  - exact Hg.
  - reflexivity.
  - apply lookup_singleton_eq.
  - reflexivity.
  - intros x Hx. by apply boundHeap_insts in Hx as (_&_&E&_).
  - lia.
  - destruct (Hsrc sourceLambda 0%nat dialOne (invokeOne v) 4%nat 202) as (l'&b&Hl&Hc&_).
    + split; [reflexivity|by eexists].
    + vm_compute. reflexivity.
    + unfold invokeOne. by rewrite decide_True.
    + lia.
    + exists s1, m1, v, args, l'. split; [exact H1|]. split; [exact H2|]. split; [exact Hl|exact Hc].
Defined.
