(* ===== verification/Wire.v ===== *)
(** * Client, proxy and lambda, joined

    The messages of the three programs, put one after the other: what the
    proxy writes for a chunk's request is what the lambda's handler reads, what
    the handler answers is what the proxy's connection reads, and what the
    proxy replies is what the client reads.  A reader yields what the writer at
    the other end was given, which is all that is used of redeo. *)

From stdpp Require Import pretty.
From S2P Require Import Prelude Lambdastore Request Instance Connection Responses Sending Meta Placer Proxy Erasure Storage StorageAdapter LambdaHandler Migration Client.

(** ** What readers yield *)

(** The calls on the writer of a proxy's connection, [body] being what the
    stream of the request yields. *)
Definition wireOp (body : bytes) (o : WOp) : COp :=
  match o with
  | WMultiBulkSize n => CMultiBulkSize n
  | WBulkString s | WBulk s => CBulkString s
  | WCmdString args => CCmdString args
  | WCopyBulk len => CCopyBulk (take (Z.to_nat len) body)
  | WFlush => CFlush
  end.
Definition wire (body : bytes) (ops : list WOp) : list COp := wireOp body <$> ops.

(** The calls on the writer of a client's response. *)
Definition clientItems (body : bytes) (ops : list ROp) : list Item :=
  ops ≫= λ o, match o with
              | RAppendBulkString s | RAppendBulk s => [IBulk (sbytes s)]
              | RAppendError s => [IError s]
              | RCopyBulk len => [IBulk (take (Z.to_nat len) body)]
              | RFlush => []
              end.

(** A bulk string, the error of reading it being ignored. *)
Definition field (items : list Item) : string * list Item :=
  match ReadBulkString items with
  | Done (inl s, rest) => (s, rest)
  | Done (inr _, rest) => ("", rest)
  | _ => ("", items)
  end.
(** A bulk that is streamed or skipped. *)
Definition bulk (items : list Item) : option bytes * list Item :=
  match StreamBulk items with
  | Done (inl b, rest) => (Some b, rest)
  | Done (inr _, rest) => (None, rest)
  | _ => (None, items)
  end.

(** The reads of one round of [ServeLambda]: its message, the value that is
    streamed, and what is left. *)
Definition readLambda (items : list Item) : LambdaMsg * bytes * list Item :=
  match items with
  | [] => (LPeekError, [], [])
  | IError s :: rest => (LError false s, [], rest)
  | _ =>
      match ReadBulkString items with
      | Done (inl cmd, rest) =>
          if decide (cmd = "pong") then
            match rest with
            | IInt z :: rest => (LPong z, [], rest)
            | _ => (LPong 0, [], rest)
            end
          else if decide (cmd = "get") then
            let '(conn, rest) := field rest in
            let '(req, rest) := field rest in
            let '(chunk, rest) := field rest in
            let '(b, rest) := bulk rest in
            (LGet conn req chunk (bool_decide (is_Some b)), default [] b, rest)
          else if decide (cmd = "set" ∨ cmd = "del") then
            let '(conn, rest) := field rest in
            let '(req, rest) := field rest in
            let '(chunk, rest) := field rest in
            (if decide (cmd = "set") then LSet conn req chunk else LDel conn req chunk, [], rest)
          else if decide (cmd = "data") then
            (LData, [], (field (field rest).2).2)
          else if decide (cmd = "initMigrate") then (LInitMigrate, [], rest)
          else if decide (cmd = "bye") then (LBye, [], rest)
          else (LUnsupported, [], rest)
      | _ => (LUnreadable false, [], items)
      end
  end.

(** The reads of the client's [rec]. *)
Definition bulkOf {A} (f : bytes → A) (o : option Item) : cerr + A :=
  match o with
  | Some (IBulk b) => inr (f b)
  | None => inl EOF
  | Some _ => inl (EOther "resp: unexpected type")
  end.
Definition recIO (items : list Item) : RecIO :=
  MkRecIO
    (match items with [] => inl EOF | IError _ :: _ => inr true | _ => inr false end)
    (match items with IError s :: _ => inr s | _ => inl EOF end)
    (bulkOf String.string_of_list_byte (items !! 0%nat))
    (bulkOf String.string_of_list_byte (items !! 1%nat))
    (match bulkOf id (items !! 2%nat) with inl e => Some e | inr _ => None end)
    (bulkOf id (items !! 2%nat)).

(** ** The client's commands *)

Section commands.
Context {H : Type} `{HashMap string mptr H}.

(** The commands registered for [HandleSet] and [HandleGet], with their
    arguments; [NextArg().Int()] and [Arg(i).Int()] give what was written. *)
Inductive ClientCmd : Type :=
  | CSet (name : string) (a : SetArgs) (body : bytes)
  | CGet (name : string) (a : GetArgs).
Definition readClient (ops : list COp) : option ClientCmd :=
  match ops with
  | CCmdString [name; key; chunk; rq; d; p] :: _ =>
      if decide (ToLower name = "get")
      then Some (CGet name (MkGetArgs key (Atoi chunk) rq (Atoi d) (Atoi p))) else None
  | _ =>
      match bulkStrings ops, bulkStream ops with
      | [name; key; chunk; lambda; base; rq; d; p], Some b =>
          if decide (ToLower name = "set")
          then Some (CSet name (MkSetArgs key (Atoi chunk) (Atoi lambda) (Atoi base) rq (Atoi d) (Atoi p)) b)
          else None
      | _, _ => None
      end
  end.

Definition serveClient (fuel : nat) (pick : option nat) (uuid : string) (connId : Z) (ops : list COp) :
    M (Store H) (string + proc (Store H)) :=
  match readClient ops with
  | Some (CSet name a b) => HandleSet fuel pick uuid connId name a (Some (Z.of_nat (length b)))
  | Some (CGet name a) => HandleGet connId name a
  | None => mret (inl "ERR unknown command")
  end.
End commands.

(** ** One request *)

(** The lambdas of the instances. *)
Abbreviation Lambdas := (gmap iptr (Lambda (gmap string Chunk))).
Abbreviation Net := (LHeap * Lambdas)%type.

Definition onProxy {A} (c : M LHeap A) : M Net A := zoom fst (λ h n, (h, n.2)) c.
Definition onLambda {A} (i : iptr) (c : M (Lambda (gmap string Chunk)) A) : M Net A := λ n,
  match n.2 !! i with
  | None => Spins
  | Some l =>
      match c l with
      | Done (x, l') => Done (x, (n.1, <[i := l']> n.2))
      | Panics e => Panics e
      | Spins => Spins
      end
  end.

Definition replyTo (r : rptr) (h : LHeap) : option Reply :=
  snd <$> list.last (filter (λ x, x.1 = r) (responses h)).

(** The way of request [r] over connection [c] of instance [i]: what is written
    when it is sent; what the lambda answers; the value that comes with the
    answer, which is read and matched; and what the client reads of the reply. *)
Definition transmit (c : cptr) (i : iptr) (r : rptr) : M Net (list WOp) :=
  before ← onProxy (getConn c);
  onProxy (handleRequest ioOk i c (CRequest r));;
  after ← onProxy (getConn c);
  mret (drop (length (cw before)) (cw after)).
Definition answer (mem now : Z) (i : iptr) (body : bytes) (ops : list WOp) : M Net (list LOp) :=
  onLambda i (dispatch mem now (wire body ops)).
Definition receive (c : cptr) (ans : list LOp) : M Net bytes :=
  let '(msg, value, _) := readLambda (itemsOf ans) in
  onProxy (ServeLambda_round c false msg);;
  mret value.
Definition deliver (r : rptr) (value : bytes) : M Net (list Item) :=
  n ← mget;
  mret (match replyTo r n.1 with
        | Some rsp => clientItems value (HandleCallback rsp (Z.of_nat (length value)) None None)
        | None => []
        end).

Definition roundTrip (mem now : Z) (c : cptr) (i : iptr) (r : rptr) (body : bytes) : M Net (list Item) :=
  ops ← transmit c i r;
  ans ← answer mem now i body ops;
  value ← receive c ans;
  deliver r value.

(** ** Many requests *)

(** [HandleGet] counts the chunks of a GET. *)
Definition startGet (rq : string) (d p : Z) : M Net unit :=
  onProxy (modify (λ h, h <| ReqMap ::= (λ m, match m !! rq with
    | Some _ => m | None => <[rq := MkCounter "get" d p 0]> m end) |>)).

(** A request of a client for a chunk: a SET of its bytes, or a GET of an
    object of [d] and [p] shards; the id of the operation, the object, the
    chunk, the id of the client's connection, and the connection and the
    instance that the chunk is on. *)
Inductive JobKind : Type := JSet (b : bytes) | JGet (d p : nat).
Record Job : Type := MkJob {
  jKind : JobKind; jReq : string; jMeta : Meta; jChunk : nat; jConn : Z; jRoute : cptr * iptr
}.
Definition jBody (jb : Job) : option bytes := match jKind jb with JSet b => Some b | JGet _ _ => None end.
Definition jStart (jb : Job) : M Net unit :=
  match jKind jb with JSet _ => mret () | JGet d p => startGet (jReq jb) (Z.of_nat d) (Z.of_nat p) end.
(** The request that the proxy's handler makes of it. *)
Definition jobRequest (jb : Job) : Request :=
  chunkRequest (jMeta jb) (Z.of_nat (jChunk jb)) (MkId (jConn jb) (jReq jb) (pretty (Z.of_nat (jChunk jb))))
    (match jKind jb with JSet _ => "set" | JGet _ _ => "get" end)
    ((λ b, Z.of_nat (length b)) <$> jBody jb).

(** How far a job is; one without a stage has not reached the proxy's handler. *)
Inductive Stage : Type :=
  | Issued (r : rptr)
  | OnWire (r : rptr) (ops : list WOp)
  | Served (r : rptr) (ans : list LOp)
  | Replied (r : rptr) (value : bytes)
  | Read (items : list Item).
Definition isRead (o : option Stage) : bool := match o with Some (Read _) => true | _ => false end.

Section jobs.
Context {K : Type} `{Countable K}.
Abbreviation Run := (Net * gmap K Stage)%type.

Definition onNet {A} (c : M Net A) : M Run A := zoom fst (λ n s, (n, s.2)) c.
Definition move (k : K) (st : Stage) : M Run bool := modify (λ s, (s.1, <[k := st]> s.2));; mret true.

(** The jobs; [after k] are those whose replies the client reads before it
    sends [k]. *)
Context (mem : Z) (job : K → Job) (after : K → list K).

(** The next part of the way of job [k], at time [now]; [false] when it has to
    wait for others, or when the client has read the reply. *)
Definition advance (now : Z) (k : K) : M Run bool :=
  s ← mget;
  let jb := job k in
  match s.2 !! k with
  | None =>
      if forallb (λ k', isRead (s.2 !! k')) (after k) then
        onNet (jStart jb);; r ← onNet (onProxy (allocReq (jobRequest jb))); move k (Issued r)
      else mret false
  | Some (Issued r) => ops ← onNet (transmit (jRoute jb).1 (jRoute jb).2 r); move k (OnWire r ops)
  | Some (OnWire r ops) =>
      ans ← onNet (answer mem now (jRoute jb).2 (default [] (jBody jb)) ops); move k (Served r ans)
  | Some (Served r ans) => v ← onNet (receive (jRoute jb).1 ans); move k (Replied r v)
  | Some (Replied r v) => items ← onNet (deliver r v); move k (Read items)
  | Some (Read _) => mret false
  end.

(** The goroutines of the jobs, interleaved. *)
Definition step (jobs : list K) (s s' : Run) : Prop :=
  ∃ now k, k ∈ jobs ∧ advance now k s = Done (true, s').

(** The same, for a schedule. *)
Fixpoint schedule (l : list (Z * K)) : M Run unit :=
  match l with
  | [] => mret ()
  | (now, k) :: l => b ← advance now k; if (b : bool) then schedule l else blocked
  end.
End jobs.

(** ** Operations on objects *)

(** An operation of a client: a SET of shards or a GET, with the object, its
    numbers of shards, the places of its chunks, the connections of the client
    to the proxy, and the operations it follows. *)
Inductive OpKind : Type := OSet (b : nat → bytes) | OGet.
Record Operation : Type := MkOperation {
  opKind : OpKind; opReq : string; opMeta : Meta; opData : nat; opParity : nat;
  opRoute : nat → cptr * iptr; opConn : nat → Z; opAfter : list nat
}.
Definition opShards (op : Operation) : nat := (opData op + opParity op)%nat.
Definition opJob (op : Operation) (j : nat) : Job :=
  MkJob (match opKind op with OSet b => JSet (b j) | OGet => JGet (opData op) (opParity op) end)
    (opReq op) (opMeta op) j (opConn op j) (opRoute op j).

(** Their jobs: the [j]-th chunk of the [o]-th operation. *)
Definition nothing : Operation := MkOperation OGet "" zeroMeta 0 0 (λ _, (0%nat, 0%nat)) (λ _, 0) [].
Definition opAt (ops : list Operation) (o : nat) : Operation := default nothing (ops !! o).
Definition chunksOf (ops : list Operation) (o : nat) : list (nat * nat) := pair o <$> seq 0 (opShards (opAt ops o)).
Definition opsJob (ops : list Operation) (k : nat * nat) : Job := opJob (opAt ops k.1) k.2.
Definition opsAfter (ops : list Operation) (k : nat * nat) : list (nat * nat) :=
  opAfter (opAt ops k.1) ≫= chunksOf ops.
Definition opsJobs (ops : list Operation) : list (nat * nat) := seq 0 (length ops) ≫= chunksOf ops.

(** What the client of the [o]-th operation has read of its [j]-th chunk. *)
Definition readOf (st : Stage) : option (list Item) := match st with Read l => Some l | _ => None end.
Definition itemsRead (s : Net * gmap (nat * nat) Stage) (o j : nat) : option (list Item) := s.2 !! (o, j) ≫= readOf.

(** What a request of the client meets: its connection works, and it reads the
    items; where there are none, what [lost] says. *)
Definition shardIO (items : nat → option (list Item)) (lost : nat → ShardIO) (j : nat) : ShardIO :=
  match items j with
  | Some l => MkShardIO None None None (recIO l)
  | None => lost j
  end.
