(* ===== verification/WireTheorems.v ===== *)
(** * What is stored comes back

    Through the proxy's request loop, the lambda's handlers, the matching of
    responses and the client's reads: a chunk, then a whole object. *)

From stdpp Require Import pretty.
From S2P Require Import Prelude Lambdastore Request Instance Connection Responses Sending Proxy Meta Erasure ErasureTheorems Storage Lifetime Migrator StorageAdapter AdapterTheorems Session LambdaHandler HandlerTheorems Migration Client ClientTheorems Wire.

(** ** The heap at a request and a connection *)

Definition put (r : rptr) (x : Request) (c : cptr) (cn : Connection) (h : LHeap) : LHeap :=
  h <| reqs ::= insert r x |> <| conns ::= insert c cn |>.

Section at_heap.
Context (r : rptr) (c : cptr) (h : LHeap).
Implicit Types (x : Request) (cn : Connection).

Lemma put_id x cn : reqs h !! r = Some x → conns h !! c = Some cn → put r x c cn h = h.
Proof. intros Hx Hc. unfold put. destruct h; cbn in *. by rewrite !insert_id. Qed.
Lemma put_getReq x cn : getReq r (put r x c cn h) = Done (x, put r x c cn h).
Proof. unfold getReq, put. cbn. by rewrite lookup_insert_eq. Qed.
Lemma put_getConn x cn : getConn c (put r x c cn h) = Done (cn, put r x c cn h).
Proof. unfold getConn, put. cbn. by rewrite lookup_insert_eq. Qed.
Lemma put_modReq x cn f : modReq r f (put r x c cn h) = Done ((), put r (f x) c cn h).
Proof. unfold modReq, modify, put. cbn. by rewrite alter_insert_eq. Qed.
Lemma put_modConn x cn f : modConn c f (put r x c cn h) = Done ((), put r x c (f cn) h).
Proof. unfold modConn, modify, put. cbn. by rewrite alter_insert_eq. Qed.
Lemma put_write x cn ops :
  write c ops (put r x c cn h) = Done ((), put r x c (cn <| cw ::= (λ l, l ++ ops) |>) h).
Proof. apply put_modConn. Qed.
End at_heap.

(** Runs the next operation of a computation at [put]. *)
Ltac at_put :=
  first [ erewrite bind_done by apply put_getReq | erewrite bind_done by apply put_getConn
        | erewrite bind_done by apply put_modReq | erewrite bind_done by apply put_modConn
        | erewrite bind_done by apply put_write | erewrite bind_done by reflexivity ];
  cbn [update].

(** ** Sending *)

Definition sent (x : Request) : Request :=
  x <| reqW := None |> <| streamingStarted ::= orb (bool_decide (is_Some (BodyStream x))) |>.
Definition waiting (r : rptr) (x : Request) (cn : Connection) : Connection :=
  cn <| cw ::= (λ l, l ++ cmds x ++ flushOps x) |> <| chanWait := [r] |>.

Lemma Flush_run r x c cn h : reqW x = Some c →
  Flush ioOk r (put r x c cn h) = Done (None, put r (sent x) c (cn <| cw ::= (λ l, l ++ flushOps x) |>) h).
Proof.
  intros Hw. unfold Flush, flushOps, sent. at_put. rewrite Hw. do 2 at_put.
  destruct (BodyStream x) as [len|] eqn:E; cbn; [|by destruct x].
  do 3 at_put. cbn. rewrite <- !app_assoc. by destruct x.
Qed.

Lemma handleRequest_prepared i r x c cn h :
  (ToLower (reqCmd x) = "set" ∨ ToLower (reqCmd x) = "get" ∨ ToLower (reqCmd x) = "del") →
  handleRequest ioOk i c (CRequest r) (put r x c cn h) =
  match chanWait cn with
  | [] => Done (None, put r (sent x) c (waiting r x cn) h)
  | _ => Spins
  end.
Proof.
  intros Hcmd. unfold handleRequest. do 2 at_put. cbv zeta. rewrite decide_True by done.
  assert ((if decide (ToLower (reqCmd x) = "set") then PrepareForSet r c
           else if decide (ToLower (reqCmd x) = "get") then PrepareForGet r c else PrepareForDel r c)
    (put r x c cn h) = Done ((), put r (x <| reqW := Some c |>) c (cn <| cw ::= (λ l, l ++ cmds x) |>) h)) as E.
  { unfold cmds, PrepareForSet, PrepareForGet, PrepareForDel.
    repeat case_decide; do 2 at_put; apply put_modReq. }
  erewrite bind_done by exact E. at_put. cbn [chanWait]. destruct (chanWait cn); [|done]. at_put.
  erewrite bind_done by (by apply Flush_run). cbn. unfold waiting. cbn. by rewrite app_assoc.
Qed.
Lemma handleRequest_run i r x c cn h :
  (ToLower (reqCmd x) = "set" ∨ ToLower (reqCmd x) = "get" ∨ ToLower (reqCmd x) = "del") →
  chanWait cn = [] →
  handleRequest ioOk i c (CRequest r) (put r x c cn h) = Done (None, put r (sent x) c (waiting r x cn) h).
Proof. intros Hcmd Hw. by rewrite handleRequest_prepared, Hw. Qed.

(** ** Matching *)

Lemma Conn_SetResponse_run r x c cn h rsp :
  chanWait cn = [r] → IsResponse x rsp = true → responded x = false → ChanResponse x = true →
  Conn_SetResponse c rsp (put r x c cn h) =
  Done ((Some r, true), put r (x <| responded := true |> <| ChanResponse := false |>) c (cn <| chanWait := [] |>) h
          <| responses ::= (λ l, l ++ [(r, RResponse rsp)]) |>).
Proof.
  intros Hw Hm Hr Hc. unfold Conn_SetResponse. at_put. rewrite Hw. cbn [matchResponse].
  do 2 at_put. rewrite Hm. unfold SetResponse.
  erewrite bind_done; [reflexivity|]. at_put. rewrite Hr. at_put. rewrite Hc.
  erewrite bind_done; [reflexivity|]. at_put. unfold modReq, modify, put. cbn.
  by rewrite alter_insert_eq.
Qed.

(** ** Reading *)

Lemma field_bulk s l : field (IBulk (sbytes s) :: l) = (s, l).
Proof. unfold field. by rewrite ReadBulkString_bulk. Qed.

Lemma readLambda_set conn req chunk :
  readLambda (itemsOf [LBulkString "set"; LBulkString conn; LBulkString req; LBulkString chunk; LFlush]) =
  (LSet conn req chunk, [], []).
Proof.
  cbn [itemsOf mbind list_bind app]. unfold readLambda. rewrite ReadBulkString_bulk.
  cbn [decide]. rewrite !field_bulk. done.
Qed.
Lemma readLambda_get conn req chunk b :
  readLambda (itemsOf [LBulkString "get"; LBulkString conn; LBulkString req; LBulkString chunk; LCopyBulk b; LFlush]) =
  (LGet conn req chunk true, b, []).
Proof.
  cbn [itemsOf mbind list_bind app]. unfold readLambda. rewrite ReadBulkString_bulk.
  cbn [decide]. by rewrite !field_bulk.
Qed.
Lemma readLambda_error e : readLambda (itemsOf [LErrorf e; LFlush]) = (LError false e, [], []).
Proof. done. Qed.

(** ** A round trip *)

Lemma onProxy_done {A} (c : M LHeap A) h (L : Lambdas) x h' :
  c h = Done (x, h') → onProxy c (h, L) = Done (x, (h', L)).
Proof. intros H. unfold onProxy, zoom. cbn. by rewrite H. Qed.
Lemma onLambda_done {A} i (c : M (Lambda (gmap string Chunk)) A) h (L : Lambdas) l x l' :
  L !! i = Some l → c l = Done (x, l') → onLambda i c (h, L) = Done (x, (h, <[i := l']> L)).
Proof. intros Hl H. unfold onLambda. cbn. by rewrite Hl, H. Qed.

Definition clientReads (rsp : option Reply) (value : bytes) : list Item :=
  match rsp with
  | Some rsp => clientItems value (HandleCallback rsp (Z.of_nat (length value)) None None)
  | None => []
  end.

Lemma transmit_run i r x c cn h (L : Lambdas) :
  (ToLower (reqCmd x) = "set" ∨ ToLower (reqCmd x) = "get" ∨ ToLower (reqCmd x) = "del") →
  chanWait cn = [] →
  transmit c i r (put r x c cn h, L) = Done (cmds x ++ flushOps x, (put r (sent x) c (waiting r x cn) h, L)).
Proof.
  intros Hcmd Hw. unfold transmit.
  erewrite bind_done by (apply onProxy_done, put_getConn).
  erewrite bind_done by (apply onProxy_done; by apply handleRequest_run).
  erewrite bind_done by (apply onProxy_done, put_getConn).
  assert (drop (length (cw cn)) (cw (waiting r x cn)) = cmds x ++ flushOps x) as ->; [|done].
  unfold waiting. cbn. by rewrite drop_app_length.
Qed.

(** A request waits while another is unanswered on the connection. *)
Lemma transmit_blocked i r x c cn h (L : Lambdas) :
  (ToLower (reqCmd x) = "set" ∨ ToLower (reqCmd x) = "get" ∨ ToLower (reqCmd x) = "del") →
  chanWait cn ≠ [] → transmit c i r (put r x c cn h, L) = Spins.
Proof.
  intros Hcmd Hw. unfold transmit. erewrite bind_done by (apply onProxy_done, put_getConn).
  assert (handleRequest ioOk i c (CRequest r) (put r x c cn h) = Spins) as E.
  { rewrite handleRequest_prepared by done. by destruct (chanWait cn). }
  unfold mbind at 1, M_bind at 1, onProxy at 1, zoom. cbn [fst]. by rewrite E.
Qed.

Lemma answer_run mem now i body ops h (L : Lambdas) l ans l' :
  L !! i = Some l → dispatch mem now (wire body ops) l = Done (ans, l') →
  answer mem now i body ops (h, L) = Done (ans, (h, <[i := l']> L)).
Proof. intros Hl Hd. by eapply onLambda_done. Qed.

Lemma receive_run c ans msg value rest h h' b (L : Lambdas) :
  readLambda (itemsOf ans) = (msg, value, rest) → ServeLambda_round c false msg h = Done (b, h') →
  receive c ans (h, L) = Done (value, (h', L)).
Proof. intros Hm Hs. unfold receive. rewrite Hm. by erewrite bind_done by (apply onProxy_done; exact Hs). Qed.

Lemma deliver_run r value h (L : Lambdas) :
  deliver r value (h, L) = Done (clientReads (replyTo r h) value, (h, L)).
Proof. done. Qed.

Lemma replyTo_last r h l rsp : responses h = l ++ [(r, rsp)] → replyTo r h = Some rsp.
Proof.
  intros H. unfold replyTo. rewrite H, list.filter_app. cbn. rewrite decide_True by done.
  by rewrite last_snoc.
Qed.

(** ** Links *)

(** Connection [c] of instance [i] is idle. *)
Definition linked (c : cptr) (i : iptr) (h : LHeap) : Prop :=
  ∃ cn, conns h !! c = Some cn ∧ chanWait cn = [] ∧ cinstance cn = Some i.
(** The id of the deployment an instance runs. *)
Definition instanceId (h : LHeap) (i : iptr) : option Z :=
  ins ← insts h !! i; did <$> deps h !! idep ins.
(** Links stay, and instances. *)
Definition keeps (h h' : LHeap) : Prop :=
  (∀ c i, linked c i h → linked c i h') ∧ ∀ i, instanceId h' i = instanceId h i.

#[global] Instance keeps_preorder : PreOrder keeps.
Proof.
  split; [by intros h|]. intros h1 h2 h3 [L1 I1] [L2 I2]. split; [auto|]. intros i. by rewrite I2.
Qed.
Lemma keeps_put r x c cn h h0 :
  keeps h0 h → chanWait cn = [] → (∀ cn0, conns h !! c = Some cn0 → cinstance cn0 = cinstance cn) →
  keeps h0 (put r x c cn h).
Proof.
  intros Hk Hw Hi. etrans; [exact Hk|]. split; [|done]. intros k i (cn0&H1&H2&H3).
  destruct (decide (k = c)) as [->|Hne].
  - exists cn. cbn. rewrite lookup_insert_eq. split_and!; [done..|]. by rewrite <- (Hi cn0 H1).
  - exists cn0. cbn. by rewrite lookup_insert_ne.
Qed.

(** The lambda is in an invocation, and its chunks know their keys. *)
Definition up (l : Lambda (gmap string Chunk)) : Prop := serving l ∧ keyed (store l).
Definition chunkAt (l : Lambda (gmap string Chunk)) (key : string) : option (string * bytes) :=
  content (store l) key.

Definition unanswered (x : Request) : Prop := responded x = false ∧ ChanResponse x = true.

Lemma dispatch_set mem now conn rq ck key b l :
  up l → ∃ l', dispatch mem now (wire b [WMultiBulkSize 6; WBulkString "set"; WBulkString conn; WBulkString rq;
      WBulkString ck; WBulkString key; WFlush; WCopyBulk (Z.of_nat (length b)); WFlush]) l =
    Done ([LBulkString "set"; LBulkString conn; LBulkString rq; LBulkString ck; LFlush], l') ∧ up l' ∧
    ∀ k, chunkAt l' k = if decide (k = key) then Some (ck, b) else chunkAt l k.
Proof.
  intros [Hl Hk].
  destruct (lambda_set_spec (HL:=Storage_Laws) mem now now (sourceIO [(b, None)]) [conn; rq; ck; key] b l)
    as (s'&(l'&Hr&Hl'&<-)&Hok&Hc); [done..| |].
  { split; [cbn; apply app_nil_r|]. by intros e [= <-]. }
  exists l'. split; [|done]. unfold wire, dispatch. cbn [fmap list_fmap wireOp].
  rewrite Nat2Z.id, take_ge by lia. exact Hr.
Qed.

Lemma dispatch_get mem now conn rq key l ck b :
  up l → chunkAt l key = Some (ck, b) →
  ∃ l', dispatch mem now (wire [] [WMultiBulkSize 5; WBulkString "get"; WBulkString conn; WBulkString rq;
      WBulkString ""; WBulkString key; WFlush]) l =
    Done ([LBulkString "get"; LBulkString conn; LBulkString rq; LBulkString ck; LCopyBulk b; LFlush], l') ∧ up l' ∧
    ∀ k, chunkAt l' k = chunkAt l k.
Proof.
  intros [Hl Hk] Hc.
  destruct (lambda_get_spec (HL:=Storage_Laws) mem now now (sourceIO [([], Some Migrator.EOF)]) "get"
              [conn; rq; ""; key] l Hl Hk) as (ops&s'&(l'&Hr&Hl'&<-)&Hok&Hc'&Ho); [done| |].
  { intros id b' _. split; [cbn; lia|]. right. by eexists. }
  cbn in Ho. unfold chunkAt in Hc. rewrite Hc in Ho. subst ops. by exists l'.
Qed.

(** What the client reads of the [n]-th chunk that arrives. *)
Definition nthItems (x : Request) (n d : Z) (b : bytes) : list Item :=
  if decide (n ≤ d) then IBulk <$> [sbytes (ReqId (reqId x)); sbytes (ChunkId (reqId x)); b]
  else IBulk <$> [sbytes (ReqId (reqId x)); sbytes "-1"].

(** The counter of a GET after a chunk. *)
Definition counted (ctr : ClientReqCounter) : option ClientReqCounter :=
  let n := Counter ctr + 1 in
  if decide (DataShards ctr < n ∧ n = DataShards ctr + ParityShards ctr) then None
  else Some (ctr <| Counter := n |>).

Definition small (ctr : ClientReqCounter) : Prop :=
  0 ≤ Counter ctr < 2 ^ 31 - 1 ∧ 0 ≤ DataShards ctr ∧ 0 ≤ ParityShards ctr ∧
  DataShards ctr + ParityShards ctr < 2 ^ 31.

(** The heap when the request is answered, and the counters are [M]. *)
Definition replied (r : rptr) (x : Request) (c : cptr) (cn : Connection) (rsp : Response)
    (M : gmap string ClientReqCounter) (h : LHeap) : LHeap :=
  put r (x <| responded := true |> <| ChanResponse := false |>) c (cn <| chanWait := [] |>) h
    <| responses ::= (λ l, l ++ [(r, RResponse rsp)]) |> <| ReqMap := M |>.

Lemma keeps_replied r x c cn rsp M h :
  (∀ cn0, conns h !! c = Some cn0 → cinstance cn0 = cinstance cn) → keeps h (replied r x c cn rsp M h).
Proof. intros Hc. by apply (keeps_put r x c (cn <| chanWait := [] |>) h h). Qed.
Lemma replyTo_replied r x c cn rsp M h : replyTo r (replied r x c cn rsp M h) = Some (RResponse rsp).
Proof. by eapply replyTo_last. Qed.

Lemma setHandler_run r x c cn h conn i id :
  unanswered x →
  let rq := ReqId (reqId x) in let ck := ChunkId (reqId x) in
  chanWait cn = [r] → reqCmd x = "set" → cinstance cn = Some i → instanceId h i = Some id →
  setHandler c conn rq ck (put r x c cn h) =
  Done ((), replied r x c cn (MkResponse (MkId (Atoi conn) rq ck) "set" (Some (pretty id)) false) (ReqMap h) h).
Proof.
  intros [Hr Hch] rq ck Hw Hcmd Hi Hid. unfold setHandler. at_put. rewrite Hi. at_put.
  unfold instanceId in Hid. destruct (insts h !! i) as [ins|] eqn:Ei; [|done]. cbn in Hid.
  destruct (deps h !! idep ins) as [dp|] eqn:Ed; [|done]. injection Hid as <-.
  erewrite bind_done.
  2:{ eapply IdOf_run; [cbn [resolve]; erewrite bind_done; [reflexivity|]; unfold getInst; cbn; by rewrite Ei|].
      cbn. exact Ed. }
  erewrite bind_done by (apply Conn_SetResponse_run; [done| |done|done];
    unfold IsResponse; cbn; rewrite Hcmd, !bool_decide_eq_true_2 by done; done).
  reflexivity.
Qed.

Lemma getHandler_run r x c cn h conn ctr :
  unanswered x →
  let rq := ReqId (reqId x) in let ck := ChunkId (reqId x) in
  chanWait cn = [r] → reqCmd x = "get" → ReqMap h !! rq = Some ctr → small ctr →
  ∃ M, M !! rq = counted ctr ∧ (∀ rq', rq' ≠ rq → M !! rq' = ReqMap h !! rq') ∧ getHandler c conn rq ck true (put r x c cn h) =
    Done ((), replied r x c cn (MkResponse (MkId (Atoi conn) rq ck) "get" None
                                  (bool_decide (Counter ctr + 1 ≤ DataShards ctr))) M h).
Proof.
  intros [Hresp Hchan] rq ck Hw Hcmd Hctr (Hk&Hd&Hp&Hdp). set (n := Counter ctr + 1).
  assert (i32 (Counter ctr + 1) = n) as En by (unfold i32, n; rewrite Z.mod_small; lia).
  assert (i64 (DataShards ctr + ParityShards ctr) = DataShards ctr + ParityShards ctr) as Es
    by (apply i64_small; unfold is_i64; lia).
  set (h1 := h <| ReqMap ::= alter (λ k, k <| Counter := n |>) rq |>).
  set (rsp b := MkResponse (MkId (Atoi conn) rq ck) "get" None b).
  assert (∀ b, Conn_SetResponse c (rsp b) (put r x c cn h1) =
    Done ((Some r, true), replied r x c cn (rsp b) (ReqMap h1) h)) as Hset.
  { intros b. erewrite Conn_SetResponse_run; [reflexivity|done| |done|done].
    unfold IsResponse. cbn. by rewrite Hcmd, !bool_decide_eq_true_2 by done. }
  assert (Hlook : ReqMap h1 !! rq = Some (ctr <| Counter := n |>)) by (cbn; by rewrite lookup_alter_eq, Hctr).
  assert (Hother : ∀ rq', rq' ≠ rq → ReqMap h1 !! rq' = ReqMap h !! rq') by (intros rq' Hne; cbn; by rewrite lookup_alter_ne).
  unfold getHandler. erewrite bind_done by reflexivity. cbn [ReqMap put update]. rewrite Hctr. cbv zeta.
  rewrite En, Es. erewrite bind_done by reflexivity.
  destruct (decide (DataShards ctr < n)) as [Hgt|Hgt].
  - rewrite bool_decide_eq_false_2 by lia. erewrite bind_done by apply Hset. case_decide as Hlast.
    + eexists. split_and!; [| |reflexivity]; [unfold counted; by rewrite lookup_delete_eq, decide_True|].
      intros rq' Hne. by rewrite lookup_delete_ne, Hother.
    + eexists. split_and!; [| |reflexivity]; [unfold counted; by rewrite decide_False by tauto|done].
  - rewrite bool_decide_eq_true_2 by lia. erewrite bind_done by apply Hset.
    eexists. split_and!; [| |reflexivity]; [unfold counted; by rewrite decide_False by lia|done].
Qed.

(** ** The answers, received *)

Definition setAns (x : Request) : list LOp :=
  [LBulkString "set"; LBulkString (pretty (ConnId (reqId x))); LBulkString (ReqId (reqId x));
   LBulkString (ChunkId (reqId x)); LFlush].
Definition getAns (x : Request) (b : bytes) : list LOp :=
  [LBulkString "get"; LBulkString (pretty (ConnId (reqId x))); LBulkString (ReqId (reqId x));
   LBulkString (ChunkId (reqId x)); LCopyBulk b; LFlush].
Definition rspId' (x : Request) : Id :=
  MkId (Atoi (pretty (ConnId (reqId x)))) (ReqId (reqId x)) (ChunkId (reqId x)).
Definition setRsp (x : Request) (id : Z) : Response := MkResponse (rspId' x) "set" (Some (pretty id)) false.
Definition getRsp (x : Request) (n d : Z) : Response := MkResponse (rspId' x) "get" None (bool_decide (n ≤ d)).

Lemma receive_set r x c cn h (L : Lambdas) i id :
  unanswered x → chanWait cn = [r] → reqCmd x = "set" → cinstance cn = Some i → instanceId h i = Some id →
  receive c (setAns x) (put r x c cn h, L) = Done ([], (replied r x c cn (setRsp x id) (ReqMap h) h, L)).
Proof.
  intros Hu Hw Hcmd Hi Hid. eapply receive_run; [apply readLambda_set|]. unfold ServeLambda_round.
  erewrite bind_done by (unfold onReg, zoom; cbn -[put]; rewrite put_getConn; reflexivity).
  cbn [andb]. erewrite bind_done; [reflexivity|]. unfold onReg, zoom. cbn [reg_ls reg_put heap_registry].
  by erewrite setHandler_run.
Qed.

Lemma receive_get r x c cn h (L : Lambdas) b ctr :
  unanswered x → chanWait cn = [r] → reqCmd x = "get" → ReqMap h !! ReqId (reqId x) = Some ctr → small ctr →
  ∃ M, M !! ReqId (reqId x) = counted ctr ∧ (∀ rq', rq' ≠ ReqId (reqId x) → M !! rq' = ReqMap h !! rq') ∧ receive c (getAns x b) (put r x c cn h, L) =
    Done (b, (replied r x c cn (getRsp x (Counter ctr + 1) (DataShards ctr)) M h, L)).
Proof.
  intros Hu Hw Hcmd Hctr Hsm.
  destruct (getHandler_run r x c cn h (pretty (ConnId (reqId x))) ctr) as (M'&HM&Ho&Hg); [done..|].
  exists M'. split; [done|]. split; [done|]. eapply receive_run; [apply readLambda_get|]. unfold ServeLambda_round.
  erewrite bind_done by (unfold onReg, zoom; cbn -[put]; rewrite put_getConn; reflexivity).
  cbn [andb]. erewrite bind_done; [reflexivity|]. unfold onReg, zoom. cbn [reg_ls reg_put heap_registry].
  by rewrite Hg.
Qed.

Lemma clientReads_set x id :
  clientReads (Some (RResponse (setRsp x id))) [] =
  IBulk <$> [sbytes (ReqId (reqId x)); sbytes (ChunkId (reqId x)); sbytes (pretty id)].
Proof. done. Qed.
Lemma clientReads_get x n d b :
  clientReads (Some (RResponse (getRsp x n d))) b = nthItems x n d b.
Proof.
  unfold nthItems, getRsp. case_decide.
  - rewrite bool_decide_eq_true_2 by done. cbn. by rewrite Nat2Z.id, take_ge by lia.
  - by rewrite bool_decide_eq_false_2 by done.
Qed.

Section trip.
Context (mem now : Z) (c : cptr) (i : iptr) (h : LHeap) (L : Lambdas) (l : Lambda (gmap string Chunk)).
Context (Hlink : linked c i h) (HL : L !! i = Some l) (Hup : up l).
Context (r : rptr) (x : Request) (Hx : reqs h !! r = Some x) (Hu : unanswered x).

Lemma roundTrip_run body ans l' value rsp M :
  (ToLower (reqCmd x) = "set" ∨ ToLower (reqCmd x) = "get" ∨ ToLower (reqCmd x) = "del") →
  dispatch mem now (wire body (cmds x ++ flushOps x)) l = Done (ans, l') →
  (∀ cn, conns h !! c = Some cn → cinstance cn = Some i →
     receive c ans (put r (sent x) c (waiting r x cn) h, <[i := l']> L) =
     Done (value, (replied r (sent x) c (waiting r x cn) rsp M h, <[i := l']> L))) →
  ∃ h', roundTrip mem now c i r body (h, L) = Done (clientReads (Some (RResponse rsp)) value, (h', <[i := l']> L)) ∧
    keeps h h' ∧ ReqMap h' = M.
Proof.
  intros Hcmd Hd Hrec. destruct Hlink as (cn&Hc&Hw&Hi). exists (replied r (sent x) c (waiting r x cn) rsp M h).
  split; [|split; [|done]].
  - rewrite <- (put_id r c h x cn) at 1 by done. unfold roundTrip.
    erewrite bind_done by (by apply transmit_run). erewrite bind_done by (by eapply answer_run).
    erewrite bind_done by (by apply Hrec). by rewrite deliver_run, replyTo_replied.
  - apply keeps_replied. intros cn0 Hc0. rewrite Hc in Hc0. by injection Hc0 as <-.
Qed.

Lemma set_trip b id :
  reqCmd x = "set" → reqBody x = None → BodyStream x = Some (Z.of_nat (length b)) → instanceId h i = Some id →
  ∃ h' l', roundTrip mem now c i r b (h, L) =
      Done (IBulk <$> [sbytes (ReqId (reqId x)); sbytes (ChunkId (reqId x)); sbytes (pretty id)],
            (h', <[i := l']> L)) ∧
    keeps h h' ∧ ReqMap h' = ReqMap h ∧ up l' ∧
    ∀ k, chunkAt l' k = if decide (k = reqKey x) then Some (ChunkId (reqId x), b) else chunkAt l k.
Proof.
  intros Hcmd Hb Hs Hid.
  destruct (dispatch_set mem now (pretty (ConnId (reqId x))) (ReqId (reqId x)) (ChunkId (reqId x))
    (reqKey x) b l Hup) as (l'&Hd&Hup'&Hcont).
  destruct (roundTrip_run b (setAns x) l' [] (setRsp x id) (ReqMap h)) as (h'&Ht&Hk&Hm).
  - left. by rewrite Hcmd.
  - unfold cmds, flushOps, setCmds. rewrite Hcmd, Hb, Hs. exact Hd.
  - intros cn Hc Hi. by apply (receive_set r (sent x) c (waiting r x cn) h _ i).
  - by exists h', l'.
Qed.

Lemma get_trip b ctr :
  let rq := ReqId (reqId x) in
  reqCmd x = "get" → BodyStream x = None → chunkAt l (reqKey x) = Some (ChunkId (reqId x), b) →
  ReqMap h !! rq = Some ctr → small ctr →
  ∃ h' l', roundTrip mem now c i r [] (h, L) =
      Done (nthItems x (Counter ctr + 1) (DataShards ctr) b, (h', <[i := l']> L)) ∧
    keeps h h' ∧ ReqMap h' !! rq = counted ctr ∧ up l' ∧ ∀ k, chunkAt l' k = chunkAt l k.
Proof.
  intros rq Hcmd Hs Hchunk Hctr Hsm. destruct Hlink as (cn&Hc&Hw&Hi).
  destruct (dispatch_get mem now (pretty (ConnId (reqId x))) rq (reqKey x) l _ b Hup Hchunk) as (l'&Hd&Hup'&Hcont).
  destruct (receive_get r (sent x) c (waiting r x cn) h (<[i := l']> L) b ctr) as (M'&HM&_&Hr); [done..|].
  destruct (roundTrip_run [] (getAns x b) l' b (getRsp x (Counter ctr + 1) (DataShards ctr)) M')
    as (h'&Ht&Hk&Hm).
  - right. left. by rewrite Hcmd.
  - unfold cmds, flushOps, getCmds. rewrite Hcmd, Hs. exact Hd.
  - intros cn0 Hc0 _. rewrite Hc in Hc0. injection Hc0 as <-. exact Hr.
  - exists h', l'. rewrite <- clientReads_get. split; [exact Ht|]. by rewrite Hm.
Qed.
End trip.

(** ** Many requests *)

Lemma allocReq_fresh x h : ∃ r, allocReq x h = Done (r, h <| reqs ::= insert r x |>).
Proof. by eexists. Qed.
Lemma keeps_alloc r x h : keeps h (h <| reqs ::= insert r x |>).
Proof. done. Qed.

Implicit Types (h : LHeap) (L : Lambdas) (j : nat).

(** The chunk an instance's lambda holds under a key. *)
Definition held L (i : iptr) (key : string) : option (string * bytes) := L !! i ≫= λ l, chunkAt l key.

(** The link and the lambda of an instance, and the id of its deployment. *)
Definition reachable (ids : iptr → Z) h L (ci : cptr * iptr) : Prop :=
  linked ci.1 ci.2 h ∧ (∃ l, L !! ci.2 = Some l ∧ up l) ∧ instanceId h ci.2 = Some (ids ci.2).
Definition alive L L' : Prop := ∀ i l, L !! i = Some l → up l → ∃ l', L' !! i = Some l' ∧ up l'.

Lemma alive_insert L i l' : up l' → alive L (<[i := l']> L).
Proof.
  intros Hu k l Hl Hup. destruct (decide (k = i)) as [->|]; [exists l'|exists l];
    by rewrite ?lookup_insert_eq, ?lookup_insert_ne.
Qed.
Lemma held_insert_ne L i l' k key : k ≠ i → held (<[i := l']> L) k key = held L k key.
Proof. intros. unfold held. by rewrite lookup_insert_ne. Qed.
Lemma held_insert L i l' key : held (<[i := l']> L) i key = chunkAt l' key.
Proof. unfold held. by rewrite lookup_insert_eq. Qed.
Lemma held_at L i l key : L !! i = Some l → held L i key = chunkAt l key.
Proof. intros H. unfold held. by rewrite H. Qed.

Definition streamed (rq : string) j (n d : Z) (b : bytes) : list Item :=
  if decide (n ≤ d) then IBulk <$> [sbytes rq; sbytes (pretty (Z.of_nat j)); b]
  else IBulk <$> [sbytes rq; sbytes "-1"].

#[global] Instance alive_preorder : PreOrder alive.
Proof.
  split; [intros L i l Hl Hu; by exists l|]. intros L1 L2 L3 H1 H2 i l Hl Hu.
  destruct (H1 i l Hl Hu) as (l'&?&?). by eapply H2.
Qed.
