(* ===== verification/Interleave.v ===== *)
(** * Requests for chunks, interleaved

    Any number of requests of any clients are on their way at once: each is
    issued by the proxy's handler, sent by the request loop of its instance,
    served by the lambda, matched with its response and delivered to the
    client, in any order of these parts.  A request blocks while another one is
    unanswered on its connection, and waits for those it follows.  The invariant
    relates the stages of the requests with the heap of the proxy, the stores of
    the lambdas and the counters that the chunks of a GET share; [tally], the
    requests in the order they were counted, is ghost state. *)

From stdpp Require Import pretty relations.
From S2P Require Import Prelude Lambdastore Request Instance Connection Responses Sending Proxy Meta Erasure Storage StorageAdapter LambdaHandler Migration Client ClientTheorems Wire WireTheorems.

(** ** Stages *)

(** The request of a job that was issued. *)
Definition requestOf (st : Stage) : option rptr :=
  match st with
  | Issued r | OnWire r _ | Served r _ | Replied r _ => Some r
  | Read _ => None
  end.
(** The request of a job that was sent and not answered. *)
Definition flight (st : Stage) : option rptr :=
  match st with OnWire r _ | Served r _ => Some r | _ => None end.
Definition isCounted (st : Stage) : Prop := match st with Replied _ _ | Read _ => True | _ => False end.
Definition isServed (st : Stage) : Prop :=
  match st with Issued _ | OnWire _ _ => False | _ => True end.
Definition rank (o : option Stage) : nat :=
  match o with
  | None => 0
  | Some (Issued _) => 1
  | Some (OnWire _ _) => 2
  | Some (Served _ _) => 3
  | Some (Replied _ _) => 4
  | Some (Read _) => 5
  end%nat.

Section stages.
Context {K : Type} `{Countable K}.
#[local] Abbreviation Run := (Net * gmap K Stage)%type.
Implicit Types (s : Run) (jobs : list K).

(** The clients have read all replies. *)
Definition allRead jobs s : Prop := ∀ k, k ∈ jobs → isRead (s.2 !! k) = true.
Lemma isRead_rank (o : option Stage) : isRead o = true ↔ rank o = 5%nat.
Proof. by destruct o as [[]|]. Qed.

(** Parts done. *)
Fixpoint total jobs s : nat :=
  match jobs with
  | [] => 0
  | k :: jobs => rank (s.2 !! k) + total jobs s
  end%nat.

Lemma total_out jobs n pcs n' k st : k ∉ jobs → total jobs (n', <[k := st]> pcs) = total jobs (n, pcs).
Proof.
  induction jobs as [|k' jobs IH]; intros Hk; [done|]. apply not_elem_of_cons in Hk as [Hne Hk].
  cbn [total snd]. by rewrite lookup_insert_ne, IH by done.
Qed.
Lemma total_move jobs n pcs n' k st :
  NoDup jobs → k ∈ jobs → rank (Some st) = S (rank (pcs !! k)) →
  total jobs (n', <[k := st]> pcs) = S (total jobs (n, pcs)).
Proof.
  induction jobs as [|k' jobs IH]; intros Hnd Hk Hr; [by apply not_elem_of_nil in Hk|].
  apply list.NoDup_cons in Hnd as [Hk' Hnd]. cbn [total snd]. destruct (decide (k' = k)) as [->|Hne].
  - rewrite lookup_insert_eq, Hr, (total_out jobs n) by done. done.
  - rewrite lookup_insert_ne by done. apply elem_of_cons in Hk as [?|Hk]; [done|]. rewrite IH by done. lia.
Qed.

Lemma rank_le o : (rank o ≤ 5)%nat.
Proof. destruct o as [[]|]; cbn; lia. Qed.
Lemma total_le jobs s : (total jobs s ≤ 5 * length jobs)%nat.
Proof. induction jobs as [|k jobs IH]; [done|]. cbn. pose proof (rank_le (s.2 !! k)). lia. Qed.
Lemma total_allRead jobs s : total jobs s = (5 * length jobs)%nat ↔ allRead jobs s.
Proof.
  unfold allRead. induction jobs as [|k jobs IH].
  { split; [by intros _ k ?%not_elem_of_nil|done]. }
  cbn [total length]. pose proof (total_le jobs s) as Ht. pose proof (rank_le (s.2 !! k)) as Hr. split.
  - intros E k' [->|Hk]%elem_of_cons; [apply isRead_rank; lia|apply IH; [lia|done]].
  - intros Hall. assert (rank (s.2 !! k) = 5%nat) as -> by (apply isRead_rank, Hall; by left).
    destruct IH as [_ IH]. rewrite IH; [lia|]. intros k' Hk. apply Hall. by right.
Qed.
Lemma total_start jobs n : total jobs (n, ∅) = 0%nat.
Proof. induction jobs as [|k jobs IH]; [done|]. cbn. by rewrite lookup_empty, IH. Qed.

(** A schedule is a run. *)
Lemma schedule_steps mem job after jobs l s s' :
  forallb (λ x, bool_decide (x.2 ∈ jobs)) l = true → schedule mem job after l s = Done ((), s') →
  nsteps (step mem job after jobs) (length l) s s'.
Proof.
  revert s. induction l as [|[now k] l IH]; intros s Hl Hr; cbn in Hl.
  { injection Hr as <-. constructor. }
  apply andb_true_iff in Hl as [Hk%bool_decide_eq_true_1 Hl].
  apply bind_inv in Hr as (ok&s1&H1&H2). destruct ok; [|done].
  econstructor; [by exists now, k|by apply IH].
Qed.
End stages.

(** ** The invariant *)

Section system.
Context {K : Type} `{Countable K} (mem : Z) (job : K → Job) (after : K → list K) (jobs : list K).
#[local] Abbreviation Run := (Net * gmap K Stage)%type.
#[local] Abbreviation adv := (advance mem job after).
#[local] Abbreviation stp := (step mem job after jobs).
Implicit Types (k : K) (h : LHeap) (L : Lambdas) (pcs : gmap K Stage) (tally : list K) (s : Run).

(** The bytes of the chunk of a job; the deployments of the instances; the jobs
    whose chunks are stored at the start. *)
Context (b : K → bytes) (ids : iptr → Z) (loaded : K → Prop).

#[local] Abbreviation req k := (jobRequest (job k)).
#[local] Abbreviation conn k := (jRoute (job k)).1.
#[local] Abbreviation inst k := (jRoute (job k)).2.
#[local] Abbreviation ckey k := (ChunkKey (jMeta (job k)) (Z.of_nat (jChunk (job k)))).
#[local] Abbreviation ckid k := (pretty (Z.of_nat (jChunk (job k)))).

Definition shardsOf (jb : Job) : option (nat * nat) := match jKind jb with JSet _ => None | JGet d p => Some (d, p) end.

(** The answer of the lambda, its value, and the response of the proxy when [m]
    chunks of the operation were counted before. *)
Definition ansOf k : list LOp := match jKind (job k) with JSet _ => setAns (req k) | JGet _ _ => getAns (req k) (b k) end.
Definition valueOf k : bytes := match jKind (job k) with JSet _ => [] | JGet _ _ => b k end.
Definition rspOf k (m : nat) : Response :=
  match jKind (job k) with
  | JSet _ => setRsp (req k) (ids (inst k))
  | JGet d _ => getRsp (req k) (Z.of_nat m + 1) (Z.of_nat d)
  end.

(** The chunks of an operation among those counted. *)
Definition countOf (rq : string) tally : nat := length (filter (λ k, jReq (job k) = rq) tally).
Definition begun (rq : string) pcs : Prop := ∃ k, is_Some (pcs !! k) ∧ jReq (job k) = rq.
(** The counter of a GET: none before its first chunk, and until its last. *)
Definition counters pcs tally (M' : gmap string ClientReqCounter) : Prop :=
  ∀ k d p, k ∈ jobs → jKind (job k) = JGet d p →
    (¬ begun (jReq (job k)) pcs → M' !! jReq (job k) = None) ∧
    (begun (jReq (job k)) pcs → (countOf (jReq (job k)) tally < d + p)%nat →
       M' !! jReq (job k) = Some (MkCounter "get" (Z.of_nat d) (Z.of_nat p) (Z.of_nat (countOf (jReq (job k)) tally)))).

Definition stored L k : Prop := held L (inst k) (ckey k) = Some (ckid k, b k).

(** The channel of a connection holds the request in flight. *)
Definition waits pcs (c : cptr) (w : list rptr) : Prop :=
  match w with
  | [] => ∀ k, conn k = c → pcs !! k ≫= flight = None
  | [r] => ∃ k, conn k = c ∧ pcs !! k ≫= flight = Some r ∧
             ∀ k', conn k' = c → is_Some (pcs !! k' ≫= flight) → k' = k
  | _ => False
  end.

Definition counted_at tally k (m : nat) : Prop :=
  ∃ n, tally !! n = Some k ∧ m = countOf (jReq (job k)) (take n tally).
Definition stage_ok h tally k (st : Stage) : Prop :=
  match st with
  | Issued r => reqs h !! r = Some (req k)
  | OnWire r ops => reqs h !! r = Some (sent (req k)) ∧ ops = cmds (req k) ++ flushOps (req k)
  | Served r a => reqs h !! r = Some (sent (req k)) ∧ a = ansOf k
  | Replied r v => v = valueOf k ∧ (∃ x, reqs h !! r = Some x ∧ reqId x = reqId (req k)) ∧
      ∃ m, counted_at tally k m ∧ replyTo r h = Some (RResponse (rspOf k m))
  | Read items => ∃ m, counted_at tally k m ∧ items = clientReads (Some (RResponse (rspOf k m))) (valueOf k)
  end.

(** A job whose chunk has to be stored: at the start, when a GET of it was
    issued, when it was served. *)
Definition holds pcs k : Prop :=
  loaded k ∨ ∃ st, pcs !! k = Some st ∧ (is_Some (shardsOf (job k)) ∨ isServed st).

Record Inv s tally : Prop := {
  iv_ctr : counters s.2 tally (ReqMap s.1.1);
  iv_nodup : NoDup tally;
  iv_tally : ∀ k, k ∈ tally ↔ ∃ st, s.2 !! k = Some st ∧ isCounted st;
  iv_jobs : ∀ k, is_Some (s.2 !! k) → k ∈ jobs;
  iv_ids : ∀ k, k ∈ jobs → instanceId s.1.1 (inst k) = Some (ids (inst k));
  iv_up : ∀ k, k ∈ jobs → ∃ l, s.1.2 !! inst k = Some l ∧ up l;
  iv_wait : ∀ k, k ∈ jobs → ∃ cn, conns s.1.1 !! conn k = Some cn ∧
              cinstance cn = Some (inst k) ∧ waits s.2 (conn k) (chanWait cn);
  iv_stored : ∀ k, k ∈ jobs → holds s.2 k → stored s.1.2 k;
  iv_stage : ∀ k st, s.2 !! k = Some st → stage_ok s.1.1 tally k st
}.

(** ** The jobs *)

(** Jobs of an operation are for its chunks, and GETs among them agree on its
    shards; no chunk is written with different bytes; a GET follows a SET of
    its chunk, unless it is stored at the start; what a job follows comes
    before it. *)
Record jobs_ok (depth : K → nat) : Prop := {
  jo_nodup : NoDup jobs;
  jo_inj : ∀ k k', k ∈ jobs → k' ∈ jobs → jReq (job k) = jReq (job k') → jChunk (job k) = jChunk (job k') → k = k';
  jo_shards : ∀ k k', k ∈ jobs → k' ∈ jobs → jReq (job k) = jReq (job k') → shardsOf (job k) = shardsOf (job k');
  jo_many : ∀ k d p, k ∈ jobs → jKind (job k) = JGet d p →
    Z.of_nat (d + p) < 2 ^ 31 - 1 ∧ (countOf (jReq (job k)) jobs ≤ d + p)%nat;
  jo_bytes : ∀ k b', k ∈ jobs → jKind (job k) = JSet b' → b' = b k;
  jo_keys : ∀ k k', k ∈ jobs → k' ∈ jobs → ckey k = ckey k' → b k = b k';
  jo_load : ∀ k, k ∈ jobs → is_Some (shardsOf (job k)) →
    loaded k ∨ ∃ k', k' ∈ after k ∧ inst k' = inst k ∧ ckey k' = ckey k;
  jo_after : ∀ k k', k ∈ jobs → k' ∈ after k → k' ∈ jobs ∧ (depth k' < depth k)%nat
}.
Context (depth : K → nat) (Hjobs : jobs_ok depth).

(** A request belongs to one job. *)
Lemma stage_req h tally k st r :
  stage_ok h tally k st → requestOf st = Some r → ∃ x, reqs h !! r = Some x ∧ reqId x = reqId (req k).
Proof. destruct st; cbn; intros Hok [= ->]; naive_solver. Qed.
Lemma stage_req_inj h tally k k' st st' r :
  k ∈ jobs → k' ∈ jobs → stage_ok h tally k st → stage_ok h tally k' st' →
  requestOf st = Some r → requestOf st' = Some r → k = k'.
Proof.
  intros Hk Hk' H1 H2 E1 E2. destruct (stage_req _ _ _ _ _ H1 E1) as (x&Hx&Ex).
  destruct (stage_req _ _ _ _ _ H2 E2) as (x'&Hx'&Ex'). rewrite Hx in Hx'. injection Hx' as <-.
  rewrite Ex in Ex'. injection Ex' as _ Er Ec. apply (inj pretty) in Ec. apply (jo_inj _ Hjobs); [done..|lia].
Qed.

Lemma counted_at_app tally tally' k m : counted_at tally k m → counted_at (tally ++ tally') k m.
Proof.
  intros (n&Hn&->). exists n. split; [by apply lookup_app_l_Some|]. apply lookup_lt_Some in Hn.
  by rewrite take_app_le by lia.
Qed.

(** What other requests do leaves a stage alone. *)
Lemma stage_frame h h' tally tally' k st :
  stage_ok h tally k st →
  (∀ r, requestOf st = Some r → is_Some (reqs h !! r) → reqs h' !! r = reqs h !! r ∧ replyTo r h' = replyTo r h) →
  stage_ok h' (tally ++ tally') k st.
Proof.
  intros Hok Hr. destruct st as [r|r ops|r a|r v|items]; cbn in *.
  - destruct (Hr r) as [-> _]; [done|by rewrite Hok|done].
  - destruct Hok as [Hq ->]. destruct (Hr r) as [-> _]; [done|by rewrite Hq|done].
  - destruct Hok as [Hq ->]. destruct (Hr r) as [-> _]; [done|by rewrite Hq|done].
  - destruct Hok as (->&(x&Hx&Ex)&m&Hm&Hrep). destruct (Hr r) as [-> ->]; [done|by rewrite Hx|].
    eauto 10 using counted_at_app.
  - destruct Hok as (m&Hm&->). eauto using counted_at_app.
Qed.

(** The channels when a job that is not in flight moves, and stays out. *)
Lemma waits_same pcs c w k st :
  pcs !! k ≫= flight = flight st → waits pcs c w → waits (<[k := st]> pcs) c w.
Proof.
  intros E. assert (Hl : ∀ k', <[k := st]> pcs !! k' ≫= flight = pcs !! k' ≫= flight).
  { intros k'. destruct (decide (k' = k)) as [->|]; [by rewrite lookup_insert_eq|by rewrite lookup_insert_ne]. }
  unfold waits. repeat case_match; try done; setoid_rewrite Hl; done.
Qed.

Lemma tally_same tally pcs k st :
  (∀ k', k' ∈ tally ↔ ∃ st', pcs !! k' = Some st' ∧ isCounted st') →
  (isCounted st ↔ ∃ st', pcs !! k = Some st' ∧ isCounted st') →
  ∀ k', k' ∈ tally ↔ ∃ st', <[k := st]> pcs !! k' = Some st' ∧ isCounted st'.
Proof.
  intros Ht Hst k'. rewrite Ht. destruct (decide (k' = k)) as [->|].
  - rewrite <- Hst, lookup_insert_eq. naive_solver.
  - by rewrite lookup_insert_ne.
Qed.

Lemma begun_insert rq pcs k st : begun rq (<[k := st]> pcs) ↔ jReq (job k) = rq ∨ begun rq pcs.
Proof.
  split.
  - intros (k'&[st' Hk']&E). destruct (decide (k' = k)) as [->|]; [by left|right].
    rewrite lookup_insert_ne in Hk' by done. exists k'. split; [by eexists|done].
  - intros [E|(k'&[st' Hk']&E)]; [exists k; rewrite lookup_insert_eq; split; [by eexists|done]|].
    destruct (decide (k' = k)) as [->|]; [exists k; rewrite lookup_insert_eq|exists k'; rewrite lookup_insert_ne by done];
      split; [by eexists|done|by eexists|done].
Qed.
(** The counters when a job that was issued moves without being counted. *)
Lemma counters_same pcs tally M' k st :
  is_Some (pcs !! k) → counters pcs tally M' → counters (<[k := st]> pcs) tally M'.
Proof.
  intros Hk Hc k' d p Hk' E. destruct (Hc k' d p Hk' E) as [H1 H2].
  assert (begun (jReq (job k')) (<[k := st]> pcs) ↔ begun (jReq (job k')) pcs) as ->; [|done].
  rewrite begun_insert. split; [|by right]. intros [Er|?]; [by exists k|done].
Qed.

Lemma Inv_move h L pcs tally k st h' L' more :
  Inv ((h, L), pcs) tally → k ∈ jobs →
  counters (<[k := st]> pcs) (tally ++ more) (ReqMap h') → NoDup (tally ++ more) →
  (∀ k', k' ∈ tally ++ more ↔ ∃ st', <[k := st]> pcs !! k' = Some st' ∧ isCounted st') →
  (∀ i, instanceId h' i = instanceId h i) → alive L L' →
  (∀ k', k' ∈ jobs → ∃ cn, conns h' !! conn k' = Some cn ∧ cinstance cn = Some (inst k') ∧
     waits (<[k := st]> pcs) (conn k') (chanWait cn)) →
  (∀ k', k' ∈ jobs → stored L k' → stored L' k') →
  (is_Some (shardsOf (job k)) ∨ isServed st → stored L' k) → stage_ok h' (tally ++ more) k st →
  (∀ k' st' r, k' ≠ k → pcs !! k' = Some st' → requestOf st' = Some r → is_Some (reqs h !! r) →
     reqs h' !! r = reqs h !! r ∧ replyTo r h' = replyTo r h) →
  Inv ((h', L'), <[k := st]> pcs) (tally ++ more).
Proof.
  intros [Hc Hn Ht Hch Hid Hup Hw Hs Hst] Hk Hc' Hn' Ht' Hid' Hal Hw' Hs' Hsk Hok Hfr.
  split; cbn [fst snd] in *; try done.
  - intros k' [st' Hk']. destruct (decide (k' = k)) as [->|]; [done|]. rewrite lookup_insert_ne in Hk' by done. eauto.
  - intros k' Hk'. rewrite Hid'. auto.
  - intros k' Hk'. destruct (Hup k' Hk') as (l&Hl&Hu). by eapply Hal.
  - intros k' Hk' [Hl|(st'&E&Hh)]; [by apply Hs', Hs; [..|left]|]. destruct (decide (k' = k)) as [->|Hne].
    + rewrite lookup_insert_eq in E. injection E as <-. auto.
    + rewrite lookup_insert_ne in E by done. apply Hs', Hs; [done..|]. right. eauto.
  - intros k' st' E. destruct (decide (k' = k)) as [->|Hne].
    + rewrite lookup_insert_eq in E. by injection E as <-.
    + rewrite lookup_insert_ne in E by done. eapply stage_frame; [by apply Hst|]. intros r Er Hi. by eapply Hfr.
Qed.
(** The same, where nothing is counted. *)
Lemma Inv_move' h L pcs tally k st h' L' :
  Inv ((h, L), pcs) tally → k ∈ jobs →
  counters (<[k := st]> pcs) tally (ReqMap h') → (isCounted st ↔ ∃ st', pcs !! k = Some st' ∧ isCounted st') →
  (∀ i, instanceId h' i = instanceId h i) → alive L L' →
  (∀ k', k' ∈ jobs → ∃ cn, conns h' !! conn k' = Some cn ∧ cinstance cn = Some (inst k') ∧
     waits (<[k := st]> pcs) (conn k') (chanWait cn)) →
  (∀ k', k' ∈ jobs → stored L k' → stored L' k') →
  (is_Some (shardsOf (job k)) ∨ isServed st → stored L' k) → stage_ok h' tally k st →
  (∀ k' st' r, k' ≠ k → pcs !! k' = Some st' → requestOf st' = Some r → is_Some (reqs h !! r) →
     reqs h' !! r = reqs h !! r ∧ replyTo r h' = replyTo r h) →
  Inv ((h', L'), <[k := st]> pcs) tally.
Proof.
  intros HI Hk Hc Ht. intros. rewrite <- (app_nil_r tally). apply (Inv_move h L pcs tally); rewrite ?app_nil_r; try done.
  - apply (iv_nodup _ _ HI).
  - apply tally_same; [apply (iv_tally _ _ HI)|done].
Qed.

(** The channels when the connections are as they were. *)
Lemma wait_same h L pcs tally k st h' :
  Inv ((h, L), pcs) tally → conns h' = conns h → pcs !! k ≫= flight = flight st →
  ∀ k', k' ∈ jobs → ∃ cn, conns h' !! conn k' = Some cn ∧ cinstance cn = Some (inst k') ∧
    waits (<[k := st]> pcs) (conn k') (chanWait cn).
Proof.
  intros HI E Ef k' Hk. destruct (iv_wait _ _ HI k' Hk) as (cn&Hc&Hi&Hw). cbn in *. rewrite E.
  exists cn. split_and!; [done..|]. by apply waits_same.
Qed.

(** The channel of a job's connection, when its request is sent or answered. *)
Lemma wait_update h L pcs tally k st h' cn' :
  Inv ((h, L), pcs) tally → conns h' = <[conn k := cn']> (conns h) →
  (∀ cn, conns h !! conn k = Some cn → cinstance cn' = cinstance cn) →
  waits (<[k := st]> pcs) (conn k) (chanWait cn') →
  ∀ k', k' ∈ jobs → ∃ cn, conns h' !! conn k' = Some cn ∧ cinstance cn = Some (inst k') ∧
    waits (<[k := st]> pcs) (conn k') (chanWait cn).
Proof.
  intros HI E Hi Hw k' Hk. destruct (iv_wait _ _ HI k' Hk) as (cn&Hc&Hik&Hwk). cbn in *. rewrite E.
  destruct (decide (conn k' = conn k)) as [Ek|Hne].
  - rewrite Ek in *. exists cn'. rewrite lookup_insert_eq. split_and!; [done| |done]. by rewrite (Hi cn Hc).
  - exists cn. rewrite lookup_insert_ne by done. split_and!; [done..|].
    assert (Hl : ∀ i, conn i = conn k' → <[k := st]> pcs !! i = pcs !! i).
    { intros i Ei. rewrite lookup_insert_ne; [done|]. intros <-. congruence. }
    unfold waits in *. destruct (chanWait cn) as [|r [|]]; [| |done].
    + intros i Ei. rewrite Hl by done. auto.
    + destruct Hwk as (i&Ei&Hf&Hu). exists i. split_and!; [done|by rewrite Hl|].
      intros i' Ei'. rewrite Hl by done. auto.
Qed.

Lemma flight_wait h L pcs tally k st r :
  Inv ((h, L), pcs) tally → pcs !! k = Some st → flight st = Some r →
  ∃ cn, conns h !! conn k = Some cn ∧ cinstance cn = Some (inst k) ∧ chanWait cn = [r].
Proof.
  intros HI Hk Hf. destruct (iv_wait _ _ HI k) as (cn&Hc&Hi&Hw).
  { by apply (iv_jobs _ _ HI); eexists. }
  exists cn. split_and!; [done..|]. cbn in Hw. unfold waits in Hw. destruct (chanWait cn) as [|r' [|]]; [| |done].
  - specialize (Hw k eq_refl). rewrite Hk in Hw. cbn in Hw. congruence.
  - destruct Hw as (k'&Ek&Hk'&Hu). assert (k = k') as <-.
    { apply Hu; [done|]. rewrite Hk. cbn. rewrite Hf. by eexists. }
    rewrite Hk in Hk'. cbn in Hk'. congruence.
Qed.

Lemma replyTo_other h h' r r' rsp' :
  responses h' = responses h ++ [(r', rsp')] → r ≠ r' → replyTo r h' = replyTo r h.
Proof.
  intros E Hne. unfold replyTo. rewrite E, list.filter_app, filter_cons_False by (cbn; congruence).
  by rewrite filter_nil, app_nil_r.
Qed.

Lemma tally_jobs s tally : Inv s tally → tally ⊆ jobs.
Proof. intros HI k (st&Hk&_)%(iv_tally _ _ HI). apply (iv_jobs _ _ HI). by eexists. Qed.
Lemma not_tallied s tally k : Inv s tally → (∀ st, s.2 !! k = Some st → ¬ isCounted st) → k ∉ tally.
Proof. intros HI Hn (st&Hk&Hc)%(iv_tally _ _ HI). by eapply Hn. Qed.
Lemma issued_job s tally k st : Inv s tally → s.2 !! k = Some st → k ∈ jobs.
Proof. intros HI E. apply (iv_jobs _ _ HI). by eexists. Qed.

Lemma list_empty_elem (l : list K) : (∀ k, k ∉ l) → l = [].
Proof. destruct l as [|k l]; [done|]. intros Hn. destruct (Hn k). by left. Qed.

(** ** What the components do for a job *)

Lemma cmd_ok k :
  ToLower (reqCmd (req k)) = "set" ∨ ToLower (reqCmd (req k)) = "get" ∨ ToLower (reqCmd (req k)) = "del".
Proof. unfold jobRequest. cbn [reqCmd chunkRequest]. destruct (jKind (job k)); naive_solver. Qed.

Lemma count_lt tally k d p :
  k ∈ jobs → k ∉ tally → NoDup tally → tally ⊆ jobs → jKind (job k) = JGet d p →
  (countOf (jReq (job k)) tally < d + p)%nat.
Proof.
  intros Hk Hkt Ht Hsub E. destruct (jo_many _ Hjobs k d p Hk E) as [_ Hm].
  assert (countOf (jReq (job k)) (k :: tally) ≤ countOf (jReq (job k)) jobs)%nat as Hle.
  { apply submseteq_length, NoDup_submseteq.
    - apply list.NoDup_filter, list.NoDup_cons. done.
    - intros k' [E' Hk']%list_elem_of_filter. apply list_elem_of_filter. split; [done|].
      apply elem_of_cons in Hk' as [->|Hk']; [done|by apply Hsub]. }
  unfold countOf in Hle at 1. rewrite list.filter_cons, decide_True in Hle by done. cbn in Hle. unfold countOf in *. lia.
Qed.

Lemma job_start h L pcs tally k r :
  Inv ((h, L), pcs) tally → k ∈ jobs → pcs !! k = None →
  ∃ M', jStart (job k) (h, L) = Done ((), (h <| ReqMap := M' |>, L)) ∧ counters (<[k := Issued r]> pcs) tally M'.
Proof.
  intros HI Hk E. pose proof (iv_ctr _ _ HI) as Hc. cbn in Hc. unfold jStart. destruct (jKind (job k)) as [b'|d p] eqn:Ek.
  - exists (ReqMap h). split; [by destruct h|]. intros k' d p Hk' Ek'. destruct (Hc k' d p Hk' Ek') as [H1 H2].
    rewrite begun_insert. assert (jReq (job k) ≠ jReq (job k')).
    { intros Er. apply (jo_shards _ Hjobs) in Er; [|done..]. unfold shardsOf in Er. by rewrite Ek, Ek' in Er. }
    naive_solver.
  - eexists. split; [reflexivity|]. cbn. intros k' d' p' Hk' Ek'. destruct (Hc k' d' p' Hk' Ek') as [H1 H2].
    rewrite begun_insert. destruct (decide (jReq (job k) = jReq (job k'))) as [Er|Hne].
    + split; [tauto|]. intros _ Hlt. pose proof (jo_shards _ Hjobs k k' Hk Hk' Er) as Esh.
      unfold shardsOf in Esh. rewrite Ek, Ek' in Esh. injection Esh as <- <-. rewrite <- Er in *.
      destruct (decide (Exists (λ k0, is_Some (pcs !! k0) ∧ jReq (job k0) = jReq (job k)) jobs)) as [Hb|Hb].
      * assert (begun (jReq (job k)) pcs) as Hb'.
        { apply list.Exists_exists in Hb as (k0&_&H0&E0). by exists k0. }
        rewrite (H2 Hb' Hlt). exact (H2 Hb' Hlt).
      * assert (Hnb : ¬ begun (jReq (job k)) pcs).
        { intros (k0&H0&E0). apply Hb, list.Exists_exists. exists k0. split; [by apply (iv_jobs _ _ HI)|done]. }
        rewrite (H1 Hnb), lookup_insert_eq. do 2 f_equal.
        assert (countOf (jReq (job k)) tally = 0%nat) as ->; [|done]. apply length_zero_iff_nil. unfold countOf.
        apply list_empty_elem. intros k0 [E0 Hk0]%list_elem_of_filter. apply Hnb. apply (iv_tally _ _ HI) in Hk0 as (st&Hst&_). exists k0. split; [by eexists|done].
    + assert (Hm : ∀ x, (match ReqMap h !! jReq (job k) with Some _ => ReqMap h | None => <[jReq (job k) := x]> (ReqMap h) end)
        !! jReq (job k') = ReqMap h !! jReq (job k')).
      { intros x. destruct (ReqMap h !! jReq (job k)); [done|]. by rewrite lookup_insert_ne. }
      rewrite Hm. naive_solver.
Qed.

Lemma job_serve now k l : k ∈ jobs → up l →
  (is_Some (shardsOf (job k)) → chunkAt l (ckey k) = Some (ckid k, b k)) →
  ∃ l', dispatch mem now (wire (default [] (jBody (job k))) (cmds (req k) ++ flushOps (req k))) l = Done (ansOf k, l') ∧
    up l' ∧ ∀ x, chunkAt l' x = if decide (x = ckey k) then Some (ckid k, b k) else chunkAt l x.
Proof.
  intros Hk Hup Hst. unfold ansOf, shardsOf, jobRequest, jBody in *. destruct (jKind (job k)) as [b'|d p] eqn:E.
  - rewrite <- (jo_bytes _ Hjobs k b' Hk E). by apply dispatch_set.
  - destruct (dispatch_get mem now (pretty (jConn (job k))) (jReq (job k)) (ckey k) l (ckid k) (b k))
      as (l'&Hd&Hup'&Hc); [done|by apply Hst; eexists|].
    exists l'. split; [exact Hd|]. split; [done|]. intros x. rewrite Hc. case_decide; [|done]. subst x.
    apply Hst. by eexists.
Qed.

Lemma job_reply h L pcs tally k r a cn :
  Inv ((h, L), pcs) tally → pcs !! k = Some (Served r a) → chanWait cn = [r] → cinstance cn = Some (inst k) →
  ∃ M', receive (conn k) (ansOf k) (put r (sent (req k)) (conn k) cn h, L) =
      Done (valueOf k, (replied r (sent (req k)) (conn k) cn (rspOf k (countOf (jReq (job k)) tally)) M' h, L)) ∧
    ∀ st, counters (<[k := st]> pcs) (tally ++ [k]) M'.
Proof.
  intros HI E Hw Hi. pose proof (issued_job _ _ _ _ HI E) as Hk. pose proof (iv_ctr _ _ HI) as Hc. cbn in Hc.
  assert (Hkt : k ∉ tally).
  { eapply not_tallied; [exact HI|]. cbn [snd]. rewrite E. intros st [= <-]. by intros []. }
  assert (Hcount : ∀ rq, countOf rq (tally ++ [k]) = (countOf rq tally + if decide (jReq (job k) = rq) then 1 else 0)%nat).
  { intros rq. unfold countOf. rewrite list.filter_app, length_app, list.filter_cons. f_equal. by case_decide. }
  unfold ansOf, valueOf, rspOf. destruct (jKind (job k)) as [b'|d p] eqn:Ek.
  - exists (ReqMap h). split.
    + apply (receive_set r (sent (req k)) (conn k) cn h L (inst k)); try done.
      * unfold jobRequest. by rewrite Ek.
      * apply (iv_ids _ _ HI k Hk).
    + intros st. apply counters_same; [by rewrite E|]. intros k' d p Hk' Ek'. destruct (Hc k' d p Hk' Ek') as [H1 H2].
      rewrite Hcount, decide_False, Nat.add_0_r; [by split|]. intros Er. apply (jo_shards _ Hjobs) in Er; [|done..].
      unfold shardsOf in Er. by rewrite Ek, Ek' in Er.
  - destruct (jo_many _ Hjobs k d p Hk Ek) as [Hdp _].
    pose proof (count_lt tally k d p Hk Hkt (iv_nodup _ _ HI) (tally_jobs _ _ HI) Ek) as Hlt.
    assert (Hb : begun (jReq (job k)) pcs) by (exists k; rewrite E; split; [by eexists|done]).
    destruct (Hc k d p Hk Ek) as [_ Hctr]. specialize (Hctr Hb Hlt).
    destruct (receive_get r (sent (req k)) (conn k) cn h L (b k)
      (MkCounter "get" (Z.of_nat d) (Z.of_nat p) (Z.of_nat (countOf (jReq (job k)) tally)))) as (M'&HM&Ho&Hr);
      [done|done| |done| |].
    { unfold jobRequest. by rewrite Ek. }
    { unfold small. cbn. lia. }
    exists M'. split; [exact Hr|]. intros st. apply counters_same; [by rewrite E|]. intros k' d' p' Hk' Ek'.
    destruct (Hc k' d' p' Hk' Ek') as [H1 H2]. destruct (decide (jReq (job k) = jReq (job k'))) as [Er|Hne].
    + pose proof (jo_shards _ Hjobs k k' Hk Hk' Er) as Esh. unfold shardsOf in Esh. rewrite Ek, Ek' in Esh.
      injection Esh as <- <-. rewrite <- Er in *. split; [done|]. intros _. rewrite Hcount, decide_True by done.
      intros Hlt'. etrans; [exact HM|]. unfold counted. cbn. rewrite decide_False by lia. do 2 f_equal. lia.
    + rewrite Hcount, decide_False, Nat.add_0_r by done. rewrite Ho by (intros Ex; by apply Hne). by split.
Qed.

(** ** The parts of the way *)

Lemma adv_bind {A} s (c : M Net A) (f : A → M Run bool) x n' :
  c s.1 = Done (x, n') → (onNet c ≫= f) s = f x (n', s.2).
Proof. intros Hc. erewrite bind_done; [reflexivity|]. unfold onNet, zoom. by rewrite Hc. Qed.

(** Job [k] moves to its next stage. *)
Definition moves now k s : Prop :=
  ∃ st n' tally', adv now k s = Done (true, (n', <[k := st]> s.2)) ∧ Inv (n', <[k := st]> s.2) tally' ∧
    rank (Some st) = S (rank (s.2 !! k)).

Lemma advance_issue now k h L pcs tally :
  k ∈ jobs → Inv ((h, L), pcs) tally → pcs !! k = None → (∀ k', k' ∈ after k → isRead (pcs !! k') = true) →
  moves now k ((h, L), pcs).
Proof.
  intros Hk HI E Haft.
  set (r := fresh (dom (reqs h))).
  destruct (job_start h L pcs tally k r HI Hk E) as (M'&Hs&Hc).
  set (h1 := h <| ReqMap := M' |>). set (h2 := h1 <| reqs ::= insert r (req k) |>).
  assert (Hr : reqs h !! r = None) by (apply not_elem_of_dom, (is_fresh (dom (reqs h)))).
  exists (Issued r), (h2, L), tally. cbn [snd]. split; [|split; [|by rewrite E]].
  - unfold advance. erewrite bind_done by reflexivity. cbn [snd]. cbv zeta. rewrite E.
    assert (forallb (λ k', isRead (pcs !! k')) (after k) = true) as ->.
    { apply forallb_forall. intros k' Hk'. by apply Haft, list_elem_of_In. }
    erewrite adv_bind by exact Hs. erewrite adv_bind by (by apply onProxy_done). reflexivity.
  - apply (Inv_move' h L pcs tally); try done.
    + rewrite E. naive_solver.
    + eapply wait_same; [exact HI|done|]. by rewrite E.
    + intros [Hg|[]]. destruct (jo_load _ Hjobs k Hk Hg) as [Hl|(k'&Hk'&Ei&Ekey)].
      * apply (iv_stored _ _ HI k Hk). by left.
      * pose proof (Haft k' Hk') as Hread. destruct (pcs !! k') as [st'|] eqn:E'; [|done].
        pose proof (issued_job _ _ _ _ HI E') as Hj'.
        assert (stored L k') as Hst.
        { apply (iv_stored _ _ HI k' Hj'). right. exists st'. split; [done|]. right. by destruct st'. }
        unfold stored in *. rewrite Ei, Ekey in Hst. rewrite Hst, (jo_keys _ Hjobs k' k) by done.
        by apply ChunkKey_injective in Ekey as [-> _].
    + cbn. by rewrite lookup_insert_eq.
    + intros k' st' r' Hne Hk' _ Hi. split; [|done]. cbn. rewrite lookup_insert_ne; [done|].
      intros <-. rewrite Hr in Hi. by destruct Hi.
Qed.

(** Requests of other jobs than [k], whose request is [r]. *)
Lemma other_request h L pcs tally k st r k' st' r' :
  Inv ((h, L), pcs) tally → pcs !! k = Some st → requestOf st = Some r →
  k' ≠ k → pcs !! k' = Some st' → requestOf st' = Some r' → r' ≠ r.
Proof.
  intros HI Hk Hr Hne Hk' Hr' ->. apply Hne. pose proof (iv_stage _ _ HI) as Hst. cbn in Hst.
  eapply stage_req_inj; [by eapply (issued_job _ _ _ _ HI)|by eapply (issued_job _ _ _ _ HI)|by apply Hst..|done|done].
Qed.

Lemma advance_send now k h L pcs tally r :
  Inv ((h, L), pcs) tally → pcs !! k = Some (Issued r) →
  moves now k ((h, L), pcs) ∨
  adv now k ((h, L), pcs) = Spins ∧ ∃ k' st, pcs !! k' = Some st ∧ is_Some (flight st).
Proof.
  intros HI E. pose proof (issued_job _ _ _ _ HI E) as Hk.
  pose proof (iv_stage _ _ HI k _ E) as Hx. cbn in Hx.
  destruct (iv_wait _ _ HI k Hk) as (cn&Hc&Hi&Hw). cbn in Hc, Hw.
  assert (Ha : adv now k ((h, L), pcs) =
    (ops ← onNet (transmit (conn k) (inst k) r); move k (OnWire r ops)) ((h, L), pcs)).
  { unfold advance. erewrite bind_done by reflexivity. cbn [snd]. cbv zeta. by rewrite E. }
  destruct (chanWait cn) as [|r' w] eqn:Ew.
  - left. set (cn' := waiting r (req k) cn). set (h' := put r (sent (req k)) (conn k) cn' h).
    exists (OnWire r (cmds (req k) ++ flushOps (req k))), (h', L), tally.
    cbn [snd]. split; [|split; [|by rewrite E]].
    + rewrite Ha. rewrite <- (put_id r (conn k) h (req k) cn) at 1 by done.
      by erewrite adv_bind by (apply transmit_run; [apply cmd_ok|done]).
    + apply (Inv_move' h L pcs tally); try done.
      * apply counters_same; [by rewrite E|]. apply (iv_ctr _ _ HI).
      * rewrite E. naive_solver.
      * apply (wait_update h L pcs tally k _ _ cn'); [done|done| |].
        { intros cn0 Hc0. rewrite Hc in Hc0. by injection Hc0 as <-. }
        cbn. exists k. rewrite lookup_insert_eq. split_and!; [done|done|]. intros k' Ek [r' Hk'].
        destruct (decide (k' = k)) as [|Hne]; [done|]. rewrite lookup_insert_ne in Hk' by done.
        cbn in Hw. by rewrite (Hw k' Ek) in Hk'.
      * intros [Hg|[]]. apply (iv_stored _ _ HI k Hk). right. eauto.
      * cbn. by rewrite lookup_insert_eq.
      * intros k' st' r' Hne Hk' Hr' _. split; [|done]. cbn. rewrite lookup_insert_ne; [done|].
        intros <-. by eapply (other_request h L pcs tally k _ r k' _ r).
  - right. split.
    + rewrite Ha. rewrite <- (put_id r (conn k) h (req k) cn) by done.
      unfold mbind, M_bind, onNet, zoom. cbn [fst]. rewrite transmit_blocked; [done|apply cmd_ok|by rewrite Ew].
    + unfold waits in Hw. destruct w; [|done]. destruct Hw as (k'&_&Hk'&_).
      destruct (pcs !! k') as [st|] eqn:Ek; [|done]. exists k', st. split; [done|]. cbn in Hk'. by eexists.
Qed.

Lemma advance_serve now k h L pcs tally r ops :
  Inv ((h, L), pcs) tally → pcs !! k = Some (OnWire r ops) → moves now k ((h, L), pcs).
Proof.
  intros HI E. pose proof (issued_job _ _ _ _ HI E) as Hk.
  destruct (iv_stage _ _ HI k _ E) as [Hx ->]. destruct (iv_up _ _ HI k Hk) as (l&Hl&Hup). cbn in Hl, Hx.
  destruct (job_serve now k l Hk Hup) as (l'&Hd&Hup'&Hcont).
  { intros Hg. assert (stored L k) as Hs by (apply (iv_stored _ _ HI k Hk); right; eauto). unfold stored in Hs.
    by rewrite (held_at _ _ l) in Hs. }
  assert (Hheld : ∀ i key, held (<[inst k := l']> L) i key =
    if decide (i = inst k ∧ key = ckey k) then Some (ckid k, b k) else held L i key).
  { intros i key. destruct (decide (i = inst k)) as [->|Hne].
    - rewrite held_insert, Hcont, (held_at L _ l) by done. repeat case_decide; naive_solver.
    - rewrite held_insert_ne by done. rewrite decide_False; [done|naive_solver]. }
  exists (Served r (ansOf k)), (h, <[inst k := l']> L), tally. cbn [snd]. split; [|split; [|by rewrite E]].
  - unfold advance. erewrite bind_done by reflexivity. cbn [snd]. cbv zeta. rewrite E.
    by erewrite adv_bind by (by eapply answer_run).
  - apply (Inv_move' h L pcs tally); try done.
    + apply counters_same; [by rewrite E|]. apply (iv_ctr _ _ HI).
    + rewrite E. naive_solver.
    + by apply alive_insert.
    + eapply wait_same; [exact HI|done|]. by rewrite E.
    + intros k' Hk' Hs. unfold stored in *. rewrite Hheld. case_decide as Hd'; [|done].
      destruct Hd' as [_ Ek]. rewrite (jo_keys _ Hjobs k' k) by done.
      by apply ChunkKey_injective in Ek as [-> _].
    + intros _. unfold stored. rewrite Hheld. by rewrite decide_True.
Qed.

Lemma advance_receive now k h L pcs tally r a :
  Inv ((h, L), pcs) tally → pcs !! k = Some (Served r a) → moves now k ((h, L), pcs).
Proof.
  intros HI E. pose proof (issued_job _ _ _ _ HI E) as Hk.
  destruct (iv_stage _ _ HI k _ E) as [Hx ->]. cbn in Hx.
  destruct (flight_wait h L pcs tally k _ r HI E) as (cn&Hc&Hi&Hw); [done|].
  assert (Hkt : k ∉ tally).
  { eapply not_tallied; [exact HI|]. cbn [snd]. rewrite E. intros st [= <-]. by intros []. }
  destruct (job_reply h L pcs tally k r _ cn HI E Hw Hi) as (M'&Hr&HM).
  rewrite (put_id r (conn k) h (sent (req k)) cn) in Hr by done.
  set (h' := replied r (sent (req k)) (conn k) cn (rspOf k (countOf (jReq (job k)) tally)) M' h) in *.
  exists (Replied r (valueOf k)), (h', L), (tally ++ [k]). cbn [snd]. split; [|split; [|by rewrite E]].
  - unfold advance. erewrite bind_done by reflexivity. cbn [snd]. cbv zeta. rewrite E.
    by erewrite adv_bind by exact Hr.
  - apply (Inv_move h L pcs tally); try done.
    + apply list.NoDup_app. split_and!; [apply (iv_nodup _ _ HI)| |apply NoDup_singleton].
      intros k' Hk' ->%list_elem_of_singleton. done.
    + intros k'. rewrite elem_of_app, list_elem_of_singleton, (iv_tally _ _ HI k'). cbn [snd].
      destruct (decide (k' = k)) as [->|Hne]; [rewrite lookup_insert_eq|rewrite lookup_insert_ne by done]; naive_solver.
    + eapply (wait_update h L pcs tally k _ _ (cn <| chanWait := [] |>)); [done|done| |].
      { intros cn0 Hc0. rewrite Hc in Hc0. by injection Hc0 as <-. }
      cbn. intros k' Ek. destruct (decide (k' = k)) as [->|Hne]; [by rewrite lookup_insert_eq|].
      rewrite lookup_insert_ne by done. destruct (iv_wait _ _ HI k Hk) as (cn0&Hc0&_&Hw0). cbn in Hc0, Hw0.
      rewrite Hc in Hc0. injection Hc0 as <-. rewrite Hw in Hw0. destruct Hw0 as (k0&Ek0&Hk0&Hu).
      destruct (pcs !! k' ≫= flight) eqn:Ef; [|done]. exfalso. apply Hne. transitivity k0.
      * apply Hu; [done|]. rewrite Ef. by eexists.
      * symmetry. apply Hu; [done|]. rewrite E. by eexists.
    + intros _. apply (iv_stored _ _ HI k Hk). right. exists (Served r (ansOf k)). split; [done|by right].
    + cbn [stage_ok]. split; [done|]. split.
      * eexists. unfold h'. cbn. rewrite lookup_insert_eq. by split.
      * eexists. split; [|apply replyTo_replied]. exists (length tally).
        rewrite list_lookup_middle, take_app_length by done. done.
    + intros k' st' r' Hne Hk' Hr' _.
      assert (r' ≠ r) as Hnr by (by eapply (other_request h L pcs tally k _ r k')).
      split; [cbn; by rewrite lookup_insert_ne|]. by eapply replyTo_other.
Qed.

Lemma advance_deliver now k h L pcs tally r v :
  Inv ((h, L), pcs) tally → pcs !! k = Some (Replied r v) → moves now k ((h, L), pcs).
Proof.
  intros HI E. pose proof (issued_job _ _ _ _ HI E) as Hk.
  destruct (iv_stage _ _ HI k _ E) as (->&_&m&Hm&Hr). cbn in Hr.
  exists (Read (clientReads (Some (RResponse (rspOf k m))) (valueOf k))), (h, L), tally. cbn [snd].
  split; [|split; [|by rewrite E]].
  - unfold advance. erewrite bind_done by reflexivity. cbn [snd]. cbv zeta. rewrite E.
    erewrite adv_bind by apply deliver_run. by rewrite Hr.
  - apply (Inv_move' h L pcs tally); try done.
    + apply counters_same; [by rewrite E|]. apply (iv_ctr _ _ HI).
    + rewrite E. naive_solver.
    + eapply wait_same; [exact HI|done|]. by rewrite E.
    + intros _. apply (iv_stored _ _ HI k Hk). right. exists (Replied r (valueOf k)). split; [done|by right].
    + cbn. eauto.
Qed.

(** Every job moves, unless it is read, waits for one that is not, or is blocked
    by one in flight. *)
Lemma advance_cases now k s tally : k ∈ jobs → Inv s tally →
  moves now k s ∨
  adv now k s = Done (false, s) ∧
    (isRead (s.2 !! k) = true ∨ ∃ k', k' ∈ after k ∧ isRead (s.2 !! k') = false) ∨
  adv now k s = Spins ∧ ∃ k' st, s.2 !! k' = Some st ∧ is_Some (flight st).
Proof.
  destruct s as [[h L] pcs]. intros Hk HI. destruct (pcs !! k) as [[r|r ops|r a|r v|items]|] eqn:E.
  - destruct (advance_send now k h L pcs tally r HI E); auto.
  - left. by eapply advance_serve.
  - left. by eapply advance_receive.
  - left. by eapply advance_deliver.
  - right. left. cbn [snd]. rewrite E. split; [|by left]. unfold advance. erewrite bind_done by reflexivity.
    cbn [snd]. cbv zeta. by rewrite E.
  - destruct (forallb (λ k', isRead (pcs !! k')) (after k)) eqn:Ef.
    + left. eapply advance_issue; [done..|]. intros k' Hk'. rewrite forallb_forall in Ef. apply Ef.
      by apply list_elem_of_In.
    + right. left. split.
      * unfold advance. erewrite bind_done by reflexivity. cbn [snd]. cbv zeta. by rewrite E, Ef.
      * right. cbn [snd]. clear -Ef. induction (after k) as [|k' l IH]; [done|]. cbn in Ef.
        apply andb_false_iff in Ef as [Ef|Ef]; [exists k'; split; [by left|done]|].
        destruct (IH Ef) as (k0&Hk0&?). exists k0. split; [by right|done].
Qed.

(** ** Runs *)

Lemma step_inv s s' tally : Inv s tally → stp s s' →
  (∃ tally', Inv s' tally') ∧ total jobs s' = S (total jobs s).
Proof.
  intros HI (now&k&Hk&Ha). destruct (advance_cases now k s tally Hk HI) as [Hm|[[Hm _]|[Hm _]]].
  - destruct Hm as (st&n'&tally'&Hm&HI'&Hr). rewrite Ha in Hm. injection Hm as ->.
    split; [by eexists|]. destruct s as [n pcs]. apply total_move; [apply (jo_nodup _ Hjobs)|done|done].
  - rewrite Ha in Hm. discriminate Hm.
  - rewrite Ha in Hm. discriminate Hm.
Qed.

(** Where not everything is read, something moves. *)
Lemma step_exists s tally k : Inv s tally → k ∈ jobs → isRead (s.2 !! k) = false → ∃ s', stp s s'.
Proof.
  intros HI. assert (∀ now k, k ∈ jobs → moves now k s → ∃ s', stp s s') as Hmv.
  { intros now k' Hk (st&n'&_&Ha&_). eexists. exists now, k'. split; [done|exact Ha]. }
  remember (depth k) as n eqn:En. revert k En. induction n as [n IH] using lt_wf_ind. intros k -> Hk Hr.
  destruct (advance_cases 0 k s tally Hk HI) as [Hm|[[_ [?|(k'&Hk'&Hr')]]|[_ (k'&st&Hk'&Hst)]]]; [eauto|congruence| |].
  - destruct (jo_after _ Hjobs k k' Hk Hk') as [Hj Hd]. by eapply (IH (depth k')).
  - apply (Hmv 0 k'); [by eapply issued_job|]. destruct s as [[h L] pcs]. cbn in Hk'.
    destruct st; cbn in Hst; try by destruct Hst.
    + by eapply advance_serve.
    + by eapply advance_receive.
Qed.
Lemma step_exists' s tally : Inv s tally → ¬ allRead jobs s → ∃ s', stp s s'.
Proof.
  intros HI Hf. destruct (decide (Forall (λ k, isRead (s.2 !! k) = true) jobs)) as [Ha|Hn].
  - exfalso. apply Hf. intros k Hk. by apply (proj1 (list.Forall_forall _ _) Ha k).
  - apply not_Forall_Exists, list.Exists_exists in Hn; [|apply _]. destruct Hn as (k&Hk&Hr).
    apply not_true_iff_false in Hr. by eapply step_exists.
Qed.

Lemma run_inv n s s' tally : Inv s tally → nsteps stp n s s' →
  (∃ tally', Inv s' tally') ∧ total jobs s' = (n + total jobs s)%nat.
Proof.
  intros HI Hn. revert tally HI. induction Hn as [s|n s1 s2 s3 H1 _ IH]; intros tally HI; [by eauto|].
  destruct (step_inv s1 s2 tally HI H1) as [[tally' HI'] Et].
  destruct (IH tally' HI') as [Hx Et']. split; [done|]. lia.
Qed.
Lemma rtc_inv s s' tally : Inv s tally → rtc stp s s' → ∃ tally', Inv s' tally'.
Proof. intros HI [n Hn]%rtc_nsteps. by destruct (run_inv n s s' tally HI Hn). Qed.

(** Any run can be finished. *)
Lemma run_completes s tally : Inv s tally → ∃ s', rtc stp s s' ∧ allRead jobs s'.
Proof.
  remember (5 * length jobs - total jobs s)%nat as g eqn:Eg. revert s tally Eg.
  induction g as [g IH] using lt_wf_ind. intros s tally -> HI. pose proof (total_le jobs s) as Hle.
  destruct (decide (total jobs s = 5 * length jobs)%nat) as [E|E].
  { exists s. split; [done|by apply total_allRead]. }
  destruct (step_exists' s tally HI) as [s1 H1].
  { intros Hf%total_allRead. done. }
  destruct (step_inv s s1 tally HI H1) as [[tally' HI'] Et]. pose proof (total_le jobs s1).
  destruct (IH (5 * length jobs - total jobs s1)%nat ltac:(lia) s1 tally' eq_refl HI') as (s'&Hr&Hf).
  exists s'. split; [|done]. by eapply rtc_l.
Qed.

(** No part panics; a run has five parts for each job, and gets to its end. *)
Lemma run_progress n s s' tally : Inv s tally → total jobs s = 0%nat → nsteps stp n s s' →
  (∀ now k e, k ∈ jobs → adv now k s' ≠ Panics e) ∧ (n ≤ 5 * length jobs)%nat ∧
  (n = (5 * length jobs)%nat ↔ allRead jobs s') ∧ (n < 5 * length jobs → ∃ s2, stp s' s2)%nat.
Proof.
  intros HI E0 Hn. destruct (run_inv n s s' tally HI Hn) as [[tally' HI'] Et].
  assert (n = total jobs s') as -> by lia. split_and!.
  - intros now k e Hk Ep. destruct (advance_cases now k s' tally' Hk HI') as [Hm|[[Hm _]|[Hm _]]].
    + destruct Hm as (st&n'&t&Hm&_). rewrite Ep in Hm. discriminate Hm.
    + rewrite Ep in Hm. discriminate Hm.
    + rewrite Ep in Hm. discriminate Hm.
  - apply total_le.
  - apply total_allRead.
  - intros Hlt. eapply step_exists'; [exact HI'|]. intros Hf%total_allRead. lia.
Qed.

(** At the start the connections are idle. *)
Lemma Inv_start h L :
  (∀ k, k ∈ jobs → reachable ids h L (jRoute (job k))) → (∀ k, k ∈ jobs → loaded k → stored L k) →
  (∀ k, k ∈ jobs → is_Some (shardsOf (job k)) → ReqMap h !! jReq (job k) = None) → Inv ((h, L), ∅) [].
Proof.
  intros Hr Hl Hc. split; cbn [fst snd].
  - intros k d p Hk E. split; [intros _; apply Hc; [done|]; unfold shardsOf; rewrite E; by eexists|].
    intros (k'&[st Hst]&_). by rewrite lookup_empty in Hst.
  - by apply list.NoDup_nil.
  - intros k. split; [by intros ?%not_elem_of_nil|]. by intros (st&E&_).
  - intros k. rewrite lookup_empty. by intros [].
  - intros k Hk. by destruct (Hr k Hk) as (_&_&?).
  - intros k Hk. by destruct (Hr k Hk) as (_&?&_).
  - intros k Hk. destruct (Hr k Hk) as ((cn&Hcn&Hw&Hi)&_). exists cn. split_and!; [done..|]. by rewrite Hw.
  - intros k Hk [E|(st&E&_)]; [by apply Hl|by rewrite lookup_empty in E].
  - intros k st E. by rewrite lookup_empty in E.
Qed.

(** ** What the clients read *)

Lemma read_set s tally k b' items : Inv s tally → s.2 !! k = Some (Read items) → jKind (job k) = JSet b' →
  items = IBulk <$> [sbytes (jReq (job k)); sbytes (ckid k); sbytes (pretty (ids (inst k)))].
Proof.
  intros HI E Ek. destruct (iv_stage _ _ HI k _ E) as (m&_&->). unfold rspOf, valueOf. by rewrite Ek.
Qed.

(** The chunks of a GET, in the order they were counted. *)
Definition arrivals (rq : string) tally : list K := filter (λ k, jReq (job k) = rq) tally.
Lemma arrivals_at rq tally n k :
  tally !! n = Some k → jReq (job k) = rq → arrivals rq tally !! countOf rq (take n tally) = Some k.
Proof.
  unfold arrivals, countOf. revert n. induction tally as [|k' tally IH]; intros [|n] Hn E; [done..| |].
  - injection Hn as ->. cbn [take]. by rewrite list.filter_cons, decide_True.
  - cbn [take]. rewrite !list.filter_cons. case_decide; cbn; by apply IH.
Qed.
Lemma read_get s tally k d p m items : Inv s tally → s.2 !! k = Some (Read items) → jKind (job k) = JGet d p →
  arrivals (jReq (job k)) tally !! m = Some k →
  items = streamed (jReq (job k)) (jChunk (job k)) (Z.of_nat m + 1) (Z.of_nat d) (b k).
Proof.
  intros HI E Ek Hm. destruct (iv_stage _ _ HI k _ E) as (m'&(n&Hn&Em)&Ei).
  assert (m' = m) as ->.
  { subst m'. pose proof (arrivals_at _ tally n k Hn eq_refl) as Ha.
    by eapply (NoDup_lookup (arrivals (jReq (job k)) tally)); [apply list.NoDup_filter, (iv_nodup _ _ HI)|..]. }
  rewrite Ei. unfold rspOf, valueOf. rewrite Ek. apply clientReads_get.
Qed.
End system.
