(* ===== verification/Operations.v ===== *)
(** * Operations of many clients, interleaved

    Any number of SETs and GETs of any objects, each with the requests of its
    chunks, are on their way at once.  A client may send an operation after
    others have been answered ([opAfter]), as it does when it reads an object
    that it wrote.  Their requests are the jobs of Interleave. *)

From stdpp Require Import pretty relations.
From S2P Require Import Prelude Lambdastore Request Instance Connection Responses Sending Proxy Meta Erasure Storage StorageAdapter LambdaHandler Migration Client ClientTheorems Wire WireTheorems Interleave.

Section operations.
Context (mem : Z) (ops : list Operation) (obj : string → nat → bytes) (ids : iptr → Z) (h : LHeap) (L : Lambdas).
#[local] Abbreviation Run := (Net * gmap (nat * nat) Stage)%type.
#[local] Abbreviation stp := (step mem (opsJob ops) (opsAfter ops) (opsJobs ops)).
Implicit Types (s : Run) (op : Operation) (o j : nat).

(** A chunk of the object of [op], with bytes [obj] says, is at its place. *)
Definition placed op j : Prop :=
  held L (opRoute op j).2 (ChunkKey (opMeta op) (Z.of_nat j)) =
  Some (pretty (Z.of_nat j), obj (Key (opMeta op)) j).
(** [op'] is on the same object as [op], and has the [j]-th chunk at the same
    place. *)
Definition sameChunk op op' j : Prop :=
  (opRoute op' j).2 = (opRoute op j).2 ∧ Key (opMeta op') = Key (opMeta op) ∧ (j < opShards op')%nat.

(** Operations have ids of their own; an object is written with the same bytes
    always; the numbers of chunks fit an int32; an operation follows earlier
    ones; a GET is for chunks that are stored, or that an operation it follows
    has; the instances are reachable, and no counters are left over. *)
Record ops_ok : Prop := {
  oo_req : NoDup (opReq <$> ops);
  oo_set : ∀ o op bs j, ops !! o = Some op → opKind op = OSet bs → (j < opShards op)%nat → bs j = obj (Key (opMeta op)) j;
  oo_small : ∀ o op, ops !! o = Some op → Z.of_nat (opShards op) < 2 ^ 31 - 1;
  oo_after : ∀ o op o', ops !! o = Some op → o' ∈ opAfter op → (o' < o)%nat;
  oo_get : ∀ o op j, ops !! o = Some op → opKind op = OGet → (j < opShards op)%nat →
    placed op j ∨ ∃ o' op', o' ∈ opAfter op ∧ ops !! o' = Some op' ∧ sameChunk op op' j;
  oo_routes : ∀ o op j, ops !! o = Some op → (j < opShards op)%nat → reachable ids h L (opRoute op j);
  oo_free : ∀ o op, ops !! o = Some op → opKind op = OGet → ReqMap h !! opReq op = None
}.

(** ** Their jobs *)

Lemma chunksOf_in o op k : ops !! o = Some op → k ∈ chunksOf ops o ↔ k.1 = o ∧ (k.2 < opShards op)%nat.
Proof.
  intros Ho. unfold chunksOf, opAt. rewrite Ho. cbn [default]. rewrite list_elem_of_fmap. split.
  - intros (j&->&[_ Hj]%elem_of_seq). done.
  - destruct k as [o' j]. cbn. intros [-> Hj]. exists j. split; [done|]. apply elem_of_seq. lia.
Qed.
Lemma opsJobs_in k : k ∈ opsJobs ops ↔ ∃ op, ops !! k.1 = Some op ∧ (k.2 < opShards op)%nat.
Proof.
  unfold opsJobs. rewrite list_elem_of_bind. split.
  - intros (o&Hk&[_ Ho]%elem_of_seq). destruct (lookup_lt_is_Some_2 ops o Ho) as [op Hop].
    apply (chunksOf_in o op) in Hk as [-> Hj]; eauto.
  - intros (op&Hop&Hj). exists k.1. split; [by apply (chunksOf_in _ op)|].
    apply elem_of_seq. apply lookup_lt_Some in Hop. lia.
Qed.
Lemma opsJob_at k op : ops !! k.1 = Some op → opsJob ops k = opJob op k.2.
Proof. unfold opsJob, opAt. by intros ->. Qed.
Lemma opsJobs_nodup : NoDup (opsJobs ops).
Proof.
  unfold opsJobs. apply NoDup_bind; [|intros o _; apply NoDup_fmap_2; [apply _|apply NoDup_seq]|apply NoDup_seq].
  intros o o' k _ _ Hk Hk'. unfold chunksOf in *. apply list_elem_of_fmap in Hk as (?&->&_), Hk' as (?&E&_). congruence.
Qed.

(** ** The operations make the jobs of Interleave *)

#[local] Abbreviation job := (opsJob ops).
#[local] Abbreviation jobs := (opsJobs ops).
Definition jobBytes (k : nat * nat) : bytes := obj (Key (opMeta (opAt ops k.1))) k.2.
Definition jobPlaced (k : nat * nat) : Prop := placed (opAt ops k.1) k.2.
Context (Hops : ops_ok).

Lemma op_inj o o' op op' : ops !! o = Some op → ops !! o' = Some op' → opReq op = opReq op' → o = o'.
Proof.
  intros Ho Ho' E. eapply (NoDup_lookup _ _ _ (opReq op) (oo_req Hops)).
  - by rewrite list_lookup_fmap, Ho.
  - by rewrite list_lookup_fmap, Ho', E.
Qed.
(** A job of an operation, by its id. *)
Lemma job_of o op k : ops !! o = Some op → k ∈ jobs → jReq (job k) = opReq op → k.1 = o ∧ (k.2 < opShards op)%nat.
Proof.
  intros Ho (op'&Ho'&Hj)%opsJobs_in E. rewrite (opsJob_at _ op' Ho') in E. cbn in E.
  assert (k.1 = o) as Ek by (by eapply op_inj). rewrite Ek, Ho in Ho'. by injection Ho' as ->.
Qed.
Lemma countOf_le o op : ops !! o = Some op → (countOf job (opReq op) jobs ≤ opShards op)%nat.
Proof.
  intros Ho. unfold countOf. transitivity (length (chunksOf ops o)).
  - apply submseteq_length, NoDup_submseteq; [apply list.NoDup_filter, opsJobs_nodup|].
    intros k [Er Hk]%list_elem_of_filter. apply (chunksOf_in _ op); [done|]. by apply job_of.
  - unfold chunksOf, opAt. rewrite length_fmap, length_seq, Ho. done.
Qed.
Lemma shardsOf_op op j d p : shardsOf (opJob op j) = Some (d, p) → opKind op = OGet ∧ d = opData op ∧ p = opParity op.
Proof. unfold shardsOf, opJob. cbn. destruct (opKind op); naive_solver. Qed.

Lemma ops_jobs_ok : jobs_ok job (opsAfter ops) jobs jobBytes jobPlaced fst.
Proof.
  split.
  - apply opsJobs_nodup.
  - intros [o j] [o' j'] Hk (op'&Ho'&_)%opsJobs_in Er Ec. rewrite (opsJob_at (o', j') op' Ho') in Er.
    destruct (job_of _ _ _ Ho' Hk Er) as [E1 _]. cbn in E1, Ec. by rewrite E1, Ec.
  - intros k k' Hk (op'&Ho'&_)%opsJobs_in Er. rewrite (opsJob_at k' op' Ho') in Er |- *.
    destruct (job_of _ _ _ Ho' Hk Er) as [E1 _]. rewrite (opsJob_at k op') by congruence. unfold shardsOf. cbn. by destruct (opKind op').
  - intros k d p (op&Ho&_)%opsJobs_in Ek. rewrite (opsJob_at k op Ho) in Ek |- *. cbn in Ek |- *.
    destruct (opKind op); [done|]. injection Ek as <- <-. split; [by apply (oo_small Hops k.1)|by eapply countOf_le].
  - intros k b' (op&Ho&Hj)%opsJobs_in Ek. rewrite (opsJob_at k op Ho) in Ek. unfold jobBytes, opAt. rewrite Ho.
    cbn in Ek |- *. destruct (opKind op) as [bs|] eqn:Eo; [|done]. injection Ek as <-. by eapply (oo_set Hops).
  - intros k k' _ _ E. unfold jobBytes. apply ChunkKey_injective in E as [E1 E2]. cbn in E1, E2.
    unfold opsJob in E2. cbn in E2. rewrite E2. f_equal. lia.
  - intros k (op&Ho&Hj)%opsJobs_in [[d p] Hd]. rewrite (opsJob_at k op Ho) in Hd |- *.
    apply shardsOf_op in Hd as (Eo&->&->). destruct (oo_get Hops _ _ _ Ho Eo Hj) as [Hp|(o'&op'&Ha&Ho'&Er&Ek&Hj')].
    { left. unfold jobPlaced, opAt. by rewrite Ho. }
    right. exists (o', k.2). rewrite (opsJob_at (o', k.2) op' Ho'). cbn. split_and!; [|done|].
    + unfold opsAfter, opAt. rewrite Ho. cbn. apply list_elem_of_bind. exists o'. split; [|done].
      by apply (chunksOf_in _ op').
    + by apply ChunkKey_injective.
  - intros k k' (op&Ho&_)%opsJobs_in Hk'. unfold opsAfter, opAt in Hk'. rewrite Ho in Hk'. cbn in Hk'.
    apply list_elem_of_bind in Hk' as (o'&Hk'&Ha). pose proof (oo_after Hops _ _ _ Ho Ha) as Hlt.
    destruct (lookup_lt_is_Some_2 ops o') as [op' Ho']; [apply lookup_lt_Some in Ho; lia|].
    apply (chunksOf_in _ op' _ Ho') in Hk' as [E Hj]. rewrite opsJobs_in, E. eauto.
Qed.

#[local] Abbreviation OInv := (Inv job jobs jobBytes ids jobPlaced).
Lemma ops_start : OInv ((h, L), ∅) [].
Proof.
  apply Inv_start.
  - intros k (op&Ho&Hj)%opsJobs_in. rewrite (opsJob_at k op Ho). by eapply (oo_routes Hops).
  - done.
  - intros k (op&Ho&_)%opsJobs_in [[d p] Hd]. rewrite (opsJob_at k op Ho) in Hd |- *.
    apply shardsOf_op in Hd as [Eo _]. by eapply (oo_free Hops).
Qed.
Lemma ops_inv s : rtc stp ((h, L), ∅) s → ∃ tally, OInv s tally.
Proof. apply (rtc_inv mem _ _ _ _ ids _ _ ops_jobs_ok _ _ _ ops_start). Qed.
Lemma ops_complete s : rtc stp ((h, L), ∅) s → ∃ s', rtc stp s s' ∧ allRead jobs s'.
Proof. intros [tally HI]%ops_inv. exact (run_completes mem _ _ _ _ ids _ _ ops_jobs_ok _ _ HI). Qed.

(** ** What the clients read *)

(** No reply to operation [o] is on its way to the client. *)
Definition settled s o : Prop := ∀ j r v, s.2 !! (o, j) ≠ Some (Replied r v).
(** The chunks of operation [o] whose replies the client has read. *)
Definition answers s o : list nat := filter (λ j, isRead (s.2 !! (o, j)) = true) (seq 0 (opShards (opAt ops o))).

Lemma itemsRead_some s o j : isRead (s.2 !! (o, j)) = true → ∃ l, s.2 !! (o, j) = Some (Read l) ∧ itemsRead s o j = Some l.
Proof. unfold itemsRead. destruct (s.2 !! (o, j)) as [[]|] eqn:E; cbn; try discriminate. intros _. eauto. Qed.
Lemma itemsRead_none s o j : isRead (s.2 !! (o, j)) ≠ true → itemsRead s o j = None.
Proof. unfold itemsRead. by destruct (s.2 !! (o, j)) as [[]|]. Qed.

Lemma set_answers s o op bs j : rtc stp ((h, L), ∅) s → ops !! o = Some op → opKind op = OSet bs →
  isRead (s.2 !! (o, j)) = true →
  itemsRead s o j =
    Some (IBulk <$> [sbytes (opReq op); sbytes (pretty (Z.of_nat j)); sbytes (pretty (ids (opRoute op j).2))]).
Proof.
  intros [tally HI]%ops_inv Ho Ek (l&Hl&->)%itemsRead_some. f_equal.
  rewrite (read_set _ _ _ _ _ s tally (o, j) (bs j) l HI Hl); rewrite (opsJob_at (o, j) op Ho); [done|].
  cbn. by rewrite Ek.
Qed.

(** The chunks of a GET that were read, in the order the proxy counted them. *)
Lemma get_answers s o op : rtc stp ((h, L), ∅) s → ops !! o = Some op → opKind op = OGet → settled s o →
  ∃ order, order ≡ₚ answers s o ∧
    (∀ m j, order !! m = Some j → itemsRead s o j =
       Some (streamed (opReq op) j (Z.of_nat m + 1) (Z.of_nat (opData op)) (obj (Key (opMeta op)) j))) ∧
    ∀ j, j ∉ order → itemsRead s o j = None.
Proof.
  intros [tally HI]%ops_inv Ho Ek Hset. set (arr := arrivals job (opReq op) tally).
  assert (Harr : ∀ k, k ∈ arr ↔ k.1 = o ∧ isRead (s.2 !! k) = true).
  { intros k. unfold arr, arrivals. rewrite list_elem_of_filter, (iv_tally _ _ _ _ _ _ _ HI). split.
    - intros (Er&st&Hst&Hc). destruct (job_of o op k Ho) as [Ek1 _]; [|done|].
      { apply (iv_jobs _ _ _ _ _ _ _ HI). by rewrite Hst. }
      split; [done|]. destruct k as [o' j]. cbn in Ek1. subst o'. rewrite Hst. destruct st; try by destruct Hc.
      by destruct (Hset j r value).
    - intros [Ek1 Hr]. destruct k as [o' j]. cbn in Ek1. subst o'. apply itemsRead_some in Hr as (l&Hl&_).
      rewrite (opsJob_at (o, j) op Ho). split; [done|]. eexists. by split. }
  assert (Hsnd : ∀ j, j ∈ arr.*2 ↔ isRead (s.2 !! (o, j)) = true).
  { intros j. rewrite list_elem_of_fmap. split.
    - intros ([o' j']&->&[E Hr]%Harr). cbn in E |- *. by subst o'.
    - intros Hr. exists (o, j). split; [done|]. by apply Harr. }
  exists arr.*2. split_and!.
  - apply list.NoDup_Permutation.
    + apply NoDup_fmap_2_strong; [|apply list.NoDup_filter, (iv_nodup _ _ _ _ _ _ _ HI)].
      intros [] [] [E1 _]%Harr [E2 _]%Harr E. cbn in *. congruence.
    + apply list.NoDup_filter, NoDup_seq.
    + intros j. unfold answers. rewrite Hsnd, list_elem_of_filter. split; [|tauto]. intros Hr. split; [done|].
      destruct (itemsRead_some _ _ _ Hr) as (l&Hl&_).
      assert ((o, j) ∈ jobs) as (op'&Ho'&Hj)%opsJobs_in by (apply (iv_jobs _ _ _ _ _ _ _ HI); by rewrite Hl).
      cbn in Ho', Hj. rewrite Ho in Ho'. injection Ho' as <-. unfold opAt. rewrite Ho. apply elem_of_seq. cbn. lia.
  - intros m j Hm. rewrite list_lookup_fmap in Hm. destruct (arr !! m) as [[o' j']|] eqn:Em; [|done].
    injection Hm as ->. assert ((o', j) ∈ arr) as [E Hr]%Harr by (by eapply list_elem_of_lookup_2).
    cbn in E. subst o'. destruct (itemsRead_some _ _ _ Hr) as (l&Hl&->). f_equal.
    pose proof (read_get job jobs jobBytes ids jobPlaced s tally (o, j) (opData op) (opParity op) m l HI Hl) as Hg.
    rewrite (opsJob_at (o, j) op Ho) in Hg. unfold jobBytes, opAt in Hg. cbn [fst snd] in Hg. rewrite Ho in Hg.
    apply Hg; [cbn; by rewrite Ek|done].
  - intros j Hj. apply itemsRead_none. by rewrite <- Hsnd.
Qed.
End operations.

(** C8: requests neither deadlock nor panic.  However the requests of any number
    of SETs and GETs of any clients are interleaved (requests may share
    connections, where one waits for the other's response, chunks and lambdas,
    and operations may follow others), no part of a request panics, each part
    leads to the next, and as long as some client has not read all its replies
    some request moves: every run that cannot go on consists of exactly five
    parts for each request and has delivered them all. *)
Theorem requests_progress mem ops obj ids h L n s :
  ops_ok ops obj ids h L →
  nsteps (step mem (opsJob ops) (opsAfter ops) (opsJobs ops)) n ((h, L), ∅) s →
  let most := (5 * length (opsJobs ops))%nat in
  (∀ now k e, k ∈ opsJobs ops → advance mem (opsJob ops) (opsAfter ops) now k s ≠ Panics e) ∧
  (n ≤ most)%nat ∧ (n = most ↔ allRead (opsJobs ops) s) ∧
  (n < most → ∃ s', step mem (opsJob ops) (opsAfter ops) (opsJobs ops) s s')%nat.
Proof.
  intros Hok Hn. eapply run_progress; [by eapply ops_jobs_ok|by eapply ops_start|apply total_start|exact Hn].
Qed.
