(* ===== verification/EndToEnd.v ===== *)
(** * End to end

    A chunk that the client's SET sent through the proxy to a lambda comes back
    with its GET; an object comes back from any [d] of its [d + p] lambdas,
    while other objects are set and read. *)

From stdpp Require Import pretty.
From S2P Require Import Prelude Lambdastore Request Instance Connection Responses Sending Group Meta Placer.
From S2P Require Import Clock Accounting PlacerInv PlacerSystem Fixtures PlacerTheorems Proxy ProxyTheorems Erasure ErasureTheorems.
From S2P Require Import Storage Lifetime Migrator StorageAdapter AdapterTheorems Session LambdaHandler HandlerTheorems Migration.
From S2P Require Import Client ClientTheorems Wire WireTheorems Interleave Operations.

(** ** What the client reads *)

Lemma not_late j : pretty (Z.of_nat j) ≠ "-1".
Proof.
  intros E. change "-1" with (pretty (-1)) in E. apply (inj pretty) in E. lia.
Qed.
Lemma rec_chunk rq j b :
  recResult rq (recIO (IBulk <$> [sbytes rq; sbytes (pretty (Z.of_nat j)); b])) = Some (RetBytes b).
Proof.
  unfold recResult, recIO. cbn [fmap list_fmap rPeek rReqId rChunkId rStream rAll bulkOf lookup list_lookup].
  rewrite !string_sbytes, decide_False by naive_solver. rewrite decide_False by apply not_late. done.
Qed.
Lemma rec_late rq : recResult rq (recIO (IBulk <$> [sbytes rq; sbytes "-1"])) = None.
Proof.
  unfold recResult, recIO. cbn [fmap list_fmap rPeek rReqId rChunkId rStream rAll bulkOf lookup list_lookup].
  rewrite !string_sbytes, decide_False by naive_solver. by rewrite decide_True.
Qed.

Lemma pretty_nat_Z (i : nat) : pretty i = pretty (Z.of_nat i).
Proof. destruct i; [done|]. unfold pretty, pretty_nat, pretty_Z. by cbn [Z.of_nat N.of_nat]. Qed.

Section frames.
Context {E : Type} `{Encoder E}.
Implicit Types (cl : Client E).

(** The numbers of a command fit an int. *)
Definition sized cl (i : nat) : Prop :=
  is_i64 (Z.of_nat i) ∧ is_i64 (cDataShards cl) ∧ is_i64 (cParityShards cl).

Lemma readClient_set cl key i lam rq b : sized cl i → is_i64 lam →
  readClient (setFrame cl key i lam rq ++ [CCopyBulk b; CFlush]) =
  Some (CSet "set" (MkSetArgs key (Z.of_nat i) lam MaxLambdaStores rq (cDataShards cl) (cParityShards cl)) b).
Proof.
  intros (H1&H2&H3) H4. unfold readClient, setFrame. cbn [app bulkStrings bulkStream omap list_omap head].
  rewrite decide_True by done. rewrite pretty_nat_Z, !Atoi_pretty by done. done.
Qed.
Lemma readClient_get cl key i rq : sized cl i →
  readClient (getFrame cl key i rq ++ [CFlush]) =
  Some (CGet "get" (MkGetArgs key (Z.of_nat i) rq (cDataShards cl) (cParityShards cl))).
Proof.
  intros (H1&H2&H3). unfold readClient, getFrame. cbn [app].
  rewrite decide_True by done. rewrite pretty_nat_Z, !Atoi_pretty by done. done.
Qed.
End frames.

(** ** A chunk *)

Section chunk.
Context {H : Type} {HM : HashMap string mptr H} {HL : HashMapLaws string mptr H}.
Context {E : Type} `{Encoder E}.
Implicit Types (st : Store H) (cl : Client E).

Definition heapOf st : LHeap := ls (sh st.1).
Definition setHeap (h : LHeap) st : Store H := (st.1 <| sh ::= (λ s, s <| ls := h |>) |>, st.2).

(** The answer to a GET whose chunk the lambda of its instance holds. *)
Lemma get_answered mem now st m x pm z ip cl key i rq connId c L l b :
  hm_Get st.2 key = Some m → live st.1 m x pm → zlookup (confirmed pm) (Z.of_nat i) = Some true →
  zlookup (pl (Placement_ x)) (Z.of_nat i) = Some z → loc_of st.1 z = Some ip →
  sized cl i → 1 ≤ cDataShards cl → 0 ≤ cParityShards cl → cDataShards cl + cParityShards cl < 2 ^ 31 →
  ReqMap (heapOf st) !! rq = None → linked c ip (heapOf st) →
  L !! ip = Some l → up l → chunkAt l (ChunkKey x (Z.of_nat i)) = Some (pretty (Z.of_nat i), b) →
  ∃ r st' items n', serveClient 0 None "" connId (getFrame cl key i rq ++ [CFlush]) st =
      Done (inr (PSend ip (CRequest r) ended), st') ∧
    roundTrip mem now c ip r [] (heapOf st', L) = Done (items, n') ∧
    recResult rq (recIO items) = Some (RetBytes b).
Proof.
  intros Hk Hl Hc Hz Hip Hsz Hd Hp Hdp Hrq Hlink HLi Hup Hch.
  unfold serveClient. rewrite readClient_get by done.
  set (a := MkGetArgs key (Z.of_nat i) rq (cDataShards cl) (cParityShards cl)).
  destruct (HandleGet_run connId "get" a st m x pm z ip) as (r&st'&Hg&Hh); [done..|].
  exists r, st'. fold (heapOf st') in Hh. fold (heapOf st) in Hh.
  set (req := chunkRequest _ _ _ _ _) in Hh.
  destruct (get_trip mem now c ip (heapOf st') L l) with (r := r) (x := req) (b := b)
    (ctr := MkCounter "get" (cDataShards cl) (cParityShards cl) 0) as (h'&l'&Ht&_); try done.
  - by rewrite Hh.
  - rewrite Hh. apply lookup_insert_eq.
  - rewrite Hh. cbn. rewrite Hrq. apply lookup_insert_eq.
  - unfold small. cbn. lia.
  - eexists _, _. split; [exact Hg|]. split; [exact Ht|]. unfold nthItems. cbn [Counter DataShards].
    rewrite decide_True by lia. apply rec_chunk.
Qed.

(** C4: a chunk that was set comes back.  When the proxy has taken a client's SET
    of a chunk and sent its request to an instance whose connection is idle
    and whose lambda is serving, the request is framed, stored by the lambda,
    acknowledged and matched, so that the client reads the id of the instance's
    deployment; a later GET of the chunk is sent to the same instance, served
    from the lambda's store and matched, and the client reads exactly the
    bytes it had set. *)
Theorem chunk_end_to_end mem now now' n bs fuel pick uuid st st1 cl key i lam rq rq' b connId connId' ip r c L l id :
  SInv n bs (quiet st) → sized cl i → is_i64 lam →
  1 ≤ cDataShards cl → 0 ≤ cParityShards cl → cDataShards cl + cParityShards cl = Z.of_nat n → Z.of_nat n < 2 ^ 31 →
  serveClient fuel pick uuid connId (setFrame cl key i lam rq ++ [CCopyBulk b; CFlush]) st =
    Done (inr (PSend ip (CRequest r) ended), st1) →
  linked c ip (heapOf st1) → instanceId (heapOf st1) ip = Some id → L !! ip = Some l → up l →
  ReqMap (heapOf st1) !! rq' = None →
  ∃ items h2 L2, roundTrip mem now c ip r b (heapOf st1, L) = Done (items, (h2, L2)) ∧
    recResult rq (recIO items) = Some (RetBytes (sbytes (pretty id))) ∧
    ∃ r' st3 items' n4,
      serveClient 0 None "" connId' (getFrame cl key i rq' ++ [CFlush]) (setHeap h2 st1) =
        Done (inr (PSend ip (CRequest r') ended), st3) ∧
      roundTrip mem now' c ip r' [] (heapOf st3, L2) = Done (items', n4) ∧
      recResult rq' (recIO items') = Some (RetBytes b).
Proof.
  intros HS Hsz Hlam Hd Hp Hn Hn31 Hset Hlink Hid HLi Hup Hrq.
  unfold serveClient in Hset. rewrite readClient_set in Hset by done.
  set (a := MkSetArgs key (Z.of_nat i) lam MaxLambdaStores rq (cDataShards cl) (cParityShards cl)) in *.
  destruct (HandleSet_sends n bs fuel pick uuid connId "set" a (Z.of_nat (length b)) st
    (PSend ip (CRequest r) ended) st1 1 [(ip, CRequest r)] st1) as (m&x&pm&z&ip'&r0&l0&El&Hk&Hl&Hc&Hz&Hip&Hr);
    [done| |done|done|].
  { cbn. rewrite Hn. apply i64_small. unfold is_i64. lia. }
  assert (l0 = [] ∧ ip' = ip ∧ r0 = r) as (->&->&->).
  { destruct l0 as [|? [|??]]; [by injection El as -> ->|discriminate El..]. }
  set (req := chunkRequest _ _ _ _ _) in Hr.
  destruct (set_trip mem now c ip (heapOf st1) L l) with (r := r) (x := req) (b := b) (id := id)
    as (h2&l2&Ht&[Hk2 _]&Hm2&Hup2&Hc2); try done.
  exists (IBulk <$> [sbytes rq; sbytes (pretty (Z.of_nat i)); sbytes (pretty id)]), h2, (<[ip := l2]> L).
  split; [exact Ht|]. split; [apply rec_chunk|].
  destruct (get_answered mem now' (setHeap h2 st1) m x pm z ip cl key i rq' connId' c (<[ip := l2]> L) l2 b)
    as (r'&st3&items'&n4&?&?&?); try done.
  - lia.
  - cbn. by rewrite Hm2.
  - by apply Hk2.
  - by rewrite lookup_insert_eq.
  - rewrite Hc2. cbn. by rewrite decide_True.
  - by exists r', st3, items', n4.
Qed.
End chunk.

(** ** An object *)

Lemma length_filter_fmap {A B} (f : A → B) (P : B → Prop) `{∀ x, Decision (P x)} (l : list A) :
  length (filter P (f <$> l)) = length (filter (λ x, P (f x)) l).
Proof.
  induction l as [|x l IH]; [done|]. cbn [fmap list_fmap]. rewrite !list.filter_cons. case_decide; cbn; lia.
Qed.

(** Distinct shards that are there are counted. *)
Lemma present_ge (part : list shard) js :
  NoDup js → (∀ j, j ∈ js → ∃ b, part !! j = Some (Some b)) → (length js ≤ present part)%nat.
Proof.
  intros Hnd Hjs. unfold present.
  assert (part = (λ j, default None (part !! j)) <$> seq 0 (length part)) as Ep.
  { apply list_eq. intros j. rewrite list_lookup_fmap. destruct (part !! j) as [s|] eqn:Ej.
    - rewrite lookup_seq_lt by (by eapply lookup_lt_Some). cbn. by rewrite Ej.
    - apply lookup_ge_None in Ej. by rewrite lookup_seq_ge. }
  rewrite Ep, length_filter_fmap. apply submseteq_length, NoDup_submseteq; [done|].
  intros j Hj. destruct (Hjs j Hj) as [b Hb]. apply list_elem_of_filter. rewrite Hb. split; [done|].
  apply in_seq. by eapply lookup_lt_Some.
Qed.

Section object.
Context {E : Type} {HE : Encoder E} (enc : E) (d p : nat) {EC0 : ErasureCode E enc d p}.
Implicit Types (cl : Client E) (items : nat → option (list Item)).
#[local] Abbreviation n := (d + p)%nat.

Definition shardBytes (full : list shard) (j : nat) : bytes := default [] (default None (full !! j)).

Lemma set_read items lost uuid cn (ids : nat → Z) j :
  items j = Some (IBulk <$> [sbytes uuid; sbytes (pretty (Z.of_nat j)); sbytes (pretty (ids j))]) →
  setResult uuid cn (shardIO items lost j) = Some (RetBytes (sbytes (pretty (ids j)))).
Proof.
  intros Hj. unfold shardIO. rewrite Hj. unfold setResult. cbn [sDial sCopy sFlush sRec].
  rewrite rec_chunk. by destruct cn.
Qed.

Lemma placements_read (ids : nat → Z) (js : list nat) : (∀ j, is_i64 (ids j)) →
  placementsOf ((λ j, Some (RetBytes (sbytes (pretty (ids j))))) <$> js) = Done (ids <$> js).
Proof.
  intros Hi. induction js as [|j js IH]; [done|]. cbn [fmap list_fmap placementsOf]. 
  rewrite IH, string_sbytes, Atoi_pretty by done. done.
Qed.

(** A SET whose chunks made their trips. *)
Lemma set_object host uuid perm order lost items key val full cl l (ids : nat → Z) :
  EC cl = enc → Shards cl = Z.of_nat n → Conns cl !! host = Some l → length l = n →
  (n ≤ length perm)%nat → order ≡ₚ seq 0 n → encodes enc val full → (∀ j, is_i64 (ids j)) →
  (∀ j, (j < n)%nat → items j =
     Some (IBulk <$> [sbytes uuid; sbytes (pretty (Z.of_nat j)); sbytes (pretty (ids j))])) →
  ∃ l2, length l2 = n ∧
    EcSet host uuid perm order (shardIO items lost) 0 true key val cl =
    Done (true, Some (ids <$> seq 0 n), upd host l2 (cl <| Data ::= (λ x, x <| deReqId := uuid |>) |>)).
Proof.
  intros He Hn Hl Hlen Hperm Hord Hfull Hids Hitems.
  destruct (EcSet_run enc d p host uuid perm order (shardIO items lost) true key val full cl l)
    as (l2&r&El&Hrun&Hf); [done..|]. exists l2. split; [done|]. rewrite Hrun. unfold setAnswer.
  assert (Err r = None) as ->.
  { apply (finished_ok _ _ _ _ _ n Hlen Hord Hf). intros j cn e Hj.
    rewrite (set_read _ _ _ _ ids) by (apply Hitems; apply lookup_lt_Some in Hj; lia). done. }
  assert (Rets r = (λ j, Some (RetBytes (sbytes (pretty (ids j))))) <$> seq 0 n) as ->.
  { apply list_eq. intros j. rewrite list_lookup_fmap. destruct (decide (j < n)%nat) as [Hj|Hj].
    - rewrite lookup_seq_lt by done. destruct (lookup_lt_is_Some_2 l j) as [cn Hcn]; [lia|].
      rewrite (fi_slot _ _ _ _ _ Hf j cn) by (done || by rewrite Hord; apply in_seq).
      by rewrite (set_read _ _ _ _ ids) by auto.
    - rewrite lookup_seq_ge by lia. apply lookup_ge_None. rewrite (fi_length _ _ _ _ _ Hf).
      cbn. rewrite length_replicate. lia. }
  by rewrite placements_read.
Qed.

(** A GET of which the chunks in [answering] made their trips, in this order. *)
Definition missing (uuid : string) (lost : nat → ShardIO) (s : Net * gmap (nat * nat) Stage) (g : nat) : Prop :=
  ∀ j cn, isRead (s.2 !! (g, j)) = false → Ret_Ret (getResult uuid cn (lost j)) = None.
Definition answered_by items (uuid : string) (full : list shard) (answering : list nat) : Prop :=
  (∀ m j, answering !! m = Some j →
     items j = Some (streamed uuid j (Z.of_nat m + 1) (Z.of_nat d) (shardBytes full j))) ∧
  ∀ j, j ∉ answering → items j = None.

Lemma get_read items lost uuid full answering cn m j :
  answered_by items uuid full answering → answering !! m = Some j →
  getResult uuid cn (shardIO items lost j) =
  if decide (m < d)%nat then Some (RetBytes (shardBytes full j)) else None.
Proof.
  intros [Ha _] Hm. unfold shardIO. rewrite (Ha m j Hm). unfold getResult. cbn [sDial sFlush sRec].
  unfold streamed. repeat case_decide; try lia; rewrite ?rec_chunk, ?rec_late; by destruct cn.
Qed.
Lemma lost_read items lost uuid full answering cn j :
  answered_by items uuid full answering → Ret_Ret (getResult uuid cn (lost j)) = None → j ∉ answering →
  Ret_Ret (getResult uuid cn (shardIO items lost j)) = None.
Proof. intros [_ Ha] Hl Hj. unfold shardIO. by rewrite Ha. Qed.

Lemma arrived_lookup uuid io (l : list (option Conn)) j :
  arrived uuid io l !! j = (λ cn, Ret_Ret (getResult uuid cn (io j))) <$> l !! j.
Proof. unfold arrived, results. rewrite list_lookup_fmap, list_lookup_imap. by destruct (l !! j). Qed.

Lemma get_arrived items lost uuid val full answering (l : list (option Conn)) :
  encodes enc val full → length l = n → NoDup answering → (∀ j, j ∈ answering → (j < n)%nat) →
  (d ≤ length answering)%nat → (∀ j cn, j ∉ answering → Ret_Ret (getResult uuid cn (lost j)) = None) → answered_by items uuid full answering →
  let part := arrived uuid (shardIO items lost) l in partial part full ∧ (d ≤ present part)%nat.
Proof.
  intros Hc Hlen Hnd Hin Hd Hlost Ha part.
  assert (Hb : ∀ j, (j < n)%nat → full !! j = Some (Some (shardBytes full j))).
  { intros j Hj. destruct (ec_nonempty val full j Hc Hj) as (b&Hb&_). unfold shardBytes. by rewrite Hb. }
  split.
  - apply Forall2_same_length_lookup. split.
    { unfold part, arrived, results. by rewrite length_fmap, length_imap, (ec_length val full). }
    intros j x y Hx Hy. unfold part in Hx. rewrite arrived_lookup in Hx.
    destruct (l !! j) as [cn|] eqn:Ej; [|done]. apply lookup_lt_Some in Ej. injection Hx as <-.
    destruct (decide (j ∈ answering)) as [Hj|Hj].
    + apply list_elem_of_lookup_1 in Hj as [m Hm]. rewrite (get_read _ _ _ _ _ _ m j Ha Hm).
      case_decide; [right|by left]. cbn. rewrite Hb in Hy by lia. by injection Hy as <-.
    + left. eapply lost_read; [done| |done]. by apply Hlost.
  - rewrite <- (length_take_le answering d) by done. apply present_ge.
    { eapply sublist_NoDup; [exact Hnd|apply sublist_take]. }
    intros j [m Hm]%list_elem_of_lookup_1. apply lookup_take_Some in Hm as [Hm Hmd].
    exists (shardBytes full j). unfold part. rewrite arrived_lookup.
    destruct (lookup_lt_is_Some_2 l j) as [cn ->].
    { rewrite Hlen. apply Hin. by eapply list_elem_of_lookup_2. }
    cbn. by rewrite (get_read _ _ _ _ _ _ m j Ha Hm), decide_True.
Qed.

(** The client's side of an operation: its coding, and its connections to the
    proxy [host]. *)
Definition talksTo cl (host : string) : Prop :=
  EC cl = enc ∧ Shards cl = Z.of_nat n ∧ ∃ l, Conns cl !! host = Some l ∧ length l = n.

(** C1: an object that was set comes back from any [d] of its lambdas.  Any
    number of SETs and GETs of any clients and objects are on their way at once,
    their requests interleaved in any manner over instances that are reachable,
    and from every state they can be finished.  Among them are a SET of an
    object and a GET of it, perhaps by another client.  In every state in which
    the SET's replies were read, it succeeds and reports the deployments.  In
    every state in which no reply of the GET is on its way to its client and at
    least [d] chunks were read, while its other requests failed in whatever way
    or are stuck at the proxy, on the wire or at their lambdas, the client has
    all the shards of the object, from which its bytes are read.  The counter
    that the chunks of the GET share streams the first [d] that arrive and cuts
    the others short. *)
Theorem object_end_to_end mem ops obj ids h (L : Lambdas) o g so go
    host host' uuid'' perm order order' lost io' reorder val full cl cl' :
  ops_ok ops obj ids h L → (∀ i, is_i64 (ids i)) →
  ops !! o = Some so → opKind so = OSet (shardBytes full) → opData so = d → opParity so = p →
  ops !! g = Some go → opKind go = OGet → opData go = d → opParity go = p → Key (opMeta go) = Key (opMeta so) →
  talksTo cl host → talksTo cl' host' → encodes enc val full →
  (n ≤ length perm)%nat → order ≡ₚ seq 0 n → order' ≡ₚ seq 0 n → (∀ xs, reorder xs ≡ₚ xs) →
  let run := rtc (step mem (opsJob ops) (opsAfter ops) (opsJobs ops)) in
  ∀ s, run ((h, L), ∅) s →
    (∃ s', run s s' ∧ allRead (opsJobs ops) s') ∧
    (allRead (chunksOf ops o) s → ∃ c,
      EcSet host (opReq so) perm order (shardIO (itemsRead s o) lost) 0 true (Key (opMeta so)) val cl =
        Done (true, Some ((λ j, ids (opRoute so j).2) <$> seq 0 n), c)) ∧
    (settled s g → (d ≤ length (answers ops s g))%nat → missing (opReq go) lost s g → ∃ c,
      EcGet host' (opReq go) uuid'' order' (shardIO (itemsRead s g) lost) io' reorder 0 (Key (opMeta so)) cl' =
        Done (Some full, true, c) ∧
      ∃ ws, Join noError enc full (Z.of_nat (length val)) = Done (ws, None) ∧ concat ws = val).
Proof.
  intros Hok Hids Ho Eo Ed Ep Hg Eg Ed' Ep' Ekey (He&Hn&l&Hl&Hlen) (He'&Hn'&l'&Hl'&Hlen') Hfull Hperm Hord Hord' Hre
    run s Hrun. split_and!; [by eapply ops_complete| |].
  - intros Hall. destruct (set_object host (opReq so) perm order lost (itemsRead s o) (Key (opMeta so)) val full cl l
      (λ j, ids (opRoute so j).2)) as (l2&_&Hset); [done..| |by eexists].
    intros j Hj. eapply set_answers; [exact Hok|exact Hrun|done..|]. apply Hall, (chunksOf_in _ _ so); [done|].
    unfold opShards. cbn. lia.
  - intros Hs Hd Hlost. destruct (get_answers mem ops obj ids h L Hok s g go) as (answering&Hperm'&Ha&Hna); [done..|].
    assert (Hin : ∀ j, j ∈ answering → isRead (s.2 !! (g, j)) = true ∧ (j < n)%nat).
    { intros j Hj. rewrite Hperm' in Hj. apply list_elem_of_filter in Hj as [Hr [_ Hj]%elem_of_seq].
      unfold opAt, opShards in Hj. rewrite Hg in Hj. cbn in Hj. split; [done|lia]. }
    destruct (get_arrived (itemsRead s g) lost (opReq go) val full answering l') as [Hp Hpd]; [done..| | | | | |].
    + rewrite Hperm'. apply list.NoDup_filter, NoDup_seq.
    + intros j Hj. by apply Hin.
    + by rewrite Hperm'.
    + intros j cn Hj. apply Hlost. apply not_true_iff_false. intros Hr. destruct (itemsRead_some _ _ _ Hr) as (?&_&Hi).
      by rewrite (Hna j Hj) in Hi.
    + split; [|done]. intros m j Hm. rewrite (Ha m j Hm), Ed', Ekey. do 2 f_equal.
      rewrite <- (oo_set _ _ _ _ _ Hok o so _ j Ho Eo); [done|]. unfold opShards. rewrite Ed, Ep. apply Hin.
      by eapply list_elem_of_lookup_2.
    + destruct (EcGet_enough enc d p host' (opReq go) uuid'' order' (shardIO (itemsRead s g) lost) io' reorder
        (Key (opMeta so)) cl' l' val full) as (c&Hget&_); try done.
      exists c. split; [exact Hget|]. by apply (full_joins enc d p).
Qed.
End object.

(** ** Witnesses *)

#[local] Open Scope string_scope.
(** A lambda in an invocation, with an empty store. *)
Definition servingLambda : Lambda (gmap string Chunk) :=
  MkLambda (Lifetime_New 0 LIFESPAN)
    (MkSessions [MkSession "s" 0 None (Start 0 (NewTimeout TICK_10_ERROR 0 TICK_10_ERROR_EXTEND)) None false]
       (Some 0%nat)) ∅ 7 "" None [] false "" 0 [] [] [].
Lemma servingLambda_up : up servingLambda.
Proof. split; [exists 0%nat; split; [done|by eexists]|apply keyed_New]. Qed.

(** Two instances, each with its connection, and their lambdas. *)
Definition inst (k : nat) : Instance :=
  MkInstance k (MkLMeta 0 0) (Some k) [] INSTANCE_AWAKE false (Some k) false [].
Definition twoHeap : LHeap :=
  MkLHeap {[ 0%nat := MkDeployment "Node5" 5 false; 1%nat := MkDeployment "Node6" 6 false ]}
    {[ 0%nat := inst 0; 1%nat := inst 1 ]}
    {[ 0%nat := MkConnection (Some 0%nat) [] false false []; 1%nat := MkConnection (Some 1%nat) [] false false [] ]}
    ∅ ∅ [] 0.
Definition twoLambdas : Lambdas := {[ 0%nat := servingLambda; 1%nat := servingLambda ]}.
Definition theMeta : Meta := zeroMeta <| Key := "k" |>.
Definition twoIds (j : nat) : Z := match j with O => 5 | 1%nat => 6 | _ => 0 end.

Lemma two_reachable i : (i < 2)%nat → reachable twoIds twoHeap twoLambdas (i, i).
Proof.
  intros Hi. assert (i = 0 ∨ i = 1)%nat as [->| ->] by lia.
  all: split_and!; [by eexists|exists servingLambda; split; [done|apply servingLambda_up]|done].
Qed.

(** A client sets object k and then gets it, while another one sets object m on
    the same instances. *)
Abbreviation bA := (Byte.x61).
Definition copies : list shard := [Some [bA]; Some [bA]].
Definition others : list shard := [Some [Byte.x62]; Some [Byte.x62]].
Definition objects (key : string) : nat → bytes := shardBytes (if decide (key = "k") then copies else others).
Definition theSet : Operation :=
  MkOperation (OSet (shardBytes copies)) "u" theMeta 1 1 (λ j, (j, j)) (λ _, 9) [].
Definition theOther : Operation :=
  MkOperation (OSet (shardBytes others)) "x" (zeroMeta <| Key := "m" |>) 1 1 (λ j, (1 - j, 1 - j)%nat) (λ _, 10) [].
Definition theGet : Operation := MkOperation OGet "v" theMeta 1 1 (λ j, (j, j)) (λ _, 11) [0%nat].
Definition threeOps : list Operation := [theSet; theOther; theGet].

Lemma threeOps_ok : ops_ok threeOps objects twoIds twoHeap twoLambdas.
Proof.
  assert (Hc : ∀ o op, threeOps !! o = Some op →
    o = 0%nat ∧ op = theSet ∨ o = 1%nat ∧ op = theOther ∨ o = 2%nat ∧ op = theGet).
  { intros [|[|[|o]]] op Ho; [injection Ho as <-; tauto..|done]. }
  split.
  - by apply (bool_decide_eq_true_1 (NoDup (opReq <$> threeOps))).
  - intros o op bs j Ho Ek _. destruct (Hc o op Ho) as [[_ ->]|[[_ ->]|[_ ->]]]; [by injection Ek as <-..|done].
  - intros o op Ho. by destruct (Hc o op Ho) as [[_ ->]|[[_ ->]|[_ ->]]].
  - intros o op o' Ho Ha. destruct (Hc o op Ho) as [[-> ->]|[[-> ->]|[-> ->]]]; cbn in Ha; [by apply not_elem_of_nil in Ha..|].
    apply list_elem_of_singleton in Ha. lia.
  - intros o op j Ho Ek Hj. destruct (Hc o op Ho) as [[_ ->]|[[_ ->]|[_ ->]]]; [done..|]. right.
    exists 0%nat, theSet. split; [by left|]. by split.
  - intros o op j Ho Hj. destruct (Hc o op Ho) as [[_ ->]|[[_ ->]|[_ ->]]]; apply two_reachable; cbn in *; lia.
  - done.
Qed.

#[local] Abbreviation threeStep := (step 2048 (opsJob threeOps) (opsAfter threeOps) (opsJobs threeOps)).
#[local] Abbreviation threeTurns := (schedule 2048 (opsJob threeOps) (opsAfter threeOps)).
#[local] Abbreviation threeStart := ((twoHeap, twoLambdas), ∅).
#[local] Abbreviation Run := (Net * gmap (nat * nat) Stage)%type.
#[local] Open Scope nat_scope.
(** Chunk 0 of m waits for the connection that chunk 1 of k is on, and the two
    chunks of k take turns. *)
Definition firstTurns : list (Z * (nat * nat)) := [(0%Z, (0, 1)); (0%Z, (1, 0)); (1%Z, (0, 1))].
(** Of the GET, chunk 1 is read while the request of chunk 0 is stuck at its
    lambda. *)
Definition moreTurns : list (Z * (nat * nat)) := firstTurns ++
  [(1%Z, (0, 0)); (1%Z, (0, 0)); (2%Z, (0, 1)); (3%Z, (0, 1)); (3%Z, (1, 0)); (3%Z, (0, 0)); (4%Z, (0, 0)); (4%Z, (0, 0)); (4%Z, (0, 1));
   (5%Z, (2, 0)); (5%Z, (2, 1)); (5%Z, (1, 0)); (6%Z, (2, 0)); (6%Z, (1, 0)); (6%Z, (2, 1)); (7%Z, (2, 1)); (8%Z, (2, 1)); (9%Z, (2, 1))].

Definition isReplied (st : Stage) : bool := match st with Replied _ _ => true | _ => false end.
Definition stuck (s : Run) : bool :=
  isRead (s.2 !! (0, 0)) && isRead (s.2 !! (0, 1)) && negb (isRead (s.2 !! (2, 0))) && isRead (s.2 !! (2, 1)) &&
  bool_decide (map_Forall (λ k st, k.1 = 2 → isReplied st = false) s.2).
Definition reaches (l : list (Z * (nat * nat))) (test : Run → bool) : bool :=
  match threeTurns l threeStart with Done (_, s) => test s | _ => false end.
Lemma reaches_run l test : forallb (λ x, bool_decide (x.2 ∈ opsJobs threeOps)) l = true → reaches l test = true →
  ∃ s, nsteps threeStep (length l) threeStart s ∧ test s = true.
Proof.
  unfold reaches. intros Hl Ht. destruct (threeTurns l threeStart) as [[[] s]|?|] eqn:E; [|discriminate Ht..].
  exists s. split; [by eapply schedule_steps|done].
Qed.
#[local] Open Scope Z_scope.

Lemma object_end_to_end_witness : ∃ s c c',
  rtc threeStep threeStart s ∧ stuck s = true ∧
  EcSet "h" "u" [4; 2; 7] [1%nat; 0%nat] (shardIO (itemsRead s 0) (λ _, broken)) 0 true "k" [bA] mirrorClient =
    Done (true, Some [5; 6], c) ∧
  EcGet "h" "v" "w" [0%nat; 1%nat] (shardIO (itemsRead s 2) (λ _, broken)) (λ _, broken) (λ xs, xs) 0 "k" mirrorClient =
    Done (Some copies, true, c') ∧
  ∃ ws, Join noError mirror copies 1 = Done (ws, None) ∧ concat ws = [bA].
Proof.
  destruct (reaches_run moreTurns stuck) as (s&Hn&Hs); [vm_compute; reflexivity..|].
  assert (Hr : rtc threeStep threeStart s) by (apply rtc_nsteps; exists (length moreTurns); exact Hn).
  assert (Hc : talksTo mirror 1 1 mirrorClient "h").
  { split; [reflexivity|]. split; [reflexivity|]. eexists. split; reflexivity. }
  destruct (object_end_to_end mirror 1 1 2048 threeOps objects twoIds twoHeap twoLambdas 0 2 theSet theGet "h" "h" "w"
    [4; 2; 7] [1%nat; 0%nat] [0%nat; 1%nat] (λ _, broken) (λ _, broken) (λ xs, xs) [bA] copies mirrorClient mirrorClient)
    with (s := s) as (_&Hset&Hget); try reflexivity.
  - exact threeOps_ok.
  - intros [|[|i]]; cbn; unfold is_i64; lia.
  - exact Hc.
  - exact Hc.
  - by apply mirror_encodes.
  - cbn. lia.
  - apply Permutation_swap.
  - exact Hr.
  - pose proof Hs as Ht. unfold stuck in Ht. repeat (apply andb_true_iff in Ht as [Ht ?]).
    destruct Hset as [c Hset].
    { intros k Hk. cbn in Hk. apply elem_of_cons in Hk as [->|Hk]; [done|]. by apply list_elem_of_singleton in Hk as ->. }
    destruct Hget as (c'&Hget&Hj).
    + intros j r v E. match goal with H : bool_decide _ = true |- _ => apply bool_decide_eq_true_1 in H;
        pose proof (H (2%nat, j) _ E eq_refl) as F; discriminate F end.
    + unfold answers. change (seq 0 (opShards (opAt threeOps 2))) with [0%nat; 1%nat].
      rewrite list.filter_cons, decide_False by (by apply not_true_iff_false, negb_true_iff).
      rewrite list.filter_cons, decide_True by done. cbn. lia.
    + intros j [cn|] _; reflexivity.
    + exists s, c, c'. split; [exact Hr|]. split; [exact Hs|]. split; [exact Hset|]. split; [exact Hget|exact Hj].
Defined.

(** The request of another operation is on the connection. *)
Definition waitsTurn (s : Run) : bool :=
  match advance 2048 (opsJob threeOps) (opsAfter threeOps) 3 (1%nat, 0%nat) s with Spins => true | _ => false end.
Lemma requests_progress_witness : ∃ s s',
  nsteps threeStep 3 threeStart s ∧ waitsTurn s = true ∧ threeStep s s'.
Proof.
  destruct (reaches_run firstTurns waitsTurn) as (s&Hn&Hw); [vm_compute; reflexivity..|].
  destruct (requests_progress 2048 threeOps objects twoIds twoHeap twoLambdas 3 s threeOps_ok Hn) as (_&_&_&Hs).
  destruct Hs as [s' Hs]; [cbn; lia|]. exists s, s'. split; [exact Hn|]. split; [exact Hw|exact Hs].
Defined.

(** A proxy with two instances, their connections open. *)
Definition wiredStore : Store (gmap string mptr) :=
  setHeap (heapOf (groupStore caps0) <| conns := conns twoHeap |>) (groupStore caps0).
Lemma wiredStore_initial : initial wiredStore.1 (∅ : gmap string mptr) (quiet wiredStore).
Proof. by apply (initial_check_sound wiredStore.1); vm_compute. Qed.

Definition setOfA : list COp := setFrame mirrorClient "k" 1 4 "u" ++ [CCopyBulk [bA]; CFlush].
Lemma chunk_end_to_end_witness : ∃ r st1 items h2 L2 r' st3 items' n4,
  serveClient 1 None "x" 7 setOfA wiredStore = Done (inr (PSend 0%nat (CRequest r) ended), st1) ∧
  roundTrip 2048 0 0 0 r [bA] (heapOf st1, twoLambdas) = Done (items, (h2, L2)) ∧
  serveClient 0 None "" 8 (getFrame mirrorClient "k" 1 "v" ++ [CFlush]) (setHeap h2 st1) =
    Done (inr (PSend 0%nat (CRequest r') ended), st3) ∧
  roundTrip 2048 5 0 0 r' [] (heapOf st3, L2) = Done (items', n4) ∧
  recResult "v" (recIO items') = Some (RetBytes [bA]).
Proof.
  assert (Hr : ∃ r st1, serveClient 1 None "x" 7 setOfA wiredStore = Done (inr (PSend 0%nat (CRequest r) ended), st1) ∧
    conns (heapOf st1) = conns twoHeap ∧ instanceId (heapOf st1) 0 = Some 0 ∧ ReqMap (heapOf st1) = ∅).
  { vm_compute. eexists _, _. split_and!; reflexivity. }
  destruct Hr as (r&st1&Hr&Hc&Hid&Hm).
  destruct (chunk_end_to_end 2048 0 5 2 _ 1 None "x" wiredStore st1 mirrorClient "k" 1 4 "u" "v" [bA] 7 8
    0 r 0 twoLambdas servingLambda 0 (initial_inv 2 _ _ _ wiredStore_initial eq_refl))
    as (items&h2&L2&H1&_&r'&st3&items'&n4&H2&H3&H4).
  - cbn. unfold sized, is_i64. cbn. lia.
  - unfold is_i64. lia.
  - cbn. lia.
  - cbn. lia.
  - reflexivity.
  - reflexivity.
  - exact Hr.
  - exists (MkConnection (Some 0%nat) [] false false []). rewrite Hc. split; [reflexivity|]. split; reflexivity.
  - exact Hid.
  - reflexivity.
  - apply servingLambda_up.
  - rewrite Hm. reflexivity.
  - exists r, st1, items, h2, L2, r', st3, items', n4. split; [exact Hr|]. split; [exact H1|].
    split; [exact H2|]. split; [exact H3|exact H4].
Defined.
