(* ===== verification/LambdaCollector.v ===== *)
(** * lambda/collector: the measurements of a lambda

    Handlers send entries through a channel of ten; a goroutine per invocation
    moves them to the depository; [Save] waits until all are there and uploads
    them.  The goroutines are interleaved between their channel operations, the
    wait group and their uses of the depository. *)

From Stdlib Require Import Ascii.
From stdpp Require Import pretty.
From S2P Require Import Prelude Lifetime.

(** types.go: [DataEntry]. *)
Record CollectorEntry : Type := MkCollectorEntry {
  ceOp : Z; ceStatus : string; ceReqId : string; ceChunkId : string;
  DurationAppend : Z; DurationFlush : Z; Duration : Z; ceSession : string
}.

#[global] Instance CollectorEntry_eq_dec : EqDecision CollectorEntry.
Proof. solve_decision. Defined.

(** ** What is uploaded *)

(** [strings.Split(host, " #")[0]] *)
Fixpoint beforeHash (s : string) : string :=
  match s with
  | String " "%char (String "#"%char _) => ""
  | String a s' => String a (beforeHash s')
  | EmptyString => ""
  end.

Definition dataLine (hostName functionName : string) (e : CollectorEntry) : string :=
  pretty (ceOp e) +:+ "," +:+ ceReqId e +:+ "," +:+ ceChunkId e +:+ "," +:+ ceStatus e +:+ "," +:+
  pretty (Duration e) +:+ "," +:+ pretty (DurationAppend e) +:+ "," +:+ pretty (DurationFlush e) +:+ "," +:+
  hostName +:+ "," +:+ functionName +:+ "," +:+ ceSession e +:+ String (ascii_of_N 10) "".
Definition saveData (hostName functionName : string) (l : list CollectorEntry) : string :=
  foldl (λ s e, s +:+ dataLine hostName functionName e) "" l.
Definition saveKey (prefix functionName : string) (l : Lifetime) : string :=
  prefix +:+ "/" +:+ functionName +:+ "/" +:+ pretty (Lifetime_Id l).

(** ** The goroutines *)

Definition gathererCap : nat := 10.

(** The channel, the depository and the wait group; the senders at the channel;
    the collecting goroutines, with the entries they have received and the
    number of them that have deposited one; what the calls of [Save] are
    uploading, what was uploaded and what could not be.  [allSent] and [dropped]
    record what was sent and what was cut off the depository by a [Save] that
    had not seen it. *)
Record Collector : Type := MkCollector {
  dataGatherer : list CollectorEntry;
  dataDepository : list CollectorEntry;
  dataDeposited : Z;
  senders : list CollectorEntry;
  collectors : nat;
  received : list CollectorEntry;
  owing : nat;
  saving : list (list CollectorEntry);
  uploads : list (list CollectorEntry);
  failedUploads : list (list CollectorEntry);
  allSent : list CollectorEntry;
  dropped : list CollectorEntry
}.
#[global] Instance Collector_eta : Eta Collector := λ c,
  MkCollector (dataGatherer c) (dataDepository c) (dataDeposited c) (senders c) (collectors c) (received c)
    (owing c) (saving c) (uploads c) (failedUploads c) (allSent c) (dropped c).

Definition newCollector : Collector := MkCollector [] [] 0 [] 0 [] 0 [] [] [] [] [].

(** [Send] adds to the wait group, then sends. *)
Definition Send_add (e : CollectorEntry) (c : Collector) : Collector :=
  c <| dataDeposited ::= Z.succ |> <| senders ::= cons e |> <| allSent ::= cons e |>.
Definition Send_put (i : nat) (c : Collector) : option Collector :=
  e ← senders c !! i;
  if decide (length (dataGatherer c) < gathererCap)%nat
  then Some (c <| senders ::= delete i |> <| dataGatherer ::= (λ l, l ++ [e]) |>) else None.

(** [Collect]: a goroutine starts; receives; deposits; is done with an entry;
    returns when the session is. *)
Definition Collect_start (c : Collector) : Collector := c <| collectors ::= S |>.
Definition idle (c : Collector) : nat := (collectors c - length (received c) - owing c)%nat.
Definition Collect_receive (c : Collector) : option Collector :=
  match dataGatherer c with
  | e :: l => if decide (0 < idle c)%nat
              then Some (c <| dataGatherer := l |> <| received ::= cons e |>) else None
  | [] => None
  end.
Definition Collect_append (i : nat) (c : Collector) : option Collector :=
  e ← received c !! i;
  Some (c <| received ::= delete i |> <| owing ::= S |> <| dataDepository ::= (λ l, l ++ [e]) |>).
Definition Collect_done (c : Collector) : option Collector :=
  match owing c with
  | O => None
  | S k => Some (c <| owing := k |> <| dataDeposited ::= Z.pred |>)
  end.
Definition Collect_return (c : Collector) : option Collector :=
  if decide (0 < idle c)%nat then Some (c <| collectors ::= Nat.pred |>) else None.

(** [Save]: the wait passes and the entries are formatted; they are uploaded, or
    the upload fails, and the depository is cut. *)
Definition Save_wait (c : Collector) : option Collector :=
  if decide (dataDeposited c = 0) then Some (c <| saving ::= cons (dataDepository c) |>) else None.
Definition Save_upload (i : nat) (ok : bool) (c : Collector) : option Collector :=
  l ← saving c !! i;
  let c := c <| saving ::= delete i |> <| dataDepository := [] |>
             <| dropped ::= app (if decide (l `prefix_of` dataDepository c) then drop (length l) (dataDepository c)
                                 else dataDepository c) |> in
  Some (if ok then c <| uploads ::= cons l |> else c <| failedUploads ::= cons l |>).

(** What goes on without new entries. *)
Inductive internal : Collector → Collector → Prop :=
  | in_put i c c' : Send_put i c = Some c' → internal c c'
  | in_receive c c' : Collect_receive c = Some c' → internal c c'
  | in_append i c c' : Collect_append i c = Some c' → internal c c'
  | in_done c c' : Collect_done c = Some c' → internal c c'.
Inductive cstep : Collector → Collector → Prop :=
  | cs_internal c c' : internal c c' → cstep c c'
  | cs_send e c : cstep c (Send_add e c)
  | cs_start c : cstep c (Collect_start c)
  | cs_return c c' : Collect_return c = Some c' → cstep c c'
  | cs_wait c c' : Save_wait c = Some c' → cstep c c'
  | cs_upload i ok c c' : Save_upload i ok c = Some c' → cstep c c'.

(** ** Nothing is forgotten *)

(** What has left the depository: seen by a [Save], or not. *)
Definition gone (c : Collector) : list CollectorEntry := dropped c ++ concat (failedUploads c) ++ concat (uploads c).

Record CInv (c : Collector) : Prop := {
  ci_entries : allSent c ⊆+ gone c ++ dataDepository c ++ received c ++ dataGatherer c ++ senders c;
  ci_waiting : dataDeposited c =
    Z.of_nat (length (senders c) + length (dataGatherer c) + length (received c) + owing c);
  ci_channel : (length (dataGatherer c) ≤ gathererCap)%nat;
  ci_busy : (length (received c) + owing c ≤ collectors c)%nat
}.

Lemma CInv_new : CInv newCollector.
Proof. by split; cbn; try lia. Qed.

Lemma delete_nth {A} (l : list A) i x : l !! i = Some x → l ≡ₚ x :: delete i l ∧ length l = S (length (delete i l)).
Proof.
  intros H. pose proof (delete_Permutation l i x H) as Hp. split; [done|]. by rewrite Hp at 1.
Qed.

Lemma internal_inv c c' : internal c c' → CInv c → CInv c'.
Proof.
  intros Hst [He Hw Hc Hb]. destruct Hst as [i c c' E|c c' E|i c c' E|c c' E].
  - unfold Send_put in E. destruct (senders c !! i) as [e|] eqn:Ei; [|done]. cbn in E. case_decide; [|done].
    injection E as <-. apply delete_nth in Ei as [Hp El]. split; unfold gone in *; cbn in *; try done.
    + rewrite Hp in He. by rewrite <- (assoc_L app (dataGatherer c)).
    + rewrite Hw, El, length_app. cbn. lia.
    + rewrite length_app. cbn. lia.
  - unfold Collect_receive in E. destruct (dataGatherer c) as [|e l] eqn:Eg; [done|]. case_decide as Hi; [|done].
    injection E as <-. unfold idle in Hi. split; unfold gone in *; cbn in *; try done; try lia.
    etrans; [exact He|]. apply Permutation_submseteq. do 2 f_equiv. by rewrite <- Permutation_middle.
  - unfold Collect_append in E. destruct (received c !! i) as [e|] eqn:Ei; [|done]. injection E as <-.
    apply delete_nth in Ei as [Hp El]. split; unfold gone in *; cbn in *; try done; try lia.
    rewrite Hp in He. by rewrite <- (assoc_L app (dataDepository c)).
  - unfold Collect_done in E. destruct (owing c) as [|k] eqn:Eo; [done|]. injection E as <-.
    split; unfold gone in *; cbn in *; try done; lia.
Qed.

(** A [Save] loses track of nothing it cuts off. *)
Lemma cut_gone l (d : list CollectorEntry) :
  d ⊆+ (if decide (l `prefix_of` d) then drop (length l) d else d) ++ l.
Proof.
  case_decide as Hp; [|by apply submseteq_inserts_r]. destruct Hp as [more ->].
  by rewrite drop_app_length, (comm app).
Qed.
Lemma cstep_inv c c' : cstep c c' → CInv c → CInv c'.
Proof.
  intros Hst HI. destruct Hst as [c c' E|e c|c|c c' E|c c' E|i ok c c' E]; [by eapply internal_inv|..];
    destruct HI as [He Hw Hc Hb].
  - split; unfold gone in *; cbn in *; try done; [|lia].
    etrans; [by apply submseteq_skip|]. by rewrite !(assoc_L app), <- Permutation_middle.
  - split; cbn; try done; lia.
  - unfold Collect_return, idle in E. case_decide; [|done]. injection E as <-. split; cbn; try done. lia.
  - unfold Save_wait in E. case_decide; [|done]. injection E as <-. by split.
  - unfold Save_upload in E. destruct (saving c !! i) as [l|] eqn:El; [|done]. cbn in E. injection E as <-.
    set (cut := if decide (l `prefix_of` dataDepository c) then _ else _).
    assert (Hcut : dataDepository c ⊆+ cut ++ l) by apply cut_gone.
    assert (allSent c ⊆+ (cut ++ dropped c) ++ concat (failedUploads c) ++ concat (uploads c) ++ l ++
      received c ++ dataGatherer c ++ senders c) as Hall.
    { etrans; [exact He|]. unfold gone. rewrite <- !(assoc_L app).
      rewrite (Permutation_app_swap_app cut), (Permutation_app_swap_app cut), (Permutation_app_swap_app cut).
      do 3 apply submseteq_skips_l. rewrite (assoc_L app cut). by apply submseteq_app. }
    destruct ok; split; unfold gone; cbn; try done.
    + etrans; [exact Hall|]. rewrite <- !(assoc_L app). by rewrite (Permutation_app_swap_app (concat (uploads c)) l).
    + etrans; [exact Hall|]. rewrite <- !(assoc_L app).
      rewrite (Permutation_app_swap_app (concat (uploads c)) l). by rewrite (Permutation_app_swap_app (concat (failedUploads c)) l).
Qed.

Lemma creachable_inv c : rtc cstep newCollector c → CInv c.
Proof.
  assert (∀ c0, CInv c0 → rtc cstep c0 c → CInv c) as Hgen.
  { intros c0 H0 Hr. induction Hr as [|c1 c2 c3 Hst _ IH]; [done|]. by eapply IH, cstep_inv. }
  apply Hgen, CInv_new.
Qed.

(** What is left to do for the entries sent. *)
Definition todo (c : Collector) : nat :=
  (4 * length (senders c) + 3 * length (dataGatherer c) + 2 * length (received c) + owing c)%nat.

Lemma internal_progress c : CInv c → (0 < collectors c)%nat → dataDeposited c ≠ 0 →
  ∃ c', internal c c' ∧ (todo c' < todo c)%nat ∧ collectors c' = collectors c ∧ allSent c' = allSent c.
Proof.
  intros HI Hcol Hd. pose proof (ci_waiting c HI) as Hw.
  destruct (owing c) as [|k] eqn:Eo.
  2:{ eexists. split; [apply in_done; unfold Collect_done; by rewrite Eo|]. split; [|done]. unfold todo. cbn. rewrite Eo. lia. }
  destruct (received c) as [|e l] eqn:Er.
  2:{ eexists. split; [apply (in_append 0); unfold Collect_append; by rewrite Er|].
      split; [|done]. unfold todo. cbn. rewrite Er. cbn. lia. }
  destruct (dataGatherer c) as [|e l] eqn:Eg.
  2:{ eexists. split.
      - apply in_receive. unfold Collect_receive, idle. rewrite Eg, Er, Eo. rewrite decide_True by (cbn; lia). done.
      - split; [|done]. unfold todo. cbn. rewrite Eg, Er. cbn. lia. }
  destruct (senders c) as [|e l] eqn:Es; [cbn in Hw; lia|].
  eexists. split.
  - apply (in_put 0). unfold Send_put. rewrite Es, Eg. cbn. rewrite decide_True by (unfold gathererCap; lia). done.
  - split; [|done]. unfold todo. cbn. rewrite Es, Eg. cbn. lia.
Qed.

Lemma deposits_finish c : CInv c → (0 < collectors c)%nat →
  ∃ c', rtc internal c c' ∧ dataDeposited c' = 0 ∧ allSent c' = allSent c.
Proof.
  remember (todo c) as n eqn:En. revert c En. induction (lt_wf n) as [n _ IH]. intros c -> HI Hcol.
  destruct (decide (dataDeposited c = 0)) as [|Hd]; [by exists c|].
  destruct (internal_progress c HI Hcol Hd) as (c1&H1&Hlt&Ec&Es).
  destruct (IH (todo c1) Hlt c1 eq_refl) as (c'&Hr&Hd'&Ha); [by eapply internal_inv|by rewrite Ec|].
  exists c'. split; [by eapply rtc_l|]. split; [done|congruence].
Qed.

(** C25: the collector accounts for every measurement.  In every interleaving of
    senders, collecting goroutines and calls of [Save], every entry sent is in an
    upload that succeeded or failed, in the depository, on its way there, or
    was cut off the depository by a [Save] that had read the depository before
    it came; the wait group counts exactly the entries on their way; while a
    [Collect] runs they can all arrive, so that the wait of [Save] ends; and a
    [Save] that no deposit comes between uploads all that was in the
    depository and cuts off nothing else. *)
Theorem collector_saves_all c : rtc cstep newCollector c →
  (allSent c ⊆+ gone c ++ dataDepository c ++ received c ++ dataGatherer c ++ senders c) ∧
  (dataDeposited c = Z.of_nat (length (senders c) + length (dataGatherer c) + length (received c) + owing c)) ∧
  ((0 < collectors c)%nat → ∃ c', rtc internal c c' ∧ dataDeposited c' = 0 ∧ allSent c' = allSent c ∧
     allSent c ⊆+ gone c' ++ dataDepository c') ∧
  (∀ c1 c2, Save_wait c = Some c1 → Save_upload 0 true c1 = Some c2 →
     uploads c2 = dataDepository c :: uploads c ∧ dropped c2 = dropped c ∧ allSent c2 ⊆+ gone c2).
Proof.
  intros Hr%creachable_inv.
  assert (Hzero : ∀ c, CInv c → dataDeposited c = 0 → allSent c ⊆+ gone c ++ dataDepository c).
  { clear. intros c [He Hw _ _] H0.
    assert (senders c = [] ∧ dataGatherer c = [] ∧ received c = []) as (E1&E2&E3).
    { split_and!; apply length_zero_iff_nil; lia. }
    rewrite E1, E2, E3 in He. cbn in He. by rewrite app_nil_r in He. }
  split_and!; [apply (ci_entries c Hr)|apply (ci_waiting c Hr)| |].
  - intros Hcol. destruct (deposits_finish c Hr Hcol) as (c'&Hi&Hd&Ha). exists c'. split_and!; [done..|].
    rewrite <- Ha. apply Hzero; [|done]. clear -Hi Hr. induction Hi as [|c1 c2 c3 Hst _ IH]; [done|].
    by eapply IH, internal_inv.
  - intros c1 c2 H1 H2. assert (CInv c2) as HI2 by (eapply cstep_inv; [by eapply cs_upload|]; eapply cstep_inv; [by apply cs_wait|done]).
    unfold Save_wait in H1. case_decide as Hz; [|done]. injection H1 as <-. injection H2 as <-. cbn in *.
    rewrite decide_True, drop_all by done. split_and!; [done..|].
    pose proof (Hzero _ HI2 Hz) as Ha. unfold gone in *. cbn in Ha |- *. rewrite decide_True, drop_all in Ha by reflexivity.
    by rewrite app_nil_r in Ha.
Qed.

Section concrete.
#[local] Open Scope string_scope.
Definition anEntry : CollectorEntry := MkCollectorEntry 1 "200" "req" "0" 2 3 4 "s".
Example anEntry_line : dataLine "h" "f" anEntry = "1,req,0,200,4,2,3,h,f,s" +:+ String (ascii_of_N 10) "".
Proof. reflexivity. Qed.
Example host_name : beforeHash "Linux 10.0.0.1 4.14 #1 SMP" = "Linux 10.0.0.1 4.14".
Proof. reflexivity. Qed.

(** An entry is sent; it is at the channel. *)
Definition oneSent : Collector := Send_add anEntry (Collect_start newCollector).
Lemma oneSent_reachable : rtc cstep newCollector oneSent.
Proof. eapply rtc_l; [apply cs_start|]. apply rtc_once, cs_send. Qed.

Lemma collector_saves_all_witness : ∃ c', rtc internal oneSent c' ∧ dataDeposited c' = 0 ∧
  [anEntry] ⊆+ (gone c' ++ dataDepository c')%list.
Proof.
  destruct (collector_saves_all oneSent oneSent_reachable) as (_&_&H&_).
  destruct (H (Nat.lt_0_succ 0)) as (c'&H1&H2&_&H3). exists c'. split; [exact H1|]. split; [exact H2|exact H3].
Defined.

(** An entry that is deposited while [Save] uploads is cut off with the rest and
    never uploaded. *)
Lemma deposited_while_saving : ∃ c, rtc cstep newCollector c ∧ uploads c = [[]] ∧
  dropped c = [anEntry] ∧ dataDepository c = [] ∧ dataDeposited c = 0.
Proof.
  set (e := anEntry).
  exists (MkCollector [] [] 0 [] 1 [] 0 [] [[]] [] [e] [e]). split; [|split_and!; reflexivity].
  eapply rtc_l; [apply cs_start|].
  apply (rtc_l _ _ (MkCollector [] [] 0 [] 1 [] 0 [[]] [] [] [] [])); [by apply cs_wait|].
  apply (rtc_l _ _ (MkCollector [] [] 1 [e] 1 [] 0 [[]] [] [] [e] [])); [apply (cs_send e)|].
  apply (rtc_l _ _ (MkCollector [e] [] 1 [] 1 [] 0 [[]] [] [] [e] [])); [by apply cs_internal, (in_put 0)|].
  apply (rtc_l _ _ (MkCollector [] [] 1 [] 1 [e] 0 [[]] [] [] [e] [])); [by apply cs_internal, in_receive|].
  apply (rtc_l _ _ (MkCollector [] [e] 1 [] 1 [] 1 [[]] [] [] [e] [])); [by apply cs_internal, (in_append 0)|].
  apply (rtc_l _ _ (MkCollector [] [e] 0 [] 1 [] 0 [[]] [] [] [e] [])); [by apply cs_internal, in_done|].
  apply rtc_once. by apply (cs_upload 0 true).
Qed.

(** Without a [Collect] nothing is deposited: the wait of [Save] goes on until a
    goroutine is started. *)
Lemma save_needs_collect c c' : CInv c → collectors c = 0%nat → 0 < dataDeposited c → cstep c c' →
  0 < dataDeposited c' ∨ c' = Collect_start c.
Proof.
  intros HI Hc Hd Hst. pose proof (ci_busy c HI) as Hb.
  destruct Hst as [c c' Hin|e c|c|c c' E|c c' E|i ok c c' E]; [destruct Hin as [i c c' E|c c' E|i c c' E|c c' E]|..];
    [left..|left|by right|left|left|left].
  - unfold Send_put in E. destruct (senders c !! i); [|done]. cbn in E. case_decide; [|done]. by injection E as <-.
  - unfold Collect_receive, idle in E. rewrite Hc in E. by destruct (dataGatherer c).
  - unfold Collect_append in E. destruct (received c) as [|? l] eqn:Er; [done|]. cbn in Hb. lia.
  - unfold Collect_done in E. destruct (owing c) eqn:Eo; [done|]. lia.
  - cbn. lia.
  - unfold Collect_return, idle in E. by rewrite Hc in E.
  - unfold Save_wait in E. case_decide; [lia|done].
  - unfold Save_upload in E. destruct (saving c !! i); [|done]. cbn in E. injection E as <-. by destruct ok.
Qed.
End concrete.
