(* ===== verification/Invocation.v ===== *)
(** * lambda/handler.go, lambda/collector, session.go: when an invocation returns

    [HandleRequest] starts the collecting goroutine, waits, and at the end waits
    for the wait group [Clear] of its session, which the collecting goroutine
    joins when it begins and leaves when the session is done.  This is all that
    keeps a lambda alive while it migrates.  The invocation, its collector and
    every handler and goroutine of the lambda are interleaved; the loop that
    initiates a migration is cut where it waits. *)

From S2P Require Import Prelude Lambdastore Request Erasure Client Storage Lifetime Migrator StorageAdapter AdapterTheorems Session LambdaHandler HandlerTheorems Migration.

(** Where the collecting goroutine is: started by [go], in its loop (it has
    added to [Clear]), or returned. *)
Inductive collectAt : Type := CSpawned | CLoop | CEnded.
(** Where [HandleRequest] is: at the select of [Wait], at a call of [Initiate], at
    the receive in it, at the deferred [Clear.Wait()], or returned, when the
    collector was where it says. *)
Inductive mainAt : Type := MSelect | MInitiate | MReady | MClear | MReturned (c : collectAt).
(** It is in the loop that initiates a migration. *)
Definition initiating (m : mainAt) : bool := match m with MInitiate | MReady => true | _ => false end.

Section invocation.
Context {R : Type} `{HR : !Remote R}.
#[local] Abbreviation St := (AnyStore R).
Context (mem : Z) (p : sptr).
Implicit Types (l : Lambda St).

Record Invocation : Type := MkInvocation {
  ivLambda : Lambda St;
  ivMain : mainAt;
  ivCollect : collectAt;
  ivClear : Z
}.
#[global] Instance Invocation_eta : Eta Invocation := λ s,
  MkInvocation (ivLambda s) (ivMain s) (ivCollect s) (ivClear s).

(** The channel of [WaitDone] is closed. *)
Definition WaitDone (q : sptr) l : Prop := sessDone <$> sheap (sessions l) !! q = Some true.
#[global] Instance WaitDone_dec q l : Decision (WaitDone q l).
Proof. unfold WaitDone. apply _. Defined.

(** The handlers, and the goroutines the lambda has started. *)
Inductive routine : Lambda St → Lambda St → Prop :=
  | ro_get now now' io name args x l l' : lambda_get mem now now' io name args l = Done (x, l') → routine l l'
  | ro_set now now' io args next val x l l' : lambda_set mem now now' io args next val l = Done (x, l') → routine l l'
  | ro_del now now' io args x l l' : lambda_del mem now now' io args l = Done (x, l') → routine l l'
  | ro_ping now x l l' : lambda_ping mem now l = Done (x, l') → routine l l'
  | ro_data io x l l' : lambda_data io l = Done (x, l') → routine l l'
  | ro_migrate dial invoke args x l l' : lambda_migrate dial invoke args l = Done (x, l') → routine l l'
  | ro_mhello now io keys x l l' : lambda_mhello now io keys l = Done (x, l') → routine l l'
  | ro_serve now q b err x l l' : serveMigration mem now q b err l = Done (x, l') → routine l l'
  | ro_closed now conn x l l' : connectionClosed mem now conn l = Done (x, l') → routine l l'
  | ro_receive now ios items q x l l' : migrateRoutine mem now ios items q l = Done (x, l') → routine l l'.

(** [Collect]: it begins; it returns. *)
Definition Collect_begin (s : Invocation) : option Invocation :=
  match ivCollect s with
  | CSpawned => Some (s <| ivClear ::= Z.succ |> <| ivCollect := CLoop |>)
  | _ => None
  end.
Definition Collect_end (s : Invocation) : option Invocation :=
  match ivCollect s with
  | CLoop => if decide (WaitDone p (ivLambda s))
             then Some (s <| ivClear ::= Z.pred |> <| ivCollect := CEnded |>) else None
  | _ => None
  end.

(** The rest of [HandleRequest] after its set-up: the select, with the case that
    is taken. *)
Definition Wait_select (now : Z) (w : waited) (s : Invocation) : option Invocation :=
  match ivMain s, w with
  | MSelect, WDone => if decide (WaitDone p (ivLambda s)) then Some (s <| ivMain := MClear |>) else None
  | MSelect, WTimeout =>
      match Wait_timeout now p (ivLambda s) with
      | Done (migrate, l) => Some (s <| ivLambda := l |> <| ivMain := if (migrate : bool) then MInitiate else MClear |>)
      | _ => None
      end
  | _, _ => None
  end.
(** What the loop does with the error of an attempt. *)
Definition afterInitiate (err : error) : mainAt :=
  match err with
  | None => MClear
  | Some e => if decide (e = ErrProxyClosing) then MClear else MInitiate
  end.
(** [Initiate] until its receive: [ini] is the error of the initiator. *)
Definition Wait_initiate (ini : error) (s : Invocation) : option Invocation :=
  match ivMain s, ini with
  | MInitiate, Some e => Some (s <| ivMain := afterInitiate (Some e) |>)
  | MInitiate, None =>
      match onMigrator p reopen (ivLambda s) with
      | Done (_, l) => Some (s <| ivLambda := l |> <| ivMain := MReady |>)
      | _ => None
      end
  | _, _ => None
  end.
(** The receive: from the client of the session; when the session has dropped
    its client, [dropped] is what had been sent to it. *)
Definition Wait_receive (dropped : error) (s : Invocation) : option Invocation :=
  match ivMain s with
  | MReady =>
      match sheap (sessions (ivLambda s)) !! p ≫= sessMigrator with
      | None => Some (s <| ivMain := afterInitiate dropped |>)
      | Some _ =>
          match onMigrator p recvReady (ivLambda s) with
          | Done (err, l) => Some (s <| ivLambda := l |> <| ivMain := afterInitiate err |>)
          | _ => None
          end
      end
  | _ => None
  end.
(** The deferred calls. *)
Definition Clear_wait (s : Invocation) : option Invocation :=
  match ivMain s with
  | MClear =>
      if decide (ivClear s = 0) then
        match onSessions ClearSession (ivLambda s) with
        | Done (_, l) => Some (s <| ivLambda := l |> <| ivMain := MReturned (ivCollect s) |>)
        | _ => None
        end
      else None
  | _ => None
  end.

Inductive ivstep : Invocation → Invocation → Prop :=
  | iv_begin s s' : Collect_begin s = Some s' → ivstep s s'
  | iv_end s s' : Collect_end s = Some s' → ivstep s s'
  | iv_select now w s s' : Wait_select now w s = Some s' → ivstep s s'
  | iv_initiate ini s s' : Wait_initiate ini s = Some s' → ivstep s s'
  | iv_receive dropped s s' : Wait_receive dropped s = Some s' → ivstep s s'
  | iv_clear s s' : Clear_wait s = Some s' → ivstep s s'
  | iv_routine s l' : routine (ivLambda s) l' → ivstep s (s <| ivLambda := l' |>).

(** After the set-up: the collector was started. *)
Definition invoked l : Invocation := MkInvocation l MSelect CSpawned 0.

(** ** A session that is done stays so *)

Lemma done_modify f : (∀ l, sessions (f l) = sessions l) → preserves (WaitDone p) (modify f).
Proof. intros Hf. apply preserves_modify. intros l. unfold WaitDone. by rewrite Hf. Qed.
Lemma done_onSessions {A} (c : M Sessions A) :
  preserves (λ s, sessDone <$> sheap s !! p = Some true) c → preserves (WaitDone p) (onSessions (St:=St) c).
Proof. intros Hc. by apply (preserves_zoom _ _ _ (λ s, sessDone <$> sheap s !! p = Some true)). Qed.
Lemma done_modSess q f : (∀ s, sessDone s = true → sessDone (f s) = true) →
  preserves (WaitDone p) (onSessions (St:=St) (modSess q f)).
Proof.
  intros Hf. apply done_onSessions, preserves_modify. intros s Hs. cbn. rewrite list_lookup_alter.
  case_decide; [subst q|done]. destruct (sheap s !! p) as [x|]; [|done]. cbn in *. injection Hs as Hs.
  by rewrite Hf.
Qed.
Lemma done_getSess q : preserves (WaitDone p) (onSessions (St:=St) (getSess q)).
Proof. apply done_onSessions. unfold getSess. preserve. Qed.
Lemma done_GetSession : preserves (WaitDone p) (onSessions (St:=St) GetSession).
Proof. apply done_onSessions. by intros s a s' Hs [= <- <-]. Qed.
Lemma done_onTimeout q f : preserves (WaitDone p) (onSessions (St:=St) (onTimeout q f)).
Proof. by apply done_modSess. Qed.
Lemma done_Session_Done q : preserves (WaitDone p) (onSessions (St:=St) (Session_Done q)).
Proof. apply done_modSess. intros s Hs. by rewrite Hs. Qed.
Lemma done_ClearSession : preserves (WaitDone p) (onSessions (St:=St) ClearSession).
Proof. by apply done_onSessions, preserves_modify. Qed.
Lemma done_onStoreOf {A} (c : M St A) : preserves (WaitDone p) (onStoreOf c).
Proof. by apply (preserves_zoom _ _ _ (λ _, True)). Qed.
Lemma done_onMigrator {A} q (c : M MClient A) : preserves (WaitDone p) (onMigrator (St:=St) q c).
Proof.
  unfold onMigrator. apply preserves_bind; [apply done_getSess|intros s].
  apply preserves_bind; [apply preserves_expect|intros m]. destruct (c m) as [[x m']|e|]; [|done..].
  apply preserves_bind; [by apply done_modSess|]. intros _. apply preserves_ret.
Qed.
Lemma done_extendTimeout te now q ext : preserves (WaitDone p) (onSessions (St:=St) (extendTimeout te now q ext)).
Proof.
  apply done_onSessions. unfold extendTimeout. apply preserves_bind; [unfold getSess; preserve|intros s].
  destruct (ResetWithExtension te now (sessDone s) ext (sessTimeout s)) as [ok t].
  apply preserves_bind; [|intros; apply preserves_ret]. apply preserves_modify. intros x Hx. cbn.
  rewrite list_lookup_alter. case_decide; [subst q|done]. by destruct (sheap x !! p).
Qed.
Lemma done_GetOrCreate te tex now : preserves (WaitDone p) (onSessions (St:=St) (GetOrCreateSession te tex now)).
Proof.
  apply done_onSessions. unfold GetOrCreateSession. apply preserves_bind; [apply preserves_mget|intros s].
  destruct (current s); [apply preserves_ret|]. apply preserves_bind; [|intros; apply preserves_ret].
  apply preserves_modify. intros x Hx. cbn. destruct (sheap x !! p) as [y|] eqn:E; [|done].
  by rewrite (lookup_app_l_Some _ _ _ _ E).
Qed.
#[local] Hint Resolve done_modify done_modSess done_getSess done_GetSession done_onTimeout done_Session_Done
  done_ClearSession done_onStoreOf done_onMigrator done_extendTimeout done_GetOrCreate : go.

Lemma done_splitKeys now io keys h dl gl : preserves (WaitDone p) (splitKeys now io keys h dl gl).
Proof.
  revert h dl gl. induction keys as [|k keys IH]; intros h dl gl; cbn [splitKeys]; [preserve|].
  apply preserves_bind; [apply done_onStoreOf|intros r]. cbv zeta. destruct (appendS _ _ _) as [[s' h']|?|]; preserve.
Qed.
#[local] Hint Resolve done_splitKeys : go.

Lemma done_Wait_timeout now q : preserves (WaitDone p) (Wait_timeout now q).
Proof. unfold Wait_timeout. preserve. Qed.

Ltac unfold_handlers := unfold lambda_get, lambda_set, lambda_del, lambda_ping, lambda_data, lambda_migrate,
  lambda_mhello, serveMigration, migrateRoutine, connectionClosed, beginRequest, endRequest, collectorSend, collectorSave, closeConn,
  issuePong, pong, spawn in *.
Lemma done_routine l l' : routine l l' → WaitDone p l → WaitDone p l'.
Proof.
  intros Hr Hd. destruct Hr as [???????? E|????????? E|??????? E|???? E|???? E|?????? E|?????? E|??????? E|????? E|??????? E].
  all: refine ((λ Hp : preserves (WaitDone p) _, Hp _ _ _ Hd E) _); unfold_handlers; preserve.
Qed.

(** ** The invocation *)

Definition clearOf (c : collectAt) : Z := match c with CLoop => 1 | _ => 0 end.
Definition iv_ok (s : Invocation) : Prop :=
  ivClear s = clearOf (ivCollect s) ∧ (ivCollect s = CEnded → WaitDone p (ivLambda s)) ∧
  match ivMain s with
  | MReturned c => c = CSpawned ∨ c = CEnded ∧ ivCollect s = CEnded
  | _ => True
  end.

Lemma iv_ok_main s l m : iv_ok s → (WaitDone p (ivLambda s) → WaitDone p l) → (∀ c, m ≠ MReturned c) →
  iv_ok (s <| ivLambda := l |> <| ivMain := m |>).
Proof. intros (H1&H2&_) Hd Hm. split_and!; cbn; [done|auto|]. destruct m; try done. by destruct (Hm c). Qed.
Lemma afterInitiate_main err c : afterInitiate err ≠ MReturned c.
Proof. unfold afterInitiate. repeat case_match; done. Qed.

Lemma iv_ok_step s s' : ivstep s s' → iv_ok s → iv_ok s'.
Proof.
  intros Hst Hok. pose proof Hok as (H1&H2&H3).
  destruct Hst as [s s' E|s s' E|now w s s' E|ini s s' E|dropped s s' E|s s' E|s l' Hr].
  - unfold Collect_begin in E. destruct (ivCollect s) eqn:Ec; [|done..]. injection E as <-.
    split_and!; cbn; [cbn in H1; lia|done|]. destruct (ivMain s); [done..|]. destruct H3 as [->|[_ ?]]; [by left|done].
  - unfold Collect_end in E. destruct (ivCollect s) eqn:Ec; [done| |done]. case_decide as Hd; [|done]. injection E as <-.
    split_and!; cbn; [cbn in H1; lia|done|]. destruct (ivMain s); [done..|]. destruct H3 as [->|[_ ?]]; [by left|done].
  - unfold Wait_select in E. destruct (ivMain s) eqn:Em, w; try done.
    + case_decide; [|done]. injection E as <-. by apply (iv_ok_main s (ivLambda s)).
    + destruct (Wait_timeout now p (ivLambda s)) as [[b l]|?|] eqn:Ew; [|done..]. injection E as <-.
      apply iv_ok_main; [done| |by destruct b]. intros Hd. by eapply done_Wait_timeout.
  - unfold Wait_initiate in E. destruct (ivMain s) eqn:Em, ini as [e|]; try done.
    + injection E as <-. apply (iv_ok_main s (ivLambda s)); [done..|]. intros c. apply (afterInitiate_main (Some e)).
    + destruct (onMigrator p reopen (ivLambda s)) as [[x l]|?|] eqn:Ew; [|done..]. injection E as <-.
      apply iv_ok_main; [done| |done]. intros Hd. by eapply done_onMigrator.
  - unfold Wait_receive in E. destruct (ivMain s) eqn:Em; try done. destruct (_ ≫= sessMigrator).
    + destruct (onMigrator p recvReady (ivLambda s)) as [[x l]|?|] eqn:Ew; [|done..]. injection E as <-.
      apply iv_ok_main; [done| |apply afterInitiate_main]. intros Hd. by eapply done_onMigrator.
    + injection E as <-. apply (iv_ok_main s (ivLambda s)); [done..|apply afterInitiate_main].
  - unfold Clear_wait in E. destruct (ivMain s) eqn:Em; try done. case_decide as Hz; [|done]. cbn in E.
    injection E as <-. split_and!; cbn; [done|exact H2|]. rewrite H1 in Hz. destruct (ivCollect s); [by left|done|by right].
  - split_and!; cbn; [done| |done]. intros Hc. eapply done_routine; [exact Hr|by apply H2].
Qed.

Lemma iv_ok_run l s : rtc ivstep (invoked l) s → iv_ok s.
Proof.
  intros Hr. assert (∀ s0, iv_ok s0 → rtc ivstep s0 s → iv_ok s) as Hgen.
  { clear. intros s0 H0 Hr. induction Hr as [|s1 s2 s3 Hst _ IH]; [done|]. by eapply IH, iv_ok_step. }
  by apply (Hgen (invoked l)).
Qed.

(** When the session is done the invocation can return. *)
Lemma done_returns s : iv_ok s → WaitDone p (ivLambda s) → initiating (ivMain s) = false → ∃ s' c, rtc ivstep s s' ∧ ivMain s' = MReturned c.
Proof.
  intros (H1&_&_) Hd Hin.
  assert (Hcl : ∀ s, WaitDone p (ivLambda s) → ivClear s = clearOf (ivCollect s) → ivMain s = MClear →
    ∃ s' c, rtc ivstep s s' ∧ ivMain s' = MReturned c).
  { clear. intros s Hd H1 Em. destruct (ivCollect s) eqn:Ec; cbn in H1.
    - eexists _, _. split; [apply rtc_once, iv_clear; unfold Clear_wait; rewrite Em, decide_True by done|]; done.
    - assert (E1 : Collect_end s = Some (s <| ivClear ::= Z.pred |> <| ivCollect := CEnded |>)).
      { unfold Collect_end. by rewrite Ec, decide_True. }
      eexists _, _. split; [eapply rtc_l; [by apply iv_end|]; apply rtc_once, iv_clear; unfold Clear_wait; cbn;
        rewrite Em, H1, decide_True by done|]; done.
    - eexists _, _. split; [apply rtc_once, iv_clear; unfold Clear_wait; rewrite Em, decide_True by done|]; done. }
  destruct (ivMain s) as [| | | |c] eqn:Em; [|done|done|by apply Hcl|by exists s, c].
  assert (E1 : Wait_select 0 WDone s = Some (s <| ivMain := MClear |>)).
  { unfold Wait_select. by rewrite Em, decide_True. }
  destruct (Hcl (s <| ivMain := MClear |>)) as (s'&c&Hr&Hm); [done..|].
  exists s', c. split; [|done]. eapply rtc_l; [by eapply iv_select|done].
Qed.

(** While writing to the proxy fails, the loop that initiates a migration goes
    round, whether the session is done or not. *)
Lemma retries_for_ever s e : ivMain s = MInitiate → e ≠ ErrProxyClosing → Wait_initiate (Some e) s = Some s.
Proof.
  intros Em He. unfold Wait_initiate, afterInitiate. rewrite Em, decide_False by done.
  destruct s. cbn in *. by subst.
Qed.

(** C14: an invocation returns when its session is done.  In every interleaving
    of the invocation, its collecting goroutine, the handlers and the other
    goroutines of the lambda: if the collecting goroutine had begun when
    [HandleRequest] returned, the session was done, so that a lambda that has
    started to migrate stays until its migration, or its proxy, ends it; while
    the collecting goroutine runs it does not return; and once the session is
    done it can return, unless it is in the loop that initiates a migration,
    which does not look at the session. *)
Theorem invocation_waits l s : rtc ivstep (invoked l) s →
  (∀ c, ivMain s = MReturned c → c ≠ CSpawned → WaitDone p (ivLambda s) ∧ ivCollect s = CEnded) ∧
  (ivCollect s = CLoop → ∀ s' c, ivstep s s' → ivMain s ≠ MReturned c → ivMain s' ≠ MReturned c) ∧
  (WaitDone p (ivLambda s) → initiating (ivMain s) = false → ∃ s' c, rtc ivstep s s' ∧ ivMain s' = MReturned c).
Proof.
  intros Hr%iv_ok_run. pose proof Hr as (H1&H2&H3). split; [|split].
  - intros c Em Hc. rewrite Em in H3. destruct H3 as [?|[_ E]]; [done|]. by split; [apply H2|].
  - intros Hc s' c Hst Hm. destruct Hst as [s s' E|s s' E|now w s s' E|ini s s' E|dropped s s' E|s s' E|s l' _]; [..|done].
    + unfold Collect_begin in E. by rewrite Hc in E.
    + unfold Collect_end in E. rewrite Hc in E. case_decide; [|done]. by injection E as <-.
    + unfold Wait_select in E. destruct (ivMain s), w; try done; [case_decide; [|done]; by injection E as <-|].
      destruct (Wait_timeout now p (ivLambda s)) as [[[] ?]|?|]; [..|done|done]; by injection E as <-.
    + unfold Wait_initiate in E. destruct (ivMain s), ini as [e|]; try done; [injection E as <-; apply (afterInitiate_main (Some e))|].
      destruct (onMigrator p reopen (ivLambda s)) as [[? ?]|?|]; [|done..]. by injection E as <-.
    + unfold Wait_receive in E. destruct (ivMain s); try done. destruct (_ ≫= sessMigrator).
      * destruct (onMigrator p recvReady (ivLambda s)) as [[? ?]|?|]; [|done..]. injection E as <-. apply afterInitiate_main.
      * injection E as <-. apply afterInitiate_main.
    + unfold Clear_wait in E. destruct (ivMain s); try done. rewrite H1, Hc in E. done.
  - by apply done_returns.
Qed.
End invocation.
Arguments Invocation R : clear implicits.

(** ** Runs *)

(** A lambda past its life span with a chunk, in a session. *)
Definition agedLambda : Lambda (AnyStore Source) :=
  MkLambda (Lifetime_New 0 LIFESPAN)
    (MkSessions [MkSession "s" 0 None (Start 0 (NewTimeout TICK_10_ERROR 0 TICK_10_ERROR_EXTEND)) (Some 3%nat) false]
       (Some 0%nat)) (Plain {[ "k"%string := MkChunk "k" "0" (Some []) 0 ]}) 7 "" (Some 3%nat) [] false "" 0 [] [] [].
Definition youngLambda : Lambda (AnyStore Source) := agedLambda <| store := Plain ∅ |>.

(** The invocation times out, says goodbye, and returns when the collector has. *)
Lemma invocation_waits_witness : ∃ s, rtc (ivstep 1024 0) (invoked youngLambda) s ∧
  ivMain s = MReturned CEnded ∧ WaitDone 0 (ivLambda s) ∧ ivCollect s = CEnded.
Proof.
  assert (∃ s, rtc (ivstep 1024 0) (invoked youngLambda) s ∧ ivMain s = MReturned CEnded) as (s&Hr&Hm).
  { eexists. split.
    - eapply rtc_l; [eapply iv_begin; reflexivity|].
      eapply rtc_l; [eapply (iv_select _ _ 0 WTimeout); reflexivity|].
      eapply rtc_l; [eapply iv_end; reflexivity|].
      apply rtc_once. eapply iv_clear. reflexivity.
    - reflexivity. }
  destruct (invocation_waits 1024 0 youngLambda s Hr) as (H1&_).
  destruct (H1 CEnded Hm) as [Hd Hc]; [discriminate|]. exists s. split; [exact Hr|]. split; [exact Hm|].
  split; [exact Hd|exact Hc].
Defined.

(** The collecting goroutine joins the wait group itself: where it begins late,
    an invocation that has just initiated a migration returns at once. *)
Lemma returns_while_migrating : ∃ s, rtc (ivstep 1024 0) (invoked agedLambda) s ∧
  ivMain s = MReturned CSpawned ∧ ¬ WaitDone 0 (ivLambda s) ∧
  (∃ x, sheap (sessions (ivLambda s)) !! 0%nat = Some x ∧ IsMigrating x = true).
Proof.
  eexists. split.
  - eapply rtc_l; [eapply (iv_select _ _ (LIFESPAN + 1) WTimeout); reflexivity|].
    eapply rtc_l; [eapply (iv_initiate _ _ None); reflexivity|].
    eapply rtc_l; [eapply iv_routine, (ro_closed 1024 (LIFESPAN + 2) 3); reflexivity|].
    eapply rtc_l; [eapply (iv_receive _ _ None); reflexivity|].
    apply rtc_once. eapply iv_clear. reflexivity.
  - split; [reflexivity|]. split; [intros [=]|]. eexists. split; reflexivity.
Qed.
