(* ===== verification/Deploy.v ===== *)
(** * deploy/deploy_function.go: deploying the functions

    The tool creates the functions of a range, or updates their code or
    configuration in batches, one goroutine per function; a batch ends when
    the wait group of its goroutines is done.  What AWS answers to a call is
    given, and so is the order in which the goroutines of a batch call it and
    get their answers. *)

From stdpp Require Import pretty.
From S2P Require Import Prelude Lifetime LifetimeTheorems.

(** ** Flags and calls *)

Record Flags : Type := MkFlags {
  flCode : bool; flConfig : bool; flCreate : bool; flTimeout : Z; flPrefix : string; flVpc : bool;
  flKey : string; flFrom : Z; flTo : Z; flBatch : Z; flMem : Z; flBucket : string
}.

Definition ROLE : string := "arn:aws:iam::[aws account id]:role/[role name]".
Definition subnet : list string := ["sb-your-subnet-1"; "sb-your-subnet-2"].
Definition securityGroup : list string := ["sg-your-security-group"].

(** The subnets and security groups of a [VpcConfig]. *)
Definition vpcConfig (f : Flags) : list string * list string :=
  if flVpc f then (subnet, securityGroup) else ([], []).

(** The inputs of the calls. *)
Inductive Call : Type :=
  | UpdateConfiguration (name handler : string) (mem : Z) (role : string) (timeout : Z)
      (vpc : list string * list string)
  | UpdateCode (name bucket key : string)
  | CreateFunction (bucket key name handler : string) (mem : Z) (role runtime : string) (timeout : Z)
      (vpc : list string * list string).

Definition configCall (f : Flags) (name : string) : Call :=
  UpdateConfiguration name (flKey f) (flMem f) ROLE (flTimeout f) (vpcConfig f).
Definition codeCall (f : Flags) (name : string) : Call :=
  UpdateCode name (flBucket f) (flKey f +:+ ".zip").
Definition createCall (f : Flags) (name : string) : Call :=
  CreateFunction (flBucket f) (flKey f +:+ ".zip") name (flKey f) (flMem f) ROLE "go1.x" (flTimeout f) (vpcConfig f).

(** ** Errors *)

(** An [awserr.Error] with its code, or another error. *)
Inductive AwsError : Type := AwsErr (code msg : string) | OtherErr (msg : string).

(** What is printed for an error: with its code when it is one of [known]. *)
Definition describe (known : list string) (e : AwsError) : string :=
  match e with
  | AwsErr code msg => if decide (code ∈ known) then code +:+ " " +:+ msg else msg
  | OtherErr msg => msg
  end.
Definition configCodes : list string :=
  ["ServiceException"; "ResourceNotFoundException"; "InvalidParameterValueException";
   "TooManyRequestsException"; "ResourceConflictException"; "PreconditionFailedException"].
Definition codeCodes : list string :=
  ["ServiceException"; "ResourceNotFoundException"; "InvalidParameterValueException";
   "TooManyRequestsException"; "CodeStorageExceededException"; "PreconditionFailedException"].
Definition createCodes : list string :=
  ["ServiceException"; "InvalidParameterValueException"; "ResourceNotFoundException";
   "ResourceConflictException"; "TooManyRequestsException"; "CodeStorageExceededException"].

(** ** The functions *)

(** The calls made, and the errors printed. *)
Record Run : Type := MkRun { calls : list Call; printed : list string }.
#[global] Instance Run_eta : Eta Run := λ r, MkRun (calls r) (printed r).

Section tool.
Context (f : Flags) (aws : Call → option AwsError).

(** A call is made; its answer is handled, [true] when it succeeded. *)
Definition call (c : Call) : M Run unit := modify (λ r, r <| calls ::= (λ l, l ++ [c]) |>).
Definition answered (known : list string) (c : Call) : M Run bool :=
  match aws c with
  | Some e => modify (λ r, r <| printed ::= (λ l, l ++ [describe known e]) |>);; mret false
  | None => mret true
  end.

(** [updateConfig] and [updateCode]: the call for a function, and the codes that
    are printed; the wait group is told when the call succeeded. *)
Record Update : Type := MkUpdate { upCall : string → Call; upCodes : list string }.
Definition updateConfig : Update := MkUpdate (configCall f) configCodes.
Definition updateCode : Update := MkUpdate (codeCall f) codeCodes.
Definition createFunction (name : string) : M Run unit :=
  call (createCall f name);; answered createCodes (createCall f name);; mret ().

(** [fmt.Sprintf("%s%d", *prefix, i)] *)
Definition functionName (i : Z) : string := flPrefix f +:+ pretty i.

(** The inner loop: the functions of a batch from [i] on. *)
Fixpoint batchLoop (n : nat) (base i : Z) : list Z :=
  match n with
  | O => []
  | S n => if decide (i64 (base + i) < flTo f) then i64 (base + i) :: batchLoop n base (i + 1) else []
  end.
Definition batchOf (j : Z) : list Z :=
  batchLoop (Z.to_nat (flBatch f)) (i64 (i64 (j * flBatch f) + flFrom f)) 0.

(** The order in which the goroutines of a batch make their calls, and in which
    they get their answers. *)
Record Order : Type := MkOrder { starts : list Z → list Z; ends : list Z → list Z }.

(** The goroutines of a batch; the number that called [Done]. *)
Fixpoint endBatch (u : Update) (l : list Z) : M Run nat :=
  match l with
  | [] => mret 0%nat
  | i :: l =>
      ok ← answered (upCodes u) (upCall u (functionName i));
      n ← endBatch u l;
      mret (if (ok : bool) then S n else n)
  end.
Definition runBatch (o : Order) (u : Update) (l : list Z) : M Run nat :=
  mfor (starts o l) (λ i, call (upCall u (functionName i)));;
  endBatch u (ends o l).
(** A batch, with its [wg.Wait()]. *)
Definition updateBatch (o : Order) (u : Update) (j : Z) : M Run unit :=
  n ← runBatch o u (batchOf j);
  if decide (n = length (batchOf j)) then mret () else blocked.
Fixpoint updateAll (o : Order) (u : Update) (n : nat) (j : Z) : M Run unit :=
  match n with
  | O => mret ()
  | S n => updateBatch o u j;; updateAll o u n (j + 1)
  end.

(** [math.Ceil] of the quotient of the range by the batch, in floating point,
    for a positive batch. *)
Definition groupCount : Z := ceilDiv (i64 (flTo f - flFrom f)) (f64 (flBatch f)).

(** The create loop, [n] functions before its end. *)
Fixpoint createLoop (n : nat) (i : Z) : M Run unit :=
  match n with
  | O => mret ()
  | S n => createFunction (functionName i);; createLoop n (i + 1)
  end.

(** [oc] and [og] are the orders of the two kinds of updates. *)
Definition deploy_main (oc og : Order) : M Run unit :=
  (if flCreate f then createLoop (Z.to_nat (flTo f - flFrom f)) (flFrom f) else mret ());;
  (if flCode f then updateAll oc updateCode (Z.to_nat groupCount) 0 else mret ());;
  (if flConfig f then updateAll og updateConfig (Z.to_nat groupCount) 0 else mret ()).
End tool.

(** ** The batches *)

Section batches.
Context (f : Flags) (aws : Call → option AwsError).
Context (Hbatch : 0 < flBatch f < 2 ^ 53) (Hrange : - 2 ^ 52 < flFrom f ∧ flFrom f ≤ flTo f ∧ flTo f ≤ 2 ^ 52).

Lemma batchLoop_seqZ n base i :
  - 2 ^ 60 ≤ base + i → base + i + Z.of_nat n ≤ 2 ^ 60 →
  batchLoop f n base i = seqZ (base + i) (Z.min (Z.of_nat n) (flTo f - (base + i))).
Proof.
  revert i. induction n as [|n IH]; intros i H1 H2; [by rewrite seqZ_nil by lia|].
  cbn [batchLoop]. rewrite i64_small by (unfold is_i64; lia). case_decide as Hlt.
  - rewrite IH by lia. rewrite (seqZ_cons (base + i)) by lia. f_equal. unfold Z.succ. f_equal; lia.
  - by rewrite seqZ_nil by lia.
Qed.

(** The number of groups covers the range. *)
Lemma groupCount_covers : let g := groupCount f in
  0 ≤ g ∧ (g - 1) * flBatch f < flTo f - flFrom f ≤ g * flBatch f.
Proof.
  unfold groupCount. rewrite i64_small by (unfold is_i64; lia).
  assert (f64 (flBatch f) = flBatch f) as -> by (unfold f64; case_decide; lia).
  rewrite ceilDiv_exact by lia. pose proof (ceiling_bounds (flTo f - flFrom f) (flBatch f)). cbv zeta. nia.
Qed.

Lemma batchOf_seqZ j : 0 ≤ j < groupCount f →
  batchOf f j = seqZ (flFrom f + j * flBatch f) (Z.min (flBatch f) (flTo f - (flFrom f + j * flBatch f))).
Proof.
  intros Hj. pose proof groupCount_covers as (_&Hg&_).
  assert (0 ≤ j * flBatch f ≤ 2 ^ 53) by nia. unfold batchOf.
  rewrite (i64_small (j * flBatch f)) by (unfold is_i64; lia). rewrite i64_small by (unfold is_i64; lia).
  rewrite batchLoop_seqZ by lia. rewrite Z2Nat.id by lia. f_equal; [lia|f_equal; lia].
Qed.

(** The batches from [j] on, [n] of them. *)
Lemma batches_seqZ n j : 0 ≤ j → j + Z.of_nat n = groupCount f →
  concat (batchOf f <$> seqZ j (Z.of_nat n)) =
  seqZ (flFrom f + j * flBatch f) (flTo f - (flFrom f + j * flBatch f)).
Proof.
  pose proof groupCount_covers as (_&Hg1&Hg2).
  revert j. induction n as [|n IH]; intros j Hj Hn.
  { rewrite seqZ_nil by lia. cbn. by rewrite seqZ_nil by nia. }
  rewrite seqZ_cons by lia. cbn [fmap list_fmap concat]. rewrite batchOf_seqZ by lia.
  replace (Z.pred (Z.of_nat (S n))) with (Z.of_nat n) by lia. rewrite IH by lia.
  destruct (decide (flTo f - (flFrom f + j * flBatch f) ≤ flBatch f)) as [Hlast|Hmore].
  - rewrite (seqZ_nil _ (flTo f - (flFrom f + Z.succ j * flBatch f))) by nia. rewrite app_nil_r. f_equal. lia.
  - rewrite Z.min_l by lia.
    replace (flTo f - (flFrom f + j * flBatch f))
      with (flBatch f + (flTo f - (flFrom f + Z.succ j * flBatch f))) by lia.
    rewrite seqZ_app by lia. do 2 f_equal. lia.
Qed.

(** ** Running the calls *)

Definition accepted (c : Call) : Prop := aws c = None.
#[local] Instance accepted_dec c : Decision (accepted c).
Proof. unfold accepted. destruct (aws c); [by right|by left]. Defined.
(** The errors printed for calls. *)
Definition errors (known : list string) (cs : list Call) : list string :=
  omap (λ c, describe known <$> aws c) cs.
Definition ran (known : list string) (cs : list Call) (r : Run) : Run :=
  MkRun (calls r ++ cs) (printed r ++ errors known cs).

Lemma ran_app known cs cs' r : ran known cs' (ran known cs r) = ran known (cs ++ cs') r.
Proof. unfold ran, errors. cbn. by rewrite omap_app, !app_assoc. Qed.
Lemma answered_run known c r :
  answered aws known c r = Done (bool_decide (accepted c), r <| printed ::= (λ l, l ++ errors known [c]) |>).
Proof.
  unfold answered, errors. destruct (decide (accepted c)) as [Ha|Ha].
  - rewrite bool_decide_true by done. rewrite Ha. cbn. rewrite Ha. cbn. rewrite app_nil_r. by destruct r.
  - rewrite bool_decide_false by done. unfold accepted in Ha. destruct (aws c) eqn:E; [|done]. cbn. by rewrite E.
Qed.

(** An order is one of the functions of the batch. *)
Definition fair (o : Order) : Prop := ∀ l, starts o l ≡ₚ l ∧ ends o l ≡ₚ l.
(** A kind of update. *)
Section update.
Context (o : Order) (u : Update) (Ho : fair o).
Definition callsOf (mk : string → Call) (l : list Z) : list Call := (λ i, mk (functionName f i)) <$> l.
#[local] Abbreviation ucalls := (callsOf (upCall u)).

Lemma endBatch_run l r :
  endBatch f aws u l r = Done (length (filter accepted (ucalls l)), r <| printed ::= (λ p, p ++ errors (upCodes u) (ucalls l)) |>).
Proof.
  revert r. induction l as [|i l IH]; intros r.
  { cbn. unfold errors. cbn. rewrite app_nil_r. by destruct r. }
  cbn [endBatch]. erewrite bind_done by apply answered_run. erewrite bind_done by apply IH.
  unfold callsOf. cbn [fmap list_fmap]. rewrite list.filter_cons. unfold errors. cbn.
  destruct (decide (accepted (upCall u (functionName f i)))) as [Ha|Ha].
  - rewrite bool_decide_true by done. rewrite Ha. cbn. by rewrite app_nil_r.
  - rewrite bool_decide_false by done. unfold accepted in Ha. destruct (aws _); [|done]. cbn. by rewrite <- app_assoc.
Qed.
Lemma starts_run l r : mfor l (λ i, call (upCall u (functionName f i))) r = Done ((), r <| calls ::= (λ c, c ++ ucalls l) |>).
Proof.
  revert r. induction l as [|i l IH]; intros r; cbn; [rewrite app_nil_r; by destruct r|].
  erewrite bind_done by reflexivity. rewrite IH. cbn. by rewrite <- app_assoc.
Qed.

Lemma accepted_perm l l' : l ≡ₚ l' → length (filter accepted (ucalls l)) = length (filter accepted (ucalls l')).
Proof. intros Hp. unfold callsOf. by rewrite Hp. Qed.
Lemma updateBatch_run j r :
  updateBatch f aws o u j r =
  if decide (Forall accepted (ucalls (batchOf f j)))
  then Done ((), r <| calls ::= (λ c, c ++ ucalls (starts o (batchOf f j))) |>) else Spins.
Proof.
  unfold updateBatch, runBatch. erewrite bind_done by (erewrite bind_done by apply starts_run; apply endBatch_run).
  destruct (Ho (batchOf f j)) as [_ He]. rewrite (accepted_perm _ _ He).
  assert (length (batchOf f j) = length (ucalls (batchOf f j))) as -> by (unfold callsOf; by rewrite length_fmap).
  set (cs := ucalls (batchOf f j)). case_decide as Hlen; case_decide as Hall; try done.
  - do 3 f_equal. assert (errors (upCodes u) (ucalls (ends o (batchOf f j))) = []) as ->.
    { assert (Forall accepted (ucalls (ends o (batchOf f j)))) as Ha.
      { unfold callsOf. rewrite He. exact Hall. }
      unfold errors. induction Ha as [|c l Hc _ IH]; [done|]. cbn. by rewrite Hc. }
    cbn. rewrite app_nil_r. by destruct r.
  - destruct Hall. apply list.Forall_forall. intros c Hc.
    destruct (decide (accepted c)) as [|Hn]; [done|].
    pose proof (length_filter_lt accepted cs c Hc Hn). lia.
  - destruct Hlen. by rewrite filter_all by (by apply list.Forall_forall).
Qed.

(** The calls of the batches, each in its order. *)
Definition started (js : list Z) : list Call := ucalls (concat ((λ j, starts o (batchOf f j)) <$> js)).
Lemma started_perm js : started js ≡ₚ ucalls (concat (batchOf f <$> js)).
Proof.
  unfold started, callsOf. apply fmap_Permutation. induction js as [|j js IH]; [done|]. cbn.
  by rewrite IH, (proj1 (Ho _)).
Qed.

Lemma updateAll_run n j r :
  updateAll f aws o u n j r =
  if decide (Forall accepted (ucalls (concat (batchOf f <$> seqZ j (Z.of_nat n)))))
  then Done ((), r <| calls ::= (λ c, c ++ started (seqZ j (Z.of_nat n))) |>) else Spins.
Proof.
  revert j r. induction n as [|n IH]; intros j r.
  { rewrite seqZ_nil by lia. cbn. rewrite app_nil_r. by destruct r. }
  rewrite seqZ_cons by lia. cbn [updateAll fmap list_fmap concat]. unfold started. cbn [fmap list_fmap concat].
  replace (Z.pred (Z.of_nat (S n))) with (Z.of_nat n) by lia. change (Z.succ j) with (j + 1).
  assert (∀ l l', ucalls (l ++ l') = ucalls l ++ ucalls l') as Happ by (intros; apply fmap_app).
  rewrite !Happ. pose proof (updateBatch_run j r) as Hb. case_decide as H1.
  - erewrite bind_done by exact Hb. rewrite IH. case_decide as H2.
    + rewrite decide_True by (by apply list.Forall_app). cbn. unfold started. by rewrite <- app_assoc.
    + rewrite decide_False; [done|]. rewrite list.Forall_app. tauto.
  - rewrite decide_False by (rewrite list.Forall_app; tauto). unfold mbind, M_bind. by rewrite Hb.
Qed.
End update.

Lemma createLoop_run n i r :
  createLoop f aws n i r = Done ((), ran createCodes (callsOf (createCall f) (seqZ i (Z.of_nat n))) r).
Proof.
  revert i r. induction n as [|n IH]; intros i r.
  { rewrite seqZ_nil by lia. cbn. unfold ran, errors. cbn. rewrite !app_nil_r. by destruct r. }
  rewrite seqZ_cons by lia. replace (Z.pred (Z.of_nat (S n))) with (Z.of_nat n) by lia.
  cbn [createLoop]. unfold createFunction at 1. erewrite bind_done.
  2:{ erewrite bind_done by reflexivity. by erewrite bind_done by apply answered_run. }
  rewrite IH. unfold ran at 1. cbn [calls printed update].
  unfold ran, callsOf, errors. cbn. rewrite <- !app_assoc. do 3 f_equal.
  destruct (aws _); cbn; by rewrite <- ?app_assoc.
Qed.

(** The functions of the range, and the batches. *)
Definition range : list Z := seqZ (flFrom f) (flTo f - flFrom f).
Definition batches : list Z := seqZ 0 (groupCount f).

Lemma batches_range : concat (batchOf f <$> batches) = range.
Proof.
  pose proof groupCount_covers as (Hg&_). pose proof (batches_seqZ (Z.to_nat (groupCount f)) 0 ltac:(lia)) as Hb.
  rewrite Z2Nat.id in Hb by done. unfold batches. rewrite Hb by lia. by rewrite Z.mul_0_l, Z.add_0_r.
Qed.
Lemma updates_run o u r : fair o →
  updateAll f aws o u (Z.to_nat (groupCount f)) 0 r =
  if decide (Forall accepted (callsOf (upCall u) range))
  then Done ((), r <| calls ::= (λ c, c ++ started o u batches) |>) else Spins.
Proof.
  intros Ho. rewrite (updateAll_run o u Ho). pose proof groupCount_covers as (Hg&_).
  rewrite Z2Nat.id by done. fold batches. by rewrite batches_range.
Qed.

(** The calls that are asked for, and those of the updates in their orders. *)
Definition creations : list Call := if flCreate f then callsOf (createCall f) range else [].
Definition updates : list Call :=
  (if flCode f then callsOf (codeCall f) range else []) ++ (if flConfig f then callsOf (configCall f) range else []).
Definition updatesIn (oc og : Order) : list Call :=
  (if flCode f then started oc (updateCode f) batches else []) ++
  (if flConfig f then started og (updateConfig f) batches else []).
Lemma updatesIn_perm oc og : fair oc → fair og → updatesIn oc og ≡ₚ updates.
Proof.
  intros Hc Hf. unfold updatesIn, updates. destruct (flCode f), (flConfig f); rewrite ?started_perm by done;
    by rewrite ?batches_range.
Qed.

Lemma deploy_main_run oc og : fair oc → fair og →
  deploy_main f aws oc og (MkRun [] []) =
  if decide (Forall accepted updates)
  then Done ((), MkRun (creations ++ updatesIn oc og) (errors createCodes creations)) else Spins.
Proof.
  intros Hoc Hog. unfold deploy_main. erewrite bind_done.
  2:{ instantiate (1 := ran createCodes creations (MkRun [] [])). instantiate (1 := ()). unfold creations.
      destruct (flCreate f); [|done]. rewrite createLoop_run, Z2Nat.id by lia. done. }
  set (r0 := ran createCodes creations (MkRun [] [])).
  assert (Hone : ∀ (b : bool) o u r, fair o →
    (if b then updateAll f aws o u (Z.to_nat (groupCount f)) 0 else mret ()) r =
    if decide (Forall accepted (if b then callsOf (upCall u) range else []))
    then Done ((), r <| calls ::= (λ c, c ++ if b then started o u batches else []) |>) else Spins).
  { intros [] o u r Ho; [by apply updates_run|]. rewrite decide_True by constructor.
    cbn. rewrite app_nil_r. by destruct r. }
  pose proof (Hone (flCode f) oc (updateCode f) r0 Hoc) as H1. cbn [upCall updateCode] in H1.
  unfold updates. destruct (decide (Forall accepted (_ ++ _))) as [Hall|Hall].
  - apply list.Forall_app in Hall as [A1 A2]. rewrite decide_True in H1 by done.
    erewrite bind_done by exact H1. rewrite Hone by done. cbn [upCall updateConfig]. rewrite decide_True by done.
    unfold r0, ran, updatesIn. cbn. by rewrite <- app_assoc.
  - rewrite list.Forall_app in Hall.
    destruct (decide (Forall accepted (if flCode f then callsOf (codeCall f) range else []))) as [A1|A1].
    + erewrite bind_done by exact H1. rewrite Hone by done. cbn [upCall updateConfig]. by rewrite decide_False by tauto.
    + unfold mbind, M_bind. by rewrite H1.
Qed.
End batches.

(** C27: the deployment tool treats every function of the range exactly once,
    whatever the batch size: the batches that the floating-point group count
    gives are a partition of it, in order and no larger than asked for.  In
    whatever order the goroutines of a batch call AWS and get their answers:
    when AWS accepts the updates, the tool makes the creations in order, then
    the calls of the updates batch by batch, each call asked for once and no
    other, and returns; when AWS refuses one, it never returns, because the
    wait group of the batch is not told. *)
Theorem deploy_covers f aws oc og :
  0 < flBatch f < 2 ^ 53 → - 2 ^ 52 < flFrom f ∧ flFrom f ≤ flTo f ∧ flTo f ≤ 2 ^ 52 → fair oc → fair og →
  concat (batchOf f <$> batches f) = range f ∧
  (∀ j, j ∈ batches f → (0 < length (batchOf f j) ≤ Z.to_nat (flBatch f))%nat) ∧
  updatesIn f oc og ≡ₚ updates f ∧
  ((∀ c, c ∈ updates f → aws c = None) → deploy_main f aws oc og (MkRun [] []) =
     Done ((), MkRun (creations f ++ updatesIn f oc og) (errors aws createCodes (creations f)))) ∧
  (∀ c e, c ∈ updates f → aws c = Some e → deploy_main f aws oc og (MkRun [] []) = Spins).
Proof.
  intros Hb Hr Hoc Hog. pose proof (groupCount_covers f Hb Hr) as (Hg&Hg1&Hg2). split_and!.
  - by apply batches_range.
  - intros j [Hj1 Hj2]%elem_of_seqZ. rewrite batchOf_seqZ by (done || lia). rewrite length_seqZ. nia.
  - by apply updatesIn_perm.
  - intros Hok. rewrite deploy_main_run by done. rewrite decide_True; [done|]. by apply list.Forall_forall.
  - intros c e Hc He. rewrite deploy_main_run by done. rewrite decide_False; [done|].
    rewrite list.Forall_forall. intros Hall. specialize (Hall c Hc). unfold accepted in Hall. congruence.
Qed.

Section witness.
#[local] Open Scope string_scope.
(** The flags of an update of seven functions, by default five at a time. *)
Definition someFlags : Flags := MkFlags true false true 60 "CacheNode" false "lambda" 3 10 5 1024 "bucket".
Definition refusing (c : Call) : option AwsError :=
  match c with UpdateCode "CacheNode4" _ _ => Some (AwsErr "TooManyRequestsException" "slow down") | _ => None end.

(** The goroutines of a batch call AWS last one first. *)
Definition oneOrder : Order := MkOrder reverse (λ l, l).

Lemma deploy_covers_witness :
  (batchOf someFlags <$> [0; 1] = [[3; 4; 5; 6; 7]; [8; 9]]) ∧
  concat (batchOf someFlags <$> batches someFlags) = [3; 4; 5; 6; 7; 8; 9] ∧
  deploy_main someFlags refusing oneOrder oneOrder (MkRun [] []) = Spins ∧
  ∃ cs r, deploy_main someFlags (λ _, None) oneOrder oneOrder (MkRun [] []) = Done ((), r) ∧
    calls r = (creations someFlags ++ cs)%list ∧ cs ≡ₚ updates someFlags ∧ head cs = Some (codeCall someFlags "CacheNode7").
Proof.
  assert (Ho : fair oneOrder) by (intros l; split; [apply reverse_Permutation|reflexivity]).
  destruct (deploy_covers someFlags refusing oneOrder oneOrder) as (H1&_&H3&_&H4); [cbn; lia|cbn; lia|exact Ho|exact Ho|].
  destruct (deploy_covers someFlags (λ _, None) oneOrder oneOrder) as (_&_&_&H5&_); [cbn; lia|cbn; lia|exact Ho|exact Ho|].
  split; [vm_compute; reflexivity|]. split; [exact H1|]. split.
  - apply (H4 (UpdateCode "CacheNode4" "bucket" "lambda.zip") (AwsErr "TooManyRequestsException" "slow down")).
    + vm_compute. right. left.
    + reflexivity.
  - exists (updatesIn someFlags oneOrder oneOrder). eexists. split; [apply H5; intros; reflexivity|].
    split; [reflexivity|]. split; [exact H3|vm_compute; reflexivity].
Defined.
End witness.
