(* ===== verification/ProxyCollector.v ===== *)
(** * proxy/collector: the measurements of the proxy

    Each chunk request has an entry that its stages fill in; the last stage
    logs a line.  The handles that nanolog gives out are parameters, as are the
    times; a goroutine flushes the log when the proxy has been idle. *)

From Stdlib Require Import Ascii.
From stdpp Require Import pretty.
From S2P Require Import Prelude Lambdastore Request Connection Meta.

(** ** Data *)

Record dataEntry : Type := MkEntry {
  ecmd : string; ereqId : string; echunkId : string;
  estart : Z; eduration : Z; firstByte : Z; lambda2Server : Z; server2Client : Z;
  readBulk : Z; appendBulk : Z; eflush : Z; evalidate : Z
}.
#[global] Instance dataEntry_eta : Eta dataEntry := λ e,
  MkEntry (ecmd e) (ereqId e) (echunkId e) (estart e) (eduration e) (firstByte e) (lambda2Server e)
    (server2Client e) (readBulk e) (appendBulk e) (eflush e) (evalidate e).

(** [reqMap], and the lines given to nanolog for [LogData]: an entry by value. *)
Record Measures : Type := MkMeasures { reqMap : gmap string dataEntry; logged : list dataEntry }.
#[global] Instance Measures_eta : Eta Measures := λ m, MkMeasures (reqMap m) (logged m).

Definition ErrorNoEntry : string := "No collector log entry found.".

(** [fmt.Sprintf("%s-%s-%s", cmd, reqId, chunkId)] *)
Definition entryKey (cmd reqId chunkId : string) : string := cmd +:+ "-" +:+ reqId +:+ "-" +:+ chunkId.

(** The calls of [Collect], by handle, with their arguments: the program makes no
    others, which would go to nanolog as they are. *)
Inductive Handle : Type :=
  | LogStart (time : Z)
  | LogProxy (time duration bulk : Z)
  | LogServer2Client (total append flush time : Z)
  | LogValidate (duration : Z).
Record Event : Type := MkEvent { evCmdName : string; evReqId : string; evChunkId : string; evHandle : Handle }.
Definition evKey (e : Event) : string := entryKey (evCmdName e) (evReqId e) (evChunkId e).

(** What a stage does to its entry. *)
Definition stage (h : Handle) (x : dataEntry) : dataEntry :=
  match h with
  | LogStart _ => x
  | LogProxy t d b => x <| firstByte := i64 (t - estart x) |> <| lambda2Server := d |> <| readBulk := b |>
  | LogServer2Client s a fl t =>
      x <| server2Client := s |> <| appendBulk := a |> <| eflush := fl |> <| eduration := i64 (t - estart x) |>
  | LogValidate d => x <| evalidate := d |>
  end.
Definition isLast (h : Handle) : bool := match h with LogServer2Client _ _ _ _ => true | _ => false end.

(** [Collect], after it noted the time ([active_at] below); [ioLog] is what
    [nanolog.Log] returns. *)
Definition PCollect (ioLog : error) (e : Event) : M Measures error :=
  match evHandle e with
  | LogStart t =>
      modify (λ m, m <| reqMap ::= <[evKey e := MkEntry (evCmdName e) (evReqId e) (evChunkId e) t 0 0 0 0 0 0 0 0]> |>);;
      mret None
  | h =>
      m ← mget;
      match reqMap m !! evKey e with
      | None => mret (Some ErrorNoEntry)
      | Some x =>
          modify (λ m, m <| reqMap ::= <[evKey e := stage h x]> |>);;
          if isLast h then modify (λ m, m <| logged ::= (λ l, l ++ [stage h x]) |>);; mret ioLog
          else mret None
      end
  end.

(** Calls one after the other, each with what [nanolog.Log] returns. *)
Fixpoint collectAll (es : list (Event * error)) : M Measures (list error) :=
  match es with
  | [] => mret []
  | (e, io) :: es => r ← PCollect io e; rs ← collectAll es; mret (r :: rs)
  end.

(** ** The flushing goroutine *)

(** [LastActivity], [stopped], whether the ticker runs and whether its channel
    holds a tick, whether the goroutine has returned, and the flushes it made. *)
Record Ticking : Type := MkTicking {
  LastActivity : Z; stopped : bool; ticking : bool; tick : bool; treturned : bool; flushes : nat
}.
#[global] Instance Ticking_eta : Eta Ticking := λ t,
  MkTicking (LastActivity t) (stopped t) (ticking t) (tick t) (treturned t) (flushes t).

Definition idleTime : Z := 10 * 1000000000.
(** [Create] *)
Definition PCreate (now : Z) : Ticking := MkTicking now false true false false 0.
(** [Collect] notes the time. *)
Definition active_at (now : Z) (t : Ticking) : Ticking := t <| LastActivity := now |>.
(** The ticker ticks; a tick that nobody took is dropped. *)
Definition ticks (t : Ticking) : Ticking := if ticking t then t <| tick := true |> else t.
(** A round of the goroutine, which waits for a tick. *)
Definition flushRound (now : Z) (t : Ticking) : option Ticking :=
  if tick t && negb (treturned t) then
    let t := t <| tick := false |> in
    let t := if stopped t || bool_decide (idleTime ≤ now - LastActivity t) then t <| flushes ::= S |> else t in
    Some (if stopped t then t <| treturned := true |> else t)
  else None.
(** [Stop] *)
Definition PStop (t : Ticking) : Ticking := t <| stopped := true |> <| ticking := false |>.

(** ** Entries are kept apart *)

Definition sameKey (k : string) (e : Event) : Prop := evKey e = k.
#[global] Instance sameKey_dec k e : Decision (sameKey k e).
Proof. unfold sameKey. apply _. Defined.

(** The lines of a request. *)
Definition linesOf (k : string) (m : Measures) : list dataEntry :=
  filter (λ x, entryKey (ecmd x) (ereqId x) (echunkId x) = k) (logged m).

(** Entries know the key they are stored under. *)
Definition entries_ok (m : Measures) : Prop :=
  ∀ k x, reqMap m !! k = Some x → entryKey (ecmd x) (ereqId x) (echunkId x) = k.

(** Two states that agree on a request. *)
Definition agree (k : string) (m m' : Measures) : Prop :=
  reqMap m !! k = reqMap m' !! k ∧ linesOf k m = linesOf k m'.

Lemma stage_key h x : entryKey (ecmd (stage h x)) (ereqId (stage h x)) (echunkId (stage h x)) =
  entryKey (ecmd x) (ereqId x) (echunkId x).
Proof. by destruct h. Qed.

Lemma PCollect_total io e m : ∃ r m', PCollect io e m = Done (r, m').
Proof.
  unfold PCollect. destruct (evHandle e); [by eexists _, _|..];
    (erewrite bind_done by reflexivity); destruct (reqMap m !! evKey e); by eexists _, _.
Qed.

Lemma PCollect_ok io e m r m' : PCollect io e m = Done (r, m') → entries_ok m → entries_ok m'.
Proof.
  intros Hr Hm. unfold PCollect in Hr.
  assert (Hput : ∀ x, entryKey (ecmd x) (ereqId x) (echunkId x) = evKey e →
    entries_ok (m <| reqMap ::= <[evKey e := x]> |>)).
  { intros x Hx k y. cbn. rewrite lookup_insert_Some. intros [[<- <-]|[_ Hy]]; [done|by apply Hm]. }
  destruct (evHandle e) as [t|t d b|s a fl t|d]; [by injection Hr as _ <-; apply Hput|..];
    (erewrite bind_done in Hr by reflexivity); (destruct (reqMap m !! evKey e) as [x|] eqn:E; [|by injection Hr as _ <-]);
    injection Hr as _ <-; apply Hput; exact (Hm _ _ E).
Qed.

(** An event leaves the other requests alone. *)
Lemma PCollect_other io e m r m' k : PCollect io e m = Done (r, m') → entries_ok m → ¬ sameKey k e → agree k m m'.
Proof.
  intros Hr Hm Hk. unfold sameKey in Hk. unfold PCollect in Hr.
  destruct (evHandle e) as [t|t d b|s a fl t|d]; [injection Hr as _ <-; split; [cbn; by rewrite lookup_insert_ne|done]|..];
    (erewrite bind_done in Hr by reflexivity); (destruct (reqMap m !! evKey e) as [x|] eqn:E; [|by injection Hr as _ <-]);
    injection Hr as _ <-; (split; [cbn; by rewrite lookup_insert_ne|]); try done.
  unfold linesOf. cbn [logged update]. rewrite list.filter_app. cbn. rewrite decide_False; [by rewrite app_nil_r|].
  rewrite (Hm _ _ E). done.
Qed.

(** The events of a request act on its entry only. *)
Lemma PCollect_same io e m1 m2 r m1' k : PCollect io e m1 = Done (r, m1') → sameKey k e → agree k m1 m2 →
  ∃ m2', PCollect io e m2 = Done (r, m2') ∧ agree k m1' m2'.
Proof.
  intros Hr Hk [Ha Hl]. unfold sameKey in Hk. subst k. unfold PCollect in *.
  destruct (evHandle e) as [t|t d b|s a fl t|d].
  - injection Hr as <- <-. eexists. split; [reflexivity|]. split; [cbn; by rewrite !lookup_insert_eq|done].
  - erewrite bind_done in Hr by reflexivity. erewrite bind_done by reflexivity. rewrite <- Ha.
    destruct (reqMap m1 !! evKey e) as [x|] eqn:E; injection Hr as <- <-; (eexists; split; [reflexivity|]);
      split; try done; [cbn; by rewrite !lookup_insert_eq|congruence].
  - erewrite bind_done in Hr by reflexivity. erewrite bind_done by reflexivity. rewrite <- Ha.
    destruct (reqMap m1 !! evKey e) as [x|] eqn:E; injection Hr as <- <-; (eexists; split; [reflexivity|]);
      split; try done; [cbn; by rewrite !lookup_insert_eq| |congruence].
    unfold linesOf in *. cbn [logged update]. by rewrite !list.filter_app, Hl.
  - erewrite bind_done in Hr by reflexivity. erewrite bind_done by reflexivity. rewrite <- Ha.
    destruct (reqMap m1 !! evKey e) as [x|] eqn:E; injection Hr as <- <-; (eexists; split; [reflexivity|]);
      split; try done; [cbn; by rewrite !lookup_insert_eq|congruence].
Qed.

Definition eventsOf (k : string) (es : list (Event * error)) : list (Event * error) :=
  filter (λ x, sameKey k x.1) es.

(** The results of the calls of a request. *)
Definition resultsOf (k : string) (es : list (Event * error)) (rs : list error) : list error :=
  (filter (λ x : (Event * error) * error, sameKey k x.1.1) (zip es rs)).*2.

Lemma collectAll_local k es m1 m2 :
  entries_ok m1 → agree k m1 m2 →
  ∃ rs m1' rs' m2', collectAll es m1 = Done (rs, m1') ∧ collectAll (eventsOf k es) m2 = Done (rs', m2') ∧
    agree k m1' m2' ∧ resultsOf k es rs = rs'.
Proof.
  revert m1 m2. induction es as [|[e io] es IH]; intros m1 m2 Hok Ha; [by eexists _, _, _, _|].
  destruct (PCollect_total io e m1) as (r&m&Hr). pose proof (PCollect_ok _ _ _ _ _ Hr Hok) as Hok'.
  cbn [collectAll]. unfold eventsOf, resultsOf. rewrite list.filter_cons. cbn [fst].
  destruct (decide (sameKey k e)) as [Hk|Hk].
  - destruct (PCollect_same _ _ _ _ _ _ _ Hr Hk Ha) as (m2'&Hr2&Ha2).
    destruct (IH m m2' Hok' Ha2) as (rs&m1'&rs'&m2''&H1&H2&H3&H4).
    eexists (r :: rs), m1', (r :: rs'), m2''. split; [erewrite bind_done by exact Hr; by erewrite bind_done by exact H1|].
    split; [cbn [collectAll]; erewrite bind_done by exact Hr2; by erewrite bind_done by exact H2|].
    split; [done|]. cbn [zip zip_with]. rewrite list.filter_cons. cbn [fst]. rewrite decide_True by done.
    cbn. f_equal. exact H4.
  - destruct (PCollect_other _ _ _ _ _ k Hr Hok Hk) as [Ho1 Ho2]. destruct Ha as [Ha1 Ha2].
    destruct (IH m m2 Hok') as (rs&m1'&rs'&m2''&H1&H2&H3&H4); [split; congruence|].
    eexists (r :: rs), m1', rs', m2''. split; [erewrite bind_done by exact Hr; by erewrite bind_done by exact H1|].
    split; [exact H2|]. split; [done|]. cbn [zip zip_with]. rewrite list.filter_cons. cbn [fst].
    rewrite decide_False by done. exact H4.
Qed.

Lemma entries_ok_empty : entries_ok (MkMeasures ∅ []).
Proof. intros k x. cbn. by rewrite lookup_empty. Qed.

(** *** Keys of distinct requests *)

Fixpoint noDash (s : string) : bool :=
  match s with EmptyString => true | String a s => negb (bool_decide (a = "-"%char)) && noDash s end.
(** Commands are words and chunk ids decimal numbers; request ids are free. *)
Definition clean (e : Event) : Prop := noDash (evCmdName e) = true ∧ noDash (evChunkId e) = true.

Lemma split_first s1 t1 s2 t2 : noDash s1 = true → noDash s2 = true →
  s1 +:+ "-" +:+ t1 = s2 +:+ "-" +:+ t2 → s1 = s2 ∧ t1 = t2.
Proof.
  revert s2. induction s1 as [|c s1 IH]; intros [|d s2]; cbn; intros H1 H2 E.
  - by injection E.
  - injection E as <- _. by rewrite bool_decide_eq_true_2 in H2.
  - injection E as -> _. by rewrite bool_decide_eq_true_2 in H1.
  - injection E as -> E. apply andb_true_iff in H1 as [_ H1], H2 as [_ H2]. by destruct (IH s2 H1 H2 E) as [-> ->].
Qed.
Lemma noDash_app s t : noDash (s +:+ String "-"%char t) = false.
Proof.
  induction s as [|c s IH]; [done|]. change (negb (bool_decide (c = "-"%char)) && noDash (s +:+ String "-"%char t) = false).
  rewrite IH. apply andb_false_r.
Qed.
Lemma split_last s1 t1 s2 t2 : noDash t1 = true → noDash t2 = true →
  s1 +:+ "-" +:+ t1 = s2 +:+ "-" +:+ t2 → s1 = s2 ∧ t1 = t2.
Proof.
  revert s2. induction s1 as [|c s1 IH]; intros [|d s2]; cbn; intros H1 H2 E.
  - by injection E.
  - injection E as _ E. change (t1 = s2 +:+ String "-"%char t2) in E. by rewrite E, noDash_app in H1.
  - injection E as _ E. change (s1 +:+ String "-"%char t1 = t2) in E. by rewrite <- E, noDash_app in H2.
  - injection E as -> E. by destruct (IH s2 H1 H2 E) as [-> ->].
Qed.
Lemma entryKey_inj c1 r1 k1 c2 r2 k2 : noDash c1 = true → noDash c2 = true → noDash k1 = true → noDash k2 = true →
  entryKey c1 r1 k1 = entryKey c2 r2 k2 → c1 = c2 ∧ r1 = r2 ∧ k1 = k2.
Proof.
  intros H1 H2 H3 H4 E. unfold entryKey in E. apply split_first in E as [-> E]; [|done..].
  by apply split_last in E as [-> ->].
Qed.

(** The events and the lines of the request [cmd], [rq] for the chunk [ck]. *)
Definition eventsFor (cmd rq ck : string) (es : list (Event * error)) : list (Event * error) :=
  filter (λ x, evCmdName x.1 = cmd ∧ evReqId x.1 = rq ∧ evChunkId x.1 = ck) es.
Definition linesFor (cmd rq ck : string) (m : Measures) : list dataEntry :=
  filter (λ x, ecmd x = cmd ∧ ereqId x = rq ∧ echunkId x = ck) (logged m).

Lemma eventsFor_key cmd rq ck es : noDash cmd = true → noDash ck = true → (∀ x, x ∈ es → clean x.1) →
  eventsOf (entryKey cmd rq ck) es = eventsFor cmd rq ck es.
Proof.
  intros Hc Hk Hes. unfold eventsOf, eventsFor. induction es as [|x es IH]; [done|].
  rewrite !list.filter_cons, IH by (intros; apply Hes; by right).
  destruct (Hes x) as [H1 H2]; [by left|]. unfold sameKey, evKey.
  destruct (decide (_ ∧ _)) as [(<-&<-&<-)|Hn]; [by rewrite decide_True|].
  rewrite decide_False; [done|]. intros E. apply Hn. by apply entryKey_inj in E.
Qed.
Lemma linesFor_key cmd rq ck m : linesFor cmd rq ck m =
  filter (λ x, ecmd x = cmd ∧ ereqId x = rq ∧ echunkId x = ck) (linesOf (entryKey cmd rq ck) m).
Proof.
  unfold linesFor, linesOf. rewrite list_filter_filter. apply list_filter_iff. intros x. naive_solver.
Qed.

(** C26: the line that is logged for a chunk request has its own measurements.
    However its stages are interleaved with those of other requests (whose
    command, request id or chunk id differs), when the request was started,
    validated, answered by the lambda and sent to the client, exactly one line
    is logged for it, with the times relative to its start and the durations of
    its stages, and none of its calls fails. *)
Theorem collect_measures es cmd rq ck t0 v tp d b s a fl te :
  let at_ h : Event * error := (MkEvent cmd rq ck h, None) in
  noDash cmd = true → noDash ck = true → (∀ x, x ∈ es → clean x.1) →
  eventsFor cmd rq ck es = [at_ (LogStart t0); at_ (LogValidate v); at_ (LogProxy tp d b); at_ (LogServer2Client s a fl te)] →
  ∃ rs m, collectAll es (MkMeasures ∅ []) = Done (rs, m) ∧
    linesFor cmd rq ck m = [MkEntry cmd rq ck t0 (i64 (te - t0)) (i64 (tp - t0)) d s b a fl v] ∧
    resultsOf (entryKey cmd rq ck) es rs = [None; None; None; None].
Proof.
  intros at_ Hc Hk Hcl Hes. rewrite <- eventsFor_key in Hes by done. set (k := entryKey cmd rq ck) in *.
  destruct (collectAll_local k es (MkMeasures ∅ []) (MkMeasures ∅ []) entries_ok_empty) as (rs&m&rs'&m'&H1&H2&[_ H3]&H4); [done|].
  rewrite Hes in H2. set (line := MkEntry _ _ _ _ _ _ _ _ _ _ _ _).
  assert (linesOf k m' = [line] ∧ rs' = [None; None; None; None]) as [El Er].
  { unfold at_ in H2. cbn [collectAll] in H2. unfold PCollect in H2. cbn [evHandle] in H2.
    unfold mbind, M_bind, mret, M_ret, modify, mget in H2. cbn -[entryKey i64] in H2.
    change (evKey _) with k in H2. repeat (rewrite lookup_insert_eq in H2; cbn -[entryKey i64] in H2).
    injection H2 as <- <-. split; [|done]. unfold linesOf. cbn [logged update]. cbn [app].
    rewrite list.filter_cons. cbn [ecmd ereqId echunkId]. by rewrite decide_True. }
  exists rs, m. split; [exact H1|]. split; [|by rewrite H4].
  rewrite linesFor_key. fold k. rewrite H3, El, list.filter_cons, decide_True by done. done.
Qed.

Section witness.
#[local] Open Scope string_scope.
Definition ofA (h : Handle) : Event * error := (MkEvent "get" "a-1" "0" h, None).
Definition ofB (h : Handle) : Event * error := (MkEvent "get" "a" "1" h, None).
Definition twoRequests : list (Event * error) :=
  [ofA (LogStart 100); ofB (LogStart 110); ofA (LogValidate 5); ofB (LogProxy 140 7 0); ofA (LogProxy 130 6 0);
   ofA (LogServer2Client 9 1 2 200)].
Lemma collect_measures_witness : ∃ rs m, collectAll twoRequests (MkMeasures ∅ []) = Done (rs, m) ∧
  linesFor "get" "a-1" "0" m = [MkEntry "get" "a-1" "0" 100 100 30 6 9 0 1 2 5].
Proof.
  destruct (collect_measures twoRequests "get" "a-1" "0" 100 5 130 6 0 9 1 2 200) as (rs&m&H1&H2&_).
  - reflexivity.
  - reflexivity.
  - rewrite <- list.Forall_forall. repeat constructor.
  - vm_compute. reflexivity.
  - exists rs, m. split; [exact H1|exact H2].
Defined.
End witness.

(** Entries are never removed. *)
Lemma PCollect_grows io e m r m' : PCollect io e m = Done (r, m') → dom (reqMap m) ⊆ dom (reqMap m').
Proof.
  intros Hr. unfold PCollect in Hr.
  destruct (evHandle e) as [t|t d b|s a fl t|d]; [injection Hr as _ <-; cbn; set_solver|..];
    (erewrite bind_done in Hr by reflexivity); destruct (reqMap m !! evKey e) as [x|] eqn:E;
    injection Hr as _ <-; cbn; set_solver.
Qed.

(** A stage of a request that was not started is an error, and changes nothing. *)
Lemma PCollect_no_entry io e m : (∀ t, evHandle e ≠ LogStart t) → reqMap m !! evKey e = None →
  PCollect io e m = Done (Some ErrorNoEntry, m).
Proof.
  intros Hh Hn. unfold PCollect. destruct (evHandle e) as [t|t d b|s a fl t|d]; [by destruct (Hh t)|..];
    (erewrite bind_done by reflexivity); by rewrite Hn.
Qed.

(** Activity within the last ten seconds puts a flush off. *)
Lemma active_no_flush now now' t t' : stopped t = false → now' - now < idleTime →
  flushRound now' (active_at now t) = Some t' → flushes t' = flushes t.
Proof.
  intros Hs Hn Hr. unfold flushRound in Hr. cbn in Hr. destruct (tick t && negb (treturned t)); [|done].
  rewrite Hs, bool_decide_false in Hr by lia. injection Hr as <-. done.
Qed.

(** [Stop] stops the ticker, whose channel stays open: unless a tick was left in
    it, the goroutine never runs again, neither to flush nor to return. *)
Lemma stop_blocks_flush n now t : tick t = false → flushRound now (Nat.iter n ticks (PStop t)) = None.
Proof.
  intros Ht. assert (Nat.iter n ticks (PStop t) = PStop t) as ->.
  { induction n as [|n IH]; [done|]. change (ticks (Nat.iter n ticks (PStop t)) = PStop t). by rewrite IH. }
  unfold flushRound, PStop. cbn. by rewrite Ht.
Qed.
