(* ===== verification/Lifecycle.v ===== *)
(** * proxy/server/proxy.go: from [New] to [Release]

    A started proxy has an instance in every slot of its group; a released one
    has returned every deployment it held. *)

From S2P Require Import Prelude Lambdastore Request Instance Connection Validation Group Meta Placer Scheduler SchedulerTheorems Proxy.

(** ** Releasing *)

Section release.
Context {H : Type} {HM : HashMap Z gptr H} {HL : HashMapLaws Z gptr H}.
Implicit Types (s : Scheduler H) (d : dptr) (k : Z) (p q : gptr).

Definition clearSlot (z : Z) (x : Group) : Group := x <| All ::= zinsert z None |>.

(** The active entries after one was recycled. *)
Definition without s k s' : Prop := ∀ k' q, active s' k' q ↔ k' ≠ k ∧ active s k' q.

(** Same groups and group instances. *)
Definition same_groups s s' : Prop :=
  groups (ssh s') = groups (ssh s) ∧ ginsts (ssh s') = ginsts (ssh s).

Lemma cleared_slot z gr z' q :
  zlookup (All (clearSlot z gr)) z' = Some (Some q) → z' ≠ z ∧ zlookup (All gr) z' = Some (Some q).
Proof.
  cbn. intros Hz. destruct (decide (z = z')) as [<-|Hne]; [|by rewrite zlookup_zinsert_ne in Hz].
  rewrite zlookup_zinsert_eq in Hz; [done|]. apply zlookup_lt in Hz. by rewrite length_zinsert in Hz.
Qed.

(** Clearing a slot forgets nothing. *)
Definition withGroups (gs : gmap grp Group) s : Scheduler H := s <| ssh ::= (λ h, h <| groups := gs |>) |>.
Lemma SchedInv_clear s g gr z :
  SchedInv s → groups (ssh s) !! g = Some gr →
  SchedInv (withGroups (alter (clearSlot z) g (groups (ssh s))) s).
Proof.
  intros [i1 i2 i3 i4 i5] Hg. split; [done..|]. intros g' gr' z' q Hg' Hz'. cbn in Hg'.
  destruct (decide (g' = g)) as [->|Hne].
  - rewrite lookup_alter_eq, Hg in Hg'. injection Hg' as <-. apply cleared_slot in Hz' as [_ Hz']. by eapply i5.
  - rewrite lookup_alter_ne in Hg' by done. by eapply i5.
Qed.

(** What [Recycle] of an active instance does. *)
Lemma recycled D s k p :
  SchedSys D s → active s k p →
  ∃ gi d s1, onS (getGI p) s = Done (gi, s) ∧ ginsts (ssh s) !! p = Some gi ∧
    Recycle (gdep gi) s = Done ((), s1) ∧ gdep_of s p = Some d ∧ id_of s d = Some k ∧
    poolCap s1 = poolCap s ∧ IInv (ls (ssh s1)) ∧
    heap_same (s <| pool := pool s ++ [d] |> <| actives := hm_Del (actives s) k |>) s1.
Proof.
  intros Hsys Ha. pose proof Hsys as [HI HII Ho Hc].
  destruct (sc_active s HI k p Ha) as (d&Hd&Hk&_).
  destruct (gdep_of_inv s p d Hd) as (gi&Hgi&Hdep). destruct (id_of_inv s d k Hk) as (v&Hv&<-).
  destruct (Recycle_run s (gdep gi) d v) as (s1&Hr&Hcap&Hs); [done..|by eapply sys_room|].
  exists gi, d, s1. split_and!; try done; [by apply getGI_run|].
  eapply (JJ_Recycle IInv); [|exact HII|exact Hr]. apply IInv_Inst_Close.
Qed.

Lemma without_del s k s' : actives s' = hm_Del (actives s) k → without s k s'.
Proof.
  intros E k' q. unfold active. rewrite E. destruct (decide (k = k')) as [<-|Hne].
  - rewrite hm_get_del_eq. naive_solver.
  - rewrite hm_get_del_ne by done. naive_solver.
Qed.

(** An active instance that no slot holds. *)
Lemma recycle_free D s k p :
  SchedSys D s → active s k p →
  (∀ g gr z, groups (ssh s) !! g = Some gr → zlookup (All gr) z ≠ Some (Some p)) →
  ∃ gi s', onS (getGI p) s = Done (gi, s) ∧ ginsts (ssh s) !! p = Some gi ∧
    Recycle (gdep gi) s = Done ((), s') ∧ SchedSys D s' ∧ same_groups s s' ∧ without s k s'.
Proof.
  intros Hsys Ha Hslot. destruct (recycled D s k p Hsys Ha) as (gi&d&s1&Hg&Hgi&Hr&Hd&Hk&Hcap&HII&Hs).
  exists gi, s1. split_and!; try done.
  - eapply SchedSys_step; [done| |done|done]. by eapply (SchedInv_return s s1 k p d); [apply Hsys|..].
  - by destruct Hs.
  - by apply without_del; destruct Hs.
Qed.

(** A slot: its instance is recycled, then the slot is cleared. *)
Lemma release_slot D s g gr z p :
  SchedSys D s → groups (ssh s) !! g = Some gr → zlookup (All gr) z = Some (Some p) →
  ∃ gi s', onS (getGI p) s = Done (gi, s) ∧
    (Recycle (gdep gi);; onS (modGroup g (λ x, x <| All ::= zinsert z None |>))) s = Done ((), s') ∧
    SchedSys D s' ∧ groups (ssh s') = alter (clearSlot z) g (groups (ssh s)) ∧
    ginsts (ssh s') = ginsts (ssh s) ∧ ∃ k, active s k p ∧ without s k s'.
Proof.
  intros Hsys Hg Hz. pose proof Hsys as [HI HII Ho Hc].
  destruct (sc_slot s HI g gr z p Hg Hz) as [[k Ha] (gp&i&Hgp&Ei&Eg&Ez)].
  destruct (recycled D s k p Hsys Ha) as (gi&d&s1&Hget&Hgi&Hr&Hd&Hk&Hcap&HII1&Hs).
  set (gs := alter (clearSlot z) g (groups (ssh s))).
  exists gi, (withGroups gs s1). pose proof Hs as [h1 h2 h3 h4 h5 h6].
  assert (Hrun : (Recycle (gdep gi);; onS (modGroup g (λ x, x <| All ::= zinsert z None |>))) s =
    Done ((), withGroups gs s1)).
  { erewrite bind_done by exact Hr. unfold onS, zoom, modGroup, modify, withGroups, gs. cbn.
    cbn in h4. by rewrite h4. }
  destruct (SchedInv_return (withGroups gs s) (withGroups gs s1) k p d) as [HI' Hcons].
  - by apply (SchedInv_clear s g gr z).
  - exact Ha.
  - exact Hd.
  - exact Hk.
  - intros g' gr' z' Hg' Hz'. unfold gs in Hg'. cbn in Hg'. destruct (decide (g' = g)) as [->|Hne].
    + rewrite lookup_alter_eq, Hg in Hg'. injection Hg' as <-. apply cleared_slot in Hz' as [Hne Hz'].
      destruct (sc_slot s HI g gr z' p Hg Hz') as [_ (gq&?&Hgq&_&_&<-)]. congruence.
    + rewrite lookup_alter_ne in Hg' by done.
      destruct (sc_slot s HI g' gr' z' p Hg' Hz') as [_ (gq&?&Hgq&_&<-&_)]. congruence.
  - split; try done.
  - split_and!; try done.
    + eapply (SchedSys_step D s); [done| |done|done]. split; [done|]. exact Hcons.
    + exists k. split; [done|]. by apply without_del.
Qed.

(** No slot of the group holds an instance. *)
Definition vacant s (g : grp) : Prop :=
  ∀ gr z q, groups (ssh s) !! g = Some gr → zlookup (All gr) z ≠ Some (Some q).

(** The loop of [Release], from slot [i]. *)
Lemma releaseNodes_run D g l : ∀ i s gr,
  SchedSys D s → groups (ssh s) !! g = Some gr → 0 ≤ i → drop (Z.to_nat i) (All gr) = l →
  (∀ o, o ∈ l → is_Some o) → (∀ z q, z < i → zlookup (All gr) z ≠ Some (Some q)) →
  ∃ s', releaseNodes g i l s = Done ((), s') ∧ SchedSys D s' ∧ vacant s' g ∧
    (∃ gr', groups (ssh s') !! g = Some gr') ∧ ginsts (ssh s') = ginsts (ssh s) ∧
    (∀ k q, active s' k q → active s k q).
Proof.
  induction l as [|o l IH]; intros i s gr Hsys Hg Hi Hl Hall Hpast.
  { exists s. split_and!; try done; [|by exists gr]. intros gr' z q Hg' Hz'. assert (gr' = gr) as -> by congruence.
    destruct (decide (z < i)); [by eapply Hpast|]. apply zlookup_Some in Hz' as [_ Hz'].
    apply lookup_lt_Some in Hz'. assert (length (drop (Z.to_nat i) (All gr)) = 0%nat) as E by (by rewrite Hl).
    rewrite length_drop in E. lia. }
  destruct (Hall o) as [p ->]; [by left|].
  assert (Hz : zlookup (All gr) i = Some (Some p)).
  { unfold zlookup. rewrite decide_True by done. rewrite <- (Nat.add_0_r (Z.to_nat i)), <- lookup_drop, Hl. done. }
  destruct (release_slot D s g gr i p Hsys Hg Hz) as (gi&s1&Hget&Hrun&Hsys1&Hg1&Hgi1&k&_&Hw).
  assert (Hg1' : groups (ssh s1) !! g = Some (clearSlot i gr)) by (rewrite Hg1, lookup_alter_eq, Hg; done).
  destruct (IH (i + 1) s1 (clearSlot i gr) Hsys1 Hg1') as (s'&Hr&Hsys'&Hv&Hex&Hgi'&Hact).
  - lia.
  - cbn. unfold zinsert. rewrite decide_True by done. rewrite Z2Nat.inj_add, Nat.add_comm by lia. cbn [Z.to_nat].
    change (Pos.to_nat 1 + Z.to_nat i)%nat with (S (Z.to_nat i)).
    apply zlookup_Some in Hz as [_ Hz]. rewrite drop_insert_lt by lia.
    rewrite (drop_S _ _ _ Hz) in Hl. by injection Hl.
  - intros o Ho. apply Hall. by right.
  - intros z q Hz' Hzq. apply cleared_slot in Hzq as [Hne Hzq]. eapply (Hpast z q); [lia|done].
  - exists s'. split_and!; [|done|done|done|congruence|].
    + cbn [releaseNodes]. erewrite bind_done by reflexivity. erewrite bind_done by exact Hget.
      unfold mbind, M_bind in Hrun |- *. destruct (Recycle (gdep gi) s) as [[[] s2]| |]; [|done..].
      rewrite Hrun. exact Hr.
    + intros k' q Ha. by apply Hact, Hw in Ha as [_ Ha].
Qed.

(** Entries of a vacant group. *)
Lemma vacant_free D s g p gi : SchedSys D s → vacant s g → ginsts (ssh s) !! p = Some gi → ggroup gi = g →
  ∀ g' gr z, groups (ssh s) !! g' = Some gr → zlookup (All gr) z ≠ Some (Some p).
Proof.
  intros Hsys Hv Hgi <- g' gr z Hg Hz. destruct (sc_slot s (sy_inv _ _ Hsys) g' gr z p Hg Hz) as [_ (gq&?&Hgq&_&E&_)].
  assert (gq = gi) as -> by congruence. rewrite <- E in Hg. by eapply Hv.
Qed.

(** [Clear] on the entries [l] of the iteration. *)
Lemma recycleAll_run D g l : ∀ s,
  SchedSys D s → vacant s g → NoDup l.*1 → (∀ k p, (k, p) ∈ l → active s k p) →
  ∃ s', recycleAll (λ _ gi, negb (bool_decide (ggroup gi = g))) l s = Done ((), s') ∧ SchedSys D s' ∧
    ginsts (ssh s') = ginsts (ssh s) ∧
    (∀ k q, active s' k q → active s k q ∧ ∀ gi, (k, q) ∈ l → ginsts (ssh s) !! q = Some gi → ggroup gi ≠ g).
Proof.
  induction l as [|[k p] l IH]; intros s Hsys Hv Hnd Hl.
  { exists s. split_and!; try done. intros k q Ha. split; [done|]. by intros gi ?%not_elem_of_nil. }
  cbn [fmap list_fmap fst] in Hnd. apply list.NoDup_cons in Hnd as [Hk Hnd].
  pose proof (Hl k p ltac:(by left)) as Ha.
  destruct (sc_active s (sy_inv _ _ Hsys) k p Ha) as (d&Hd&_). apply gdep_of_inv in Hd as (gi&Hgi&_).
  assert (Hfst : ∀ k' q, (k', q) ∈ l → k' ≠ k).
  { intros k' q Hin ->. apply Hk. apply list_elem_of_fmap. by exists (k, q). }
  cbn [recycleAll]. erewrite bind_done by (by apply getGI_run).
  destruct (decide (ggroup gi = g)) as [Eg|Eg].
  - rewrite bool_decide_true by done. cbn [negb].
    destruct (recycle_free D s k p Hsys Ha) as (gi'&s1&_&Hgi'&Hr&Hsys1&[Hgs Hgis]&Hw); [by eapply vacant_free|].
    assert (gi' = gi) as -> by congruence. erewrite bind_done by exact Hr.
    destruct (IH s1) as (s'&Hr'&Hsys'&Hgi1&Hact); [done| |done| |].
    { intros gr z q Hg. rewrite Hgs in Hg. by apply Hv. }
    { intros k' q Hin. apply Hw. split; [by eapply Hfst|]. apply Hl. by right. }
    exists s'. split_and!; [done|done|congruence|]. intros k' q Hq. destruct (Hact k' q Hq) as [Hq1 Hrest].
    apply Hw in Hq1 as [Hne Hq1]. split; [done|]. intros gi1 [E|Hin]%elem_of_cons Hgi1'; [congruence|].
    apply Hrest; [done|]. by rewrite Hgis.
  - rewrite bool_decide_false by done. cbn [negb]. erewrite bind_done by reflexivity.
    destruct (IH s) as (s'&Hr'&Hsys'&Hgi1&Hact); [done|done|done| |].
    { intros k' q Hin. apply Hl. by right. }
    exists s'. split_and!; [done|done|done|]. intros k' q Hq. destruct (Hact k' q Hq) as [Hq1 Hrest].
    split; [done|]. intros gi1 [E|Hin]%elem_of_cons Hgi1'; [|by apply Hrest]. injection E as -> ->. congruence.
Qed.

(** A proxy that is released has returned every deployment it held, whatever
    happened while it ran: [Release] does not block or panic, no instance of
    the group stays active, the scheduler has the same deployments as before,
    and when the group was the only one, all are back in the pool, each once. *)
Lemma Release_returns D s g gr :
  SchedSys D s → groups (ssh s) !! g = Some gr → (∀ o, o ∈ All gr → is_Some o) →
  ∃ s', Release g s = Done ((), s') ∧ SchedSys D s' ∧
    (∀ k q gi, active s' k q → ginsts (ssh s') !! q = Some gi → ggroup gi ≠ g) ∧
    (NoDup D → (∀ k q gi, active s k q → ginsts (ssh s) !! q = Some gi → ggroup gi = g) → pool s' ≡ₚ D).
Proof.
  intros Hsys Hg Hall.
  destruct (releaseNodes_run D g (All gr) 0 s gr) as (s1&Hr1&Hsys1&Hv1&[gr1 Hgr1]&Hgi1&Hact1); try done.
  { intros z q Hz Hzq. apply zlookup_Some in Hzq as [? _]. lia. }
  destruct (recycleAll_run D g (hm_Iter (actives s1)) s1) as (s2&Hr2&Hsys2&Hgi2&Hact2); try done.
  { apply hm_iter_nodup. }
  { intros k p Hkp. by apply hm_iter in Hkp. }
  assert (Hgone : ∀ k q gi, active s2 k q → ginsts (ssh s2) !! q = Some gi → ggroup gi ≠ g).
  { intros k q gi Ha Hgi. destruct (Hact2 k q Ha) as [Ha1 Hrest]. apply Hrest; [by apply hm_iter|congruence]. }
  exists s2. split; [|split; [done|split; [done|]]].
  - assert (Hget : onS (getGroup g) s = Done (gr, s)).
    { unfold onS, zoom, getGroup. rewrite Hg. by destruct s. }
    unfold Release. erewrite bind_done by exact Hget.
    erewrite bind_done by exact Hr1. unfold Clear. erewrite bind_done by reflexivity. exact Hr2.
  - intros HD Honly. apply NoDup_Permutation; [apply (sc_pool s2 (sy_inv _ _ Hsys2))|done|].
    intros d. rewrite <- (sy_owned _ _ Hsys2 d). unfold owned. split; [by left|].
    intros [Hd|(k&q&Ha&Hd)]; [done|]. exfalso. apply gdep_of_inv in Hd as (gi&Hgi&_).
    apply (Hgone k q gi Ha Hgi). apply (Honly k q gi); [by apply Hact1, Hact2|congruence].
Qed.

(** ** Starting *)

(** [GetForGroup] takes the first deployment of the pool and fills the slot. *)
Lemma GetForGroup_run D s g gr idx d l :
  SchedSys D s → pool s = d :: l → groups (ssh s) !! g = Some gr → 0 ≤ idx < Z.of_nat (length (All gr)) →
  ∃ i p s', GetForGroup g idx s = Done (i, s') ∧ pool s' = l ∧
    groups (ssh s') = alter (λ x, x <| All ::= zinsert idx (Some p) |>) g (groups (ssh s)) ∧
    is_Some (insts (ls (ssh s')) !! i) ∧
    (∀ k q gi, active s' k q → ginsts (ssh s') !! q = Some gi → ggroup gi = g ∨
       active s k q ∧ ginsts (ssh s) !! q = Some gi).
Proof.
  intros Hsys Hp Hg Hidx. destruct (sc_poolid s (sy_inv _ _ Hsys) d) as [k Hk]; [rewrite Hp; by left|].
  destruct (id_of_inv s d k Hk) as (v&Hv&<-). unfold GetForGroup.
  erewrite bind_done by (unfold takePool; by rewrite Hp).
  erewrite bind_done by reflexivity. set (i := fresh_inst _).
  erewrite bind_done by reflexivity. set (p := fresh _).
  erewrite bind_done.
  2:{ eapply (GI_Id_run p _ (MkGroupInstance (LInstance i) g idx) d v).
      - cbn. apply lookup_insert_eq.
      - cbn. by rewrite lookup_insert_eq.
      - cbn. exact Hv. }
  erewrite bind_done by reflexivity.
  erewrite bind_done.
  2:{ unfold onS, zoom, SetGI. cbn. erewrite bind_done by (unfold getGI; cbn; by rewrite lookup_insert_eq).
      cbn [gdep]. erewrite bind_done by reflexivity. erewrite bind_done by (unfold getGroup; cbn; by rewrite Hg).
      cbn [gidx]. rewrite decide_True by done. reflexivity. }
  erewrite bind_done by (apply getGI_run; cbn; apply lookup_insert_eq).
  exists i, p. eexists. split; [reflexivity|]. split; [done|]. split; [done|]. split.
  - cbn. rewrite lookup_insert_eq. by eexists.
  - intros k q gi Ha Hgi. cbn in Hgi. apply lookup_insert_Some in Hgi as [[<- <-]|[Hne Hgi]]; [by left|].
    right. split; [|done]. unfold active in *. cbn in Ha. destruct (decide (did v = k)) as [<-|Hk'].
    + rewrite hm_get_set_eq in Ha. by injection Ha as ->.
    + by rewrite hm_get_set_ne in Ha.
Qed.

(** Every active instance belongs to the group. *)
Definition only s (g : grp) : Prop := ∀ k q gi, active s k q → ginsts (ssh s) !! q = Some gi → ggroup gi = g.

(** The loop of [New], from slot [i]. *)
Lemma initNodes_run D g n : ∀ i s gr,
  SchedSys D s → groups (ssh s) !! g = Some gr → 0 ≤ i → i + Z.of_nat n = Z.of_nat (length (All gr)) →
  (n ≤ length (pool s))%nat → only s g → (∀ z, 0 ≤ z < i → ∃ q, zlookup (All gr) z = Some (Some q)) →
  ∃ s' gr', initNodes g n i s = Done ((), s') ∧ rtc sched_step s s' ∧ only s' g ∧
    groups (ssh s') !! g = Some gr' ∧ (∀ o, o ∈ All gr' → is_Some o) ∧ length (All gr') = length (All gr).
Proof.
  induction n as [|n IH]; intros i s gr Hsys Hg Hi Hlen Hpool Honly Hfull.
  { exists s, gr. split_and!; try done. intros o Ho. apply list_elem_of_lookup_1 in Ho as [z Hz].
    destruct (Hfull (Z.of_nat z)) as [q Hq]; [apply lookup_lt_Some in Hz; lia|].
    apply zlookup_Some in Hq as [_ Hq]. rewrite Nat2Z.id in Hq. rewrite Hz in Hq. injection Hq as ->. by eexists. }
  destruct (pool s) as [|d l] eqn:Ep; [cbn in Hpool; lia|].
  destruct (GetForGroup_run D s g gr i d l) as (nd&p&s1&Hr&Hp1&Hg1&Hnd&Honly1); [done..|lia|].
  set (f := λ x : Instance, x <| imeta ::= λ m, IncreaseSize InstanceOverhead (m <| Capacity := InstanceCapacity |>) |>).
  set (s2 := s1 <| ssh := ssh s1 <| ls := ls (ssh s1) <| insts ::= alter f nd |> |> |>).
  assert (Hst1 : sched_step s s1) by (by eapply step_get).
  pose proof (sched_step_sys D s s1 Hsys Hst1) as Hsys1.
  assert (Hst2 : sched_step s1 s2).
  { apply step_lambdastore.
    - split; [done|]. intros j. by apply alter_idep.
    - eapply (IInv_modInst nd f); [split; try done; by left|apply (sy_insts _ _ Hsys1)|done]. }
  set (gr1 := gr <| All ::= zinsert i (Some p) |>).
  assert (Hg1' : groups (ssh s2) !! g = Some gr1) by (cbn; rewrite Hg1, lookup_alter_eq, Hg; done).
  destruct (IH (i + 1) s2 gr1) as (s'&gr'&Hr'&Hst'&Honly'&Hg'&Hall&Elen).
  - by eapply sched_step_sys.
  - done.
  - lia.
  - cbn. rewrite length_zinsert. lia.
  - cbn. rewrite Hp1. cbn in Hpool. lia.
  - intros k q gi Ha Hgi. destruct (Honly1 k q gi Ha Hgi) as [?|[? ?]]; [done|by eapply Honly].
  - intros z Hz. cbn. destruct (decide (i = z)) as [<-|Hne].
    + exists p. rewrite zlookup_zinsert_eq by lia. done.
    + rewrite zlookup_zinsert_ne by done. apply Hfull. lia.
  - exists s', gr'. split_and!; [|by eapply rtc_l, rtc_l|done|done|done|].
    + cbn [initNodes]. erewrite bind_done by exact Hr. by erewrite bind_done by reflexivity.
    + rewrite Elen. cbn. by rewrite length_zinsert.
Qed.

Lemma New_run D s num :
  SchedSys D s → 0 ≤ num → (Z.to_nat num ≤ length (pool s))%nat → (∀ k q, ¬ active s k q) →
  ∃ g s' gr, New num s = Done (g, s') ∧ rtc sched_step s s' ∧ only s' g ∧
    groups (ssh s') !! g = Some gr ∧ (∀ o, o ∈ All gr → is_Some o) ∧ length (All gr) = Z.to_nat num.
Proof.
  intros Hsys Hnum Hpool Hnone. unfold New.
  assert (Hng : ∃ g s1, onS (NewGroup num) s = Done (g, s1) ∧
    groups (ssh s1) !! g = Some (MkGroup (replicate (Z.to_nat num) None) num 0) ∧ pool s1 = pool s ∧ actives s1 = actives s).
  { unfold onS, zoom, NewGroup. rewrite decide_False by lia. eexists _, _. split; [reflexivity|].
    cbn. by rewrite lookup_insert_eq. }
  destruct Hng as (g&s1&Hng&Hg&Hp&Ha). assert (Hst : sched_step s s1) by (by eapply step_newgroup).
  erewrite bind_done by exact Hng. set (gr0 := MkGroup _ _ _) in Hg.
  assert (Hget : onS (getGroup g) s1 = Done (gr0, s1)).
  { unfold onS, zoom, getGroup. rewrite Hg. by destruct s1. }
  erewrite bind_done by exact Hget.
  destruct (initNodes_run D g (length (All gr0)) 0 s1 gr0) as (s'&gr'&Hr&Hst'&Ho&Hg'&Hall&Elen).
  - by eapply sched_step_sys.
  - done.
  - lia.
  - lia.
  - cbn. rewrite length_replicate, Hp. done.
  - intros k q gi Hq. destruct (Hnone k q). unfold active in *. by rewrite <- Ha.
  - intros z Hz. lia.
  - exists g, s', gr'. split; [by erewrite bind_done by exact Hr|]. split_and!; [by eapply rtc_l|done..|].
    rewrite Elen. cbn. apply length_replicate.
Qed.

(** A proxy's life conserves the deployments.  On a scheduler with enough of
    them, [New] returns with an instance in every slot of its group; whatever
    then happens (connections, migrations that switch deployments, reserved
    destinations), as long as no slot is emptied and no other group is served,
    [Release] returns, without blocking or panicking, and the pool is what
    it was before the proxy started, each deployment once. *)
Theorem proxy_lifecycle a n h s0 num :
  (∀ k, hm_Get a k = None) → groups h = ∅ → IInv (ls h) →
  NewScheduler a n h = Done ((), s0) → 0 ≤ num → (Z.to_nat num ≤ n)%nat →
  ∃ g s1 gr1, New num s0 = Done (g, s1) ∧ groups (ssh s1) !! g = Some gr1 ∧
    length (All gr1) = Z.to_nat num ∧ (∀ o, o ∈ All gr1 → is_Some o) ∧
    ∀ s2 gr2, rtc sched_step s1 s2 → groups (ssh s2) !! g = Some gr2 → (∀ o, o ∈ All gr2 → is_Some o) → only s2 g →
      ∃ s3, Release g s2 = Done ((), s3) ∧ pool s3 ≡ₚ pool s0.
Proof.
  intros Ha Hgs HI Hnew Hnum Hle. destruct (NewScheduler_run a n h Ha Hgs HI) as (s&Hr&El&Hs0).
  rewrite Hnew in Hr. injection Hr as <-.
  destruct (New_run (pool s0) s0 num) as (g&s1&gr1&Hn&Hst&Ho&Hg&Hall&Elen); [done|done|lia| |].
  { intros k q Hk. destruct (sc_active s0 (sy_inv _ _ Hs0) k q Hk) as (d&Hd&_&Hnp). apply Hnp.
    apply (sy_owned _ _ Hs0). right. by exists k, q. }
  exists g, s1, gr1. split_and!; try done. intros s2 gr2 Hst2 Hg2 Hall2 Honly2.
  destruct (Release_returns (pool s0) s2 g gr2) as (s3&Hr3&_&_&Hp); [|done|done|].
  - eapply reachable_sys; [exact Hs0|]. by etrans.
  - exists s3. split; [done|]. apply Hp; [|exact Honly2]. apply (sc_pool s0 (sy_inv _ _ Hs0)).
Qed.
End release.

Lemma proxy_lifecycle_witness : ∃ g s1, New 2 sched0 = Done (g, s1) ∧
  ∃ s3, Release g s1 = Done ((), s3) ∧ pool s3 ≡ₚ pool sched0.
Proof.
  destruct (proxy_lifecycle (∅ : gmap Z gptr) 5 emptyHeap sched0 2) as (g&s1&gr1&H1&H2&_&H4&H5).
  - intros k. apply lookup_empty.
  - reflexivity.
  - apply emptyHeap_inv.
  - vm_compute. reflexivity.
  - lia.
  - cbn. lia.
  - exists g, s1. split; [exact H1|]. apply (H5 s1 gr1); [apply rtc_refl|exact H2|exact H4|].
    assert (E : match New 2 sched0 with
      | Done (g, s1) => bool_decide (map_Forall (λ _ gi, ggroup gi = g) (ginsts (ssh s1))) | _ => false end = true)
      by (vm_compute; reflexivity).
    rewrite H1 in E. apply bool_decide_eq_true in E. intros k q gi _ Hgi. exact (E q gi Hgi).
Defined.
