(* ===== verification/GlobalIp.v ===== *)
(** * proxy/global: the address of the proxy

    An instance is told to connect to [ServerIp]: the first private IPv4 address
    of the host, unless the configuration has a public one.  The methods of
    [net.IP] are those of the Go library, on the bytes of an address. *)

From stdpp Require Import pretty.
From S2P Require Import Prelude Lambdastore.

(** ** net.IP *)

Definition IP : Type := list Z.
Definition byteOf (ip : IP) (i : nat) : Z := nth i ip 0.

Definition To4 (ip : IP) : option IP :=
  if decide (length ip = 4%nat) then Some ip
  else if decide (length ip = 16%nat ∧ take 10 ip = replicate 10 0 ∧ byteOf ip 10 = 255 ∧ byteOf ip 11 = 255)
  then Some (drop 12 ip) else None.

Definition IPv6loopback : IP := replicate 15 0 ++ [1].
Definition IsLoopback (ip : IP) : bool :=
  match To4 ip with
  | Some ip4 => bool_decide (byteOf ip4 0 = 127)
  | None => bool_decide (ip = IPv6loopback)
  end.
Definition IsMulticast (ip : IP) : bool :=
  match To4 ip with
  | Some ip4 => bool_decide (Z.land (byteOf ip4 0) 0xf0 = 0xe0)
  | None => bool_decide (length ip = 16%nat ∧ byteOf ip 0 = 0xff)
  end.
(** [String] of an IPv4 address. *)
Definition dotted (ip4 : IP) : string :=
  pretty (byteOf ip4 0) +:+ "." +:+ pretty (byteOf ip4 1) +:+ "." +:+
  pretty (byteOf ip4 2) +:+ "." +:+ pretty (byteOf ip4 3).

(** ** ip.go *)

Definition IsPrivateIp (ip : IP) : bool :=
  if IsLoopback ip || IsMulticast ip then false else
  match To4 ip with
  | Some ip4 =>
      if decide (byteOf ip4 0 = 10) then true
      else if decide (byteOf ip4 0 = 172 ∧ 16 ≤ byteOf ip4 1 ∧ byteOf ip4 1 ≤ 31) then true
      else bool_decide (byteOf ip4 0 = 192 ∧ byteOf ip4 1 = 168)
  | None => false
  end.

Definition ErrPrivateIPNotFound : string := "Can not identify private ip.".

(** The addresses of the interfaces; some are no [*net.IPNet]. *)
Inductive Addr : Type := IPNet (ip : IP) | OtherAddr.

Fixpoint firstPrivate (addrs : list Addr) : string + string :=
  match addrs with
  | [] => inr ErrPrivateIPNotFound
  | IPNet ip :: l =>
      if IsPrivateIp ip then inl (match To4 ip with Some ip4 => dotted ip4 | None => "" end) else firstPrivate l
  | OtherAddr :: l => firstPrivate l
  end.
(** [GetPrivateIp], and [GetIP]; [io] is what [net.InterfaceAddrs] returns. *)
Definition GetPrivateIp (io : list Addr + string) : string + string :=
  match io with
  | inr err => inr err
  | inl addrs => firstPrivate addrs
  end.

(** ** Initialisation *)

(** [init] of the package, on the initial [ServerIp]; an error is a panic. *)
Definition global_init (io : list Addr + string) (ServerIp : string) : string + string :=
  if decide (ServerIp = "") then GetPrivateIp io else inl ServerIp.
(** [init] of the proxy: the configuration replaces the address. *)
Definition main_init (ServerPublicIp ServerIp : string) : string :=
  if decide (ServerPublicIp ≠ "") then ServerPublicIp else ServerIp.
(** Packages are initialised before those that import them. *)
Definition startup (ServerPublicIp : string) (io : list Addr + string) : string + string :=
  match global_init io "" with
  | inl ip => inl (main_init ServerPublicIp ip)
  | inr err => inr err
  end.

(** ** RFC 1918 *)

(** The address as a number, and whether a network of [n] bits contains it. *)
Definition addr32 (ip4 : IP) : Z :=
  byteOf ip4 0 * 2 ^ 24 + byteOf ip4 1 * 2 ^ 16 + byteOf ip4 2 * 2 ^ 8 + byteOf ip4 3.
Definition netmask (n : Z) : Z := Z.shiftl (Z.ones n) (32 - n).
Definition inNet (base n a : Z) : Prop := Z.land a (netmask n) = base.
Definition rfc1918 (a : Z) : Prop :=
  inNet (addr32 [10; 0; 0; 0]) 8 a ∨ inNet (addr32 [172; 16; 0; 0]) 12 a ∨ inNet (addr32 [192; 168; 0; 0]) 16 a.

Definition bytes (ip : IP) : Prop := Forall (λ b, 0 ≤ b < 256) ip.

(** Masking the low bits of a [w]-bit number. *)
Lemma land_high w n a : 0 ≤ n ≤ w → 0 ≤ a < 2 ^ w →
  Z.land a (Z.shiftl (Z.ones n) (w - n)) = a / 2 ^ (w - n) * 2 ^ (w - n).
Proof.
  intros Hn Ha. rewrite <- Z.shiftr_div_pow2, <- Z.shiftl_mul_pow2 by lia. apply Z.bits_inj'. intros i Hi.
  rewrite Z.land_spec, !Z.shiftl_spec by lia. destruct (decide (i < w - n)) as [Hlt|Hge].
  { rewrite !(Z.testbit_neg_r _ (i - (w - n))) by lia. apply andb_false_r. }
  rewrite Z.shiftr_spec, Z.sub_add by lia. destruct (decide (i < w)) as [H32|H32].
  - rewrite Z.ones_spec_low by lia. apply andb_true_r.
  - assert (Z.testbit a i = false) as ->; [|done].
    destruct (decide (a = 0)) as [->|Hne]; [apply Z.testbit_0_l|].
    apply Z.bits_above_log2; [lia|]. apply Z.log2_lt_pow2; [lia|].
    eapply Z.lt_le_trans; [apply Ha|]. apply Z.pow_le_mono_r; lia.
Qed.

(** A network contains the addresses that have its prefix. *)
Lemma inNet_prefix c n a : 0 ≤ n ≤ 32 → 0 ≤ a < 2 ^ 32 → inNet (c * 2 ^ (32 - n)) n a ↔ a / 2 ^ (32 - n) = c.
Proof.
  intros Hn Ha. unfold inNet, netmask. rewrite land_high by done.
  assert (2 ^ (32 - n) ≠ 0) by (apply Z.pow_nonzero; lia). split; [by intros ?%Z.mul_reg_r|by intros ->].
Qed.

Lemma To4_four ip ip4 : bytes ip → To4 ip = Some ip4 →
  ∃ a b c d, ip4 = [a; b; c; d] ∧ 0 ≤ a < 256 ∧ 0 ≤ b < 256 ∧ 0 ≤ c < 256 ∧ 0 ≤ d < 256.
Proof.
  intros Hb Hip. assert (bytes ip4 ∧ length ip4 = 4%nat) as [Hb4 Hl].
  { unfold To4 in Hip. repeat case_decide; simplify_eq; [done|].
    split; [by apply Forall_drop|rewrite length_drop; lia]. }
  destruct ip4 as [|a [|b [|c [|d [|]]]]]; try done. unfold bytes in Hb4. decompose_Forall_hyps.
  by exists a, b, c, d.
Qed.

(** The private addresses of the code are those of the RFC. *)
Lemma private_rfc1918 ip : bytes ip →
  IsPrivateIp ip = true ↔ ∃ ip4, To4 ip = Some ip4 ∧ rfc1918 (addr32 ip4).
Proof.
  intros Hb. unfold IsPrivateIp, IsLoopback, IsMulticast. destruct (To4 ip) as [ip4|] eqn:E.
  2:{ split; [by case_match|]. by intros (?&?&_). }
  destruct (To4_four ip ip4 Hb E) as (a&b&c&d&->&Ha&Hb'&Hc&Hd).
  assert (Hr : 0 ≤ addr32 [a; b; c; d] < 2 ^ 32) by (unfold addr32; cbn; lia).
  assert (Hrfc : rfc1918 (addr32 [a; b; c; d]) ↔ a = 10 ∨ a = 172 ∧ 16 ≤ b ≤ 31 ∨ a = 192 ∧ b = 168).
  { unfold rfc1918. change (addr32 [10; 0; 0; 0]) with (10 * 2 ^ (32 - 8)).
    change (addr32 [172; 16; 0; 0]) with (2753 * 2 ^ (32 - 12)).
    change (addr32 [192; 168; 0; 0]) with (49320 * 2 ^ (32 - 16)).
    rewrite !inNet_prefix by (done || lia). unfold addr32. cbn [byteOf nth].
    change (2 ^ (32 - 8)) with 16777216. change (2 ^ (32 - 12)) with 1048576. change (2 ^ (32 - 16)) with 65536.
    change (2 ^ 24) with 16777216. change (2 ^ 16) with 65536. change (2 ^ 8) with 256.
    remember (_ + d) as x eqn:Ex.
    assert (x / 16777216 = a) as -> by (Z.div_mod_to_equations; lia).
    assert (x / 1048576 = a * 16 + b / 16) as -> by (Z.div_mod_to_equations; lia).
    assert (x / 65536 = a * 256 + b) as -> by (Z.div_mod_to_equations; lia).
    clear Ex Hr. Z.div_mod_to_equations. lia. }
  cbn [byteOf nth]. rewrite (bool_decide_ext (Z.land a 240 = 224) (a / 16 = 14)).
  2:{ pose proof (land_high 8 4 a ltac:(lia) Ha) as Hl.
      change (Z.land a 240 = a / 16 * 16) in Hl. Z.div_mod_to_equations. lia. }
  split.
  - intros Hp. exists [a; b; c; d]. split; [done|]. apply Hrfc. repeat case_match; try done; [tauto..|].
    apply bool_decide_eq_true in Hp. tauto.
  - intros (ip4&[= <-]&Hp%Hrfc). rewrite (bool_decide_false (a = 127)) by lia.
    rewrite (bool_decide_false (a / 16 = 14)) by (Z.div_mod_to_equations; lia). cbn [orb].
    case_decide; [done|]. case_decide; [done|]. apply bool_decide_eq_true. lia.
Qed.

(** ** The address that is chosen *)

Definition isPrivate (x : Addr) : bool := match x with IPNet ip => IsPrivateIp ip | OtherAddr => false end.
Definition addr_bytes (x : Addr) : Prop := match x with IPNet ip => bytes ip | OtherAddr => True end.

Lemma firstPrivate_split addrs :
  match firstPrivate addrs with
  | inl s => ∃ l ip l', addrs = l ++ IPNet ip :: l' ∧ (∀ x, x ∈ l → isPrivate x = false) ∧
      IsPrivateIp ip = true ∧ s = match To4 ip with Some ip4 => dotted ip4 | None => "" end
  | inr e => e = ErrPrivateIPNotFound ∧ ∀ x, x ∈ addrs → isPrivate x = false
  end.
Proof.
  assert (Hcons : ∀ x (l : list Addr), isPrivate x = false → (∀ y, y ∈ l → isPrivate y = false) →
    ∀ y, y ∈ x :: l → isPrivate y = false).
  { intros x l Hx Hl y [->|Hy]%elem_of_cons; [done|by apply Hl]. }
  induction addrs as [|x l IH]; [split; [done|by intros ? ?%not_elem_of_nil]|].
  assert (Hnext : isPrivate x = false → firstPrivate (x :: l) = firstPrivate l).
  { destruct x as [ip|]; [|done]. cbn. by intros ->. }
  destruct (isPrivate x) eqn:Ex.
  - destruct x as [ip|]; [|done]. cbn in *. rewrite Ex. exists [], ip, l. split_and!; [done| |done..].
    by intros ? ?%not_elem_of_nil.
  - rewrite Hnext by done. destruct (firstPrivate l) as [s|e].
    + destruct IH as (l1&ip&l2&->&Hl&Hr). exists (x :: l1), ip, l2. split_and!; [done|by apply Hcons|apply Hr..].
    + destruct IH as [-> Hl]. split; [done|by apply Hcons].
Qed.

(** C28: the address is the first private one.  For any addresses of the host's
    interfaces, [GetPrivateIp] returns, in dotted form, the first that is an
    IPv4 address (alone or mapped into IPv6) inside 10/8, 172.16/12 or
    192.168/16, the networks of RFC 1918 given by their masks; it returns
    [ErrPrivateIPNotFound] exactly when there is none, and an error of the
    interfaces as it is. *)
Theorem GetPrivateIp_first io :
  (∀ addrs, io = inl addrs → ∀ x, x ∈ addrs → addr_bytes x) →
  let private x := ∃ ip ip4, x = IPNet ip ∧ To4 ip = Some ip4 ∧ rfc1918 (addr32 ip4) in
  match io, GetPrivateIp io with
  | inl addrs, inl s => ∃ l ip ip4 l', addrs = l ++ IPNet ip :: l' ∧ (∀ x, x ∈ l → ¬ private x) ∧
      To4 ip = Some ip4 ∧ rfc1918 (addr32 ip4) ∧ s = dotted ip4
  | inl addrs, inr e => e = ErrPrivateIPNotFound ∧ ∀ x, x ∈ addrs → ¬ private x
  | inr e, r => r = inr e
  end.
Proof.
  intros Hio private. destruct io as [addrs|e]; [|done]. specialize (Hio addrs eq_refl).
  assert (Hnot : ∀ x, addr_bytes x → isPrivate x = false → ¬ private x).
  { intros x Hb Hx (ip&ip4&->&H4&Hr). assert (IsPrivateIp ip = true); [|cbn in Hx; congruence].
    apply private_rfc1918; [done|by exists ip4]. }
  cbn [GetPrivateIp]. pose proof (firstPrivate_split addrs) as Hf. destruct (firstPrivate addrs) as [s|e].
  - destruct Hf as (l&ip&l'&->&Hl&Hp&->).
    apply private_rfc1918 in Hp as (ip4&H4&Hr); [|apply (Hio (IPNet ip)), elem_of_app; right; left].
    exists l, ip, ip4, l'. rewrite H4. split_and!; try done. intros x Hx. apply Hnot; [|by apply Hl].
    apply Hio, elem_of_app. by left.
  - destruct Hf as [-> Hl]. split; [done|]. intros x Hx. apply Hnot; [by apply Hio|by apply Hl].
Qed.

Definition hostAddrs : list Addr :=
  [IPNet [127; 0; 0; 1]; IPNet IPv6loopback; OtherAddr; IPNet [54; 12; 3; 4];
   IPNet (replicate 10 0 ++ [255; 255; 172; 31; 0; 7]); IPNet [10; 0; 0; 1]].
Lemma GetPrivateIp_first_witness : GetPrivateIp (inl hostAddrs) = inl "172.31.0.7" ∧
  ∃ l ip ip4 l', hostAddrs = l ++ IPNet ip :: l' ∧
    (∀ x, x ∈ l → ¬ ∃ ip ip4, x = IPNet ip ∧ To4 ip = Some ip4 ∧ rfc1918 (addr32 ip4)) ∧
    To4 ip = Some ip4 ∧ rfc1918 (addr32 ip4) ∧ "172.31.0.7" = dotted ip4.
Proof.
  split; [vm_compute; reflexivity|]. apply (GetPrivateIp_first (inl hostAddrs)).
  intros addrs [= <-]. rewrite <- list.Forall_forall. repeat constructor; cbn; repeat constructor; lia.
Defined.

(** The public address of the configuration does not avoid the search for a
    private one: without it the proxy panics before it looks. *)
Lemma public_ip_needs_private pub :
  startup pub (inl [IPNet [127; 0; 0; 1]; IPNet [54; 12; 3; 4]]) = inr ErrPrivateIPNotFound.
Proof. reflexivity. Qed.

(** Otherwise the configured address is used, and the private one without it. *)
Lemma startup_address pub io s : GetPrivateIp io = inl s →
  startup pub io = inl (if decide (pub = "") then s else pub).
Proof.
  intros Hs. unfold startup, global_init, main_init. rewrite decide_True by done. rewrite Hs.
  by repeat case_decide.
Qed.
