(* ===== verification/ProxyMain.v ===== *)
(** * proxy/proxy.go: the proxy process

    [main] listens, makes the proxy, waits until its instances are warm, serves,
    and ends after a signal.  The steps interleave [main], the goroutine that
    waits for a signal, the accept loop for lambdas, the goroutines that warm
    instances up, and whatever serving does to the scheduler.  Whether a
    listener opens, a file is written or the server of redeo fails is chosen by
    the step. *)

From S2P Require Import Prelude Lambdastore Request Instance Connection Validation Group Meta Placer Scheduler SchedulerTheorems Proxy Migrator ForwardConn ProxyCollector Lifecycle.

(** ** State *)

(** Where [main] is; [g] is the group of the proxy. *)
Inductive Main : Type :=
  | MListenClients | MListenLambdas | MNew
  | MReady (g : grp) | MWritePid (g : grp) | MServe (g : grp) | MDone (g : grp) | MRelease (g : grp)
  | MCleanUp | MRemovePid | MExited (code : Z).

(** Where the goroutine of the signal is; [HCollect i] has sent the data command
    to [i] instances, [HSend i] has counted the next one and sends. *)
Inductive Hook : Type :=
  | HOff | HSignal | HCloseSig | HStop | HCloseServer | HCollect (i : nat) | HSend (i : nat) | HWait
  | HCloseLambdas | HCloseDone | HEnd.

Inductive Lis : Type := Unopened | Opened | LisClosed.

(** [warming] counts the calls of [WarmUp] under way; [sig] is whether a signal
    is buffered, [accepting] whether the accept loop runs and [served] how many
    connections it took.  Of the data commands, [cmdq] are with the loops of
    their instances, [flight] are written and unanswered, [heard] answered,
    [refused] could not be flushed, and [lost] will not be answered. *)
Record World {H : Type} : Type := MkWorld {
  wmain : Main; hook : Hook;
  clientLis : Lis; lambdaLis : Lis; accepting : bool; served : nat;
  sig : bool; sigClosed : bool; doneClosed : bool;
  warming : nat; initialized : Z; readyClosed : bool;
  cmdq : nat; flight : nat; heard : nat; refused : nat; lost : nat; pidFile : bool; ticker : Ticking; migrators : gmap Z Server; sched : Scheduler H;
  panicked : bool
}.
Arguments World : clear implicits.
#[global] Instance World_eta {H} : Eta (World H) := λ w,
  MkWorld H (wmain w) (hook w) (clientLis w) (lambdaLis w) (accepting w) (served w) (sig w) (sigClosed w)
    (doneClosed w) (warming w) (initialized w) (readyClosed w) (cmdq w) (flight w) (heard w) (refused w) (lost w) (pidFile w) (ticker w)
    (migrators w) (sched w) (panicked w).

Section main.
Context {H : Type} {HM : HashMap Z gptr H} {HL : HashMapLaws Z gptr H}.
Variable num : Z.
Implicit Types (w : World H) (s : Scheduler H) (g : grp).

(** The group of a proxy whose instances run. *)
Definition running w : option grp :=
  match wmain w with
  | MReady g | MWritePid g | MServe g | MDone g | MRelease g => Some g
  | _ => None
  end.


(** ** Operations *)

Definition exit (code : Z) w : World H := w <| wmain := MExited code |>.

Definition listenClients (ok : bool) w : World H :=
  if ok then w <| clientLis := Opened |> <| wmain := MListenLambdas |> else exit 1 w.
Definition listenLambdas (ok : bool) w : World H :=
  if ok then w <| lambdaLis := Opened |> <| wmain := MNew |> else exit 1 w.
(** [New] starts a warm-up for each slot; then [go prxy.Serve(lambdaLis)]. *)
Definition newProxy w : option (World H) :=
  match New num (sched w) with
  | Done (g, s') => Some (w <| sched := s' |> <| warming := Z.to_nat num |> <| accepting := true |> <| wmain := MReady g |>)
  | _ => None
  end.
(** A warm-up ends: the goroutine of [New] counts it, and closes [ready] when it
    is the last. *)
Definition warmed w : World H :=
  let w := w <| warming ::= Nat.pred |> <| initialized ::= (λ i, i32 (i + 1)) |> in
  if decide (initialized w = i32 num) then
    if readyClosed w then w <| panicked := true |> else w <| readyClosed := true |>
  else w.
(** An iteration of [Serve]. *)
Definition accept (ok : bool) w : World H :=
  if ok then w <| served ::= S |> else w <| accepting := false |>.
(** The PID is written, and the goroutine for the signal started. *)
Definition writePid g (ok : bool) w : World H :=
  w <| pidFile := ok |> <| hook := HSignal |> <| wmain := MServe g |>.
(** [ServeAsync] returns; after an error [main] looks whether there was a signal,
    and so receives one that is buffered. *)
Definition servedClients g (err : bool) w : World H :=
  (if err && negb (sigClosed w) then w <| sig := false |> else w) <| wmain := MDone g |>.
(** [signal.Notify]: a signal that the channel has no room for is dropped; a
    send on the closed channel panics. *)
Definition notify w : World H :=
  if sigClosed w then w <| panicked := true |> else w <| sig := true |>.
(** [CollectData] counts an instance, and sends it the command when its channel
    has room. *)
Definition count (f : Z → Z) w : World H :=
  w <| sched ::= (λ s, s <| ssh ::= (λ h, h <| ls ::= (λ l, l <| DataCollected ::= f |>) |>) |>) |>.
Definition askData (i : nat) w : World H := count Z.succ w <| hook := HSend i |>.
Definition sendData (i : nat) w : World H := w <| cmdq ::= S |> <| hook := HCollect (S i) |>.
(** The loop of the instance writes the command; when the flush fails, it is
    counted as collected. *)
Definition flushData (ok : bool) w : World H :=
  let w := w <| cmdq ::= Nat.pred |> in
  if ok then w <| flight ::= S |> else count Z.pred w <| refused ::= S |>.
(** The reply of an instance arrives. *)
Definition gotData w : World H := count Z.pred w <| flight ::= Nat.pred |> <| heard ::= S |>.
(** The loop of the instance ends with the command in hand, or the connection is
    lost before the reply: nothing counts it. *)
Definition loseData (written : bool) w : World H :=
  (if written then w <| flight ::= Nat.pred |> else w <| cmdq ::= Nat.pred |>) <| lost ::= S |>.
Definition collecting w : Z := DataCollected (ls (ssh (sched w))).
Definition releaseProxy g w : option (World H) :=
  match Release g (sched w) with
  | Done (_, s') => Some (w <| sched := s' |> <| wmain := MCleanUp |>)
  | _ => None
  end.
(** [CleanUpScheduler] *)
Definition cleanUp w : option (World H) :=
  match ClearAll (sched w), CleanUp (migrators w) with
  | Done (_, s'), Done (_, m') => Some (w <| sched := s' |> <| migrators := m' |> <| wmain := MRemovePid |>)
  | _, _ => None
  end.
Definition removePid (ok : bool) w : World H :=
  exit 0 (if ok then w <| pidFile := false |> else w).

(** ** Steps *)

(** Slots are filled, and no other group is served. *)
Definition proper g s : Prop :=
  only s g ∧ ∃ gr, groups (ssh s) !! g = Some gr ∧ length (All gr) = Z.to_nat num ∧ ∀ o, o ∈ All gr → is_Some o.

(** A step while the process lives. *)
Inductive wstep w : World H → Prop :=
  | w_listenClients ok : wmain w = MListenClients → wstep w (listenClients ok w)
  | w_listenLambdas ok : wmain w = MListenLambdas → wstep w (listenLambdas ok w)
  | w_new w' : wmain w = MNew → newProxy w = Some w' → wstep w w'
  | w_warmed : (0 < warming w)%nat → wstep w (warmed w)
  | w_ready g : wmain w = MReady g → readyClosed w = true → wstep w (w <| wmain := MWritePid g |>)
  | w_pid g ok : wmain w = MWritePid g → wstep w (writePid g ok w)
  | w_accept ok : accepting w = true → (ok = true → lambdaLis w = Opened) → wstep w (accept ok w)
  | w_signal : wstep w (notify w)
  (* serving, in the scheduler and the instances: slots stay filled *)
  | w_serve g s' : running w = Some g → sched_step (sched w) s' → proper g s' →
      DataCollected (ls (ssh s')) = collecting w → wstep w (w <| sched := s' |>)
  (* migrators start and end *)
  | w_migrators m' : is_Some (running w) → wstep w (w <| migrators := m' |>)
  (* [ServeAsync] returns *)
  | w_served g err : wmain w = MServe g → wstep w (servedClients g err w)
  | w_done g : wmain w = MDone g → doneClosed w = true → wstep w (w <| wmain := MRelease g |>)
  | w_release g w' : wmain w = MRelease g → releaseProxy g w = Some w' → wstep w w'
  | w_cleanUp w' : wmain w = MCleanUp → cleanUp w = Some w' → wstep w w'
  | w_removePid ok : wmain w = MRemovePid → wstep w (removePid ok w)
  (* the goroutine of the signal *)
  | w_sig : hook w = HSignal → sig w = true → wstep w (w <| sig := false |> <| hook := HCloseSig |>)
  | w_closeSig : hook w = HCloseSig → wstep w (w <| sigClosed := true |> <| hook := HStop |>)
  | w_stop : hook w = HStop → wstep w (w <| ticker ::= PStop |> <| hook := HCloseServer |>)
  | w_closeServer : hook w = HCloseServer → wstep w (w <| clientLis := LisClosed |> <| hook := HCollect 0 |>)
  | w_ask i : hook w = HCollect i → (i < Z.to_nat num)%nat → wstep w (askData i w)
  | w_asked i : hook w = HCollect i → i = Z.to_nat num → wstep w (w <| hook := HWait |>)
  | w_send i : hook w = HSend i → wstep w (sendData i w)
  | w_flush ok : is_Some (running w) → (0 < cmdq w)%nat → wstep w (flushData ok w)
  | w_data : is_Some (running w) → (0 < flight w)%nat → wstep w (gotData w)
  | w_lose (written : bool) : is_Some (running w) → (0 < if written then flight w else cmdq w)%nat →
      wstep w (loseData written w)
  | w_collected : hook w = HWait → collecting w = 0 → wstep w (w <| hook := HCloseLambdas |>)
  | w_closeLambdas : hook w = HCloseLambdas → wstep w (w <| lambdaLis := LisClosed |> <| hook := HCloseDone |>)
  | w_closeDone : hook w = HCloseDone → wstep w (w <| doneClosed := true |> <| hook := HEnd |>).

(** A process that exited or panicked does nothing any more. *)
Definition alive w : bool := negb (panicked w) && match wmain w with MExited _ => false | _ => true end.
Definition pstep w w' : Prop := alive w = true ∧ wstep w w'.

(** ** Invariants *)

(** How far the goroutine of the signal is, and how many instances it asked. *)
Definition stageOf (h : Hook) : nat :=
  match h with
  | HOff => 0 | HSignal => 1 | HCloseSig => 2 | HStop => 3 | HCloseServer => 4 | HCollect _ | HSend _ => 5 | HWait => 6
  | HCloseLambdas => 7 | HCloseDone => 8 | HEnd => 9
  end.
Definition asked (h : Hook) : nat :=
  match h with
  | HOff | HSignal | HCloseSig | HStop | HCloseServer => 0
  | HCollect i => i
  | HSend i => S i
  | _ => Z.to_nat num
  end.
Definition sends (h : Hook) : nat := match h with HSend i => i | _ => asked h end.

(** [main] has not made the proxy. *)
Definition unstarted w : bool :=
  match wmain w with
  | MListenClients | MListenLambdas | MNew => true
  | MExited c => bool_decide (c = 1)
  | _ => false
  end.

(** What the stages of the goroutine have done. *)
Record shutdown w : Prop := MkShutdown {
  sd_sig : sigClosed w = bool_decide (3 ≤ stageOf (hook w))%nat;
  sd_stop : (4 ≤ stageOf (hook w))%nat → stopped (ticker w) = true;
  sd_clients : (5 ≤ stageOf (hook w))%nat → clientLis w = LisClosed;
  sd_lambdas : (8 ≤ stageOf (hook w))%nat → lambdaLis w = LisClosed;
  sd_done : doneClosed w = bool_decide (9 ≤ stageOf (hook w))%nat;
  sd_panic : panicked w = true → sigClosed w = true;
  sd_pid : hook w = HOff → pidFile w = false;
  sd_main : match wmain w with
    | MListenClients | MListenLambdas | MNew | MReady _ | MWritePid _ => hook w = HOff
    | MServe _ | MDone _ => hook w ≠ HOff
    | MRelease _ | MCleanUp | MRemovePid => hook w = HEnd
    | MExited c => c = 1 ∧ hook w = HOff ∨ c = 0 ∧ hook w = HEnd
    end
}.

Hypothesis Hnum : 0 < num < 2 ^ 31.

Ltac world := cbn in *; simplify_eq; repeat case_match; simplify_eq; cbn in *.

Lemma i32_small z : 0 ≤ z < 2 ^ 31 → i32 z = z.
Proof. intros Hz. unfold i32. rewrite Z.mod_small; lia. Qed.

(** Where [main] needs [ready] to be closed. *)
Definition past_ready w : Prop :=
  match wmain w with MWritePid _ | MServe _ | MDone _ | MRelease _ => readyClosed w = true | _ => True end.
(** [ready] is closed once, by the last warm-up. *)
Definition readiness w : Prop :=
  (unstarted w = true → warming w = 0%nat ∧ initialized w = 0 ∧ readyClosed w = false) ∧
  (unstarted w = false → initialized w = num - Z.of_nat (warming w) ∧ 0 ≤ initialized w ∧
     readyClosed w = bool_decide (warming w = 0%nat)) ∧ past_ready w.

(** No migrator listens or forwards. *)
Definition quiet w : Prop := ∀ p v, migrators w !! p = Some v → listening v = false ∧ fconn v = None.


(** A warm-up closes [ready] if it is the last, and never twice. *)
Lemma warmed_run w : readiness w → (0 < warming w)%nat →
  warmed w = w <| warming := Nat.pred (warming w) |> <| initialized := initialized w + 1 |>
    <| readyClosed := bool_decide (Nat.pred (warming w) = 0%nat) |>.
Proof.
  intros (Hu&Hs&_) Hw. destruct (unstarted w).
  { destruct Hu as (Hz&_); [done|lia]. }
  destruct Hs as (Hi&H0&Hr); [done|]. rewrite bool_decide_false in Hr by lia.
  unfold warmed. cbn. rewrite !i32_small by lia. rewrite Hr. destruct (decide _) as [E|E].
  - rewrite bool_decide_true by lia. by destruct w.
  - rewrite bool_decide_false by lia. destruct w. cbn in *. by subst.
Qed.







(** *** The scheduler *)



Variables (s0 : Scheduler H).
Hypothesis Hsys0 : SchedSys (pool s0) s0.
Hypothesis Hfree : (Z.to_nat num ≤ length (pool s0))%nat.
Hypothesis Hzero : DataCollected (ls (ssh s0)) = 0.

(** The instances of the scheduler, through the life of the process. *)
Definition owning w : Prop :=
  match wmain w with
  | MListenClients | MListenLambdas | MNew => sched w = s0
  | MReady g | MWritePid g | MServe g | MDone g | MRelease g => SchedSys (pool s0) (sched w) ∧ proper g (sched w)
  | MCleanUp => SchedSys (pool s0) (sched w) ∧ pool (sched w) ≡ₚ pool s0
  | MRemovePid => pool (sched w) ≡ₚ pool s0 ∧ quiet w
  | MExited c => (c = 1 → sched w = s0) ∧ (c ≠ 1 → pool (sched w) ≡ₚ pool s0 ∧ quiet w)
  end.






(** *** The data of the instances *)

Definition gathering w : Prop :=
  (cmdq w + flight w + heard w + refused w + lost w = sends (hook w))%nat ∧
  (is_Some (running w) → collecting w = Z.of_nat (asked (hook w)) - Z.of_nat (heard w + refused w)) ∧
  (asked (hook w) ≤ Z.to_nat num)%nat ∧
  ((7 ≤ stageOf (hook w))%nat → (heard w + refused w)%nat = Z.to_nat num).




(** *** All of them *)

Record WInv w : Prop := MkWInv {
  wi_ready : readiness w; wi_shutdown : shutdown w; wi_owning : owning w; wi_gathering : gathering w
}.


(** ** The process can always end *)





(** A second signal, while the data is being collected, ends the process with a
    panic: the channel it is sent on was closed. *)
Lemma second_signal w : WInv w → alive w = true → (3 ≤ stageOf (hook w) < 9)%nat →
  ∃ w', pstep w w' ∧ panicked w' = true ∧ alive w' = false ∧ heard w' = heard w.
Proof.
  intros Hi Ha Hs. exists (notify w). split; [split; [done|apply w_signal]|]. unfold notify.
  rewrite (sd_sig _ (wi_shutdown _ Hi)), bool_decide_true by lia. done.
Qed.

(** Without a signal, [main] does not end when its server failed: it waits. *)
Lemma failed_server_waits w w' g : WInv w → wmain w = MDone g → hook w = HSignal → sig w = false →
  pstep w w' → wmain w' = MDone g ∧ hook w' = HSignal.
Proof.
  intros Hi E Eh Es [Ha Hst]. pose proof (wi_shutdown _ Hi) as Hd.
  destruct Hst; try congruence; cbn; try done.
  - rewrite warmed_run by (done || apply Hi). done.
  - by destruct ok.
  - unfold notify. by destruct (sigClosed w).
  - exfalso. pose proof (sd_done _ Hd) as Hdone. rewrite Eh, bool_decide_false in Hdone by (cbn; lia). congruence.
  - by destruct ok.
  - by destruct written.
Qed.

End main.

(** ** What the process guarantees *)

Section ends.
Context {H : Type} {HM : HashMap Z gptr H} {HL : HashMapLaws Z gptr H}.

End ends.

